(* ===== verification/_CoqProject ===== *)
-Q . S2P
Prelude.v
Utf.v
Recode.v
NtArgs.v
NtArgsFacts.v
Zip.v
NtEnv.v
NtEnvFacts.v
DosEnv.v
DosEnvFacts.v
Tables.v
HttpChunk.v
HttpMessage.v
HttpMessageFacts.v
Url.v
UrlFacts.v
HttpNames.v
HttpNamesFacts.v
Base64.v
Base64Facts.v
HttpText.v
HttpTextFacts.v
NodeTree.v
Tree.v
TreeFacts.v
TreeInsert.v
TreeWalk.v
TreeRemove.v
TreeInstance.v
PageTable.v
PageTableFacts.v
Maps.v
MapsFacts.v
MapsUntrack.v
MapsCorrect.v
Mmap.v
Mprotect.v
MprotectFacts.v
MmapFacts.v
Mremap.v
MremapFacts.v
Critbit.v
CritbitFacts.v
CritbitCorrect.v
Sort.v
SortFacts.v
RadixFacts.v
Levenshtein.v
TokenBucket.v
TokenBucketFacts.v
Dll.v
DllFacts.v
Threads.v
FutexMutex.v
RecursiveMutex.v
Once.v
SpinLock.v
Semaphore.v
Barrier.v
BarrierFacts.v
FreeList.v
FreeListFacts.v
Slab.v
SlabFacts.v
Qsort.v
QsortFacts.v
ZiposPath.v
Zipos.v
ZiposFacts.v
ZiposIo.v
ZiposIoFacts.v
CosmoTime.v
CosmoTimeFacts.v
Calendar.v
Leb128.v
HttpFields.v
HttpFieldsFacts.v
Ip.v
HttpPath.v
HttpPathFacts.v
