(* ===== verification/Prelude.v ===== *)
(** * A verification of the core runtime of cosmoruby

    cosmoruby is Ruby built on the Cosmopolitan C library, whose programs run on Linux, the
    BSDs, macOS and Windows from one file that is also a zip archive. What the library adds
    to Ruby is the code that makes this work, and this development is about that code: the
    memory manager every allocation goes through, the containers, sorting and time
    arithmetic of the library, its locks, the passing of arguments and environment across the
    Windows process boundary, the reading of the archive in the executable, and the HTTP
    library. Definitions are translated from the C sources, function by function, with the
    names of the sources; each file says which sources it translates.

    ** Conventions

    Integers are [Z] with the wrap-around of their C type written out ([u8] to [u64], [s32],
    [s64] below). Bytes and UTF-16 shorts are [Z] in range. A NUL-terminated string is the
    list of its units; a buffer that is written in place is a list that is updated. Code that
    can fail returns an option or a type of its own, and so does code that could leave its
    buffers: a theorem that the result is not a fault says that every access is in bounds.
    Loops that are not structural take fuel. Fuel is always computed from the input by the
    entry point itself (the length of the input, the size of an interval, the height of a
    tree, the number of mappings), and the theorems show that the result is never the one
    for lack of fuel. The [..Facts] files hold the theorems about the definitions of the file
    they are named after; definitions can be evaluated, and the examples do so.

    ** The memory manager ([libc/intrin])

    [Tree] is [tree.c] and [tree.h]: intrusive red-black trees whose colour is a bit of the left
    pointer, over a memory in which only nodes can be read or written. [TreeFacts] says what
    memory represents, [TreeInsert], [TreeRemove] and [TreeWalk] that insertion and removal
    keep the red-black invariant and the order, touch nothing else and take logarithmically
    many turns, and that walks and searches agree with a scan of the nodes. [NodeTree] is the
    interface: a class of operations and the laws their clients may use, in terms of the list
    of nodes; [TreeInstance] shows that the tree obeys them.

    [PageTable] is the radix trie of live pages behind [kisdangerous]; [PageTableFacts] that it
    is a set of pages.

    [Maps] is the tracking of mappings in [maps.c] and [mmap.c], over any [NodeTree]:
    insertion, which merges neighbours, [__muntrack], which removes, shaves and splits
    mappings, the search for overlaps and for free addresses, and [__munmap]. [Mmap] is [mmap],
    [Mprotect] is [mprotect], and [Mremap] is [mremap] with its polyfill. The contract is a map from addresses to
    attributes ([tracks]): [MapsFacts] shows that insertion adds pages to it, [MapsUntrack] that
    untracking removes those of the interval and hands out what it removed, [MapsCorrect],
    [MmapFacts] and [MremapFacts] the same of the entry points, [MprotectFacts] that the pages of
    the interval and no others change their protection, whatever splits; and that after any
    sequence of [mmap], [munmap], [mprotect], [__maps_track] and [__maps_untrack] the tree, the
    counters, the free list and the trie are consistent. (Not so after [mremap], as the examples of [MremapFacts] show.)
    The sizes of pages, the flags and the kind of system are classes ([Platform], [System]);
    the system calls are parameters, and structures come from a stack of free ones and a supply of
    new ones. What is assumed of the calls of
    the system is [os_contract] and [remap_contract], of page sizes [GoodPlatform]. Addresses
    are below 2^56, as [kisdangerous] documents.

    That stack and that supply are lock-free in the sources and are verified in steps of single
    accesses. [FreeList] is the list of [__maps_alloc] and [__maps_free] with tagged pointers:
    [FreeListFacts] shows that it implements an atomic stack when no thread sleeps through 2^11
    exchanges, the range of the tag, and gives the schedule that breaks it when one does. [Slab]
    is [__maps_balloc] with [__maps_newslab], which calls itself through [__maps_mark], and
    [cosmo_permalloc]: [SlabFacts] shows that blocks never overlap and lie in slabs, that their
    addresses are what [FreeList] asks of new structures, and that a call ends.

    ** Processes on Windows ([libc/calls], [libc/runtime], [libc/intrin])

    [Utf] are the codecs for a character, [Recode] the transcoders with their vector paths,
    proved equal to the scalar ones and in bounds. [NtArgs] turns an argument vector into a
    command line and back ([mkntcmdline.c], [getdosargv.c]); [NtArgsFacts] shows the round
    trip, termination and the bounds of buffers. [NtEnv] and [DosEnv] do so for the environment
    ([mkntenvblock.c], [getdosenviron.c]): the block is sorted, has the last definition of
    each variable and decodes to what it was made from.

    ** Containers and algorithms ([libc/mem], [libc/str], [libc/fmt], [libc/intrin])

    [Dll] are the intrusive circular lists of [dll.c], over a memory in which only nodes can be
    accessed; [DllFacts] shows that they implement sequences. [Critbit] are the sets of strings of
    [critbit0_*.c], with failing allocations; [CritbitFacts] is the theory of the bit a node
    tests and of the order it induces, and [CritbitCorrect] shows that any sequence of calls
    behaves as on a list of strings in [strcmp] order and keeps the shape of the tree. [Sort]
    are insertion sort, quicksort and the radix sorts: [SortFacts] and [RadixFacts] show that
    they end, stay in bounds and sort. So does [QsortFacts] for [qsort_r], in [Qsort], over any
    comparison and over any sorting routine to fall back to ([SorterLaws]). [Levenshtein] computes the least cost of an alignment.
    [Leb128] are variable-length integers, which are read back as written. [CosmoTime] is the
    arithmetic on [timespec] and [timeval] and the Windows clock: exact where the result fits,
    saturating where the sources saturate; theorems without a claim record where they wrap.

    ** Threads ([libc/intrin], [libc/thread])

    Every atomic access is a step of its own, taken by any thread at any time, and memory is
    sequentially consistent; [Threads] counts the threads at a place, has the tactics that follow
    the counts through a step, and runs with their events and schedules that are executed. [FutexMutex] is the mutex over a futex: exclusion, no lost
    wake-up, and a way for every waiting thread to get the mutex. [RecursiveMutex] implements a
    lock with an owner and a count, [Semaphore] a count that is never negative, [Once] a single
    call of the initializer and [SpinLock] exclusion. [Barrier] hands out numbers in rounds;
    [BarrierFacts] shows that it implements its specification over any number of resets of its
    counters and does not deadlock. Futexes are modelled by their contract: a wait sleeps when the
    word has the expected value, a wake wakes sleepers, and a sleeper may wake up for no reason.

    ** The archive ([libc/str], [libc/runtime])

    [Zip] finds the end of the central directory, reads the fields of the records and
    converts DOS times: what is found lies within the file, the vector search agrees with
    the portable one, and times are those of the civil calendar but for the leap day of 2000,
    which the source misses.

    On it stands the file system below [/zip] ([libc/runtime/zipos-*.c]). [ZiposPath] brings paths
    into a normal form, proved equal to entering their components one by one. [Zipos] builds the
    sorted index, looks paths up in it and opens, checks and describes files; [ZiposFacts] shows
    that lookups in the index [qsort_r] has sorted return what the central directory says, and
    which paths fail how. [ZiposIo] are reads and seeks of threads that share a
    handle, in steps of single accesses of its position: [ZiposIoFacts] shows that they are atomic
    and that what is opened and read are the contents the archive stores.

    ** HTTP ([net/http])

    [Tables] are the character tables. [HttpMessage] is the incremental message parser,
    [HttpChunk] the decoder of chunked transfers, proved against a byte-at-a-time transducer
    and independent of how the input is cut, [Url] the URL parser and its printer,
    [HttpNames] the tables of header names, reasons and content types with their perfect
    hashes, [Base64] base64 and base32, [HttpText] the escaping and the filters of text.
    [HttpFields] are the parsers of single header fields, [Ip] of addresses with their
    classification, [HttpPath] the checks of request paths and hosts: a path that passes has no
    segment that climbs out of its directory, however its characters are encoded. [Calendar] is
    the date format, read back as the time of the Gregorian calendar. [TokenBucket] is the rate
    limiter: one step per atomic access of its threads, with the invariant of the buckets in
    every interleaving that keeps to a discipline, a refill from every reachable state, and an
    execution without the discipline that breaks it.

    ** Interfaces

    The memory manager is proved against [NodeTreeLaws], which the red-black tree discharges; the
    entry points are evaluated with that tree. [qsort_r] and what
    uses it are proved against [SorterLaws]; [SlabFacts] discharges what [FreeList] assumes of new structures. The environment uses the transcoders and the
    path rules of the arguments; the parsers and tables of HTTP share [Tables].

    ** Not modelled

    Of the memory manager: the branches for Windows (reservations, handles,
    [__maps_envelops]), the bootstrap in [__maps_init], and the interleaving of the operations on
    the tree: they run under a lock, and each is modelled as one step. The wrappers of system calls ([libc/calls], [libc/sock],
    [libc/proc]), the creation and cancellation of threads, mutexes, condition variables and
    read-write locks over nsync, deadlock detection and [pthread_barrier_destroy]
    ([libc/thread]), the loader ([ape]), formatted output and streams ([libc/stdio]), mathematics ([libc/tinymath]) and the tools ([tool], [net/turfwar],
    [dsp]): these are input and output, assembly, floating point or programs of their own. What
    lies under [third_party], Ruby included, is code of others. Allocation in the HTTP
    library is taken to succeed where the sources do not test it, and is a parameter where
    they do. Of the zip file system: the table of file descriptors, mapped files, times, inode
    numbers, the opening of the executable and the inflater. Of sorting: the smoothsort from musl. *)
From stdpp Require Export base list list_numbers numbers option.
From Stdlib Require Export ZArith Lia.
From Stdlib Require Strings.String Strings.Ascii.
From Stdlib Require Export Bool.
Export String.StringSyntax.
Delimit Scope string_scope with string.

#[global] Open Scope Z_scope.

(** [lia] reasons about division and remainder by constants. *)
Ltac Zify.zify_post_hook ::= Z.to_euclidean_division_equations.

(** * Machine integers *)

(** The C integer types are [Z] with the wrap-around written out. *)
Definition u8 (x : Z) : Z := x mod 2 ^ 8.
Definition u16 (x : Z) : Z := x mod 2 ^ 16.
Definition u32 (x : Z) : Z := x mod 2 ^ 32.
Definition u64 (x : Z) : Z := x mod 2 ^ 64.
Definition s32 (x : Z) : Z := (x + 2 ^ 31) mod 2 ^ 32 - 2 ^ 31.
Definition s64 (x : Z) : Z := (x + 2 ^ 63) mod 2 ^ 64 - 2 ^ 63.

(** The value of a byte read as [signed char]. *)
Definition schar (b : Z) : Z := if b <? 128 then b else b - 256.

Definition is_byte (b : Z) : Prop := 0 <= b < 256.
Definition is_u16 (w : Z) : Prop := 0 <= w < 65536.

#[export] Instance is_byte_dec b : Decision (is_byte b).
Proof. unfold is_byte. apply _. Defined.
#[export] Instance is_u16_dec b : Decision (is_u16 b).
Proof. unfold is_u16. apply _. Defined.

Create HintDb cint.

Lemma u8_small x : 0 <= x < 256 -> u8 x = x.
Proof. intros. apply Z.mod_small. lia. Qed.
Lemma u16_small x : 0 <= x < 65536 -> u16 x = x.
Proof. intros. apply Z.mod_small. lia. Qed.
Lemma u32_small x : 0 <= x < 2 ^ 32 -> u32 x = x.
Proof. intros. apply Z.mod_small. lia. Qed.
Lemma u64_small x : 0 <= x < 2 ^ 64 -> u64 x = x.
Proof. intros. apply Z.mod_small. lia. Qed.
Lemma s32_small x : - 2 ^ 31 <= x < 2 ^ 31 -> s32 x = x.
Proof. intros. unfold s32. rewrite Z.mod_small; lia. Qed.
Lemma s64_small x : - 2 ^ 63 <= x < 2 ^ 63 -> s64 x = x.
Proof. intros. unfold s64. rewrite Z.mod_small; lia. Qed.

Lemma schar_small x : 0 <= x < 128 -> schar x = x.
Proof. intros. unfold schar. by rewrite (proj2 (Z.ltb_lt _ _)) by lia. Qed.

Lemma u8_range x : 0 <= u8 x < 256.
Proof. unfold u8. pose proof (Z.mod_pos_bound x (2 ^ 8)). lia. Qed.
Lemma u16_range x : 0 <= u16 x < 65536.
Proof. unfold u16. pose proof (Z.mod_pos_bound x (2 ^ 16)). lia. Qed.
Lemma u32_range x : 0 <= u32 x < 2 ^ 32.
Proof. unfold u32. apply Z.mod_pos_bound. lia. Qed.
Lemma u64_range x : 0 <= u64 x < 2 ^ 64.
Proof. unfold u64. apply Z.mod_pos_bound. lia. Qed.
Lemma s32_range x : - 2 ^ 31 <= s32 x < 2 ^ 31.
Proof. unfold s32. pose proof (Z.mod_pos_bound (x + 2 ^ 31) (2 ^ 32)). lia. Qed.
Lemma s64_range x : - 2 ^ 63 <= s64 x < 2 ^ 63.
Proof. unfold s64. pose proof (Z.mod_pos_bound (x + 2 ^ 63) (2 ^ 64)). lia. Qed.

#[export] Hint Resolve u8_range u16_range u32_range u64_range s32_range s64_range : cint.

(** ** Masks, shifts and disjoint unions of bit fields as arithmetic *)

Lemma land_mask x k : 0 <= k -> Z.land x (2 ^ k - 1) = x mod 2 ^ k.
Proof. intros. rewrite <- Z.land_ones by lia. f_equal. rewrite Z.ones_equiv. lia. Qed.

Lemma byte_land c : is_byte c -> Z.land c 255 = c.
Proof. intros Hc. change 255 with (2 ^ 8 - 1). rewrite land_mask by lia. apply Z.mod_small, Hc. Qed.

Lemma shiftr_div x k : 0 <= k -> Z.shiftr x k = x / 2 ^ k.
Proof. apply Z.shiftr_div_pow2. Qed.

Lemma shiftl_mul x k : 0 <= k -> Z.shiftl x k = x * 2 ^ k.
Proof. apply Z.shiftl_mul_pow2. Qed.

(** [floor((l+r)/2)] without the sum. *)
Lemma midpoint l r : 0 <= l -> l <= r -> Z.land l r + Z.shiftr (Z.lxor l r) 1 = (l + r) / 2.
Proof.
  intros Hl Hr. rewrite shiftr_div by lia. change (2 ^ 1) with 2.
  pose proof (Z.add_lxor_2land l r) as H. lia.
Qed.

(** [lo | hi << k] is [lo + hi * 2^k] when [lo] fits below bit [k]. *)
Lemma lor_shiftl_add lo hi k :
  0 <= k -> 0 <= lo < 2 ^ k -> Z.lor lo (Z.shiftl hi k) = lo + hi * 2 ^ k.
Proof.
  intros Hk Hlo. rewrite <- shiftl_mul by lia. symmetry. apply Z.add_nocarry_lor.
  apply Z.bits_inj'. intros n Hn. rewrite Z.land_spec, Z.bits_0.
  destruct (decide (n < k)) as [Hlt|Hge].
  - rewrite (Z.shiftl_spec_low hi k n) by lia. apply andb_false_r.
  - rewrite <- (Z.mod_small lo (2 ^ k)), Z.mod_pow2_bits_high by lia. done.
Qed.

Lemma lor_add_disjoint lo hi k :
  0 <= k -> 0 <= lo < 2 ^ k -> Z.lor lo (hi * 2 ^ k) = lo + hi * 2 ^ k.
Proof. intros. rewrite <- shiftl_mul by lia. rewrite lor_shiftl_add, shiftl_mul; lia. Qed.

(** [x & mask] for a mask of [n] ones at bit [k]. *)
Lemma land_field x k n :
  0 <= k -> 0 <= n -> Z.land x ((2 ^ n - 1) * 2 ^ k) = ((x / 2 ^ k) mod 2 ^ n) * 2 ^ k.
Proof.
  intros Hk Hn. rewrite <- (land_mask (x / 2 ^ k) n), <- shiftr_div by lia.
  rewrite <- !shiftl_mul, Z.shiftl_land by lia.
  apply Z.bits_inj'. intros i Hi. rewrite !Z.land_spec.
  destruct (decide (i < k)).
  - rewrite !(Z.shiftl_spec_low _ k i), !andb_false_r by lia. done.
  - rewrite (Z.shiftl_spec (Z.shiftr x k)), Z.shiftr_spec by lia.
    by replace (i - k + k) with i by lia.
Qed.

(** A multiple of [2^k] joined with a value below [2^k]. *)
Lemma lor_high_low hi lo k :
  0 <= k -> 0 <= lo < 2 ^ k -> hi mod 2 ^ k = 0 -> Z.lor hi lo = hi + lo.
Proof.
  intros Hk Hlo Hhi.
  pose proof (Z.div_mod hi (2 ^ k)) as Hd.
  rewrite Z.lor_comm, Hd, Hhi, Z.add_0_r, Z.mul_comm, lor_add_disjoint; lia.
Qed.

(** Every property of a byte that a boolean test decides holds by enumeration. *)
Lemma byte_enum (f : Z -> bool) :
  forallb f (seqZ 0 256) = true -> forall b, is_byte b -> f b = true.
Proof.
  intros Hf b Hb. rewrite forallb_forall in Hf. apply Hf.
  apply list_elem_of_In, elem_of_seqZ. unfold is_byte in Hb. lia.
Qed.

Lemma byte_high_bit a n : is_byte a -> 8 <= n -> Z.testbit a n = false.
Proof.
  unfold is_byte. intros Ha Hn. rewrite <- (Z.mod_small a (2 ^ 8)) by lia.
  apply Z.mod_pow2_bits_high. lia.
Qed.

Lemma land_byte a b : is_byte a -> is_byte b -> is_byte (Z.land a b).
Proof.
  intros Ha Hb. rewrite <- (byte_land b Hb), Z.land_assoc. change 255 with (2 ^ 8 - 1).
  rewrite land_mask by lia. apply Z.mod_pos_bound. lia.
Qed.

Lemma lxor_byte a b : is_byte a -> is_byte b -> is_byte (Z.lxor a b).
Proof.
  intros Ha Hb. assert (E : Z.lxor a b = Z.lxor a b mod 2 ^ 8).
  { apply Z.bits_inj'. intros n Hn. destruct (decide (n < 8)).
    - by rewrite Z.mod_pow2_bits_low by lia.
    - by rewrite Z.mod_pow2_bits_high, Z.lxor_spec, !byte_high_bit by (done || lia). }
  rewrite E. apply Z.mod_pos_bound. lia.
Qed.

(** Instantiates a checked boolean fact [f] at the byte [b] and finishes with [lia]. *)
Ltac by_bytes f b :=
  let H := fresh in
  pose proof (byte_enum f eq_refl b ltac:(unfold is_byte; lia)) as H; cbv beta in H;
  first [lia | apply (proj1 (implb_true_iff _ _) H); lia].

(** * Boolean tests of the sources as propositions *)

Ltac bool_prop :=
  repeat match goal with
  | H : (_ && _)%bool = true |- _ => apply andb_true_iff in H as [? ?]
  | H : (_ || _)%bool = false |- _ => apply orb_false_iff in H as [? ?]
  | H : negb _ = true |- _ => apply negb_true_iff in H
  | H : negb _ = false |- _ => apply negb_false_iff in H
  | H : (_ =? _) = true |- _ => apply Z.eqb_eq in H
  | H : (_ =? _) = false |- _ => apply Z.eqb_neq in H
  | H : (_ <? _) = true |- _ => apply Z.ltb_lt in H
  | H : (_ <? _) = false |- _ => apply Z.ltb_ge in H
  | H : (_ <=? _) = true |- _ => apply Z.leb_le in H
  | H : (_ <=? _) = false |- _ => apply Z.leb_gt in H
  end.

(** Splits every [if] and [match] on a boolean comparison of the goal. *)
Ltac case_if :=
  match goal with
  | |- context [if ?b then _ else _] =>
      lazymatch type of b with bool => let E := fresh "E" in destruct b eqn:E end
  end.
Ltac case_ifs := repeat (case_if; bool_prop; try lia).

(** Rewrites the first [if] of the goal to the branch [lia] selects. *)
Lemma if_true {A} (b : bool) (x y : A) : b = true -> (if b then x else y) = x.
Proof. by intros ->. Qed.
Lemma if_false {A} (b : bool) (x y : A) : b = false -> (if b then x else y) = y.
Proof. by intros ->. Qed.

(** * Filters *)

Lemma filter_all {A} (P : A -> Prop) `{!forall x, Decision (P x)} (l : list A) :
  (forall x, x ∈ l -> P x) -> filter P l = l.
Proof.
  induction l as [|x l IH]; intros HP; [done|].
  rewrite filter_cons, decide_True by (apply HP; constructor). f_equal. apply IH.
  intros y Hy. apply HP. by constructor.
Qed.

Lemma filter_none {A} (P : A -> Prop) `{!forall x, Decision (P x)} (l : list A) :
  (forall x, x ∈ l -> ~ P x) -> filter P l = [].
Proof.
  induction l as [|x l IH]; intros HP; [done|].
  rewrite filter_cons, decide_False by (apply HP; constructor). apply IH.
  intros y Hy. apply HP. by constructor.
Qed.

(** * ASCII characters the sources compare with *)

Abbreviation HT := 0x09.
Abbreviation LF := 0x0A.
Abbreviation VT := 0x0B.
Abbreviation CR := 0x0D.
Abbreviation SP := 0x20.
Abbreviation DQUOTE := 0x22.
Abbreviation DOT := 0x2E.
Abbreviation SLASH := 0x2F.
Abbreviation COLON := 0x3A.
Abbreviation SEMI := 0x3B.
Abbreviation EQUALS := 0x3D.
Abbreviation BSLASH := 0x5C.

(** The bytes of a string literal. *)
Definition ascii_codes (s : String.string) : list Z :=
  map (fun a => Z.of_N (Ascii.N_of_ascii a)) (String.list_ascii_of_string s).
