(* ===== verification/Utf.v ===== *)
(** Thompson-Pike (UTF-8) and UTF-16 codecs: [libc/intrin/tpenc.c],
    [libc/intrin/bsr.c], [libc/str/thompike.h], [libc/str/utf16.h],
    [libc/intrin/tprecode8to16.c] and [libc/intrin/tprecode16to8.c]. *)
From S2P Require Import Prelude.

(** * Binary logarithm *)

(** [bsr] of [bsr.c]: five conditional shifts; [x >>= n] is arithmetic. *)
Definition bsr (x0 : Z) : Z :=
  let x := s32 x0 in
  let r := 0 in
  let '(x, r) := if Z.land x 0xFFFF0000 =? 0 then (x, r) else (Z.shiftr x 16, Z.lor r 16) in
  let '(x, r) := if Z.land x 0xFF00 =? 0 then (x, r) else (Z.shiftr x 8, Z.lor r 8) in
  let '(x, r) := if Z.land x 0xF0 =? 0 then (x, r) else (Z.shiftr x 4, Z.lor r 4) in
  let '(x, r) := if Z.land x 0xC =? 0 then (x, r) else (Z.shiftr x 2, Z.lor r 2) in
  if Z.land x 0x2 =? 0 then r else Z.lor r 1.

(** * Encoding *)

Definition kTpEnc : list Z :=
  [ Z.lor 1 (Z.shiftl 0xC0 8); Z.lor 1 (Z.shiftl 0xC0 8); Z.lor 1 (Z.shiftl 0xC0 8);
    Z.lor 1 (Z.shiftl 0xC0 8); Z.lor 2 (Z.shiftl 0xE0 8);
    Z.lor 2 (Z.shiftl 0xE0 8); Z.lor 2 (Z.shiftl 0xE0 8); Z.lor 2 (Z.shiftl 0xE0 8);
    Z.lor 2 (Z.shiftl 0xE0 8); Z.lor 3 (Z.shiftl 0xF0 8);
    Z.lor 3 (Z.shiftl 0xF0 8); Z.lor 3 (Z.shiftl 0xF0 8); Z.lor 3 (Z.shiftl 0xF0 8);
    Z.lor 3 (Z.shiftl 0xF0 8); Z.lor 4 (Z.shiftl 0xF8 8);
    Z.lor 4 (Z.shiftl 0xF8 8); Z.lor 4 (Z.shiftl 0xF8 8); Z.lor 4 (Z.shiftl 0xF8 8);
    Z.lor 4 (Z.shiftl 0xF8 8); Z.lor 5 (Z.shiftl 0xFC 8);
    Z.lor 5 (Z.shiftl 0xFC 8); Z.lor 5 (Z.shiftl 0xFC 8); Z.lor 5 (Z.shiftl 0xFC 8);
    Z.lor 5 (Z.shiftl 0xFC 8); Z.lor 5 (Z.shiftl 0xFC 8) ].

(** The [do ... while (--n)] loop of [tpenc]; [n] comes from the table and is 1..5. *)
Fixpoint tpenc_loop (n : nat) (c w : Z) : Z * Z :=
  match n with
  | O => (c, w)
  | S n =>
      let w := Z.lor w (Z.lor 0x80 (Z.land c 0x3F)) in
      let w := u64 (Z.shiftl w 8) in
      tpenc_loop n (Z.shiftr c 6) w
  end.

(** [tpenc]: the encoded bytes of a 32-bit code, packed little endian in a word. *)
Definition tpenc (c : Z) : Z :=
  if (0 <=? c) && (c <=? 127) then c
  else
    let e := nth (Z.to_nat (bsr c - 7)) kTpEnc 0 in
    let n := Z.land e 0xff in
    let '(c, w) := tpenc_loop (Z.to_nat n) c 0 in
    Z.lor (Z.lor c w) (Z.shiftr e 8).

(** [do { *p++ = w & 0xff; } while (w >>= 8);], how callers unpack the word. *)
Fixpoint tpenc_unpack (fuel : nat) (w : Z) : list Z :=
  match fuel with
  | O => []
  | S fuel =>
      Z.land w 0xff ::
      (let w := Z.shiftr w 8 in if w =? 0 then [] else tpenc_unpack fuel w)
  end.

(** A 64-bit word has at most eight bytes. *)
Definition tpenc_bytes (c : Z) : list Z := tpenc_unpack 8 (tpenc c).

(** * Decoding macros of thompike.h *)

Definition ThomPikeCont (x : Z) : bool := 0x80 =? Z.land 0xC0 x.
Definition ThomPikeMsb (x : Z) : Z :=
  if Z.land 255 x <? 252 then bsr (Z.land 255 (Z.lnot x)) else 1.
Definition ThomPikeByte (x : Z) : Z :=
  Z.land x (Z.lor (Z.shiftl 1 (ThomPikeMsb x) - 1) 3).
Definition ThomPikeLen (x : Z) : Z := 7 - ThomPikeMsb x.
(** [x << 6 | (077 & y)] before it is stored in the caller's variable. *)
Definition ThomPikeMerge (x y : Z) : Z := Z.lor (Z.shiftl x 6) (Z.land 0x3F y).

(** * Macros of utf16.h *)

Definition IsLowSurrogate (wc : Z) : bool := Z.land 0xfc00 wc =? 0xdc00.
Definition IsUtf16Cont (wc : Z) : bool := IsLowSurrogate wc.
Definition IsUcs2 (wc : Z) : bool := negb (Z.shiftr (Z.land 65535 wc) 11 =? 27).
Definition MergeUtf16 (hi lo : Z) : Z :=
  Z.shiftl (hi - 0xD800) 10 + (lo - 0xDC00) + 0x10000.
Definition EncodeUtf16 (wc : Z) : Z :=
  if u32 wc <? 0x10000 then wc
  else if (0x10000 <=? wc) && (wc <=? 0x10FFFF) then
    Z.lor (Z.shiftr (wc - 0x10000) 10 + 0xD800)
          (u32 (Z.shiftl (Z.land (wc - 0x10000) 1023 + 0xDC00) 16))
  else 0xFFFD.

(** * Reference encodings *)

(** A Unicode scalar value other than NUL. *)
Definition scalar (c : Z) : Prop :=
  0 < c < 0xD800 \/ 0xE000 <= c < 0x110000.
Definition scalarb (c : Z) : bool :=
  ((0 <? c) && (c <? 0xD800)) || ((0xE000 <=? c) && (c <? 0x110000)).

(** The bit distribution of RFC 3629. *)
Definition utf8 (c : Z) : list Z :=
  if c <? 0x80 then [c]
  else if c <? 0x800 then [0xC0 + c / 64; 0x80 + c mod 64]
  else if c <? 0x10000 then [0xE0 + c / 4096; 0x80 + (c / 64) mod 64; 0x80 + c mod 64]
  else [0xF0 + c / 262144; 0x80 + (c / 4096) mod 64; 0x80 + (c / 64) mod 64; 0x80 + c mod 64].

(** RFC 2781. *)
Definition utf16 (c : Z) : list Z :=
  if c <? 0x10000 then [c]
  else [0xD800 + (c - 0x10000) / 1024; 0xDC00 + (c - 0x10000) mod 1024].

(** * Lemmas *)

Lemma scalarb_spec c : scalarb c = true <-> scalar c.
Proof. unfold scalarb, scalar. lia. Qed.

(** One halving step of [bsr]: the field test decides whether [x] reaches bit [k]. *)
Lemma bsr_halve x k :
  0 < k -> - 2 ^ (2 * k - 1) <= x < 2 ^ (2 * k) ->
  (Z.land x ((2 ^ k - 1) * 2 ^ k) =? 0) = (0 <=? x) && (x <? 2 ^ k).
Proof.
  intros Hk Hx. rewrite land_field by lia.
  assert (2 ^ (2 * k - 1) * 2 = 2 ^ k * 2 ^ k) as E1.
  { replace (2 ^ (2 * k - 1) * 2) with (2 ^ (2 * k - 1) * 2 ^ 1) by lia.
    rewrite <- !Z.pow_add_r by lia. f_equal. lia. }
  replace (2 * k) with (k + k) in Hx at 2 by lia. rewrite Z.pow_add_r in Hx by lia.
  assert (2 <= 2 ^ k) by (change 2 with (2 ^ 1) at 1; apply Z.pow_le_mono_r; lia).
  set (p := 2 ^ k) in *. set (q := 2 ^ (2 * k - 1)) in *.
  pose proof (Z.div_mod x p ltac:(lia)) as Hd.
  pose proof (Z.mod_pos_bound x p ltac:(lia)) as Hm.
  set (d := x / p) in *. set (m := x mod p) in *. clearbody p q d m.
  assert (- p < d < p) as Hdr by nia.
  destruct (decide (d = 0)) as [->|Hd0].
  - rewrite Z.mod_0_l by lia. lia.
  - assert (d mod p <> 0).
    { destruct (decide (0 < d)); [rewrite Z.mod_small by lia; lia|].
      rewrite <- (Z_mod_plus_full d 1 p), Z.mod_small by lia. lia. }
    nia.
Qed.

(** [bsr] is the binary logarithm of the unsigned reading of its argument. *)
Lemma bsr_spec x : 0 < x < 2 ^ 32 -> bsr x = Z.log2 x.
Proof.
  intros Hx. symmetry. unfold bsr.
  assert (exists y, s32 x = y /\ (y = x /\ 0 < y < 2 ^ 31 \/ y = x - 2 ^ 32 /\ - 2 ^ 31 <= y < 0))
    as (y & -> & Hy).
  { eexists; split; [done|]. unfold s32. lia. }
  change 0xFFFF0000 with ((2 ^ 16 - 1) * 2 ^ 16).
  change 0xFF00 with ((2 ^ 8 - 1) * 2 ^ 8).
  change 0xF0 with ((2 ^ 4 - 1) * 2 ^ 4).
  change 0xC with ((2 ^ 2 - 1) * 2 ^ 2).
  change (Z.land ?x 2) with (Z.land x ((2 ^ 1 - 1) * 2 ^ 1)).
  rewrite bsr_halve by lia.
  assert (forall k v, 0 <= k -> Z.shiftr v k = v / 2 ^ k) as Hs by (intros; by apply shiftr_div).
  repeat (match goal with
    | |- context [if (?a && ?b)%bool then (?x, ?r) else ?z] =>
        let E := fresh in destruct (a && b)%bool eqn:E; cbv iota beta; rewrite ?Hs by lia
    end; rewrite bsr_halve by lia).
  all: case_if; (match goal with |- _ = ?r => let v := eval vm_compute in r in change r with v end);
    (apply Z.log2_unique; [lia|]).
  all: match goal with |- 2 ^ ?a <= _ < 2 ^ ?b =>
      let p := eval vm_compute in (2 ^ a) in let q := eval vm_compute in (2 ^ b) in
      change (2 ^ a) with p; change (2 ^ b) with q
    end.
  all: lia.
Qed.

Lemma tpenc_cont c : Z.lor 0x80 (Z.land c 0x3F) = 128 + c mod 64.
Proof.
  change 0x3F with (2 ^ 6 - 1). rewrite land_mask by lia.
  apply (lor_high_low 128 _ 6); [lia|lia|done].
Qed.

(** One turn of the packing loop. *)
Lemma tpenc_turn c w :
  w mod 256 = 0 -> 0 <= w < 2 ^ 40 ->
  u64 (Z.shiftl (Z.lor w (Z.lor 0x80 (Z.land c 0x3F))) 8) = (w + 128 + c mod 64) * 256.
Proof.
  intros Hw Hr. rewrite tpenc_cont, (lor_high_low w _ 8), shiftl_mul by lia.
  rewrite u64_small; lia.
Qed.

Lemma log2_between a b c : 0 <= a -> 2 ^ a <= c < 2 ^ b -> a <= Z.log2 c < b.
Proof.
  intros Ha [H1 H2]. split.
  - apply Z.log2_le_pow2; lia.
  - apply Z.log2_lt_pow2; [|done]. assert (0 < 2 ^ a) by (apply Z.pow_pos_nonneg; lia). lia.
Qed.

(** The table entry for codes of [n + 1] bytes, [7 + 5 (n-1) - 1 <= log2 c]. *)
Lemma kTpEnc_2 c : 2 ^ 7 <= c < 2 ^ 11 -> nth (Z.to_nat (bsr c - 7)) kTpEnc 0 = 0xC001.
Proof.
  intros Hc. rewrite bsr_spec by lia. pose proof (log2_between 7 11 c ltac:(lia) Hc) as Hl.
  remember (Z.log2 c) as l eqn:El. clear El.
  assert (l = 7 \/ l = 8 \/ l = 9 \/ l = 10) as D by lia. by destruct_or! D; subst l.
Qed.
Lemma kTpEnc_3 c : 2 ^ 11 <= c < 2 ^ 16 -> nth (Z.to_nat (bsr c - 7)) kTpEnc 0 = 0xE002.
Proof.
  intros Hc. rewrite bsr_spec by lia. pose proof (log2_between 11 16 c ltac:(lia) Hc) as Hl.
  remember (Z.log2 c) as l eqn:El. clear El.
  assert (l = 11 \/ l = 12 \/ l = 13 \/ l = 14 \/ l = 15) as D by lia.
  by destruct_or! D; subst l.
Qed.
Lemma kTpEnc_4 c : 2 ^ 16 <= c < 2 ^ 21 -> nth (Z.to_nat (bsr c - 7)) kTpEnc 0 = 0xF003.
Proof.
  intros Hc. rewrite bsr_spec by lia. pose proof (log2_between 16 21 c ltac:(lia) Hc) as Hl.
  remember (Z.log2 c) as l eqn:El. clear El.
  assert (l = 16 \/ l = 17 \/ l = 18 \/ l = 19 \/ l = 20) as D by lia.
  by destruct_or! D; subst l.
Qed.

Lemma tpenc_1byte c : 0 <= c < 2 ^ 7 -> tpenc c = c.
Proof. intros. unfold tpenc. rewrite if_true by lia. done. Qed.

(** The final [c | w | e >> 8]: lead bits, payload and continuation bytes are disjoint. *)
Lemma tpenc_join c w lead j :
  0 <= j -> 0 <= c < 2 ^ j -> lead mod 2 ^ j = 0 -> 0 <= lead + c < 256 -> w mod 256 = 0 ->
  Z.lor (Z.lor c w) lead = lead + c + w.
Proof.
  intros. replace (Z.lor (Z.lor c w) lead) with (Z.lor w (Z.lor lead c)).
  - rewrite (lor_high_low lead c j), (lor_high_low w _ 8) by (done || lia). lia.
  - rewrite (Z.lor_comm c w), <- Z.lor_assoc. f_equal. apply Z.lor_comm.
Qed.

Lemma tpenc_2byte c :
  2 ^ 7 <= c < 2 ^ 11 -> tpenc c = (0xC0 + c / 64) + 256 * (128 + c mod 64).
Proof.
  intros Hc. unfold tpenc. rewrite if_false by lia. rewrite kTpEnc_2 by lia.
  change (Z.to_nat (Z.land 0xC001 0xff)) with 1%nat. cbn [tpenc_loop].
  rewrite !tpenc_turn, !shiftr_div by (done || lia). change (0xC001 / 2 ^ 8) with 0xC0.
  rewrite (tpenc_join _ _ _ 5) by (done || lia). lia.
Qed.

Lemma tpenc_3byte c :
  2 ^ 11 <= c < 2 ^ 16 ->
  tpenc c = (0xE0 + c / 4096) + 256 * ((128 + (c / 64) mod 64) + 256 * (128 + c mod 64)).
Proof.
  intros Hc. unfold tpenc. rewrite if_false by lia. rewrite kTpEnc_3 by lia.
  change (Z.to_nat (Z.land 0xE002 0xff)) with 2%nat. cbn [tpenc_loop].
  rewrite (tpenc_turn c 0), !tpenc_turn, !shiftr_div by (done || lia). change (0xE002 / 2 ^ 8) with 0xE0.
  rewrite (tpenc_join _ _ _ 4) by (done || lia). lia.
Qed.

Lemma tpenc_4byte c :
  2 ^ 16 <= c < 2 ^ 21 ->
  tpenc c = (0xF0 + c / 262144) + 256 * ((128 + (c / 4096) mod 64) +
              256 * ((128 + (c / 64) mod 64) + 256 * (128 + c mod 64))).
Proof.
  intros Hc. unfold tpenc. rewrite if_false by lia. rewrite kTpEnc_4 by lia.
  change (Z.to_nat (Z.land 0xF003 0xff)) with 3%nat. cbn [tpenc_loop].
  rewrite (tpenc_turn c 0), (tpenc_turn (Z.shiftr c 6)), !tpenc_turn, !shiftr_div by (done || lia).
  change (0xF003 / 2 ^ 8) with 0xF0.
  rewrite (tpenc_join _ _ _ 3) by (done || lia). lia.
Qed.

Lemma tpenc_unpack_cons n b w :
  0 <= b < 256 -> 0 < w -> tpenc_unpack (S n) (b + 256 * w) = b :: tpenc_unpack n w.
Proof.
  intros Hb Hw. cbn [tpenc_unpack]. change 0xff with (2 ^ 8 - 1).
  rewrite land_mask, shiftr_div by lia. rewrite if_false by lia. f_equal; [|f_equal]; lia.
Qed.

Lemma tpenc_unpack_last n b : 0 <= b < 256 -> tpenc_unpack (S n) b = [b].
Proof.
  intros Hb. cbn [tpenc_unpack]. change 0xff with (2 ^ 8 - 1).
  rewrite land_mask, shiftr_div by lia. rewrite if_true by lia. f_equal. lia.
Qed.

(** The packed word unpacks to the UTF-8 bytes, for every code below [2^21]. *)
Lemma tpenc_bytes_utf8 c : 0 <= c < 2 ^ 21 -> tpenc_bytes c = utf8 c.
Proof.
  intros Hc. unfold tpenc_bytes, utf8.
  case_ifs.
  - rewrite tpenc_1byte by lia. apply tpenc_unpack_last. lia.
  - rewrite tpenc_2byte by lia. by rewrite tpenc_unpack_cons, tpenc_unpack_last by lia.
  - rewrite tpenc_3byte by lia. by rewrite !tpenc_unpack_cons, tpenc_unpack_last by lia.
  - rewrite tpenc_4byte by lia. by rewrite !tpenc_unpack_cons, tpenc_unpack_last by lia.
Qed.

(** ** Lead and continuation bytes, by enumeration *)

Lemma lead2 b : 0xC0 <= b < 0xE0 -> ThomPikeLen b = 2 /\ ThomPikeByte b = b - 0xC0.
Proof.
  intros Hb. by_bytes (fun b => implb ((0xC0 <=? b) && (b <? 0xE0))
    ((ThomPikeLen b =? 2) && (ThomPikeByte b =? b - 0xC0))) b.
Qed.
Lemma lead3 b : 0xE0 <= b < 0xF0 -> ThomPikeLen b = 3 /\ ThomPikeByte b = b - 0xE0.
Proof.
  intros Hb. by_bytes (fun b => implb ((0xE0 <=? b) && (b <? 0xF0))
    ((ThomPikeLen b =? 3) && (ThomPikeByte b =? b - 0xE0))) b.
Qed.
Lemma lead4 b : 0xF0 <= b < 0xF8 -> ThomPikeLen b = 4 /\ ThomPikeByte b = b - 0xF0.
Proof.
  intros Hb. by_bytes (fun b => implb ((0xF0 <=? b) && (b <? 0xF8))
    ((ThomPikeLen b =? 4) && (ThomPikeByte b =? b - 0xF0))) b.
Qed.
Lemma cont_byte r : 0 <= r < 64 -> ThomPikeCont (0x80 + r) = true.
Proof.
  intros Hb. by_bytes (fun b => implb ((0x80 <=? b) && (b <? 0xC0)) (ThomPikeCont b)) (0x80 + r).
Qed.
Lemma merge_cont a r : 0 <= r < 64 -> ThomPikeMerge a (0x80 + r) = a * 64 + r.
Proof.
  intros Hr. unfold ThomPikeMerge. rewrite Z.land_comm. change 0x3F with (2 ^ 6 - 1).
  rewrite land_mask, shiftl_mul, (lor_high_low _ _ 6) by lia. lia.
Qed.

(** ** UTF-16 macros on scalar values *)

Lemma EncodeUtf16_bmp c : 0 <= c < 0x10000 -> EncodeUtf16 c = c.
Proof. intros. unfold EncodeUtf16. rewrite u32_small by lia. by rewrite if_true by lia. Qed.

Lemma EncodeUtf16_astral c :
  0x10000 <= c < 0x110000 ->
  EncodeUtf16 c = (0xD800 + (c - 0x10000) / 1024) + 65536 * (0xDC00 + (c - 0x10000) mod 1024).
Proof.
  intros Hc. unfold EncodeUtf16. rewrite u32_small, if_false by lia. rewrite if_true by lia.
  change 1023 with (2 ^ 10 - 1). rewrite land_mask, shiftr_div by lia.
  rewrite shiftl_mul, u32_small, lor_add_disjoint by lia. lia.
Qed.

Lemma IsUcs2_spec w : 0 <= w < 65536 -> IsUcs2 w = negb ((0xD800 <=? w) && (w <? 0xE000)).
Proof.
  intros. unfold IsUcs2. rewrite Z.land_comm. change 65535 with (2 ^ 16 - 1).
  rewrite land_mask, shiftr_div by lia. lia.
Qed.

Lemma IsLowSurrogate_spec w : 0 <= w < 65536 -> IsLowSurrogate w = (0xDC00 <=? w) && (w <? 0xE000).
Proof.
  intros. unfold IsLowSurrogate. rewrite Z.land_comm. change 0xfc00 with ((2 ^ 6 - 1) * 2 ^ 10).
  rewrite land_field by lia. lia.
Qed.

Lemma MergeUtf16_spec c :
  0x10000 <= c < 0x110000 ->
  MergeUtf16 (0xD800 + (c - 0x10000) / 1024) (0xDC00 + (c - 0x10000) mod 1024) = c.
Proof. intros. unfold MergeUtf16. rewrite shiftl_mul; lia. Qed.
