(* ===== verification/Recode.v ===== *)
(** The UTF-8/UTF-16 transcoders of the core runtime, [tprecode8to16] and
    [tprecode16to8], with their SSE2 and NEON fast paths.

    Source memory is a total function from offsets to code units (bytes or shorts),
    so the vector loads that run past the terminator read arbitrary values.
    The destination is the list of units stored so far: [r.ax] is its length, every
    store of the code goes to [dst[r.ax++]]. *)
From S2P Require Import Prelude Utf.

(** * The loop both transcoders share *)

(** What one turn of the scalar loop decided. *)
Inductive action := Stop | Skip | Emit (x : Z).

Section Loop.
Context (src : nat -> Z).
(** one scalar turn at an offset, and the offset after it *)
Context (turn : nat -> action * nat).
(** stores the units of a code point while they fit *)
Context (store : list Z -> Z -> list Z).
(** the vector fast path, tried before each scalar turn *)
Context (vector : nat -> list Z -> nat -> list Z * nat).

(** [for (;;) { vector path; scalar turn }]; [None] when the fuel runs out. *)
Fixpoint recode_loop (fuel : nat) (out : list Z) (dx : nat) : option (list Z * nat) :=
  match fuel with
  | O => None
  | S fuel =>
      let '(out, dx) := vector fuel out dx in
      match turn dx with
      | (Stop, dx) => Some (out, dx)
      | (Skip, dx) => recode_loop fuel out dx
      | (Emit x, dx) => recode_loop fuel (store out x) dx
      end
  end.
End Loop.

(** [axdx_t] with the stored units; the terminator is present when it fits. *)
Record axdx := { ax_out : list Z; ax : nat; dx : nat }.

Definition finish (dstsize : Z) (r : list Z * nat) : axdx :=
  {| ax_out := if Z.of_nat (length r.1) <? dstsize then r.1 ++ [0] else r.1;
     ax := length r.1; dx := r.2 |}.

(** * Vector intrinsics the fast paths use *)

Definition s8 (b : Z) : Z := (b + 128) mod 256 - 128.
Definition s16 (w : Z) : Z := (w + 32768) mod 65536 - 32768.

(** [_mm_movemask_epi8]: bit [i] is the top bit of byte [i]. *)
Fixpoint movemask_epi8 (v : list Z) : Z :=
  match v with
  | [] => 0
  | b :: v => Z.lor (Z.shiftr b 7) (Z.shiftl (movemask_epi8 v) 1)
  end.

Definition cmpgt_epi8 (v : list Z) (y : Z) : list Z :=
  map (fun b => if y <? s8 b then 0xFF else 0) v.
Definition cmpgt_epi16 (v : list Z) (y : Z) : list Z :=
  map (fun w => if y <? s16 w then 0xFFFF else 0) v.
Definition andnot_si128 (a b : list Z) : list Z :=
  zip_with (fun a b => Z.land (Z.lxor a 0xFFFF) b) a b.
(** 16-bit lanes as little-endian bytes *)
Definition lanes16 (v : list Z) : list Z :=
  flat_map (fun w => [Z.land w 0xFF; Z.shiftr w 8]) v.
(** [vaddvq_u8], [vaddvq_u16]: the sum of the lanes at the lane's width. *)
Definition vaddvq_u8 (v : list Z) : Z := u8 (foldr Z.add 0 v).
Definition vaddvq_u16 (v : list Z) : Z := u16 (foldr Z.add 0 v).

(** * tprecode8to16 *)

Inductive simd := Portable | Sse2 | Neon.

Fixpoint tprecode8to16_sse2 (dstsize : Z) (src : nat -> Z) (fuel : nat)
    (out : list Z) (dx : nat) : list Z * nat :=
  match fuel with
  | O => (out, dx)
  | S fuel =>
      if Z.of_nat (length out) + 16 <? dstsize then
        let v1 := map src (seq dx 16) in
        let v2 := cmpgt_epi8 v1 0 in
        if negb (movemask_epi8 v2 =? 0xFFFF) then (out, dx)
        else tprecode8to16_sse2 dstsize src fuel (out ++ take 8 v1 ++ drop 8 v1) (dx + 16)
      else (out, dx)
  end.

Fixpoint tprecode8to16_neon (dstsize : Z) (src : nat -> Z) (fuel : nat)
    (out : list Z) (dx : nat) : list Z * nat :=
  match fuel with
  | O => (out, dx)
  | S fuel =>
      if Z.of_nat (length out) + 16 <? dstsize then
        let v1 := map src (seq dx 16) in
        let cmp := map (fun b => if 0 <? b then 0xFF else 0) v1 in
        if negb (vaddvq_u8 cmp =? 16 * 0xFF) then (out, dx)
        else tprecode8to16_neon dstsize src fuel (out ++ take 8 v1 ++ drop 8 v1) (dx + 16)
      else (out, dx)
  end.

(** The continuation loop: [k] bytes are still wanted, [i] were merged. *)
Fixpoint tprecode8to16_cont (src : nat -> Z) (dx i k : nat) (a : Z) : option (Z * nat) :=
  match k with
  | O => None
  | S k =>
      let b := Z.land (src (dx + i)%nat) 0xFF in
      if b =? 0 then None
      else if negb (ThomPikeCont b) then None
      else
        let a := s32 (ThomPikeMerge a b) in
        if (k =? 0)%nat then Some (a, dx + (i + 1))%nat
        else tprecode8to16_cont src dx (i + 1) k a
  end.

(** One code point: an incomplete sequence leaves its first byte as the code. *)
Definition tprecode8to16_turn (src : nat -> Z) (dx : nat) : action * nat :=
  let x := Z.land (src dx) 0xFF in
  let dx := (dx + 1)%nat in
  let '(x, dx) :=
    if 0xC0 <=? x then
      let a := ThomPikeByte x in
      let n := ThomPikeLen x - 1 in
      match tprecode8to16_cont src dx 0 (Z.to_nat n) a with
      | Some (a, dx) => (a, dx)
      | None => (x, dx)
      end
    else (x, dx) in
  if x =? 0 then (Stop, dx) else (Emit x, dx).

(** [while (w && r.ax + 1 < dstsize) { dst[r.ax++] = w; w >>= 16; }], two turns at most. *)
Fixpoint store16_loop (n : nat) (dstsize : Z) (out : list Z) (w : Z) : list Z :=
  match n with
  | O => out
  | S n =>
      if negb (w =? 0) && (Z.of_nat (length out) + 1 <? dstsize)
      then store16_loop n dstsize (out ++ [u16 w]) (Z.shiftr w 16)
      else out
  end.
Definition tprecode8to16_store (dstsize : Z) (out : list Z) (x : Z) : list Z :=
  store16_loop 2 dstsize out (u32 (EncodeUtf16 x)).

(** The fast path runs when the next source address is a multiple of 16. *)
Definition tprecode8to16_vector (v : simd) (addr dstsize : Z) (src : nat -> Z)
    (fuel : nat) (out : list Z) (dx : nat) : list Z * nat :=
  match v with
  | Portable => (out, dx)
  | Sse2 => if Z.land (addr + Z.of_nat dx) 15 =? 0
            then tprecode8to16_sse2 dstsize src fuel out dx else (out, dx)
  | Neon => if Z.land (addr + Z.of_nat dx) 15 =? 0
            then tprecode8to16_neon dstsize src fuel out dx else (out, dx)
  end.

Definition tprecode8to16 (v : simd) (addr dstsize : Z) (src : nat -> Z) (fuel : nat) : option axdx :=
  finish dstsize <$>
    recode_loop (tprecode8to16_turn src) (tprecode8to16_store dstsize)
      (tprecode8to16_vector v addr dstsize src) fuel [] 0.

(** * tprecode16to8 *)

Fixpoint tprecode16to8_sse2 (dstsize : Z) (src : nat -> Z) (fuel : nat)
    (out : list Z) (dx : nat) : list Z * nat :=
  match fuel with
  | O => (out, dx)
  | S fuel =>
      if Z.of_nat (length out) + 8 <? dstsize then
        let v1 := map src (seq dx 8) in
        let v2 := cmpgt_epi16 v1 0 in
        let v3 := cmpgt_epi16 v1 0x7F in
        let v2 := andnot_si128 v3 v2 in
        if negb (movemask_epi8 (lanes16 v2) =? 0xFFFF) then (out, dx)
        else tprecode16to8_sse2 dstsize src fuel (out ++ v1) (dx + 8)
      else (out, dx)
  end.

Fixpoint tprecode16to8_neon (dstsize : Z) (src : nat -> Z) (fuel : nat)
    (out : list Z) (dx : nat) : list Z * nat :=
  match fuel with
  | O => (out, dx)
  | S fuel =>
      if Z.of_nat (length out) + 8 <? dstsize then
        let v1 := map src (seq dx 8) in
        let v2 := map (fun w => if 0 <? w then 0xFFFF else 0) v1 in
        let v3 := map (fun w => if 0x7F <? w then 0xFFFF else 0) v1 in
        let v2 := andnot_si128 v3 v2 in
        if negb (vaddvq_u16 v2 =? 8 * 0xFFFF) then (out, dx)
        else tprecode16to8_neon dstsize src fuel (out ++ v1) (dx + 8)
      else (out, dx)
  end.

Definition tprecode16to8_turn (src : nat -> Z) (dx : nat) : action * nat :=
  let x := src dx in
  let dx := (dx + 1)%nat in
  if x =? 0 then (Stop, dx)
  else if IsUtf16Cont x then (Skip, dx)
  else if negb (IsUcs2 x) then
    let y := src dx in
    let dx := (dx + 1)%nat in
    if y =? 0 then (Stop, dx) else (Emit (u32 (MergeUtf16 x y)), dx)
  else (Emit x, dx).

(** [while (w && r.ax + 1 < dstsize) { dst[r.ax++] = w & 0xFF; w >>= 8; }]; a 64-bit
    word has eight bytes. *)
Fixpoint store8_loop (n : nat) (dstsize : Z) (out : list Z) (w : Z) : list Z :=
  match n with
  | O => out
  | S n =>
      if negb (w =? 0) && (Z.of_nat (length out) + 1 <? dstsize)
      then store8_loop n dstsize (out ++ [Z.land w 0xFF]) (Z.shiftr w 8)
      else out
  end.
Definition tprecode16to8_store (dstsize : Z) (out : list Z) (x : Z) : list Z :=
  store8_loop 8 dstsize out (tpenc x).

Definition tprecode16to8_vector (v : simd) (addr dstsize : Z) (src : nat -> Z)
    (fuel : nat) (out : list Z) (dx : nat) : list Z * nat :=
  match v with
  | Portable => (out, dx)
  | Sse2 => if Z.land (addr + 2 * Z.of_nat dx) 15 =? 0
            then tprecode16to8_sse2 dstsize src fuel out dx else (out, dx)
  | Neon => if Z.land (addr + 2 * Z.of_nat dx) 15 =? 0
            then tprecode16to8_neon dstsize src fuel out dx else (out, dx)
  end.

Definition tprecode16to8 (v : simd) (addr dstsize : Z) (src : nat -> Z) (fuel : nat) : option axdx :=
  finish dstsize <$>
    recode_loop (tprecode16to8_turn src) (tprecode16to8_store dstsize)
      (tprecode16to8_vector v addr dstsize src) fuel [] 0.

(** * Fast paths are invisible *)

(** The terminator of the string at offset [dx] is [n] units away. *)
Definition nul_at (src : nat -> Z) (dx n : nat) : Prop :=
  src (dx + n)%nat = 0 /\ forall j, (j < n)%nat -> src (dx + j)%nat <> 0.

Lemma nul_at_advance src dx n m : nul_at src dx n -> (m <= n)%nat -> nul_at src (dx + m) (n - m).
Proof.
  intros [H0 Hn] Hm. split.
  - rewrite <- H0. f_equal. lia.
  - intros j Hj. rewrite <- Nat.add_assoc. apply Hn. lia.
Qed.

Section Equivalence.
Context (src : nat -> Z) (turn : nat -> action * nat) (store : list Z -> Z -> list Z).

(** [m] scalar turns that each store one code point of one unit. *)
Inductive runs : nat -> list Z -> nat -> list Z -> nat -> Prop :=
| runs_done out dx : runs 0 out dx out dx
| runs_step m out dx x out' dx' :
    turn dx = (Emit x, dx + 1)%nat -> runs m (store out x) (dx + 1) out' dx' ->
    runs (S m) out dx out' dx'.

(** A turn that does not stop stays within the string. *)
Definition turn_progress : Prop := forall dx n,
  nul_at src dx n ->
  match turn dx with (Stop, _) => True | (_, dx') => (dx < dx' <= dx + n)%nat end.

Definition scalar_only (fuel : nat) (out : list Z) (dx : nat) := (out, dx).

Lemma runs_loop m out dx out' dx' f :
  runs m out dx out' dx' ->
  recode_loop turn store scalar_only (m + f) out dx = recode_loop turn store scalar_only f out' dx'.
Proof. induction 1 as [|m out dx x out' dx' Ht _ IH]; [done|]. cbn. by rewrite Ht. Qed.

Lemma runs_nul m out dx out' dx' n :
  turn_progress -> runs m out dx out' dx' -> nul_at src dx n ->
  (m <= n)%nat /\ dx' = (dx + m)%nat.
Proof.
  intros Hp Hr. revert n. induction Hr as [|m out dx x out' dx' Ht _ IH]; intros n Hn; [lia|].
  pose proof (Hp dx n Hn) as Hd. rewrite Ht in Hd.
  destruct (IH (n - 1)%nat) as [? ->]; [apply nul_at_advance; [done|lia]|]. lia.
Qed.

(** Any vector path made of such runs leaves the result of the loop unchanged, and
    the loop finishes within one turn per unit of the string. *)
Lemma recode_loop_vector vector :
  turn_progress ->
  (forall f out dx out' dx', vector f out dx = (out', dx') -> exists m, runs m out dx out' dx') ->
  forall n f1 f2 out dx, nul_at src dx n -> (n < f1)%nat -> (n < f2)%nat ->
  exists r, recode_loop turn store vector f1 out dx = Some r /\
            recode_loop turn store scalar_only f2 out dx = Some r.
Proof.
  intros Hp Hv n. induction (lt_wf n) as [n _ IH]. intros f1 f2 out dx Hn Hf1 Hf2.
  destruct f1 as [|f1]; [lia|]. cbn [recode_loop].
  destruct (vector f1 out dx) as [out' dx'] eqn:Ev.
  destruct (Hv _ _ _ _ _ Ev) as [m Hm].
  destruct (runs_nul _ _ _ _ _ n Hp Hm Hn) as [Hmn ->].
  pose proof (nul_at_advance _ _ _ _ Hn Hmn) as Hn'.
  replace f2 with (m + S (f2 - m - 1))%nat by lia. rewrite (runs_loop _ _ _ _ _ _ Hm).
  cbn [recode_loop scalar_only]. pose proof (Hp _ _ Hn') as Hd.
  destruct (turn (dx + m)%nat) as [[| |x] dx']; [by eauto| |];
    (apply (IH (n - m - (dx' - (dx + m)))%nat); [lia| |lia|lia]);
    (replace dx' with (dx + m + (dx' - (dx + m)))%nat at 1 by lia;
     apply nul_at_advance; [done|lia]).
Qed.
End Equivalence.


(** ** Lane tests *)

Lemma movemask_all v :
  Forall (fun b => b = 0xFF \/ b = 0) v ->
  0 <= movemask_epi8 v < 2 ^ Z.of_nat (length v) /\
  (movemask_epi8 v = 2 ^ Z.of_nat (length v) - 1 -> Forall (eq 0xFF) v).
Proof.
  induction 1 as [|b v Hb Hv [IHr IH]]; [cbn; split; [lia|done]|].
  cbn [movemask_epi8 length]. rewrite Nat2Z.inj_succ, Z.pow_succ_r by lia.
  assert (exists t, Z.shiftr b 7 = t /\ (t = 1 /\ b = 0xFF \/ t = 0)) as (t & -> & Ht).
  { destruct Hb as [-> | ->]; eexists; (split; [vm_compute; reflexivity|]); auto. }
  rewrite lor_shiftl_add by lia. split; [lia|]. intros E.
  constructor; [lia|]. apply IH. lia.
Qed.

Lemma sse2_lanes8 src dx :
  movemask_epi8 (cmpgt_epi8 (map src (seq dx 16)) 0) = 0xFFFF ->
  forall j, (j < 16)%nat -> 0 < s8 (src (dx + j)%nat).
Proof.
  intros Hm j Hj. set (v := cmpgt_epi8 _ _) in Hm.
  destruct (movemask_all v) as [_ Hall].
  { unfold v, cmpgt_epi8. apply Forall_fmap, Forall_true. intros b. cbn. case_ifs; auto. }
  assert (length v = 16%nat) as Hl by (unfold v, cmpgt_epi8; by rewrite !length_map, length_seq).
  rewrite Hl in Hall. specialize (Hall Hm). rewrite Forall_lookup in Hall.
  specialize (Hall j (if 0 <? s8 (src (dx + j)%nat) then 0xFF else 0)).
  destruct (0 <? s8 (src (dx + j)%nat)) eqn:E; [lia|].
  exfalso. unshelve epose proof (Hall _); [|lia].
  unfold v, cmpgt_epi8. rewrite !list_lookup_fmap, lookup_seq_lt by lia. cbn. by rewrite E.
Qed.

Lemma sse2_lanes16 src dx :
  movemask_epi8 (lanes16 (andnot_si128 (cmpgt_epi16 (map src (seq dx 8)) 0x7F)
                                       (cmpgt_epi16 (map src (seq dx 8)) 0))) = 0xFFFF ->
  forall j, (j < 8)%nat -> 0 < s16 (src (dx + j)%nat) <= 0x7F.
Proof.
  set (f := fun w => if (0 <? s16 w) && negb (0x7F <? s16 w) then 0xFFFF else 0).
  assert (forall v, andnot_si128 (cmpgt_epi16 v 0x7F) (cmpgt_epi16 v 0) = map f v) as ->.
  { induction v as [|w v IH]; [done|]. cbn. rewrite <- IH. f_equal.
    unfold f. by case_ifs. }
  intros Hm j Hj. set (v := map src (seq dx 8)) in *.
  destruct (movemask_all (lanes16 (map f v))) as [_ Hall].
  { clear Hm. clearbody v. induction v as [|w v IH]; [constructor|]. cbn.
    constructor; [|constructor; [|exact IH]]; unfold f; destruct (_ && _); cbn; auto. }
  assert (forall v, length (lanes16 (map f v)) = (2 * length v)%nat) as Hl.
  { clear. induction v as [|w v IH]; [done|].
    change (length (lanes16 (map f (w :: v)))) with (S (S (length (lanes16 (map f v))))).
    rewrite IH. cbn [length]. lia. }
  assert (length v = 8%nat) as Hv8 by (unfold v; by rewrite length_map, length_seq).
  rewrite Hl, Hv8 in Hall. clear Hv8.
  specialize (Hall Hm).
  assert (src (dx + j)%nat ∈ v) as Hin.
  { apply list_elem_of_lookup. exists j. unfold v. rewrite list_lookup_fmap.
    by rewrite lookup_seq_lt by lia. }
  clear Hm Hl. revert Hall Hin. generalize (src (dx + j)%nat) as x. clearbody v.
  induction v as [|w v IH]; intros x Hall Hin; [by apply elem_of_nil in Hin|].
  inversion Hall as [|? ? H1 Hall1]; subst. inversion Hall1 as [|? ? _ Hall2]; subst.
  apply elem_of_cons in Hin as [->|Hin]; [|by apply IH].
  unfold f in H1. cbv beta in H1. destruct (_ && _) eqn:E; [lia|discriminate].
Qed.

Section Blocks.
Context (src : nat -> Z) (turn : nat -> action * nat) (store : list Z -> Z -> list Z).

Lemma runs_app m1 m2 out dx out1 dx1 out2 dx2 :
  runs turn store m1 out dx out1 dx1 -> runs turn store m2 out1 dx1 out2 dx2 ->
  runs turn store (m1 + m2) out dx out2 dx2.
Proof. induction 1; intros; [done|]. econstructor; eauto. Qed.

(** Units stored unchanged, one per turn. *)
Lemma runs_block k out dx :
  (forall j, (j < k)%nat -> turn (dx + j)%nat = (Emit (src (dx + j)%nat), dx + j + 1)%nat) ->
  (forall j out', (j < k)%nat -> length out' = (length out + j)%nat ->
     store out' (src (dx + j)%nat) = out' ++ [src (dx + j)%nat]) ->
  runs turn store k out dx (out ++ map src (seq dx k)) (dx + k).
Proof.
  revert out dx. induction k as [|k IH]; intros out dx Ht Hs.
  - cbn. rewrite app_nil_r, Nat.add_0_r. constructor.
  - pose proof (Ht 0%nat ltac:(lia)) as Ht0. pose proof (Hs 0%nat out ltac:(lia) ltac:(lia)) as Hs0.
    rewrite Nat.add_0_r in Ht0, Hs0.
    econstructor; [exact Ht0|]. rewrite Hs0. cbn [seq map].
    replace (out ++ src dx :: map src (seq (S dx) k)) with
      ((out ++ [src dx]) ++ map src (seq (dx + 1) k)) by
      (rewrite <- app_assoc, Nat.add_1_r; done).
    replace (dx + S k)%nat with (dx + 1 + k)%nat by lia. apply IH.
    + intros j Hj. replace (dx + 1 + j)%nat with (dx + S j)%nat by lia. apply Ht. lia.
    + intros j out' Hj Hl. replace (dx + 1 + j)%nat with (dx + S j)%nat by lia.
      apply Hs; [lia|]. rewrite Hl, length_app. cbn. lia.
Qed.
End Blocks.

(** ** tprecode8to16 *)

Lemma turn8_ascii src dx :
  0 < src dx < 128 -> tprecode8to16_turn src dx = (Emit (src dx), dx + 1)%nat.
Proof.
  intros H. unfold tprecode8to16_turn. rewrite byte_land by (unfold is_byte; lia).
  rewrite (if_false (0xC0 <=? src dx)) by lia. by rewrite if_false by lia.
Qed.

Lemma store16_bmp dstsize out x :
  0 < x < 0x10000 -> Z.of_nat (length out) + 1 < dstsize ->
  tprecode8to16_store dstsize out x = out ++ [x].
Proof.
  intros Hx Hd. unfold tprecode8to16_store. rewrite EncodeUtf16_bmp, u32_small by lia.
  cbn [store16_loop]. rewrite if_true by lia. rewrite shiftr_div by lia.
  rewrite if_false by lia. by rewrite u16_small by lia.
Qed.

Lemma s8_pos b : is_byte b -> 0 < s8 b -> 0 < b < 128.
Proof. unfold is_byte, s8. lia. Qed.

Lemma sse2_8to16_runs dstsize src f out dx out' dx' :
  (forall i, is_byte (src i)) ->
  tprecode8to16_sse2 dstsize src f out dx = (out', dx') ->
  exists m, runs (tprecode8to16_turn src) (tprecode8to16_store dstsize) m out dx out' dx'.
Proof.
  intros Hb. revert out dx. induction f as [|f IH]; intros out dx; cbn [tprecode8to16_sse2].
  { intros [= <- <-]. exists 0%nat. constructor. }
  destruct (_ <? dstsize) eqn:Ed; [|intros [= <- <-]; exists 0%nat; constructor].
  destruct (negb _) eqn:Em; [intros [= <- <-]; exists 0%nat; constructor|].
  bool_prop. pose proof (sse2_lanes8 src dx Em) as Hl.
  rewrite take_drop. intros Hrec. destruct (IH _ _ Hrec) as [m Hm].
  exists (16 + m)%nat. eapply runs_app; [|exact Hm]. apply runs_block.
  - intros j Hj. apply turn8_ascii, s8_pos; auto.
  - intros j out1 Hj Hl1. apply store16_bmp; [|lia].
    pose proof (s8_pos _ (Hb (dx + j)%nat) (Hl j Hj)). lia.
Qed.

(** The lane sum is at most 255 and is compared with 4080: the NEON loop never turns. *)
Lemma neon_8to16_id dstsize src f out dx : tprecode8to16_neon dstsize src f out dx = (out, dx).
Proof.
  destruct f; [done|]. cbn [tprecode8to16_neon]. case_if; [|done].
  rewrite if_true; [done|]. pose proof (u8_range (foldr Z.add 0
    (map (fun b => if 0 <? b then 0xFF else 0) (map src (seq dx 16))))). unfold vaddvq_u8. lia.
Qed.

Lemma cont8_bound src dx i k a a' dx' n :
  tprecode8to16_cont src dx i k a = Some (a', dx') -> nul_at src dx n -> (i <= n)%nat ->
  (dx < dx' <= dx + n)%nat.
Proof.
  intros H Hn. revert i a H. induction k as [|k IH]; intros i a; [done|]. cbn [tprecode8to16_cont].
  destruct (_ =? 0) eqn:E0; [done|]. destruct (negb _); [done|]. intros H Hi.
  assert (i < n)%nat.
  { assert (i <> n); [|lia]. intros ->. destruct Hn as [Hz _]. rewrite Hz in E0. done. }
  destruct (k =? 0)%nat; [injection H as <- <-; lia|]. eapply IH; [exact H|lia].
Qed.

Lemma turn8_progress src : turn_progress src (tprecode8to16_turn src).
Proof.
  intros dx n Hn. unfold tprecode8to16_turn.
  destruct n as [|n].
  - destruct Hn as [Hz _]. rewrite Nat.add_0_r in Hz. by rewrite Hz.
  - pose proof (nul_at_advance _ _ _ 1 Hn ltac:(lia)) as Hn1.
    destruct (0xC0 <=? _); [|case_if; [done|lia]].
    destruct (tprecode8to16_cont _ _ _ _ _) as [[a dx']|] eqn:Ec; [|case_if; [done|lia]].
    pose proof (cont8_bound _ _ _ _ _ _ _ _ Ec Hn1 ltac:(lia)). case_if; [done|lia].
Qed.

(** ** tprecode16to8 *)

Lemma turn16_ascii src dx :
  0 < src dx < 128 -> tprecode16to8_turn src dx = (Emit (src dx), dx + 1)%nat.
Proof.
  intros H. unfold tprecode16to8_turn, IsUtf16Cont.
  rewrite IsLowSurrogate_spec, IsUcs2_spec by lia.
  rewrite if_false by lia. rewrite if_false by lia. by rewrite if_false by lia.
Qed.

Lemma store8_cons n dstsize out b w :
  0 <= b < 256 -> 0 <= w -> b + 256 * w <> 0 -> Z.of_nat (length out) + 1 < dstsize ->
  store8_loop (S n) dstsize out (b + 256 * w) = store8_loop n dstsize (out ++ [b]) w.
Proof.
  intros. cbn [store8_loop]. rewrite if_true by lia.
  change 0xFF with (2 ^ 8 - 1). rewrite land_mask, shiftr_div by lia. do 2 f_equal; lia || f_equal; lia.
Qed.

Lemma store8_zero n dstsize out : store8_loop n dstsize out 0 = out.
Proof. by destruct n. Qed.

(** Storing a code point appends its UTF-8 bytes when they fit with the terminator. *)
Lemma store8_utf8 dstsize out c :
  0 < c < 2 ^ 21 -> Z.of_nat (length out + length (utf8 c)) < dstsize ->
  tprecode16to8_store dstsize out c = out ++ utf8 c.
Proof.
  intros Hc. unfold tprecode16to8_store, utf8. case_ifs; cbn [length]; intros Hd.
  - rewrite tpenc_1byte by lia. replace c with (c + 256 * 0) at 1 by lia.
    rewrite store8_cons by lia. apply store8_zero.
  - rewrite tpenc_2byte by lia. rewrite store8_cons by lia.
    replace (128 + c mod 64) with (128 + c mod 64 + 256 * 0) at 1 by lia.
    rewrite store8_cons, store8_zero, <- !app_assoc by (rewrite ?length_app; cbn; lia). done.
  - rewrite tpenc_3byte by lia. rewrite !store8_cons by (rewrite ?length_app; cbn [length]; lia).
    replace (128 + c mod 64) with (128 + c mod 64 + 256 * 0) at 1 by lia.
    rewrite store8_cons, store8_zero, <- !app_assoc by (rewrite ?length_app; cbn [length]; lia). done.
  - rewrite tpenc_4byte by lia. rewrite !store8_cons by (rewrite ?length_app; cbn [length]; lia).
    replace (128 + c mod 64) with (128 + c mod 64 + 256 * 0) at 1 by lia.
    rewrite store8_cons, store8_zero, <- !app_assoc by (rewrite ?length_app; cbn [length]; lia). done.
Qed.

Lemma s16_small w : is_u16 w -> 0 < s16 w <= 0x7F -> 0 < w < 128.
Proof. unfold is_u16, s16. lia. Qed.

Lemma sse2_16to8_runs dstsize src f out dx out' dx' :
  (forall i, is_u16 (src i)) ->
  tprecode16to8_sse2 dstsize src f out dx = (out', dx') ->
  exists m, runs (tprecode16to8_turn src) (tprecode16to8_store dstsize) m out dx out' dx'.
Proof.
  intros Hb. revert out dx. induction f as [|f IH]; intros out dx; cbn [tprecode16to8_sse2].
  { intros [= <- <-]. exists 0%nat. constructor. }
  destruct (_ <? dstsize) eqn:Ed; [|intros [= <- <-]; exists 0%nat; constructor].
  destruct (negb _) eqn:Em; [intros [= <- <-]; exists 0%nat; constructor|].
  bool_prop. pose proof (sse2_lanes16 src dx Em) as Hl.
  intros Hrec. destruct (IH _ _ Hrec) as [m Hm].
  exists (8 + m)%nat. eapply runs_app; [|exact Hm]. apply runs_block.
  - intros j Hj. apply turn16_ascii, s16_small; auto.
  - intros j out1 Hj Hl1. pose proof (s16_small _ (Hb (dx + j)%nat) (Hl j Hj)).
    assert (utf8 (src (dx + j)%nat) = [src (dx + j)%nat]) as E by (unfold utf8; by rewrite if_true by lia).
    rewrite store8_utf8; rewrite ?E; cbn [length]; lia || done.
Qed.

Lemma neon_16to8_id dstsize src f out dx : tprecode16to8_neon dstsize src f out dx = (out, dx).
Proof.
  destruct f; [done|]. cbn [tprecode16to8_neon]. case_if; [|done].
  rewrite if_true; [done|]. unfold vaddvq_u16.
  match goal with |- context [u16 ?x] => pose proof (u16_range x) end. lia.
Qed.

Lemma turn16_progress src : turn_progress src (tprecode16to8_turn src).
Proof.
  intros dx n Hn. unfold tprecode16to8_turn.
  destruct n as [|[|n]].
  - destruct Hn as [Hz _]. rewrite Nat.add_0_r in Hz. by rewrite Hz.
  - destruct Hn as [Hz _]. rewrite Hz. case_if; [done|]. case_if; [lia|]. case_if; [done|lia].
  - case_if; [done|]. case_if; [lia|]. case_if; [case_if; [done|lia]|lia].
Qed.

(** ** Valid text *)

(** The units [l] lie in memory at offset [i]. *)
Definition holds (src : nat -> Z) (i : nat) (l : list Z) : Prop := map src (seq i (length l)) = l.

Lemma holds_lookup src i l j b : holds src i l -> l !! j = Some b -> src (i + j)%nat = b.
Proof.
  intros H Hj. pose proof (lookup_lt_Some _ _ _ Hj) as Hl. unfold holds in H. rewrite <- H in Hj.
  rewrite list_lookup_fmap, lookup_seq_lt in Hj by lia. by injection Hj.
Qed.

Lemma holds_app src i l1 l2 : holds src i (l1 ++ l2) <-> holds src i l1 /\ holds src (i + length l1) l2.
Proof.
  unfold holds. rewrite length_app, seq_app, map_app. split.
  - intros H. by apply app_inj_1 in H; [|by rewrite length_map, length_seq].
  - by intros [-> ->].
Qed.

Lemma cont8_step src dx i k a r :
  src (dx + i)%nat = 0x80 + r -> 0 <= r < 64 -> 0 <= a < 2 ^ 20 ->
  tprecode8to16_cont src dx i (S k) a =
    if (k =? 0)%nat then Some (a * 64 + r, (dx + (i + 1))%nat)
    else tprecode8to16_cont src dx (i + 1) k (a * 64 + r).
Proof.
  intros Hs Hr Ha. cbn [tprecode8to16_cont]. rewrite Hs, byte_land by (unfold is_byte; lia).
  rewrite if_false by lia. rewrite cont_byte, merge_cont, s32_small by lia. done.
Qed.

Lemma turn8_scalar src dx c :
  scalar c -> holds src dx (utf8 c) ->
  tprecode8to16_turn src dx = (Emit c, dx + length (utf8 c))%nat.
Proof.
  intros Hc Hh. unfold scalar in Hc. pose proof (fun b => holds_lookup _ _ _ 0 b Hh) as H0.
  pose proof (fun b => holds_lookup _ _ _ 1 b Hh) as H1. pose proof (fun b => holds_lookup _ _ _ 2 b Hh) as H2.
  pose proof (fun b => holds_lookup _ _ _ 3 b Hh) as H3. clear Hh. rewrite Nat.add_0_r in H0.
  unfold utf8 in *. destruct (c <? 0x80) eqn:E1.
  { bool_prop. specialize (H0 _ eq_refl). rewrite turn8_ascii by lia. by rewrite H0. }
  unfold tprecode8to16_turn. bool_prop.
  destruct (c <? 0x800) eqn:E2; [|destruct (c <? 0x10000) eqn:E3]; bool_prop; cbn [length];
    specialize (H0 _ eq_refl); specialize (H1 _ eq_refl); rewrite H0, byte_land by (unfold is_byte; lia);
    (rewrite (if_true (0xC0 <=? _)) by lia).
  - destruct (lead2 (0xC0 + c / 64) ltac:(lia)) as [-> ->]. change (Z.to_nat (2 - 1)) with 1%nat.
    rewrite (cont8_step _ _ _ _ _ (c mod 64)) by (rewrite <- ?H1; try f_equal; lia). cbn [Nat.eqb].
    rewrite if_false by lia. f_equal; [f_equal; lia|lia].
  - specialize (H2 _ eq_refl).
    destruct (lead3 (0xE0 + c / 4096) ltac:(lia)) as [-> ->]. change (Z.to_nat (3 - 1)) with 2%nat.
    rewrite (cont8_step _ _ _ _ _ ((c / 64) mod 64)) by (rewrite <- ?H1; try f_equal; lia). cbn [Nat.eqb].
    rewrite (cont8_step _ _ _ _ _ (c mod 64)) by (rewrite <- ?H2; try f_equal; lia). cbn [Nat.eqb].
    rewrite if_false by lia. f_equal; [f_equal; lia|lia].
  - specialize (H2 _ eq_refl). specialize (H3 _ eq_refl).
    destruct (lead4 (0xF0 + c / 262144) ltac:(lia)) as [-> ->]. change (Z.to_nat (4 - 1)) with 3%nat.
    rewrite (cont8_step _ _ _ _ _ ((c / 4096) mod 64)) by (rewrite <- ?H1; try f_equal; lia). cbn [Nat.eqb].
    rewrite (cont8_step _ _ _ _ _ ((c / 64) mod 64)) by (rewrite <- ?H2; try f_equal; lia). cbn [Nat.eqb].
    rewrite (cont8_step _ _ _ _ _ (c mod 64)) by (rewrite <- ?H3; try f_equal; lia). cbn [Nat.eqb].
    rewrite if_false by lia. f_equal; [f_equal; lia|lia].
Qed.

Lemma store16_utf16 dstsize out c :
  scalar c -> Z.of_nat (length out + length (utf16 c)) < dstsize ->
  tprecode8to16_store dstsize out c = out ++ utf16 c.
Proof.
  intros Hc. unfold scalar in Hc. unfold utf16. case_ifs; cbn [length]; intros Hd.
  - apply store16_bmp; lia.
  - unfold tprecode8to16_store. rewrite EncodeUtf16_astral, u32_small by lia.
    assert (0xD800 <= 0xD800 + (c - 0x10000) / 1024 < 0xDC00) as Hh by lia.
    assert (0xDC00 <= 0xDC00 + (c - 0x10000) mod 1024 < 0xE000) as Hl by lia.
    revert Hh Hl. generalize (0xD800 + (c - 0x10000) / 1024) as h.
    generalize (0xDC00 + (c - 0x10000) mod 1024) as l. intros l h Hh Hl.
    cbn [store16_loop]. rewrite if_true by lia. rewrite shiftr_div by lia.
    change (2 ^ 16) with 65536.
    replace ((h + 65536 * l) / 65536) with l by lia.
    rewrite if_true by (rewrite length_app; cbn [length]; apply andb_true_intro; split;
      [lia|apply Z.ltb_lt; lia]).
    rewrite <- app_assoc. cbn [app]. unfold u16. change (2 ^ 16) with 65536.
    replace ((h + 65536 * l) mod 65536) with h by lia.
    by replace (l mod 65536) with l by lia.
Qed.

Lemma turn16_scalar src dx c :
  scalar c -> holds src dx (utf16 c) ->
  tprecode16to8_turn src dx = (Emit c, dx + length (utf16 c))%nat.
Proof.
  intros Hc Hh. unfold scalar in Hc. pose proof (fun b => holds_lookup _ _ _ 0 b Hh) as H0.
  pose proof (fun b => holds_lookup _ _ _ 1 b Hh) as H1. clear Hh. rewrite Nat.add_0_r in H0.
  unfold utf16 in *. unfold tprecode16to8_turn, IsUtf16Cont.
  destruct (c <? 0x10000) eqn:E; bool_prop; specialize (H0 _ eq_refl); rewrite H0;
    rewrite IsLowSurrogate_spec, IsUcs2_spec by lia;
    rewrite if_false by lia; rewrite if_false by lia.
  - by rewrite if_false by lia.
  - rewrite if_true by lia. specialize (H1 _ eq_refl). rewrite H1. rewrite if_false by lia.
    rewrite MergeUtf16_spec, u32_small by lia. f_equal. cbn. lia.
Qed.

Definition utf8s (cs : list Z) : list Z := flat_map utf8 cs.
Definition utf16s (cs : list Z) : list Z := flat_map utf16 cs.
Lemma utf8s_length cs : (length cs <= length (utf8s cs))%nat.
Proof.
  induction cs as [|c cs IH]; [done|]. change (utf8s (c :: cs)) with (utf8 c ++ utf8s cs). rewrite length_app.
  assert (1 <= length (utf8 c))%nat by (unfold utf8; repeat case_match; cbn; lia). cbn. lia.
Qed.

Lemma utf8_bytes c : 0 <= c < 2 ^ 21 -> Forall is_byte (utf8 c).
Proof. intros. unfold utf8, is_byte. case_ifs; repeat constructor; lia. Qed.
Lemma utf8_nonzero c : scalar c -> Forall (fun b => b <> 0) (utf8 c).
Proof. intros [?|?]; unfold utf8; case_ifs; repeat constructor; lia. Qed.
Lemma utf8s_nonzero cs : Forall scalar cs -> Forall (fun b => b <> 0) (utf8s cs).
Proof. induction 1; cbn; [done|]. apply Forall_app. split; [by apply utf8_nonzero|done]. Qed.
Lemma utf16_nonzero c : scalar c -> Forall (fun b => b <> 0) (utf16 c).
Proof. intros [?|?]; unfold utf16; case_ifs; repeat constructor; lia. Qed.
Lemma utf8_length c : (1 <= length (utf8 c) <= 4)%nat.
Proof. unfold utf8. case_ifs; cbn; lia. Qed.
Lemma utf16_length c : (1 <= length (utf16 c) <= 2)%nat.
Proof. unfold utf16. case_ifs; cbn; lia. Qed.

(** The scalar loop over a text whose code points are each decoded and stored whole. *)
Lemma recode_loop_text src turn store (enc_in enc_out : Z -> list Z) (dstsize : Z) :
  (forall dx c, scalar c -> holds src dx (enc_in c) -> turn dx = (Emit c, dx + length (enc_in c))%nat) ->
  (forall out c, scalar c -> Z.of_nat (length out + length (enc_out c)) < dstsize ->
     store out c = out ++ enc_out c) ->
  (forall dx, src dx = 0 -> turn dx = (Stop, dx + 1)%nat) ->
  forall cs out dx f, Forall scalar cs -> holds src dx (flat_map enc_in cs ++ [0]) ->
  Z.of_nat (length out + length (flat_map enc_out cs)) < dstsize -> (length cs < f)%nat ->
  recode_loop turn store scalar_only f out dx =
    Some (out ++ flat_map enc_out cs, dx + length (flat_map enc_in cs) + 1)%nat.
Proof.
  intros Ht Hs Hz cs. induction cs as [|c cs IH]; intros out dx f Hc Hh Hd Hf;
    (destruct f as [|f]; [cbn in Hf; lia|]); cbn [recode_loop scalar_only].
  - rewrite Hz by (by rewrite <- (Nat.add_0_r dx); apply (holds_lookup _ _ _ 0 _ Hh)).
    by rewrite app_nil_r, Nat.add_0_r.
  - inversion_clear Hc as [|? ? Hc1 Hc2]. cbn [flat_map] in Hh, Hd |- *.
    rewrite <- app_assoc in Hh. apply holds_app in Hh as [Hh1 Hh2]. rewrite length_app in Hd |- *.
    rewrite (Ht _ _ Hc1 Hh1). rewrite Hs by (done || lia).
    rewrite (IH _ _ _ Hc2 Hh2); [|rewrite length_app; lia|cbn in Hf; lia].
    rewrite <- app_assoc. do 2 f_equal. lia.
Qed.

Lemma recode_loop_text_any src turn store vector enc_in enc_out dstsize :
  turn_progress src turn ->
  (forall f out dx out' dx', vector f out dx = (out', dx') -> exists m, runs turn store m out dx out' dx') ->
  (forall dx c, scalar c -> holds src dx (enc_in c) -> turn dx = (Emit c, dx + length (enc_in c))%nat) ->
  (forall out c, scalar c -> Z.of_nat (length out + length (enc_out c)) < dstsize ->
     store out c = out ++ enc_out c) ->
  (forall dx, src dx = 0 -> turn dx = (Stop, dx + 1)%nat) ->
  (forall c, scalar c -> (1 <= length (enc_in c))%nat /\ Forall (fun b => b <> 0) (enc_in c)) ->
  forall cs f, Forall scalar cs -> holds src 0 (flat_map enc_in cs ++ [0]) ->
  Z.of_nat (length (flat_map enc_out cs)) < dstsize -> (length (flat_map enc_in cs) < f)%nat ->
  recode_loop turn store vector f [] 0 =
    Some (flat_map enc_out cs, length (flat_map enc_in cs) + 1)%nat.
Proof.
  intros Hp Hv Ht Hs Hz He cs f Hc Hh Hd Hf.
  set (n := length (flat_map enc_in cs)) in *.
  assert (length cs <= n)%nat as Hlen.
  { subst n. clear - Hc He. induction Hc as [|c cs H1 _ IH]; [done|].
    cbn. rewrite length_app. destruct (He c H1). lia. }
  assert (Forall (fun b => b <> 0) (flat_map enc_in cs)) as Hnz.
  { clear - Hc He. induction Hc as [|c cs H1 _ IH]; [constructor|].
    cbn. apply Forall_app. split; [by apply He|done]. }
  assert (nul_at src 0 n) as Hn.
  { apply holds_app in Hh as [Hh1 Hh2]. split.
    - fold n in Hh2. rewrite <- (Nat.add_0_r (0 + n)). by apply (holds_lookup _ _ _ 0 _ Hh2).
    - intros j Hj. destruct (lookup_lt_is_Some_2 (flat_map enc_in cs) j Hj) as [b Hb].
      rewrite (holds_lookup _ _ _ _ _ Hh1 Hb). rewrite Forall_lookup in Hnz. eauto. }
  destruct (recode_loop_vector src turn store vector Hp Hv n f f [] 0 Hn Hf Hf) as (r & -> & Hr).
  rewrite <- Hr. apply (recode_loop_text src turn store enc_in enc_out dstsize Ht Hs Hz cs [] 0); auto.
  lia.
Qed.

Lemma vector8_runs v addr dstsize src :
  (forall i, is_byte (src i)) -> forall f out dx out' dx',
  tprecode8to16_vector v addr dstsize src f out dx = (out', dx') ->
  exists m, runs (tprecode8to16_turn src) (tprecode8to16_store dstsize) m out dx out' dx'.
Proof.
  intros Hb f out dx out' dx'.
  destruct v; cbn [tprecode8to16_vector]; [| |rewrite neon_8to16_id];
    try (case_if; [by apply sse2_8to16_runs|]); repeat case_if; intros [= <- <-]; exists 0%nat; constructor.
Qed.

Lemma vector16_runs v addr dstsize src :
  (forall i, is_u16 (src i)) -> forall f out dx out' dx',
  tprecode16to8_vector v addr dstsize src f out dx = (out', dx') ->
  exists m, runs (tprecode16to8_turn src) (tprecode16to8_store dstsize) m out dx out' dx'.
Proof.
  intros Hb f out dx out' dx'.
  destruct v; cbn [tprecode16to8_vector]; [| |rewrite neon_16to8_id];
    try (case_if; [by apply sse2_16to8_runs|]); repeat case_if; intros [= <- <-]; exists 0%nat; constructor.
Qed.

(** ** Stores stay in bounds *)

(** Room is left for the terminator whenever anything was stored. *)
Definition fits (dstsize : Z) (out : list Z) : Prop := out = [] \/ Z.of_nat (length out) < dstsize.

Lemma fits_snoc dstsize out l :
  Z.of_nat (length out + length l) < dstsize -> fits dstsize (out ++ l).
Proof. intros. right. rewrite length_app. lia. Qed.

Lemma recode_loop_fits turn store vector dstsize :
  (forall out x, fits dstsize out -> fits dstsize (store out x)) ->
  (forall f out dx, fits dstsize out -> fits dstsize (vector f out dx).1) ->
  forall f out dx r, fits dstsize out -> recode_loop turn store vector f out dx = Some r ->
  fits dstsize r.1.
Proof.
  intros Hs Hv f. induction f as [|f IH]; intros out dx r Ho; [done|]. cbn [recode_loop].
  specialize (Hv f out dx Ho). destruct (vector f out dx) as [out' dx']. cbn in Hv.
  destruct (turn dx') as [[| |x] dx'']; [intros [= <-]; done|eauto|eauto].
Qed.

Lemma store16_fits dstsize out x : fits dstsize out -> fits dstsize (tprecode8to16_store dstsize out x).
Proof.
  unfold tprecode8to16_store. generalize (u32 (EncodeUtf16 x)). generalize 2%nat as n.
  intros n. revert out. induction n as [|n IH]; intros out w Ho; [done|]. cbn [store16_loop].
  case_if; [|done]. bool_prop. apply IH, fits_snoc. cbn [length]. lia.
Qed.

Lemma store8_fits dstsize out x : fits dstsize out -> fits dstsize (tprecode16to8_store dstsize out x).
Proof.
  unfold tprecode16to8_store. generalize (tpenc x). generalize 8%nat as n.
  intros n. revert out. induction n as [|n IH]; intros out w Ho; [done|]. cbn [store8_loop].
  case_if; [|done]. bool_prop. apply IH, fits_snoc. cbn [length]. lia.
Qed.

Lemma sse2_8to16_fits dstsize src f out dx :
  fits dstsize out -> fits dstsize (tprecode8to16_sse2 dstsize src f out dx).1.
Proof.
  revert out dx. induction f as [|f IH]; intros out dx Ho; [done|]. cbn [tprecode8to16_sse2].
  case_if; [|done]. case_if; [done|]. bool_prop. apply IH, fits_snoc.
  rewrite take_drop, length_map, length_seq. lia.
Qed.

Lemma sse2_16to8_fits dstsize src f out dx :
  fits dstsize out -> fits dstsize (tprecode16to8_sse2 dstsize src f out dx).1.
Proof.
  revert out dx. induction f as [|f IH]; intros out dx Ho; [done|]. cbn [tprecode16to8_sse2].
  case_if; [|done]. case_if; [done|]. bool_prop. apply IH, fits_snoc.
  rewrite length_map, length_seq. lia.
Qed.

Lemma finish_bound dstsize r : 0 <= dstsize -> fits dstsize r.1 ->
  Z.of_nat (length (ax_out (finish dstsize r))) <= dstsize.
Proof.
  intros Hd [E|H]; unfold finish; cbn [ax_out]; [rewrite E; cbn; case_ifs; cbn; lia|].
  case_ifs. rewrite length_app. cbn [length]. lia.
Qed.

(** * Properties *)

(** The packed word [tpenc] returns holds exactly the RFC 3629 bytes of every code
    below [2^21], lead byte first. *)
Theorem tpenc_is_utf8 c : 0 <= c < 2 ^ 21 -> tpenc_bytes c = utf8 c.
Proof. apply tpenc_bytes_utf8. Qed.

Lemma tpenc_is_utf8_witness : tpenc_bytes 0x20AC = [0xE2; 0x82; 0xAC].
Proof. rewrite (tpenc_is_utf8 0x20AC); [reflexivity|lia]. Defined.

(** Whatever the CPU path and the alignment of the source, [tprecode8to16] returns
    what the portable loop returns, for every NUL-terminated byte string, valid UTF-8 or
    not, and every buffer size; both finish within one turn per byte. *)
Theorem tprecode8to16_paths_agree v addr dstsize src n f1 f2 :
  (forall i, is_byte (src i)) -> nul_at src 0 n -> (n < f1)%nat -> (n < f2)%nat ->
  exists r, tprecode8to16 v addr dstsize src f1 = Some r /\
            tprecode8to16 Portable addr dstsize src f2 = Some r.
Proof.
  intros Hb Hn H1 H2. unfold tprecode8to16.
  destruct (recode_loop_vector src (tprecode8to16_turn src) (tprecode8to16_store dstsize)
    (tprecode8to16_vector v addr dstsize src) (turn8_progress src)
    (vector8_runs v addr dstsize src Hb) n f1 f2 [] 0 Hn H1 H2) as (r & E1 & E2).
  exists (finish dstsize r). rewrite E1.
  split; [done|exact (f_equal (fmap (M:=option) (finish dstsize)) E2)].
Qed.

(** The same for [tprecode16to8] and every NUL-terminated string of shorts, lone
    surrogates included. *)
Theorem tprecode16to8_paths_agree v addr dstsize src n f1 f2 :
  (forall i, is_u16 (src i)) -> nul_at src 0 n -> (n < f1)%nat -> (n < f2)%nat ->
  exists r, tprecode16to8 v addr dstsize src f1 = Some r /\
            tprecode16to8 Portable addr dstsize src f2 = Some r.
Proof.
  intros Hb Hn H1 H2. unfold tprecode16to8.
  destruct (recode_loop_vector src (tprecode16to8_turn src) (tprecode16to8_store dstsize)
    (tprecode16to8_vector v addr dstsize src) (turn16_progress src)
    (vector16_runs v addr dstsize src Hb) n f1 f2 [] 0 Hn H1 H2) as (r & E1 & E2).
  exists (finish dstsize r). rewrite E1.
  split; [done|exact (f_equal (fmap (M:=option) (finish dstsize)) E2)].
Qed.

(** A string literal in memory, zero filled after its terminator. *)
Definition load (l : list Z) (i : nat) : Z := nth i l 0.

Lemma load_forall (P : Z -> Prop) l : Forall P l -> P 0 -> forall i, P (load l i).
Proof.
  intros H H0 i. unfold load. destruct (nth_in_or_default i l 0) as [Hi | ->]; [|done].
  rewrite List.Forall_forall in H. auto.
Qed.

Lemma load_holds l : holds (load l) 0 l.
Proof.
  unfold holds, load. apply list_eq_same_length with (length l).
  - done.
  - by rewrite length_map, length_seq.
  - intros i x y Hi. rewrite list_lookup_fmap, lookup_seq_lt by lia. cbn.
    intros [= <-] Hy. by apply nth_lookup_Some.
Qed.

Definition euro_text : list Z := utf8s [0x68; 0x20AC; 0x1F600] ++ [0].

Lemma euro_text_bytes i : is_byte (load euro_text i).
Proof. apply load_forall; [|unfold is_byte; lia]. vm_compute. repeat constructor; lia || done. Qed.

(** Text survives the trip. A NUL-terminated UTF-8 string of Unicode scalar values
    becomes its UTF-16 encoding, terminated, on any path; transcoding that back gives the
    bytes it came from. *)
Theorem recode_roundtrip v1 v2 addr1 addr2 size16 size8 src cs f1 f2 :
  Forall scalar cs -> (forall i, is_byte (src i)) -> holds src 0 (utf8s cs ++ [0]) ->
  Z.of_nat (length (utf16s cs)) < size16 -> Z.of_nat (length (utf8s cs)) < size8 ->
  (length (utf8s cs) < f1)%nat -> (length (utf16s cs) < f2)%nat ->
  exists r, tprecode8to16 v1 addr1 size16 src f1 = Some r /\
    ax_out r = utf16s cs ++ [0] /\ dx r = (length (utf8s cs) + 1)%nat /\
    forall src16, (forall i, is_u16 (src16 i)) -> holds src16 0 (ax_out r) ->
    exists r', tprecode16to8 v2 addr2 size8 src16 f2 = Some r' /\
      ax_out r' = utf8s cs ++ [0] /\ dx r' = (length (utf16s cs) + 1)%nat.
Proof.
  intros Hc Hb Hh H16 H8 Hf1 Hf2. unfold tprecode8to16, tprecode16to8.
  rewrite (recode_loop_text_any src _ _ _ utf8 utf16 size16 (turn8_progress src)
    (vector8_runs v1 addr1 size16 src Hb)) with (cs := cs); auto using turn8_scalar, store16_utf16.
  2: { intros dx0 Hz. unfold tprecode8to16_turn. by rewrite Hz. }
  2: { intros c Hs. split; [apply utf8_length|by apply utf8_nonzero]. }
  eexists. split; [done|]. unfold finish. cbn [fst snd ax_out dx].
  rewrite if_true by (apply Z.ltb_lt; exact H16). repeat split; [done..|].
  intros src16 Hb16 Hh16.
  rewrite (recode_loop_text_any src16 _ _ _ utf16 utf8 size8 (turn16_progress src16)
    (vector16_runs v2 addr2 size8 src16 Hb16)) with (cs := cs); auto using turn16_scalar.
  2: { intros out c Hs Hl. apply store8_utf8; [unfold scalar in Hs; lia|done]. }
  2: { intros dx0 Hz. unfold tprecode16to8_turn. by rewrite Hz. }
  2: { intros c Hs. split; [apply utf16_length|by apply utf16_nonzero]. }
  eexists. split; [done|]. cbn [fst snd ax_out dx].
  rewrite if_true by (apply Z.ltb_lt; exact H8). done.
Qed.

Lemma recode_roundtrip_witness :
  exists r, tprecode8to16 Sse2 0 16 (load euro_text) 20 = Some r /\
    ax_out r = [0x68; 0x20AC; 0xD83D; 0xDE00; 0] /\
    exists r', tprecode16to8 Sse2 0 16 (load (ax_out r)) 20 = Some r' /\ ax_out r' = euro_text.
Proof.
  destruct (recode_roundtrip Sse2 Sse2 0 0 16 16 (load euro_text) [0x68; 0x20AC; 0x1F600] 20 20)
    as (r & E & Eo & _ & Hback).
  - repeat constructor; unfold scalar; lia.
  - apply euro_text_bytes.
  - apply load_holds.
  - vm_compute; reflexivity.
  - vm_compute; reflexivity.
  - vm_compute; lia.
  - vm_compute; lia.
  - exists r. split; [exact E|]. split; [rewrite Eo; reflexivity|].
    destruct (Hback (load (ax_out r))) as (r' & E' & Eo' & _).
    + apply load_forall; [|unfold is_u16; lia]. rewrite Eo.
      vm_compute. repeat constructor; lia || done.
    + apply load_holds.
    + exists r'. split; [exact E'|]. rewrite Eo'. reflexivity.
Defined.



(** Whatever the CPU path and the alignment of the source, each transcoder returns what
    its portable loop returns, for every NUL-terminated string, well formed or not, and every
    buffer size; both finish within one turn per unit of the source. *)
Theorem tprecode_paths_agree v addr dstsize src n f1 f2 :
  nul_at src 0 n -> (n < f1)%nat -> (n < f2)%nat ->
  ((forall i, is_byte (src i)) ->
   exists r, tprecode8to16 v addr dstsize src f1 = Some r /\
             tprecode8to16 Portable addr dstsize src f2 = Some r) /\
  ((forall i, is_u16 (src i)) ->
   exists r, tprecode16to8 v addr dstsize src f1 = Some r /\
             tprecode16to8 Portable addr dstsize src f2 = Some r).
Proof.
  intros Hn H1 H2. split; intros Hs;
    [by apply (tprecode8to16_paths_agree _ _ _ _ n)|by apply (tprecode16to8_paths_agree _ _ _ _ n)].
Qed.

Lemma tprecode_paths_agree_witness :
  (exists r, tprecode8to16 Sse2 0 64 (load euro_text) 9 = Some r /\
             tprecode8to16 Portable 0 64 (load euro_text) 10 = Some r) /\
  (exists r, tprecode16to8 Neon 2 64 (load [0x61; 0xDC00; 0xD83D; 0]) 4 = Some r /\
             tprecode16to8 Portable 2 64 (load [0x61; 0xDC00; 0xD83D; 0]) 5 = Some r).
Proof.
  split.
  - apply (tprecode_paths_agree Sse2 0 64 (load euro_text) 8); [|lia..|apply euro_text_bytes].
    split; [reflexivity|]. intros j Hj. do 8 (destruct j as [|j]; [vm_compute; discriminate|]). lia.
  - apply (tprecode_paths_agree Neon 2 64 (load [0x61; 0xDC00; 0xD83D; 0]) 3); [|lia..|].
    + split; [reflexivity|]. intros j Hj. do 3 (destruct j as [|j]; [vm_compute; discriminate|]). lia.
    + apply load_forall; [|unfold is_u16; lia]. repeat constructor; unfold is_u16; lia.
Defined.
