(* ===== verification/NtArgs.v ===== *)
(** Program arguments across the Windows process boundary:
    [libc/calls/mkntcmdline.c] (argv to command line), [libc/calls/mungentpath.c] and
    [libc/runtime/getdosargv.c] (command line to argv).

    A NUL-terminated string is the list of its units before the terminator; reading the
    empty list reads the terminator. *)
From S2P Require Import Prelude Utf Recode.

(** * Characters and classification *)

(** [isalpha] *)
Definition isalpha (c : Z) : bool :=
  ((0x41 <=? c) && (c <=? 0x5A)) || ((0x61 <=? c) && (c <=? 0x7A)).

(** [s[i]] of a NUL-terminated string, for the short-circuit tests that stop at NUL. *)
Definition at_ (s : list Z) (i : nat) : Z := nth i s 0.

(** * mkntcmdline.c *)

Fixpoint NeedsQuotes_loop (s : list Z) : bool :=
  match s with
  | [] => false
  | c :: s =>
      if (c =? DQUOTE) || (c =? SP) || (c =? HT) || (c =? VT) || (c =? LF) then true
      else NeedsQuotes_loop s
  end.
Definition NeedsQuotes (s : list Z) : bool :=
  if at_ s 0 =? 0 then true else NeedsQuotes_loop s.

Definition LooksLikeCosmoDrivePath (s : list Z) : bool :=
  (at_ s 0 =? SLASH) && isalpha (at_ s 1) && (at_ s 2 =? SLASH).

(** [strlcpy]: what it copies into [dst[dsize]] and the length it returns. *)
Fixpoint strlcpy_copy (nleft : nat) (src : list Z) : list Z :=
  match nleft, src with
  | S (S _ as nleft), c :: src => c :: strlcpy_copy nleft src
  | _, _ => []
  end.
Definition strlcpy (src : list Z) (dsize : nat) : list Z * nat :=
  (strlcpy_copy dsize src, length src).

Definition PATH_MAX : nat := 1024.

(** [mungentpath], in place; no step writes a NUL, so the length never changes. *)
Definition munge_colon (path : list Z) (p : nat) : list Z :=
  if (at_ path p =? COLON) && negb (at_ path (p + 1) =? BSLASH)
  then <[p := SEMI]> path else path.
Definition munge_first (path : list Z) : list Z :=
  if (at_ path 0 =? SLASH) && isalpha (at_ path 1) && (at_ path 2 =? SLASH)
  then <[1%nat := COLON]> (<[0%nat := at_ path 1]> path) else path.
Definition munge_drive (path : list Z) (p : nat) : list Z :=
  if (at_ path p =? SEMI) && (at_ path (p + 1) =? SLASH) && isalpha (at_ path (p + 2))
     && (at_ path (p + 3) =? SLASH)
  then <[(p + 2)%nat := COLON]> (<[(p + 1)%nat := at_ path (p + 2)]> path) else path.
Definition munge_slash (path : list Z) (p : nat) : list Z :=
  if at_ path p =? SLASH then <[p := BSLASH]> path else path.
Definition mungentpath (path : list Z) : list Z :=
  let path := foldl munge_colon path (seq 0 (length path)) in
  let path := munge_first path in
  let path := foldl munge_drive path (seq 0 (length path)) in
  foldl munge_slash path (seq 0 (length path)).

(** The output buffer [cmdline[size]] and the count [k] of units asked for so far. *)
Record cmdbuf := { cmdline : list Z; k : nat }.

(** [APPEND]: [if (k < size) cmdline[k] = c; ++k;] *)
Definition APPEND (st : cmdbuf) (c : Z) : cmdbuf :=
  {| cmdline := if (k st <? length (cmdline st))%nat then <[k st := u16 c]> (cmdline st)
                else cmdline st;
     k := k st + 1 |}.

Definition APPEND_times (n : nat) (c : Z) (st : cmdbuf) : cmdbuf := Nat.iter n (fun st => APPEND st c) st.

(** [do APPEND(w); while ((w >>= 16));], two turns at most for a 32-bit [w]. *)
Fixpoint APPEND_utf16 (n : nat) (w : Z) (st : cmdbuf) : cmdbuf :=
  match n with
  | O => st
  | S n =>
      let st := APPEND st w in
      let w := Z.shiftr w 16 in
      if w =? 0 then st else APPEND_utf16 n w st
  end.

(** [while (--n)]: merges [n] more bytes; NUL ends the argument. *)
Fixpoint merge_bytes (n : nat) (x : Z) (arg : list Z) : Z * list Z :=
  match n with
  | O => (x, arg)
  | S n =>
      match arg with
      | [] => (0, [])
      | y :: arg => if y =? 0 then (0, arg) else merge_bytes n (u32 (ThomPikeMerge x y)) arg
      end
  end.
Definition next_code (arg : list Z) : Z * list Z :=
  match arg with
  | [] => (0, [])
  | x :: arg =>
      if 0xC0 <=? x then merge_bytes (Z.to_nat (ThomPikeLen x - 1)) (ThomPikeByte x) arg
      else (x, arg)
  end.

(** The character loop of one argument. *)
Fixpoint quote_loop (fuel : nat) (arg : list Z) (slashes : nat) (st : cmdbuf) : option (nat * cmdbuf) :=
  match fuel with
  | O => None
  | S fuel =>
      let '(x, arg) := next_code arg in
      if x =? 0 then Some (slashes, st)
      else if x =? BSLASH then quote_loop fuel arg (slashes + 1) st
      else if x =? DQUOTE then
        quote_loop fuel arg slashes (APPEND (APPEND (APPEND st DQUOTE) DQUOTE) DQUOTE)
      else
        let st := APPEND_times slashes BSLASH st in
        quote_loop fuel arg 0 (APPEND_utf16 2 (u32 (EncodeUtf16 x)) st)
  end.

(** The argument written out: drive paths are munged when they fit in [argbuf]. *)
Definition cmdline_arg (arg : list Z) : list Z :=
  if LooksLikeCosmoDrivePath arg && ((strlcpy arg PATH_MAX).2 <? PATH_MAX)%nat
  then mungentpath (strlcpy arg PATH_MAX).1 else arg.

(** The body of [for (i = 0; argv[i]; ++i)]. *)
Definition mkntcmdline_arg (i : nat) (argv_i : list Z) (st : cmdbuf) : option cmdbuf :=
  let st := if (i =? 0)%nat then st else APPEND st SP in
  let arg := cmdline_arg argv_i in
  let needsquote := NeedsQuotes arg in
  let st := if needsquote then APPEND st DQUOTE else st in
  match quote_loop (S (length arg)) arg 0 st with
  | None => None
  | Some (slashes, st) =>
      let st := APPEND_times (if needsquote then 2 * slashes else slashes) BSLASH st in
      Some (if needsquote then APPEND st DQUOTE else st)
  end.

Fixpoint mkntcmdline_loop (i : nat) (argv : list (list Z)) (st : cmdbuf) : option cmdbuf :=
  match argv with
  | [] => Some st
  | arg :: argv =>
      match mkntcmdline_arg i arg st with
      | None => None
      | Some st => mkntcmdline_loop (S i) argv st
      end
  end.

(** [mkntcmdline]: the final buffer and the returned length. *)
Definition mkntcmdline (buf : list Z) (argv : list (list Z)) : option (list Z * nat) :=
  match mkntcmdline_loop 0 argv {| cmdline := buf; k := 0 |} with
  | None => None
  | Some st =>
      let size := length buf in
      Some (if (size =? 0)%nat then cmdline st
            else <[Nat.min (k st) (size - 1) := 0]> (cmdline st), k st)
  end.

(** * getdosargv.c *)

(** [struct DosArgv]: the unread shorts, the bytes stored in [buf[0..p)], [wc]. *)
Record DosArgv := { da_s : list Z; da_p : list Z; da_wc : Z }.

Definition DecodeDosArgv (st : DosArgv) : DosArgv :=
  match da_s st with
  | [] => {| da_s := []; da_p := da_p st; da_wc := 0 |}
  | x :: s =>
      if x =? 0 then {| da_s := s; da_p := da_p st; da_wc := 0 |}
      else if negb (IsUcs2 x) then
        match s with
        | [] => {| da_s := []; da_p := da_p st; da_wc := 0 |}
        | y :: s =>
            {| da_s := s; da_p := da_p st;
               da_wc := if y =? 0 then 0 else u32 (MergeUtf16 x y) |}
        end
      else {| da_s := s; da_p := da_p st; da_wc := x |}
  end.

(** [do { if (p >= pe) break; *p++ = w & 0xff; } while (w >>= 8);] *)
Fixpoint AppendDosArgv_loop (n : nat) (size : nat) (p : list Z) (w : Z) : list Z :=
  match n with
  | O => p
  | S n =>
      if (size <=? length p)%nat then p
      else
        let p := p ++ [Z.land w 0xff] in
        let w := Z.shiftr w 8 in
        if w =? 0 then p else AppendDosArgv_loop n size p w
  end.
Definition AppendDosArgv (size : nat) (wc : Z) (st : DosArgv) : DosArgv :=
  {| da_s := da_s st; da_p := AppendDosArgv_loop 8 size (da_p st) (tpenc wc); da_wc := da_wc st |}.

Definition AppendDosArgv_times (size n : nat) (wc : Z) (st : DosArgv) : DosArgv :=
  Nat.iter n (AppendDosArgv size wc) st.

Fixpoint Count (fuel : nat) (c : Z) (st : DosArgv) (n : nat) : option (nat * DosArgv) :=
  match fuel with
  | O => None
  | S fuel => if da_wc st =? c then Count fuel c (DecodeDosArgv st) (n + 1) else Some (n, st)
  end.

(** The loop over one argument; returns at an unquoted blank or at the end. *)
Fixpoint dosargv_word (fuel size : nat) (inquote : bool) (st : DosArgv) : option DosArgv :=
  match fuel with
  | O => None
  | S fuel =>
      if da_wc st =? 0 then Some st
      else if negb inquote && ((da_wc st =? SP) || (da_wc st =? HT)) then Some st
      else if (da_wc st =? DQUOTE) || (da_wc st =? BSLASH) then
        match Count fuel BSLASH st 0 with
        | None => None
        | Some (slashes, st) =>
        match Count fuel DQUOTE st 0 with
        | None => None
        | Some (quotes, st) =>
            if (quotes =? 0)%nat then
              dosargv_word fuel size inquote (AppendDosArgv_times size slashes BSLASH st)
            else
              (* while (slashes >= 2) Append, slashes -= 2; if (slashes) Append, quotes-- *)
              let st := AppendDosArgv_times size (slashes / 2) BSLASH st in
              let '(quotes, st) :=
                if (slashes mod 2 =? 0)%nat then (quotes, st)
                else (quotes - 1, AppendDosArgv size DQUOTE st)%nat in
              if (0 <? quotes)%nat then
                let quotes := if inquote then quotes else (quotes - 1)%nat in
                (* for (i = 3; i <= quotes + 1; i += 3) Append *)
                let st := AppendDosArgv_times size ((quotes + 1) / 3) DQUOTE st in
                dosargv_word fuel size (quotes mod 3 =? 0)%nat st
              else dosargv_word fuel size inquote st
        end end
      else dosargv_word fuel size inquote (DecodeDosArgv (AppendDosArgv size (da_wc st) st))
  end.

(** [while (wc && (wc == ' ' || wc == '\t')) Decode] *)
Fixpoint skip_blanks (fuel : nat) (st : DosArgv) : option DosArgv :=
  match fuel with
  | O => None
  | S fuel => if (da_wc st =? SP) || (da_wc st =? HT) then skip_blanks fuel (DecodeDosArgv st) else Some st
  end.

(** The loop over arguments; [argv] holds the offsets stored in the pointer array. *)
Fixpoint dosargv_loop (fuel size max : nat) (argc : nat) (argv : list (option nat)) (st : DosArgv)
    : option (nat * list (option nat) * DosArgv) :=
  match fuel with
  | O => None
  | S fuel =>
      if da_wc st =? 0 then Some (argc, argv, st)
      else
        match skip_blanks fuel st with
        | None => None
        | Some st =>
            if da_wc st =? 0 then Some (argc, argv, st)
            else
              let argc := (argc + 1)%nat in
              let argv := if (argc <? max)%nat
                          then argv ++ [if (length (da_p st) <? size)%nat then Some (length (da_p st)) else None]
                          else argv in
              match dosargv_word fuel size false st with
              | None => None
              | Some st => dosargv_loop fuel size max argc argv (AppendDosArgv size 0 st)
              end
        end
  end.

Record dosargs := { d_argc : nat; d_argv : list (option nat); d_buf : list Z }.

(** [GetDosArgv]: the arguments are NUL separated in the buffer, which always ends in
    NUL, and the pointer array is NULL terminated when it has room for anything. *)
Definition GetDosArgv (cmdline : list Z) (size max : nat) : option dosargs :=
  let st := DecodeDosArgv {| da_s := cmdline; da_p := []; da_wc := 0 |} in
  match dosargv_loop (length cmdline + 3) size max 0 [] st with
  | None => None
  | Some (argc, argv, st) =>
      let p := da_p (AppendDosArgv size 0 st) in
      Some {| d_argc := argc;
              d_argv := if (max =? 0)%nat then argv
                        else take (Nat.min argc (max - 1)) argv ++ [None];
              d_buf := if (size =? 0)%nat then p
                       else take (Nat.min (length p) (size - 1)) p ++ [0] |}
  end.
