(* ===== verification/NtArgsFacts.v ===== *)
(** Theorems about the Windows argument codecs of [NtArgs]: the quoting rules round
    trip, the tokenizer is total and bounded, buffers are truncated as documented. *)
From S2P Require Import Prelude Utf Recode NtArgs.

(** * The tokenizer is total *)

(** What is left to read: the shorts, and the code already decoded. *)
Definition left (st : DosArgv) : nat := length (da_s st) + (if da_wc st =? 0 then 0 else 1).

Lemma decode_left st : da_wc st <> 0 -> (left (DecodeDosArgv st) < left st)%nat.
Proof.
  intros Hw. unfold left at 2. rewrite (if_false (_ =? 0)) by lia. unfold DecodeDosArgv, left.
  destruct (da_s st) as [|x s]; [cbn; lia|]. case_if; [cbn; lia|]. case_if.
  - destruct s as [|y s]; cbn; [lia|]. case_ifs.
  - cbn. case_ifs.
Qed.

Lemma append_left size c st : left (AppendDosArgv size c st) = left st.
Proof. done. Qed.
Lemma append_times_left size n c st : left (AppendDosArgv_times size n c st) = left st.
Proof. unfold AppendDosArgv_times. induction n; [done|exact IHn]. Qed.
Lemma append_times_wc size n c st : da_wc (AppendDosArgv_times size n c st) = da_wc st.
Proof. unfold AppendDosArgv_times. induction n; [done|exact IHn]. Qed.

Lemma Count_total c f st n :
  c <> 0 -> (left st < f)%nat ->
  exists m st', Count f c st n = Some (n + m, st')%nat /\ (left st' + m <= left st)%nat /\
    (da_wc st = c -> 0 < m)%nat /\ (m = 0%nat -> st' = st).
Proof.
  intros Hc. revert st n. induction f as [|f IH]; intros st n Hf; [lia|]. cbn [Count].
  destruct (da_wc st =? c) eqn:E; bool_prop.
  - pose proof (decode_left st ltac:(lia)).
    destruct (IH (DecodeDosArgv st) (n + 1)%nat ltac:(lia)) as (m & st' & -> & Hm & _).
    exists (S m), st'. split; [do 2 f_equal; lia|]. repeat split; [lia|lia|done].
  - exists 0%nat, st. rewrite Nat.add_0_r. repeat split; [lia|done].
Qed.

Lemma word_total size f inq st :
  (left st + 1 < f)%nat ->
  exists st', dosargv_word f size inq st = Some st' /\ (left st' <= left st)%nat /\
    (inq = false -> da_wc st <> 0 -> da_wc st <> SP -> da_wc st <> HT -> (left st' < left st)%nat).
Proof.
  revert inq st. induction f as [|f IH]; intros inq st Hf; [lia|]. cbn [dosargv_word].
  destruct (da_wc st =? 0) eqn:E0; bool_prop; [exists st; repeat split; lia|].
  destruct (negb inq && _) eqn:E1; [exists st; repeat split; [lia|]; intros -> ; lia|].
  assert (forall inq' st', (left st' < left st)%nat ->
    exists st'', dosargv_word f size inq' st' = Some st'' /\ (left st'' <= left st)%nat /\
      (inq = false -> da_wc st <> 0 -> da_wc st <> SP -> da_wc st <> HT -> (left st'' < left st)%nat)) as Hgo.
  { intros inq' st' Hl. destruct (IH inq' st' ltac:(lia)) as (st'' & -> & Hs & _).
    exists st''. split; [done|]. split; intros; lia. }
  destruct ((da_wc st =? DQUOTE) || (da_wc st =? BSLASH)) eqn:E2.
  - destruct (Count_total BSLASH f st 0 ltac:(lia) ltac:(lia)) as (s & st1 & -> & H1 & H1p & H1z).
    destruct (Count_total DQUOTE f st1 0 ltac:(lia) ltac:(lia)) as (q & st2 & -> & H2 & H2p & _).
    assert (left st2 < left st)%nat as Hlt.
    { destruct (decide (da_wc st = BSLASH)) as [Hb|Hb]; [specialize (H1p Hb); lia|].
      destruct (decide (s = 0%nat)) as [Hs|Hs]; [|lia]. rewrite (H1z Hs) in H2, H2p.
      apply orb_true_iff in E2 as [E2|E2]; bool_prop; [specialize (H2p E2); lia|done]. }
    cbn [Nat.add]. repeat case_if; apply Hgo; rewrite ?append_times_left, ?append_left, ?append_times_left;
      lia.
  - apply Hgo, (decode_left (AppendDosArgv size (da_wc st) st)). done.
Qed.

Lemma skip_total f st :
  (left st < f)%nat ->
  exists st', skip_blanks f st = Some st' /\ (left st' <= left st)%nat /\
    da_wc st' <> SP /\ da_wc st' <> HT.
Proof.
  revert st. induction f as [|f IH]; intros st Hf; [lia|]. cbn [skip_blanks].
  destruct (_ || _) eqn:E.
  - pose proof (decode_left st ltac:(lia)).
    destruct (IH (DecodeDosArgv st) ltac:(lia)) as (st' & -> & ? & ?). exists st'. repeat split; try lia; tauto.
  - exists st. repeat split; lia.
Qed.

Lemma loop_total size max f argc argv st :
  (left st + 2 < f)%nat -> exists r, dosargv_loop f size max argc argv st = Some r.
Proof.
  revert argc argv st. induction f as [|f IH]; intros argc argv st Hf; [lia|]. cbn [dosargv_loop].
  destruct (da_wc st =? 0) eqn:E0; [by eauto|]. bool_prop.
  destruct (skip_total f st ltac:(lia)) as (st1 & -> & Hl & Hsp & Hht).
  destruct (da_wc st1 =? 0) eqn:E1; [by eauto|]. bool_prop.
  destruct (word_total size f false st1 ltac:(lia)) as (st2 & -> & _ & Hl2).
  specialize (Hl2 eq_refl E1 Hsp Hht). apply IH. rewrite append_left. lia.
Qed.

(** ** More fuel does not change a result *)

Lemma Count_mono f f' c st n r : (f <= f')%nat -> Count f c st n = Some r -> Count f' c st n = Some r.
Proof.
  revert f' st n. induction f as [|f IH]; intros [|f'] st n Hf; try done; [lia|]. cbn [Count].
  case_if; [|done]. apply IH. lia.
Qed.

Lemma word_mono size f f' inq st r :
  (f <= f')%nat -> dosargv_word f size inq st = Some r -> dosargv_word f' size inq st = Some r.
Proof.
  revert f' inq st. induction f as [|f IH]; intros [|f'] inq st Hf; try done; [lia|]. cbn [dosargv_word].
  case_if; [done|]. case_if; [done|]. case_if; [|apply IH; lia].
  destruct (Count f BSLASH st 0) as [[s st1]|] eqn:E1'; [|done].
  rewrite (Count_mono f f' _ _ _ _ ltac:(lia) E1').
  destruct (Count f DQUOTE st1 0) as [[q st2]|] eqn:E2'; [|done].
  rewrite (Count_mono f f' _ _ _ _ ltac:(lia) E2').
  repeat case_if; apply IH; lia.
Qed.

Lemma skip_mono f f' st r : (f <= f')%nat -> skip_blanks f st = Some r -> skip_blanks f' st = Some r.
Proof.
  revert f' st. induction f as [|f IH]; intros [|f'] st Hf; try done; [lia|]. cbn [skip_blanks].
  case_if; [|done]. apply IH. lia.
Qed.

Lemma loop_mono size max f f' argc argv st r :
  (f <= f')%nat -> dosargv_loop f size max argc argv st = Some r ->
  dosargv_loop f' size max argc argv st = Some r.
Proof.
  revert f' argc argv st. induction f as [|f IH]; intros [|f'] argc argv st Hf; try done; [lia|].
  cbn [dosargv_loop]. case_if; [done|].
  destruct (skip_blanks f st) as [st1|] eqn:Es; [|done]. rewrite (skip_mono f f' _ _ ltac:(lia) Es).
  case_if; [done|].
  destruct (dosargv_word f size false st1) as [st2|] eqn:Ew; [|done].
  rewrite (word_mono size f f' _ _ _ ltac:(lia) Ew). apply IH. lia.
Qed.

(** * Code points *)

(** Decoder state before the code points [L] with [p] stored. *)
Definition stream (p L : list Z) : DosArgv :=
  {| da_s := utf16s (tail L); da_p := p; da_wc := hd 0 L |}.

Lemma decode_utf16 p s wc c :
  scalar c ->
  DecodeDosArgv {| da_s := utf16 c ++ s; da_p := p; da_wc := wc |} =
    {| da_s := s; da_p := p; da_wc := c |}.
Proof.
  intros Hc. unfold scalar in Hc. unfold DecodeDosArgv, utf16. cbn [da_s da_p].
  destruct (c <? 0x10000) eqn:E; bool_prop; cbn [app].
  - rewrite if_false by lia. rewrite IsUcs2_spec by lia. by rewrite if_false by lia.
  - rewrite if_false by lia. rewrite IsUcs2_spec by lia. rewrite if_true by lia.
    rewrite MergeUtf16_spec, u32_small by lia. by rewrite if_false by lia.
Qed.

Lemma decode_stream p c L : Forall scalar L -> DecodeDosArgv (stream p (c :: L)) = stream p L.
Proof. intros H. destruct H as [|d L Hd _]; [done|]. apply decode_utf16, Hd. Qed.

Lemma append_loop_bytes size p b w n :
  0 <= b < 256 -> 0 < w -> (length p < size)%nat ->
  AppendDosArgv_loop (S n) size p (b + 256 * w) = AppendDosArgv_loop n size (p ++ [b]) w.
Proof.
  intros Hb Hw Hp. cbn [AppendDosArgv_loop]. rewrite if_false by (apply Nat.leb_gt; lia).
  change 0xff with (2 ^ 8 - 1). rewrite land_mask, shiftr_div by lia. rewrite if_false by lia.
  f_equal; [do 2 f_equal|]; lia.
Qed.

Lemma append_loop_last size p b n :
  0 <= b < 256 -> (length p < size)%nat -> AppendDosArgv_loop (S n) size p b = p ++ [b].
Proof.
  intros Hb Hp. cbn [AppendDosArgv_loop]. rewrite if_false by (apply Nat.leb_gt; lia).
  change 0xff with (2 ^ 8 - 1). rewrite land_mask, shiftr_div by lia. rewrite if_true by lia.
  do 2 f_equal. lia.
Qed.

Lemma append_stream size p L c :
  0 <= c < 2 ^ 21 -> (length (p ++ utf8 c) <= size)%nat ->
  AppendDosArgv size c (stream p L) = stream (p ++ utf8 c) L.
Proof.
  intros Hc. unfold AppendDosArgv, stream. cbn [da_s da_p da_wc]. rewrite length_app.
  unfold utf8. intros Hs. f_equal. revert Hs. case_ifs; cbn [length]; intros Hs.
  - rewrite tpenc_1byte by lia. apply append_loop_last; lia.
  - rewrite tpenc_2byte by lia.
    rewrite append_loop_bytes, append_loop_last by (rewrite ?length_app; cbn [length]; lia).
    by rewrite <- app_assoc.
  - rewrite tpenc_3byte by lia.
    rewrite !append_loop_bytes, append_loop_last by (rewrite ?length_app; cbn [length]; lia).
    by rewrite <- !app_assoc.
  - rewrite tpenc_4byte by lia.
    rewrite !append_loop_bytes, append_loop_last by (rewrite ?length_app; cbn [length]; lia).
    by rewrite <- !app_assoc.
Qed.

Lemma append_times_stream size p L c n :
  0 <= c < 128 -> (length p + n <= size)%nat ->
  AppendDosArgv_times size n c (stream p L) = stream (p ++ replicate n c) L.
Proof.
  intros Hc. revert p. induction n as [|n IH]; intros p Hs; [by rewrite app_nil_r|].
  change (AppendDosArgv_times size (S n) c (stream p L)) with
    (AppendDosArgv size c (AppendDosArgv_times size n c (stream p L))). rewrite IH by lia.
  assert (utf8 c = [c]) as E by (unfold utf8; by rewrite if_true by lia).
  rewrite append_stream by (rewrite ?E, ?length_app, ?length_replicate; cbn [length]; lia).
  rewrite E, <- app_assoc, <- replicate_cons_app. done.
Qed.

Lemma Count_stream f c m p L n :
  scalar c -> Forall scalar L -> hd 0 L <> c -> (m < f)%nat ->
  Count f c (stream p (replicate m c ++ L)) n = Some (n + m, stream p L)%nat.
Proof.
  intros Hc HL Hh. revert f n. induction m as [|m IH]; intros [|f] n Hf; try lia; cbn [Count].
  - cbn [replicate app]. cbn [stream da_wc]. rewrite if_false by lia. by rewrite Nat.add_0_r.
  - cbn [replicate app]. rewrite if_true by (cbn; lia). rewrite decode_stream.
    + rewrite IH by lia. do 2 f_equal. lia.
    + apply Forall_app. split; [by apply Forall_replicate|done].
Qed.

(** ** The quoted text of an argument, as code points *)

(** What [quote_loop] emits with [n] backslashes pending. *)
Fixpoint emit (cs : list Z) (n : nat) : list Z :=
  match cs with
  | [] => []
  | c :: cs =>
      if c =? BSLASH then emit cs (n + 1)
      else if c =? DQUOTE then [DQUOTE; DQUOTE; DQUOTE] ++ emit cs n
      else replicate n BSLASH ++ [c] ++ emit cs 0
  end.
(** The backslashes still pending at the end. *)
Fixpoint trail (cs : list Z) (n : nat) : nat :=
  match cs with
  | [] => n
  | c :: cs => if c =? BSLASH then trail cs (n + 1) else if c =? DQUOTE then trail cs n else trail cs 0
  end.

Definition quoted (cs : list Z) : list Z :=
  if NeedsQuotes (utf8s cs)
  then [DQUOTE] ++ emit cs 0 ++ replicate (2 * trail cs 0) BSLASH ++ [DQUOTE]
  else emit cs 0 ++ replicate (trail cs 0) BSLASH.

Fixpoint cmd_text (i : nat) (args : list (list Z)) : list Z :=
  match args with
  | [] => []
  | cs :: args => (if (i =? 0)%nat then [] else [SP]) ++ quoted cs ++ cmd_text (S i) args
  end.

(** No backslash comes directly before a double quote, given [n] pending. *)
Fixpoint no_escaped_quote (cs : list Z) (n : nat) : bool :=
  match cs with
  | [] => true
  | c :: cs =>
      if c =? BSLASH then no_escaped_quote cs (n + 1)
      else if c =? DQUOTE then (n =? 0)%nat && no_escaped_quote cs 0
      else no_escaped_quote cs 0
  end.

Lemma scalar_ascii c : 0 < c < 128 -> scalar c.
Proof. unfold scalar. lia. Qed.

Lemma emit_scalar cs n : Forall scalar cs -> Forall scalar (emit cs n).
Proof.
  intros H. revert n. induction H as [|c cs Hc _ IH]; intros n; [constructor|]. cbn [emit].
  case_if; [apply IH|]. case_if.
  - repeat (constructor; [apply scalar_ascii; lia|]). apply IH.
  - apply Forall_app. split; [apply Forall_replicate, scalar_ascii; lia|]. by constructor.
Qed.

Lemma quoted_scalar cs : Forall scalar cs -> Forall scalar (quoted cs).
Proof.
  intros H. unfold quoted. case_if; rewrite ?Forall_app, ?Forall_singleton; repeat split;
    auto using emit_scalar; try (apply Forall_replicate); apply scalar_ascii; lia.
Qed.

Lemma cmd_text_scalar i args : Forall (Forall scalar) args -> Forall scalar (cmd_text i args).
Proof.
  intros H. revert i. induction H as [|cs args Hc _ IH]; intros i; [constructor|]. cbn [cmd_text].
  rewrite !Forall_app. repeat split; auto using quoted_scalar.
  case_if; [constructor|]. constructor; [apply scalar_ascii; lia|constructor].
Qed.

(** ** Words of the tokenizer *)

Section Words.
Context (size : nat).

(** The tokenizer reads one word of [st] and stops in [r]. *)
Definition word (inq : bool) (st r : DosArgv) : Prop :=
  exists f, dosargv_word f size inq st = Some r.

Lemma word_char inq p c L r :
  Forall scalar L -> scalar c -> c <> DQUOTE -> c <> BSLASH -> (inq = true \/ c <> SP /\ c <> HT) ->
  (length (p ++ utf8 c) <= size)%nat ->
  word inq (stream (p ++ utf8 c) L) r -> word inq (stream p (c :: L)) r.
Proof.
  intros HL Hc Hd Hb Hi Hs [f Hf]. exists (S f). cbn [dosargv_word]. cbn [stream da_wc hd].
  unfold scalar in Hc. rewrite if_false by lia. rewrite if_false by (destruct inq; lia).
  rewrite if_false by lia. fold (stream p (c :: L)).
  rewrite append_stream, decode_stream by (done || lia). done.
Qed.

(** Backslashes with no quote after them stand for themselves. *)
Lemma word_slashes inq n p L r :
  Forall scalar L -> hd 0 L <> BSLASH -> hd 0 L <> DQUOTE -> (length p + n <= size)%nat ->
  word inq (stream (p ++ replicate n BSLASH) L) r -> word inq (stream p (replicate n BSLASH ++ L)) r.
Proof.
  intros HL Hb Hd Hs [f Hf]. destruct n as [|n].
  { exists f. cbn [replicate app] in *. by rewrite app_nil_r in Hf. }
  exists (S (f + S (S n))). cbn [dosargv_word].
  change (da_wc (stream p (replicate (S n) BSLASH ++ L))) with BSLASH.
  rewrite (if_false (BSLASH =? 0)) by lia. rewrite if_false by (destruct inq; reflexivity).
  rewrite (if_true (_ || _)) by lia.
  rewrite Count_stream by (done || lia || (apply scalar_ascii; lia)).
  rewrite (Count_stream _ DQUOTE 0 p L) by (done || lia || (apply scalar_ascii; lia)).
  cbn [Nat.add Nat.eqb]. rewrite append_times_stream by lia.
  apply (word_mono _ f); [lia|done].
Qed.

(** A run of [2 n] backslashes and [q] quotes, inside quotes. *)
Lemma word_quotes n q p L r :
  Forall scalar L -> hd 0 L <> DQUOTE -> (0 < q)%nat ->
  (length p + n + (q + 1) / 3 <= size)%nat ->
  word (q mod 3 =? 0)%nat (stream (p ++ replicate n BSLASH ++ replicate ((q + 1) / 3) DQUOTE) L) r ->
  word true (stream p (replicate (2 * n) BSLASH ++ replicate q DQUOTE ++ L)) r.
Proof.
  intros HL Hd Hq Hs [f Hf]. exists (S (f + S (2 * n) + S q)). cbn [dosargv_word].
  set (st := stream p _).
  assert (da_wc st = BSLASH \/ da_wc st = DQUOTE) as Hw.
  { subst st. destruct n as [|n]; [right; destruct q; [lia|done]|left].
    by replace (2 * S n)%nat with (S (2 * n + 1)) by lia. }
  rewrite (if_false (da_wc st =? 0)) by lia. rewrite (if_false (negb true && _)) by done.
  rewrite (if_true (_ || _)) by lia. subst st.
  rewrite Count_stream; [|apply scalar_ascii; lia| |destruct q; [lia|done]|lia].
  2: { apply Forall_app. split; [apply Forall_replicate, scalar_ascii; lia|done]. }
  rewrite Count_stream by (done || lia || (apply scalar_ascii; lia)).
  cbn [Nat.add]. rewrite (if_false (q =? 0)%nat) by (apply Nat.eqb_neq; lia).
  replace ((2 * n) / 2)%nat with n by (rewrite Nat.mul_comm; symmetry; apply Nat.div_mul; lia).
  rewrite (if_true ((2 * n) mod 2 =? 0)%nat) by (rewrite Nat.mul_comm, Nat.Div0.mod_mul; done).
  rewrite (if_true (0 <? q)%nat) by (apply Nat.ltb_lt; lia).
  rewrite !append_times_stream by (rewrite ?length_app, ?length_replicate; lia).
  rewrite <- app_assoc. apply (word_mono _ f); [lia|done].
Qed.

(** An opening quote only enters quoted mode. *)
Lemma word_open q p L r :
  Forall scalar L -> hd 0 L <> DQUOTE ->
  word true (stream p (replicate q DQUOTE ++ L)) r ->
  word false (stream p (DQUOTE :: replicate q DQUOTE ++ L)) r.
Proof.
  intros HL Hd [f Hf].
  assert (forall g m, Count (S g) BSLASH (stream p (replicate (S m) DQUOTE ++ L)) 0
    = Some (0%nat, stream p (replicate (S m) DQUOTE ++ L))) as Hb by done.
  assert (forall g m, (m < g)%nat -> Count g DQUOTE (stream p (replicate m DQUOTE ++ L)) 0
    = Some (m, stream p L)) as Hc.
  { intros g m Hg. by rewrite Count_stream by (done || lia || (apply scalar_ascii; lia)). }
  exists (S (f + S (S q))). cbn [dosargv_word].
  change (DQUOTE :: replicate q DQUOTE ++ L) with (replicate (S q) DQUOTE ++ L).
  rewrite (if_false (da_wc _ =? 0)) by done. rewrite (if_false (negb false && _)) by done.
  rewrite (if_true ((da_wc _ =? DQUOTE) || _)) by done.
  replace (f + S (S q))%nat with (S (f + S q)) by lia. rewrite Hb.
  rewrite Hc by lia. cbn [Nat.eqb]. change (0 / 2)%nat with 0%nat. change (0 mod 2)%nat with 0%nat.
  cbn [Nat.eqb]. rewrite (if_true (0 <? S q)%nat) by done.
  replace (S q - 1)%nat with q by lia. cbn [AppendDosArgv_times Nat.iter].
  destruct q as [|q].
  - change (0 mod 3 =? 0)%nat with true. apply (word_mono _ f); [lia|exact Hf].
  - destruct f as [|f]; [done|]. cbn [dosargv_word] in Hf.
    rewrite (if_false (da_wc _ =? 0)) in Hf by done. rewrite (if_false (negb true && _)) in Hf by done.
    rewrite (if_true ((da_wc _ =? DQUOTE) || _)) in Hf by done.
    destruct f as [|f]; [done|]. rewrite Hb in Hf.
    destruct (Count (S f) DQUOTE _ 0) as [[m st']|] eqn:Ec; [|done].
    pose proof (Count_mono (S f) (S f + S (S q)) _ _ _ _ ltac:(lia) Ec) as Ec'.
    rewrite Hc in Ec' by lia. injection Ec' as <- <-.
    change (0 / 2)%nat with 0%nat in Hf. change (0 mod 2)%nat with 0%nat in Hf. cbn [Nat.eqb] in Hf.
    rewrite (if_true (0 <? S q)%nat) in Hf by done. cbn [AppendDosArgv_times Nat.iter] in Hf.
    eapply word_mono; [|exact Hf]. lia.
Qed.
End Words.

(** ** Quoted and bare arguments are read back *)

Lemma emit_quotes a cs n : emit (replicate a DQUOTE ++ cs) n = replicate (3 * a) DQUOTE ++ emit cs n.
Proof.
  induction a as [|a IH]; [done|]. cbn [replicate app emit]. change (DQUOTE =? BSLASH) with false.
  change (DQUOTE =? DQUOTE) with true. cbv iota. rewrite IH.
  by replace (3 * S a)%nat with (S (S (S (3 * a)))) by lia.
Qed.
Lemma trail_quotes a cs n : trail (replicate a DQUOTE ++ cs) n = trail cs n.
Proof. induction a as [|a IH]; [done|exact IH]. Qed.
Lemma no_escaped_quotes a cs :
  no_escaped_quote (replicate a DQUOTE ++ cs) 0 = no_escaped_quote cs 0.
Proof. induction a as [|a IH]; [done|exact IH]. Qed.

(** The leading quotes of a list. *)
Lemma quotes_split cs : exists a cs', cs = replicate a DQUOTE ++ cs' /\ hd 0 cs' <> DQUOTE.
Proof.
  induction cs as [|c cs (a & cs' & -> & Hh)]; [by exists 0%nat, []|].
  destruct (decide (c = DQUOTE)) as [->|Hc]; [by exists (S a), cs'|].
  by exists 0%nat, (c :: replicate a DQUOTE ++ cs').
Qed.

(** The emitted text does not start with a quote unless the argument does. *)
Lemma emit_head cs n X :
  no_escaped_quote cs n = true -> hd 0 cs <> DQUOTE -> (cs <> [] \/ (0 < n)%nat) ->
  hd 0 (emit cs n ++ replicate (2 * trail cs n) BSLASH ++ X) <> DQUOTE.
Proof.
  revert n. induction cs as [|c cs IH]; intros n Hn Hh Hne; cbn [emit trail no_escaped_quote] in *.
  - destruct n as [|n]; [destruct Hne; [done|lia]|]. by replace (2 * S n)%nat with (S (2 * n + 1)) by lia.
  - cbn [hd] in Hh. destruct (c =? BSLASH) eqn:E.
    + destruct cs as [|d cs]; [apply IH; auto with lia|].
      apply IH; [done| |by left]. cbn [hd no_escaped_quote] in *. intros ->.
      change (DQUOTE =? BSLASH) with false in Hn. cbn in Hn.
      destruct (n + 1 =? 0)%nat eqn:En; [apply Nat.eqb_eq in En; lia|done].
    + rewrite (if_false (c =? DQUOTE)) by lia. destruct n; cbn; lia.
Qed.

Lemma closing_scalar cs n m L :
  Forall scalar cs -> Forall scalar L ->
  Forall scalar (emit cs n ++ replicate m BSLASH ++ [DQUOTE] ++ L).
Proof.
  intros Hc HL. rewrite !Forall_app, Forall_singleton. repeat split; auto using emit_scalar.
  all: try apply Forall_replicate; apply scalar_ascii; lia.
Qed.

(** A quoted argument, by recursion on the length of the text. *)
Lemma word_quoted size len cs n p L r :
  (length cs <= len)%nat -> Forall scalar cs ->
  no_escaped_quote cs n = true -> Forall scalar L -> hd 0 L <> DQUOTE ->
  (length (p ++ replicate n BSLASH ++ utf8s cs) <= size)%nat ->
  word size false (stream (p ++ replicate n BSLASH ++ utf8s cs) L) r ->
  word size true (stream p (emit cs n ++ replicate (2 * trail cs n) BSLASH ++ [DQUOTE] ++ L)) r.
Proof.
  revert cs n p. induction len as [|len IH]; intros cs n p Hlen Hc Hn HL Hh Hs Hw.
  all: destruct cs as [|c cs]; [|try (cbn in Hlen; lia)].
  1, 2: cbn [emit trail app utf8s flat_map] in *; rewrite app_nil_r in *;
    rewrite length_app, length_replicate in Hs;
    (change (DQUOTE :: L) with (replicate 1 DQUOTE ++ L));
    apply word_quotes; [done|done|lia|cbn; lia|];
    change ((1 + 1) / 3)%nat with 0%nat; change (1 mod 3 =? 0)%nat with false;
    cbn [replicate]; by rewrite app_nil_r.
  inversion Hc as [|? ? Hc1 Hc2]; subst. cbn [length] in Hlen.
  assert (Forall scalar (emit cs 0 ++ replicate (2 * trail cs 0) BSLASH ++ [DQUOTE] ++ L)) as HX.
  { by apply closing_scalar. }
  cbn [no_escaped_quote] in Hn.
  destruct (c =? BSLASH) eqn:E1; [|destruct (c =? DQUOTE) eqn:E2]; bool_prop; subst.
  - cbn [emit trail]. change (BSLASH =? BSLASH) with true. cbv iota.
    apply IH; [lia|done|done|done|done| |].
    all: replace (replicate (n + 1) BSLASH ++ utf8s cs) with
      (replicate n BSLASH ++ utf8s (BSLASH :: cs)) by
      (rewrite Nat.add_1_r, replicate_S_end, <- app_assoc; done). all: done.
  - apply Nat.eqb_eq in H as ->.
    destruct (quotes_split cs) as (a & cs' & -> & Hh').
    change (DQUOTE :: replicate a DQUOTE ++ cs') with (replicate (S a) DQUOTE ++ cs') in *.
    rewrite emit_quotes, trail_quotes. rewrite no_escaped_quotes in H0.
    assert (Forall scalar cs') as Hc' by (apply Forall_app in Hc2; tauto).
    assert (forall b, utf8s (replicate b DQUOTE ++ cs') = replicate b DQUOTE ++ utf8s cs') as Eu.
    { induction b as [|b IHb]; [done|]. exact (f_equal (cons DQUOTE) IHb). }
    rewrite Eu in *. cbn [replicate] in Hs, Hw. cbn [app] in Hs, Hw.
    change (DQUOTE :: replicate a DQUOTE ++ utf8s cs') with (replicate (S a) DQUOTE ++ utf8s cs') in *.
    rewrite !length_app, length_replicate in Hs.
    destruct cs' as [|d cs'].
    + replace ((replicate (3 * S a) DQUOTE ++ emit [] 0) ++ replicate (2 * trail [] 0) BSLASH ++ [DQUOTE] ++ L)
        with (replicate (2 * 0) BSLASH ++ replicate (3 * S a + 1) DQUOTE ++ L)
        by (rewrite replicate_add, <- !app_assoc; done).
      apply (word_quotes size 0 (3 * S a + 1)); [done|done|lia| |].
      * replace ((3 * S a + 1 + 1) / 3)%nat with (S a)
          by (apply (Nat.div_unique _ _ _ 2); lia). cbn. lia.
      * replace ((3 * S a + 1 + 1) / 3)%nat with (S a)
          by (apply (Nat.div_unique _ _ _ 2); lia).
        replace ((3 * S a + 1) mod 3)%nat with 1%nat
          by (apply (Nat.mod_unique _ _ (S a)); lia). rewrite app_nil_r in Hw. exact Hw.
    + rewrite <- app_assoc.
      assert ((3 * S a + 1) / 3 = S a)%nat as Ed by (symmetry; apply (Nat.div_unique _ _ _ 1); lia).
      assert ((3 * S a) mod 3 = 0)%nat as Em by (symmetry; apply (Nat.mod_unique _ _ (S a)); lia).
      apply (word_quotes size 0 (3 * S a)).
      * by apply closing_scalar.
      * apply emit_head; [done|done|by left].
      * lia.
      * rewrite Ed. lia.
      * rewrite Ed, Em. cbn [Nat.eqb replicate]. cbn [app]. apply IH; auto.
        -- rewrite length_app in Hlen. cbn in *. lia.
        -- rewrite !length_app. cbn [length replicate]. rewrite length_replicate. lia.
        -- cbn [replicate app]. rewrite <- app_assoc. exact Hw.
  - cbn [emit trail]. rewrite (proj2 (Z.eqb_neq c BSLASH) E1), (proj2 (Z.eqb_neq c DQUOTE) E2).
    rewrite <- !app_assoc. cbn [utf8s flat_map] in Hs, Hw. fold (utf8s cs) in Hs, Hw.
    rewrite !length_app, length_replicate in Hs.
    apply word_slashes; [constructor; [done|exact HX]|cbn; lia|cbn; lia|lia|].
    apply word_char; auto; [rewrite !length_app, length_replicate; lia|].
    apply IH; auto; [lia| |].
    + rewrite !length_app, length_replicate. cbn [length replicate]. cbn [app]. lia.
    + cbn [replicate app]. rewrite <- !app_assoc. exact Hw.
Qed.

(** A bare argument ends at a blank or at the end of the line. *)
Lemma word_bare size cs n p L :
  Forall scalar cs -> NeedsQuotes_loop cs = false -> Forall scalar L -> (hd 0 L = 0 \/ hd 0 L = SP) ->
  (length (p ++ replicate n BSLASH ++ utf8s cs) <= size)%nat ->
  word size false (stream p (emit cs n ++ replicate (trail cs n) BSLASH ++ L))
    (stream (p ++ replicate n BSLASH ++ utf8s cs) L).
Proof.
  intros Hc Hq HL Hh. revert n p. induction Hc as [|c cs Hc1 Hc2 IH]; intros n p Hs.
  - cbn [emit trail app utf8s flat_map] in *. rewrite app_nil_r in *.
    rewrite length_app, length_replicate in Hs.
    apply word_slashes; [done|lia|lia|lia|]. exists 1%nat. cbn [dosargv_word stream da_wc hd].
    destruct Hh as [-> | ->]; done.
  - cbn [NeedsQuotes_loop] in Hq.
    destruct ((c =? DQUOTE) || (c =? SP) || (c =? HT) || (c =? VT) || (c =? LF)) eqn:E; [done|]. bool_prop.
    cbn [emit trail]. destruct (c =? BSLASH) eqn:E1; bool_prop; subst.
    + replace (replicate n BSLASH ++ utf8s (BSLASH :: cs)) with (replicate (n + 1) BSLASH ++ utf8s cs)
        in * by (rewrite Nat.add_1_r, replicate_S_end, <- app_assoc; done).
      by apply IH.
    + rewrite (proj2 (Z.eqb_neq c DQUOTE)) by done. rewrite <- !app_assoc.
      cbn [utf8s flat_map] in Hs |- *. fold (utf8s cs) in Hs |- *. rewrite !length_app, length_replicate in Hs.
      assert (Forall scalar (emit cs 0 ++ replicate (trail cs 0) BSLASH ++ L)) as HX.
      { rewrite !Forall_app. repeat split; auto using emit_scalar.
        apply Forall_replicate, scalar_ascii; lia. }
      apply word_slashes; [by constructor|cbn; lia|cbn; lia|lia|].
      apply word_char; auto; [rewrite !length_app, length_replicate; lia|].
      replace (p ++ replicate n BSLASH ++ utf8 c ++ utf8s cs) with
        (((p ++ replicate n BSLASH) ++ utf8 c) ++ replicate 0 BSLASH ++ utf8s cs)
        by (cbn [replicate app]; by rewrite <- !app_assoc).
      apply IH; [done|]. rewrite !length_app, length_replicate. cbn [length replicate]. lia.
Qed.

(** ** Which arguments are quoted *)

Definition needs_quote (c : Z) : bool :=
  (c =? DQUOTE) || (c =? SP) || (c =? HT) || (c =? VT) || (c =? LF).

Lemma needs_loop_existsb s : NeedsQuotes_loop s = existsb needs_quote s.
Proof. induction s as [|c s IH]; [done|]. cbn. fold (needs_quote c). by destruct (needs_quote c). Qed.

Lemma needs_utf8 c : scalar c -> existsb needs_quote (utf8 c) = needs_quote c.
Proof. intros [?|?]; unfold utf8, needs_quote; case_ifs; cbn; lia. Qed.

Lemma needs_utf8s cs : Forall scalar cs -> NeedsQuotes_loop (utf8s cs) = NeedsQuotes_loop cs.
Proof.
  rewrite !needs_loop_existsb. induction 1 as [|c cs Hc _ IH]; [done|].
  cbn [utf8s flat_map existsb]. fold (utf8s cs). by rewrite existsb_app, needs_utf8, IH.
Qed.

Lemma utf8_hd c s : scalar c -> at_ (utf8 c ++ s) 0 <> 0.
Proof. intros [?|?]; unfold utf8; case_ifs; cbn; lia. Qed.

Lemma NeedsQuotes_spec cs :
  Forall scalar cs -> NeedsQuotes (utf8s cs) = match cs with [] => true | _ => NeedsQuotes_loop cs end.
Proof.
  intros H. unfold NeedsQuotes. rewrite needs_utf8s by done.
  destruct H as [|c cs Hc _]; [done|]. rewrite if_false; [done|].
  apply Z.eqb_neq. by apply utf8_hd.
Qed.

Lemma word_stop size p L : hd 0 L = 0 \/ hd 0 L = SP -> word size false (stream p L) (stream p L).
Proof. intros Hh. exists 1%nat. cbn [dosargv_word stream da_wc]. by destruct Hh as [-> | ->]. Qed.

Lemma word_argument size cs p L :
  Forall scalar cs -> no_escaped_quote cs 0 = true -> Forall scalar L -> (hd 0 L = 0 \/ hd 0 L = SP) ->
  (length (p ++ utf8s cs) <= size)%nat ->
  word size false (stream p (quoted cs ++ L)) (stream (p ++ utf8s cs) L).
Proof.
  intros Hc Hn HL Hh Hs. unfold quoted. rewrite NeedsQuotes_spec by done.
  destruct (match cs with [] => true | _ => _ end) eqn:E.
  - rewrite <- !app_assoc. cbn [app].
    set (X := emit cs 0 ++ _).
    destruct (quotes_split X) as (q & Y & EX & HY). rewrite EX.
    assert (Forall scalar X) as HX by (by apply closing_scalar).
    apply word_open; [rewrite EX in HX; by apply Forall_app in HX as [_ HX]|done|]. rewrite <- EX. subst X.
    apply (word_quoted size (length cs)); auto; [lia|]. cbn [replicate app]. by apply word_stop.
  - rewrite <- app_assoc. destruct cs as [|c cs]; [done|].
    apply (word_bare size (c :: cs) 0); auto.
Qed.

Lemma bare_head cs n X :
  Forall scalar cs -> NeedsQuotes_loop cs = false -> (cs <> [] \/ (0 < n)%nat) ->
  let h := hd 0 (emit cs n ++ replicate (trail cs n) BSLASH ++ X) in h <> 0 /\ h <> SP /\ h <> HT.
Proof.
  intros Hc. revert n. induction Hc as [|c cs Hc1 _ IH]; intros n Hq Hne.
  - destruct n; [destruct Hne; [done|lia]|]. cbn. lia.
  - cbn [NeedsQuotes_loop] in Hq. destruct ((c =? DQUOTE) || _ || _ || _ || _) eqn:E; [done|]. bool_prop.
    cbn [emit trail]. destruct (c =? BSLASH) eqn:E1; [apply IH; [done|right; lia]|].
    rewrite (proj2 (Z.eqb_neq c DQUOTE)) by done. destruct n; cbn; [|lia].
    unfold scalar in Hc1. lia.
Qed.

Lemma quoted_head cs X :
  Forall scalar cs -> let h := hd 0 (quoted cs ++ X) in h <> 0 /\ h <> SP /\ h <> HT.
Proof.
  intros Hc. unfold quoted. rewrite NeedsQuotes_spec by done.
  destruct (match cs with [] => true | _ => _ end) eqn:E; [cbn; lia|].
  rewrite <- app_assoc. destruct cs as [|c cs]; [done|]. apply bare_head; auto.
Qed.

(** ** The argument loop *)

(** The NUL-separated strings as stored in the buffer, and where each starts. *)
Definition packed (args : list (list Z)) : list Z := flat_map (fun cs => utf8s cs ++ [0]) args.
Fixpoint offsets (base : nat) (args : list (list Z)) : list nat :=
  match args with
  | [] => []
  | cs :: args => base :: offsets (base + length (utf8s cs) + 1) args
  end.

Definition arg_ok (cs : list Z) : Prop := Forall scalar cs /\ no_escaped_quote cs 0 = true.

Lemma cmd_text_head i args : hd 0 (cmd_text (S i) args) = 0 \/ hd 0 (cmd_text (S i) args) = SP.
Proof. destruct args; [by left|by right]. Qed.

Lemma loop_text size max args i p argc argv :
  Forall arg_ok args -> (argc + length args < max)%nat -> (length (p ++ packed args) <= size)%nat ->
  exists f, dosargv_loop f size max argc argv (stream p (cmd_text i args)) =
    Some ((argc + length args)%nat, argv ++ map Some (offsets (length p) args), stream (p ++ packed args) []).
Proof.
  intros Ha. revert i p argc argv. induction Ha as [|cs args [Hc Hn] Ha IH]; intros i p argc argv Hm Hs.
  { exists 1%nat. cbn. by rewrite !app_nil_r, Nat.add_0_r. }
  cbn [packed flat_map] in Hs. fold (packed args) in Hs. rewrite !length_app in Hs. cbn [length] in Hs, Hm.
  set (L := cmd_text (S i) args).
  assert (Forall scalar L) as HL.
  { apply cmd_text_scalar. revert Ha. apply List.Forall_impl. by intros ? []. }
  destruct (word_argument size cs p L Hc Hn HL (cmd_text_head i args)) as [f1 Hf1].
  { rewrite length_app. lia. }
  destruct (IH (S i) (p ++ utf8s cs ++ [0]) (argc + 1)%nat (argv ++ [Some (length p)])) as [f2 Hf2].
  { lia. }
  { rewrite !length_app. cbn [length]. lia. }
  remember (S (S (f1 + f2))) as g eqn:Eg. exists (S g). cbn [cmd_text]. fold L.
  destruct (quoted_head cs L Hc) as (H0 & H1 & H2).
  assert (skip_blanks g (stream p ((if (i =? 0)%nat then [] else [SP]) ++ quoted cs ++ L)) =
    Some (stream p (quoted cs ++ L))) as Hskip.
  { rewrite Eg. destruct (i =? 0)%nat; cbn [app]; cbn [skip_blanks].
    - rewrite if_false; [done|]. cbn. lia.
    - rewrite if_true by done. rewrite decode_stream.
      + cbn [skip_blanks]. rewrite if_false; [done|]. cbn. lia.
      + apply Forall_app. split; [by apply quoted_scalar|done]. }
  cbn [dosargv_loop]. rewrite if_false.
  2: { destruct (i =? 0)%nat; [by apply Z.eqb_neq|done]. }
  rewrite Hskip. rewrite if_false by (by apply Z.eqb_neq).
  rewrite (if_true (_ <? max)%nat) by (apply Nat.ltb_lt; lia).
  rewrite (if_true (_ <? size)%nat) by (apply Nat.ltb_lt; cbn; lia).
  rewrite (word_mono size f1 g _ _ _ ltac:(lia) Hf1).
  rewrite append_stream by (rewrite ?length_app; cbn; lia). change (utf8 0) with [0].
  change (da_p (stream p (quoted cs ++ L))) with p. rewrite <- app_assoc. subst L.
  rewrite (loop_mono size max f2 g _ _ _ _ ltac:(lia) Hf2).
  cbn [length packed flat_map offsets map]. fold (packed args).
  rewrite !length_app. cbn [length]. rewrite <- !app_assoc.
  replace (argc + 1 + length args)%nat with (argc + S (length args))%nat by lia.
  by replace (length p + (length (utf8s cs) + 1))%nat with (length p + length (utf8s cs) + 1)%nat by lia.
Qed.

(** A NUL-terminated string read from a buffer. *)
Fixpoint cstr (b : list Z) : list Z :=
  match b with
  | [] => []
  | c :: b => if c =? 0 then [] else c :: cstr b
  end.

Lemma cstr_app s r : Forall (fun b => b <> 0) s -> cstr (s ++ 0 :: r) = s.
Proof. induction 1; [done|]. cbn. rewrite if_false by lia. by f_equal. Qed.

Lemma offsets_strings pre args rest :
  Forall (Forall scalar) args ->
  map (fun o => cstr (drop o (pre ++ packed args ++ rest))) (offsets (length pre) args) = map utf8s args.
Proof.
  intros Ha. revert pre. induction Ha as [|cs args Hc _ IH]; intros pre; [done|].
  cbn [offsets map packed flat_map]. fold (packed args). f_equal.
  - rewrite drop_app_length. rewrite <- !app_assoc. cbn [app]. apply cstr_app, utf8s_nonzero, Hc.
  - specialize (IH (pre ++ utf8s cs ++ [0])). rewrite !length_app in IH. cbn [length] in IH.
    rewrite <- Nat.add_assoc. rewrite <- !app_assoc in *. exact IH.
Qed.

(** * The quoting side *)

Lemma merge_bytes_step n x r arg :
  0 <= r < 64 -> 0 <= x < 2 ^ 20 ->
  merge_bytes (S n) x (0x80 + r :: arg) = merge_bytes n (x * 64 + r) arg.
Proof.
  intros Hr Hx. cbn [merge_bytes]. rewrite if_false by lia.
  by rewrite merge_cont, u32_small by lia.
Qed.

Lemma next_code_utf8 c arg : scalar c -> next_code (utf8 c ++ arg) = (c, arg).
Proof.
  intros Hc. unfold scalar in Hc. unfold utf8, next_code.
  destruct (c <? 0x80) eqn:E1; [|destruct (c <? 0x800) eqn:E2; [|destruct (c <? 0x10000) eqn:E3]];
    bool_prop; cbn [app].
  - by rewrite if_false by lia.
  - rewrite if_true by lia. destruct (lead2 (0xC0 + c / 64) ltac:(lia)) as [-> ->].
    change (Z.to_nat (2 - 1)) with 1%nat. rewrite merge_bytes_step by lia. cbn. f_equal. lia.
  - rewrite if_true by lia. destruct (lead3 (0xE0 + c / 4096) ltac:(lia)) as [-> ->].
    change (Z.to_nat (3 - 1)) with 2%nat. rewrite !merge_bytes_step by lia. cbn. f_equal. lia.
  - rewrite if_true by lia. destruct (lead4 (0xF0 + c / 262144) ltac:(lia)) as [-> ->].
    change (Z.to_nat (4 - 1)) with 3%nat. rewrite !merge_bytes_step by lia. cbn. f_equal. lia.
Qed.

(** Every turn reads at least one byte. *)
Lemma merge_bytes_shrinks n x arg x' arg' :
  merge_bytes n x arg = (x', arg') -> (length arg' <= length arg)%nat.
Proof.
  revert x arg. induction n as [|n IH]; intros x arg; cbn [merge_bytes]; [by intros [= <- <-]|].
  destruct arg as [|y arg]; [by intros [= <- <-]|]. case_if; [intros [= <- <-]; cbn; lia|].
  intros H. apply IH in H. cbn. lia.
Qed.

Lemma next_code_shrinks arg x arg' :
  next_code arg = (x, arg') -> x <> 0 -> (length arg' < length arg)%nat.
Proof.
  unfold next_code. destruct arg as [|b arg]; [by intros [= <- <-]|]. case_if.
  - intros H _. apply merge_bytes_shrinks in H. cbn. lia.
  - intros [= <- <-] _. cbn. lia.
Qed.

(** ** Appending to the buffer *)

Definition puts (st : cmdbuf) (l : list Z) : cmdbuf := foldl APPEND st l.

Lemma puts_app st l1 l2 : puts st (l1 ++ l2) = puts (puts st l1) l2.
Proof. apply foldl_app. Qed.

Lemma APPEND_u16 st a b : u16 a = u16 b -> APPEND st a = APPEND st b.
Proof. unfold APPEND. by intros ->. Qed.

Lemma APPEND_times_puts n c st : APPEND_times n c st = puts st (replicate n c).
Proof.
  unfold APPEND_times. induction n as [|n IH]; [done|]. rewrite replicate_S_end, puts_app.
  change (Nat.iter (S n) (fun st0 => APPEND st0 c) st) with
    (APPEND (Nat.iter n (fun st0 => APPEND st0 c) st) c). by rewrite IH.
Qed.

Lemma APPEND_utf16_puts c st :
  scalar c -> APPEND_utf16 2 (u32 (EncodeUtf16 c)) st = puts st (utf16 c).
Proof.
  intros Hc. unfold scalar in Hc. unfold utf16. case_ifs.
  - rewrite EncodeUtf16_bmp, u32_small by lia. cbn [APPEND_utf16].
    rewrite shiftr_div by lia. by rewrite if_true by lia.
  - rewrite EncodeUtf16_astral, u32_small by lia.
    assert (0xD800 <= 0xD800 + (c - 0x10000) / 1024 < 0xDC00) as Hh by lia.
    assert (0xDC00 <= 0xDC00 + (c - 0x10000) mod 1024 < 0xE000) as Hl by lia.
    revert Hh Hl. generalize (0xD800 + (c - 0x10000) / 1024) as h.
    generalize (0xDC00 + (c - 0x10000) mod 1024) as l. intros l h Hh Hl.
    cbn [APPEND_utf16]. rewrite !shiftr_div by lia. change (2 ^ 16) with 65536.
    replace ((h + 65536 * l) / 65536) with l by lia. rewrite if_false by lia. rewrite if_true by lia.
    cbn [puts foldl]. f_equal. apply APPEND_u16. unfold u16. lia.
Qed.

Lemma utf16s_ascii l : Forall (fun c => 0 <= c < 0x10000) l -> utf16s l = l.
Proof.
  induction 1 as [|c l Hc _ IH]; [done|]. cbn [utf16s flat_map]. fold (utf16s l). rewrite IH.
  unfold utf16. by rewrite if_true by lia.
Qed.
Lemma utf16s_app l1 l2 : utf16s (l1 ++ l2) = utf16s l1 ++ utf16s l2.
Proof. apply flat_map_app. Qed.
Lemma utf16s_rep n c : 0 <= c < 0x10000 -> utf16s (replicate n c) = replicate n c.
Proof. intros. by apply utf16s_ascii, Forall_replicate. Qed.

Lemma quote_loop_emit cs f n st :
  Forall scalar cs -> (length cs < f)%nat ->
  quote_loop f (utf8s cs) n st = Some (trail cs n, puts st (utf16s (emit cs n))).
Proof.
  intros Hc. revert f n st. induction Hc as [|c cs Hc1 _ IH]; intros [|f] n st Hf; try (cbn in Hf; lia).
  - done.
  - cbn [quote_loop utf8s flat_map emit trail]. fold (utf8s cs).
    rewrite next_code_utf8 by done. rewrite (if_false (c =? 0)) by (unfold scalar in Hc1; lia).
    cbn [length] in Hf. destruct (c =? BSLASH) eqn:E1; [apply IH; lia|].
    destruct (c =? DQUOTE) eqn:E2; [rewrite IH by lia; done|].
    rewrite IH by lia. rewrite APPEND_utf16_puts, APPEND_times_puts by done.
    cbn [app]. rewrite utf16s_app, utf16s_rep by lia. cbn [utf16s flat_map]. fold (utf16s (emit cs 0)).
    by rewrite !puts_app.
Qed.

Lemma mkntcmdline_arg_text i cs st :
  Forall scalar cs -> LooksLikeCosmoDrivePath (utf8s cs) = false ->
  mkntcmdline_arg i (utf8s cs) st =
    Some (puts st (utf16s ((if (i =? 0)%nat then [] else [SP]) ++ quoted cs))).
Proof.
  intros Hc Hp. unfold mkntcmdline_arg, cmdline_arg. rewrite Hp. cbn [andb].
  pose proof (utf8s_length cs). rewrite quote_loop_emit by (done || lia).
  unfold quoted. destruct (NeedsQuotes (utf8s cs)); destruct (i =? 0)%nat;
    rewrite ?APPEND_times_puts, ?utf16s_app, ?utf16s_rep, ?puts_app by lia.
  all: reflexivity.
Qed.

Lemma mkntcmdline_loop_text i args st :
  Forall (Forall scalar) args ->
  Forall (fun cs => LooksLikeCosmoDrivePath (utf8s cs) = false) args ->
  mkntcmdline_loop i (map utf8s args) st = Some (puts st (utf16s (cmd_text i args))).
Proof.
  intros Hc. revert i st. induction Hc as [|cs args Hc1 _ IH]; intros i st Hp; [done|].
  inversion_clear Hp as [|? ? Hp1 Hp2]. cbn [map mkntcmdline_loop cmd_text].
  rewrite mkntcmdline_arg_text, IH by done. f_equal.
  by rewrite app_assoc, (utf16s_app (_ ++ quoted cs) (cmd_text _ _)), puts_app.
Qed.

Lemma puts_k st l : k (puts st l) = (k st + length l)%nat.
Proof.
  revert st. induction l as [|c l IH]; intros st; [cbn; lia|].
  change (puts st (c :: l)) with (puts (APPEND st c) l). rewrite IH. cbn. lia.
Qed.
Lemma puts_size st l : length (cmdline (puts st l)) = length (cmdline st).
Proof.
  revert st. induction l as [|c l IH]; intros st; [done|].
  change (puts st (c :: l)) with (puts (APPEND st c) l). rewrite IH. cbn [APPEND cmdline].
  case_if; [apply length_insert|done].
Qed.

(** The buffer holds what was put, as far as it fits. *)
Lemma puts_buf pre rest l :
  Forall is_u16 l -> (length l <= length rest)%nat ->
  cmdline (puts {| cmdline := pre ++ rest; k := length pre |} l) = pre ++ l ++ drop (length l) rest.
Proof.
  intros Hl. revert pre rest. induction Hl as [|c l Hc _ IH]; intros pre rest Hs; [done|].
  destruct rest as [|x rest]; [cbn in Hs; lia|]. cbn [length] in Hs.
  change (puts ?st (c :: l)) with (puts (APPEND st c) l).
  replace (APPEND {| cmdline := pre ++ x :: rest; k := length pre |} c) with
    {| cmdline := (pre ++ [c]) ++ rest; k := length (pre ++ [c]) |}.
  - rewrite IH by lia. cbn [length drop]. by rewrite <- app_assoc.
  - unfold APPEND. cbn [cmdline k]. rewrite if_true by (apply Nat.ltb_lt; rewrite length_app; cbn; lia).
    rewrite length_app, <- app_assoc, insert_app_r_alt, Nat.sub_diag by lia. cbn.
    by rewrite (u16_small c) by apply Hc.
Qed.

Lemma utf16_u16 c : scalar c -> Forall is_u16 (utf16 c).
Proof. intros [?|?]; unfold utf16, is_u16; case_ifs; repeat constructor; lia. Qed.
Lemma utf16s_units cs :
  Forall scalar cs -> Forall is_u16 (utf16s cs) /\ Forall (fun b => b <> 0) (utf16s cs).
Proof.
  induction 1 as [|c cs Hc _ [IH1 IH2]]; [split; constructor|].
  split; apply Forall_app; auto using utf16_u16, utf16_nonzero.
Qed.

(** ** Any argument vector: the text does not depend on the buffer *)

Lemma APPEND_utf16_any n w : exists U, forall st, APPEND_utf16 n w st = puts st U.
Proof.
  revert w. induction n as [|n IH]; intros w; [by exists []|]. cbn [APPEND_utf16].
  destruct (Z.shiftr w 16 =? 0); [by exists [w]|]. destruct (IH (Z.shiftr w 16)) as [U HU].
  exists (w :: U). intros st. by rewrite HU.
Qed.

Lemma quote_loop_any f arg n :
  (length arg < f)%nat -> exists m U, forall st, quote_loop f arg n st = Some (m, puts st U).
Proof.
  revert arg n. induction f as [|f IH]; intros arg n Hf; [lia|]. cbn [quote_loop].
  destruct (next_code arg) as [x arg'] eqn:E. destruct (x =? 0) eqn:E0; [by exists n, []|]. bool_prop.
  pose proof (next_code_shrinks _ _ _ E E0).
  destruct (x =? BSLASH); [apply IH; lia|]. destruct (x =? DQUOTE).
  - destruct (IH arg' n ltac:(lia)) as (m & U & HU).
    exists m, ([DQUOTE; DQUOTE; DQUOTE] ++ U). intros st. by rewrite HU, puts_app.
  - destruct (IH arg' 0%nat ltac:(lia)) as (m & U & HU).
    destruct (APPEND_utf16_any 2 (u32 (EncodeUtf16 x))) as [V HV].
    exists m, (replicate n BSLASH ++ V ++ U). intros st.
    by rewrite HU, HV, APPEND_times_puts, !puts_app.
Qed.

Lemma mkntcmdline_arg_any i arg : exists U, forall st, mkntcmdline_arg i arg st = Some (puts st U).
Proof.
  unfold mkntcmdline_arg. set (a := cmdline_arg arg).
  destruct (quote_loop_any (S (length a)) a 0 ltac:(lia)) as (m & U & HU).
  exists ((if (i =? 0)%nat then [] else [SP]) ++ (if NeedsQuotes a then [DQUOTE] else []) ++ U ++
     replicate (if NeedsQuotes a then 2 * m else m) BSLASH ++ (if NeedsQuotes a then [DQUOTE] else [])).
  intros st. rewrite HU, APPEND_times_puts, !puts_app.
  destruct (NeedsQuotes a); destruct (i =? 0)%nat; reflexivity.
Qed.

Lemma mkntcmdline_loop_any argv i : exists U, forall st, mkntcmdline_loop i argv st = Some (puts st U).
Proof.
  revert i. induction argv as [|arg argv IH]; intros i; [by exists []|].
  destruct (mkntcmdline_arg_any i arg) as [U HU]. destruct (IH (S i)) as [V HV].
  exists (U ++ V). intros st. cbn [mkntcmdline_loop]. by rewrite HU, HV, puts_app.
Qed.

Lemma mkntcmdline_fits buf args :
  Forall (Forall scalar) args ->
  Forall (fun cs => LooksLikeCosmoDrivePath (utf8s cs) = false) args ->
  (length (utf16s (cmd_text 0 args)) < length buf)%nat ->
  exists rest, mkntcmdline buf (map utf8s args) =
    Some (utf16s (cmd_text 0 args) ++ 0 :: rest, length (utf16s (cmd_text 0 args))).
Proof.
  intros Hc Hp Hk. unfold mkntcmdline. rewrite mkntcmdline_loop_text by done.
  set (U := utf16s (cmd_text 0 args)) in *.
  destruct (utf16s_units _ (cmd_text_scalar 0 args Hc)) as [HU _]. fold U in HU.
  rewrite puts_k. cbn [k Nat.add]. rewrite (if_false (_ =? 0)%nat) by (apply Nat.eqb_neq; lia).
  change (puts {| cmdline := buf; k := 0 |} U) with (puts {| cmdline := [] ++ buf; k := length (@nil Z) |} U).
  rewrite puts_buf by (done || lia). cbn [app]. rewrite Nat.min_l by lia.
  destruct (drop (length U) buf) as [|x rest] eqn:Ed.
  { apply (f_equal length) in Ed. rewrite length_drop in Ed. cbn in Ed. lia. }
  exists rest. do 2 f_equal. rewrite insert_app_r_alt, Nat.sub_diag by lia. done.
Qed.

Lemma dosargv_text args size max :
  Forall arg_ok args -> (length args < max)%nat -> (length (packed args) < size)%nat ->
  exists r, GetDosArgv (utf16s (cmd_text 0 args)) size max = Some r /\ d_argc r = length args /\
    d_argv r = map Some (offsets 0 args) ++ [None] /\ exists rest, d_buf r = packed args ++ rest.
Proof.
  intros Ha Hm Hs. unfold GetDosArgv. set (T := cmd_text 0 args).
  assert (Forall scalar T) as HT.
  { apply cmd_text_scalar. revert Ha. apply List.Forall_impl. by intros ? []. }
  assert (DecodeDosArgv {| da_s := utf16s T; da_p := []; da_wc := 0 |} = stream [] T) as ->.
  { destruct HT as [|c T' Hc _]; [done|]. by apply decode_utf16. }
  destruct (loop_text size max args 0 [] 0 [] Ha Hm ltac:(cbn; lia)) as [f Hf]. fold T in Hf.
  destruct (loop_total size max (length (utf16s T) + 3) 0 [] (stream [] T)) as [r Hr].
  { unfold left, stream. cbn [da_s da_wc]. destruct T as [|c T']; [cbn; lia|]. cbn [tail hd].
    cbn [utf16s flat_map]. fold (utf16s T'). rewrite length_app. pose proof (utf16_length c). case_if; lia. }
  pose proof (loop_mono _ _ (length (utf16s T) + 3) (f + (length (utf16s T) + 3)) _ _ _ _ ltac:(lia) Hr) as Hr1.
  rewrite (loop_mono _ _ _ _ _ _ _ _ (Nat.le_add_r f _) Hf) in Hr1. injection Hr1 as <-. rewrite Hr.
  cbn [Nat.add app length]. eexists. split; [done|]. cbn [d_argc d_argv d_buf].
  assert (length (offsets 0 args) = length args) as Hlen.
  { generalize 0%nat. clear. induction args as [|cs args IH]; intros b; cbn; [done|by rewrite IH]. }
  rewrite (if_false (max =? 0)%nat), (if_false (size =? 0)%nat) by (apply Nat.eqb_neq; lia).
  repeat split.
  - rewrite take_ge; [done|]. rewrite length_map, Hlen. lia.
  - rewrite append_stream by (cbn; rewrite ?length_app; cbn; lia). cbn [stream da_p].
    change (utf8 0) with [0]. rewrite length_app. cbn [length].
    destruct (decide (length (packed args) + 1 <= size - 1)%nat).
    + rewrite take_ge by (rewrite length_app; cbn; lia). rewrite <- app_assoc. by eexists.
    + rewrite take_app_le by lia. rewrite take_ge by lia. by eexists.
Qed.

(** ** The decoded strings stay inside the buffer *)

Definition in_buf (size : nat) (st : DosArgv) : Prop := (length (da_p st) <= size)%nat.

Lemma append_in_buf size c st : in_buf size st -> in_buf size (AppendDosArgv size c st).
Proof.
  unfold in_buf, AppendDosArgv. cbn [da_p]. generalize (tpenc c) as w, 8%nat as n. intros w n.
  revert w. generalize (da_p st) as p. induction n as [|n IH]; intros p w Hp; [done|].
  cbn [AppendDosArgv_loop]. destruct (size <=? length p)%nat eqn:E; [done|]. apply Nat.leb_gt in E.
  assert (length (p ++ [Z.land w 0xff]) <= size)%nat by (rewrite length_app; cbn; lia).
  case_if; auto.
Qed.
Lemma append_times_in_buf size n c st :
  in_buf size st -> in_buf size (AppendDosArgv_times size n c st).
Proof. intros H. induction n as [|n IH]; [done|]. by apply append_in_buf. Qed.
Lemma decode_in_buf size st : in_buf size st -> in_buf size (DecodeDosArgv st).
Proof.
  unfold in_buf, DecodeDosArgv. destruct (da_s st) as [|x [|y s]]; intros H; repeat case_if; done.
Qed.
Lemma Count_in_buf size f c st n m st' :
  Count f c st n = Some (m, st') -> in_buf size st -> in_buf size st'.
Proof.
  revert st n. induction f as [|f IH]; intros st n; [done|]. cbn [Count].
  case_if; [|by intros [= _ <-]]. intros H Hi. eapply IH; [exact H|]. by apply decode_in_buf.
Qed.

Create HintDb dosargv.
#[export] Hint Resolve append_in_buf append_times_in_buf decode_in_buf Count_in_buf : dosargv.

Lemma word_in_buf size f inq st st' :
  dosargv_word f size inq st = Some st' -> in_buf size st -> in_buf size st'.
Proof.
  revert inq st. induction f as [|f IH]; intros inq st; [done|]. cbn [dosargv_word].
  case_if; [by intros [= <-]|]. case_if; [by intros [= <-]|]. case_if.
  - destruct (Count f BSLASH st 0) as [[s st1]|] eqn:Ec1; [|done].
    destruct (Count f DQUOTE st1 0) as [[q st2]|] eqn:Ec2; [|done].
    repeat case_if; intros H Hi; assert (in_buf size st2) as H2 by eauto with dosargv;
      (eapply IH; [exact H|]); auto with dosargv.
  - intros H Hi. eapply IH; [exact H|]. auto with dosargv.
Qed.

Lemma skip_in_buf size f st st' : skip_blanks f st = Some st' -> in_buf size st -> in_buf size st'.
Proof.
  revert st. induction f as [|f IH]; intros st; [done|]. cbn [skip_blanks].
  case_if; [|by intros [= <-]]. intros H Hi. eapply IH; [exact H|]. auto with dosargv.
Qed.

Lemma loop_in_buf size max f argc argv st argc' argv' st' :
  dosargv_loop f size max argc argv st = Some (argc', argv', st') ->
  in_buf size st -> length argv = Nat.min argc (max - 1) ->
  in_buf size st' /\ length argv' = Nat.min argc' (max - 1).
Proof.
  revert argc argv st. induction f as [|f IH]; intros argc argv st; [done|]. cbn [dosargv_loop].
  case_if; [by intros [= <- <- <-]|].
  destruct (skip_blanks f st) as [st1|] eqn:Es; [|done].
  case_if; [intros [= <- <- <-]; eauto using skip_in_buf|].
  destruct (dosargv_word f size false st1) as [st2|] eqn:Ew; [|done].
  intros H Hi Ha. eapply IH; [exact H| |].
  - eauto using word_in_buf, skip_in_buf with dosargv.
  - destruct (argc + 1 <? max)%nat eqn:Em; [apply Nat.ltb_lt in Em|apply Nat.ltb_ge in Em];
      rewrite ?length_app; cbn [length]; lia.
Qed.

(** * Properties *)


Definition sample_args : list (list Z) :=
  [[0x72; 0x75; 0x62; 0x79]; [0x61; SP; 0x62; BSLASH]; []; [0x20AC; DQUOTE; 0x1F600]; [BSLASH]].

Definition sample_buf : list Z := replicate 64 0xFFFF.


(** [mkntcmdline] is total on any argument vector, valid text or not, and truncates
    like [snprintf]: the returned length does not depend on the buffer, the buffer keeps its
    size, it ends in NUL at the documented place, and before that it holds the same units a
    large enough buffer would hold. *)
Theorem mkntcmdline_truncates argv :
  exists n, forall buf, exists buf', mkntcmdline buf argv = Some (buf', n) /\
    length buf' = length buf /\ (buf <> [] -> buf' !! Nat.min n (length buf - 1) = Some 0).
Proof.
  destruct (mkntcmdline_loop_any argv 0) as [U HU]. exists (length U). intros buf.
  unfold mkntcmdline. rewrite HU, puts_k. cbn [k Nat.add]. eexists. split; [done|].
  pose proof (puts_size {| cmdline := buf; k := 0 |} U) as Hs. cbn [cmdline] in Hs.
  destruct buf as [|x buf]; [by split|].
  rewrite (if_false (length (x :: buf) =? 0)%nat) by done. split; [by rewrite length_insert|].
  intros _. apply list_lookup_insert_eq. rewrite Hs. cbn [length]. lia.
Qed.

(** [mkntcmdline] writes the same command line for an argument holding a backslash
    directly before a double quote and for the one with the two swapped: pending
    backslashes are not flushed before a quote, so the child cannot tell them apart. *)
Theorem mkntcmdline_swaps_escaped_quote buf pre post :
  Forall scalar pre -> Forall scalar post ->
  LooksLikeCosmoDrivePath (utf8s (pre ++ [BSLASH; DQUOTE] ++ post)) = false ->
  LooksLikeCosmoDrivePath (utf8s (pre ++ [DQUOTE; BSLASH] ++ post)) = false ->
  mkntcmdline buf [utf8s (pre ++ [BSLASH; DQUOTE] ++ post)] =
  mkntcmdline buf [utf8s (pre ++ [DQUOTE; BSLASH] ++ post)].
Proof.
  intros H1 H2 L1 L2. unfold mkntcmdline.
  assert (forall a, Forall scalar a -> LooksLikeCosmoDrivePath (utf8s a) = false -> forall st,
    mkntcmdline_loop 0 [utf8s a] st = Some (puts st (utf16s (cmd_text 0 [a])))) as Hl.
  { intros a Ha Hp st. apply (mkntcmdline_loop_text 0 [a]); by repeat constructor. }
  assert (forall x y, scalar x -> scalar y -> Forall scalar (pre ++ [x; y] ++ post)) as Hs.
  { intros. apply Forall_app. split; [done|]. do 2 (constructor; [done|]). done. }
  assert (scalar BSLASH) by (apply scalar_ascii; lia). assert (scalar DQUOTE) by (apply scalar_ascii; lia).
  rewrite !Hl by auto.
  cut (cmd_text 0 [pre ++ [BSLASH; DQUOTE] ++ post] = cmd_text 0 [pre ++ [DQUOTE; BSLASH] ++ post]);
    [by intros ->|]. unfold cmd_text, quoted. rewrite !NeedsQuotes_spec by auto.
  assert (forall n, emit (pre ++ [BSLASH; DQUOTE] ++ post) n = emit (pre ++ [DQUOTE; BSLASH] ++ post) n /\
    trail (pre ++ [BSLASH; DQUOTE] ++ post) n = trail (pre ++ [DQUOTE; BSLASH] ++ post) n) as He.
  { clear. induction pre as [|c pre IH]; intros n; [done|]. cbn [app emit trail].
    destruct (c =? BSLASH), (c =? DQUOTE); try apply IH;
      destruct (IH n) as [E1 E2], (IH 0%nat) as [E3 E4]; cbn [app] in *; by rewrite ?E1, ?E2, ?E3, ?E4. }
  destruct (He 0%nat) as [-> ->].
  assert (forall l, existsb needs_quote (pre ++ DQUOTE :: l) = true) as Hq.
  { intros l. rewrite existsb_app. cbn. apply orb_true_r. }
  assert (forall l, match pre ++ l with [] => true | _ :: _ => NeedsQuotes_loop (pre ++ l) end =
    match pre ++ l with [] => true | _ => existsb needs_quote (pre ++ l) end) as Hn.
  { intros l. destruct (pre ++ l) eqn:E; [done|]. by rewrite needs_loop_existsb. }
  rewrite !Hn. cbn [app].
  replace (existsb needs_quote (pre ++ BSLASH :: DQUOTE :: post)) with true
    by (rewrite existsb_app; cbn; by rewrite orb_true_r).
  rewrite Hq. by destruct pre.
Qed.

Lemma mkntcmdline_swaps_escaped_quote_witness :
  mkntcmdline (replicate 16 0) [[0x61; BSLASH; DQUOTE; 0x62]] =
  mkntcmdline (replicate 16 0) [[0x61; DQUOTE; BSLASH; 0x62]].
Proof.
  apply (mkntcmdline_swaps_escaped_quote (replicate 16 0) [0x61] [0x62]).
  - repeat constructor; unfold scalar; lia.
  - repeat constructor; unfold scalar; lia.
  - reflexivity.
  - reflexivity.
Defined.

