(* ===== verification/Zip.v ===== *)
(** PKZIP structures inside the executable: [libc/zip.h], [libc/str/iszipeocd32.c],
    [iszipeocd64.c], [getzipeocd.c] and the [getzip*.c] field readers.

    File memory is a list of bytes. Every read goes through [rd], which is [None] outside
    the file, so a theorem that a function is not [None] says it reads in bounds.
    [size_t] and [uint64_t] values are [Z]; sums the code checks with [ckd_add] keep their
    width. *)
From S2P Require Import Prelude.

(** * Reads *)

Definition byte_at (m : list Z) (i : Z) : option Z :=
  if 0 <=? i then m !! Z.to_nat i else None.

(** [k] bytes, little endian. *)
Fixpoint rd (k : nat) (m : list Z) (i : Z) : option Z :=
  match k with
  | O => Some 0
  | S k => b ← byte_at m i; r ← rd k m (i + 1); Some (b + 256 * r)
  end.
Definition ZIP_READ16 := rd 2.
Definition ZIP_READ32 := rd 4.
Definition ZIP_READ64 := rd 8.

(** [ckd_add] and [ckd_mul] on 64-bit unsigned operands: [None] on overflow. *)
Definition ckd_add (a b : Z) : option Z := if a + b <? 2 ^ 64 then Some (a + b) else None.
Definition ckd_mul (a b : Z) : option Z := if a * b <? 2 ^ 64 then Some (a * b) else None.

(** * Constants *)

Definition kZipOk : Z := 0.
Definition kZipErrorEocdNotFound : Z := -1.
Definition kZipErrorEocdOffsetOverflow : Z := -2.
Definition kZipErrorEocdMagicNotFound : Z := -3.
Definition kZipErrorEocdSizeOverflow : Z := -4.
Definition kZipErrorEocdDiskMismatch : Z := -5.
Definition kZipErrorEocdOffsetSizeOverflow : Z := -6.
Definition kZipErrorEocdRecordsMismatch : Z := -7.
Definition kZipErrorEocdRecordsOverflow : Z := -8.
Definition kZipErrorCdirOffsetPastEocd : Z := -9.
Definition kZipErrorEocdLocatorMagic : Z := -10.
Definition kZipErrorEocdLocatorOffset : Z := -11.

Definition kZipCdirHdrMagic : Z := 0x06054b50.
Definition kZipCdirHdrMinSize : Z := 22.
Definition kZipCdir64HdrMagic : Z := 0x06064b50.
Definition kZipCdir64HdrMinSize : Z := 56.
Definition kZipCdir64LocatorMagic : Z := 0x07064b50.
Definition kZipCdir64LocatorSize : Z := 20.
Definition kZipCfileHdrMinSize : Z := 46.
Definition kZipLfileHdrMinSize : Z := 30.
Definition kZipExtraZip64 : Z := 0x0001.
Definition kZipOsUnix : Z := 3.

(** * Field accessors *)

Definition ZIP_CDIR_DISK m p := ZIP_READ16 m (p + 4).
Definition ZIP_CDIR_STARTINGDISK m p := ZIP_READ16 m (p + 6).
Definition ZIP_CDIR_RECORDSONDISK m p := ZIP_READ16 m (p + 8).
Definition ZIP_CDIR_RECORDS m p := ZIP_READ16 m (p + 10).
Definition ZIP_CDIR_SIZE m p := ZIP_READ32 m (p + 12).
Definition ZIP_CDIR_OFFSET m p := ZIP_READ32 m (p + 16).
Definition ZIP_CDIR_COMMENTSIZE m p := ZIP_READ16 m (p + 20).
Definition ZIP_CDIR_HDRSIZE m p := c ← ZIP_CDIR_COMMENTSIZE m p; Some (c + kZipCdirHdrMinSize).
Definition ZIP_CDIR64_HDRSIZE m p := c ← ZIP_READ64 m (p + 4); Some (u64 (c + 12)).
Definition ZIP_CDIR64_RECORDS m p := ZIP_READ64 m (p + 32).
Definition ZIP_CDIR64_SIZE m p := ZIP_READ64 m (p + 40).
Definition ZIP_CDIR64_OFFSET m p := ZIP_READ64 m (p + 48).
Definition ZIP_LOCATE64_MAGIC m p := ZIP_READ32 m p.
Definition ZIP_LOCATE64_OFFSET m p := ZIP_READ64 m (p + 8).
Definition ZIP_CFILE_FILEATTRCOMPAT m p := byte_at m (p + 5).
Definition ZIP_CFILE_COMPRESSEDSIZE m p := ZIP_READ32 m (p + 20).
Definition ZIP_CFILE_UNCOMPRESSEDSIZE m p := ZIP_READ32 m (p + 24).
Definition ZIP_CFILE_NAMESIZE m p := ZIP_READ16 m (p + 28).
Definition ZIP_CFILE_EXTRASIZE m p := ZIP_READ16 m (p + 30).
Definition ZIP_CFILE_COMMENTSIZE m p := ZIP_READ16 m (p + 32).
Definition ZIP_CFILE_EXTERNALATTRIBUTES m p := ZIP_READ32 m (p + 38).
Definition ZIP_CFILE_OFFSET m p := ZIP_READ32 m (p + 42).
Definition ZIP_CFILE_EXTRA m p := n ← ZIP_CFILE_NAMESIZE m p; Some (p + 46 + n).
Definition ZIP_CFILE_HDRSIZE m p :=
  n ← ZIP_CFILE_NAMESIZE m p; e ← ZIP_CFILE_EXTRASIZE m p; c ← ZIP_CFILE_COMMENTSIZE m p;
  Some (n + e + c + kZipCfileHdrMinSize).
Definition ZIP_LFILE_COMPRESSIONMETHOD m p := ZIP_READ16 m (p + 8).
Definition ZIP_LFILE_COMPRESSEDSIZE m p := ZIP_READ32 m (p + 18).
Definition ZIP_LFILE_UNCOMPRESSEDSIZE m p := ZIP_READ32 m (p + 22).
Definition ZIP_LFILE_NAMESIZE m p := ZIP_READ16 m (p + 26).
Definition ZIP_LFILE_EXTRASIZE m p := ZIP_READ16 m (p + 28).
Definition ZIP_LFILE_EXTRA m p := n ← ZIP_LFILE_NAMESIZE m p; Some (p + 30 + n).
Definition ZIP_LFILE_HDRSIZE m p :=
  n ← ZIP_LFILE_NAMESIZE m p; e ← ZIP_LFILE_EXTRASIZE m p; Some (n + e + kZipLfileHdrMinSize).
Definition ZIP_EXTRA_HEADERID m p := ZIP_READ16 m p.
Definition ZIP_EXTRA_CONTENTSIZE m p := ZIP_READ16 m (p + 2).
Definition ZIP_EXTRA_SIZE m p := c ← ZIP_EXTRA_CONTENTSIZE m p; Some (c + 4).

(** * End of central directory *)

Definition IsZipEocd32 (p : list Z) (n i : Z) : option Z :=
  if (n <? i) || (n - i <? kZipCdirHdrMinSize) then Some kZipErrorEocdOffsetOverflow else
  magic ← ZIP_READ32 p i;
  if negb (magic =? kZipCdirHdrMagic) then Some kZipErrorEocdMagicNotFound else
  hdr ← ZIP_CDIR_HDRSIZE p i;
  if n <? i + hdr then Some kZipErrorEocdSizeOverflow else
  disk ← ZIP_CDIR_DISK p i; start ← ZIP_CDIR_STARTINGDISK p i;
  if negb (disk =? start) then Some kZipErrorEocdDiskMismatch else
  recsd ← ZIP_CDIR_RECORDSONDISK p i; recs ← ZIP_CDIR_RECORDS p i;
  if negb (recsd =? recs) then Some kZipErrorEocdRecordsMismatch else
  size ← ZIP_CDIR_SIZE p i;
  if size <? recs * kZipCfileHdrMinSize then Some kZipErrorEocdRecordsOverflow else
  off ← ZIP_CDIR_OFFSET p i;
  if off =? 0xFFFFFFFF then Some kZipErrorEocdRecordsOverflow else
  match ckd_add off size with
  | None => Some kZipErrorEocdOffsetSizeOverflow
  | Some offset => if i <? offset then Some kZipErrorCdirOffsetPastEocd else Some kZipOk
  end.

Definition IsZipEocd64 (p : list Z) (n i : Z) : option Z :=
  if (n <? i) || (n <? i + kZipCdir64HdrMinSize) then Some kZipErrorEocdOffsetOverflow else
  magic ← ZIP_READ32 p i;
  if negb (magic =? kZipCdir64HdrMagic) then Some kZipErrorEocdMagicNotFound else
  hdr ← ZIP_CDIR64_HDRSIZE p i;
  match ckd_add i hdr with
  | None => Some kZipErrorEocdSizeOverflow
  | Some loc =>
  match ckd_add loc kZipCdir64LocatorSize with
  | None => Some kZipErrorEocdSizeOverflow
  | Some off =>
  if n <? off then Some kZipErrorEocdSizeOverflow else
  lmagic ← ZIP_LOCATE64_MAGIC p loc;
  if negb (lmagic =? kZipCdir64LocatorMagic) then Some kZipErrorEocdLocatorMagic else
  loff ← ZIP_LOCATE64_OFFSET p loc;
  if negb (loff =? i) then Some kZipErrorEocdLocatorOffset else
  coff ← ZIP_CDIR64_OFFSET p i; csize ← ZIP_CDIR64_SIZE p i;
  match ckd_add coff csize with
  | None => Some kZipErrorEocdOffsetSizeOverflow
  | Some off =>
  if i <? off then Some kZipErrorCdirOffsetPastEocd else
  recs ← ZIP_CDIR64_RECORDS p i;
  match ckd_mul recs kZipCfileHdrMinSize with
  | None => Some kZipErrorEocdRecordsOverflow
  | Some cdsize => if csize <? cdsize then Some kZipErrorEocdRecordsOverflow else Some kZipOk
  end end end end.

(** ** GetZipEocd *)

(** The inner scan: steps down to the next magic within the last 64kb. *)
Fixpoint eocd_scan (fuel : nat) (p : list Z) (n i : Z) : option (Z * Z) :=
  match fuel with
  | O => None
  | S fuel =>
      magic ← ZIP_READ32 p i;
      if negb (magic =? kZipCdir64LocatorMagic) && negb (magic =? kZipCdirHdrMagic)
         && (n <=? i + 0x10000 + 0x1000) && (0 <? i)
      then eocd_scan fuel p n (i - 1) else Some (magic, i)
  end.

(** [do { ... } while (j-- && i - j < 128)]: looks for a zip64 locator before a classic
    record. Returns the zip64 record it names. *)
Fixpoint eocd_locate64 (fuel : nat) (p : list Z) (n i j : Z) : option (option Z) :=
  match fuel with
  | O => None
  | S fuel =>
      magic ← ZIP_READ32 p j;
      found ← (if (magic =? kZipCdir64LocatorMagic) && (j + kZipCdir64LocatorSize <=? n)
               then off ← ZIP_LOCATE64_OFFSET p j; err ← IsZipEocd64 p n off;
                    Some (if err =? kZipOk then Some off else None)
               else Some None);
      match found with
      | Some off => Some (Some off)
      | None => if negb (j =? 0) && (i - (j - 1) <? 128) then eocd_locate64 fuel p n i (j - 1)
                else Some None
      end
  end.

(** The vector test: no "PK" starts at [i - 14 .. i]. [x] is the sixteen bytes at
    [i - 14]; lanes are compared at even offsets, then at odd ones after a byte shift,
    which brings a zero into the last lane. *)
Fixpoint lanes_eq (pk : Z) (x : list Z) : bool :=
  match x with
  | a :: b :: x => (a + 256 * b =? pk) || lanes_eq pk x
  | _ => false
  end.
Definition eocd_no_pk (p : list Z) (i : Z) : option bool :=
  x ← mapM (byte_at p) (seqZ (i - 14) 16);
  Some (negb (lanes_eq 0x4b50 x || lanes_eq 0x4b50 (tail x ++ [0]))).

Inductive eocd := EocdAt (off : Z) | EocdError (err : Z).

(** The outer loop. [fast] is the x86-64 path; [err] the last error seen. *)
Fixpoint eocd_loop (fuel : nat) (fast : bool) (p : list Z) (n i err : Z) : option eocd :=
  match fuel with
  | O => None
  | S fuel =>
      let next i err :=
        if (0 <? i) && (n <=? i + 0x10000 + 0x1000) then eocd_loop fuel fast p n (i - 1) err
        else Some (EocdError err) in
      skip ← (if fast && (14 <=? i) then eocd_no_pk p i else Some false);
      if skip : bool then next (i - 13) err else
      '(magic, i) ← eocd_scan (S (Z.to_nat i)) p n i;
      if (magic =? kZipCdir64LocatorMagic) && (i + kZipCdir64LocatorSize <=? n) then
        off ← ZIP_LOCATE64_OFFSET p i; err ← IsZipEocd64 p n off;
        if err =? kZipOk then Some (EocdAt off) else next i err
      else if magic =? kZipCdirHdrMagic then
        err ← IsZipEocd32 p n i;
        if err =? kZipOk then
          j ← eocd_locate64 (S (Z.to_nat i)) p n i i;
          Some (EocdAt (match j with Some off => off | None => i end))
        else next i err
      else next i err
  end.

Definition GetZipEocd (fast : bool) (f : list Z) (n : Z) : option eocd :=
  let i := u64 (n - 4) in
  eocd_loop (S (Z.to_nat i)) fast f n i kZipErrorEocdNotFound.

(** * Central directory fields *)

Definition GetZipCdirSize m eocd :=
  magic ← ZIP_READ32 m eocd;
  if magic =? kZipCdir64HdrMagic then ZIP_CDIR64_SIZE m eocd else ZIP_CDIR_SIZE m eocd.
Definition GetZipCdirRecords m eocd :=
  magic ← ZIP_READ32 m eocd;
  if magic =? kZipCdir64HdrMagic then ZIP_CDIR64_RECORDS m eocd else ZIP_CDIR_RECORDS m eocd.
Definition GetZipCdirOffset m eocd :=
  magic ← ZIP_READ32 m eocd;
  if magic =? kZipCdir64HdrMagic then ZIP_CDIR64_OFFSET m eocd else ZIP_CDIR_OFFSET m eocd.

Definition S_IFMT : Z := 0xF000.
Definition S_IFDIR : Z := 0x4000.
Definition S_IFREG : Z := 0x8000.
Definition S_ISDIR (mode : Z) : bool := Z.land mode S_IFMT =? S_IFDIR.

Definition ConvertWindowsToUnixMode (x : Z) : Z :=
  let m := if negb (Z.land x 0x00000001 =? 0) then 0x124 else 0x1A4 in
  if negb (Z.land x 0x00000010 =? 0) then Z.lor m (Z.lor S_IFDIR 0x49) else Z.lor m S_IFREG.

Definition GetZipCfileMode m p :=
  os ← ZIP_CFILE_FILEATTRCOMPAT m p; attr ← ZIP_CFILE_EXTERNALATTRIBUTES m p;
  Some (if os =? kZipOsUnix then Z.shiftr attr 16 else ConvertWindowsToUnixMode attr).

(** The walk over extra fields the size readers share: [need] is the offset of the wanted
    64-bit value inside the zip64 field. *)
Fixpoint extra_zip64 (fuel : nat) (m : list Z) (p pe need : Z) : option Z :=
  match fuel with
  | O => None
  | S fuel =>
      size ← ZIP_EXTRA_SIZE m p;
      if negb (p + size <=? pe) then Some (-1) else
      id ← ZIP_EXTRA_HEADERID m p; csize ← ZIP_EXTRA_CONTENTSIZE m p;
      if (id =? kZipExtraZip64) && (need + 8 <=? csize)
      then v ← ZIP_READ64 m (p + 4 + need); Some (s64 v)
      else extra_zip64 fuel m (p + size) pe need
  end.

(** Each extra field has at least four bytes. *)
Definition extra_fuel (size : Z) : nat := S (Z.to_nat (size / 4)).

Definition GetZipCfileOffset m z :=
  off ← ZIP_CFILE_OFFSET m z;
  if negb (off =? 0xFFFFFFFF) then Some off else
  p ← ZIP_CFILE_EXTRA m z; size ← ZIP_CFILE_EXTRASIZE m z;
  csize ← ZIP_CFILE_COMPRESSEDSIZE m z; usize ← ZIP_CFILE_UNCOMPRESSEDSIZE m z;
  extra_zip64 (extra_fuel size) m p (p + size)
    ((if csize =? 0xFFFFFFFF then 8 else 0) + (if usize =? 0xFFFFFFFF then 8 else 0)).
Definition GetZipCfileCompressedSize m z :=
  csize ← ZIP_CFILE_COMPRESSEDSIZE m z;
  if negb (csize =? 0xFFFFFFFF) then Some csize else
  p ← ZIP_CFILE_EXTRA m z; size ← ZIP_CFILE_EXTRASIZE m z;
  usize ← ZIP_CFILE_UNCOMPRESSEDSIZE m z;
  extra_zip64 (extra_fuel size) m p (p + size) (if usize =? 0xFFFFFFFF then 8 else 0).
Definition GetZipCfileUncompressedSize m z :=
  usize ← ZIP_CFILE_UNCOMPRESSEDSIZE m z;
  if negb (usize =? 0xFFFFFFFF) then Some usize else
  p ← ZIP_CFILE_EXTRA m z; size ← ZIP_CFILE_EXTRASIZE m z;
  extra_zip64 (extra_fuel size) m p (p + size) 0.
Definition GetZipLfileCompressedSize m z :=
  csize ← ZIP_LFILE_COMPRESSEDSIZE m z;
  if negb (csize =? 0xFFFFFFFF) then Some csize else
  p ← ZIP_LFILE_EXTRA m z; size ← ZIP_LFILE_EXTRASIZE m z;
  usize ← ZIP_LFILE_UNCOMPRESSEDSIZE m z;
  extra_zip64 (extra_fuel size) m p (p + size) (if usize =? 0xFFFFFFFF then 8 else 0).
Definition GetZipLfileUncompressedSize m z :=
  usize ← ZIP_LFILE_UNCOMPRESSEDSIZE m z;
  if negb (usize =? 0xFFFFFFFF) then Some usize else
  p ← ZIP_LFILE_EXTRA m z; size ← ZIP_LFILE_EXTRASIZE m z;
  extra_zip64 (extra_fuel size) m p (p + size) 0.

(** * DOS timestamps *)

(** [kMonthYearDay], cumulative days before each month. *)
Definition kMonthYearDay (leap : bool) : list Z :=
  if leap then [0; 31; 60; 91; 121; 152; 182; 213; 244; 274; 305; 335]
  else [0; 31; 59; 90; 120; 151; 181; 212; 243; 273; 304; 334].

(** [DosDateTimeToUnix]: unsigned 32-bit fields, the sum at 64 bits. *)
Definition DosDateTimeToUnix (date time : Z) : Z :=
  let year := u32 (Z.shiftr (Z.land date 0xfffffe00) 9 + 1980 - 1900) in
  let month := Z.max 1 (Z.min 12 (Z.shiftr (Z.land date 0x01e0) 5)) in
  let day := if Z.land date 0x001f =? 0 then 0 else Z.land date 0x001f - 1 in
  let hour := Z.shiftr (Z.land time 0x0000f800) 11 in
  let minute := Z.shiftr (Z.land time 0x000007e0) 5 in
  let second := Z.shiftl (Z.land time 0x0000001f) 1 in
  let leap := (year mod 4 =? 0) && (negb (year mod 100 =? 0) || (year mod 400 =? 0)) in
  let yday := day + nth (Z.to_nat (month - 1)) (kMonthYearDay leap) 0 in
  s64 (u64 (u32 (second + minute * 60 + hour * 3600 + yday * 86400) +
    (year - 70) * 31536000 + ((year - 69) / 4) * 86400 -
    ((year - 1) / 100) * 86400 + ((year + 299) / 400) * 86400)).

(** * In-bounds reads *)

(** The file has [n] bytes. *)
Definition file (m : list Z) (n : Z) : Prop := n = Z.of_nat (length m) /\ Forall is_byte m.

Lemma byte_at_some m n i :
  file m n -> 0 <= i < n -> exists b, byte_at m i = Some b /\ 0 <= b < 256.
Proof.
  intros [-> Hm] Hi. unfold byte_at. rewrite if_true by lia.
  destruct (lookup_lt_is_Some_2 m (Z.to_nat i) ltac:(lia)) as [b Hb].
  exists b. split; [done|]. rewrite Forall_lookup in Hm. exact (Hm _ _ Hb).
Qed.

Lemma rd_some m n k i :
  file m n -> 0 <= i -> i + Z.of_nat k <= n ->
  exists v, rd k m i = Some v /\ 0 <= v < 256 ^ Z.of_nat k.
Proof.
  intros Hf. revert i. induction k as [|k IH]; intros i Hi Hn; [exists 0; split; [done|cbn; lia]|].
  destruct (byte_at_some m n i Hf ltac:(lia)) as (b & Hb & Hbr).
  destruct (IH (i + 1) ltac:(lia) ltac:(lia)) as (v & Hv & Hvr).
  exists (b + 256 * v). cbn [rd]. rewrite Hb. cbn. rewrite Hv. split; [done|].
  rewrite Nat2Z.inj_succ, Z.pow_succ_r by lia. lia.
Qed.

Lemma read16_some m n i : file m n -> 0 <= i -> i + 2 <= n -> exists v, ZIP_READ16 m i = Some v /\ 0 <= v < 65536.
Proof. intros. by apply (rd_some m n 2). Qed.
Lemma read32_some m n i : file m n -> 0 <= i -> i + 4 <= n -> exists v, ZIP_READ32 m i = Some v /\ 0 <= v < 2 ^ 32.
Proof. intros. by apply (rd_some m n 4). Qed.
Lemma read64_some m n i : file m n -> 0 <= i -> i + 8 <= n -> exists v, ZIP_READ64 m i = Some v /\ 0 <= v < 2 ^ 64.
Proof. intros. by apply (rd_some m n 8). Qed.

(** Performs the next read of the goal, in bounds by [lia]. *)
Ltac zread :=
  match goal with
  | Hf : file ?m ?n |- context [ZIP_READ16 ?m ?i] =>
      let v := fresh "v" in let E := fresh "Ev" in let H := fresh "Hv" in
      destruct (read16_some m n i Hf ltac:(lia) ltac:(lia)) as (v & E & H); rewrite E
  | Hf : file ?m ?n |- context [ZIP_READ32 ?m ?i] =>
      let v := fresh "v" in let E := fresh "Ev" in let H := fresh "Hv" in
      destruct (read32_some m n i Hf ltac:(lia) ltac:(lia)) as (v & E & H); rewrite E
  | Hf : file ?m ?n |- context [ZIP_READ64 ?m ?i] =>
      let v := fresh "v" in let E := fresh "Ev" in let H := fresh "Hv" in
      destruct (read64_some m n i Hf ltac:(lia) ltac:(lia)) as (v & E & H); rewrite E
  end; cbn [mbind option_bind].

(** What a validated record promises: the central directory lies before it in the file
    and has room for its records. *)
Definition eocd32_sound (m : list Z) (n i : Z) : Prop :=
  0 <= i /\ i + 22 <= n /\ exists off size recs,
    ZIP_READ32 m i = Some kZipCdirHdrMagic /\ ZIP_CDIR_OFFSET m i = Some off /\
    ZIP_CDIR_SIZE m i = Some size /\ ZIP_CDIR_RECORDS m i = Some recs /\
    0 <= off /\ off + size <= i /\ recs * 46 <= size.
Definition eocd64_sound (m : list Z) (n i : Z) : Prop :=
  0 <= i /\ i + 56 <= n /\ exists off size recs,
    ZIP_READ32 m i = Some kZipCdir64HdrMagic /\ ZIP_CDIR64_OFFSET m i = Some off /\
    ZIP_CDIR64_SIZE m i = Some size /\ ZIP_CDIR64_RECORDS m i = Some recs /\
    0 <= off /\ off + size <= i /\ recs * 46 <= size.

Lemma IsZipEocd32_spec m n i :
  file m n -> 0 <= i ->
  exists err, IsZipEocd32 m n i = Some err /\ (err = kZipOk -> eocd32_sound m n i).
Proof.
  intros Hf Hi. unfold IsZipEocd32, ZIP_CDIR_HDRSIZE, ZIP_CDIR_COMMENTSIZE, ZIP_CDIR_DISK,
    ZIP_CDIR_STARTINGDISK, ZIP_CDIR_RECORDSONDISK, ZIP_CDIR_RECORDS, ZIP_CDIR_SIZE, ZIP_CDIR_OFFSET,
    kZipCdirHdrMinSize, kZipCfileHdrMinSize.
  repeat first
    [ progress cbn [mbind option_bind]
    | match goal with |- exists err, Some ?e = Some err /\ _ =>
        exists e; split; [reflexivity|]; first [intros ?; exfalso; discriminate|intros _] end
    | zread
    | match goal with |- context [if ?b then _ else _] => destruct b eqn:?; bool_prop end
    | unfold ckd_add ].
  unfold eocd32_sound. split; [done|]. split; [lia|].
  do 3 eexists. unfold ZIP_CDIR_OFFSET, ZIP_CDIR_SIZE, ZIP_CDIR_RECORDS.
  repeat (split; [first [eassumption|subst; eassumption]|]). lia.
Qed.

Lemma IsZipEocd64_spec m n i :
  file m n -> n < 2 ^ 63 -> 0 <= i ->
  exists err, IsZipEocd64 m n i = Some err /\ (err = kZipOk -> eocd64_sound m n i).
Proof.
  intros Hf Hn Hi. unfold IsZipEocd64, ZIP_CDIR64_HDRSIZE, ZIP_LOCATE64_MAGIC, ZIP_LOCATE64_OFFSET,
    ZIP_CDIR64_OFFSET, ZIP_CDIR64_SIZE, ZIP_CDIR64_RECORDS, kZipCdir64HdrMinSize, kZipCdir64LocatorSize,
    kZipCfileHdrMinSize.
  assert (forall x, 0 <= u64 x) as Hu by (intros x; apply (u64_range x)).
  repeat first
    [ progress cbn [mbind option_bind]
    | match goal with |- exists err, Some ?e = Some err /\ _ =>
        exists e; split; [reflexivity|]; first [intros ?; exfalso; discriminate|intros _] end
    | match goal with v : Z |- context [u64 (?v + 12)] =>
        let h := fresh "h" in pose proof (Hu (v + 12)); set (h := u64 (v + 12)) in *; clearbody h end
    | zread
    | match goal with |- context [if ?b then _ else _] => destruct b eqn:?; bool_prop end
    | progress unfold ckd_add, ckd_mul ].
  clear Hu. unfold eocd64_sound. split; [exact Hi|]. split; [lia|].
  do 3 eexists. unfold ZIP_CDIR64_OFFSET, ZIP_CDIR64_SIZE, ZIP_CDIR64_RECORDS.
  repeat (split; [first [eassumption|subst; eassumption]|]). lia.
Qed.

(** * The search for the record *)

Definition eocd_good (m : list Z) (n : Z) (r : eocd) : Prop :=
  match r with
  | EocdAt off => eocd64_sound m n off \/ eocd32_sound m n off
  | EocdError err => err <> kZipOk
  end.

Definition no_magic (m : list Z) (i : Z) : Prop :=
  exists v, ZIP_READ32 m i = Some v /\ v <> kZipCdir64LocatorMagic /\ v <> kZipCdirHdrMagic.

(** Runs the branches of one turn of the search, up to its next turn. *)
Ltac loop_branches :=
  repeat match goal with
  | |- context [if ?b then _ else _] =>
      lazymatch b with
      | (0 <? _) && _ => fail
      | _ => destruct b; cbn [mbind option_bind]; [|]
      end
  | |- context [mbind _ ?o] => destruct o; cbn [mbind option_bind]; [|done]
  end; try done.

Section search.
Context (m : list Z) (n : Z) (Hf : file m n) (Hn : 4 <= n < 2 ^ 63).

Lemma eocd_scan_spec fuel i :
  0 <= i <= n - 4 -> (Z.to_nat i < fuel)%nat ->
  exists magic i', eocd_scan fuel m n i = Some (magic, i') /\ 0 <= i' <= i /\ ZIP_READ32 m i' = Some magic.
Proof.
  revert i. induction fuel as [|fuel IH]; intros i Hi Hfuel; [lia|]. cbn [eocd_scan].
  zread. case_if; bool_prop; [|exists v, i; repeat split; [lia|lia|done]].
  destruct (IH (i - 1) ltac:(lia) ltac:(lia)) as (mg & i' & -> & ? & ?).
  exists mg, i'. repeat split; [lia|lia|done].
Qed.

Lemma eocd_scan_fuel f1 f2 i :
  0 <= i -> (Z.to_nat i < f1)%nat -> (Z.to_nat i < f2)%nat -> eocd_scan f1 m n i = eocd_scan f2 m n i.
Proof.
  revert f2 i. induction f1 as [|f1 IH]; intros [|f2] i Hi H1 H2; try lia. cbn [eocd_scan].
  destruct (ZIP_READ32 m i); cbn [mbind option_bind]; [|done]. case_if; bool_prop; [|done].
  apply IH; lia.
Qed.

Lemma eocd_locate64_spec fuel i j :
  0 <= j <= n - 4 -> (Z.to_nat j < fuel)%nat ->
  exists r, eocd_locate64 fuel m n i j = Some r /\ forall off, r = Some off -> eocd64_sound m n off.
Proof.
  revert j. induction fuel as [|fuel IH]; intros j Hj Hfuel; [lia|]. cbn [eocd_locate64].
  zread.
  assert (exists r, (if negb (j =? 0) && (i - (j - 1) <? 128)
                     then eocd_locate64 fuel m n i (j - 1) else Some None) = Some r /\
                    forall off, r = Some off -> eocd64_sound m n off) as Hnext.
  { case_if; bool_prop; [|by exists None]. apply IH; lia. }
  destruct ((v =? kZipCdir64LocatorMagic) && (j + kZipCdir64LocatorSize <=? n)) eqn:Hloc; [|done].
  bool_prop. unfold ZIP_LOCATE64_OFFSET, kZipCdir64LocatorSize in *. zread.
  destruct (IsZipEocd64_spec m n v0 Hf ltac:(lia) ltac:(lia)) as (e & -> & He). cbn [mbind option_bind].
  case_if; bool_prop; [|done]. exists (Some v0). split; [done|]. intros off [= <-]. auto.
Qed.

Lemma read32_low j a b v :
  byte_at m j = Some a -> byte_at m (j + 1) = Some b -> 0 <= a < 256 -> 0 <= b < 256 ->
  ZIP_READ32 m j = Some v -> a + 256 * b <> 0x4b50 -> v <> kZipCdir64LocatorMagic /\ v <> kZipCdirHdrMagic.
Proof.
  unfold ZIP_READ32. intros Ha Hb ? ? Hv Hpk. cbn [rd] in Hv. rewrite Ha, Hb in Hv. cbn [mbind option_bind] in Hv.
  destruct (byte_at m (j + 1 + 1)) as [c|]; [|done]. cbn [mbind option_bind] in Hv.
  destruct (byte_at m (j + 1 + 1 + 1)) as [d|]; [|done]. cbn [mbind option_bind] in Hv. injection Hv as <-.
  unfold kZipCdir64LocatorMagic, kZipCdirHdrMagic. lia.
Qed.

Lemma lanes_eq_at pk x k a b :
  lanes_eq pk x = false -> x !! (2 * k)%nat = Some a -> x !! (2 * k + 1)%nat = Some b -> a + 256 * b <> pk.
Proof.
  revert x. induction k as [|k IH]; intros [|p [|q x]] He Ha Hb; try done; cbn in He; bool_prop.
  - cbn in Ha, Hb. congruence.
  - replace (2 * S k)%nat with (S (S (2 * k))) in * by lia. cbn in Ha, Hb. by apply (IH x).
Qed.

Lemma lanes_pair pk x k a b :
  lanes_eq pk x || lanes_eq pk (tail x ++ [0]) = false ->
  x !! k = Some a -> x !! S k = Some b -> a + 256 * b <> pk.
Proof.
  intros He Ha Hb. bool_prop. destruct (Nat.Even_or_Odd k) as [[h ->]|[h ->]].
  - apply (lanes_eq_at pk x h a b); [done..|]. by rewrite Nat.add_1_r.
  - destruct x as [|p x]; [done|]. rewrite Nat.add_1_r in *. cbn in *.
    apply (lanes_eq_at pk (x ++ [0]) h a b); [done| |].
    + by apply lookup_app_l_Some.
    + rewrite Nat.add_1_r. by apply lookup_app_l_Some.
Qed.

(** The vector test reads in bounds, and what it passes over starts no record. *)
Lemma eocd_no_pk_spec i :
  14 <= i <= n - 4 ->
  exists b, eocd_no_pk m i = Some b /\ (b = true -> forall j, i - 14 <= j <= i -> no_magic m j).
Proof.
  intros Hi. unfold eocd_no_pk.
  destruct (mapM_is_Some_2 (byte_at m) (seqZ (i - 14) 16)) as [x Hx].
  { apply Forall_forall. intros j Hj. apply list_elem_of_In, elem_of_seqZ in Hj.
    destruct (byte_at_some m n j Hf ltac:(lia)) as (b & Hb & _). by exists b. }
  rewrite Hx. cbn [mbind option_bind]. eexists. split; [reflexivity|]. intros Hno%negb_true_iff j Hj.
  destruct (read32_some m n j Hf ltac:(lia) ltac:(lia)) as (v & Hv & _). exists v. split; [done|].
  apply mapM_Some_1 in Hx. set (k := Z.to_nat (j - (i - 14))).
  assert (forall d, (k + d < 16)%nat -> exists b, x !! (k + d)%nat = Some b /\
            byte_at m (j + Z.of_nat d) = Some b /\ 0 <= b < 256) as Hat.
  { intros d Hd. destruct (Forall2_lookup_l _ _ _ (k + d)%nat (j + Z.of_nat d) Hx) as (b & Hb & E).
    { rewrite lookup_seqZ_lt by lia. f_equal. lia. }
    exists b. destruct (byte_at_some m n (j + Z.of_nat d) Hf ltac:(lia)) as (b' & E' & ?).
    split; [done|]. split; [done|]. congruence. }
  destruct (Hat 0%nat ltac:(lia)) as (a & Ha & Ea & ?), (Hat 1%nat ltac:(lia)) as (b & Hb & Eb & ?).
  rewrite Z.add_0_r in Ea. rewrite Nat.add_0_r in Ha. rewrite Nat.add_1_r in Hb.
  apply (read32_low j a b v); auto. by apply (lanes_pair _ x k).
Qed.

Lemma loop_fuel fast f1 f2 i err :
  0 <= i <= n - 4 -> (Z.to_nat i < f1)%nat -> (Z.to_nat i < f2)%nat ->
  eocd_loop f1 fast m n i err = eocd_loop f2 fast m n i err.
Proof.
  revert f2 i err. induction f1 as [|f1 IH]; intros [|f2] i err Hi H1 H2; try lia. cbn [eocd_loop].
  match goal with |- context [if fast && (14 <=? i) then ?x else _] =>
    destruct (if fast && (14 <=? i) then x else Some false) as [skip|] eqn:Hskip end; [|done].
  cbn [mbind option_bind]. destruct skip.
  - destruct (fast && (14 <=? i)) eqn:?; [|done]. bool_prop. case_if; [|done]. apply IH; lia.
  - destruct (eocd_scan_spec (S (Z.to_nat i)) i Hi ltac:(lia)) as (mg & i' & -> & Hi' & _).
    cbn [mbind option_bind]. loop_branches; case_if; bool_prop; try done; apply IH; lia.
Qed.

(** One turn of the portable search that finds nothing moves down by one. *)
Lemma slow_step f1 f2 i err :
  0 < i <= n - 4 -> n <= i + 0x10000 + 0x1000 -> no_magic m i ->
  (Z.to_nat i < f1)%nat -> (Z.to_nat i <= f2)%nat ->
  eocd_loop f1 false m n i err = eocd_loop f2 false m n (i - 1) err.
Proof.
  intros Hi Hw (v & Hv & Hl & Hc) H1 H2. destruct f1 as [|f1]; [lia|]. destruct f2 as [|f2]; [lia|].
  cbn [eocd_loop andb mbind option_bind].
  replace (eocd_scan (S (Z.to_nat i)) m n i) with (eocd_scan (S (Z.to_nat (i - 1))) m n (i - 1)).
  2:{ cbn [eocd_scan]. fold eocd_scan. rewrite Hv. cbn [mbind option_bind].
      rewrite (if_true (negb _ && _ && _ && _)) by (rewrite !andb_true_iff; lia).
      replace (Z.to_nat i) with (S (Z.to_nat (i - 1))) by lia. done. }
  destruct (eocd_scan_spec (S (Z.to_nat (i - 1))) (i - 1) ltac:(lia) ltac:(lia)) as (mg & i' & -> & Hi' & _).
  cbn [mbind option_bind]. loop_branches; case_if; bool_prop; try done; apply loop_fuel; lia.
Qed.

Lemma slow_stop f i err :
  0 <= i <= n - 4 -> i + 0x10000 + 0x1000 < n -> no_magic m i -> (Z.to_nat i < f)%nat ->
  eocd_loop f false m n i err = Some (EocdError err).
Proof.
  intros Hi Hw (v & Hv & Hl & Hc) Hfl. destruct f as [|f]; [lia|].
  cbn [eocd_loop eocd_scan andb mbind option_bind]. rewrite Hv. cbn [mbind option_bind].
  rewrite (if_false (negb _ && _ && _ && _)) by (rewrite !andb_false_iff; left; right; lia).
  cbn [mbind option_bind]. rewrite (proj2 (Z.eqb_neq v _) Hl), (proj2 (Z.eqb_neq v _) Hc). cbn [andb].
  rewrite if_false by (rewrite andb_false_iff; right; lia). done.
Qed.

(** A run of [k] positions with no record, as the vector path passes over it. *)
Lemma slow_skip k f i err :
  0 < Z.of_nat k <= i -> i <= n - 4 -> (forall j, i - Z.of_nat k < j <= i -> no_magic m j) ->
  (Z.to_nat i < f)%nat ->
  eocd_loop f false m n i err =
  if n <=? i - (Z.of_nat k - 1) + 0x10000 + 0x1000 then eocd_loop f false m n (i - Z.of_nat k) err
  else Some (EocdError err).
Proof.
  revert i. induction k as [|k IH]; intros i Hk Hi Hno Hfl; [lia|].
  destruct (decide (n <= i + 0x10000 + 0x1000)) as [Hw|Hw].
  - rewrite (slow_step f f) by (auto; try apply Hno; lia). destruct (decide (k = 0%nat)) as [->|Hk0].
    + rewrite if_true by (apply Z.leb_le; lia). f_equal; lia.
    + rewrite (IH (i - 1)); [|lia|lia|intros j Hj; apply Hno; lia|lia].
      replace (i - 1 - (Z.of_nat k - 1)) with (i - (Z.of_nat (S k) - 1)) by lia.
      replace (i - 1 - Z.of_nat k) with (i - Z.of_nat (S k)) by lia. done.
  - rewrite if_false by (apply Z.leb_gt; lia). apply slow_stop; [lia|lia|apply Hno; lia|lia].
Qed.

Lemma loop_paths f1 f2 i err :
  0 <= i <= n - 4 -> (Z.to_nat i < f1)%nat -> (Z.to_nat i < f2)%nat ->
  eocd_loop f1 true m n i err = eocd_loop f2 false m n i err.
Proof.
  revert f2 i err. induction f1 as [|f1 IH]; intros f2 i err Hi H1 H2; [lia|].
  destruct (decide (14 <= i)) as [H14|H14].
  2:{ destruct f2 as [|f2]; [lia|]. cbn [eocd_loop andb]. rewrite (if_false (14 <=? i)) by lia.
      destruct (eocd_scan_spec (S (Z.to_nat i)) i Hi ltac:(lia)) as (mg & i' & -> & Hi' & _).
      cbn [mbind option_bind]. loop_branches; case_if; bool_prop; try done; apply IH; lia. }
  destruct (eocd_no_pk_spec i ltac:(lia)) as (b & Hb & Hno). destruct b.
  - rewrite (slow_skip 14 f2 i err); [|lia|lia|intros; apply Hno; [done|lia]|lia].
    cbn [eocd_loop andb]. rewrite (if_true (14 <=? i)), Hb by lia. cbn [mbind option_bind].
    change (Z.of_nat 14) with 14. replace (i - (14 - 1)) with (i - 13) by lia.
    rewrite (proj2 (Z.ltb_lt 0 (i - 13))) by lia. cbn [andb].
    case_if; [|done]. replace (i - 13 - 1) with (i - 14) by lia. apply IH; lia.
  - destruct f2 as [|f2]; [lia|]. cbn [eocd_loop andb]. rewrite (if_true (14 <=? i)), Hb by lia.
    destruct (eocd_scan_spec (S (Z.to_nat i)) i Hi ltac:(lia)) as (mg & i' & -> & Hi' & _).
    cbn [mbind option_bind]. loop_branches; case_if; bool_prop; try done; apply IH; lia.
Qed.

Lemma loop_good f i err :
  0 <= i <= n - 4 -> (Z.to_nat i < f)%nat -> err <> kZipOk ->
  exists r, eocd_loop f false m n i err = Some r /\ eocd_good m n r.
Proof.
  revert i err. induction f as [|f IH]; intros i err Hi Hfl Herr; [lia|]. cbn [eocd_loop andb].
  assert (forall i' e, 0 <= i' <= i -> e <> kZipOk -> exists r,
            (if (0 <? i') && (n <=? i' + 65536 + 4096) then eocd_loop f false m n (i' - 1) e
             else Some (EocdError e)) = Some r /\ eocd_good m n r) as Hnext.
  { intros i' e Hi' He. case_if; bool_prop; [apply IH; [lia|lia|done]|by exists (EocdError e)]. }
  destruct (eocd_scan_spec (S (Z.to_nat i)) i Hi ltac:(lia)) as (mg & i' & -> & Hi' & Hmg).
  cbn [mbind option_bind].
  destruct ((mg =? kZipCdir64LocatorMagic) && (i' + kZipCdir64LocatorSize <=? n)) eqn:Hl;
    [|destruct (mg =? kZipCdirHdrMagic) eqn:Hc; [|by apply Hnext]]; bool_prop.
  - unfold ZIP_LOCATE64_OFFSET, kZipCdir64LocatorSize in *. zread.
    destruct (IsZipEocd64_spec m n v Hf ltac:(lia) ltac:(lia)) as (e & -> & He). cbn [mbind option_bind].
    case_if; bool_prop; [|by apply Hnext]. exists (EocdAt v). split; [done|]. left. auto.
  - destruct (IsZipEocd32_spec m n i' Hf ltac:(lia)) as (e & -> & He). cbn [mbind option_bind].
    case_if; bool_prop; [|by apply Hnext].
    destruct (eocd_locate64_spec (S (Z.to_nat i')) i' i' ltac:(lia) ltac:(lia)) as ([off|] & -> & Hr);
      cbn [mbind option_bind]; eexists; (split; [reflexivity|]); [left|right]; auto.
Qed.
End search.

(** * Properties *)


(** An archive with no entries: the record alone. *)
Definition empty_zip : list Z :=
  [0x50; 0x4b; 5; 6; 0; 0; 0; 0; 0; 0; 0; 0; 0; 0; 0; 0; 0; 0; 0; 0; 0; 0].

Lemma empty_zip_file : file empty_zip 22.
Proof. split; [reflexivity|]. by apply (bool_decide_unpack _). Qed.


(** The x86 vector path of the search, which passes over fourteen bytes at a time,
    returns the same record or error as the portable path. *)
Theorem GetZipEocd_paths_agree (f : list Z) (n : Z) :
  file f n -> 4 <= n < 2 ^ 63 -> GetZipEocd true f n = GetZipEocd false f n.
Proof.
  intros Hf Hn. unfold GetZipEocd. rewrite u64_small by lia. apply (loop_paths f n Hf); lia.
Qed.

Lemma GetZipEocd_paths_agree_witness :
  GetZipEocd true (repeat 7 40 ++ empty_zip) 62 = GetZipEocd false (repeat 7 40 ++ empty_zip) 62.
Proof.
  apply (GetZipEocd_paths_agree (repeat 7 40 ++ empty_zip) 62); [|lia].
  split; [reflexivity|]. by apply (bool_decide_unpack _).
Defined.

Example GetZipEocd_runs :
  GetZipEocd true (repeat 7 40 ++ empty_zip ++ [1; 2]) 64 = Some (EocdAt 40) /\
  GetZipEocd false (repeat 7 40) 40 = Some (EocdError kZipErrorEocdNotFound).
Proof. split; vm_compute; reflexivity. Qed.

(** A file shorter than four bytes wraps [n - 4] around: the first read is out of bounds. *)
Lemma GetZipEocd_short_file f n : file f n -> n < 4 -> GetZipEocd false f n = None.
Proof.
  intros [-> Hf] Hn. unfold GetZipEocd. remember (u64 (Z.of_nat (length f) - 4)) as i eqn:Hi.
  assert (Z.of_nat (length f) <= i) by (subst i; unfold u64; lia).
  remember (Z.to_nat i) as k. cbn [eocd_loop eocd_scan andb mbind option_bind].
  assert (byte_at f i = None) as Hb.
  { unfold byte_at. rewrite if_true by lia. apply lookup_ge_None. lia. }
  unfold ZIP_READ32. cbn [rd]. by rewrite Hb.
Qed.

(** ** The calendar *)

Definition gregorian_leap (y : Z) : bool :=
  (y mod 4 =? 0) && (negb (y mod 100 =? 0) || (y mod 400 =? 0)).
Definition month_length (y mo : Z) : Z :=
  if mo =? 2 then (if gregorian_leap y then 29 else 28)
  else if (mo =? 4) || (mo =? 6) || (mo =? 9) || (mo =? 11) then 30 else 31.
Definition sum (l : list Z) : Z := fold_right Z.add 0 l.
Definition days_before_year (y : Z) : Z :=
  sum (map (fun y => if gregorian_leap y then 366 else 365) (seqZ 1970 (y - 1970))).
Definition days_before_month (y mo : Z) : Z := sum (map (month_length y) (seqZ 1 (mo - 1))).
(** Seconds since 1970 of a time of the proleptic Gregorian calendar. *)
Definition civil_seconds (y mo d h mi s : Z) : Z :=
  (days_before_year y + days_before_month y mo + (d - 1)) * 86400 + h * 3600 + mi * 60 + s.

Definition dos_date (y mo d : Z) : Z := (y - 1980) * 512 + mo * 32 + d.
Definition dos_time (h mi s : Z) : Z := h * 2048 + mi * 32 + s / 2.

Definition dos_days (year mo : Z) : Z :=
  nth (Z.to_nat (mo - 1))
    (kMonthYearDay ((year mod 4 =? 0) && (negb (year mod 100 =? 0) || (year mod 400 =? 0)))) 0 +
  (year - 70) * 365 + (year - 69) / 4 - (year - 1) / 100 + (year + 299) / 400.

Lemma dos_days_table :
  forallb (fun y => forallb (fun mo =>
    dos_days (y - 1900) mo =? days_before_year y + days_before_month y mo
      - (if (y =? 2000) && (3 <=? mo) then 1 else 0)) (seqZ 1 12)) (seqZ 1980 128) = true.
Proof. vm_compute. reflexivity. Qed.

Lemma dos_days_civil y mo :
  1980 <= y <= 2107 -> 1 <= mo <= 12 ->
  dos_days (y - 1900) mo = days_before_year y + days_before_month y mo
      - (if (y =? 2000) && (3 <=? mo) then 1 else 0).
Proof.
  intros Hy Hm. pose proof dos_days_table as H. rewrite forallb_forall in H.
  specialize (H y). rewrite forallb_forall in H.
  apply Z.eqb_eq, H; apply list_elem_of_In, elem_of_seqZ; lia.
Qed.

Lemma kMonthYearDay_range leap k : 0 <= nth k (kMonthYearDay leap) 0 <= 335.
Proof. destruct leap; do 12 (destruct k as [|k]; [cbn; lia|]); destruct k; cbn; lia. Qed.

(** DosDateTimeToUnix turns every DOS date of 1980 to 2107 into the seconds of the
    Gregorian calendar, except that from March to December 2000 the result is one day
    early: the leap test takes years since 1900 modulo 400. *)
Theorem DosDateTimeToUnix_civil (y mo d h mi s : Z) :
  1980 <= y <= 2107 -> 1 <= mo <= 12 -> 1 <= d <= 31 -> 0 <= h < 24 -> 0 <= mi < 60 -> 0 <= s < 60 ->
  s mod 2 = 0 ->
  DosDateTimeToUnix (dos_date y mo d) (dos_time h mi s) =
  civil_seconds y mo d h mi s - (if (y =? 2000) && (3 <=? mo) then 86400 else 0).
Proof.
  intros Hy Hm Hd Hh Hmi Hs Heven. unfold DosDateTimeToUnix, dos_date, dos_time.
  set (date := (y - 1980) * 512 + mo * 32 + d). set (time := h * 2048 + mi * 32 + s / 2).
  rewrite !shiftr_div, shiftl_mul by lia.
  change 0xfffffe00 with ((2 ^ 23 - 1) * 2 ^ 9). change 0x01e0 with ((2 ^ 4 - 1) * 2 ^ 5).
  change 0x0000f800 with ((2 ^ 5 - 1) * 2 ^ 11). change 0x000007e0 with ((2 ^ 6 - 1) * 2 ^ 5).
  change 0x0000001f with (2 ^ 5 - 1).
  rewrite !land_field, !land_mask, !Z.div_mul by lia.
  change (2 ^ 23) with 8388608. change (2 ^ 11) with 2048. change (2 ^ 9) with 512.
  change (2 ^ 6) with 64. change (2 ^ 5) with 32. change (2 ^ 4) with 16.
  assert ((date / 512) mod 8388608 = y - 1980) as -> by lia.
  assert ((date / 32) mod 16 = mo) as -> by lia. assert (date mod 32 = d) as -> by lia.
  assert ((time / 2048) mod 32 = h) as -> by lia. assert ((time / 32) mod 64 = mi) as -> by lia.
  assert (time mod 32 = s / 2) as -> by lia. clear date time.
  rewrite (u32_small (y - 1980 + 1980 - 1900)) by lia.
  replace (y - 1980 + 1980 - 1900) with (y - 1900) by lia.
  replace (Z.max 1 (Z.min 12 mo)) with mo by lia. rewrite (if_false (d =? 0)) by lia.
  pose proof (dos_days_civil y mo Hy Hm) as Hdays. unfold dos_days in Hdays.
  match type of Hdays with context [nth _ (kMonthYearDay ?l) 0] =>
    pose proof (kMonthYearDay_range l (Z.to_nat (mo - 1))) as Hn; set (nn := nth _ _ _) in * end.
  unfold civil_seconds. generalize dependent (days_before_year y). intros D Hdays.
  generalize dependent (days_before_month y mo). intros E Hdays.
  rewrite u32_small by lia. rewrite u64_small by lia. rewrite s64_small by lia.
  destruct ((y =? 2000) && (3 <=? mo)); lia.
Qed.

Lemma DosDateTimeToUnix_civil_witness :
  DosDateTimeToUnix (dos_date 2024 2 29) (dos_time 12 30 44) = civil_seconds 2024 2 29 12 30 44 - 0 /\
  DosDateTimeToUnix (dos_date 2000 3 1) (dos_time 0 0 0) = civil_seconds 2000 3 1 0 0 0 - 86400.
Proof.
  split; [apply (DosDateTimeToUnix_civil 2024 2 29 12 30 44)|apply (DosDateTimeToUnix_civil 2000 3 1 0 0 0)];
    lia.
Defined.
