(* ===== verification/NtEnv.v ===== *)
(** Environment variables across the Windows process boundary:
    [libc/calls/mkntenvblock.c] (strings to the sorted UTF-16 block CreateProcess wants),
    [libc/intrin/__getenv.c] and [libc/runtime/getdosenviron.c] (block to strings).

    Strings are lists of bytes without their terminator. The builder keeps its own byte
    buffer and an array of offsets into it, as the C code keeps pointers; every access to
    the array is checked, and a theorem that the result is not [Fault] says it stays in
    bounds. *)
From S2P Require Import Prelude Utf Recode NtArgs.

(** Results of code that can fail with [E2BIG] or access memory out of bounds. *)
Inductive res (A : Type) := Ok (a : A) | E2big | Fault.
Arguments Ok {A} a.
Arguments E2big {A}.
Arguments Fault {A}.
#[export] Instance res_bind : MBind res := fun A B f r =>
  match r with Ok a => f a | E2big => E2big | Fault => Fault end.
Definition of_option {A} (o : option A) : res A := match o with Some a => Ok a | None => Fault end.

(** * __getenv.c *)

(** The inner loop: whether the variable [t] has the name [k]. *)
Fixpoint getenv_match (k t : list Z) : bool :=
  let kj := at_ k 0 in
  if (kj =? 0) || (kj =? EQUALS) then (at_ t 0 =? 0) || (at_ t 0 =? EQUALS)
  else match k, t with
       | kj :: k, tj :: t => if kj =? tj then getenv_match k t else false
       | _, _ => false
       end.
(** The index of the variable, [e.i], when [e.s] is not null. *)
Fixpoint getenv_loop (p : list (list Z)) (k : list Z) (i : nat) : option nat :=
  match p with
  | [] => None
  | t :: p => if getenv_match k t then Some i else getenv_loop p k (S i)
  end.
Definition __getenv (p : list (list Z)) (k : list Z) : option nat := getenv_loop p k 0.

(** * mkntenvblock.c *)

(** [bufi] is the length of [buf], the bytes stored so far. *)
Record EnvBuilder := { buf : list Z; var : list nat; vari : nat }.

Definition key_char (c : Z) : Z := if c =? EQUALS then 0 else c.

(** [Compare]: the names of two variables, ['='] taken as the terminator. *)
Fixpoint Compare (l r : list Z) : Z :=
  let a := key_char (at_ l 0) in
  let b := key_char (at_ r 0) in
  if negb (a =? b) || (b =? 0) then a - b
  else match l with
       | [] => 0
       | _ :: l => Compare l (tail r)
       end.

Definition ENV_MAX : Z := 32767.

(** The copying loop of [InsertString]; [path] is the offset after the last ['='] that
    starts a drive path. *)
Fixpoint copy_var (str : list Z) (buf : list Z) (path : option nat) : res (list Z * option nat) :=
  if ENV_MAX <? Z.of_nat (length buf) + 2 then E2big else
  match str with
  | [] => Ok (buf ++ [0], path)
  | c :: str =>
      let buf := buf ++ [c] in
      let path := if (c =? EQUALS) && (at_ str 0 =? SLASH) && isalpha (at_ str 1) && (at_ str 2 =? SLASH)
                  then Some (length buf) else path in
      copy_var str buf path
  end.

(** [mungentpath(path)] on the string that ends the buffer. *)
Definition munge_tail (buf : list Z) (path : option nat) : list Z :=
  match path with
  | None => buf
  | Some p => take p buf ++ mungentpath (removelast (drop p buf)) ++ [0]
  end.

Definition store (a : list nat) (i v : nat) : res (list nat) :=
  if (i <? length a)%nat then Ok (<[i := v]> a) else Fault.

(** [for (; i < vari; ++i) var[i] = var[i + 1];] *)
Fixpoint close_gap (n : nat) (a : list nat) (i : nat) : res (list nat) :=
  match n with
  | O => Ok a
  | S n => v ← of_option (a !! S i); a ← store a i v; close_gap n a (S i)
  end.

(** [for (i = vari;; --i)]: returns the array and [vari]. *)
Fixpoint insert_sorted (i : nat) (buf : list Z) (new : nat) (a : list nat) (vari : nat)
    : res (list nat * nat) :=
  match i with
  | O => a ← store a 0 new; Ok (a, S vari)
  | S i' =>
      prev ← of_option (a !! i');
      let cmp := Compare (drop new buf) (drop prev buf) in
      if 0 <? cmp then a ← store a i new; Ok (a, S vari)
      else if cmp =? 0 then
        a ← store a i' new; a ← close_gap (vari - i) a i; Ok (a, vari)
      else
        a ← store a i prev; insert_sorted i' buf new a vari
  end.

Definition InsertString (env : EnvBuilder) (str : list Z) : res EnvBuilder :=
  let new := length (buf env) in
  '(buf, path) ← copy_var str (buf env) None;
  let buf := munge_tail buf path in
  '(a, n) ← insert_sorted (vari env) buf new (var env) (vari env);
  Ok {| buf := buf; var := a; vari := n |}.

Fixpoint InsertStrings (env : EnvBuilder) (strs : list (list Z)) : res EnvBuilder :=
  match strs with
  | [] => Ok env
  | s :: strs => env ← InsertString env s; InsertStrings env strs
  end.

Definition CountStrings (strs : list (list Z)) : nat := length strs.

(** The loop that writes the block: each variable with its terminator. *)
Fixpoint write_block (v : simd) (addr : Z) (buf : list Z) (a : list nat) (envblock : list Z) : res (list Z) :=
  match a with
  | [] => Ok envblock
  | off :: a =>
      r ← of_option (tprecode8to16 v (addr + Z.of_nat off) (2 ^ 64 - 1) (fun i => at_ buf (off + i)) (S (length buf)));
      write_block v addr buf a (envblock ++ ax_out r)
  end.

Definition SYSTEMROOT : list Z := ascii_codes "SYSTEMROOT"%string.

(** [mkntenvblock]: the block, and whether [unassert(k <= env.bufi)] held. A null [envp]
    or [extravars] is the empty list; [environ] may be null. *)
Definition mkntenvblock (v : simd) (addr : Z) (envp extravars : list (list Z))
    (environ : option (list (list Z))) : res (list Z * bool) :=
  let n := (CountStrings envp + CountStrings extravars + 1)%nat in
  let env := {| buf := []; var := replicate n 0%nat; vari := 0 |} in
  env ← InsertStrings env envp;
  env ← InsertStrings env extravars;
  env ← (match environ with
         | None => Ok env
         | Some environ =>
             match __getenv environ SYSTEMROOT with
             | None => Ok env
             | Some i => s ← of_option (environ !! i); InsertString env s
             end
         end);
  envblock ← write_block v addr (buf env) (take (vari env) (var env)) [];
  Ok (envblock ++ [0], (length envblock <=? length (buf env))%nat).

Example mkntenvblock_runs :
  mkntenvblock Portable 0 [ascii_codes "B=1"%string; ascii_codes "A=/c/x"%string; ascii_codes "B=2"%string] []
    (Some [ascii_codes "SYSTEMROOT=C:"%string]) =
  Ok (ascii_codes "A=c:\x"%string ++ [0] ++ ascii_codes "B=2"%string ++ [0] ++ ascii_codes "SYSTEMROOT=C:"%string ++ [0; 0], true).
Proof. vm_compute. reflexivity. Qed.
