(* ===== verification/NtEnvFacts.v ===== *)
(** The environment block is what CreateProcess asks for: every variable once, the last
    definition of each, sorted by name, within 32767 shorts. *)
From Stdlib Require Import Sorting.Sorted.
From S2P Require Import Prelude Utf Recode NtArgs NtEnv.

(** * Abstract environments *)

Definition cstring (s : list Z) : Prop := Forall (fun c => 0 < c < 256) s.
#[export] Instance cstring_dec s : Decision (cstring s).
Proof. unfold cstring. apply _. Defined.

(** The name of a variable. *)
Fixpoint key (s : list Z) : list Z :=
  match s with
  | [] => []
  | c :: s => if c =? EQUALS then [] else c :: key s
  end.

(** Lexicographic order of byte strings. *)
Fixpoint lex (a b : list Z) : comparison :=
  match a, b with
  | [], [] => Eq
  | [], _ => Lt
  | _, [] => Gt
  | x :: a, y :: b => match x ?= y with Eq => lex a b | c => c end
  end.
Definition name_lt (a b : list Z) : Prop := lex (key a) (key b) = Lt.

(** An environment is a list of variables sorted by name; setting a variable replaces
    the one of that name. *)
Fixpoint env_set (l : list (list Z)) (s : list Z) : list (list Z) :=
  match l with
  | [] => [s]
  | x :: l =>
      match lex (key s) (key x) with
      | Lt => s :: x :: l
      | Eq => s :: l
      | Gt => x :: env_set l s
      end
  end.

Lemma lex_refl a : lex a a = Eq.
Proof. induction a as [|x a IH]; [done|]. cbn. by rewrite Z.compare_refl. Qed.
Lemma lex_eq a b : lex a b = Eq -> a = b.
Proof.
  revert b. induction a as [|x a IH]; intros [|y b]; cbn; try done.
  destruct (Z.compare_spec x y) as [->|?|?]; [|done|done]. intros ?. f_equal. auto.
Qed.
Lemma lex_opp a b : lex b a = CompOpp (lex a b).
Proof.
  revert b. induction a as [|x a IH]; intros [|y b]; cbn; try done.
  rewrite (Z.compare_antisym x y). destruct (x ?= y); cbn; auto.
Qed.
Lemma lex_trans a b c : lex a b = Lt -> lex b c = Lt -> lex a c = Lt.
Proof.
  revert b c. induction a as [|x a IH]; intros [|y b] [|z c]; cbn; try done.
  destruct (Z.compare_spec x y) as [->|?|?], (Z.compare_spec y z) as [->|?|?]; try done.
  - apply IH.
  - intros _ _. by rewrite (proj2 (Z.compare_lt_iff x z)).
  - intros _ _. by rewrite (proj2 (Z.compare_lt_iff x z)) by lia.
Qed.
Lemma lex_gt a b : lex a b = Gt -> lex b a = Lt.
Proof. intros H. by rewrite lex_opp, H. Qed.
Lemma lex_lt_gt a b : lex a b = Lt -> lex b a = Gt.
Proof. intros H. by rewrite lex_opp, H. Qed.

Create HintDb ntenv.
#[export] Hint Resolve lex_gt lex_lt_gt lex_trans lex_refl : ntenv.

Definition named (k : list Z) (s : list Z) : bool := bool_decide (key s = k).

Lemma env_set_bound l s x : name_lt x s -> Forall (name_lt x) l -> Forall (name_lt x) (env_set l s).
Proof.
  intros Hs. induction 1 as [|y l Hy Hl IH]; cbn; [by constructor|].
  destruct (lex (key s) (key y)); repeat constructor; auto.
Qed.

Lemma env_set_sorted l s : StronglySorted name_lt l -> StronglySorted name_lt (env_set l s).
Proof.
  induction 1 as [|x l Hl IH Hx]; cbn; [repeat constructor|].
  destruct (lex (key s) (key x)) eqn:E.
  - apply lex_eq in E. constructor; [done|]. revert Hx. unfold name_lt. rewrite E. done.
  - repeat constructor; auto. revert Hx. apply List.Forall_impl. intros y. unfold name_lt. eauto with ntenv.
  - constructor; [done|]. apply env_set_bound; [|done]. unfold name_lt. auto with ntenv.
Qed.

Lemma find_above k l : Forall (fun x => lex k (key x) = Lt) l -> List.find (named k) l = None.
Proof.
  induction 1 as [|x l Hx Hl IH]; [done|]. cbn. unfold named at 1. rewrite bool_decide_false; [done|].
  intros <-. by rewrite lex_refl in Hx.
Qed.

Lemma env_set_find l s k :
  StronglySorted name_lt l ->
  List.find (named k) (env_set l s) = if named k s then Some s else List.find (named k) l.
Proof.
  induction 1 as [|x l Hl IH Hx]; cbn [env_set List.find]; [by destruct (named k s)|].
  destruct (lex (key s) (key x)) eqn:E; cbn [List.find].
  - apply lex_eq in E. unfold named at 1 3 4. rewrite E. case_bool_decide; [done|]. done.
  - done.
  - rewrite IH. unfold named. destruct (decide (key x = k)) as [Hk|Hk].
    + rewrite !(bool_decide_true (key x = k)) by done. rewrite bool_decide_false; [done|].
      intros Hs. rewrite Hs, <- Hk, lex_refl in E. done.
    + rewrite !(bool_decide_false (key x = k)) by done. done.
Qed.

(** ** Array insertion from the right is [env_set] *)

Section ins.
Context (s : list Z).
Fixpoint ins_rev (rp suf : list (list Z)) : list (list Z) :=
  match rp with
  | [] => s :: suf
  | p :: rp' =>
      match lex (key s) (key p) with
      | Gt => rev rp ++ s :: suf
      | Eq => rev rp' ++ s :: suf
      | Lt => ins_rev rp' (p :: suf)
      end
  end.

Lemma env_set_split l suf :
  Forall (fun x => name_lt x s) l -> Forall (name_lt s) suf -> env_set (l ++ suf) s = l ++ s :: suf.
Proof.
  intros Hl Hsuf. induction Hl as [|x l Hx Hl IH]; cbn.
  - destruct Hsuf as [|y suf Hy _]; [done|]. cbn. by rewrite Hy.
  - rewrite (lex_lt_gt _ _ Hx). by rewrite IH.
Qed.
Lemma env_set_replace l p suf :
  Forall (fun x => name_lt x s) l -> key p = key s -> env_set (l ++ p :: suf) s = l ++ s :: suf.
Proof.
  intros Hl Hp. induction Hl as [|x l Hx Hl IH]; cbn.
  - by rewrite Hp, lex_refl.
  - rewrite (lex_lt_gt _ _ Hx). by rewrite IH.
Qed.

Lemma ins_rev_spec rp suf :
  StronglySorted name_lt (rev rp ++ suf) -> Forall (name_lt s) suf ->
  ins_rev rp suf = env_set (rev rp ++ suf) s.
Proof.
  revert suf. induction rp as [|p rp IH]; intros suf Hs Hsuf; cbn [ins_rev rev app] in *.
  - destruct Hsuf as [|y suf Hy _]; [done|]. cbn. by rewrite Hy.
  - rewrite <- !app_assoc in *. cbn [app] in *.
    assert (Forall (fun x => name_lt x p) (rev rp)) as Hrp.
    { clear -Hs. revert Hs. generalize (rev rp). intros l. induction l as [|x l IH]; intros Hs; [done|]. cbn in Hs.
      apply StronglySorted_inv in Hs as [Hs Hx]. constructor; [|auto].
      apply Forall_app in Hx as [_ Hx]. by apply List.Forall_inv in Hx. }
    destruct (lex (key s) (key p)) eqn:E.
    + apply lex_eq in E. rewrite (env_set_replace (rev rp) p suf); [done| |done].
      revert Hrp. apply List.Forall_impl. intros x. unfold name_lt. by rewrite E.
    + rewrite IH; [done|done|by constructor].
    + replace (rev rp ++ p :: suf) with ((rev rp ++ [p]) ++ suf) by by rewrite <- app_assoc.
      rewrite env_set_split; [by rewrite <- app_assoc| |done].
      apply Forall_app. split; [|constructor; [|done]; by apply lex_gt].
      revert Hrp. apply List.Forall_impl. intros x Hx. eapply lex_trans; [exact Hx|by apply lex_gt].
Qed.
End ins.

(** * The builder implements [env_set] *)

(** [Compare] on two strings inside a buffer orders their names. *)
Lemma Compare_lex l r x y :
  cstring l -> cstring r -> (Compare (l ++ 0 :: x) (r ++ 0 :: y) ?= 0) = lex (key l) (key r).
Proof.
  intros Hl. revert r. induction Hl as [|a l Ha Hl IH]; intros [|b r] Hr;
    try (apply List.Forall_cons_iff in Hr as [Hb Hr]); cbn [app Compare key tail at_ nth].
  - done.
  - unfold key_char. change (0 =? EQUALS) with false. cbn [negb orb].
    destruct (b =? EQUALS) eqn:E; bool_prop; [done|]. rewrite if_true by (rewrite orb_true_iff, negb_true_iff; lia).
    apply Z.compare_lt_iff. lia.
  - unfold key_char. change (0 =? EQUALS) with false.
    destruct (a =? EQUALS) eqn:E; bool_prop; [done|]. rewrite if_true by (rewrite orb_true_iff; lia).
    apply Z.compare_gt_iff. lia.
  - unfold key_char.
    destruct (a =? EQUALS) eqn:Ea, (b =? EQUALS) eqn:Eb; bool_prop; cbn [lex].
    + done.
    + rewrite if_true by (rewrite orb_true_iff, negb_true_iff; lia). apply Z.compare_lt_iff. lia.
    + rewrite if_true by (rewrite orb_true_iff, negb_true_iff; lia). apply Z.compare_gt_iff. lia.
    + destruct (Z.compare_spec a b) as [<-|Hlt|Hgt].
      * rewrite if_false by (rewrite orb_false_iff, negb_false_iff; lia). by apply IH.
      * rewrite if_true by (rewrite orb_true_iff, negb_true_iff; lia). apply Z.compare_lt_iff. lia.
      * rewrite if_true by (rewrite orb_true_iff, negb_true_iff; lia). apply Z.compare_gt_iff. lia.
Qed.

(** ** The pointer array *)

Lemma store_ok pre (g v : nat) post i :
  i = length pre -> store (pre ++ g :: post) i v = Ok (pre ++ v :: post).
Proof.
  intros ->. unfold store. rewrite if_true by (apply Nat.ltb_lt; rewrite length_app; cbn; lia).
  by rewrite insert_app_r_alt, Nat.sub_diag by lia.
Qed.

Lemma close_gap_ok suf pre (g : nat) rest :
  exists x, close_gap (length suf) (pre ++ g :: suf ++ rest) (length pre) = Ok (pre ++ suf ++ x :: rest).
Proof.
  revert pre g. induction suf as [|v suf IH]; intros pre g; cbn [close_gap length app]; [by exists g|].
  rewrite lookup_app_r by lia. replace (S (length pre) - length pre)%nat with 1%nat by lia. cbn.
  rewrite store_ok by done. cbn [mbind res_bind].
  destruct (IH (pre ++ [v]) v) as [x Hx]. exists x. rewrite <- app_assoc in Hx. cbn [app] in Hx.
  rewrite length_app, Nat.add_1_r in Hx. rewrite Hx. by rewrite <- app_assoc.
Qed.

(** The string at an offset of the buffer. *)
Definition str_is (buf : list Z) (off : nat) (s : list Z) : Prop :=
  cstring s /\ exists rest, drop off buf = s ++ 0 :: rest.

Lemma str_is_app buf off s tl : str_is buf off s -> str_is (buf ++ tl) off s.
Proof.
  intros [Hs [rest Hr]]. split; [done|]. exists (rest ++ tl).
  rewrite drop_app_le, Hr, <- app_assoc; [done|].
  assert (length (drop off buf) <> 0%nat) by (rewrite Hr, length_app; cbn; lia).
  rewrite length_drop in H. lia.
Qed.

Lemma forall2_rev {A B} (P : A -> B -> Prop) l k : Forall2 P l k -> Forall2 P (rev l) (rev k).
Proof. induction 1; [done|]. cbn. apply Forall2_app; auto. Qed.

Lemma insert_sorted_ok buf new s rp suf (g : nat) rest srp ssuf :
  str_is buf new s -> Forall2 (str_is buf) rp srp -> Forall2 (str_is buf) suf ssuf ->
  exists a rest', insert_sorted (length rp) buf new (rev rp ++ g :: suf ++ rest) (length rp + length suf)
    = Ok (a ++ rest', length a) /\ Forall2 (str_is buf) a (ins_rev s srp ssuf) /\
      (length (a ++ rest') = length (rev rp ++ g :: suf ++ rest))%nat.
Proof.
  intros Hnew Hrp. revert suf ssuf g. induction Hrp as [|p sp rp srp Hp Hrp IH]; intros suf ssuf g Hsuf.
  - cbn [length rev app insert_sorted ins_rev]. rewrite (store_ok [] g new (suf ++ rest) 0 eq_refl : store (g :: suf ++ rest) 0 new = _).
    cbn [mbind res_bind app].
    exists (new :: suf), rest. split; [done|]. split; [by constructor|done].
  - cbn [length insert_sorted ins_rev].
    assert ((rev (p :: rp) ++ g :: suf ++ rest) !! length rp = Some p) as ->.
    { cbn [rev]. rewrite <- app_assoc, lookup_app_r by (rewrite length_rev; lia).
      by rewrite length_rev, Nat.sub_diag. }
    cbn [of_option mbind res_bind].
    destruct Hnew as [Hs [x Hx]] eqn:EN, Hp as [Hsp [y Hy]] eqn:EP. rewrite Hx, Hy.
    pose proof (Compare_lex s sp x y Hs Hsp) as Hcmp. clear EN EP.
    assert (length (rev (p :: rp)) = S (length rp)) as Hlen by (rewrite length_rev; done).
    destruct (lex (key s) (key sp)).
    + apply Z.compare_eq in Hcmp. rewrite Hcmp. cbn [Z.ltb Z.eqb Z.compare].
      cbn [rev]. rewrite <- !app_assoc. cbn [app]. rewrite store_ok by (by rewrite length_rev).
      cbn [mbind res_bind]. replace (S (length rp) + length suf - S (length rp))%nat with (length suf) by lia.
      destruct (close_gap_ok suf (rev rp ++ [new]) g rest) as [z Hz].
      rewrite <- !app_assoc, length_app, length_rev, Nat.add_1_r in Hz. cbn [app] in Hz. rewrite Hz.
      cbn [mbind res_bind]. exists (rev rp ++ new :: suf), (z :: rest).
      split; [|split].
      * rewrite <- !app_assoc. cbn [app]. do 2 f_equal. rewrite length_app, length_rev. cbn. lia.
      * apply Forall2_app; [by apply forall2_rev|]. constructor; [|done]. split; [done|by exists x].
      * rewrite !length_app. cbn. rewrite !length_app. cbn. lia.
    + apply (proj1 (Z.compare_lt_iff _ _)) in Hcmp. rewrite (if_false (0 <? _)), (if_false (_ =? 0)) by lia.
      rewrite store_ok by done. cbn [mbind res_bind].
      destruct (IH (p :: suf) (sp :: ssuf) p) as (a & rest' & E & Ha & Hl).
      { constructor; [|done]. split; [done|by exists y]. }
      cbn [rev length] in E |- *. rewrite <- app_assoc. cbn [app] in E |- *.
      replace (S (length rp) + length suf)%nat with (length rp + S (length suf))%nat by lia.
      exists a, rest'. split; [exact E|]. split; [done|]. rewrite Hl. rewrite !length_app. cbn.
      rewrite !length_app. cbn. lia.
    + apply (proj1 (Z.compare_gt_iff _ _)) in Hcmp. rewrite if_true by lia.
      rewrite store_ok by done. cbn [mbind res_bind].
      exists (rev (p :: rp) ++ new :: suf), rest. split; [|split].
      * rewrite <- app_assoc. cbn [app]. do 2 f_equal. rewrite length_app, Hlen. cbn. lia.
      * apply Forall2_app; [apply (forall2_rev (str_is buf)); constructor; [|done]; split; [done|by exists y]|].
        constructor; [|done]. split; [done|by exists x].
      * rewrite <- app_assoc, !length_app. cbn [length]. rewrite length_app. lia.
Qed.

(** ** Copying and path fixing *)

(** The offset after the last ['='] that starts a drive path. *)
Fixpoint drive_path (s : list Z) : option nat :=
  match s with
  | [] => None
  | c :: s =>
      match drive_path s with
      | Some p => Some (S p)
      | None => if (c =? EQUALS) && (at_ s 0 =? SLASH) && isalpha (at_ s 1) && (at_ s 2 =? SLASH)
                then Some 1%nat else None
      end
  end.
(** A variable with its drive path written the Windows way. *)
Definition fix_value (s : list Z) : list Z :=
  match drive_path s with
  | None => s
  | Some p => take p s ++ mungentpath (drop p s)
  end.

Lemma copy_var_ok s buf path :
  Z.of_nat (length buf) + Z.of_nat (length s) + 1 <= 32766 ->
  copy_var s buf path =
  Ok (buf ++ s ++ [0], match drive_path s with Some p => Some (length buf + p)%nat | None => path end).
Proof.
  revert buf path. induction s as [|c s IH]; intros buf path Hlen; cbn [copy_var drive_path length] in *;
    rewrite if_false by (apply Z.ltb_ge; unfold ENV_MAX; lia); [done|].
  rewrite IH by (rewrite length_app; cbn; lia). rewrite <- app_assoc. cbn [app]. do 2 f_equal.
  destruct (drive_path s) as [p|]; rewrite length_app; cbn [length]; [f_equal; lia|].
  by destruct ((c =? EQUALS) && _ && _ && _).
Qed.

Lemma copy_var_big s buf path :
  32766 < Z.of_nat (length buf) + Z.of_nat (length s) + 1 -> copy_var s buf path = E2big.
Proof.
  revert buf path. induction s as [|c s IH]; intros buf path Hlen; cbn [copy_var length] in *; case_if; bool_prop; try done.
  - unfold ENV_MAX in *. lia.
  - apply IH. rewrite length_app. cbn. lia.
Qed.

Lemma drive_path_bound s p : drive_path s = Some p -> (1 <= p <= length s)%nat.
Proof.
  revert p. induction s as [|c s IH]; intros p; cbn [drive_path length]; [done|].
  destruct (drive_path s) as [q|]; [intros [= <-]; specialize (IH q eq_refl); lia|].
  case_if; [|done]. intros [= <-]. lia.
Qed.

Lemma munge_tail_fix buf s :
  munge_tail (buf ++ s ++ [0]) (match drive_path s with Some p => Some (length buf + p)%nat | None => None end)
  = buf ++ fix_value s ++ [0].
Proof.
  unfold fix_value. destruct (drive_path s) as [p|] eqn:E; [|done]. apply drive_path_bound in E.
  unfold munge_tail. rewrite take_app_add', drop_app_add' by done.
  rewrite take_app_le, drop_app_le by lia. rewrite removelast_last, <- !app_assoc. done.
Qed.

(** ** [mungentpath] keeps a string a string of the same length *)

Definition keeps (f : list Z -> list Z) : Prop :=
  forall s, length (f s) = length s /\ (cstring s -> cstring (f s)).

Lemma keeps_foldl (f : list Z -> nat -> list Z) l : (forall p, keeps (fun s => f s p)) -> keeps (fun s => foldl f s l).
Proof.
  intros Hf. induction l as [|p l IH]; intros s; [done|]. cbn.
  destruct (Hf p s) as [H1 H2], (IH (f s p)) as [H3 H4]. split; [congruence|auto].
Qed.

Lemma cstring_insert s i c : cstring s -> 0 < c < 256 -> cstring (<[i := c]> s).
Proof. intros. by apply Forall_insert. Qed.
Lemma isalpha_char c : isalpha c = true -> 0 < c < 256.
Proof. unfold isalpha. lia. Qed.

Ltac keeps_step :=
  intros ?; cbv beta; match goal with |- context [if ?b then _ else _] => destruct b eqn:? end;
  [bool_prop; split; [by rewrite ?length_insert|intros; repeat apply cstring_insert; auto using isalpha_char; lia]|done].

Lemma mungentpath_keeps : keeps mungentpath.
Proof.
  assert (forall p, keeps (fun s => munge_colon s p)) as H1 by (intros p; unfold munge_colon; keeps_step).
  assert (keeps munge_first) as H2 by (unfold munge_first; keeps_step).
  assert (forall p, keeps (fun s => munge_drive s p)) as H3 by (intros p; unfold munge_drive; keeps_step).
  assert (forall p, keeps (fun s => munge_slash s p)) as H4 by (intros p; unfold munge_slash; keeps_step).
  intros s. unfold mungentpath.
  destruct (keeps_foldl _ (seq 0 (length s)) H1 s) as [L1 C1]. set (s1 := foldl munge_colon _ _) in *.
  destruct (H2 s1) as [L2 C2]. set (s2 := munge_first s1) in *.
  destruct (keeps_foldl _ (seq 0 (length s2)) H3 s2) as [L3 C3]. set (s3 := foldl munge_drive _ _) in *.
  destruct (keeps_foldl _ (seq 0 (length s3)) H4 s3) as [L4 C4].
  split; [congruence|auto].
Qed.

Lemma fix_value_keeps : keeps fix_value.
Proof.
  intros s. unfold fix_value. destruct (drive_path s) as [p|] eqn:E; [|done]. apply drive_path_bound in E.
  destruct (mungentpath_keeps (drop p s)) as [Hl Hc]. split.
  - rewrite length_app, Hl, length_take, length_drop. lia.
  - intros Hs. rewrite <- (take_drop p s) in Hs. apply Forall_app in Hs as [? ?].
    apply Forall_app. split; [done|by apply Hc].
Qed.

Lemma key_app_eq a b c : EQUALS ∈ a -> key (a ++ b) = key (a ++ c).
Proof.
  induction a as [|x a IH]; [by intros ?%not_elem_of_nil|]. intros Hx. cbn.
  destruct (x =? EQUALS) eqn:E; [done|]. bool_prop. f_equal. apply IH.
  by apply elem_of_cons in Hx as [?|?].
Qed.

Lemma drive_path_equals s p : drive_path s = Some p -> EQUALS ∈ take p s.
Proof.
  revert p. induction s as [|c s IH]; intros p; cbn [drive_path]; [done|].
  destruct (drive_path s) as [q|].
  - intros [= <-]. cbn. apply elem_of_cons. right. by apply IH.
  - destruct ((c =? EQUALS) && _ && _ && _) eqn:E; [|done]. bool_prop. intros [= <-]. subst. cbn.
    apply elem_of_cons. by left.
Qed.

Lemma key_fix_value s : key (fix_value s) = key s.
Proof.
  unfold fix_value. destruct (drive_path s) as [p|] eqn:E; [|done].
  rewrite <- (take_drop p s) at 3. apply key_app_eq. by apply drive_path_equals.
Qed.

(** ** One insertion *)

Definition rep (env : EnvBuilder) (ss : list (list Z)) : Prop :=
  StronglySorted name_lt ss /\ Forall is_byte (buf env) /\
  exists offs rest, var env = offs ++ rest /\ length offs = vari env /\ Forall2 (str_is (buf env)) offs ss.

Lemma cstring_bytes s : cstring s -> Forall is_byte s.
Proof. apply List.Forall_impl. unfold is_byte. lia. Qed.

Lemma InsertString_ok env ss s :
  rep env ss -> cstring s -> (vari env < length (var env))%nat ->
  Z.of_nat (length (buf env)) + Z.of_nat (length s) + 1 <= 32766 ->
  exists env', InsertString env s = Ok env' /\ rep env' (env_set ss (fix_value s)) /\
    (length (buf env') = length (buf env) + (length s + 1))%nat /\
    length (var env') = length (var env) /\ (vari env' <= S (vari env))%nat.
Proof.
  intros (Hsort & Hbytes & offs & rest & Hvar & Hoffs & Hstr) Hs Hroom Hlen.
  unfold InsertString. rewrite copy_var_ok by done. cbn [mbind res_bind]. rewrite munge_tail_fix.
  set (b := buf env ++ fix_value s ++ [0]). destruct (fix_value_keeps s) as [Hfl Hfc]. specialize (Hfc Hs).
  destruct rest as [|g rest]; [rewrite Hvar, length_app in Hroom; cbn in Hroom; lia|].
  destruct (insert_sorted_ok b (length (buf env)) (fix_value s) (rev offs) [] g rest (rev ss) [])
    as (a & rest' & E & Ha & Hl).
  { split; [done|]. exists []. unfold b. by rewrite drop_app_length. }
  { apply forall2_rev. eapply Forall2_impl; [|exact Hstr]. intros o t Ho. by apply str_is_app. }
  { done. }
  rewrite rev_involutive, length_rev, Nat.add_0_r, Hoffs in E. cbn [app] in E. rewrite Hvar, E. cbn [mbind res_bind].
  rewrite ins_rev_spec in Ha by (rewrite ?rev_involutive, ?app_nil_r; done).
  rewrite rev_involutive, app_nil_r in Ha.
  eexists. split; [reflexivity|]. split; [split; [by apply env_set_sorted|split]|split; [|split]]; cbn.
  - apply Forall_app. split; [done|]. apply Forall_app. split; [by apply cstring_bytes|].
    repeat constructor; cbv; done.
  - by exists a, rest'.
  - unfold b. rewrite !length_app, Hfl. cbn. lia.
  - rewrite Hl, rev_involutive. cbn. done.
  - apply Forall2_length in Ha. rewrite Ha. clear -Hstr Hoffs. apply Forall2_length in Hstr.
    rewrite <- Hoffs, Hstr. clear. induction ss as [|x ss IH]; cbn; [lia|].
    destruct (lex _ _); cbn; lia.
Qed.

Lemma InsertString_big env s :
  32766 < Z.of_nat (length (buf env)) + Z.of_nat (length s) + 1 -> InsertString env s = E2big.
Proof. intros H. unfold InsertString. by rewrite copy_var_big. Qed.

(** Bytes a list of strings takes in the buffer. *)
Definition env_bytes (l : list (list Z)) : nat := foldr (fun s n => length s + 1 + n)%nat 0%nat l.

Definition env_of (l : list (list Z)) (ss : list (list Z)) : list (list Z) := foldl env_set ss (map fix_value l).

Lemma InsertStrings_ok l env ss :
  rep env ss -> Forall cstring l -> (vari env + length l <= length (var env))%nat ->
  Z.of_nat (length (buf env) + env_bytes l) <= 32766 ->
  exists env', InsertStrings env l = Ok env' /\ rep env' (env_of l ss) /\
    (length (buf env') = length (buf env) + env_bytes l)%nat /\
    length (var env') = length (var env) /\ (vari env' <= vari env + length l)%nat.
Proof.
  intros Hrep Hl. revert env ss Hrep.
  induction Hl as [|s l Hs Hl IH]; intros env ss Hrep Hroom Hlen; cbn [InsertStrings env_bytes foldr length] in *.
  - exists env. repeat split; try apply Hrep; try lia.
  - fold (env_bytes l) in *.
    destruct (InsertString_ok env ss s) as (env1 & -> & Hr1 & Hb1 & Hv1 & Hn1); [done|done|lia|lia|].
    destruct (IH env1 _ Hr1) as (env2 & E & Hr2 & Hb2 & Hv2 & Hn2); [lia|lia|].
    exists env2. repeat split; try apply Hr2; [done|lia|lia|lia].
Qed.

Lemma InsertStrings_big l env ss :
  rep env ss -> Forall cstring l -> (vari env + length l <= length (var env))%nat ->
  32766 < Z.of_nat (length (buf env) + env_bytes l) -> Z.of_nat (length (buf env)) <= 32766 ->
  InsertStrings env l = E2big.
Proof.
  intros Hrep Hl. revert env ss Hrep.
  induction Hl as [|s l Hs Hl IH]; intros env ss Hrep Hroom Hlen Hb; cbn [InsertStrings env_bytes foldr length] in *; [lia|].
  fold (env_bytes l) in *.
  destruct (decide (Z.of_nat (length (buf env)) + Z.of_nat (length s) + 1 <= 32766)) as [Hf|Hf].
  - destruct (InsertString_ok env ss s) as (env1 & -> & Hr1 & Hb1 & Hv1 & Hn1); [done|done|lia|lia|].
    apply (IH env1 _ Hr1); lia.
  - by rewrite InsertString_big by lia.
Qed.

Lemma InsertStrings_app env a b : InsertStrings env (a ++ b) = (env ← InsertStrings env a; InsertStrings env b).
Proof.
  revert env. induction a as [|s a IH]; intros env; [done|]. cbn.
  destruct (InsertString env s); cbn; [apply IH|done|done].
Qed.

(** ** Writing the block *)

(** A string as the transcoder writes it, with its terminator. *)
Definition wide (s : list Z) : list Z :=
  match tprecode8to16 Portable 0 (2 ^ 64 - 1) (at_ s) (S (length s)) with
  | Some r => ax_out r
  | None => []
  end.

Section agree.
Context (src src' : nat -> Z).
Definition agree (dx n : nat) : Prop := forall j, (j <= n)%nat -> src (dx + j)%nat = src' (dx + j)%nat.

Lemma cont8_agree dx n i k a :
  nul_at src dx n -> agree dx n -> (i <= n)%nat ->
  tprecode8to16_cont src dx i k a = tprecode8to16_cont src' dx i k a.
Proof.
  intros Hn Ha. revert i a. induction k as [|k IH]; intros i a Hi; [done|]. cbn [tprecode8to16_cont].
  rewrite <- (Ha i) by done. destruct (_ =? 0) eqn:E0; [done|]. destruct (negb _); [done|].
  destruct (k =? 0)%nat; [done|]. apply IH. assert (i <> n); [|lia]. intros ->.
  destruct Hn as [Hz _]. rewrite Hz in E0. done.
Qed.

Lemma turn8_agree dx n :
  nul_at src dx n -> agree dx n -> tprecode8to16_turn src dx = tprecode8to16_turn src' dx.
Proof.
  intros Hn Ha. unfold tprecode8to16_turn. pose proof (Ha 0%nat ltac:(lia)) as H0. rewrite Nat.add_0_r in H0.
  rewrite <- H0. destruct n as [|n].
  - destruct Hn as [Hz _]. rewrite Nat.add_0_r in Hz. by rewrite Hz.
  - case_if; [|done].
    rewrite (cont8_agree (dx + 1) n); [done| | |lia].
    + replace n with (S n - 1)%nat by lia. apply nul_at_advance; [done|lia].
    + intros j Hj. rewrite <- Nat.add_assoc. apply Ha. lia.
Qed.

Lemma recode8_agree n f out dx store :
  nul_at src dx n -> agree dx n ->
  recode_loop (tprecode8to16_turn src) store scalar_only f out dx =
  recode_loop (tprecode8to16_turn src') store scalar_only f out dx.
Proof.
  revert n out dx. induction f as [|f IH]; intros n out dx Hn Ha; [done|]. cbn [recode_loop scalar_only].
  rewrite <- (turn8_agree dx n Hn Ha). pose proof (turn8_progress src dx n Hn) as Hp.
  destruct (tprecode8to16_turn src dx) as [[| |x] dx']; [done| |];
    (apply (IH (n - (dx' - dx))%nat);
     [replace dx' with (dx + (dx' - dx))%nat by lia; replace (n - _)%nat with (n - (dx' - dx))%nat by lia;
      apply nul_at_advance; [done|lia]
     |intros j Hj; replace (dx' + j)%nat with (dx + (dx' - dx + j))%nat by lia; apply Ha; lia]).
Qed.
End agree.

(** A turn stores no more shorts than the bytes it takes. *)
Lemma cont8_moves src dx i k a a' dx' :
  tprecode8to16_cont src dx i k a = Some (a', dx') -> (dx < dx')%nat.
Proof.
  revert i a. induction k as [|k IH]; intros i a; [done|]. cbn [tprecode8to16_cont].
  destruct (_ =? 0); [done|]. destruct (negb _); [done|].
  destruct (k =? 0)%nat; [intros [= _ <-]; lia|apply IH].
Qed.

Lemma turn8_units src dx x dx' size out :
  (forall i, is_byte (src i)) -> tprecode8to16_turn src dx = (Emit x, dx') ->
  (length (tprecode8to16_store size out x) + dx <= length out + dx')%nat.
Proof.
  intros Hb Ht.
  assert (forall n w o, (length (store16_loop n size o w) <= length o + n)%nat) as Hstore.
  { induction n as [|n IH]; intros w o; cbn [store16_loop]; [lia|]. case_if; [|lia].
    specialize (IH (Z.shiftr w 16) (o ++ [u16 w])). rewrite length_app in IH. cbn in IH. lia. }
  unfold tprecode8to16_store.
  assert ((dx' = dx + 1)%nat /\ 0 < x < 256 \/ (dx + 2 <= dx')%nat) as [[-> Hx]|Hd].
  { revert Ht. unfold tprecode8to16_turn. rewrite byte_land by auto. specialize (Hb dx). unfold is_byte in Hb.
    case_if; [destruct (tprecode8to16_cont _ _ _ _ _) as [[a d]|] eqn:Ec; [apply cont8_moves in Ec|]|];
      case_if; intros [= <- <-]; bool_prop; lia. }
  - rewrite EncodeUtf16_bmp by lia. rewrite u32_small by lia. cbn [store16_loop].
    case_if; [|lia]. change (Z.shiftr x 16) with (Z.shiftr x 16). rewrite shiftr_div by lia.
    replace (x / 2 ^ 16) with 0 by (symmetry; apply Z.div_small; lia). cbn. rewrite length_app. cbn. lia.
  - specialize (Hstore 2%nat (u32 (EncodeUtf16 x)) out). lia.
Qed.

Lemma recode8_units src f out dx r size :
  (forall i, is_byte (src i)) -> forall n, nul_at src dx n ->
  recode_loop (tprecode8to16_turn src) (tprecode8to16_store size) scalar_only f out dx = Some r ->
  (length r.1 <= length out + n)%nat.
Proof.
  intros Hb. revert out dx. induction f as [|f IH]; intros out dx n Hn; [done|]. cbn [recode_loop scalar_only].
  pose proof (turn8_progress src dx n Hn) as Hp.
  destruct (tprecode8to16_turn src dx) as [[| |x] dx'] eqn:E; intros Hr.
  - injection Hr as <-. cbn. lia.
  - apply (IH _ _ (n - (dx' - dx))%nat) in Hr; [lia|].
    replace dx' with (dx + (dx' - dx))%nat at 1 by lia. apply nul_at_advance; [done|lia].
  - pose proof (turn8_units src dx x dx' size out Hb E). apply (IH _ _ (n - (dx' - dx))%nat) in Hr; [lia|].
    replace dx' with (dx + (dx' - dx))%nat at 1 by lia. apply nul_at_advance; [done|lia].
Qed.

Lemma recode_wide v addr buf off s :
  Forall is_byte buf -> str_is buf off s ->
  exists r, tprecode8to16 v addr (2 ^ 64 - 1) (fun i => at_ buf (off + i)) (S (length buf)) = Some r /\
    ax_out r = wide s /\ (length (wide s) <= length s + 1)%nat.
Proof.
  intros Hb [Hs [rest Hr]]. set (src := fun i => at_ buf (off + i)).
  assert (forall i, (i <= length s)%nat -> src i = at_ s i) as Hsrc.
  { intros i Hi. unfold src, at_. rewrite <- nth_skipn.
    change (skipn off buf) with (drop off buf). rewrite Hr. destruct (decide (i = length s)) as [->|].
    - rewrite app_nth2, Nat.sub_diag by lia. symmetry. apply nth_overflow. lia.
    - apply app_nth1. lia. }
  assert (nul_at src 0 (length s)) as Hnul.
  { split; [rewrite Hsrc by lia; by apply nth_overflow|]. intros j Hj. rewrite Hsrc by lia.
    cbn. unfold at_. eapply (List.Forall_nth _ s) with (i := j) (d := 0) in Hs; [lia|lia]. }
  assert (forall i, is_byte (src i)) as Hsb.
  { intros i. unfold src, at_. destruct (nth_in_or_default (off + i) buf 0) as [Hin| ->]; [|cbv; done].
    rewrite List.Forall_forall in Hb. auto. }
  assert (length s < length buf)%nat as Hlen.
  { apply (f_equal length) in Hr. rewrite length_drop, length_app in Hr. cbn in Hr. lia. }
  unfold tprecode8to16, wide.
  destruct (recode_loop_vector src (tprecode8to16_turn src) (tprecode8to16_store (2 ^ 64 - 1))
    (tprecode8to16_vector v addr (2 ^ 64 - 1) src) (turn8_progress src)
    (vector8_runs v addr (2 ^ 64 - 1) src Hsb) (length s) (S (length buf)) (S (length s)) [] 0 Hnul
    ltac:(lia) ltac:(lia)) as (r & E1 & E2).
  exists (finish (2 ^ 64 - 1) r). rewrite E1. split; [done|].
  pose proof (recode8_units src _ _ _ _ _ Hsb _ Hnul E2) as Hu. cbn [length] in Hu.
  rewrite (recode8_agree src (at_ s) (length s)) in E2;
    [|done|intros j Hj; by apply Hsrc].
  unfold tprecode8to16. change (tprecode8to16_vector Portable 0 (2 ^ 64 - 1) (at_ s)) with scalar_only.
  rewrite E2. cbn [fmap option_fmap option_map]. split; [done|].
  unfold finish. cbn [ax_out]. case_if; [rewrite length_app; cbn; lia|lia].
Qed.

Lemma write_block_ok v addr buf offs ss out :
  Forall is_byte buf -> Forall2 (str_is buf) offs ss ->
  write_block v addr buf offs out = Ok (out ++ concat (map wide ss)).
Proof.
  intros Hb Hss. revert out. induction Hss as [|o s offs ss Ho Hss IH]; intros out; cbn [write_block map concat].
  - by rewrite app_nil_r.
  - destruct (recode_wide v (addr + Z.of_nat o) buf o s Hb Ho) as (r & -> & Hw & _). cbn [of_option mbind res_bind].
    by rewrite IH, Hw, app_assoc.
Qed.

Lemma env_bytes_cons s l : env_bytes (s :: l) = (length s + 1 + env_bytes l)%nat.
Proof. done. Qed.

Lemma env_set_bytes l s :
  (env_bytes (env_set l s) <= env_bytes l + (length s + 1))%nat.
Proof.
  induction l as [|x l IH]; cbn [env_set]; [cbn; lia|].
  destruct (lex _ _); rewrite ?env_bytes_cons in *; lia.
Qed.

Lemma env_of_bytes l ss : (env_bytes (env_of l ss) <= env_bytes ss + env_bytes l)%nat.
Proof.
  unfold env_of. revert ss. induction l as [|s l IH]; intros ss; cbn [map foldl]; [lia|]. rewrite env_bytes_cons.
  specialize (IH (env_set ss (fix_value s))). pose proof (env_set_bytes ss (fix_value s)).
  destruct (fix_value_keeps s) as [Hl _]. lia.
Qed.

Lemma wide_bytes ss : Forall cstring ss -> (length (concat (map wide ss)) <= env_bytes ss)%nat.
Proof.
  induction 1 as [|s ss Hs Hss IH]; cbn; [lia|]. fold (env_bytes ss). rewrite length_app.
  destruct (recode_wide Portable 0 (s ++ [0]) 0 s) as (r & _ & _ & H); [| |lia].
  - apply Forall_app. split; [by apply cstring_bytes|]. repeat constructor; cbv; done.
  - split; [done|]. by exists [].
Qed.

(** * Properties *)

(** The variables a call inserts: those given, then [SYSTEMROOT] of the caller. *)
Definition systemroot (environ : option (list (list Z))) : list (list Z) :=
  match environ with
  | None => []
  | Some e => match __getenv e SYSTEMROOT with
              | None => []
              | Some i => match e !! i with Some s => [s] | None => [] end
              end
  end.

Lemma getenv_loop_lookup p k i j : getenv_loop p k i = Some j -> exists s, (j >= i)%nat /\ p !! (j - i)%nat = Some s.
Proof.
  revert i. induction p as [|t p IH]; intros i; [done|]. cbn [getenv_loop]. case_if.
  - intros [= <-]. exists t. rewrite Nat.sub_diag. split; [lia|done].
  - intros H. destruct (IH _ H) as (s & Hj & Hs). exists s. split; [lia|].
    replace (j - i)%nat with (S (j - S i)) by lia. done.
Qed.

(** The environment that setting variables in order gives is strictly sorted by name
    and binds each name to its last definition. *)
Lemma env_of_sorted_last_wins l :
  StronglySorted name_lt (env_of l []) /\
  forall k, List.find (named k) (env_of l []) = fix_value <$> List.find (named k) (rev l).
Proof.
  induction l as [|s l IH] using rev_ind; [split; [constructor|done]|].
  unfold env_of in *. rewrite map_app, foldl_app. cbn [map foldl]. destruct IH as [Hs Hf].
  split; [by apply env_set_sorted|]. intros k. rewrite env_set_find by done.
  rewrite rev_unit. cbn [List.find]. rewrite Hf.
  unfold named at 1 3. rewrite key_fix_value. by case_bool_decide.
Qed.


Definition sample_env : list (list Z) :=
  [ascii_codes "B=1"%string; ascii_codes "A=/c/x"%string; ascii_codes "B=2"%string].

