(* ===== verification/DosEnv.v ===== *)
(** Decoding the Windows environment block: [libc/runtime/getdosenviron.c].

    The block and the output buffer are lists, and an access outside either is
    [OutOfBounds]. [OutOfFuel] marks a loop that did not finish. *)
From S2P Require Import Prelude Utf Recode NtArgs.

Inductive outcome (A : Type) := Done (a : A) | OutOfBounds | OutOfFuel.
Arguments Done {A} a.
Arguments OutOfBounds {A}.
Arguments OutOfFuel {A}.
#[export] Instance outcome_bind : MBind outcome := fun A B f r =>
  match r with Done a => f a | OutOfBounds => OutOfBounds | OutOfFuel => OutOfFuel end.
Definition access {A} (o : option A) : outcome A := match o with Some a => Done a | None => OutOfBounds end.

Definition ToUpper (c : Z) : Z := if (0x61 <=? c) && (c <=? 0x7A) then c - 0x61 + 0x41 else c.
Definition IsAlpha (c : Z) : bool := ((0x41 <=? c) && (c <=? 0x5A)) || ((0x61 <=? c) && (c <=? 0x7A)).

(** The offset of the first [c] among the first [n] bytes. *)
Fixpoint MemChr (s : list Z) (c : Z) (n : nat) : option nat :=
  match n, s with
  | S n, x :: s => if Z.land x 255 =? c then Some O else S <$> MemChr s c n
  | _, _ => None
  end.

(** [do { if (ax + 1 < dstsize) dst[ax++] = w; else break; } while ((w >>= 8))] *)
Fixpoint Recode16to8_store (n : nat) (dstsize : Z) (out : list Z) (w : Z) : list Z :=
  match n with
  | O => out
  | S n =>
      if Z.of_nat (length out) + 1 <? dstsize then
        let out := out ++ [u8 w] in
        let w := Z.shiftr w 8 in
        if w =? 0 then out else Recode16to8_store n dstsize out w
      else out
  end.

(** [Recode16to8]'s loop: the bytes stored at [dst] and the shorts read. *)
Fixpoint Recode16to8_loop (fuel : nat) (dstsize : Z) (src : list Z) (v : bool) (out : list Z) (dx : nat)
    : outcome (list Z * nat) :=
  match fuel with
  | O => OutOfFuel
  | S fuel =>
      x ← access (src !! dx);
      let dx := S dx in
      if x =? 0 then Done (out, dx)
      else
        '(x, dx) ← (if negb (IsUcs2 x) then y ← access (src !! dx); Done (u32 (MergeUtf16 x y), S dx)
                    else Done (x, dx));
        let '(v, x) := if negb v then (if x =? EQUALS then (true, x) else (false, ToUpper x)) else (v, x) in
        Recode16to8_loop fuel dstsize src v (Recode16to8_store 8 dstsize out (tpenc x)) dx
  end.
(** The stored bytes with their terminator when it fits, [ax] and [dx]. *)
Definition Recode16to8 (dstsize : Z) (src : list Z) : outcome axdx :=
  r ← Recode16to8_loop (S (length src)) dstsize src false [] 0;
  Done (finish dstsize r).

(** [FixPath], in place. *)
Definition fix_backslash (path : list Z) (p : nat) : list Z :=
  if at_ path p =? BSLASH then <[p := SLASH]> path else path.
Definition fix_first (path : list Z) : list Z :=
  if IsAlpha (at_ path 0) && (at_ path 1 =? COLON) && (at_ path 2 =? SLASH)
  then <[0%nat := SLASH]> (<[1%nat := at_ path 0]> path) else path.
Definition fix_drive (path : list Z) (p : nat) : list Z :=
  if (at_ path p =? SEMI) && IsAlpha (at_ path (p + 1)) && (at_ path (p + 2) =? COLON)
     && (at_ path (p + 3) =? SLASH)
  then <[(p + 1)%nat := SLASH]> (<[(p + 2)%nat := at_ path (p + 1)]> path) else path.
Definition fix_semi (path : list Z) (p : nat) : list Z :=
  if at_ path p =? SEMI then <[p := COLON]> path else path.
Definition FixPath (path : list Z) : list Z :=
  let path := foldl fix_backslash path (seq 0 (length path)) in
  let path := fix_first path in
  let path := foldl fix_drive path (seq 0 (length path)) in
  foldl fix_semi path (seq 0 (length path)).

(** [n] bytes stored at [pos]. *)
Definition write (mem : list Z) (pos : nat) (l : list Z) : outcome (list Z) :=
  if (pos + length l <=? length mem)%nat then Done (take pos mem ++ l ++ drop (pos + length l) mem)
  else match l with [] => Done mem | _ => OutOfBounds end.

(** The NUL-terminated string at [pos]. *)
Fixpoint string_at (mem : list Z) : list Z :=
  match mem with
  | [] => []
  | c :: mem => if c =? 0 then [] else c :: string_at mem
  end.

(** What follows [Recode16to8]: the value's path is fixed when it starts with a drive. *)
Definition fix_variable (mem : list Z) (pos ax : nat) : outcome (list Z) :=
  match MemChr (drop pos mem) EQUALS ax with
  | None => Done mem
  | Some p =>
      let s := drop (pos + p + 1) mem in
      if IsAlpha (at_ s 0) && (at_ s 1 =? COLON) && ((at_ s 2 =? BSLASH) || (at_ s 2 =? SLASH))
      then write mem (pos + p + 1) (FixPath (string_at s))
      else Done mem
  end.

(** [GetDosEnviron]'s loop; [envp] holds the stored pointers as offsets. *)
Fixpoint environ_loop (fuel : nat) (env : list Z) (mem : list Z) (pos : nat) (size : Z)
    (envp : list nat) (max : Z) : outcome (list nat * list Z) :=
  match fuel with
  | O => OutOfFuel
  | S fuel =>
      c ← access (env !! 0%nat);
      if c =? 0 then Done (envp, mem)
      else
        let envp := if Z.of_nat (length envp) + 1 <? max then envp ++ [pos] else envp in
        r ← Recode16to8 size env;
        mem ← write mem pos (ax_out r);
        mem ← fix_variable mem pos (ax r);
        environ_loop fuel (drop (dx r) env) mem (pos + ax r + 1) (u64 (size - (Z.of_nat (ax r) + 1))) envp max
  end.

(** [GetDosEnviron(env, buf, size, envp, max)] with [size] the length of the buffer. *)
Definition GetDosEnviron (env buf : list Z) (max : Z) : outcome (list nat * list Z) :=
  environ_loop (S (length env)) env buf 0 (u64 (Z.of_nat (length buf) - 1)) [] max.

Example GetDosEnviron_runs :
  GetDosEnviron (ascii_codes "Path=C:\a;D:\b"%string ++ [0] ++ ascii_codes "x=1"%string ++ [0; 0])
    (replicate 24 0xAA) 10
  = Done ([0; 15]%nat, ascii_codes "PATH=/C/a:/D/b"%string ++ [0] ++ ascii_codes "X=1"%string ++ [0] ++ replicate 5 0xAA).
Proof. vm_compute. reflexivity. Qed.

(** A variable that fills the buffer leaves no room; the next one makes [size] wrap
    around, and the one after is stored past the end. *)
Example GetDosEnviron_overruns :
  GetDosEnviron (ascii_codes "PATH=0123456789"%string ++ [0] ++ ascii_codes "X=1"%string ++ [0] ++
                 ascii_codes "Y=2"%string ++ [0; 0]) (replicate 8 0xAA) 10 = OutOfBounds.
Proof. vm_compute. reflexivity. Qed.

(** A lone surrogate at the end of the block takes the terminator for its pair. *)
Example GetDosEnviron_lone_surrogate :
  GetDosEnviron (ascii_codes "X="%string ++ [0xD800; 0; 0]) (replicate 64 0xAA) 10 = OutOfBounds.
Proof. vm_compute. reflexivity. Qed.
