(* ===== verification/DosEnvFacts.v ===== *)
(** Drive paths survive the trip to Windows and back, and the environment block decodes
    to its variables when the buffer has room. *)
From S2P Require Import Prelude Utf Recode NtArgs DosEnv.

(** * In-place passes as functions on the rest of the string *)

Section pass.
Context (f : list Z -> nat -> list Z) (hd' : Z -> list Z -> Z) (tl' : Z -> list Z -> list Z).
Context (Hf : forall pre c s, f (pre ++ c :: s) (length pre) = pre ++ hd' c s :: tl' c s).
Context (Hlen : forall c s, length (tl' c s) = length s).

Fixpoint run (n : nat) (s : list Z) : list Z :=
  match n, s with
  | S n, c :: s => hd' c s :: run n (tl' c s)
  | _, _ => s
  end.

Lemma pass_run pre s : foldl f (pre ++ s) (seq (length pre) (length s)) = pre ++ run (length s) s.
Proof.
  remember (length s) as n eqn:Hn. revert pre s Hn. induction n as [|n IH]; intros pre s Hn.
  - destruct s; [done|cbn in Hn; lia].
  - destruct s as [|c s]; [cbn in Hn; lia|]. cbn [seq foldl run].
    rewrite Hf. replace (pre ++ hd' c s :: tl' c s) with ((pre ++ [hd' c s]) ++ tl' c s) by (by rewrite <- app_assoc).
    replace (S (length pre)) with (length (pre ++ [hd' c s])) by (rewrite length_app; cbn; lia).
    rewrite IH by (rewrite Hlen; cbn in Hn; lia). by rewrite <- app_assoc.
Qed.

Lemma pass_run0 s : foldl f s (seq 0 (length s)) = run (length s) s.
Proof. apply (pass_run []). Qed.
End pass.

Lemma run_map g n s : length s = n -> run (fun c _ => g c) (fun _ s => s) n s = map g s.
Proof. intros <-. induction s as [|c s IH]; [done|]. cbn. by rewrite IH. Qed.

Lemma at_app pre s i : at_ (pre ++ s) (length pre + i) = at_ s i.
Proof. unfold at_. rewrite app_nth2 by lia. f_equal. lia. Qed.
Lemma insert_app pre (s : list Z) i v : <[(length pre + i)%nat := v]> (pre ++ s) = pre ++ <[i := v]> s.
Proof. by rewrite insert_app_r. Qed.
Lemma at_app0 pre s : at_ (pre ++ s) (length pre) = at_ s 0.
Proof. rewrite <- (Nat.add_0_r (length pre)). apply at_app. Qed.
Lemma insert_app0 pre (s : list Z) v : <[length pre := v]> (pre ++ s) = pre ++ <[0%nat := v]> s.
Proof. rewrite <- (Nat.add_0_r (length pre)). apply insert_app. Qed.

Ltac local_pass := intros ? ? ?; cbv beta delta [munge_colon munge_drive munge_slash fix_backslash fix_drive fix_semi];
  rewrite ?at_app, ?at_app0; unfold at_; cbn [nth]; case_if; rewrite ?insert_app, ?insert_app0; done.

(** ** The four simple passes *)

Definition subst (a b c : Z) : Z := if c =? a then b else c.

Lemma slash_pass s : foldl munge_slash s (seq 0 (length s)) = map (subst SLASH BSLASH) s.
Proof.
  rewrite (pass_run0 _ (fun c _ => subst SLASH BSLASH c) (fun _ s => s)); [by apply run_map| |done].
  unfold subst. local_pass.
Qed.
Lemma backslash_pass s : foldl fix_backslash s (seq 0 (length s)) = map (subst BSLASH SLASH) s.
Proof.
  rewrite (pass_run0 _ (fun c _ => subst BSLASH SLASH c) (fun _ s => s)); [by apply run_map| |done].
  unfold subst. local_pass.
Qed.
Lemma semi_pass s : foldl fix_semi s (seq 0 (length s)) = map (subst SEMI COLON) s.
Proof.
  rewrite (pass_run0 _ (fun c _ => subst SEMI COLON c) (fun _ s => s)); [by apply run_map| |done].
  unfold subst. local_pass.
Qed.
Lemma colon_pass s :
  Forall (fun c => c <> BSLASH) s -> foldl munge_colon s (seq 0 (length s)) = map (subst COLON SEMI) s.
Proof.
  intros Hs.
  rewrite (pass_run0 _ (fun c s => if (c =? COLON) && negb (at_ s 0 =? BSLASH) then SEMI else c) (fun _ s => s)); [| |done].
  - induction Hs as [|c s Hc Hs IH]; [done|]. cbn [length run map]. rewrite IH. f_equal.
    assert (negb (at_ s 0 =? BSLASH) = true) as ->; [|by rewrite andb_true_r].
    destruct Hs; [done|]. cbn. by apply negb_true_iff, Z.eqb_neq.
  - local_pass.
Qed.

(** ** Drive letters *)

(** The rest of the string after [';'], with a leading [/c/] as [c:/] and back. *)
Definition to_drive (c : Z) (s : list Z) : list Z :=
  match s with
  | x :: a :: y :: r => if (c =? SEMI) && (x =? SLASH) && isalpha a && (y =? SLASH) then a :: COLON :: y :: r else s
  | _ => s
  end.
Definition of_drive (c : Z) (s : list Z) : list Z :=
  match s with
  | a :: x :: y :: r => if (c =? SEMI) && IsAlpha a && (x =? COLON) && (y =? SLASH) then SLASH :: a :: y :: r else s
  | _ => s
  end.

Lemma to_drive_length c s : length (to_drive c s) = length s.
Proof. unfold to_drive. destruct s as [|x [|a [|y r]]]; try done. by case_if. Qed.
Lemma of_drive_length c s : length (of_drive c s) = length s.
Proof. unfold of_drive. destruct s as [|x [|a [|y r]]]; try done. by case_if. Qed.

(** A test that looks past the end of the string fails. *)
Ltac short :=
  rewrite if_false; [done|]; apply not_true_is_false; intros ?; bool_prop; unfold isalpha, IsAlpha in *; lia.

Lemma drive_pass s : foldl munge_drive s (seq 0 (length s)) = run (fun c _ => c) to_drive (length s) s.
Proof.
  apply pass_run0; [|apply to_drive_length]. intros pre c s'. unfold munge_drive.
  rewrite !at_app, at_app0. unfold to_drive, at_.
  destruct s' as [|x [|a [|y r]]]; cbn [nth]; try short.
  case_if; [|done]. by rewrite !insert_app.
Qed.
Lemma fix_drive_pass s : foldl fix_drive s (seq 0 (length s)) = run (fun c _ => c) of_drive (length s) s.
Proof.
  apply pass_run0; [|apply of_drive_length]. intros pre c s'. unfold fix_drive.
  rewrite !at_app, at_app0. unfold of_drive, at_.
  destruct s' as [|x [|a [|y r]]]; cbn [nth]; try short.
  case_if; [|done]. by rewrite !insert_app.
Qed.

Lemma munge_first_drive s : munge_first s = to_drive SEMI s.
Proof.
  unfold munge_first, to_drive, at_. destruct s as [|x [|a [|y r]]]; cbn [nth]; try short. done.
Qed.
Lemma fix_first_drive s : fix_first s = of_drive SEMI s.
Proof.
  unfold fix_first, of_drive, at_. destruct s as [|x [|a [|y r]]]; cbn [nth]; try short. done.
Qed.

Abbreviation to_drives := (run (fun c _ => c) to_drive).
Abbreviation of_drives := (run (fun c _ => c) of_drive).

Lemma drives_length n s : length (to_drives n s) = length s.
Proof.
  revert s. induction n as [|n IH]; intros s; [done|]. destruct s as [|c s]; [done|]. cbn.
  by rewrite IH, to_drive_length.
Qed.

Lemma to_drive_skip c s : c <> SEMI -> to_drive c s = s.
Proof. intros. unfold to_drive. destruct s as [|x [|a [|y r]]]; try done. by rewrite (proj2 (Z.eqb_neq c SEMI)). Qed.

(** Undoing the drive letters of a string without colons. *)
Lemma of_to_drives n s : length s = n -> Forall (fun c => c <> COLON) s -> of_drives n (to_drives n s) = s.
Proof.
  revert s. induction n as [|n IH]; intros [|c s] Hn Hs; try done. cbn [run].
  apply List.Forall_cons_iff in Hs as [Hc Hs]. f_equal. cbn in Hn.
  rewrite <- (IH s) at 2; [|lia|done]. f_equal.
  destruct s as [|x [|a [|y r]]].
  - destruct n; cbn in Hn; [done|lia].
  - destruct n as [|[|n]]; cbn in Hn; try lia; done.
  - destruct n as [|[|[|n]]]; cbn in Hn; try lia; done.
  - destruct n as [|[|[|n]]]; [cbn in Hn; lia..|]. cbn [to_drive]. case_if; bool_prop.
    + subst. assert (a <> SEMI) by (unfold isalpha in *; lia).
      do 3 (cbn [run]; rewrite ?to_drive_skip by done). cbn [of_drive].
      rewrite if_true; [done|]. rewrite !andb_true_iff. unfold isalpha, IsAlpha in *. done.
    + assert (of_drive c (to_drives (S (S (S n))) (x :: a :: y :: r)) = to_drives (S (S (S n))) (x :: a :: y :: r)) as ->; [|done].
      destruct (decide (x = SEMI)) as [->|Hx].
      * cbn [run]. destruct (to_drive SEMI (a :: y :: r)) as [|p q]; [done|]. cbn [run].
        destruct (to_drive p q); [done|]. cbn [run of_drive]. rewrite if_false; [done|].
        change (IsAlpha SEMI) with false. by rewrite andb_false_r.
      * cbn [run]. rewrite (to_drive_skip x) by done. cbn [run].
        destruct (to_drive a (y :: r)); [done|]. cbn [run of_drive].
        rewrite if_false; [done|]. apply List.Forall_cons_iff in Hs as [_ [Ha _]%List.Forall_cons_iff].
        rewrite (proj2 (Z.eqb_neq a COLON)) by done. by rewrite andb_false_r.
Qed.

Lemma map_subst_inv a b s : Forall (fun c => c <> b) s -> map (subst b a) (map (subst a b) s) = s.
Proof.
  induction 1 as [|c s Hc Hs IH]; [done|]. cbn [map]. rewrite IH. f_equal. cbv beta in Hc. unfold subst.
  destruct (c =? a) eqn:?; bool_prop; case_ifs.
Qed.
Lemma map_subst_none a b s : a <> b -> Forall (fun c => c <> a) (map (subst a b) s).
Proof. intros H. induction s as [|c s IH]; constructor; [|done]. unfold subst. case_ifs. Qed.
Lemma map_subst_keeps a b x s : b <> x -> Forall (fun c => c <> x) s -> Forall (fun c => c <> x) (map (subst a b) s).
Proof. intros H. induction 1 as [|c s Hc Hs IH]; constructor; [|done]. cbv beta in Hc. unfold subst. case_ifs. Qed.

Lemma to_drive_keeps (P : Z -> Prop) c s : P COLON -> Forall P s -> Forall P (to_drive c s).
Proof.
  intros Hcol Hs. unfold to_drive. destruct s as [|x [|a [|y r]]]; try done. case_if; [|done].
  apply List.Forall_cons_iff in Hs as [_ [? ?]%List.Forall_cons_iff].
  constructor; [done|]. by constructor.
Qed.
Lemma drives_keep (P : Z -> Prop) n s : P COLON -> Forall P s -> Forall P (to_drives n s).
Proof.
  intros Hcol. revert s. induction n as [|n IH]; intros [|c s] Hs; try done. cbn [run].
  apply List.Forall_cons_iff in Hs as [Hc Hs]. constructor; [done|]. by apply IH, to_drive_keeps.
Qed.

(** A path list without semicolons and backslashes that is rewritten for Windows by
    mungentpath comes back unchanged through FixPath: [/c/...] becomes a drive letter and
    returns, colons become semicolons and return. *)
Theorem FixPath_mungentpath path :
  Forall (fun c => c <> SEMI /\ c <> BSLASH) path -> FixPath (mungentpath path) = path.
Proof.
  intros Hp.
  assert (Forall (fun c => c <> SEMI) path) as Hsemi by (revert Hp; apply List.Forall_impl; tauto).
  assert (Forall (fun c => c <> BSLASH) path) as Hbs by (revert Hp; apply List.Forall_impl; tauto).
  unfold mungentpath, FixPath. rewrite colon_pass by done. set (q := map (subst COLON SEMI) path).
  assert (Forall (fun c => c <> COLON) q) as Hq by (by apply map_subst_none).
  assert (Forall (fun c => c <> BSLASH) q) as Hqb by (by apply map_subst_keeps).
  rewrite munge_first_drive, drive_pass, slash_pass, backslash_pass.
  rewrite map_subst_inv by (by apply drives_keep; [|apply to_drive_keeps]).
  rewrite fix_first_drive, fix_drive_pass, semi_pass.
  assert (of_drives (S (length q)) (to_drives (S (length q)) (SEMI :: q)) = SEMI :: q) as E.
  { apply of_to_drives; [done|]. by constructor. }
  cbn [run] in E. injection E as E.
  rewrite of_drive_length, drives_length, to_drive_length, E. by apply map_subst_inv.
Qed.

Lemma FixPath_mungentpath_witness :
  FixPath (mungentpath (ascii_codes "/c/bin:/d/x y:rel:/e"%string)) = ascii_codes "/c/bin:/d/x y:rel:/e"%string.
Proof.
  apply (FixPath_mungentpath (ascii_codes "/c/bin:/d/x y:rel:/e"%string)).
  apply (bool_decide_unpack _). vm_compute. reflexivity.
Defined.

(** * Decoding a block *)

(** The name is upper-cased up to the first ['=']. *)
Fixpoint upper (cs : list Z) : list Z :=
  match cs with
  | [] => []
  | c :: cs => if c =? EQUALS then c :: cs else ToUpper c :: upper cs
  end.
(** A variable's bytes, with the path of its value in Unix form when it starts with a drive. *)
Definition unix_value (s : list Z) : list Z :=
  match MemChr s EQUALS (length s) with
  | None => s
  | Some p =>
      let t := drop (p + 1) s in
      if IsAlpha (at_ t 0) && (at_ t 1 =? COLON) && ((at_ t 2 =? BSLASH) || (at_ t 2 =? SLASH))
      then take (p + 1) s ++ FixPath t else s
  end.
Definition dos_var (cs : list Z) : list Z := unix_value (utf8s (upper cs)).

Lemma ToUpper_scalar c : scalar c -> scalar (ToUpper c).
Proof. unfold scalar, ToUpper. case_ifs. Qed.
Lemma upper_scalar cs : Forall scalar cs -> Forall scalar (upper cs).
Proof. induction 1; cbn; [done|]. case_if; constructor; auto using ToUpper_scalar. Qed.

Lemma Recode16to8_store_while n size out w :
  w <> 0 -> Recode16to8_store n size out w = store8_loop n size out w.
Proof.
  revert out w. induction n as [|n IH]; intros out w Hw; [done|]. cbn [Recode16to8_store store8_loop].
  rewrite (proj2 (Z.eqb_neq w 0) Hw). cbn [negb andb].
  change 0xFF with (2 ^ 8 - 1). rewrite land_mask by lia. change (w mod 2 ^ 8) with (u8 w).
  case_if; [|done]. case_if; bool_prop; [|by apply IH].
  destruct n; [done|]. cbn [store8_loop]. by rewrite (proj2 (Z.eqb_eq _ 0)).
Qed.

Lemma tpenc_nonzero c : scalar c -> tpenc c <> 0.
Proof.
  unfold scalar. intros Hc. destruct (decide (c < 128)); [rewrite tpenc_1byte; lia|].
  destruct (decide (c < 2 ^ 11)); [rewrite tpenc_2byte; lia|].
  destruct (decide (c < 2 ^ 16)); [rewrite tpenc_3byte; lia|rewrite tpenc_4byte; lia].
Qed.

Lemma recode_store size out c :
  scalar c -> Z.of_nat (length out + length (utf8 c)) < size ->
  Recode16to8_store 8 size out (tpenc c) = out ++ utf8 c.
Proof.
  intros Hc Hs. rewrite Recode16to8_store_while by (by apply tpenc_nonzero).
  apply (store8_utf8 size out c); [unfold scalar in Hc; lia|done].
Qed.

(** One turn of the loop at a code point. *)
Lemma recode_turn f size pre c s v out :
  scalar c ->
  Recode16to8_loop (S f) size (pre ++ utf16 c ++ s) v out (length pre) =
  let '(v, x) := if negb v then (if c =? EQUALS then (true, c) else (false, ToUpper c)) else (v, c) in
  Recode16to8_loop f size (pre ++ utf16 c ++ s) v (Recode16to8_store 8 size out (tpenc x)) (length (pre ++ utf16 c)).
Proof.
  intros Hc. unfold scalar in Hc. cbn [Recode16to8_loop]. rewrite (lookup_app_r pre _ (length pre)), Nat.sub_diag by lia.
  rewrite length_app. unfold utf16. destruct (c <? 0x10000) eqn:E; bool_prop; cbn [app length].
  - change ((c :: s) !! 0%nat) with (Some c). cbn [access mbind outcome_bind]. rewrite if_false by lia.
    rewrite IsUcs2_spec by lia. rewrite if_false by lia. cbn [mbind outcome_bind]. by rewrite Nat.add_1_r.
  - match goal with |- context [access ((?h :: ?t) !! 0%nat)] => change ((h :: t) !! 0%nat) with (Some h) end.
    cbn [access mbind outcome_bind]. rewrite if_false by lia. rewrite IsUcs2_spec by lia. rewrite if_true by lia.
    rewrite lookup_app_r by lia. replace (S (length pre) - length pre)%nat with 1%nat by lia.
    match goal with |- context [access ((?g :: ?h :: ?t) !! 1%nat)] => change ((g :: h :: t) !! 1%nat) with (Some h) end.
    cbn [access mbind outcome_bind]. rewrite MergeUtf16_spec, u32_small by lia.
    replace (S (S (length pre))) with (length pre + 2)%nat by lia. done.
Qed.

Lemma recode_loop_text16 cs f size pre rest (v : bool) out :
  Forall scalar cs -> (length cs < f)%nat ->
  Z.of_nat (length out + length (utf8s (if v then cs else upper cs))) < size ->
  Recode16to8_loop f size (pre ++ utf16s cs ++ 0 :: rest) v out (length pre) =
  Done (out ++ utf8s (if v then cs else upper cs), S (length (pre ++ utf16s cs))).
Proof.
  intros Hcs. revert f pre v out. induction Hcs as [|c cs Hc Hcs IH]; intros f pre v out Hf Hs.
  - destruct f as [|f]; [cbn in Hf; lia|]. cbn [utf16s flat_map app] in *. cbn [Recode16to8_loop].
    rewrite (lookup_app_r pre _ (length pre)), Nat.sub_diag by lia. cbn. rewrite app_nil_r. destruct v; by rewrite app_nil_r.
  - destruct f as [|f]; [cbn in Hf; lia|]. cbn [length] in Hf. change (utf16s (c :: cs)) with (utf16 c ++ utf16s cs).
    rewrite <- app_assoc, recode_turn by done.
    assert (forall (v' : bool) (x : Z), scalar x -> Z.of_nat (length out + length (utf8 x ++ utf8s (if v' then cs else upper cs))) < size ->
      Recode16to8_loop f size (pre ++ utf16 c ++ utf16s cs ++ 0 :: rest) v' (Recode16to8_store 8 size out (tpenc x)) (length (pre ++ utf16 c))
      = Done (out ++ utf8 x ++ utf8s (if v' then cs else upper cs), S (length (pre ++ utf16 c ++ utf16s cs)))) as Hgo.
    { intros v' x Hx Hsz. rewrite length_app in Hsz. rewrite recode_store by (auto; lia).
      rewrite app_assoc, IH; [by rewrite <- !app_assoc|lia|rewrite length_app; lia]. }
    destruct v; cbn [negb]; [apply (Hgo true c); [done|exact Hs]|].
    cbn [upper] in *. case_if; [apply (Hgo true c); [done|exact Hs]|].
    apply (Hgo false (ToUpper c)); [by apply ToUpper_scalar|exact Hs].
Qed.

Lemma of_drives_length n s : length (of_drives n s) = length s.
Proof.
  revert s. induction n as [|n IH]; intros s; [done|]. destruct s as [|c s]; [done|]. cbn.
  by rewrite IH, of_drive_length.
Qed.
Lemma FixPath_length s : length (FixPath s) = length s.
Proof.
  unfold FixPath. rewrite backslash_pass, fix_first_drive, fix_drive_pass, semi_pass.
  by rewrite length_map, of_drives_length, of_drive_length, length_map.
Qed.

Lemma MemChr_app s r c : MemChr (s ++ r) c (length s) = MemChr s c (length s).
Proof. induction s as [|x s IH]; cbn; [by destruct r|]. by rewrite IH. Qed.
Lemma MemChr_bound s c n p : MemChr s c n = Some p -> (p < length s)%nat.
Proof.
  revert s p. induction n as [|n IH]; intros [|x s] p; cbn; try done. case_if; [intros [= <-]; lia|].
  destruct (MemChr s c n) as [q|] eqn:E'; [|done]. intros [= <-]. specialize (IH _ _ E'). lia.
Qed.
Lemma string_at_app s r : Forall (fun c => c <> 0) s -> string_at (s ++ 0 :: r) = s.
Proof. induction 1 as [|c s Hc Hs IH]; [done|]. cbn. by rewrite (proj2 (Z.eqb_neq c 0)), IH. Qed.
Lemma at_terminated s r i : (i <= length s)%nat -> at_ (s ++ 0 :: r) i = at_ s i.
Proof.
  intros Hi. unfold at_. destruct (decide (i = length s)) as [->|].
  - by rewrite nth_middle, nth_overflow.
  - apply app_nth1. lia.
Qed.

(** Tests past the terminator do not matter: the earlier one has failed. *)
Lemma drive_test_terminated t r :
  Forall (fun c => c <> 0) t ->
  IsAlpha (at_ (t ++ 0 :: r) 0) && (at_ (t ++ 0 :: r) 1 =? COLON) &&
    ((at_ (t ++ 0 :: r) 2 =? BSLASH) || (at_ (t ++ 0 :: r) 2 =? SLASH)) =
  IsAlpha (at_ t 0) && (at_ t 1 =? COLON) && ((at_ t 2 =? BSLASH) || (at_ t 2 =? SLASH)).
Proof.
  intros _. destruct t as [|a [|b [|c t]]]; cbn; try done.
  by rewrite !andb_false_r.
Qed.

Lemma write_ok pre l l' rest : length l' = length l -> write (pre ++ l ++ rest) (length pre) l' = Done (pre ++ l' ++ rest).
Proof.
  intros Hl. unfold write. rewrite if_true by (apply Nat.leb_le; rewrite !length_app; lia).
  rewrite take_app_length, drop_app_add' by done. rewrite Hl, drop_app_length. done.
Qed.

Lemma fix_variable_ok pre s rest :
  Forall (fun c => c <> 0) s ->
  fix_variable (pre ++ s ++ 0 :: rest) (length pre) (length s) = Done (pre ++ unix_value s ++ 0 :: rest).
Proof.
  intros Hs. unfold fix_variable, unix_value. rewrite drop_app_length, MemChr_app.
  destruct (MemChr s EQUALS (length s)) as [p|] eqn:E; [|done]. apply MemChr_bound in E.
  replace (length pre + p + 1)%nat with (length pre + (p + 1))%nat by lia.
  rewrite drop_app_add', drop_app_le by lia. set (t := drop (p + 1) s).
  assert (Forall (fun c => c <> 0) t) as Ht by (by apply Forall_drop).
  rewrite drive_test_terminated, string_at_app by done. case_if; [|done].
  rewrite <- (take_drop (p + 1) s) at 1. fold t. rewrite <- app_assoc.
  replace (length pre + (p + 1))%nat with (length (pre ++ take (p + 1) s))
    by (rewrite length_app, length_take; lia).
  rewrite app_assoc, write_ok by apply FixPath_length. by rewrite <- !app_assoc.
Qed.

Lemma unix_value_length s : length (unix_value s) = length s.
Proof.
  unfold unix_value. destruct (MemChr s EQUALS (length s)) as [p|] eqn:E; [|done]. apply MemChr_bound in E.
  case_if; [|done]. rewrite length_app, FixPath_length, length_take, length_drop. lia.
Qed.

(** A block of variables, and the strings decoded from it with where each starts. *)
Definition env_block (vars : list (list Z)) (rest : list Z) : list Z :=
  foldr (fun cs r => utf16s cs ++ 0 :: r) (0 :: rest) vars.
Definition dos_strings (vars : list (list Z)) : list Z := flat_map (fun cs => dos_var cs ++ [0]) vars.
Fixpoint dos_offsets (pos : nat) (vars : list (list Z)) : list nat :=
  match vars with
  | [] => []
  | cs :: vars => pos :: dos_offsets (pos + length (dos_var cs) + 1) vars
  end.

Definition variable (cs : list Z) : Prop := cs <> [] /\ Forall scalar cs.

Lemma env_block_head cs r : variable cs -> exists c t, utf16s cs ++ 0 :: r = c :: t /\ c <> 0.
Proof.
  intros [Hne Hs]. destruct Hs as [|c cs Hc Hs]; [done|]. pose proof (utf16_nonzero c Hc) as Hnz.
  cbn [utf16s flat_map]. pose proof (utf16_length c) as Hl.
  destruct (utf16 c) as [|u us]; [cbn in Hl; lia|]. cbn. exists u. eexists. split; [done|].
  by apply List.Forall_inv in Hnz.
Qed.

Lemma utf16s_length cs : (length cs <= length (utf16s cs))%nat.
Proof.
  induction cs as [|c cs IH]; cbn [utf16s flat_map]; [done|]. rewrite length_app. fold (utf16s cs).
  pose proof (utf16_length c). cbn. lia.
Qed.

(** One variable: decoded into the hole, then its path fixed. *)
Lemma environ_variable cs rest pre hole tail size :
  Forall scalar cs -> length hole = S (length (utf8s (upper cs))) -> Z.of_nat (length (utf8s (upper cs))) < size ->
  exists r, Recode16to8 size (utf16s cs ++ 0 :: rest) = Done r /\
    ax r = length (dos_var cs) /\ drop (dx r) (utf16s cs ++ 0 :: rest) = rest /\
    (mem ← write (pre ++ hole ++ tail) (length pre) (ax_out r); fix_variable mem (length pre) (ax r))
    = Done (pre ++ (dos_var cs ++ [0]) ++ tail).
Proof.
  intros Hcs Hh Hs. set (s := utf8s (upper cs)) in *.
  unfold Recode16to8.
  pose proof (recode_loop_text16 cs (S (length (utf16s cs ++ 0 :: rest))) size [] rest false [] Hcs) as Hr.
  cbn [app length] in Hr. rewrite Hr; [|rewrite length_app; pose proof (utf16s_length cs); lia|done].
  cbn [mbind outcome_bind].
  fold s. eexists. split; [reflexivity|]. unfold finish. cbn [fst snd ax ax_out dx].
  rewrite (if_true (_ <? size)) by (apply Z.ltb_lt; done).
  split; [symmetry; apply unix_value_length|]. split.
  { rewrite cons_middle, app_assoc. replace (S (length (utf16s cs))) with (length (utf16s cs ++ [0])) by (rewrite length_app; cbn; lia).
    apply drop_app_length. }
  rewrite write_ok by (rewrite length_app, Hh; cbn; lia). cbn [mbind outcome_bind].
  rewrite <- app_assoc. cbn [app]. rewrite fix_variable_ok.
  - by rewrite <- app_assoc.
  - apply utf8s_nonzero, upper_scalar, Hcs.
Qed.

Lemma environ_loop_text vars fuel rest pre hole tail envp max :
  Forall variable vars -> (length vars < fuel)%nat -> (1 <= length tail)%nat ->
  length hole = length (dos_strings vars) -> Z.of_nat (length envp + length vars) < max ->
  Z.of_nat (length hole + length tail) < 2 ^ 64 ->
  environ_loop fuel (env_block vars rest) (pre ++ hole ++ tail) (length pre)
    (Z.of_nat (length hole + length tail) - 1) envp max
  = Done (envp ++ dos_offsets (length pre) vars, pre ++ dos_strings vars ++ tail).
Proof.
  intros Hv. revert fuel pre hole envp.
  induction Hv as [|cs vars [Hne Hcs] Hv IH]; intros fuel pre hole envp Hf Htl Hh Hmax Hsz;
    (destruct fuel as [|fuel]; [cbn in Hf; lia|]).
  - destruct hole; [|done]. cbn. by rewrite app_nil_r.
  - cbn [length] in Hf, Hmax. cbn [environ_loop env_block foldr]. fold (env_block vars rest).
    destruct (env_block_head cs (env_block vars rest) (conj Hne Hcs)) as (c & t & Ect & Hc0).
    rewrite Ect. cbn [lookup list_lookup access mbind outcome_bind]. rewrite if_false, <- Ect by lia.
    rewrite (if_true (_ <? max)) by lia.
    cbn [dos_strings flat_map] in Hh |- *. fold (dos_strings vars) in Hh |- *. rewrite !length_app in Hh. cbn [length] in Hh.
    assert (length (dos_var cs) = length (utf8s (upper cs))) as Hdv by apply unix_value_length.
    set (n := length (dos_var cs)) in *.
    rewrite <- (take_drop (n + 1) hole), <- (app_assoc (take _ _)).
    destruct (environ_variable cs (env_block vars rest) pre (take (n + 1) hole) (drop (n + 1) hole ++ tail)
      (Z.of_nat (length hole + length tail) - 1)) as (r & Er & Eax & Edx & Ew);
      [done|rewrite length_take; lia|lia|].
    rewrite take_drop, Er. cbn [mbind outcome_bind].
    destruct (write _ _ _) as [mem| |]; [|done..]. cbn [mbind outcome_bind] in Ew |- *. rewrite Ew.
    cbn [mbind outcome_bind]. rewrite Eax, Edx. fold n.
    pose proof (length_drop hole (n + 1)) as Hd.
    rewrite u64_small by lia.
    specialize (IH fuel (pre ++ dos_var cs ++ [0]) (drop (n + 1) hole) (envp ++ [length pre])).
    rewrite <- !app_assoc in IH. cbn [app] in IH. rewrite !length_app in IH. cbn [length] in IH. fold n in IH.
    replace (Z.of_nat (length hole + length tail) - 1 - (Z.of_nat n + 1))
      with (Z.of_nat (length (drop (n + 1) hole) + length tail) - 1) by lia.
    rewrite <- !app_assoc. cbn [app]. rewrite <- (Nat.add_assoc (length pre)).
    cbn [dos_offsets]. fold n. rewrite <- (Nat.add_assoc (length pre)). apply IH; lia.
Qed.

(** When the buffer has room for the variables and one byte more, GetDosEnviron
    decodes a block of well-formed UTF-16 variables into their strings: names upper-cased,
    drive paths in Unix form, each NUL-terminated UTF-8 at the offset stored in envp; it
    stays inside both buffers and touches nothing after the strings. *)
Theorem GetDosEnviron_decodes vars rest buf max :
  Forall variable vars -> (length (dos_strings vars) < length buf)%nat -> Z.of_nat (length buf) < 2 ^ 64 ->
  Z.of_nat (length vars) < max ->
  GetDosEnviron (env_block vars rest) buf max =
  Done (dos_offsets 0 vars, dos_strings vars ++ drop (length (dos_strings vars)) buf).
Proof.
  intros Hv Hroom Hsz Hmax. unfold GetDosEnviron. rewrite u64_small by lia.
  set (n := length (dos_strings vars)) in *.
  pose proof (environ_loop_text vars (S (length (env_block vars rest))) rest [] (take n buf) (drop n buf) [] max) as H.
  rewrite length_take, length_drop, Nat.min_l in H by lia. cbn [app length] in H.
  rewrite take_drop in H. replace (n + (length buf - n))%nat with (length buf) in H by lia.
  apply H; [done| |lia|done|lia|lia].
  clear. induction vars as [|cs vars IH]; cbn; [lia|]. rewrite length_app. cbn. fold (env_block vars rest). lia.
Qed.

Definition sample_block : list (list Z) := [ascii_codes "Path=C:;D:"%string; ascii_codes "x=1"%string].

Lemma GetDosEnviron_decodes_witness :
  GetDosEnviron (env_block sample_block []) (replicate 24 0xAA) 10 =
  Done (dos_offsets 0 sample_block, dos_strings sample_block ++ drop (length (dos_strings sample_block)) (replicate 24 0xAA)).
Proof.
  apply (GetDosEnviron_decodes sample_block [] (replicate 24 0xAA) 10); [|vm_compute; lia|done|done].
  repeat constructor; try done; apply (bool_decide_unpack _); vm_compute; reflexivity.
Defined.
