(* ===== verification/HttpChunk.v ===== *)
(** Chunked transfer encoding: [net/http/unchunk.c].

    [Unchunk] removes the framing in place and can be called again when more bytes have
    arrived. The machine is modelled state by state, with the bulk [memmove] of the data
    state; the specification is a transducer that looks at one byte at a time. *)
From S2P Require Import Prelude Tables NtArgs.

(** * unchunk.c *)

Inductive chunk_state :=
| kHttpStateChunkStart | kHttpStateChunkSize | kHttpStateChunkExt | kHttpStateChunkLf1
| kHttpStateChunk | kHttpStateChunkCr2 | kHttpStateChunkLf2 | kHttpStateTrailerStart
| kHttpStateTrailer | kHttpStateTrailerLf1 | kHttpStateTrailerLf2.

#[export] Instance chunk_state_eq_dec : EqDecision chunk_state.
Proof. solve_decision. Defined.

(** [struct HttpUnchunker] *)
Record HttpUnchunker := { u_t : chunk_state; u_i : nat; u_j : nat; u_m : Z }.
Definition set_t (u : HttpUnchunker) (t : chunk_state) : HttpUnchunker :=
  {| u_t := t; u_i := u_i u; u_j := u_j u; u_m := u_m u |}.
Definition set_m (u : HttpUnchunker) (m : Z) : HttpUnchunker :=
  {| u_t := u_t u; u_i := u_i u; u_j := u_j u; u_m := m |}.

(** What the [switch] did with one byte. *)
Inductive turn := Next (u : HttpUnchunker) (p : list Z) | Finished | Ebadmsg.

(** The cases of the [switch], a fall-through being a call; [u->i] is past [c] already. *)
Definition ChunkLf1 (u : HttpUnchunker) (p : list Z) (c : Z) : turn :=
  if negb (c =? LF) then Ebadmsg
  else Next (set_t u (if negb (u_m u =? 0) then kHttpStateChunk else kHttpStateTrailerStart)) p.
Definition ChunkExt (u : HttpUnchunker) (p : list Z) (c : Z) : turn :=
  if c =? CR then Next (set_t u kHttpStateChunkLf1) p
  else if negb (c =? LF) then Next u p
  else ChunkLf1 u p c.
Definition ChunkSize (u : HttpUnchunker) (p : list Z) (c : Z) : turn :=
  let h := tab kHexToInt c in
  if negb (h =? -1) then
    let m := u_m u * 16 + h in
    if 0x0000010000000000 <=? m then Ebadmsg else Next (set_m u m) p
  else ChunkExt (set_t u kHttpStateChunkExt) p c.
Definition ChunkStart (u : HttpUnchunker) (p : list Z) (c : Z) : turn :=
  let m := tab kHexToInt c in
  if m =? -1 then Ebadmsg else Next (set_t (set_m u m) kHttpStateChunkSize) p.

(** [memmove(p + j, p + i, s)] inside the buffer *)
Definition memmove (p : list Z) (j i s : nat) : list Z :=
  take j p ++ take s (drop i p) ++ drop (j + s) p.

Definition Chunk (u : HttpUnchunker) (p : list Z) (c : Z) : turn :=
  let p := <[u_j u := c]> p in
  let j := S (u_j u) in
  let m := u_m u - 1 in
  let s := Z.to_nat (Z.min m (Z.of_nat (length p) - Z.of_nat (u_i u))) in
  let p := memmove p j (u_i u) s in
  let m := m - Z.of_nat s in
  Next {| u_t := if m =? 0 then kHttpStateChunkCr2 else u_t u;
          u_i := u_i u + s; u_j := j + s; u_m := m |} p.
Definition ChunkLf2 (u : HttpUnchunker) (p : list Z) (c : Z) : turn :=
  if negb (c =? LF) then Ebadmsg else Next (set_t u kHttpStateChunkStart) p.
Definition ChunkCr2 (u : HttpUnchunker) (p : list Z) (c : Z) : turn :=
  if c =? CR then Next (set_t u kHttpStateChunkLf2) p else ChunkLf2 u p c.
Definition TrailerLf1 (u : HttpUnchunker) (p : list Z) (c : Z) : turn :=
  if negb (c =? LF) then Ebadmsg else Next (set_t u kHttpStateTrailerStart) p.
Definition Trailer (u : HttpUnchunker) (p : list Z) (c : Z) : turn :=
  if c =? CR then Next (set_t u kHttpStateTrailerLf1) p
  else if negb (c =? LF) then Next u p
  else TrailerLf1 u p c.
Definition TrailerStart (u : HttpUnchunker) (p : list Z) (c : Z) : turn :=
  if c =? CR then Next (set_t u kHttpStateTrailerLf2) p
  else if c =? LF then Finished
  else Trailer (set_t u kHttpStateTrailer) p c.
Definition TrailerLf2 (u : HttpUnchunker) (p : list Z) (c : Z) : turn :=
  if negb (c =? LF) then Ebadmsg else Finished.

Definition Unchunk_switch (u : HttpUnchunker) (p : list Z) (c : Z) : turn :=
  match u_t u with
  | kHttpStateChunkStart => ChunkStart u p c
  | kHttpStateChunkSize => ChunkSize u p c
  | kHttpStateChunkExt => ChunkExt u p c
  | kHttpStateChunkLf1 => ChunkLf1 u p c
  | kHttpStateChunk => Chunk u p c
  | kHttpStateChunkCr2 => ChunkCr2 u p c
  | kHttpStateChunkLf2 => ChunkLf2 u p c
  | kHttpStateTrailerStart => TrailerStart u p c
  | kHttpStateTrailer => Trailer u p c
  | kHttpStateTrailerLf1 => TrailerLf1 u p c
  | kHttpStateTrailerLf2 => TrailerLf2 u p c
  end.

(** [Unchunk] returns the bytes processed with the content length, 0 for more data with
    the state to resume from, or -1. [UnchunkFault] is a read outside the buffer or a loop
    that did not end. *)
Inductive unchunked :=
| Content (ret : nat) (l : nat) (p : list Z)
| NeedMore (u : HttpUnchunker) (p : list Z)
| BadMsg
| UnchunkFault.

Fixpoint Unchunk_loop (fuel : nat) (u : HttpUnchunker) (p : list Z) : unchunked :=
  if (u_i u <? length p)%nat then
    match fuel with
    | O => UnchunkFault
    | S fuel =>
        match p !! u_i u with
        | None => UnchunkFault
        | Some c =>
            let u := {| u_t := u_t u; u_i := S (u_i u); u_j := u_j u; u_m := u_m u |} in
            match Unchunk_switch u p (Z.land c 255) with
            | Next u p => Unchunk_loop fuel u p
            | Ebadmsg => BadMsg
            | Finished =>
                Content (u_i u) (u_j u) (if (u_j u <? length p)%nat then <[u_j u := 0]> p else p)
            end
        end
    end
  else NeedMore u p.
Definition Unchunk (u : HttpUnchunker) (p : list Z) : unchunked := Unchunk_loop (length p) u p.

Definition unchunker0 : HttpUnchunker := {| u_t := kHttpStateChunkStart; u_i := 0; u_j := 0; u_m := 0 |}.

Example Unchunk_runs :
  Unchunk unchunker0 (ascii_codes "4;x"%string ++ [CR; LF] ++ ascii_codes "Wiki"%string ++ [CR; LF] ++
    ascii_codes "A"%string ++ [LF] ++ ascii_codes "pedia in c"%string ++ [LF] ++ ascii_codes "0"%string ++ [CR; LF; CR; LF; 7])
  = Content 29 14 (ascii_codes "Wikipedia in c"%string ++ [0] ++ ascii_codes "dia in c"%string ++ [LF] ++ ascii_codes "0"%string ++ [CR; LF; CR; LF; 7]).
Proof. vm_compute. reflexivity. Qed.

(** * Specification: one byte at a time *)

(** The control state is [(t, m)]; a byte may be passed to the content. *)
Inductive reaction := Go (t : chunk_state) (m : Z) | Emit (t : chunk_state) (m : Z) | End_ | Bad.

Definition lf1 (m : Z) (c : Z) : reaction :=
  if c =? LF then Go (if m =? 0 then kHttpStateTrailerStart else kHttpStateChunk) m else Bad.
Definition ext (m : Z) (c : Z) : reaction :=
  if c =? CR then Go kHttpStateChunkLf1 m else if c =? LF then lf1 m c else Go kHttpStateChunkExt m.
Definition react (t : chunk_state) (m : Z) (c : Z) : reaction :=
  match t with
  | kHttpStateChunkStart => if tab kHexToInt c =? -1 then Bad else Go kHttpStateChunkSize (tab kHexToInt c)
  | kHttpStateChunkSize =>
      if tab kHexToInt c =? -1 then ext m c
      else if m * 16 + tab kHexToInt c <? 2 ^ 40 then Go kHttpStateChunkSize (m * 16 + tab kHexToInt c) else Bad
  | kHttpStateChunkExt => ext m c
  | kHttpStateChunkLf1 => lf1 m c
  | kHttpStateChunk => Emit (if m - 1 =? 0 then kHttpStateChunkCr2 else kHttpStateChunk) (m - 1)
  | kHttpStateChunkCr2 => if c =? CR then Go kHttpStateChunkLf2 m else if c =? LF then Go kHttpStateChunkStart m else Bad
  | kHttpStateChunkLf2 => if c =? LF then Go kHttpStateChunkStart m else Bad
  | kHttpStateTrailerStart =>
      if c =? CR then Go kHttpStateTrailerLf2 m else if c =? LF then End_ else Go kHttpStateTrailer m
  | kHttpStateTrailer =>
      if c =? CR then Go kHttpStateTrailerLf1 m else if c =? LF then Go kHttpStateTrailerStart m else Go kHttpStateTrailer m
  | kHttpStateTrailerLf1 => if c =? LF then Go kHttpStateTrailerStart m else Bad
  | kHttpStateTrailerLf2 => if c =? LF then End_ else Bad
  end.

Inductive verdict := SMore (t : chunk_state) (m : Z) (out : list Z) | SDone (used : nat) (out : list Z) | SBad.

Fixpoint dechunk (t : chunk_state) (m : Z) (inp : list Z) (used : nat) (out : list Z) : verdict :=
  match inp with
  | [] => SMore t m out
  | c :: inp =>
      match react t m c with
      | Go t m => dechunk t m inp (S used) out
      | Emit t m => dechunk t m inp (S used) (out ++ [c])
      | End_ => SDone (S used) out
      | Bad => SBad
      end
  end.

(** A specification verdict as the buffer [p] after an in-place run. *)
Definition in_place (p : list Z) (v : verdict) : unchunked :=
  match v with
  | SMore t m out => NeedMore {| u_t := t; u_i := length p; u_j := length out; u_m := m |} (out ++ drop (length out) p)
  | SDone used out =>
      let p := out ++ drop (length out) p in
      Content used (length out) (if (length out <? length p)%nat then <[length out := 0]> p else p)
  | SBad => BadMsg
  end.

(** * The machine implements the specification *)

Definition good (t : chunk_state) (m : Z) : Prop := 0 <= m /\ (t = kHttpStateChunk -> 0 < m).

Lemma hex_range c : is_byte c -> -1 <= tab kHexToInt c < 16.
Proof.
  intros Hc. pose proof (byte_enum (fun c => (-1 <=? tab kHexToInt c) && (tab kHexToInt c <? 16)) eq_refl c Hc) as H.
  cbv beta in H. lia.
Qed.

Lemma react_good t m c :
  good t m -> is_byte c ->
  match react t m c with Go t m => good t m | Emit t m => good t m /\ t <> kHttpStateChunkStart | _ => True end.
Proof.
  intros [Hm Ht] Hc. pose proof (hex_range c Hc) as Hh.
  destruct t; unfold react, ext, lf1, good; case_ifs; try (split; [lia|discriminate || lia]); try (split; [split|]; [lia|intros; try done; specialize (Ht eq_refl); lia|done]); auto.
Qed.

Definition out_of (v : verdict) : list Z := match v with SMore _ _ out | SDone _ out => out | SBad => [] end.

Lemma dechunk_grows t m inp used out :
  dechunk t m inp used out = SBad \/ exists x, out_of (dechunk t m inp used out) = out ++ x.
Proof.
  revert t m used out. induction inp as [|c inp IH]; intros t m used out; cbn.
  - right. exists []. by rewrite app_nil_r.
  - destruct (react t m c) as [t' m'|t' m'| |]; [apply IH| | |by left].
    + destruct (IH t' m' (S used) (out ++ [c])) as [?|[x Hx]]; [by left|right].
      exists (c :: x). by rewrite Hx, <- app_assoc.
    + right. exists []. by rewrite app_nil_r.
Qed.

Lemma dechunk_data m l1 l2 used out :
  l1 <> [] -> Z.of_nat (length l1) <= m ->
  dechunk kHttpStateChunk m (l1 ++ l2) used out =
  dechunk (if m - Z.of_nat (length l1) =? 0 then kHttpStateChunkCr2 else kHttpStateChunk) (m - Z.of_nat (length l1))
    l2 (used + length l1) (out ++ l1).
Proof.
  revert m used out. induction l1 as [|c l1 IH]; intros m used out Hne Hm; [done|]. cbn [app dechunk react].
  destruct l1 as [|d l1].
  - cbn [app length]. replace (used + 1)%nat with (S used) by lia. done.
  - cbn [length] in Hm. rewrite (if_false (m - 1 =? 0)) by lia. rewrite IH by (try done; cbn [length]; lia).
    rewrite <- app_assoc. cbn [app length].
    replace (m - 1 - Z.of_nat (S (length l1))) with (m - Z.of_nat (S (S (length l1)))) by lia.
    f_equal. lia.
Qed.

(** Overwriting the first bytes of the buffer with the content does not matter later. *)
Lemma in_place_prefix p out v :
  (length out <= length p)%nat -> v = SBad \/ (exists x, out_of v = out ++ x) ->
  in_place (out ++ drop (length out) p) v = in_place p v.
Proof.
  intros Hl Hv. destruct v as [t m o|used o|]; [| |done].
  - destruct Hv as [?|[x Hx]]; [done|]. cbn in Hx. subst o. cbn [in_place].
    rewrite length_app, length_app, length_drop, !drop_app_ge by lia.
    rewrite drop_drop. f_equal; [f_equal; lia|]. do 2 f_equal. lia.
  - destruct Hv as [?|[x Hx]]; [done|]. cbn in Hx. subst o. cbn [in_place].
    rewrite length_app, !drop_app_ge by lia. rewrite drop_drop.
    replace (length out + (length out + length x - length out))%nat with (length out + length x)%nat by lia. done.
Qed.

(** The [switch] on a byte outside the data state follows [react] and keeps the buffer. *)
Lemma switch_react u p c :
  u_t u <> kHttpStateChunk ->
  Unchunk_switch u p c =
  match react (u_t u) (u_m u) c with
  | Go t m | Emit t m => Next {| u_t := t; u_i := u_i u; u_j := u_j u; u_m := m |} p
  | End_ => Finished
  | Bad => Ebadmsg
  end.
Proof.
  destruct u as [t i j m]. cbn [u_t u_m u_i u_j]. intros Ht.
  destruct t; try done; cbn [Unchunk_switch u_t react];
    unfold ChunkStart, ChunkSize, ChunkExt, ChunkLf1, ChunkCr2, ChunkLf2, TrailerStart, Trailer, TrailerLf1, TrailerLf2, ext, lf1, set_t, set_m;
    cbn [u_t u_m u_i u_j]; repeat (case_if; bool_prop; subst; cbn [negb] in *); try lia; try done.
Qed.

(** In the data state the rest of the chunk that has arrived is moved at once. *)
Lemma switch_data u p c inp out :
  u_t u = kHttpStateChunk -> 0 < u_m u -> u_j u = length out -> (length out < u_i u)%nat ->
  drop (u_i u) p = inp -> (u_i u <= length p)%nat -> take (length out) p = out ->
  exists n, (n <= length inp)%nat /\ Z.of_nat n <= u_m u - 1 /\
    Unchunk_switch u p c =
    Next {| u_t := if u_m u - Z.of_nat (S n) =? 0 then kHttpStateChunkCr2 else kHttpStateChunk;
            u_i := u_i u + n; u_j := length out + S n; u_m := u_m u - Z.of_nat (S n) |}
      ((out ++ c :: take n inp) ++ drop (length out + S n) p).
Proof.
  intros Ht Hm Hj Hji Hinp Hip Hout. unfold Unchunk_switch. rewrite Ht. unfold Chunk.
  rewrite length_insert, Hj, Ht.
  set (n := Z.to_nat (Z.min (u_m u - 1) (Z.of_nat (length p) - Z.of_nat (u_i u)))).
  assert (length inp = length p - u_i u)%nat as Hlen by (rewrite <- Hinp; apply length_drop).
  exists n. split; [lia|]. split; [lia|].
  replace (u_m u - 1 - Z.of_nat n) with (u_m u - Z.of_nat (S n)) by lia.
  replace (S (length out) + n)%nat with (length out + S n)%nat by lia.
  f_equal.
  assert (<[length out := c]> p = out ++ c :: drop (S (length out)) p) as Hins.
  { rewrite <- (take_drop (length out) p) at 1. rewrite Hout.
    destruct (drop (length out) p) as [|x q] eqn:Eq.
    { apply (f_equal length) in Eq. rewrite length_drop in Eq. cbn in Eq. lia. }
    rewrite insert_app_r_alt, Nat.sub_diag by lia. cbn. do 2 f_equal.
    rewrite <- (Nat.add_1_r (length out)), <- drop_drop, Eq. done. }
  set (pre := out ++ [c]). assert (length pre = S (length out)) as Hpre by (unfold pre; rewrite length_app; cbn; lia).
  unfold memmove. rewrite Hins. replace (out ++ c :: drop (S (length out)) p) with (pre ++ drop (length pre) p)
    by (rewrite Hpre; unfold pre; by rewrite <- app_assoc).
  rewrite <- Hpre, take_app_length, (drop_app_ge pre) by lia.
  rewrite drop_drop. replace (length pre + (u_i u - length pre))%nat with (u_i u) by lia. rewrite Hinp.
  rewrite drop_app_add' by done. rewrite drop_drop.
  replace (length out + S n)%nat with (length pre + n)%nat by lia.
  unfold pre. rewrite <- !app_assoc. done.
Qed.

Lemma Unchunk_loop_spec n : forall fuel u p out inp,
  length inp = n -> (n <= fuel)%nat -> Forall is_byte inp ->
  good (u_t u) (u_m u) -> u_j u = length out -> (length out <= u_i u <= length p)%nat ->
  take (length out) p = out -> drop (u_i u) p = inp ->
  Unchunk_loop fuel u p = in_place p (dechunk (u_t u) (u_m u) inp (u_i u) out).
Proof.
  induction (lt_wf n) as [n _ IH]. intros fuel u p out inp Hn Hfuel Hbytes Hgood Hj Hle Hout Hinp.
  assert (length inp = length p - u_i u)%nat as Hlen by (rewrite <- Hinp; apply length_drop).
  assert (out ++ drop (length out) p = p) as Hp by (rewrite <- Hout at 1; apply take_drop).
  destruct inp as [|c inp].
  - assert (u_i u = length p) as Hi by (cbn in Hlen; lia).
    assert (Unchunk_loop fuel u p = NeedMore u p) as ->.
    { destruct fuel; cbn [Unchunk_loop]; rewrite if_false; try done; apply Nat.ltb_ge; lia. }
    cbn [dechunk in_place]. rewrite Hp. f_equal. destruct u; cbn in *. congruence.
  - cbn [length] in *. destruct fuel as [|fuel]; [lia|]. cbn [Unchunk_loop].
    rewrite if_true by (apply Nat.ltb_lt; lia).
    assert (p !! u_i u = Some c) as -> by (rewrite <- (Nat.add_0_r (u_i u)), <- lookup_drop, Hinp; done).
    apply List.Forall_cons_iff in Hbytes as [Hc Hbytes].
    replace (Z.land c 255) with c
      by (change 255 with (2 ^ 8 - 1); rewrite land_mask by lia; symmetry; apply Z.mod_small, Hc).
    assert (drop (S (u_i u)) p = inp) as Hinp' by (rewrite <- Nat.add_1_r, <- drop_drop, Hinp; done).
    set (u1 := {| u_t := u_t u; u_i := S (u_i u); u_j := u_j u; u_m := u_m u |}).
    destruct (decide (u_t u = kHttpStateChunk)) as [Ht|Ht].
    + destruct (switch_data u1 p c inp out) as (k & Hk & Hkm & ->); [done|by apply Hgood|done|cbn; lia|done|cbn; lia|done|].
      cbn [u_t u_i u_j u_m u1] in *. set (l := c :: take k inp).
      assert (length l = S k) as Hl by (unfold l; cbn; rewrite length_take; lia).
      assert (c :: inp = l ++ drop k inp) as -> by (unfold l; cbn; by rewrite take_drop).
      rewrite Ht, dechunk_data; [|done|lia]. rewrite Hl.
      rewrite <- (in_place_prefix p (out ++ l)); [|rewrite length_app; lia|apply dechunk_grows].
      replace (length (out ++ l)) with (length out + S k)%nat by (rewrite length_app; lia).
      rewrite (IH (length (drop k inp))) with (out := out ++ l) (inp := drop k inp);
        cbn [u_t u_i u_j u_m]; try done; rewrite ?length_drop, ?length_app, ?length_drop, ?Hl; try lia.
      * f_equal. f_equal. lia.
      * by apply Forall_drop.
      * destruct Hgood as [Hm _]. split; [lia|]. case_if; bool_prop; [done|]. lia.
      * apply take_app_length'. rewrite length_app, Hl. done.
      * rewrite drop_app_ge by (rewrite length_app, Hl; lia). rewrite drop_drop.
        rewrite length_app, Hl. rewrite <- Hinp', drop_drop. f_equal. lia.
    + rewrite switch_react by done. cbn [u_t u_i u_j u_m u1 dechunk]. pose proof (react_good _ _ c Hgood Hc) as Hg.
      destruct (react (u_t u) (u_m u) c) as [t m|t m| |] eqn:Er.
      * apply (IH (length inp)); cbn [u_t u_i u_j u_m]; try done; lia.
      * exfalso. revert Er. destruct (u_t u); try done; cbn [react]; unfold ext, lf1; repeat case_if; done.
      * cbn [in_place]. by rewrite Hp, Hj.
      * done.
Qed.

(** * Resuming *)

Lemma dechunk_app a b t m used out :
  dechunk t m (a ++ b) used out =
  match dechunk t m a used out with
  | SMore t m out => dechunk t m b (used + length a) out
  | v => v
  end.
Proof.
  revert t m used out. induction a as [|c a IH]; intros t m used out; cbn [app dechunk length].
  - by rewrite Nat.add_0_r.
  - replace (used + S (length a))%nat with (S used + length a)%nat by lia.
    destruct (react t m c); [apply IH|apply IH|done|done].
Qed.

Lemma dechunk_good a t m used out t' m' out' :
  Forall is_byte a -> good t m -> dechunk t m a used out = SMore t' m' out' -> good t' m'.
Proof.
  intros Ha. revert t m used out. induction Ha as [|c a Hc Ha IH]; intros t m used out Hg; cbn [dechunk].
  - by intros [= <- <- <-].
  - pose proof (react_good t m c Hg Hc) as Hr. destruct (react t m c); try done; [apply IH, Hr|].
    destruct Hr. by apply IH.
Qed.

(** The content is shorter than what was read. *)
Lemma dechunk_length a t m used out :
  match dechunk t m a used out with
  | SMore _ _ out' => (length out' + used <= length out + used + length a)%nat
  | SDone used' out' => (length out' + used < length out + used' <= length out + used + length a)%nat
  | SBad => True
  end.
Proof.
  revert t m used out. induction a as [|c a IH]; intros t m used out; cbn [dechunk length]; [lia|].
  destruct (react t m c) as [t' m'|t' m'| |]; [| |lia|done].
  - specialize (IH t' m' (S used) out). destruct (dechunk t' m' a (S used) out); lia.
  - specialize (IH t' m' (S used) (out ++ [c])). rewrite length_app in IH. cbn in IH.
    destruct (dechunk t' m' a (S used) (out ++ [c])); lia.
Qed.

Lemma Unchunk_spec0 p :
  Forall is_byte p -> Unchunk unchunker0 p = in_place p (dechunk kHttpStateChunkStart 0 p 0 []).
Proof.
  intros Hp. apply (Unchunk_loop_spec (length p) (length p) unchunker0 p [] p); cbn; try done; try lia.
Qed.

(** * Well-formed messages *)

Definition hexval (digits : list Z) (acc : Z) : Z := foldl (fun m c => m * 16 + tab kHexToInt c) acc digits.
Definition is_hex (c : Z) : Prop := is_byte c /\ tab kHexToInt c <> -1.
(** An extension starts with no digit and has no line break. *)
Definition is_ext (e : list Z) : Prop :=
  Forall (fun c => c <> CR /\ c <> LF) e /\ match e with [] => True | c :: _ => tab kHexToInt c = -1 end.

Record chunk := { digits : list Z; extension : list Z; data : list Z }.
Definition chunk_ok (k : chunk) : Prop :=
  digits k <> [] /\ Forall is_hex (digits k) /\ hexval (digits k) 0 = Z.of_nat (length (data k)) /\
  hexval (digits k) 0 < 2 ^ 40 /\ is_ext (extension k).
Definition CRLF : list Z := [CR; LF].
Definition chunk_head (k : chunk) : list Z := digits k ++ extension k ++ CRLF.
Definition put_chunk (k : chunk) : list Z := chunk_head k ++ data k ++ CRLF.
Definition trailer_ok (l : list Z) : Prop := l <> [] /\ Forall (fun c => c <> CR /\ c <> LF) l.
(** Chunks, an empty last one, trailer lines, an empty line. *)
Definition put_message (ks : list chunk) (last : chunk) (trailers : list (list Z)) : list Z :=
  flat_map put_chunk ks ++ chunk_head last ++ flat_map (fun l => l ++ CRLF) trailers ++ CRLF.

Lemma hexval_ge digits acc : Forall is_hex digits -> 0 <= acc -> acc <= hexval digits acc.
Proof.
  intros Hd. revert acc. induction Hd as [|c d [Hb Hc] Hd IH]; intros acc Ha; [done|].
  change (hexval (c :: d) acc) with (hexval d (acc * 16 + tab kHexToInt c)).
  pose proof (hex_range c Hb). specialize (IH (acc * 16 + tab kHexToInt c)). lia.
Qed.

Lemma size_digits d m rest used out :
  Forall is_hex d -> 0 <= m -> hexval d m < 2 ^ 40 ->
  dechunk kHttpStateChunkSize m (d ++ rest) used out = dechunk kHttpStateChunkSize (hexval d m) rest (used + length d) out.
Proof.
  intros Hd. revert m used. induction Hd as [|c d [Hb Hc] Hd IH]; intros m used Hm Hlt; [by rewrite Nat.add_0_r|].
  cbn [app dechunk react hexval foldl length] in *. rewrite if_false by lia. pose proof (hex_range c Hb).
  pose proof (hexval_ge d (m * 16 + tab kHexToInt c) Hd ltac:(lia)). unfold hexval in *. rewrite if_true by lia.
  rewrite IH by lia. f_equal. lia.
Qed.

Lemma ext_text e m rest used out :
  Forall (fun c => c <> CR /\ c <> LF) e ->
  dechunk kHttpStateChunkExt m (e ++ CRLF ++ rest) used out =
  dechunk (if m =? 0 then kHttpStateTrailerStart else kHttpStateChunk) m rest (used + length e + 2) out.
Proof.
  intros He. revert used. induction He as [|c e [Hc1 Hc2] He IH]; intros used.
  - cbn. do 2 f_equal. lia.
  - cbn [app dechunk react]. unfold ext. rewrite if_false by lia. rewrite if_false by lia. rewrite IH.
    cbn [length]. f_equal. lia.
Qed.

Lemma head_text k rest used out m0 :
  chunk_ok k ->
  dechunk kHttpStateChunkStart m0 (chunk_head k ++ rest) used out =
  dechunk (if hexval (digits k) 0 =? 0 then kHttpStateTrailerStart else kHttpStateChunk) (hexval (digits k) 0)
    rest (used + length (chunk_head k)) out.
Proof.
  intros (Hne & Hd & Hv & Hlt & Hext & Hx). unfold chunk_head. destruct (digits k) as [|c d]; [done|].
  apply List.Forall_cons_iff in Hd as [[Hb Hc] Hd]. pose proof (hex_range c Hb).
  cbn [app dechunk react hexval foldl] in *. rewrite if_false by lia.
  change (foldl _ _ d) with (hexval d (tab kHexToInt c)) in *.
  rewrite <- !app_assoc, size_digits by (done || lia). set (m := hexval d (tab kHexToInt c)) in *.
  cbn [length]. rewrite !length_app. cbn [length CRLF].
  destruct (extension k) as [|x e].
  - cbn. do 2 f_equal. lia.
  - apply List.Forall_cons_iff in Hext as [[Hx1 Hx2] Hext]. cbn [app dechunk react]. rewrite if_true by lia.
    unfold ext. rewrite if_false by lia. rewrite if_false by lia. rewrite ext_text by done. cbn [length]. f_equal. lia.
Qed.

Lemma chunk_text k rest used out m0 :
  chunk_ok k -> data k <> [] ->
  dechunk kHttpStateChunkStart m0 (put_chunk k ++ rest) used out =
  dechunk kHttpStateChunkStart 0 rest (used + length (put_chunk k)) (out ++ data k).
Proof.
  intros Hk Hne. unfold put_chunk. rewrite <- !app_assoc, head_text by done.
  destruct Hk as (_ & _ & Hv & _). rewrite Hv.
  assert (length (data k) <> 0%nat) by (by destruct (data k)).
  rewrite if_false by lia. rewrite dechunk_data by (done || lia). rewrite Z.sub_diag. cbn.
  f_equal. rewrite !length_app. cbn. lia.
Qed.

Lemma trailers_text ls rest used out m :
  Forall trailer_ok ls ->
  dechunk kHttpStateTrailerStart m (flat_map (fun l => l ++ CRLF) ls ++ rest) used out =
  dechunk kHttpStateTrailerStart m rest (used + length (flat_map (fun l => l ++ CRLF) ls)) out.
Proof.
  intros Hls. revert used. induction Hls as [|l ls [Hne Hl] Hls IH]; intros used; [by rewrite Nat.add_0_r|].
  cbn [flat_map]. rewrite <- !app_assoc, !length_app. cbn [length CRLF].
  assert (forall l used, Forall (fun c => c <> CR /\ c <> LF) l ->
    dechunk kHttpStateTrailer m (l ++ CRLF ++ flat_map (fun l => l ++ CRLF) ls ++ rest) used out =
    dechunk kHttpStateTrailerStart m (flat_map (fun l => l ++ CRLF) ls ++ rest) (used + length l + 2) out) as Hline.
  { clear. intros l used Hl. revert used. induction Hl as [|c l [H1 H2] Hl IH]; intros used.
    - cbn. f_equal. lia.
    - cbn [app dechunk react]. rewrite if_false by lia. rewrite if_false by lia. rewrite IH. cbn [length]. f_equal. lia. }
  destruct l as [|c l]; [done|]. apply List.Forall_cons_iff in Hl as [[H1 H2] Hl]. cbn [app dechunk react].
  rewrite if_false by lia. rewrite if_false by lia. rewrite Hline, IH by done. cbn [length]. f_equal. lia.
Qed.

Lemma message_text ks last trailers rest :
  Forall chunk_ok ks -> Forall (fun k => data k <> []) ks -> chunk_ok last -> data last = [] -> Forall trailer_ok trailers ->
  forall used out m0, dechunk kHttpStateChunkStart m0 (put_message ks last trailers ++ rest) used out =
  SDone (used + length (put_message ks last trailers)) (out ++ flat_map data ks).
Proof.
  intros Hks Hne Hl Hl0 Ht. unfold put_message. induction Hks as [|k ks Hk Hks IH]; intros used out m0.
  - cbn [flat_map app]. rewrite <- app_assoc, head_text by done.
    destruct Hl as (_ & _ & Hv & _). rewrite Hv, Hl0. cbn [length Z.of_nat Z.eqb].
    rewrite <- app_assoc, trailers_text by done. cbn. rewrite app_nil_r. f_equal. rewrite !length_app. cbn. lia.
  - apply List.Forall_cons_iff in Hne as [Hd Hne]. cbn [flat_map]. rewrite <- !app_assoc, chunk_text by done.
    specialize (IH Hne (used + length (put_chunk k))%nat (out ++ data k) 0). rewrite <- !app_assoc in IH. rewrite IH.
    f_equal. rewrite !length_app. lia.
Qed.

(** * Properties *)

(** C14: For any bytes received, Unchunk stays inside the buffer, terminates, and its
    result, resume state and rewritten buffer are those of the byte-at-a-time
    specification: moving data in bulk is invisible, and only content is overwritten. *)
Theorem Unchunk_refines p :
  Forall is_byte p -> Unchunk unchunker0 p = in_place p (dechunk kHttpStateChunkStart 0 p 0 []).
Proof. apply Unchunk_spec0. Qed.

Definition sample_message : list Z := ascii_codes "5;x=1"%string ++ CRLF ++ ascii_codes "hello"%string ++ CRLF ++ ascii_codes "0"%string ++ CRLF ++ CRLF.

Lemma Unchunk_refines_witness :
  Unchunk unchunker0 sample_message = in_place sample_message (dechunk kHttpStateChunkStart 0 sample_message 0 []).
Proof. apply (Unchunk_refines sample_message). apply (bool_decide_unpack _). vm_compute. reflexivity. Defined.

(** Feeding a message in two parts gives the result of feeding it at once: when the
    first part needs more, resuming on the longer buffer ends as a single call would; a
    complete or broken first part stays so whatever follows. *)
Theorem Unchunk_incremental a b :
  Forall is_byte (a ++ b) ->
  match Unchunk unchunker0 a with
  | NeedMore u a' => Unchunk u (a' ++ b) = Unchunk unchunker0 (a ++ b)
  | Content ret l p => Unchunk unchunker0 (a ++ b) = Content ret l (p ++ b)
  | BadMsg => Unchunk unchunker0 (a ++ b) = BadMsg
  | UnchunkFault => False
  end.
Proof.
  intros Hab. pose proof Hab as [Ha Hb]%Forall_app. rewrite !Unchunk_spec0 by done. rewrite dechunk_app.
  pose proof (dechunk_length a kHttpStateChunkStart 0 0 []) as Hlen.
  destruct (dechunk kHttpStateChunkStart 0 a 0 []) as [t m out|used out|] eqn:E; cbn [in_place]; cbn [length] in Hlen.
  - assert (good t m) as Hg by (eapply dechunk_good in E; [exact E|done|split; [lia|done]]).
    set (p := out ++ drop (length out) a).
    assert (length p = length a) as Hp by (unfold p; rewrite length_app, length_drop; lia).
    unfold Unchunk.
    rewrite (Unchunk_loop_spec (length b) _ {| u_t := t; u_i := length a; u_j := length out; u_m := m |} (p ++ b) out b);
      cbn [u_t u_i u_j u_m]; try done.
    + rewrite <- (in_place_prefix (a ++ b) out); [|rewrite length_app; lia|apply dechunk_grows].
      unfold p. rewrite <- app_assoc, drop_app_le by lia. done.
    + rewrite length_app. lia.
    + rewrite length_app. lia.
    + unfold p. rewrite <- app_assoc. apply take_app_length.
    + rewrite <- Hp. apply drop_app_length.
  - rewrite drop_app_le by lia. f_equal.
    rewrite !if_true by (apply Nat.ltb_lt; rewrite ?length_app, ?length_drop; lia).
    rewrite app_assoc. rewrite insert_app_l; [done|]. rewrite length_app, length_drop. lia.
  - done.
Qed.

Lemma Unchunk_incremental_witness :
  match Unchunk unchunker0 (take 9 sample_message) with
  | NeedMore u a' => Unchunk u (a' ++ drop 9 sample_message) = Unchunk unchunker0 (take 9 sample_message ++ drop 9 sample_message)
  | Content ret l p => Unchunk unchunker0 (take 9 sample_message ++ drop 9 sample_message) = Content ret l (p ++ drop 9 sample_message)
  | BadMsg => Unchunk unchunker0 (take 9 sample_message ++ drop 9 sample_message) = BadMsg
  | UnchunkFault => False
  end.
Proof.
  apply (Unchunk_incremental (take 9 sample_message) (drop 9 sample_message)).
  apply (bool_decide_unpack _). vm_compute. reflexivity.
Defined.

(** A chunked message (sizes in hexadecimal below 2^40, chunk extensions, trailer
    lines) is decoded to the concatenation of its data, exactly the bytes of the message
    are consumed, and bytes that follow it are left alone. *)
Theorem Unchunk_decodes ks last trailers rest :
  Forall chunk_ok ks -> Forall (fun k => data k <> []) ks -> chunk_ok last -> data last = [] ->
  Forall trailer_ok trailers -> Forall is_byte (put_message ks last trailers ++ rest) ->
  exists p', Unchunk unchunker0 (put_message ks last trailers ++ rest) =
      Content (length (put_message ks last trailers)) (length (flat_map data ks)) p' /\
    take (length (flat_map data ks)) p' = flat_map data ks /\
    drop (length (put_message ks last trailers)) p' = rest.
Proof.
  intros Hks Hne Hl Hl0 Ht Hb. rewrite Unchunk_spec0 by done.
  pose proof (dechunk_length (put_message ks last trailers ++ rest) kHttpStateChunkStart 0 0 []) as Hlen.
  rewrite message_text in * by done. cbn [app in_place Nat.add length] in *.
  eexists. split; [reflexivity|]. rewrite length_app in Hlen.
  set (out := flat_map data ks) in *. set (msg := put_message ks last trailers) in *.
  rewrite if_true by (apply Nat.ltb_lt; rewrite length_app, length_drop, length_app; lia).
  assert (exists x q, drop (length out) (msg ++ rest) = x :: q) as (x & q & Hq).
  { destruct (drop (length out) (msg ++ rest)) as [|x q] eqn:E; [|by eauto].
    apply (f_equal length) in E. rewrite length_drop, length_app in E. cbn in E. lia. }
  rewrite Hq, insert_app_r_alt, Nat.sub_diag by lia. cbn [insert list_insert].
  split; [apply take_app_length|].
  rewrite drop_app_ge by lia.
  replace (length msg - length out)%nat with (1 + (length msg - S (length out)))%nat by lia.
  cbn [Nat.add drop].
  assert (q = drop (S (length out)) (msg ++ rest)) as -> by (rewrite <- Nat.add_1_r, <- drop_drop, Hq; done).
  rewrite drop_drop. replace (S (length out) + (length msg - S (length out)))%nat with (length msg) by lia.
  apply drop_app_length.
Qed.

Definition hello : chunk := {| digits := [0x35]; extension := ascii_codes ";x=1"%string; data := ascii_codes "hello"%string |}.
Definition zero : chunk := {| digits := [0x30]; extension := []; data := [] |}.

Lemma Unchunk_decodes_witness :
  exists p', Unchunk unchunker0 (put_message [hello] zero [] ++ [7]) = Content 19 5 p' /\
    take 5 p' = ascii_codes "hello"%string /\ drop 19 p' = [7].
Proof.
  apply (Unchunk_decodes [hello] zero [] [7]); repeat constructor; try done; cbv; try done; intros; discriminate.
Defined.
