(* ===== verification/HttpMessage.v ===== *)
(** The HTTP message parser: [net/http/parsehttpmessage.c].

    The parser state is [struct HttpMessage]; slices are offsets into the buffer. Reads of
    the buffer are checked ([ParseFault] otherwise). The perfect hash of header names
    ([GetHttpHeader], generated code) and the outcome of [realloc] are parameters. *)
From S2P Require Import Prelude Tables NtArgs.

(** * State *)

Inductive http_state :=
| kHttpStateStart | kHttpStateMethod | kHttpStateUri | kHttpStateVersion | kHttpStateStatus
| kHttpStateMessage | kHttpStateName | kHttpStateColon | kHttpStateValue | kHttpStateCr
| kHttpStateLf1 | kHttpStateLf2.

Inductive http_type := kHttpRequest | kHttpResponse.

(** [struct HttpSlice] *)
Record HttpSlice := Slice { sa : Z; sb : Z }.
Definition slice0 : HttpSlice := Slice 0 0.
(** [struct HttpHeader] *)
Record HttpHeader := { hk : HttpSlice; hv : HttpSlice }.

(** [struct HttpMessage]; [xc] is the capacity of [xheaders]. *)
Record HttpMessage := {
  m_i : Z; m_a : Z; m_status : Z;
  m_t : http_state; m_type : http_type; m_version : Z; m_method : Z;
  m_k : HttpSlice; m_uri : HttpSlice; m_message : HttpSlice;
  m_headers : list HttpSlice;
  m_xheaders : list HttpHeader; m_xc : nat
}.
Definition kHttpHeadersMax : nat := 93.

(** The header numbers [kHttpRepeatable] sets. *)
Definition kHttpRepeatable : list nat :=
  [34 (* AcceptCharset *); 5 (* AcceptEncoding *); 4 (* AcceptLanguage *); 3 (* Accept *);
   32 (* Allow *); 1 (* CacheControl *); 29 (* ContentEncoding *); 49 (* ContentLanguage *);
   52 (* Expect *); 53 (* IfMatch *); 54 (* IfNoneMatch *); 11 (* Pragma *);
   61 (* ProxyAuthenticate *); 64 (* Public *); 66 (* Te *); 67 (* Trailer *);
   68 (* TransferEncoding *); 69 (* Upgrade *); 25 (* Vary *); 72 (* Via *);
   70 (* Warning *); 71 (* WwwAuthenticate *); 8 (* XForwardedFor *); 36 (* AccessControlAllowHeaders *);
   37 (* AccessControlAllowMethods *); 41 (* AccessControlRequestHeaders *); 43 (* AccessControlRequestMethods *)]%nat.
Definition repeatable (h : nat) : bool := bool_decide (h ∈ kHttpRepeatable).

Definition InitHttpMessage (ty : http_type) : HttpMessage :=
  {| m_i := 0; m_a := 0; m_status := 0; m_t := kHttpStateStart; m_type := ty; m_version := 0; m_method := 0;
     m_k := slice0; m_uri := slice0; m_message := slice0;
     m_headers := replicate kHttpHeadersMax slice0; m_xheaders := []; m_xc := 0 |}.

(** Keeps the allocated capacity of the extra headers. *)
Definition ResetHttpMessage (r : HttpMessage) (ty : http_type) : HttpMessage :=
  {| m_i := 0; m_a := 0; m_status := 0; m_t := kHttpStateStart; m_type := ty; m_version := 0; m_method := 0;
     m_k := slice0; m_uri := slice0; m_message := slice0;
     m_headers := replicate kHttpHeadersMax slice0; m_xheaders := []; m_xc := m_xc r |}.
Definition DestroyHttpMessage (r : HttpMessage) : HttpMessage :=
  {| m_i := m_i r; m_a := m_a r; m_status := m_status r; m_t := m_t r; m_type := m_type r; m_version := m_version r; m_method := m_method r;
     m_k := m_k r; m_uri := m_uri r; m_message := m_message r; m_headers := m_headers r; m_xheaders := []; m_xc := 0 |}.

(** Field updates. *)
Definition set_i (v : Z) (r : HttpMessage) : HttpMessage :=
  {| m_i := v; m_a := m_a r; m_status := m_status r; m_t := m_t r; m_type := m_type r; m_version := m_version r; m_method := m_method r; m_k := m_k r; m_uri := m_uri r; m_message := m_message r; m_headers := m_headers r; m_xheaders := m_xheaders r; m_xc := m_xc r |}.
Definition set_a (v : Z) (r : HttpMessage) : HttpMessage :=
  {| m_i := m_i r; m_a := v; m_status := m_status r; m_t := m_t r; m_type := m_type r; m_version := m_version r; m_method := m_method r; m_k := m_k r; m_uri := m_uri r; m_message := m_message r; m_headers := m_headers r; m_xheaders := m_xheaders r; m_xc := m_xc r |}.
Definition set_status (v : Z) (r : HttpMessage) : HttpMessage :=
  {| m_i := m_i r; m_a := m_a r; m_status := v; m_t := m_t r; m_type := m_type r; m_version := m_version r; m_method := m_method r; m_k := m_k r; m_uri := m_uri r; m_message := m_message r; m_headers := m_headers r; m_xheaders := m_xheaders r; m_xc := m_xc r |}.
Definition set_t (v : http_state) (r : HttpMessage) : HttpMessage :=
  {| m_i := m_i r; m_a := m_a r; m_status := m_status r; m_t := v; m_type := m_type r; m_version := m_version r; m_method := m_method r; m_k := m_k r; m_uri := m_uri r; m_message := m_message r; m_headers := m_headers r; m_xheaders := m_xheaders r; m_xc := m_xc r |}.
Definition set_version (v : Z) (r : HttpMessage) : HttpMessage :=
  {| m_i := m_i r; m_a := m_a r; m_status := m_status r; m_t := m_t r; m_type := m_type r; m_version := v; m_method := m_method r; m_k := m_k r; m_uri := m_uri r; m_message := m_message r; m_headers := m_headers r; m_xheaders := m_xheaders r; m_xc := m_xc r |}.
Definition set_method (v : Z) (r : HttpMessage) : HttpMessage :=
  {| m_i := m_i r; m_a := m_a r; m_status := m_status r; m_t := m_t r; m_type := m_type r; m_version := m_version r; m_method := v; m_k := m_k r; m_uri := m_uri r; m_message := m_message r; m_headers := m_headers r; m_xheaders := m_xheaders r; m_xc := m_xc r |}.
Definition set_k (v : HttpSlice) (r : HttpMessage) : HttpMessage :=
  {| m_i := m_i r; m_a := m_a r; m_status := m_status r; m_t := m_t r; m_type := m_type r; m_version := m_version r; m_method := m_method r; m_k := v; m_uri := m_uri r; m_message := m_message r; m_headers := m_headers r; m_xheaders := m_xheaders r; m_xc := m_xc r |}.
Definition set_uri (v : HttpSlice) (r : HttpMessage) : HttpMessage :=
  {| m_i := m_i r; m_a := m_a r; m_status := m_status r; m_t := m_t r; m_type := m_type r; m_version := m_version r; m_method := m_method r; m_k := m_k r; m_uri := v; m_message := m_message r; m_headers := m_headers r; m_xheaders := m_xheaders r; m_xc := m_xc r |}.
Definition set_message (v : HttpSlice) (r : HttpMessage) : HttpMessage :=
  {| m_i := m_i r; m_a := m_a r; m_status := m_status r; m_t := m_t r; m_type := m_type r; m_version := m_version r; m_method := m_method r; m_k := m_k r; m_uri := m_uri r; m_message := v; m_headers := m_headers r; m_xheaders := m_xheaders r; m_xc := m_xc r |}.
Definition set_headers (v : list HttpSlice) (r : HttpMessage) : HttpMessage :=
  {| m_i := m_i r; m_a := m_a r; m_status := m_status r; m_t := m_t r; m_type := m_type r; m_version := m_version r; m_method := m_method r; m_k := m_k r; m_uri := m_uri r; m_message := m_message r; m_headers := v; m_xheaders := m_xheaders r; m_xc := m_xc r |}.
Definition set_xheaders (v : list HttpHeader) (c : nat) (r : HttpMessage) : HttpMessage :=
  {| m_i := m_i r; m_a := m_a r; m_status := m_status r; m_t := m_t r; m_type := m_type r; m_version := m_version r; m_method := m_method r; m_k := m_k r; m_uri := m_uri r; m_message := m_message r; m_headers := m_headers r; m_xheaders := v; m_xc := c |}.

(** * Parsing *)

Inductive parse_result := ParseDone (ret : Z) (r : HttpMessage) | ParseMore (r : HttpMessage) | ParseBad | ParseFault.

(** One turn of an inner [for (;;)]: leave it, fail, or go on to the next character. *)
Inductive inner_step := Break (r : HttpMessage) | Ebadmsg | Again (r : HttpMessage) | InnerFault.
(** The end of a case: [break] out of the switch, [return], fail. *)
Inductive case_end := Continue (r : HttpMessage) | Return (r : HttpMessage) | Fail | Fault.

Definition SHRT_MAX : Z := 32767.
Definition is_control (ch : Z) : bool := (ch <? 0x20) || ((0x7F <=? ch) && (ch <? 0xA0)).
Definition token (ch : Z) : bool := negb (tab kHttpToken ch =? 0).
Definition isdigit (ch : Z) : bool := (0x30 <=? ch) && (ch <=? 0x39).

Section Parser.
(** [GetHttpHeader(name)], [-1] as [None] *)
Context (GetHttpHeader : list Z -> option nat).
(** whether [realloc] to a number of headers succeeds *)
Context (realloc : nat -> bool).
(** the buffer, and how much of it has been received *)
Context (p : list Z) (n : Z).

Definition rd (j : Z) : option Z := if 0 <=? j then p !! Z.to_nat j else None.
Definition text (s : HttpSlice) : list Z := take (Z.to_nat (sb s - sa s)) (drop (Z.to_nat (sa s)) p).

(** The shape the six inner loops share: after a character that is part of the element,
    [if (++r->i == n) break; ch = p[r->i] & 255;]. *)
Fixpoint inner (fuel : nat) (body : HttpMessage -> Z -> inner_step) (r : HttpMessage) (ch : Z) : case_end :=
  match fuel with
  | O => Fault
  | S fuel =>
      match body r ch with
      | Break r => Continue r
      | Ebadmsg => Fail
      | InnerFault => Fault
      | Again r =>
          let r := set_i (m_i r + 1) r in
          if m_i r =? n then Continue r
          else match rd (m_i r) with
               | None => Fault
               | Some c => inner fuel body r (Z.land c 255)
               end
      end
  end.

Definition eol_state (ch : Z) : http_state := if ch =? CR then kHttpStateCr else kHttpStateLf1.
Definition is_eol (ch : Z) : bool := (ch =? CR) || (ch =? LF).

Definition method_body (r : HttpMessage) (ch : Z) : inner_step :=
  if ch =? SP then Break (set_t kHttpStateUri (set_a (m_i r + 1) r))
  else if (m_a r =? 64) || negb (token ch) then Ebadmsg
  else Again (set_a (m_a r + 8) (set_method (Z.lor (m_method r) (u64 (Z.shiftl (tab kToUpper ch) (m_a r)))) r)).

Definition uri_body (r : HttpMessage) (ch : Z) : inner_step :=
  if (ch =? SP) || is_eol ch then
    if m_i r =? m_a r then Ebadmsg
    else
      let r := set_uri (Slice (m_a r) (m_i r)) r in
      if ch =? SP then Break (set_t kHttpStateVersion (set_a (m_i r + 1) r))
      else Break (set_t (eol_state ch) (set_version 9 r))
  else if is_control ch then Ebadmsg
  else Again r.

Definition status_body (r : HttpMessage) (ch : Z) : inner_step :=
  if (ch =? SP) || is_eol ch then
    if m_status r <? 100 then Ebadmsg
    else if ch =? SP then Break (set_t kHttpStateMessage (set_a (m_i r + 1) r))
    else Break (set_t (eol_state ch) r)
  else if (0x30 <=? ch) && (ch <=? 0x39) then
    let st := m_status r * 10 + (ch - 0x30) in
    if 999 <? st then Ebadmsg else Again (set_status st r)
  else Ebadmsg.

Definition message_body (r : HttpMessage) (ch : Z) : inner_step :=
  if is_eol ch then Break (set_t (eol_state ch) (set_message (Slice (m_a r) (m_i r)) r))
  else if is_control ch then Ebadmsg
  else Again r.

Definition name_body (r : HttpMessage) (ch : Z) : inner_step :=
  if ch =? COLON then Break (set_t kHttpStateColon (set_k (Slice (sa (m_k r)) (m_i r)) r))
  else if negb (token ch) then Ebadmsg
  else Again r.

(** [while (i > r->a && (p[i - 1] == ' ' || p[i - 1] == '\t')) --i;] *)
Fixpoint trim (fuel : nat) (lo j : Z) : option Z :=
  match fuel with
  | O => None
  | S fuel =>
      if lo <? j then
        match rd (j - 1) with
        | None => None
        | Some c => if (c =? SP) || (c =? HT) then trim fuel lo (j - 1) else Some j
        end
      else Some j
  end.

(** Files a header under its number, or with the extra ones. *)
Definition add_header (r : HttpMessage) (v : HttpSlice) : HttpMessage :=
  let extra :=
    let c := if (length (m_xheaders r) =? m_xc r)%nat then
               let c2 := if (m_xc r =? 0)%nat then 1%nat else (m_xc r * 2)%nat in
               if realloc c2 then c2 else m_xc r
             else m_xc r in
    if (length (m_xheaders r) <? c)%nat
    then set_xheaders (m_xheaders r ++ [{| hk := m_k r; hv := v |}]) c r
    else set_xheaders (m_xheaders r) c r in
  match GetHttpHeader (text (m_k r)) with
  | Some h =>
      if (sa (nth h (m_headers r) slice0) =? 0) || negb (repeatable h)
      then set_headers (<[h := v]> (m_headers r)) r
      else extra
  | None => extra
  end.

Definition value_body (r : HttpMessage) (ch : Z) : inner_step :=
  if is_eol ch then
    match trim (S (Z.to_nat (m_i r))) (m_a r) (m_i r) with
    | None => InnerFault
    | Some j => Break (set_t (eol_state ch) (add_header r (Slice (m_a r) j)))
    end
  else if ((ch <? 0x20) && negb (ch =? HT)) || ((0x7F <=? ch) && (ch <? 0xA0)) then Ebadmsg
  else Again r.

(** [READ64BE(p + a)] *)
Fixpoint read_be (m : nat) (j : Z) (acc : Z) : option Z :=
  match m with
  | O => Some acc
  | S m => match rd j with None => None | Some c => read_be m (j + 1) (acc * 256 + c) end
  end.

Definition version_case (r : HttpMessage) (ch : Z) : case_end :=
  if (ch =? SP) || is_eol ch then
    if m_i r - m_a r =? 8 then
      match read_be 8 (m_a r) 0, rd (m_a r + 5), rd (m_a r + 7) with
      | Some w, Some x, Some y =>
          if (Z.land w 0xFFFFFFFFFF00FF00 =? 0x485454502F002E00) && isdigit x && isdigit y then
            let r := set_version ((x - 0x30) * 10 + (y - 0x30)) r in
            Continue (match m_type r with
                      | kHttpRequest => set_t (eol_state ch) r
                      | kHttpResponse => set_t kHttpStateStatus r
                      end)
          else Fail
      | _, _, _ => Fault
      end
    else Fail
  else Continue r.

(** The [switch] on the state. *)
Definition parse_switch (r : HttpMessage) (ch : Z) : case_end :=
  let fuel := S (Z.to_nat (n - m_i r)) in
  match m_t r with
  | kHttpStateStart =>
      if is_eol ch then Continue r
      else if negb (token ch) then Fail
      else match m_type r with
           | kHttpRequest => Continue (set_a 8 (set_method (tab kToUpper ch) (set_t kHttpStateMethod r)))
           | kHttpResponse => Continue (set_a (m_i r) (set_t kHttpStateVersion r))
           end
  | kHttpStateMethod => inner fuel method_body r ch
  | kHttpStateUri => inner fuel uri_body r ch
  | kHttpStateVersion => version_case r ch
  | kHttpStateStatus => inner fuel status_body r ch
  | kHttpStateMessage => inner fuel message_body r ch
  | kHttpStateCr => if negb (ch =? LF) then Fail else Continue (set_t kHttpStateLf1 r)
  | kHttpStateLf1 =>
      if ch =? CR then Continue (set_t kHttpStateLf2 r)
      else if ch =? LF then Return (set_i (m_i r + 1) r)
      else if negb (token ch) then Fail
      else Continue (set_t kHttpStateName (set_k (Slice (m_i r) (sb (m_k r))) r))
  | kHttpStateName => inner fuel name_body r ch
  | kHttpStateColon =>
      if (ch =? SP) || (ch =? HT) then Continue r
      else inner fuel value_body (set_t kHttpStateValue (set_a (m_i r) r)) ch
  | kHttpStateValue => inner fuel value_body r ch
  | kHttpStateLf2 => if ch =? LF then Return (set_i (m_i r + 1) r) else Fail
  end.

Fixpoint parse_loop (fuel : nat) (r : HttpMessage) : parse_result :=
  if m_i r <? n then
    match fuel with
    | O => ParseFault
    | S fuel =>
        match rd (m_i r) with
        | None => ParseFault
        | Some c =>
            match parse_switch r (Z.land c 255) with
            | Continue r => parse_loop fuel (set_i (m_i r + 1) r)
            | Return r => ParseDone (m_i r) r
            | Fail => ParseBad
            | Fault => ParseFault
            end
        end
    end
  else ParseMore r.
End Parser.

(** [ParseHttpMessage(r, p, n, c)] with [c] the length of [p]; [EINVAL] is [ParseBad]. *)
Definition ParseHttpMessage (GetHttpHeader : list Z -> option nat) (realloc : nat -> bool)
    (r : HttpMessage) (p : list Z) (n : Z) : parse_result :=
  let c := Z.of_nat (length p) in
  if c <? n then ParseBad
  else
    let n := if SHRT_MAX <? n then SHRT_MAX else n in
    let c := if SHRT_MAX <? c then SHRT_MAX else c in
    match parse_loop GetHttpHeader realloc p n (S (Z.to_nat (n - m_i r))) r with
    | ParseMore r => if m_i r <? c then ParseMore r else ParseBad
    | res => res
    end.

(** * Examples *)

Definition get_host (name : list Z) : option nat :=
  if decide (name = ascii_codes "Host"%string) then Some 0%nat else None.
Definition CRLF : list Z := [CR; LF].
Definition sample_request : list Z :=
  ascii_codes "GET /ab HTTP/1.1"%string ++ CRLF ++ ascii_codes "Host: example.com "%string ++ CRLF ++
  ascii_codes "X-Y:z"%string ++ CRLF ++ CRLF.

Example ParseHttpMessage_runs :
  match ParseHttpMessage get_host (fun _ => true) (InitHttpMessage kHttpRequest) sample_request (Z.of_nat (length sample_request)) with
  | ParseDone ret r =>
      (ret, m_method r, text sample_request (m_uri r), m_version r, text sample_request (nth 0 (m_headers r) slice0),
       map (fun h => (text sample_request (hk h), text sample_request (hv h))) (m_xheaders r))
      = (47, 0x544547, ascii_codes "/ab"%string, 11, ascii_codes "example.com"%string, [(ascii_codes "X-Y"%string, ascii_codes "z"%string)])
  | _ => False
  end.
Proof. vm_compute. reflexivity. Qed.
