(* ===== verification/HttpMessageFacts.v ===== *)
(** The HTTP parser: what it guarantees for any bytes, and that it reads back a well-formed
    request. *)
From S2P Require Import Prelude Tables NtArgs HttpMessage.

(** * What the parser guarantees *)

Definition field_char (c : Z) : Prop := is_control c = false.
Definition value_char (c : Z) : Prop := is_control c = false \/ c = HT.
Definition token_char (c : Z) : Prop := token c = true.

(** Every byte of [p[lo, hi)] is inside the buffer and satisfies [P]. *)
Definition region (p : list Z) (P : Z -> Prop) (lo hi : Z) : Prop :=
  0 <= lo <= hi /\ forall j, lo <= j < hi -> exists c, rd p j = Some c /\ P c.
Definition slice_ok (p : list Z) (P : Z -> Prop) (lim : Z) (s : HttpSlice) : Prop :=
  region p P (sa s) (sb s) /\ sb s <= lim.

(** The fields of a message: no control codes except tabs in header values, names made of
    token characters, everything within the first [lim] bytes. *)
Record clean (p : list Z) (lim : Z) (r : HttpMessage) : Prop := {
  clean_uri : slice_ok p field_char lim (m_uri r);
  clean_message : slice_ok p field_char lim (m_message r);
  clean_headers : Forall (slice_ok p value_char lim) (m_headers r);
  clean_xheaders : Forall (fun h => slice_ok p token_char lim (hk h) /\ slice_ok p value_char lim (hv h)) (m_xheaders r)
}.

Lemma set_set_i x y r : set_i x (set_i y r) = set_i x r.
Proof. done. Qed.
Lemma set_i_id r : set_i (m_i r) r = r.
Proof. by destruct r. Qed.

Section Regions.
Context (p : list Z).

Lemma region_nil P lo : 0 <= lo -> region p P lo lo.
Proof. intros. split; [lia|]. intros j Hj. lia. Qed.
Lemma region_snoc P lo hi c : region p P lo hi -> rd p hi = Some c -> P c -> region p P lo (hi + 1).
Proof.
  intros [Hl Hr] Hc HP. split; [lia|]. intros j Hj. destruct (decide (j = hi)) as [->|]; [by exists c|].
  apply Hr. lia.
Qed.
Lemma region_le P lo hi hi' : region p P lo hi -> lo <= hi' <= hi -> region p P lo hi'.
Proof. intros [Hl Hr] Hh. split; [lia|]. intros j Hj. apply Hr. lia. Qed.

Lemma slice_ok_le P lim lim' s : slice_ok p P lim s -> lim <= lim' -> slice_ok p P lim' s.
Proof. intros [H1 H2] H. split; [done|lia]. Qed.
Lemma clean_le lim lim' r : clean p lim r -> lim <= lim' -> clean p lim' r.
Proof.
  intros [H1 H2 H3 H4] H. split; try (eapply slice_ok_le; [done|lia]).
  - revert H3. apply List.Forall_impl. intros s Hs. by eapply slice_ok_le.
  - revert H4. apply List.Forall_impl. intros h [? ?]. split; by eapply slice_ok_le.
Qed.

Lemma clean_ext lim r r' :
  m_uri r' = m_uri r -> m_message r' = m_message r -> m_headers r' = m_headers r -> m_xheaders r' = m_xheaders r ->
  clean p lim r -> clean p lim r'.
Proof. intros E1 E2 E3 E4 [H1 H2 H3 H4]. split; by rewrite ?E1, ?E2, ?E3, ?E4. Qed.

End Regions.

Section Safety.
Context (gh : list Z -> option nat) (realloc : nat -> bool) (p : list Z) (n : Z).
Context (Hp : Forall is_byte p) (Hn : 0 <= n <= Z.of_nat (length p)).

Lemma rd_in_bounds j : 0 <= j < n -> exists c, rd p j = Some c /\ is_byte c.
Proof.
  intros Hj. unfold rd. rewrite if_true by lia.
  destruct (lookup_lt_is_Some_2 p (Z.to_nat j) ltac:(lia)) as [c Hc]. exists c. split; [done|].
  rewrite Forall_lookup in Hp. exact (Hp _ _ Hc).
Qed.

(** What holds in each state about the element being read, up to offset [m_i]. *)
Definition partial (r : HttpMessage) : Prop :=
  match m_t r with
  | kHttpStateUri => region p field_char (m_a r) (m_i r)
  | kHttpStateVersion => 0 <= m_a r
  | kHttpStateMessage => region p field_char (m_a r) (m_i r)
  | kHttpStateName => region p token_char (sa (m_k r)) (m_i r)
  | kHttpStateColon => slice_ok p token_char (m_i r) (m_k r)
  | kHttpStateValue => slice_ok p token_char (m_i r) (m_k r) /\ region p value_char (m_a r) (m_i r)
  | _ => True
  end.
Definition inv (r : HttpMessage) : Prop := 0 <= m_i r /\ clean p (m_i r) r /\ partial r.

(** [body] keeps an element's invariant [J] while it goes on, and leaves in a state whose
    next character finds [inv]. *)
Definition body_ok (J : HttpMessage -> Prop) (body : HttpMessage -> Z -> inner_step) : Prop :=
  forall r c, J r -> 0 <= m_i r < n -> rd p (m_i r) = Some c -> is_byte c ->
  match body r c with
  | Break r' => m_i r' = m_i r /\ inv (set_i (m_i r + 1) r')
  | Again r' => m_i r' = m_i r /\ J (set_i (m_i r + 1) r')
  | Ebadmsg => True
  | InnerFault => False
  end.

(** How a case of the switch may end: with the invariant for the next character, at the
    end of the data, or with a complete message. *)
Definition end_ok (lo : Z) (e : case_end) : Prop :=
  match e with
  | Continue r => lo <= m_i r /\ (n <= m_i r + 1 \/ (m_i r < n /\ inv (set_i (m_i r + 1) r)))
  | Return r => 0 < m_i r <= n /\ clean p (m_i r) r
  | Fail => True
  | Fault => False
  end.


Lemma inner_ok J body fuel r c :
  body_ok J body -> J r -> 0 <= m_i r < n -> rd p (m_i r) = Some c -> is_byte c ->
  (Z.to_nat (n - m_i r) <= fuel)%nat -> end_ok (m_i r) (inner p n fuel body r c).
Proof.
  intros Hb. revert r c. induction fuel as [|fuel IH]; intros r c HJ Hi Hc Hbyte Hf; [lia|].
  cbn [inner]. pose proof (Hb r c HJ Hi Hc Hbyte) as Hr.
  destruct (body r c) as [r'| |r'|]; [| done | | done].
  - destruct Hr as [Ei Hinv]. split; [lia|]. right. rewrite Ei. split; [lia|done].
  - destruct Hr as [Ei HJ']. rewrite Ei. cbn [m_i set_i]. case_if; bool_prop; [split; [cbn; lia|left; cbn; lia]|].
    destruct (rd_in_bounds (m_i r + 1) ltac:(lia)) as (c' & Ec & Hc'). rewrite Ec, byte_land by done.
    specialize (IH (set_i (m_i r + 1) r') c').
    destruct (inner p n fuel body (set_i (m_i r + 1) r') c') as [r2|r2| |];
      [|apply IH; cbn [m_i set_i]; done || lia..].
    destruct IH as [Hlo Hx]; try (cbn [m_i set_i]; done || lia). split; [cbn in Hlo; lia|done].
Qed.

Ltac keep_clean := first
  [ done
  | match goal with H : clean p ?l ?r |- clean p ?l' ?r' =>
      apply (clean_le p l); [apply (clean_ext p l r); [reflexivity..|exact H]|cbn [m_i set_i set_t set_a set_k] in *; lia] end ].

Lemma is_control_field c : is_control c = false -> field_char c.
Proof. done. Qed.

(** ** The six loops *)

Definition base (r : HttpMessage) : Prop := 0 <= m_i r /\ clean p (m_i r) r.

Lemma base_next r x : base r -> m_i r <= x -> base (set_i x r).
Proof. intros [H1 H2] Hx. split; [cbn; lia|]. keep_clean. Qed.

(** Leaving an element through the end of a line, or into a state with nothing read. *)
Lemma inv_plain r r' st :
  base r -> m_i r' = m_i r -> m_uri r' = m_uri r -> m_message r' = m_message r -> m_headers r' = m_headers r ->
  m_xheaders r' = m_xheaders r -> m_t r' = st ->
  (st = kHttpStateCr \/ st = kHttpStateLf1 \/ st = kHttpStateLf2 \/ st = kHttpStateStart \/ st = kHttpStateMethod \/ st = kHttpStateStatus) ->
  inv (set_i (m_i r + 1) r').
Proof.
  intros [H1 H2] E1 E2 E3 E4 E5 Et Hst. split; [cbn; lia|]. split.
  - apply (clean_le p (m_i r)); [|cbn; lia]. apply (clean_ext p _ r); done.
  - unfold partial. cbn [m_t set_i]. rewrite Et. by destruct Hst as [->|[->|[->|[->|[->| ->]]]]].
Qed.

Ltac plain r st :=
  apply (inv_plain r _ st); [assumption|reflexivity|reflexivity|reflexivity|reflexivity|reflexivity
                            |first [reflexivity|assumption]|tauto].

Lemma eol_state_cases ch : eol_state ch = kHttpStateCr \/ eol_state ch = kHttpStateLf1.
Proof. unfold eol_state. case_if; auto. Qed.

Lemma method_ok : body_ok base method_body.
Proof.
  intros r c Hb Hi Hc Hbyte. unfold method_body. repeat case_if; try done; cbn [m_i set_i set_t set_a set_method]; (split; [done|]).
  - destruct Hb as [H1 H2]. split; [cbn; lia|]. split; [keep_clean|]. apply region_nil. cbn. lia.
  - destruct Hb as [H1 H2]. split; [cbn; lia|]. keep_clean.
Qed.

Lemma uri_ok : body_ok (fun r => base r /\ region p field_char (m_a r) (m_i r)) uri_body.
Proof.
  intros r c [Hb Hr] Hi Hc Hbyte. pose proof Hb as [H0 Hcl]. unfold uri_body.
  assert (clean p (m_i r) (set_uri (Slice (m_a r) (m_i r)) r)) as Hu.
  { destruct Hcl as [C1 C2 C3 C4]. split; try done; (split; [exact Hr|cbn; lia]). }
  destruct ((c =? SP) || is_eol c); [|destruct (is_control c) eqn:Ec; [done|]].
  - case_if; [done|]. case_if; cbn [m_i set_i set_t set_a set_uri]; (split; [done|]).
    + split; [cbn; lia|]. split; [keep_clean|]. cbn. lia.
    + eapply (inv_plain (set_uri (Slice (m_a r) (m_i r)) r)); try done.
      destruct (eol_state_cases c) as [->| ->]; auto.
  - split; [done|]. split; [by apply base_next; [|lia]|]. cbn. by eapply region_snoc.
Qed.

Lemma status_ok : body_ok base status_body.
Proof.
  intros r c Hb Hi Hc Hbyte. unfold status_body. repeat case_if; try done; cbn [m_i set_i set_t set_a set_status]; (split; [done|]).
  - destruct Hb as [H1 H2]. split; [cbn; lia|]. split; [keep_clean|]. apply region_nil. cbn. lia.
  - eapply (inv_plain r); try done. destruct (eol_state_cases c) as [->| ->]; auto.
  - destruct Hb as [H1 H2]. split; [cbn; lia|]. keep_clean.
Qed.

Lemma message_ok : body_ok (fun r => base r /\ region p field_char (m_a r) (m_i r)) message_body.
Proof.
  intros r c [Hb Hr] Hi Hc Hbyte. pose proof Hb as [H0 Hcl]. unfold message_body.
  assert (clean p (m_i r) (set_message (Slice (m_a r) (m_i r)) r)) as Hu.
  { destruct Hcl as [C1 C2 C3 C4]. split; try done; (split; [exact Hr|cbn; lia]). }
  destruct (is_eol c); [|destruct (is_control c) eqn:Ec; [done|]]; (split; [done|]).
  - eapply (inv_plain (set_message (Slice (m_a r) (m_i r)) r)); try done.
    destruct (eol_state_cases c) as [->| ->]; auto.
  - split; [by apply base_next; [|lia]|]. cbn. by eapply region_snoc.
Qed.

Lemma name_ok : body_ok (fun r => base r /\ region p token_char (sa (m_k r)) (m_i r)) name_body.
Proof.
  intros r c [Hb Hr] Hi Hc Hbyte. pose proof Hb as [H0 Hcl]. unfold name_body.
  destruct (c =? COLON); [|destruct (token c) eqn:Ec; [|done]]; cbn [negb]; (split; [done|]).
  - split; [cbn; lia|]. split; [keep_clean|]. split; [exact Hr|cbn; lia].
  - split; [by apply base_next; [|lia]|]. cbn. by eapply region_snoc.
Qed.

Lemma trim_ok fuel lo j :
  region p value_char lo j -> (Z.to_nat (j - lo) < fuel)%nat ->
  exists j', trim p fuel lo j = Some j' /\ lo <= j' <= j.
Proof.
  revert j. induction fuel as [|fuel IH]; intros j Hr Hf; [lia|]. cbn [trim]. pose proof Hr as [Hl Hc].
  case_if; bool_prop; [|exists j; split; [done|lia]].
  destruct (Hc (j - 1) ltac:(lia)) as (c & -> & _). case_if; [|exists j; split; [done|lia]].
  destruct (IH (j - 1)) as (j' & -> & Hj'); [eapply region_le; [done|lia]|lia|].
  exists j'. split; [done|lia].
Qed.

Lemma add_header_clean lim r v :
  clean p lim r -> slice_ok p token_char lim (m_k r) -> slice_ok p value_char lim v ->
  clean p lim (add_header gh realloc p r v) /\ m_i (add_header gh realloc p r v) = m_i r.
Proof.
  intros Hcl Hk Hv. pose proof Hcl as [C1 C2 C3 C4]. unfold add_header.
  set (extra := if (_ <? _)%nat then _ else _).
  assert (clean p lim extra /\ m_i extra = m_i r) as Hextra.
  { unfold extra. case_if; (split; [|done]); split; try done. cbn.
    apply Forall_app. split; [done|]. constructor; [done|constructor]. }
  destruct (gh (text p (m_k r))) as [h|]; [|done]. case_if; [|done].
  split; [|done]. split; try done. cbn. by apply Forall_insert.
Qed.

Lemma add_header_state r v : m_t (add_header gh realloc p r v) = m_t r.
Proof. unfold add_header. destruct (gh (text p (m_k r))); repeat case_if; done. Qed.

Lemma value_ok : body_ok (fun r => base r /\ slice_ok p token_char (m_i r) (m_k r) /\ region p value_char (m_a r) (m_i r))
  (value_body gh realloc p).
Proof.
  intros r c (Hb & Hk & Hr) Hi Hc Hbyte. pose proof Hb as [H0 Hcl]. unfold value_body.
  destruct (is_eol c); [|destruct (((c <? 0x20) && negb (c =? HT)) || ((0x7F <=? c) && (c <? 0xA0))) eqn:Ec; [done|]].
  - destruct (trim_ok (S (Z.to_nat (m_i r))) (m_a r) (m_i r) Hr) as (j & -> & Hj); [destruct Hr; lia|].
    destruct (add_header_clean (m_i r) r (Slice (m_a r) j) Hcl Hk) as [Hcl' Hi'].
    { split; [cbn; by eapply region_le|cbn; lia]. }
    split; [done|]. split; [cbn; lia|]. split.
    + apply (clean_le p (m_i r)); [|cbn; lia]. eapply clean_ext; [..|exact Hcl']; done.
    + unfold partial. cbn [m_t set_i set_t]. by destruct (eol_state_cases c) as [->| ->].
  - split; [done|]. split; [by apply base_next; [|lia]|]. split; [cbn; eapply slice_ok_le; [done|lia]|].
    cbn. eapply region_snoc; [done..|]. unfold value_char, is_control.
    destruct (decide (c = HT)) as [->|Hne]; [by right|left].
    apply orb_false_iff in Ec as [Ec ->]. rewrite (proj2 (Z.eqb_neq c HT)) in Ec by done.
    cbn [negb] in Ec. rewrite andb_true_r in Ec. by rewrite Ec.
Qed.

(** ** The switch and the main loop *)

Lemma base_of_inv r : inv r -> base r.
Proof. intros (H1 & H2 & _). done. Qed.

Lemma switch_ok r c :
  inv r -> m_i r < n -> rd p (m_i r) = Some c -> is_byte c -> end_ok (m_i r) (parse_switch gh realloc p n r c).
Proof.
  intros Hinv Hi Hc Hbyte. pose proof (base_of_inv r Hinv) as Hb. destruct Hinv as (H0 & Hcl & Hpart).
  unfold parse_switch. unfold partial in Hpart. destruct (m_t r) eqn:Et.
  - case_if; [|case_if; [done|destruct (m_type r)]]; cbn [end_ok m_i set_a set_method set_t]; (split; [done|]); right; (split; [done|]).
    + plain r kHttpStateStart.
    + plain r kHttpStateMethod.
    + split; [cbn; lia|]. split; [keep_clean|]. cbn. lia.
  - eapply inner_ok; [apply method_ok|done..|lia|done|done|lia].
  - eapply inner_ok; [apply uri_ok|done..|lia|done|done|lia].
  - unfold version_case. destruct ((c =? SP) || is_eol c).
    + case_if; [|done]. bool_prop.
      assert (forall m j acc, 0 <= j -> j + Z.of_nat m <= n -> exists w, read_be p m j acc = Some w) as Hbe.
      { clear - gh realloc Hp Hn. induction m as [|m IH]; intros j acc Hj Hm; [by exists acc|]. cbn [read_be].
        destruct (rd_in_bounds j ltac:(lia)) as (x & -> & _). apply IH; lia. }
      destruct (Hbe 8%nat (m_a r) 0) as [w ->]; [lia|lia|].
      destruct (rd_in_bounds (m_a r + 5) ltac:(lia)) as (x & -> & _), (rd_in_bounds (m_a r + 7) ltac:(lia)) as (y & -> & _).
      case_if; [|done]. cbn [m_type set_version]. split; [by destruct (m_type r)|]. right. destruct (m_type r); (split; [done|]); [|plain r kHttpStateStatus].
      apply (inv_plain r _ (eol_state c)); try done. destruct (eol_state_cases c) as [->| ->]; tauto.
    + split; [done|]. right. split; [done|]. split; [cbn; lia|]. split; [keep_clean|]. unfold partial. cbn [m_t set_i]. by rewrite Et.
  - eapply inner_ok; [apply status_ok|done..|lia|done|done|lia].
  - eapply inner_ok; [apply message_ok|done..|lia|done|done|lia].
  - eapply inner_ok; [apply name_ok|done..|lia|done|done|lia].
  - case_if.
    + split; [done|]. right. split; [done|]. split; [cbn; lia|]. split; [keep_clean|]. unfold partial. cbn [m_t set_i]. rewrite Et.
      eapply slice_ok_le; [done|cbn; lia].
    + refine (inner_ok _ _ (S (Z.to_nat (n - m_i r))) (set_t kHttpStateValue (set_a (m_i r) r)) c value_ok _ _ _ _ _);
        cbn [m_i set_t set_a]; [|lia|done|done|lia].
      split; [split; [done|keep_clean]|]. split; [done|]. by apply region_nil.
  - apply (inner_ok _ _ _ _ _ value_ok); [by split|lia|done|done|lia].
  - case_if; [done|]. split; [done|]. right. split; [done|]. plain r kHttpStateLf1.
  - case_if; [|case_if; [|case_if; [done|]]].
    + split; [done|]. right. split; [done|]. plain r kHttpStateLf2.
    + split; [cbn; lia|]. cbn. keep_clean.
    + split; [done|]. right. split; [done|]. split; [cbn; lia|]. split; [keep_clean|].
      unfold partial. cbn. eapply region_snoc; [by apply region_nil|done|].
      unfold token_char. bool_prop. done.
  - case_if; [|done]. split; [cbn; lia|]. cbn. keep_clean.
Qed.

Lemma loop_ok fuel r :
  inv r -> (Z.to_nat (n - m_i r) <= fuel)%nat ->
  match parse_loop gh realloc p n fuel r with
  | ParseDone ret r' => 0 < ret <= n /\ clean p ret r'
  | ParseFault => False
  | _ => True
  end.
Proof.
  revert r. induction fuel as [|fuel IH]; intros r Hinv Hf; cbn [parse_loop].
  - by rewrite if_false by lia.
  - case_if; [|done]. bool_prop. destruct (rd_in_bounds (m_i r)) as (c & Hc & Hbyte); [split; [apply Hinv|done]|].
    rewrite Hc, byte_land by done. pose proof (switch_ok r c Hinv ltac:(lia) Hc Hbyte) as He.
    destruct (parse_switch gh realloc p n r c) as [r'|r'| |]; [|done..].
    destruct He as [Hlo [He|[Hi He]]].
    + assert (parse_loop gh realloc p n fuel (set_i (m_i r' + 1) r') = ParseMore (set_i (m_i r' + 1) r')) as ->; [|done].
      destruct fuel; cbn [parse_loop m_i set_i]; by rewrite if_false by lia.
    + apply IH; [done|]. cbn. lia.
Qed.
End Safety.

Lemma reset_inv p r0 ty : inv p (ResetHttpMessage r0 ty).
Proof.
  assert (forall P, slice_ok p P 0 slice0) as Hs by (intros P; unfold slice0; split; cbn; [apply region_nil; lia|lia]).
  split; [done|]. split; [split; try apply Hs; [|constructor]|done].
  cbn [m_headers ResetHttpMessage]. by apply Forall_replicate.
Qed.



(** * Messages that arrive in parts *)

Definition small_request : list Z := ascii_codes "GET /a HTTP/1.1"%string ++ CRLF ++ CRLF.

(** A message that arrives in two parts is not parsed as one that arrives whole: when
    the data ends inside an element, both the inner and the outer loop advance, so the
    first byte of the next part is skipped. Here the skipped byte is the space that ends
    the URI, and the request becomes an HTTP/0.9 one for another resource. *)
Theorem ParseHttpMessage_fragment_skips_byte :
  match ParseHttpMessage get_host (fun _ => true) (InitHttpMessage kHttpRequest) small_request 6 with
  | ParseMore r =>
      match ParseHttpMessage get_host (fun _ => true) r small_request 19,
            ParseHttpMessage get_host (fun _ => true) (InitHttpMessage kHttpRequest) small_request 19 with
      | ParseDone _ parts, ParseDone _ whole =>
          m_i r = 7 /\
          text small_request (m_uri parts) = ascii_codes "/a HTTP/1.1"%string /\ m_version parts = 9 /\
          text small_request (m_uri whole) = ascii_codes "/a"%string /\ m_version whole = 11
      | _, _ => False
      end
  | _ => False
  end.
Proof. vm_compute. repeat split. Qed.

(** * Well-formed requests *)

Record request := { q_method : list Z; q_uri : list Z; q_x : Z; q_y : Z; q_headers : list (list Z * list Z) }.

Definition print_header (h : list Z * list Z) : list Z := h.1 ++ [COLON; SP] ++ h.2 ++ CRLF.
Definition print_version (q : request) : list Z := ascii_codes "HTTP/"%string ++ [q_x q; DOT; q_y q].
Definition print_request (q : request) : list Z :=
  q_method q ++ [SP] ++ q_uri q ++ [SP] ++ print_version q ++ CRLF ++
  flat_map print_header (q_headers q) ++ CRLF.

Definition blank (c : Z) : Prop := c = SP \/ c = HT.
Definition tokenish (c : Z) : Prop := is_byte c /\ token_char c.
Definition header_ok (h : list Z * list Z) : Prop :=
  h.1 <> [] /\ Forall tokenish h.1 /\ Forall (fun c => is_byte c /\ value_char c) h.2 /\
  (forall c l, h.2 = c :: l -> ~ blank c) /\ (forall c l, h.2 = l ++ [c] -> ~ blank c).
Definition request_ok (q : request) : Prop :=
  (1 <= length (q_method q) <= 8)%nat /\ Forall tokenish (q_method q) /\
  q_uri q <> [] /\ Forall (fun c => is_byte c /\ field_char c /\ c <> SP) (q_uri q) /\
  isdigit (q_x q) = true /\ isdigit (q_y q) = true /\ Forall header_ok (q_headers q).

(** The method as a little-endian word of upper-case letters. *)
Fixpoint method_word (m : list Z) : Z :=
  match m with
  | [] => 0
  | c :: m => tab kToUpper c + 256 * method_word m
  end.

(** ** Reading at a position *)

Lemma rd_app pre c post : rd (pre ++ c :: post) (Z.of_nat (length pre)) = Some c.
Proof. unfold rd. rewrite if_true by (apply Z.leb_le; lia). rewrite Nat2Z.id. by apply list_lookup_middle. Qed.

Lemma rd_app_nth pre l m j : rd (pre ++ l ++ m) (Z.of_nat (length pre) + Z.of_nat j) = (l ++ m) !! j.
Proof. unfold rd. rewrite if_true by (apply Z.leb_le; lia). rewrite lookup_app_r by lia. f_equal. lia. Qed.

Lemma token_facts c : is_byte c -> token c = true -> c <> COLON /\ c <> SP /\ c <> CR /\ c <> LF.
Proof.
  intros Hb Ht.
  pose proof (byte_enum (fun c => implb (token c) (negb (c =? COLON) && negb (c =? SP) && negb (c =? CR) && negb (c =? LF))) eq_refl c Hb) as H.
  cbv beta in H. rewrite Ht in H. cbn [implb] in H. bool_prop. done.
Qed.
Lemma upper_byte c : is_byte c -> 0 <= tab kToUpper c < 256.
Proof.
  intros Hb. pose proof (byte_enum (fun c => (0 <=? tab kToUpper c) && (tab kToUpper c <? 256)) eq_refl c Hb) as H.
  cbv beta in H. lia.
Qed.
Lemma control_facts c : is_control c = false -> 32 <= c.
Proof. unfold is_control. intros. bool_prop. lia. Qed.

Section Run.
Context (gh : list Z -> option nat) (realloc : nat -> bool) (p : list Z) (n : Z).
Context (Hn : n = Z.of_nat (length p)).

(** A run of characters that an inner loop passes over, and the one that ends it. *)
Lemma inner_run body cs pre stop post fuel r r' :
  p = pre ++ cs ++ stop :: post -> Forall is_byte (cs ++ [stop]) -> m_i r = Z.of_nat (length pre) ->
  Forall (fun c => forall r, body r c = Again r) cs -> (length cs < fuel)%nat ->
  body (set_i (Z.of_nat (length pre + length cs)) r) stop = Break r' ->
  inner p n fuel body r (List.hd stop cs) = Continue r'.
Proof.
  intros Hp Hb Hi Hcs. revert pre fuel r Hp Hb Hi. induction Hcs as [|c cs Hc Hcs IH]; intros pre fuel r Hp Hb Hi Hf Hstop.
  - destruct fuel; [lia|]. cbn [inner List.hd length] in *. rewrite Nat.add_0_r in Hstop.
    replace r with (set_i (Z.of_nat (length pre)) r) by (rewrite <- Hi; apply set_i_id). by rewrite Hstop.
  - destruct fuel; [lia|]. cbn [inner List.hd app length] in *. rewrite Hc. cbn [m_i set_i]. rewrite Hi.
    assert (n = Z.of_nat (length pre + (S (length cs) + S (length post)))) as Hlen.
    { rewrite Hn, Hp. cbn [app]. rewrite !length_app. cbn [length]. rewrite !length_app. cbn [length]. done. }
    rewrite if_false by lia.
    apply List.Forall_cons_iff in Hb as [_ Hb].
    assert (rd p (Z.of_nat (length pre) + 1) = Some (List.hd stop cs)) as ->.
    { replace (Z.of_nat (length pre) + 1) with (Z.of_nat (length (pre ++ [c]))) by (rewrite length_app; cbn; lia).
      rewrite Hp, cons_middle, app_assoc. destruct cs; apply rd_app. }
    rewrite byte_land; [|destruct cs; by apply List.Forall_inv in Hb].
    apply (IH (pre ++ [c])); [by rewrite Hp, <- app_assoc|done|rewrite length_app; cbn; lia|lia|].
    rewrite set_set_i. rewrite <- Hstop. do 2 f_equal. rewrite length_app. cbn. lia.
Qed.

Lemma loop_step f r r' c pre post :
  p = pre ++ c :: post -> is_byte c -> m_i r = Z.of_nat (length pre) ->
  parse_switch gh realloc p n r c = Continue r' ->
  parse_loop gh realloc p n (S f) r = parse_loop gh realloc p n f (set_i (m_i r' + 1) r').
Proof.
  intros Hp Hc Hi Hs. cbn [parse_loop].
  rewrite if_true by (apply Z.ltb_lt; rewrite Hi, Hn, Hp, length_app; cbn [length]; lia).
  rewrite Hi, Hp at 1. rewrite rd_app, byte_land, Hs by done. done.
Qed.

(** ** The request line *)

Lemma method_run cs pre post fuel r j w :
  p = pre ++ cs ++ SP :: post -> Forall tokenish cs -> m_i r = Z.of_nat (length pre) ->
  m_a r = 8 * Z.of_nat j -> m_method r = w -> 0 <= w < 2 ^ (8 * Z.of_nat j) -> (j + length cs <= 8)%nat -> (length cs < fuel)%nat ->
  inner p n fuel method_body r (List.hd SP cs) =
  Continue (set_t kHttpStateUri (set_a (Z.of_nat (length pre + length cs) + 1) (set_i (Z.of_nat (length pre + length cs))
    (set_method (w + 2 ^ (8 * Z.of_nat j) * method_word cs) r)))).
Proof.
  intros Hp Hcs. revert pre fuel r j w Hp. induction Hcs as [|c cs [Hb Hc] Hcs IH]; intros pre fuel r j w Hp Hi Ha Hw Hwr Hj Hf;
    (destruct fuel as [|fuel]; [lia|]); cbn [inner List.hd app length method_word] in *.
  - unfold method_body. rewrite Z.eqb_refl, Nat.add_0_r, Z.mul_0_r, Z.add_0_r, Hi, <- Hw, <- Hi. by destruct r.
  - destruct (token_facts c Hb Hc) as (_ & Hsp & _ & _). unfold method_body at 1.
    rewrite if_false by lia. rewrite if_false by (unfold token_char in Hc; rewrite Hc, orb_false_iff; split; [lia|done]).
    cbn [m_i set_i set_a set_method]. rewrite Hi.
    assert (n = Z.of_nat (length pre + (S (length cs) + S (length post)))) as Hlen.
    { rewrite Hn, Hp. cbn [app]. rewrite !length_app. cbn [length]. rewrite !length_app. cbn [length]. done. }
    rewrite if_false by lia.
    assert (rd p (Z.of_nat (length pre) + 1) = Some (List.hd SP cs)) as ->.
    { replace (Z.of_nat (length pre) + 1) with (Z.of_nat (length (pre ++ [c]))) by (rewrite length_app; cbn; lia).
      rewrite Hp, cons_middle, app_assoc. destruct cs; apply rd_app. }
    rewrite byte_land; [|destruct cs as [|d cs]; [cbv; done|by apply List.Forall_inv in Hcs as [? _]]].
    pose proof (upper_byte c Hb) as Hu. rewrite Ha, Hw.
    assert (2 ^ (8 * Z.of_nat j) <= 2 ^ 56) as Hpow by (apply Z.pow_le_mono_r; lia).
    assert (0 < 2 ^ (8 * Z.of_nat j)) as Hpos by (apply Z.pow_pos_nonneg; lia).
    assert (2 ^ (8 * Z.of_nat (S j)) = 2 ^ (8 * Z.of_nat j) * 256) as Hnext.
    { change 256 with (2 ^ 8). rewrite <- Z.pow_add_r by lia. f_equal. lia. }
    rewrite u64_small by (rewrite shiftl_mul by lia; nia). rewrite lor_shiftl_add by lia.
    rewrite (IH (pre ++ [c]) fuel _ (S j) (w + tab kToUpper c * 2 ^ (8 * Z.of_nat j)));
      [|by rewrite Hp, <- app_assoc|cbn; rewrite length_app; cbn; lia|cbn; lia|done|rewrite Hnext; nia|lia|lia].
    rewrite Hnext, !length_app. cbn [length].
    replace (length pre + 1 + length cs)%nat with (length pre + S (length cs))%nat by lia.
    replace (w + tab kToUpper c * 2 ^ (8 * Z.of_nat j) + 2 ^ (8 * Z.of_nat j) * 256 * method_word cs)
      with (w + 2 ^ (8 * Z.of_nat j) * (tab kToUpper c + 256 * method_word cs)) by ring.
    done.
Qed.

Lemma version_run cs pre post f r :
  p = pre ++ cs ++ post -> Forall (fun c => is_byte c /\ (c =? SP) || is_eol c = false) cs ->
  m_i r = Z.of_nat (length pre) -> m_t r = kHttpStateVersion ->
  parse_loop gh realloc p n (length cs + f) r = parse_loop gh realloc p n f (set_i (Z.of_nat (length pre + length cs)) r).
Proof.
  intros Hp Hcs. revert pre r Hp. induction Hcs as [|c cs [Hb Hc] Hcs IH]; intros pre r Hp Hi Ht.
  - cbn. by rewrite Nat.add_0_r, <- Hi, set_i_id.
  - cbn [length Nat.add]. rewrite (loop_step _ r r c pre (cs ++ post)); [|done..|].
    2:{ unfold parse_switch. rewrite Ht. unfold version_case. by rewrite Hc. }
    rewrite (IH (pre ++ [c])); [|by rewrite Hp, <- app_assoc|cbn; rewrite length_app; cbn; lia|done].
    rewrite set_set_i. do 2 f_equal. rewrite length_app. cbn. lia.
Qed.

End Run.

Definition be8 (l : list Z) : Z := foldl (fun acc c => acc * 256 + c) 0 l.
Definition http_xy (x y : Z) : list Z := ascii_codes "HTTP/"%string ++ [x; DOT; y].

Lemma version_word x y :
  isdigit x = true -> isdigit y = true ->
  Z.land (be8 (http_xy x y)) 0xFFFFFFFFFF00FF00 = 0x485454502F002E00.
Proof.
  intros Hx Hy. unfold isdigit in *. bool_prop.
  assert (forallb (fun x => forallb (fun y => Z.land (be8 (http_xy x y)) 0xFFFFFFFFFF00FF00 =? 0x485454502F002E00) (seqZ 48 10)) (seqZ 48 10) = true) as Ht
    by (vm_compute; reflexivity).
  rewrite forallb_forall in Ht. specialize (Ht x). rewrite forallb_forall in Ht.
  apply Z.eqb_eq, Ht; apply list_elem_of_In, elem_of_seqZ; lia.
Qed.

Lemma text_app pre l post : text (pre ++ l ++ post) (Slice (Z.of_nat (length pre)) (Z.of_nat (length pre + length l))) = l.
Proof.
  unfold text. cbn [sa sb]. replace (Z.to_nat (Z.of_nat (length pre + length l) - Z.of_nat (length pre))) with (length l) by lia.
  rewrite Nat2Z.id, drop_app_length. apply take_app_length.
Qed.

Lemma read_be_app l pre post acc :
  read_be (pre ++ l ++ post) (length l) (Z.of_nat (length pre)) acc = Some (foldl (fun acc c => acc * 256 + c) acc l).
Proof.
  revert pre acc. induction l as [|c l IH]; intros pre acc; [done|]. cbn [length read_be app foldl].
  rewrite rd_app. replace (Z.of_nat (length pre) + 1) with (Z.of_nat (length (pre ++ [c]))) by (rewrite length_app; cbn; lia).
  rewrite cons_middle, app_assoc. apply IH.
Qed.

Section Request.
Context (gh : list Z -> option nat) (realloc : nat -> bool) (p : list Z) (n : Z).
Context (Hn : n = Z.of_nat (length p)).
Abbreviation loop := (parse_loop gh realloc p n).
Abbreviation adds := (add_header gh realloc p).

Lemma version_end pre x y post f r :
  p = pre ++ http_xy x y ++ CR :: post -> isdigit x = true -> isdigit y = true ->
  m_i r = Z.of_nat (length pre) -> m_a r = Z.of_nat (length pre) -> m_t r = kHttpStateVersion -> m_type r = kHttpRequest ->
  loop (9 + f) r = loop f (set_i (Z.of_nat (length pre) + 9)
    (set_t kHttpStateCr (set_version ((x - 0x30) * 10 + (y - 0x30)) r))).
Proof.
  intros Hp Hx Hy Hi Ha Ht Hty. pose proof (version_word x y Hx Hy) as Hw.
  assert (0x30 <= x <= 0x39 /\ 0x30 <= y <= 0x39) as [Hxr Hyr] by (unfold isdigit in *; bool_prop; lia).
  change (9 + f)%nat with (length (http_xy x y) + S f)%nat.
  rewrite (version_run gh realloc p n Hn (http_xy x y) pre (CR :: post)); [|done| |done|done].
  2:{ assert (forall c, 0x30 <= c <= 0x39 -> is_byte c /\ (c =? SP) || is_eol c = false).
      { intros c Hc. split; [unfold is_byte; lia|]. unfold is_eol. rewrite !orb_false_iff. lia. }
      change (http_xy x y) with [72; 84; 84; 80; 47; x; 46; y]. repeat (apply List.Forall_cons_iff; split; [first [by auto|split; [cbv; done|reflexivity]]|]). constructor. }
  set (r8 := set_i _ r).
  rewrite (loop_step gh realloc p n Hn f r8 (set_t kHttpStateCr (set_version ((x - 0x30) * 10 + (y - 0x30)) r8)) CR (pre ++ http_xy x y) post).
  - cbn [m_i set_i set_t set_version r8]. replace (Z.of_nat (length pre + length (http_xy x y)) + 1) with (Z.of_nat (length pre) + 9) by (cbn; lia). done.
  - by rewrite Hp, <- app_assoc.
  - cbv. done.
  - cbn [m_i set_i r8]. by rewrite length_app.
  - assert (m_t r8 = kHttpStateVersion) as Ht8 by done. unfold parse_switch. rewrite Ht8. unfold version_case.
    change ((CR =? SP) || is_eol CR) with true. cbv iota. cbn [m_i m_a m_type set_i set_version r8]. rewrite Ha, Hty.
    rewrite if_true by (apply Z.eqb_eq; cbn; lia).
    assert (forall j, rd p (Z.of_nat (length pre) + Z.of_nat j) = (http_xy x y ++ CR :: post) !! j) as Hrd.
    { intros j. rewrite Hp. apply rd_app_nth. }
    assert (read_be p 8 (Z.of_nat (length pre)) 0 = Some (be8 (http_xy x y))) as ->.
    { rewrite Hp. apply (read_be_app (http_xy x y)). }
    rewrite (Hrd 5%nat : rd p (Z.of_nat (length pre) + 5) = _), (Hrd 7%nat : rd p (Z.of_nat (length pre) + 7) = _).
    change ((http_xy x y ++ CR :: post) !! 5%nat) with (Some x). change ((http_xy x y ++ CR :: post) !! 7%nat) with (Some y).
    cbv iota. rewrite Hw, Hx, Hy. cbn [andb Z.eqb Pos.eqb]. reflexivity.
Qed.

Lemma cr_lf pre post f r :
  p = pre ++ LF :: post -> m_i r = Z.of_nat (length pre) -> m_t r = kHttpStateCr ->
  loop (S f) r = loop f (set_i (Z.of_nat (length pre) + 1) (set_t kHttpStateLf1 r)).
Proof.
  intros Hp Hi Ht. rewrite (loop_step gh realloc p n Hn f r (set_t kHttpStateLf1 r) LF pre post); try done.
  - cbn [m_i set_t]. by rewrite Hi.
  - unfold parse_switch. by rewrite Ht.
Qed.

Lemma uri_run_ok u pre post f r :
  p = pre ++ u ++ SP :: post -> u <> [] -> Forall (fun c => is_byte c /\ field_char c /\ c <> SP) u ->
  m_i r = Z.of_nat (length pre) -> m_a r = Z.of_nat (length pre) -> m_t r = kHttpStateUri ->
  let e := Z.of_nat (length pre + length u) in
  loop (S f) r = loop f (set_i (e + 1) (set_t kHttpStateVersion (set_a (e + 1) (set_uri (Slice (Z.of_nat (length pre)) e) r)))).
Proof.
  intros Hp Hne Hu Hi Ha Ht e. destruct u as [|c u]; [done|].
  rewrite (loop_step gh realloc p n Hn f r (set_t kHttpStateVersion (set_a (e + 1) (set_uri (Slice (Z.of_nat (length pre)) e) (set_i e r)))) c pre (u ++ SP :: post)).
  - done.
  - by rewrite Hp.
  - by apply List.Forall_inv in Hu as [? _].
  - done.
  - unfold parse_switch. rewrite Ht. change c with (List.hd SP (c :: u)) at 1.
    apply (inner_run gh realloc p n Hn uri_body (c :: u) pre SP post); [done| |done| | |].
    + apply Forall_app. split; [revert Hu; apply List.Forall_impl; tauto|]. constructor; [cbv; done|constructor].
    + revert Hu. apply List.Forall_impl. intros x (Hb & Hf & Hs) r0. unfold uri_body. pose proof (control_facts x Hf).
      rewrite if_false by (unfold is_eol; rewrite !orb_false_iff; lia). by rewrite Hf.
    + rewrite Hn, Hp, Hi. rewrite !length_app. cbn [length]. lia.
    + unfold uri_body. change ((SP =? SP) || is_eol SP) with true. cbv iota. cbn [m_i set_i m_a].
      rewrite if_false by (apply Z.eqb_neq; rewrite Ha; cbn [length]; lia).
      rewrite Z.eqb_refl, Ha. done.
Qed.

(** ** A header line *)

Definition hdrs (r : HttpMessage) := (m_headers r, m_xheaders r, m_xc r).

Lemma add_header_hdrs r1 r2 v :
  hdrs r1 = hdrs r2 -> m_k r1 = m_k r2 -> hdrs (adds r1 v) = hdrs (adds r2 v).
Proof.
  unfold hdrs, add_header. intros [= E1 E2 E3] Ek. rewrite Ek, E1, E2, E3.
  destruct (gh (text p (m_k r2))); repeat case_if; cbn; congruence.
Qed.

(** What a header line leaves unchanged. *)
Definition same_line (r r' : HttpMessage) : Prop :=
  m_uri r' = m_uri r /\ m_method r' = m_method r /\ m_version r' = m_version r /\ m_type r' = m_type r.

Lemma add_header_same r v : same_line r (adds r v).
Proof. unfold add_header, same_line. destruct (gh (text p (m_k r))); repeat case_if; done. Qed.

Lemma add_header_clean_i r v : m_i (adds r v) = m_i r.
Proof. unfold add_header. destruct (gh (text p (m_k r))); repeat case_if; done. Qed.

Lemma trim_none fuel lo pre c post :
  ~ blank c -> 0 <= lo -> p = pre ++ c :: post -> trim p (S fuel) lo (Z.of_nat (length pre) + 1) = Some (Z.of_nat (length pre) + 1).
Proof.
  intros Hc Hlo Hp. cbn [trim]. case_if; [|done]. rewrite Z.add_simpl_r, Hp, rd_app.
  rewrite if_false; [done|]. unfold blank in Hc. rewrite orb_false_iff. lia.
Qed.

Lemma name_text name pre post f r :
  p = pre ++ name ++ COLON :: post -> name <> [] -> Forall tokenish name ->
  m_i r = Z.of_nat (length pre) -> m_t r = kHttpStateLf1 ->
  let e := Z.of_nat (length pre + length name) in
  loop (S (S f)) r = loop f (set_i (e + 1) (set_t kHttpStateColon (set_k (Slice (Z.of_nat (length pre)) e) r))).
Proof.
  intros Hp Hne Hname Hi Ht e. destruct name as [|c name]; [done|].
  apply List.Forall_cons_iff in Hname as [[Hb Hc] Hname]. destruct (token_facts c Hb Hc) as (_ & _ & Hcr & Hlf).
  rewrite (loop_step gh realloc p n Hn (S f) r (set_t kHttpStateName (set_k (Slice (m_i r) (sb (m_k r))) r)) c pre (name ++ COLON :: post)); [|done..|].
  2:{ unfold parse_switch. rewrite Ht. rewrite if_false by lia. rewrite if_false by lia.
      unfold token_char in Hc. by rewrite Hc. }
  cbn [m_i set_t set_k]. rewrite Hi.
  set (r1 := set_i _ _). assert (Z.of_nat (length pre) + 1 = Z.of_nat (length (pre ++ [c]))) as Hl1 by (rewrite length_app; cbn; lia).
  set (d := List.hd COLON name).
  assert (exists post', p = (pre ++ [c]) ++ d :: post') as (post' & Hp').
  { destruct name; eexists; rewrite Hp, <- app_assoc; reflexivity. }
  rewrite (loop_step gh realloc p n Hn f r1 (set_t kHttpStateColon (set_k (Slice (Z.of_nat (length pre)) e) (set_i e r1))) d (pre ++ [c]) post').
  - done.
  - done.
  - destruct name as [|x name]; [cbv; done|]. by apply List.Forall_inv in Hname as [? _].
  - exact Hl1.
  - unfold parse_switch. change (m_t r1) with kHttpStateName.
    apply (inner_run gh realloc p n Hn name_body name (pre ++ [c]) COLON post); [by rewrite Hp, <- app_assoc| |exact Hl1| | |].
    + apply Forall_app. split; [revert Hname; apply List.Forall_impl; unfold tokenish; tauto|]. constructor; [cbv; done|constructor].
    + revert Hname. apply List.Forall_impl. intros x [Hxb Hx] r0. destruct (token_facts x Hxb Hx) as (? & _).
      unfold name_body. rewrite if_false by lia. unfold token_char in Hx. by rewrite Hx.
    + rewrite Hn, Hp. change (m_i r1) with (Z.of_nat (length pre) + 1). rewrite !length_app. cbn [length]. lia.
    + unfold name_body. rewrite Z.eqb_refl. cbn [m_i set_i m_k sa r1 set_t set_k]. subst e. rewrite length_app. cbn [length].
      replace (length pre + 1 + length name)%nat with (length pre + S (length name))%nat by lia. done.
Qed.

Lemma value_plain c : is_byte c /\ value_char c -> forall r, value_body gh realloc p r c = Again r.
Proof.
  intros [Hb Hv] r. unfold value_body, value_char, is_control in *.
  destruct (decide (c = HT)) as [->|Hne]; [done|]. destruct Hv as [Hv|?]; [|done].
  apply orb_false_iff in Hv as [H1 H2]. bool_prop.
  rewrite if_false by (unfold is_eol; rewrite orb_false_iff; lia).
  rewrite if_false; [done|]. rewrite orb_false_iff, andb_false_iff. split; [lia|done].
Qed.

Lemma value_end value pre post r :
  p = pre ++ value ++ CR :: post -> (forall c l, value = l ++ [c] -> ~ blank c) ->
  m_i r = Z.of_nat (length pre + length value) -> m_a r = Z.of_nat (length pre) ->
  value_body gh realloc p r CR = Break (set_t kHttpStateCr (adds r (Slice (m_a r) (m_i r)))).
Proof.
  intros Hp Hlast Hi Ha. unfold value_body. change (is_eol CR) with true. cbv iota.
  assert (trim p (S (Z.to_nat (m_i r))) (m_a r) (m_i r) = Some (m_i r)) as ->; [|done].
  destruct value as [|c l _] using rev_ind.
  - cbn [trim]. rewrite if_false by (apply Z.ltb_ge; rewrite Hi, Ha; cbn [length]; lia). done.
  - rewrite Hi, length_app. cbn [length].
    replace (Z.of_nat (length pre + (length l + 1))) with (Z.of_nat (length (pre ++ l)) + 1) by (rewrite length_app; lia).
    apply (trim_none _ _ (pre ++ l) c (CR :: post)); [by eapply Hlast|lia|].
    by rewrite Hp, <- !app_assoc.
Qed.

Lemma value_text value pre post f r :
  p = pre ++ SP :: value ++ CR :: LF :: post -> Forall (fun c => is_byte c /\ value_char c) value ->
  (forall c l, value = c :: l -> ~ blank c) -> (forall c l, value = l ++ [c] -> ~ blank c) ->
  m_i r = Z.of_nat (length pre) -> m_t r = kHttpStateColon ->
  let e := Z.of_nat (length pre + 1 + length value) in
  exists r', loop (S (S (S f))) r = loop f r' /\ m_i r' = e + 2 /\ m_t r' = kHttpStateLf1 /\ same_line r r' /\
    hdrs r' = hdrs (adds r (Slice (Z.of_nat (length pre) + 1) e)).
Proof.
  intros Hp Hv Hfirst Hlast Hi Ht e.
  rewrite (loop_step gh realloc p n Hn (S (S f)) r r SP pre (value ++ CR :: LF :: post)); [|done|cbv; done|done|unfold parse_switch; by rewrite Ht].
  rewrite Hi. set (r1 := set_i _ r). set (pre1 := pre ++ [SP]).
  assert (Z.of_nat (length pre) + 1 = Z.of_nat (length pre1)) as Hl1 by (unfold pre1; rewrite length_app; cbn; lia).
  assert (p = pre1 ++ value ++ CR :: LF :: post) as Hp1 by (unfold pre1; by rewrite Hp, <- app_assoc).
  set (d := List.hd CR value).
  assert (exists post', p = pre1 ++ d :: post') as (post' & Hp').
  { destruct value; eexists; rewrite Hp1; reflexivity. }
  assert (~ blank d /\ is_byte d) as [Hd Hdb].
  { unfold d. destruct value as [|x value]; [split; [unfold blank; cbn; lia|cbv; done]|].
    split; [by eapply Hfirst|]. by apply List.Forall_inv in Hv as [? _]. }
  set (rA := set_i e (set_t kHttpStateValue (set_a (Z.of_nat (length pre) + 1) r))).
  set (rB := set_t kHttpStateCr (adds rA (Slice (Z.of_nat (length pre) + 1) e))).
  assert (e = Z.of_nat (length pre1 + length value)) as He by (unfold e, pre1; rewrite length_app; cbn; lia).
  rewrite (loop_step gh realloc p n Hn (S f) r1 rB d pre1 post'); [|done|done|exact Hl1|].
  2:{ unfold parse_switch. change (m_t r1) with (m_t r). rewrite Ht.
      rewrite if_false by (apply orb_false_iff; split; apply Z.eqb_neq; intros ?; apply Hd; unfold blank; tauto).
      apply (inner_run gh realloc p n Hn _ value pre1 CR (LF :: post)); [done| |exact Hl1| | |].
      - apply Forall_app. split; [revert Hv; apply List.Forall_impl; tauto|]. constructor; [cbv; done|constructor].
      - revert Hv. apply List.Forall_impl. intros x Hx. by apply value_plain.
      - change (m_i r1) with (Z.of_nat (length pre) + 1). rewrite Hn, Hp1, Hl1, length_app, length_app. cbn [length]. lia.
      - rewrite <- He. apply (value_end value pre1 (LF :: post) rA); done. }
  assert (m_i rB = e) as HiB by (unfold rB; cbn; apply (add_header_clean_i rA)).
  rewrite HiB.
  rewrite (cr_lf (pre1 ++ value ++ [CR]) post f (set_i (e + 1) rB)); cycle 1.
  { by rewrite Hp1, <- !app_assoc. }
  { cbn [m_i set_i]. rewrite !length_app. cbn [length]. lia. }
  { done. }
  eexists. split; [reflexivity|]. split; [cbn [m_i set_i]; rewrite !length_app; cbn [length]; lia|]. split; [done|]. split.
  - destruct (add_header_same rA (Slice (Z.of_nat (length pre) + 1) e)) as (E1 & E2 & E3 & E4). unfold same_line. cbn. done.
  - apply (add_header_hdrs rA r); done.
Qed.


(** Filing headers one after the other. *)
Definition file_headers (r : HttpMessage) (l : list (HttpSlice * HttpSlice)) : HttpMessage :=
  foldl (fun r kv => adds (set_k kv.1 r) kv.2) r l.

Lemma file_headers_hdrs l r1 r2 : hdrs r1 = hdrs r2 -> hdrs (file_headers r1 l) = hdrs (file_headers r2 l).
Proof.
  revert r1 r2. induction l as [|kv l IH]; intros r1 r2 E; [done|]. cbn. apply IH, add_header_hdrs; done.
Qed.

Definition slices_of (l : list (HttpSlice * HttpSlice)) (hs : list (list Z * list Z)) : Prop :=
  Forall2 (fun kv h => text p kv.1 = h.1 /\ text p kv.2 = h.2) l hs.

Lemma headers_text hs pre post f r :
  p = pre ++ flat_map print_header hs ++ CRLF ++ post -> Forall header_ok hs ->
  m_i r = Z.of_nat (length pre) -> m_t r = kHttpStateLf1 -> (5 * length hs + 2 <= f)%nat ->
  exists r' l, loop f r = ParseDone (Z.of_nat (length pre + length (flat_map print_header hs) + 2)) r' /\
    same_line r r' /\ slices_of l hs /\ hdrs r' = hdrs (file_headers r l).
Proof.
  intros Hp Hhs. revert pre f r Hp. induction Hhs as [|[name value] hs Hh Hhs IH]; intros pre f r Hp Hi Ht Hf.
  - cbn [flat_map app length] in *. destruct f as [|[|f]]; [lia..|].
    rewrite (loop_step gh realloc p n Hn (S f) r (set_t kHttpStateLf2 r) CR pre (LF :: post)); [|done|cbv; done|done|unfold parse_switch; by rewrite Ht].
    cbn [m_i set_t]. rewrite Hi. set (r1 := set_i _ _).
    assert (p = (pre ++ [CR]) ++ LF :: post) as Hp1 by (by rewrite Hp, <- app_assoc).
    assert (m_i r1 = Z.of_nat (length (pre ++ [CR]))) as Hi1 by (cbn; rewrite length_app; cbn; lia).
    cbn [parse_loop]. rewrite if_true by (apply Z.ltb_lt; rewrite Hi1, Hn, Hp1, !length_app; cbn [length]; lia).
    assert (rd p (m_i r1) = Some LF) as -> by (rewrite Hi1, Hp1; apply rd_app). change (Z.land LF 255) with LF. unfold parse_switch.
    change (m_t r1) with kHttpStateLf2. rewrite Z.eqb_refl.
    exists (set_i (m_i r1 + 1) r1), []. split; [|split; [done|split; [constructor|done]]].
    cbn [m_i set_i]. f_equal. rewrite Hi1, length_app. cbn [length]. lia.
  - destruct Hh as (Hne & Hname & Hval & Hfirst & Hlast). cbn [fst snd] in *.
    cbn [flat_map length] in *. unfold print_header in Hp at 1. cbn [fst snd] in Hp. rewrite <- !app_assoc in Hp.
    cbn [app CRLF] in Hp.
    destruct f as [|[|[|[|[|f]]]]]; [lia..|].
    rewrite (name_text name pre (SP :: value ++ CR :: LF :: flat_map print_header hs ++ CR :: LF :: post)); [|done..].
    set (e := Z.of_nat (length pre + length name)). set (r1 := set_i _ _).
    assert (p = (pre ++ name ++ [COLON]) ++ SP :: value ++ CR :: LF :: flat_map print_header hs ++ CR :: LF :: post) as Hp1
      by (by rewrite Hp, <- !app_assoc).
    assert (m_i r1 = Z.of_nat (length (pre ++ name ++ [COLON]))) as Hi1 by (cbn; rewrite !length_app; cbn; lia).
    destruct (value_text value (pre ++ name ++ [COLON]) (flat_map print_header hs ++ CR :: LF :: post) f r1 Hp1 Hval Hfirst Hlast Hi1 eq_refl)
      as (r2 & -> & Hi2 & Ht2 & Hs2 & Hh2).
    set (vs := Slice _ _) in Hh2.
    destruct (IH (pre ++ print_header (name, value)) f r2) as (r' & l & -> & Hs' & Hl & Hh').
    { unfold print_header. cbn [fst snd]. rewrite Hp, <- !app_assoc. cbn [app CRLF]. done. }
    { rewrite Hi2. unfold print_header. cbn [fst snd]. rewrite !length_app. cbn [length CRLF]. lia. }
    { done. }
    { lia. }
    exists r', ((Slice (Z.of_nat (length pre)) e, vs) :: l). split; [|split; [|split]].
    + f_equal. rewrite !length_app. lia.
    + destruct Hs2 as (? & ? & ? & ?), Hs' as (? & ? & ? & ?). unfold same_line. cbn in *. repeat split; congruence.
    + constructor; [|done]. cbn [fst snd]. split.
      * rewrite Hp. apply (text_app pre name).
      * unfold vs. rewrite Hp. replace (pre ++ name ++ COLON :: SP :: value ++ _)
          with ((pre ++ name ++ [COLON; SP]) ++ value ++ CR :: LF :: flat_map print_header hs ++ CR :: LF :: post)
          by (by rewrite <- !app_assoc).
        replace (Z.of_nat (length (pre ++ name ++ [COLON])) + 1) with (Z.of_nat (length (pre ++ name ++ [COLON; SP])))
          by (rewrite !length_app; cbn; lia).
        replace (length (pre ++ name ++ [COLON]) + 1 + length value)%nat with (length (pre ++ name ++ [COLON; SP]) + length value)%nat
          by (rewrite !length_app; cbn; lia).
        apply text_app.
    + rewrite Hh'. cbn [file_headers foldl fst snd]. apply file_headers_hdrs. rewrite Hh2. by apply add_header_hdrs.
Qed.
End Request.

Lemma print_headers_length hs : Forall header_ok hs -> (5 * length hs <= length (flat_map print_header hs))%nat.
Proof.
  induction 1 as [|[name value] hs (Hne & _) Hhs IH]; [done|]. cbn [flat_map length]. rewrite length_app.
  unfold print_header at 1. cbn [fst snd] in *. rewrite !length_app. cbn [length CRLF].
  destruct name; [done|]. cbn [length]. lia.
Qed.

(** The state after the request line. *)
Lemma request_line gh realloc p n q rest f r0 :
  n = Z.of_nat (length p) -> request_ok q -> p = print_request q ++ rest ->
  exists r pre, parse_loop gh realloc p n (13 + f) (ResetHttpMessage r0 kHttpRequest) = parse_loop gh realloc p n f r /\
    p = pre ++ flat_map print_header (q_headers q) ++ CRLF ++ rest /\ m_i r = Z.of_nat (length pre) /\ m_t r = kHttpStateLf1 /\
    m_method r = method_word (q_method q) /\ text p (m_uri r) = q_uri q /\ m_version r = (q_x q - 0x30) * 10 + (q_y q - 0x30) /\
    hdrs r = hdrs (ResetHttpMessage r0 kHttpRequest) /\
    (length (print_request q) = length pre + length (flat_map print_header (q_headers q)) + 2)%nat.
Proof.
  intros Hn (Hml & Hm & Hune & Hu & Hx & Hy & Hh) Hp. destruct q as [m u x y hs]. cbn [q_method q_uri q_x q_y q_headers] in *.
  unfold print_request, print_version in Hp. cbn [q_method q_uri q_x q_y q_headers] in Hp. fold (http_xy x y) in Hp.
  rewrite <- !app_assoc in Hp. cbn [app CRLF] in Hp. set (tl := flat_map print_header hs ++ CR :: LF :: rest) in Hp.
  destruct m as [|c m]; [cbn in Hml; lia|]. apply List.Forall_cons_iff in Hm as [[Hb Hc] Hm].
  destruct (token_facts c Hb Hc) as (_ & _ & Hcr & Hlf). set (R := ResetHttpMessage r0 kHttpRequest).
  change (13 + f)%nat with (S (S (S (9 + (S f))))).
  rewrite (loop_step gh realloc p n Hn _ R (set_a 8 (set_method (tab kToUpper c) (set_t kHttpStateMethod R))) c []
    (m ++ SP :: u ++ SP :: http_xy x y ++ CR :: LF :: tl)); [|done..|].
  2:{ unfold parse_switch. cbn [m_t R ResetHttpMessage]. rewrite if_false by (unfold is_eol; rewrite orb_false_iff; lia).
      unfold token_char in Hc. by rewrite Hc. }
  set (R1 := set_i _ _). set (d := List.hd SP m).
  assert (exists post', p = [c] ++ d :: post') as (post' & Hp') by (destruct m; eexists; rewrite Hp; reflexivity).
  pose proof (upper_byte c Hb) as Hup. cbn [length] in Hml.
  rewrite (loop_step gh realloc p n Hn _ R1 (set_t kHttpStateUri (set_a (Z.of_nat (1 + length m) + 1) (set_i (Z.of_nat (1 + length m))
    (set_method (tab kToUpper c + 2 ^ 8 * method_word m) R1)))) d [c] post'); [|done| |done|].
  2:{ unfold d. destruct m; [cbv; done|]. by apply List.Forall_inv in Hm as [? _]. }
  2:{ unfold parse_switch. change (m_t R1) with kHttpStateMethod.
      apply (method_run gh realloc p n Hn m [c] (u ++ SP :: http_xy x y ++ CR :: LF :: tl) _ R1 1 (tab kToUpper c)); try done; try lia.
      change (m_i R1) with 1. rewrite Hn, Hp. cbn [app length]. rewrite length_app. cbn [length]. lia. }
  set (R2 := set_i _ (set_t kHttpStateUri _)). set (preU := (c :: m) ++ [SP]).
  assert (p = preU ++ u ++ SP :: http_xy x y ++ CR :: LF :: tl) as HpU by (unfold preU; by rewrite Hp, <- app_assoc).
  assert (Z.of_nat (1 + length m) + 1 = Z.of_nat (length preU)) as HlU by (unfold preU; cbn; rewrite length_app; cbn; lia).
  rewrite (uri_run_ok gh realloc p n Hn u preU (http_xy x y ++ CR :: LF :: tl) _ R2 HpU Hune Hu HlU HlU eq_refl).
  set (e := Z.of_nat (length preU + length u)). set (R3 := set_i (e + 1) _). set (preV := preU ++ u ++ [SP]).
  assert (e + 1 = Z.of_nat (length preV)) as HlV by (unfold preV, e; rewrite !length_app; cbn; lia).
  rewrite (version_end gh realloc p n Hn preV x y (LF :: tl) (S f) R3); try done.
  2:{ unfold preV. by rewrite HpU, <- !app_assoc. }
  set (R4 := set_i _ _). set (preL := preV ++ http_xy x y ++ [CR]).
  rewrite (cr_lf gh realloc p n Hn preL tl f R4); try done.
  2:{ unfold preL, preV. by rewrite HpU, <- !app_assoc. }
  2:{ unfold preL. rewrite !length_app. cbn. lia. }
  eexists _, (preL ++ [LF]). split; [reflexivity|]. split; [unfold preL, preV; by rewrite HpU, <- !app_assoc|].
  split; [cbn [m_i set_i]; rewrite (length_app preL); cbn; lia|]. do 2 (split; [done|]).
  split; [|split; [done|split; [done|]]].
  - cbn. rewrite HpU. apply text_app.
  - unfold print_request, print_version. cbn [q_method q_uri q_x q_y q_headers]. unfold preL, preV, preU. rewrite !length_app. cbn. lia.
Qed.


Definition sample_q : request := {| q_method := ascii_codes "GET"%string; q_uri := ascii_codes "/ab"%string; q_x := 0x31; q_y := 0x31;
  q_headers := [(ascii_codes "Host"%string, ascii_codes "example.com"%string)] |}.

Lemma forall_dec {P : Z -> Prop} `{forall c, Decision (P c)} (l : list Z) :
  forallb (fun c => bool_decide (P c)) l = true -> Forall P l.
Proof.
  rewrite forallb_forall. intros Hl. apply Forall_forall. intros x Hx. specialize (Hl x Hx). by apply bool_decide_eq_true_1 in Hl.
Qed.

Lemma sample_q_ok : request_ok sample_q.
Proof.
  unfold request_ok, header_ok, tokenish, token_char, field_char, value_char, blank.
  split; [cbn; lia|]. split; [apply forall_dec; vm_compute; reflexivity|]. split; [done|].
  split; [apply forall_dec; vm_compute; reflexivity|]. do 2 (split; [reflexivity|]).
  constructor; [|constructor]. split; [done|]. do 2 (split; [apply forall_dec; vm_compute; reflexivity|]).
  split; intros c l E.
  - injection E as <- _. lia.
  - apply (f_equal (fun x => List.last x 0)) in E. rewrite last_last in E. cbn in E. lia.
Qed.

