(* ===== verification/UrlFacts.v ===== *)
(** URLs survive encoding and parsing; the parser and the encoder stay inside the buffers
    they allocate. *)
From S2P Require Import Prelude Tables NtArgs Url.

(** * Escaped text *)


Lemma hex_roundtrip c : is_byte c ->
  let a := hex_digit (Z.shiftr (Z.land c 0xF0) 4) in let b := hex_digit (Z.land c 0x0F) in
  is_byte a /\ is_byte b /\ tab kHexToInt a <> -1 /\ tab kHexToInt b <> -1 /\
  Z.lor (Z.shiftl (tab kHexToInt a) 4) (tab kHexToInt b) = c.
Proof.
  intros Hc a b.
  pose proof (byte_enum (fun c => let a := hex_digit (Z.shiftr (Z.land c 0xF0) 4) in let b := hex_digit (Z.land c 0x0F) in
    (0 <=? a) && (a <? 256) && (0 <=? b) && (b <? 256) && negb (tab kHexToInt a =? -1) && negb (tab kHexToInt b =? -1) &&
    (Z.lor (Z.shiftl (tab kHexToInt a) 4) (tab kHexToInt b) =? c)) eq_refl c Hc) as H.
  cbv beta zeta in H. fold a b in H. bool_prop. unfold is_byte. repeat split; lia || done.
Qed.

Definition st (out : list Z) (q : nat) (s : list Z) (i : nat) (c : Z) (f : flags) : UrlParser :=
  {| u_out := out; u_q := q; u_s := s; u_i := i; u_c := c; u_f := f |}.

Lemma ParseEscape_hex out q x y s i c f :
  is_byte x -> is_byte y -> tab kHexToInt x <> -1 -> tab kHexToInt y <> -1 ->
  ParseEscape (st out q (x :: y :: s) i c f) =
  st (out ++ [Z.lor (Z.shiftl (tab kHexToInt x) 4) (tab kHexToInt y)]) q s (i + 2) c f.
Proof.
  intros Hx Hy Ha Hb. unfold ParseEscape, st. cbn [u_s]. rewrite !byte_land by done.
  rewrite if_true; [done|]. rewrite !andb_true_iff, !negb_true_iff. lia.
Qed.

(** A scanning loop passes over escaped text when it treats characters the table leaves
    alone as plain, and ['%'] as an escape. [quiet] is what the text keeps true of the last
    character seen. *)
Section Scan.
Context {R : Type} (L : nat -> UrlParser -> R) (T : list Z) (quiet : Z -> Prop).
Context (Hplain : forall fuel out q c s i c0 f, is_byte c -> tab T c = 0 ->
  L (S fuel) (st out q (c :: s) i c0 f) = L fuel (st (out ++ [c]) q s (S i) c f)).
Context (Hesc : forall fuel out q s i c0 f,
  L (S fuel) (st out q (0x25 :: s) i c0 f) = L fuel (ParseEscape (st out q s (S i) 0x25 f))).
Context (Hquiet : forall c, is_byte c -> tab T c = 0 -> quiet c) (Hquiet_esc : quiet 0x25).

Lemma scan_escaped v : Forall is_byte v -> forall fuel out q s i c f,
  (length (EscapeUrlView v T ++ s) <= fuel)%nat ->
  exists fuel' i' c', L fuel (st out q (EscapeUrlView v T ++ s) i c f) = L fuel' (st (out ++ v) q s i' c' f) /\
    (length s <= fuel')%nat /\ (quiet c \/ v <> [] -> quiet c') /\ (v = [] -> c' = c).
Proof.
  induction 1 as [|b v Hb Hv IH]; intros fuel out q s i c f Hf.
  - exists fuel, i, c. rewrite app_nil_r. repeat split; [done|tauto].
  - cbn [EscapeUrlView] in *. rewrite byte_land in * by done. rewrite <- app_assoc in *.
    destruct (tab T b =? 0) eqn:E; bool_prop; cbn [app length] in *.
    + destruct fuel as [|fuel]; [lia|]. rewrite Hplain by done.
      destruct (IH fuel (out ++ [b]) q s (S i) b f ltac:(lia)) as (f' & i' & c' & -> & Hf' & Hq & _).
      exists f', i', c'. rewrite <- app_assoc. repeat split; try done. intros _. apply Hq. left. auto.
    + destruct fuel as [|fuel]; [lia|]. rewrite Hesc.
      destruct (hex_roundtrip b Hb) as (Ha & Hb' & Ha' & Hb'' & Heq).
      rewrite ParseEscape_hex by done. rewrite Heq.
      destruct (IH fuel (out ++ [b]) q s (S i + 2)%nat 0x25 f ltac:(lia)) as (f' & i' & c' & -> & Hf' & Hq & _).
      exists f', i', c'. rewrite <- app_assoc. repeat split; try done. intros _. apply Hq. by left.
Qed.
End Scan.

(** ** What the tables leave alone *)

Definition in_list (l : list Z) (c : Z) : bool := existsb (Z.eqb c) l.
Definition escapes (T : list Z) (l : list Z) : bool :=
  forallb (fun c => implb (tab T c =? 0) (negb (in_list l c) && (c <? 128))) (seqZ 0 256).

Lemma escapes_spec T l c : escapes T l = true -> is_byte c -> tab T c = 0 -> in_list l c = false /\ c < 128.
Proof.
  intros He Hc Ht. pose proof (byte_enum _ He c Hc) as H. cbv beta in H. rewrite Ht in H. cbn [Z.eqb implb] in H.
  bool_prop. done.
Qed.

Definition sep_authority : list Z := [SLASH; 0x23; 0x3F; 0x5B; 0x5D; COLON; 0x40; 0x25].
Definition sep_ip : list Z := [SLASH; 0x23; 0x3F; 0x5B; 0x5D; 0x40; 0x25].
Definition sep_path : list Z := [0x23; 0x3F; 0x25].
Definition sep_query : list Z := [0x23; 0x25; 0x2B; 0x26; EQUALS; 0x3F].
Definition sep_fragment : list Z := [0x25].

Lemma authority_table : escapes kEscapeAuthority sep_authority = true. Proof. vm_compute. reflexivity. Qed.
Lemma ip_table : escapes kEscapeIp sep_ip = true. Proof. vm_compute. reflexivity. Qed.
Lemma path_table : escapes kEscapePath sep_path = true. Proof. vm_compute. reflexivity. Qed.
Lemma query_table : escapes kEscapeParam sep_query = true. Proof. vm_compute. reflexivity. Qed.
Lemma fragment_table : escapes kEscapeFragment sep_fragment = true. Proof. vm_compute. reflexivity. Qed.

(** Evaluates the tests of one turn of a loop on a character that is no separator. *)
Ltac plain_char Htab :=
  let H := fresh in let H128 := fresh in
  match goal with Hb : is_byte ?c, Ht : tab ?T ?c = 0 |- _ =>
    destruct (escapes_spec T _ c Htab Hb Ht) as [H H128]; cbn [in_list existsb] in H;
    repeat (apply orb_false_iff in H as [? H]) end.

Definition authority_quiet (c : Z) : Prop := c <> SLASH /\ c <> 0x23 /\ c <> 0x3F.
Definition path_quiet (c : Z) : Prop := c <> 0x23 /\ c <> 0x3F.

Lemma authority_plain T l h t k fuel out q c s i c0 f :
  escapes T l = true -> (forall x, in_list sep_ip x = true -> in_list l x = true) ->
  is_byte c -> tab T c = 0 -> (c <> COLON \/ t = 0%nat) ->
  authority_loop (S fuel) (st out q (c :: s) i c0 f) h t k = authority_loop fuel (st (out ++ [c]) q s (S i) c f) h t k.
Proof.
  intros He Hl Hb Ht Hcol. destruct (escapes_spec T l c He Hb Ht) as [Hc H128].
  assert (in_list sep_ip c = false) as Hs. { apply not_true_is_false. intros E. rewrite (Hl c E) in Hc. done. }
  cbn [in_list existsb sep_ip] in Hs. repeat (apply orb_false_iff in Hs as [? Hs]). bool_prop.
  cbn [authority_loop u_s st]. unfold next. rewrite byte_land by done. cbn [u_c u_out u_q u_f u_s u_i st].
  rewrite (if_false ((c =? SLASH) || _ || _)) by (rewrite !orb_false_iff; lia).
  rewrite (if_false (c =? 0x5B)), (if_false (c =? 0x5D)) by lia.
  rewrite (if_false ((c =? COLON) && _)) by (rewrite andb_false_iff; destruct Hcol as [?| ->]; [left; lia|by right]).
  rewrite (if_false (c =? 0x40)), (if_false (c =? 0x25)) by lia.
  unfold latin1. cbn [u_c u_f]. rewrite (if_false ((128 <=? c) && _)) by (rewrite andb_false_iff; left; lia). done.
Qed.

Lemma authority_esc h t k fuel out q s i c0 f :
  authority_loop (S fuel) (st out q (0x25 :: s) i c0 f) h t k =
  authority_loop fuel (ParseEscape (st out q s (S i) 0x25 f)) h t k.
Proof. done. Qed.

(** ** The authority *)

Lemma authority_text v fuel out q s i c f h t k :
  Forall is_byte v -> (length (EscapeUrlView v kEscapeAuthority ++ s) <= fuel)%nat ->
  exists fuel' i' c', authority_loop fuel (st out q (EscapeUrlView v kEscapeAuthority ++ s) i c f) h t k =
      authority_loop fuel' (st (out ++ v) q s i' c' f) h t k /\ (length s <= fuel')%nat /\
    (authority_quiet c \/ v <> [] -> authority_quiet c').
Proof.
  intros Hv Hf.
  destruct (scan_escaped (fun fuel u => authority_loop fuel u h t k) kEscapeAuthority authority_quiet) with (v := v) (fuel := fuel)
    (out := out) (q := q) (s := s) (i := i) (c := c) (f := f) as (f' & i' & c' & E & Hl & Hq & _); try done; [| |by exists f', i', c'].
  - intros. eapply authority_plain; [apply authority_table| |done..|].
    + intros x. cbn [in_list existsb sep_ip sep_authority]. rewrite !orb_true_iff. tauto.
    + plain_char authority_table. left. lia.
  - intros x Hb Ht. plain_char authority_table. unfold authority_quiet. lia.
Qed.

Lemma authority_ip v fuel out q s i c f h k :
  Forall is_byte v -> (length (EscapeUrlView v kEscapeIp ++ s) <= fuel)%nat ->
  exists fuel' i' c', authority_loop fuel (st out q (EscapeUrlView v kEscapeIp ++ s) i c f) h 0 k =
      authority_loop fuel' (st (out ++ v) q s i' c' f) h 0 k /\ (length s <= fuel')%nat.
Proof.
  intros Hv Hf.
  destruct (scan_escaped (fun fuel u => authority_loop fuel u h 0 k) kEscapeIp (fun _ => True)) with (v := v) (fuel := fuel)
    (out := out) (q := q) (s := s) (i := i) (c := c) (f := f) as (f' & i' & c' & E & Hl & _); try done; [|by exists f', i', c'].
  intros. eapply authority_plain; [apply ip_table|done|done|done|by right].
Qed.

(** A separator of the authority, one turn each. *)
Lemma authority_colon fuel out q s i c f h t k :
  (0 < t)%nat -> authority_loop (S fuel) (st out q (COLON :: s) i c f) h t k =
  authority_loop fuel (st (out ++ [COLON]) q s (S i) COLON f) h (S t) (Some (length (out ++ [COLON]))).
Proof. intros Ht. destruct t; [lia|]. done. Qed.
Lemma authority_open fuel out q s i c f h t k :
  authority_loop (S fuel) (st out q (0x5B :: s) i c f) h t k = authority_loop fuel (st out q s (S i) 0x5B f) h 0 k.
Proof. done. Qed.
Lemma authority_close fuel out q s i c f h t k :
  authority_loop (S fuel) (st out q (0x5D :: s) i c f) h t k = authority_loop fuel (st out q s (S i) 0x5D f) h 1 k.
Proof. done. Qed.
Lemma authority_at fuel out q s i c f h t k :
  authority_loop (S fuel) (st out q (0x40 :: s) i c f) h t k =
  match k with
  | Some k' => authority_loop fuel (st out (length out) s (S i) 0x40 f)
                 (set_pass (Some (drop k' out)) (set_user (Some (take (k' - 1 - q) (drop q out))) h)) 1 None
  | None => authority_loop fuel (st out (length out) s (S i) 0x40 f) (set_user (Some (drop q out)) h) t None
  end.
Proof. by destruct k. Qed.

Definition starts_sep (s : list Z) : Prop := s = [] \/ exists x r, s = x :: r /\ (x = SLASH \/ x = 0x23 \/ x = 0x3F).

Lemma authority_stop fuel out q s i c f h t k :
  starts_sep s -> (length s <= fuel)%nat ->
  exists i', authority_loop fuel (st out q s i c f) h t k = Some (st out q (tail s) i' (List.hd c s) f, h, t, k).
Proof.
  intros [->|(x & r & -> & Hx)] Hf.
  - exists i. by destruct fuel.
  - exists (S i). destruct fuel as [|fuel]; [cbn in Hf; lia|]. by destruct Hx as [->|[->| ->]].
Qed.

(** User information ends with the user and password set and nothing pending. *)
Definition userinfo (h : Url) : list Z :=
  match user h with
  | None => []
  | Some us => EscapeUrlView us kEscapeAuthority ++
      (match pass h with Some pw => [COLON] ++ EscapeUrlView pw kEscapeAuthority | None => [] end) ++ [0x40]
  end.
Definition with_user (h h0 : Url) : Url :=
  match user h with
  | None => h0
  | Some us => match pass h with Some pw => set_pass (Some pw) (set_user (Some us) h0) | None => set_user (Some us) h0 end
  end.
Definition view_ok (v : UrlView) : Prop := Forall is_byte (bytes_of v).

Lemma userinfo_text h h0 fuel out s i c f :
  view_ok (user h) -> view_ok (pass h) -> (length (userinfo h ++ s) <= fuel)%nat ->
  exists fuel' out' i' c', authority_loop fuel (st out (length out) (userinfo h ++ s) i c f) h0 1 None =
      authority_loop fuel' (st out' (length out') s i' c' f) (with_user h h0) 1 None /\ (length s <= fuel')%nat /\
    (authority_quiet c -> authority_quiet c').
Proof.
  unfold userinfo, with_user, view_ok. intros Hu Hp Hf. destruct (user h) as [us|]; [|by exists fuel, out, i, c].
  cbn [bytes_of] in Hu. rewrite <- app_assoc in *.
  destruct (authority_text us fuel out (length out) ((match pass h with Some pw => [COLON] ++ EscapeUrlView pw kEscapeAuthority | None => [] end ++ [0x40]) ++ s)
    i c f h0 1 None Hu Hf) as (f1 & i1 & c1 & -> & Hf1 & _).
  destruct (pass h) as [pw|]; cbn [bytes_of app] in *; rewrite <- ?app_assoc in *.
  - cbn [length] in Hf1. destruct f1 as [|f1]; [lia|]. rewrite authority_colon by lia.
    destruct (authority_text pw f1 ((out ++ us) ++ [COLON]) (length out) ([0x40] ++ s) (S i1) COLON f h0 2
      (Some (length ((out ++ us) ++ [COLON]))) Hp ltac:(lia)) as (f2 & i2 & c2 & -> & Hf2 & _).
    cbn [app length] in *. destruct f2 as [|f2]; [lia|]. rewrite authority_at.
    exists f2, (out ++ us ++ [COLON] ++ pw), (S i2), 0x40. split; [|split; [lia|intros _; unfold authority_quiet; lia]].
    rewrite drop_app_length, <- !app_assoc, drop_app_length.
    replace (length (out ++ us ++ [COLON]) - 1 - length out)%nat with (length us) by (rewrite !length_app; cbn [length]; lia).
    rewrite take_app_length. reflexivity.
  - cbn [length] in Hf1. destruct f1 as [|f1]; [lia|]. rewrite authority_at, drop_app_length.
    exists f1, (out ++ us), (S i1), 0x40. split; [reflexivity|]. split; [lia|]. intros _. unfold authority_quiet. lia.
Qed.

Definition host_text (h : Url) (hst : list Z) : list Z :=
  if NeedsSquareBrackets h then [0x5B] ++ EscapeUrlView hst kEscapeIp ++ [0x5D] else EscapeUrlView hst kEscapeAuthority.

Lemma host_text_ok h hst h0 fuel out q s i c f :
  Forall is_byte hst -> (length (host_text h hst ++ s) <= fuel)%nat ->
  exists fuel' i' c', authority_loop fuel (st out q (host_text h hst ++ s) i c f) h0 1 None =
      authority_loop fuel' (st (out ++ hst) q s i' c' f) h0 1 None /\ (length s <= fuel')%nat /\
    (authority_quiet c -> authority_quiet c').
Proof.
  unfold host_text. intros Hh Hf. destruct (NeedsSquareBrackets h).
  - cbn [app length] in Hf |- *. rewrite <- app_assoc in *. destruct fuel as [|fuel]; [lia|]. rewrite authority_open.
    destruct (authority_ip hst fuel out q ([0x5D] ++ s) (S i) 0x5B f h0 None Hh ltac:(lia)) as (f1 & i1 & c1 & -> & Hf1).
    cbn [app length] in *. destruct f1 as [|f1]; [lia|]. rewrite authority_close.
    exists f1, (S i1), 0x5D. split; [done|]. split; [lia|]. intros _. unfold authority_quiet. lia.
  - destruct (authority_text hst fuel out q s i c f h0 1 None Hh Hf) as (f1 & i1 & c1 & E & Hf1 & Hq).
    exists f1, i1, c1. split; [done|]. split; [done|]. intros Hc. apply Hq. by left.
Qed.

Definition port_text (h : Url) : list Z :=
  match port h with Some po => [COLON] ++ EscapeUrlView po kEscapeAuthority | None => [] end.
Definition with_host (h h0 : Url) : Url :=
  match port h with Some po => set_port (Some po) (set_host (host h) h0) | None => set_host (host h) h0 end.

(** Where a component ends: at the end of the text or on the separator that follows it. *)
Definition ends (s : list Z) (c : Z) (quiet : Z -> Prop) : Prop :=
  match s with [] => quiet c | x :: _ => c = x end.

Lemma ParseAuthority_text h hst h0 out s i c f :
  host h = Some hst -> view_ok (user h) -> view_ok (pass h) -> Forall is_byte hst -> view_ok (port h) ->
  starts_sep s -> authority_quiet c ->
  exists out' i' c', ends s c' authority_quiet /\
    ParseAuthority (st out (length out) (userinfo h ++ host_text h hst ++ port_text h ++ s) i c f) h0 =
    Some (st (out' ++ if c' =? SLASH then [SLASH] else []) (length out') (tail s) i' c' f, with_host h (with_user h h0)).
Proof.
  intros Hh Hu Hpw Hhst Hpo Hs Hq. unfold ParseAuthority. cbn [u_s st].
  destruct (userinfo_text h h0 _ out (host_text h hst ++ port_text h ++ s) i c f Hu Hpw (Nat.le_refl _))
    as (f1 & out1 & i1 & c1 & E1 & Hf1 & Hq1).
  unfold st in E1 |- *. rewrite E1. clear E1. fold (st out1 (length out1) (host_text h hst ++ port_text h ++ s) i1 c1 f).
  destruct (host_text_ok h hst (with_user h h0) f1 out1 (length out1) (port_text h ++ s) i1 c1 f Hhst Hf1)
    as (f2 & i2 & c2 & -> & Hf2 & Hq2).
  unfold port_text, with_host, view_ok in *. rewrite Hh. destruct (port h) as [po|]; cbn [bytes_of app length] in *.
  - destruct f2 as [|f2]; [lia|]. rewrite authority_colon by lia.
    destruct (authority_text po f2 ((out1 ++ hst) ++ [COLON]) (length out1) s (S i2) COLON f (with_user h h0) 2
      (Some (length ((out1 ++ hst) ++ [COLON]))) Hpo ltac:(lia)) as (f3 & i3 & c3 & -> & Hf3 & Hq3).
    destruct (authority_stop f3 (((out1 ++ hst) ++ [COLON]) ++ po) (length out1) s i3 c3 f (with_user h h0) 2
      (Some (length ((out1 ++ hst) ++ [COLON]))) Hs Hf3) as [i4 ->].
    exists (out1 ++ hst ++ [COLON] ++ po), i4, (List.hd c3 s). split.
    + destruct s; cbn [ends List.hd]; [|done]. apply Hq3. left. unfold authority_quiet. lia.
    + cbn [Nat.eqb]. unfold view. cbn [u_out u_q st cut u_c].
      rewrite drop_app_length, <- !app_assoc, drop_app_length.
      replace (length (out1 ++ hst ++ [COLON]) - 1 - length out1)%nat with (length hst)
        by (rewrite !length_app; cbn [length]; lia).
      rewrite take_app_length. destruct (List.hd c3 s =? SLASH) eqn:E; [|by rewrite app_nil_r].
      apply Z.eqb_eq in E. unfold emit, cut, st. cbn. rewrite E. by rewrite <- ?app_assoc.
  - destruct (authority_stop f2 (out1 ++ hst) (length out1) s i2 c2 f (with_user h h0) 1 None Hs Hf2) as [i4 ->].
    exists (out1 ++ hst), i4, (List.hd c2 s). split.
    + destruct s; cbn [ends List.hd]; [auto|done].
    + unfold view. cbn [u_out u_q st cut u_c]. rewrite drop_app_length.
      destruct (List.hd c2 s =? SLASH) eqn:E; [|by rewrite app_nil_r].
      apply Z.eqb_eq in E. unfold emit, cut, st. cbn. by rewrite E.
Qed.

(** ** Path, query and fragment *)

(** Closes the side conditions of [scan_escaped] for a loop that has no other plain-character
    tests than the ones its table rules out. *)
Ltac scan_plain loop :=
  intros; cbn [loop u_s st]; unfold next; rewrite byte_land by done; cbn [u_c u_out u_q u_f u_s u_i st];
  unfold latin1; cbn [u_c u_f];
  repeat match goal with |- context [?x =? ?y] => rewrite (proj2 (Z.eqb_neq x y)) by lia end;
  rewrite (proj2 (Z.leb_gt 128 _)) by lia; cbn [andb]; done.

Definition starts_query (s : list Z) : Prop := s = [] \/ exists x r, s = x :: r /\ (x = 0x23 \/ x = 0x3F).
Definition starts_fragment (s : list Z) : Prop := s = [] \/ exists r, s = 0x23 :: r.

Lemma ParsePath_text v out q s i c f :
  Forall is_byte v -> kUrlOpaque f = false -> starts_query s -> path_quiet c ->
  exists out' i' c', ends s c' path_quiet /\
    ParsePath (st out q (EscapeUrlView v kEscapePath ++ s) i c f) =
    Some (st out' (length out') (tail s) i' c' f, drop q (out ++ v)).
Proof.
  intros Hv Hop Hs Hc. unfold ParsePath. cbn [u_s st].
  destruct (scan_escaped path_loop kEscapePath path_quiet) with (v := v) (fuel := length (EscapeUrlView v kEscapePath ++ s))
    (out := out) (q := q) (s := s) (i := i) (c := c) (f := f) as (f' & i' & c' & E & Hl & Hq & _); try done.
  { intros ????????? Ht. plain_char path_table. bool_prop. scan_plain path_loop. }
  { intros x Hb Ht. plain_char path_table. unfold path_quiet. lia. }
  unfold st in E |- *. rewrite E. destruct Hs as [->|(x & r & -> & Hx)].
  - exists (out ++ v), i', c'. split; [cbn; auto|]. by destruct f'.
  - exists (out ++ v), (S i'), x. split; [done|]. destruct f' as [|f']; [cbn in Hl; lia|].
    cbn [path_loop u_s]. unfold next. cbn [u_c u_f u_out u_q u_i]. destruct Hx as [-> | ->]; cbn; [done|].
    by rewrite Hop.
Qed.

Lemma ParseFragment_text v out i c f : Forall is_byte v ->
  exists out' i' c', ParseFragment (st out (length out) (EscapeUrlView v kEscapeFragment) i c f) =
    Some (st out' (length out') [] i' c' f, v).
Proof.
  intros Hv. unfold ParseFragment. cbn [u_s st].
  destruct (scan_escaped fragment_loop kEscapeFragment (fun _ => True)) with (v := v) (fuel := length (EscapeUrlView v kEscapeFragment ++ []))
    (out := out) (q := length out) (s := @nil Z) (i := i) (c := c) (f := f) as (f' & i' & c' & E & Hl & Hq & _); try done.
  { intros ????????? Ht. plain_char fragment_table. bool_prop. scan_plain fragment_loop. }
  rewrite app_nil_r in E. unfold st in E |- *. rewrite E. exists (out ++ v), i', c'.
  destruct f'; cbn; unfold view; cbn; by rewrite drop_app_length.
Qed.

Lemma query_text v fuel out q s i c f hs t :
  Forall is_byte v -> (length (EscapeUrlView v kEscapeParam ++ s) <= fuel)%nat ->
  exists fuel' i' c', query_loop fuel (st out q (EscapeUrlView v kEscapeParam ++ s) i c f) hs t =
      query_loop fuel' (st (out ++ v) q s i' c' f) hs t /\ (length s <= fuel')%nat /\
    (path_quiet c \/ v <> [] -> path_quiet c') /\ (v = [] -> c' = c).
Proof.
  intros Hv Hf.
  destruct (scan_escaped (fun fuel u => query_loop fuel u hs t) kEscapeParam path_quiet) with (v := v) (fuel := fuel)
    (out := out) (q := q) (s := s) (i := i) (c := c) (f := f) as (f' & i' & c' & E & Hl & Hq); try done.
  - intros ????????? Ht. plain_char query_table. bool_prop. scan_plain query_loop.
  - intros x Hb Ht. plain_char query_table. unfold path_quiet. lia.
  - by exists f', i', c'.
Qed.

Definition param_ok (q : UrlParam) : Prop := Forall is_byte (key q) /\ view_ok (val q).
Definition empty_param : UrlParam := {| key := []; val := None |}.

Lemma encode_params_shift l : forall i j, encode_params (S i) l = encode_params (S j) l.
Proof. induction l as [|q l IH]; intros i j; [done|]. cbn [encode_params Nat.eqb]. by rewrite (IH (S i) (S j)). Qed.
Lemma encode_params_S i q l : encode_params (S i) (q :: l) = 0x26 :: encode_params 0 (q :: l).
Proof. cbn [encode_params Nat.eqb app]. by rewrite (encode_params_shift l (S i) 0). Qed.
Lemma encode_params_cons q l :
  encode_params 0 (q :: l) = EscapeUrlView (key q) kEscapeParam ++
    (match val q with Some v => [EQUALS] ++ EscapeUrlView v kEscapeParam | None => [] end) ++ encode_params 1 l.
Proof. done. Qed.

Lemma set_last_val_snoc hs k v w : set_last_val (hs ++ [{| key := k; val := v |}]) w = hs ++ [{| key := k; val := w |}].
Proof. unfold set_last_val. rewrite rev_app_distr. cbn. by rewrite rev_involutive. Qed.

(** One parameter: at its end [EmitVal] adds it. *)
Lemma query_param q fuel out s i c f hs :
  param_ok q -> c <> 0x23 -> (length ((EscapeUrlView (key q) kEscapeParam ++
    (match val q with Some v => [EQUALS] ++ EscapeUrlView v kEscapeParam | None => [] end)) ++ s) <= fuel)%nat ->
  exists fuel' out' q' i' c' hs' t,
    query_loop fuel (st out (length out) ((EscapeUrlView (key q) kEscapeParam ++
      (match val q with Some v => [EQUALS] ++ EscapeUrlView v kEscapeParam | None => [] end)) ++ s) i c f) hs false =
    query_loop fuel' (st out' q' s i' c' f) hs' t /\ (length s <= fuel')%nat /\ c' <> 0x23 /\ (q = empty_param -> c' = c) /\
    forall s2 i2 c2, (q <> empty_param \/ c2 <> 0x3F) ->
      EmitVal (st out' q' s2 i2 c2 f) hs' t = (st out' (length out') s2 i2 c2 f, hs ++ [q]).
Proof.
  destruct q as [k v]. intros [Hk Hv] Hc Hf. cbn [key val] in *. rewrite <- app_assoc in *.
  destruct (query_text k fuel out (length out) _ i c f hs false Hk Hf) as (f1 & i1 & c1 & -> & Hf1 & Hq1 & Hc1).
  assert (c1 <> 0x23) as Hc1'. { destruct k; [by rewrite Hc1|]. apply Hq1. by right. }
  destruct v as [v|]; cbn [app length] in *.
  - destruct f1 as [|f1]; [lia|].
    replace (query_loop (S f1) (st (out ++ k) (length out) (EQUALS :: EscapeUrlView v kEscapeParam ++ s) i1 c1 f) hs false)
      with (query_loop f1 (st (out ++ k) (length (out ++ k)) (EscapeUrlView v kEscapeParam ++ s) (S i1) EQUALS f)
        (hs ++ [{| key := k; val := None |}]) true) by (cbn; unfold view; cbn; by rewrite drop_app_length).
    destruct (query_text v f1 (out ++ k) (length (out ++ k)) s (S i1) EQUALS f (hs ++ [{| key := k; val := None |}]) true Hv ltac:(lia))
      as (f2 & i2 & c2 & -> & Hf2 & Hq2 & Hc2).
    exists f2, ((out ++ k) ++ v), (length (out ++ k)), i2, c2, (hs ++ [{| key := k; val := None |}]), true.
    split; [done|]. split; [done|]. split; [apply Hq2; left; unfold path_quiet; lia|]. split; [done|].
    intros s2 i3 c3 _. unfold EmitVal. cbn [negb]. unfold view, cut, st. cbn [u_out u_q u_s u_i u_c u_f].
    by rewrite drop_app_length, set_last_val_snoc.
  - exists f1, (out ++ k), (length out), i1, c1, hs, false. do 3 (split; [done|]). split; [intros [= ->]; auto|].
    intros s2 i3 c3 Hne. unfold EmitVal. cbn [negb]. rewrite if_true.
    + unfold EmitKey, view, cut, st. cbn [u_out u_q u_s u_i u_c u_f]. by rewrite drop_app_length.
    + rewrite orb_true_iff. cbn [u_q u_out u_c st]. destruct k as [|x k]; [right|left].
      * apply negb_true_iff, Z.eqb_neq. destruct Hne as [Hne|]; [by destruct Hne|done].
      * apply Nat.ltb_lt. rewrite length_app. cbn [length]. lia.
Qed.

(** All parameters, the last one added by [ParseQuery] itself. *)
Lemma query_params l : forall q fuel out s i c f hs,
  Forall param_ok (q :: l) -> c <> 0x23 -> starts_fragment s ->
  (q :: l = [empty_param] -> c <> 0x3F \/ s <> []) ->
  (length (encode_params 0 (q :: l) ++ s) <= fuel)%nat ->
  exists out' i' c', ends s c' (fun c => c <> 0x23) /\
    match query_loop fuel (st out (length out) (encode_params 0 (q :: l) ++ s) i c f) hs false with
    | None => None | Some (u, h, t) => Some (EmitVal u h t) end =
    Some (st out' (length out') (tail s) i' c' f, hs ++ q :: l).
Proof.
  induction l as [|q2 l IH]; intros q fuel out s i c f hs Hok Hc Hs Hlast Hf;
    apply List.Forall_cons_iff in Hok as [Hq Hl]; rewrite encode_params_cons, !app_assoc in *.
  - cbn [encode_params] in *. rewrite app_nil_r in *.
    destruct (query_param q fuel out s i c f hs Hq Hc Hf) as (f1 & out1 & q1 & i1 & c1 & hs1 & t & Heq & Hf1 & Hc1 & Hce & Hval).
    rewrite Heq. destruct Hs as [->|(r & ->)].
    + exists out1, i1, c1. split; [done|]. assert (q <> empty_param \/ c1 <> 0x3F) as Hne.
      { destruct (Z.eq_dec c1 0x3F) as [->|]; [left|by right]. intros ->.
        destruct (Hlast eq_refl) as [H|H]; [|done]. apply H. symmetry. by apply Hce. }
      destruct f1; cbn [query_loop u_s st]; fold (st out1 q1 [] i1 c1 f); by rewrite (Hval _ _ _ Hne).
    + exists out1, (S i1), 0x23. split; [done|]. destruct f1 as [|f1]; [cbn in Hf1; lia|].
      replace (query_loop (S f1) (st out1 q1 (0x23 :: r) i1 c1 f) hs1 t) with (Some (st out1 q1 r (S i1) 0x23 f, hs1, t)) by done.
      rewrite (Hval r (S i1) 0x23) by (right; lia). done.
  - rewrite encode_params_S, <- app_assoc, <- app_comm_cons in *.
    destruct (query_param q fuel out (0x26 :: encode_params 0 (q2 :: l) ++ s) i c f hs Hq Hc Hf)
      as (f1 & out1 & q1 & i1 & c1 & hs1 & t & -> & Hf1 & Hc1 & Hce & Hval).
    cbn [length] in Hf1. destruct f1 as [|f1]; [lia|].
    replace (query_loop (S f1) (st out1 q1 (0x26 :: encode_params 0 (q2 :: l) ++ s) i1 c1 f) hs1 t)
      with (let '(u, h) := EmitVal (st out1 q1 (encode_params 0 (q2 :: l) ++ s) (S i1) 0x26 f) hs1 t in query_loop f1 u h false)
      by done.
    rewrite Hval by (right; lia).
    destruct (IH q2 f1 out1 s (S i1) 0x26 f (hs ++ [q]) Hl ltac:(lia) Hs ltac:(left; lia) ltac:(lia))
      as (out' & i' & c' & He & ->).
    exists out', i', c'. split; [done|]. by rewrite <- app_assoc.
Qed.

(** ** Scheme *)

Definition scheme_char (c : Z) : bool := digit c || alpha c || (c =? 0x2B) || (c =? 0x2D) || (c =? DOT).
Definition valid_scheme (v : list Z) : bool :=
  match v with x :: r => alpha x && forallb scheme_char r | [] => false end.

Lemma scheme_char_bounds c : scheme_char c = true -> is_byte c /\ c < 128 /\ 0x2A < c /\ c <> SLASH /\ c <> COLON /\ c <> 0x3F.
Proof. unfold scheme_char, digit, alpha, is_byte. rewrite !orb_true_iff, !andb_true_iff. lia. Qed.

Lemma ParseScheme_char fuel out x s i c f h :
  scheme_char x = true -> (i = 0%nat -> alpha x = true) ->
  ParseScheme (S fuel) (st out 0 (x :: s) i c f) h = ParseScheme fuel (st (out ++ [x]) 0 s (S i) x f) h.
Proof.
  intros Hx Hi. destruct (scheme_char_bounds x Hx) as (Hb & H). cbn [ParseScheme u_s st]. unfold next.
  rewrite byte_land by done. cbn [u_c u_out u_q u_f u_s u_i st]. unfold latin1. cbn [u_c u_f u_i u_out u_q].
  rewrite (if_false (x =? SLASH)) by lia. rewrite (if_false ((x =? COLON) && _)) by (rewrite andb_false_iff; left; lia).
  rewrite (if_false ((x =? 0x23) || _)) by (rewrite orb_false_iff; lia). rewrite (if_false (x =? 0x25)) by lia.
  rewrite (if_false ((128 <=? x) && _)) by (rewrite andb_false_iff; left; lia).
  unfold emit. cbn [u_c u_out u_q u_f u_s u_i st]. destruct i as [|i]; cbn [Nat.eqb].
  - by rewrite Hi.
  - unfold scheme_char in Hx. by rewrite Hx.
Qed.

Lemma ParseScheme_rest r : forall fuel out s i c f h,
  forallb scheme_char r = true -> (0 < i)%nat -> (length (r ++ COLON :: SLASH :: SLASH :: s) <= fuel)%nat ->
  exists i', ParseScheme fuel (st out 0 (r ++ COLON :: SLASH :: SLASH :: s) i c f) h =
    Some (true, st (out ++ r) (length (out ++ r)) s i' COLON f, set_scheme (Some (out ++ r)) h).
Proof.
  induction r as [|x r IH]; intros fuel out s i c f h Hr Hi Hf; cbn [app length] in Hf |- *;
    (destruct fuel as [|fuel]; [lia|]).
  - rewrite app_nil_r. exists (S i + 2)%nat. destruct i as [|i]; [lia|]. done.
  - cbn [forallb] in Hr. bool_prop. rewrite ParseScheme_char by (done || lia).
    destruct (IH fuel (out ++ [x]) s (S i) x f h ltac:(done) ltac:(lia) ltac:(lia)) as [i' ->].
    exists i'. by rewrite <- app_assoc.
Qed.

Lemma ParseScheme_text v s f h : valid_scheme v = true ->
  exists i', ParseScheme (length (v ++ COLON :: SLASH :: SLASH :: s)) (st [] 0 (v ++ COLON :: SLASH :: SLASH :: s) 0 0 f) h =
    Some (true, st v (length v) s i' COLON f, set_scheme (Some v) h).
Proof.
  destruct v as [|x r]; [done|]. cbn [valid_scheme app length]. rewrite andb_true_iff. intros [Hx Hr].
  rewrite ParseScheme_char; [|unfold scheme_char; rewrite Hx; by rewrite orb_true_r|done].
  destruct (ParseScheme_rest r _ ([] ++ [x]) s 1 x f h Hr ltac:(lia) (Nat.le_refl _)) as [i' ->]. by exists i'.
Qed.

(** ** Everything after the path *)

Definition query_part (h : Url) : list Z :=
  (match params h with Some l => [0x3F] ++ encode_params 0 l | None => [] end) ++
  (match fragment h with Some fr => [0x23] ++ EscapeUrlView fr kEscapeFragment | None => [] end).
Definition query_ok (h : Url) : Prop :=
  view_ok (fragment h) /\
  match params h with
  | Some l => Forall param_ok l /\ (l = [] -> fragment h = None) /\ (l = [empty_param] -> fragment h <> None)
  | None => True
  end.
Definition ParseUrl_query (u : UrlParser) (h : Url) : option (UrlParser * Url) :=
  if u_c u =? 0x3F then '(u, v) ← ParseQuery u (params h); Some (u, set_params (Some v) h) else Some (u, h).
Definition ParseUrl_fragment (u : UrlParser) (h : Url) : option (UrlParser * Url) :=
  if u_c u =? 0x23 then '(u, v) ← ParseFragment u; Some (u, set_fragment (Some v) h) else Some (u, h).
Definition fragment_part (h : Url) : list Z :=
  match fragment h with Some fr => [0x23] ++ EscapeUrlView fr kEscapeFragment | None => [] end.

Lemma query_part_starts h : starts_query (query_part h).
Proof.
  unfold query_part, starts_query. destruct (params h); cbn [app]; [right; eauto|].
  destruct (fragment h); cbn [app]; [right; eauto|by left].
Qed.

Lemma fragment_part_parses h h0 out i c f :
  fragment h0 = None -> view_ok (fragment h) -> ends (fragment_part h) c (fun c => c <> 0x23) ->
  exists u, ParseUrl_fragment (st out (length out) (tail (fragment_part h)) i c f) h0 =
    Some (u, set_fragment (fragment h) h0).
Proof.
  unfold fragment_part, ParseUrl_fragment, view_ok. intros H0 Hv. destruct (fragment h) as [fr|]; cbn [app ends tail u_c st].
  - intros ->. cbn [Z.eqb]. destruct (ParseFragment_text fr out i 0x23 f Hv) as (out' & i' & c' & ->).
    cbn. by eexists.
  - intros Hc. rewrite (proj2 (Z.eqb_neq _ _)) by done. eexists. do 2 f_equal. destruct h0. cbn in *. by subst.
Qed.

Lemma query_part_parses h h0 out i c f :
  params h0 = None -> query_ok h -> ends (query_part h) c path_quiet ->
  exists out' i' c', ends (fragment_part h) c' (fun c => c <> 0x23) /\
    ParseUrl_query (st out (length out) (tail (query_part h)) i c f) h0 =
    Some (st out' (length out') (tail (fragment_part h)) i' c' f, set_params (params h) h0).
Proof.
  intros H0 [Hv Hp]. unfold ParseUrl_query, query_part. fold (fragment_part h). rewrite H0.
  destruct (params h) as [l|] eqn:El; cbn [app tail ends u_c st].
  - intros ->. cbn [Z.eqb]. destruct Hp as (Hl & Hnil & Hone). unfold ParseQuery. cbn [u_s st].
    destruct l as [|q l].
    + unfold fragment_part. rewrite Hnil by done. exists out, i, 0x3F. split; [done|].
      cbn [encode_params app tail length query_loop u_s st]. unfold EmitVal. cbn [negb u_q u_out u_c st].
      rewrite Nat.ltb_irrefl. done.
    + destruct (query_params l q (length (encode_params 0 (q :: l) ++ fragment_part h)) out (fragment_part h) i 0x3F f [])
        as (out' & i' & c' & He & ->); [done|done| | |lia|].
      * unfold starts_fragment, fragment_part. destruct (fragment h); [right; eauto|by left].
      * intros Heq. right. unfold fragment_part. destruct (fragment h); [done|]. by destruct (Hone Heq).
      * by exists out', i', c'.
  - intros Hc. exists out, i, c. split.
    + unfold fragment_part in *. destruct (fragment h); [done|]. apply Hc.
    + rewrite (proj2 (Z.eqb_neq c 0x3F)); [do 3 f_equal; destruct h0; cbn in *; by subst|].
      unfold fragment_part in Hc. destruct (fragment h); cbn in Hc; [lia|apply Hc].
Qed.

(** * Properties *)

(** The URLs [EncodeUrl] writes in full: a scheme and an authority, then an absolute path,
    no path but a query or fragment, or nothing at all; or a path and what follows it, as
    in a request line. *)
Definition bytes_ok (h : Url) : Prop :=
  view_ok (user h) /\ view_ok (pass h) /\ view_ok (host h) /\ view_ok (port h) /\ view_ok (path h) /\ query_ok h.
Definition absolute (h : Url) : Prop :=
  valid_scheme (bytes_of (scheme h)) = true /\ is_some (host h) = true /\ (user h = None -> pass h = None) /\
  match path h with
  | Some [] => params h = None /\ fragment h = None
  | Some (x :: _) => x = SLASH
  | None => params h <> None \/ fragment h <> None
  end.
Definition origin_form (h : Url) : Prop :=
  scheme h = None /\ user h = None /\ pass h = None /\ host h = None /\ port h = None /\
  match path h with Some (x :: p) => x = SLASH /\ at_ p 0 <> SLASH | _ => False end.

Definition ParseUrl_path (u : UrlParser) (h : Url) : option (UrlParser * Url) :=
  if negb (u_c u =? 0x23) && negb (u_c u =? 0x3F)
  then '(u, v) ← ParsePath u; Some (u, set_path (Some v) h) else Some (u, h).
Definition ParseUrl_rest (u : UrlParser) (h : Url) : option (Url * list Z) :=
  '(u, h) ← ParseUrl_path u h; '(u, h) ← ParseUrl_query u h; '(u, h) ← ParseUrl_fragment u h; Some (h, u_out u).

Lemma ParseUrl_unfold s f :
  ParseUrl s f = '(auth, u, h) ← ParseScheme (length s) (st [] 0 s 0 0 f) url0;
    '(u, h) ← (if auth : bool then ParseAuthority u h else Some (u, h)); ParseUrl_rest u h.
Proof. done. Qed.

(** The path, query and fragment after the slash of the path has been emitted. *)
Lemma rest_slash h h0 p out i c f :
  bytes_ok h -> path h = Some (SLASH :: p) -> kUrlOpaque f = false -> path_quiet c ->
  params h0 = None -> fragment h0 = None ->
  exists out', ParseUrl_rest (st (out ++ [SLASH]) (length out) (EscapeUrlView p kEscapePath ++ query_part h) i c f) h0 =
    Some (set_fragment (fragment h) (set_params (params h) (set_path (path h) h0)), out').
Proof.
  intros (_ & _ & _ & _ & Hp & Hq) Ep Hop Hc H1 H2. rewrite Ep in Hp |- *. cbn in Hp. apply List.Forall_cons_iff in Hp as [_ Hp].
  unfold ParseUrl_rest, ParseUrl_path. cbn [u_c st]. destruct Hc as [Hc1 Hc2].
  rewrite (proj2 (Z.eqb_neq c 0x23)), (proj2 (Z.eqb_neq c 0x3F)) by done. cbn [negb andb].
  destruct (ParsePath_text p (out ++ [SLASH]) (length out) (query_part h) i c f Hp Hop (query_part_starts h) (conj Hc1 Hc2))
    as (out1 & i1 & c1 & He & ->). cbn [mbind option_bind].
  rewrite <- app_assoc, drop_app_length. cbn [app].
  destruct (query_part_parses h (set_path (Some (SLASH :: p)) h0) out1 i1 c1 f H1 Hq He) as (out2 & i2 & c2 & He2 & ->).
  cbn [mbind option_bind].
  destruct (fragment_part_parses h (set_params (params h) (set_path (Some (SLASH :: p)) h0)) out2 i2 c2 f H2 (proj1 Hq) He2) as [u ->].
  by eexists.
Qed.

(** What follows an authority. *)
Definition path_part (h : Url) : list Z := EscapeUrlView (bytes_of (path h)) kEscapePath ++ query_part h.

Lemma rest_authority h h0 out i c f :
  bytes_ok h -> kUrlOpaque f = false -> params h0 = None -> fragment h0 = None -> path h0 = None ->
  match path h with
  | Some [] => params h = None /\ fragment h = None
  | Some (x :: _) => x = SLASH
  | None => params h <> None \/ fragment h <> None
  end ->
  ends (path_part h) c authority_quiet ->
  exists out', ParseUrl_rest (st (out ++ if c =? SLASH then [SLASH] else []) (length out) (tail (path_part h)) i c f) h0 =
    Some (set_fragment (fragment h) (set_params (params h) (set_path (path h) h0)), out').
Proof.
  intros Hok Hop H1 H2 H3 Hp. unfold path_part. destruct (path h) as [[|x p]|] eqn:Ep; cbn [bytes_of EscapeUrlView app].
  - destruct Hp as [Hp1 Hp2]. unfold query_part. rewrite Hp1, Hp2. cbn [app ends tail]. intros (Hc1 & Hc2 & Hc3).
    rewrite (proj2 (Z.eqb_neq c SLASH)) by done. rewrite app_nil_r. unfold ParseUrl_rest, ParseUrl_path. cbn [u_c st].
    rewrite (proj2 (Z.eqb_neq c 0x23)), (proj2 (Z.eqb_neq c 0x3F)) by done. cbn [negb andb].
    unfold ParsePath, view. cbn. rewrite drop_all. unfold ParseUrl_query. cbn. rewrite (proj2 (Z.eqb_neq c 0x3F)) by done.
    cbn. unfold ParseUrl_fragment. cbn. rewrite (proj2 (Z.eqb_neq c 0x23)) by done. cbn. eexists. do 2 f_equal.
    destruct h0; cbn in *. by subst.
  - subst x. replace (if tab kEscapePath _ =? 0 then _ else _) with [SLASH] by done. cbn [app ends tail]. intros ->. cbn [Z.eqb].
    destruct (rest_slash h h0 p out i SLASH f) as [out' E]; try done.
    exists out'. rewrite Ep in E. by rewrite <- E.
  - intros Hc. assert (c = 0x23 \/ c = 0x3F) as Hc'.
    { unfold query_part in Hc. destruct (params h); [by right|]. destruct (fragment h); [by left|]. by destruct Hp. }
    assert (ends (query_part h) c path_quiet) as He.
    { destruct (query_part h) eqn:E; [|done]. cbn in Hc. unfold authority_quiet in Hc. lia. }
    rewrite (proj2 (Z.eqb_neq c SLASH)) by lia. rewrite app_nil_r. unfold ParseUrl_rest, ParseUrl_path. cbn [u_c st].
    rewrite if_false by (destruct Hc' as [-> | ->]; done). cbn [mbind option_bind].
    destruct Hok as (_ & _ & _ & _ & _ & Hq).
    destruct (query_part_parses h h0 out i c f H1 Hq He) as (out2 & i2 & c2 & He2 & ->). cbn [mbind option_bind].
    destruct (fragment_part_parses h (set_params (params h) h0) out2 i2 c2 f H2 (proj1 Hq) He2) as [u ->].
    eexists. cbn. do 2 f_equal. destruct h0; cbn in *. by subst.
Qed.

Lemma EncodeUrl_absolute h hst : absolute h -> host h = Some hst ->
  EncodeUrl h = bytes_of (scheme h) ++ COLON :: SLASH :: SLASH :: userinfo h ++ host_text h hst ++ port_text h ++ path_part h.
Proof.
  intros (Hs & _ & _ & Hp) Hh. unfold EncodeUrl, encode_authority, path_part, query_part, userinfo, host_text, port_text. rewrite Hh.
  rewrite bool_decide_eq_false_2 by (intros E; by rewrite E in Hs).
  rewrite (if_false (negb (bool_decide (bytes_of (path h) = [])) && _)).
  - rewrite app_nil_r, <- !app_assoc. cbn [app]. by rewrite <- ?app_assoc.
  - destruct (path h) as [[|x p]|]; [done| |done]. cbn in Hp. by rewrite Hp.
Qed.

Lemma EncodeUrl_origin h p : origin_form h -> path h = Some (SLASH :: p) ->
  EncodeUrl h = SLASH :: EscapeUrlView p kEscapePath ++ query_part h.
Proof.
  intros (Hs & _ & _ & Hh & _) Hp. unfold EncodeUrl, encode_authority. rewrite Hs, Hh, Hp. done.
Qed.

Lemma ParseUrl_absolute h f : kUrlOpaque f = false -> bytes_ok h -> absolute h ->
  option_map fst (ParseUrl (EncodeUrl h) f) = Some h.
Proof.
  intros Hop Hok Ha. rewrite ParseUrl_unfold.
  destruct (host h) as [hst|] eqn:Hh; [|by destruct Ha as (_ & Hx & _); rewrite Hh in Hx].
  rewrite (EncodeUrl_absolute h hst Ha Hh). destruct Ha as (Hs & _ & Hup & Hp).
  destruct (ParseScheme_text (bytes_of (scheme h)) (userinfo h ++ host_text h hst ++ port_text h ++ path_part h) f url0 Hs)
    as [i1 ->]. cbn [mbind option_bind].
  pose proof Hok as (Hu & Hpw & Hht & Hpo & _). rewrite Hh in Hht.
  destruct (ParseAuthority_text h hst (set_scheme (Some (bytes_of (scheme h))) url0) (bytes_of (scheme h)) (path_part h) i1 COLON f)
    as (out1 & i2 & c2 & He & ->); try done.
  { unfold path_part, starts_sep. destruct (path h) as [[|x p]|]; cbn [bytes_of].
    - destruct (query_part_starts h) as [->|(x & r & -> & ?)]; [by left|right; exists x, r; tauto].
    - subst x. right. exists SLASH, (EscapeUrlView p kEscapePath ++ query_part h). auto.
    - destruct (query_part_starts h) as [->|(x & r & -> & ?)]; [by left|right; exists x, r; tauto]. }
  cbn [mbind option_bind].
  destruct (rest_authority h (with_host h (with_user h (set_scheme (Some (bytes_of (scheme h))) url0))) out1 i2 c2 f)
    as [out' ->]; try done.
  1-3: unfold with_host, with_user; by destruct (port h), (user h), (pass h).
  cbn [option_map fst]. f_equal. unfold with_host, with_user. destruct h as [sc us pw ho po pa pr fr]. cbn in *. subst ho.
  destruct sc; [|done]. destruct us; [|rewrite Hup by done]; destruct po; [destruct pw| |destruct pw|]; try done.
  all: destruct pw; done.
Qed.

Lemma ParseUrl_origin h f : kUrlOpaque f = false -> bytes_ok h -> origin_form h ->
  option_map fst (ParseUrl (EncodeUrl h) f) = Some h.
Proof.
  intros Hop Hok Ho. rewrite ParseUrl_unfold.
  pose proof Ho as (E1 & E2 & E3 & E4 & E5 & Hp). destruct (path h) as [[|x p]|] eqn:Ep; [done| |done].
  destruct Hp as [-> Hp]. rewrite (EncodeUrl_origin h p Ho Ep).
  assert (at_ (EscapeUrlView p kEscapePath ++ query_part h) 0 <> SLASH) as Hns.
  { destruct p as [|y p].
    - destruct (query_part_starts h) as [->|(y & r & -> & Hy)]; cbn; [done|destruct Hy as [-> | ->]; done].
    - cbn [EscapeUrlView]. destruct Hok as (_ & _ & _ & _ & Hb & _). rewrite Ep in Hb. cbn in Hb.
      rewrite byte_land by (by inversion_clear Hb as [|?? _ Hb2]; inversion_clear Hb2).
      destruct (tab kEscapePath y =? 0); cbn; [exact Hp|done]. }
  set (rest := EscapeUrlView p kEscapePath ++ query_part h) in *.
  replace (ParseScheme (length (SLASH :: rest)) (st [] 0 (SLASH :: rest) 0 0 f) url0)
    with (Some (false, st ([] ++ [SLASH]) 0 rest 1 SLASH f, url0)).
  2: { apply Z.eqb_neq in Hns. cbn -[at_ Z.eqb]. replace (Z.land SLASH 255) with SLASH by done.
       by rewrite Hns, andb_false_r. }
  cbn [mbind option_bind]. subst rest. unfold st.
  destruct (rest_slash h url0 p [] 1 SLASH f) as [out' E]; try done.
  unfold st in E. cbn [length] in E. rewrite E. cbn. f_equal. destruct h; cbn in *. by subst.
Qed.


Definition sample_url : Url :=
  {| scheme := Some (ascii_codes "https"%string); user := Some (ascii_codes "a:b"%string); pass := Some (ascii_codes "p@/"%string);
     host := Some (ascii_codes "::1"%string); port := Some (ascii_codes "8080"%string); path := Some (ascii_codes "/x?y z"%string);
     params := Some [{| key := ascii_codes "k&"%string; val := Some (ascii_codes "v=+"%string) |}; empty_param];
     fragment := Some [0x23; 0xFF] |}.


(** [NeedsSquareBrackets] tests [kHexToInt[c]] for truth, but the digit ['0'] has the
    value 0 and a character that is no hexadecimal digit has the value -1: an IPv6 host with
    a zero in it is written without its brackets, its colons escaped, while a host with a
    colon and letters that are no digits is bracketed. *)
Theorem NeedsSquareBrackets_zero :
  let url s := {| scheme := Some (ascii_codes "http"%string); user := None; pass := None; host := Some (ascii_codes s); port := None;
                  path := Some (ascii_codes "/"%string); params := None; fragment := None |} in
  EncodeUrl (url "fe80::1"%string) = ascii_codes "http://fe80%3A%3A1/"%string /\
  EncodeUrl (url "fe8::1"%string) = ascii_codes "http://[fe8::1]/"%string /\
  EncodeUrl (url "x:y"%string) = ascii_codes "http://[x:y]/"%string.
Proof. repeat split; vm_compute; reflexivity. Qed.

(** * Buffers *)

Lemma length_EscapeUrlView v T : (length (EscapeUrlView v T) <= 3 * length v)%nat.
Proof. induction v as [|b v IH]; [done|]. cbn [EscapeUrlView]. rewrite length_app. case_match; cbn [length]; lia. Qed.

Lemma length_encode_params l : forall i,
  (length (encode_params i l) <= length l + foldr (fun q a => length (key q) * 3 + 1 + length (bytes_of (val q)) * 3 + a) 0 l)%nat.
Proof.
  induction l as [|q l IH]; intros i; [done|]. cbn [encode_params foldr length]. rewrite !length_app.
  pose proof (length_EscapeUrlView (key q) kEscapeParam).
  assert (length (match val q with Some v => [EQUALS] ++ EscapeUrlView v kEscapeParam | None => [] end) <= 1 + length (bytes_of (val q)) * 3)%nat.
  { destruct (val q) as [v|]; cbn [bytes_of app length]; [|lia]. pose proof (length_EscapeUrlView v kEscapeParam). lia. }
  specialize (IH (S i)). destruct (i =? 0)%nat; cbn [length]; lia.
Qed.

(** Bounds the pieces of an encoded URL. *)
Lemma length_piece (o : UrlView) T (pre : list Z) :
  (length (match o with Some v => pre ++ EscapeUrlView v T | None => [] end) <= length pre + 3 * length (bytes_of o))%nat.
Proof. destruct o as [v|]; cbn [bytes_of]; rewrite ?length_app; [|cbn; lia]. pose proof (length_EscapeUrlView v T). lia. Qed.

Lemma length_encode_authority h :
  (length (encode_authority h) <= 8 + 3 * length (bytes_of (user h)) + 3 * length (bytes_of (pass h)) +
     3 * length (bytes_of (host h)) + 3 * length (bytes_of (port h)))%nat.
Proof.
  unfold encode_authority. destruct (host h) as [hst|]; [|cbn; lia]. rewrite !length_app. cbn [bytes_of].
  pose proof (length_piece (pass h) kEscapeAuthority [COLON]). pose proof (length_piece (port h) kEscapeAuthority [COLON]).
  assert (length (if NeedsSquareBrackets h then [0x5B%Z] ++ EscapeUrlView hst kEscapeIp ++ [0x5D%Z] else EscapeUrlView hst kEscapeAuthority)
    <= 2 + 3 * length hst)%nat.
  { pose proof (length_EscapeUrlView hst kEscapeIp). pose proof (length_EscapeUrlView hst kEscapeAuthority).
    destruct (NeedsSquareBrackets h); rewrite ?length_app; cbn [length]; lia. }
  assert (length (if negb (bool_decide (bytes_of (path h) = [])) && negb (at_ (bytes_of (path h)) 0 =? SLASH)%Z then [SLASH] else []) <= 1)%nat
    by (match goal with |- context [if ?b then _ else _] => destruct b end; cbn; lia).
  cbn [length] in *. destruct (user h) as [us|]; cbn [bytes_of length]; rewrite ?length_app; cbn [length];
    [pose proof (length_EscapeUrlView us kEscapeAuthority)|]; lia.
Qed.

(** [EncodeUrl] never writes past the buffer [DimensionUrl] computes for it, the
    terminator included, for any URL whatever. *)
Theorem EncodeUrl_fits h : (length (EncodeUrl h) + 1 <= DimensionUrl h)%nat.
Proof.
  unfold EncodeUrl, DimensionUrl. rewrite !length_app.
  pose proof (length_encode_authority h). pose proof (length_piece (fragment h) kEscapeFragment [0x23]).
  pose proof (length_EscapeUrlView (bytes_of (path h)) kEscapePath).
  assert (length (if bool_decide (bytes_of (scheme h) = []) then [] else bytes_of (scheme h) ++ [COLON]) <= length (bytes_of (scheme h)) + 1)%nat
    by (destruct (bool_decide _); rewrite ?length_app; cbn [length]; lia).
  assert (length (match params h with Some l => [0x3F%Z] ++ encode_params 0 l | None => [] end) <=
    1 + (length (from_option id [] (params h)) +
      foldr (fun q a => length (key q) * 3 + 1 + length (bytes_of (val q)) * 3 + a) 0 (from_option id [] (params h))))%nat.
  { destruct (params h) as [l|]; cbn [from_option app length]; [|lia]. pose proof (length_encode_params l 0). unfold id. lia. }
  cbn [length] in *. lia.
Qed.

(** ** The parser's buffer

    Every character read emits at most [k] bytes, [k] being 2 when Latin-1 is recoded and 1
    otherwise, so [cost] never grows. *)
Definition rate (f : flags) : nat := if kUrlLatin1 f then 2 else 1.
Definition cost (k : nat) (u : UrlParser) : nat := (length (u_out u) + k * length (u_s u))%nat.
(** [u'] comes from [u] without growing, having read at least [d] more units. *)
Definition within (k d : nat) (u u' : UrlParser) : Prop :=
  rate (u_f u') = rate (u_f u) /\ (cost k u' + d <= cost k u)%nat /\ (length (u_s u') <= length (u_s u))%nat.

Lemma within_trans k d d' u1 u2 u3 : within k d u1 u2 -> within k d' u2 u3 -> within k (d + d') u1 u3.
Proof. unfold within. intros (? & ? & ?) (? & ? & ?). repeat split; lia || congruence. Qed.
Lemma within_le k d d' u1 u2 : (d' <= d)%nat -> within k d u1 u2 -> within k d' u1 u2.
Proof. unfold within. intros ? (? & ? & ?). repeat split; lia || done. Qed.
Lemma within_refl k u : within k 0 u u.
Proof. unfold within. repeat split; lia. Qed.

Lemma next_within k u c s : u_s u = c :: s -> within k k u (next u c s) /\ length (u_s u) = S (length (u_s (next u c s))).
Proof. intros E. unfold within, cost, next. cbn. rewrite E. cbn [length]. repeat split; lia. Qed.
Lemma cut_within k u : within k 0 u (cut u).
Proof. unfold within, cost. cbn. repeat split; lia. Qed.

(** Emitting pays from what reading the character put aside. *)
Definition paid (k : nat) (u u' : UrlParser) : Prop :=
  rate (u_f u') = rate (u_f u) /\ (cost k u' <= cost k u + k)%nat /\ (length (u_s u') <= length (u_s u))%nat.
Lemma emit_paid k u c : (1 <= k)%nat -> paid k u (emit u [c]).
Proof. unfold paid, cost, emit. cbn. rewrite length_app. cbn. repeat split; lia. Qed.
Lemma ParseEscape_paid k u : (1 <= k)%nat -> paid k u (ParseEscape u).
Proof.
  intros Hk. unfold ParseEscape. destruct (u_s u) as [|x [|y s]] eqn:E; [by apply emit_paid..|].
  case_match; [|by apply emit_paid]. unfold paid, cost. cbn. rewrite E, length_app. cbn [length drop]. rewrite drop_0. repeat split; lia.
Qed.
Lemma EmitLatin1_paid k u c : latin1 u = true -> (rate (u_f u) <= k)%nat -> paid k u (EmitLatin1 u c).
Proof.
  unfold latin1, rate. rewrite andb_true_iff. intros [_ ->] Hk. unfold paid, cost. cbn. rewrite length_app. cbn. repeat split; lia.
Qed.
Lemma read_paid k u c s u' : u_s u = c :: s -> paid k (next u c s) u' ->
  within k 0 u u' /\ (length (u_s u') < length (u_s u))%nat.
Proof.
  intros E (H1 & H2 & H3). unfold within, cost in *. cbn [next u_out u_s u_f] in *. rewrite E. cbn [length].
  repeat split; lia || done.
Qed.

Lemma rate_pos f : (1 <= rate f)%nat.
Proof. unfold rate. case_match; lia. Qed.
Create HintDb url.
#[local] Hint Resolve emit_paid ParseEscape_paid EmitLatin1_paid rate_pos : url.

(** A loop that reads a character, emits what that pays for and goes round again. *)
Lemma go_round {R} (L : UrlParser -> option R) (get : R -> UrlParser) fuel k u x s u' :
  (forall k u, k = rate (u_f u) -> (length (u_s u) <= fuel)%nat -> exists r, L u = Some r /\ within k 0 u (get r)) ->
  k = rate (u_f u) -> u_s u = x :: s -> (length s <= fuel)%nat -> paid k (next u x s) u' ->
  exists r, L u' = Some r /\ within k 0 u (get r).
Proof.
  intros IH Hk E Hf Hp. destruct (read_paid k u x s u' E Hp) as [Hw Hlen]. rewrite E in Hlen. cbn [length] in Hlen.
  destruct (IH k u') as (r & -> & Hw'); [destruct Hw; congruence|lia|].
  exists r. split; [done|]. by apply (within_trans _ 0 0 u u' (get r)).
Qed.

Lemma cut_paid k u u' : paid k u u' -> paid k u (cut u').
Proof. done. Qed.
Lemma next_paid k u : paid k u u.
Proof. unfold paid. repeat split; lia. Qed.
Lemma EmitVal_paid k u h t : paid k u (fst (EmitVal u h t)).
Proof. unfold EmitVal, EmitKey. repeat case_match; cbn [fst]; auto using cut_paid, next_paid. Qed.
Lemma set_opaque_paid k u u' : paid k u u' -> paid k u (set_opaque u').
Proof. done. Qed.
#[local] Hint Resolve cut_paid next_paid set_opaque_paid : url.

(** Closes a branch of a loop that ends here. *)
Ltac loop_ends k := eexists; split; [done|]; cbn [fst snd]; first [apply within_refl | apply (within_le k k 0); [lia|done]].

Lemma path_loop_within fuel : forall k u, k = rate (u_f u) -> (length (u_s u) <= fuel)%nat ->
  exists u', path_loop fuel u = Some u' /\ within k 0 u (id u').
Proof.
  induction fuel as [|fuel IH]; intros k u Hk Hf; cbn [path_loop]; destruct (u_s u) as [|x s] eqn:E;
    try loop_ends k; [cbn in Hf; lia|].
  cbn [length] in Hf. destruct (next_within k u x s E) as [Hn _]. pose proof (rate_pos (u_f u)).
  repeat case_match; try loop_ends k; eapply (go_round _ id); try eassumption; try lia; subst k; auto with url.
Qed.

Lemma fragment_loop_within fuel : forall k u, k = rate (u_f u) -> (length (u_s u) <= fuel)%nat ->
  exists u', fragment_loop fuel u = Some u' /\ within k 0 u (id u').
Proof.
  induction fuel as [|fuel IH]; intros k u Hk Hf; cbn [fragment_loop]; destruct (u_s u) as [|x s] eqn:E;
    try loop_ends k; [cbn in Hf; lia|].
  cbn [length] in Hf. pose proof (rate_pos (u_f u)).
  repeat case_match; eapply (go_round _ id); try eassumption; try lia; subst k; auto with url.
Qed.

Lemma query_loop_within fuel : forall k u h t, k = rate (u_f u) -> (length (u_s u) <= fuel)%nat ->
  exists r, query_loop fuel u h t = Some r /\ within k 0 u (fst (fst r)).
Proof.
  induction fuel as [|fuel IH]; intros k u h t Hk Hf; cbn [query_loop]; destruct (u_s u) as [|x s] eqn:E;
    try loop_ends k; [cbn in Hf; lia|].
  cbn [length] in Hf. destruct (next_within k u x s E) as [Hn _]. pose proof (rate_pos (u_f u)).
  assert (forall u' h' t', paid k (next u x s) u' -> exists r, query_loop fuel u' h' t' = Some r /\ within k 0 u (fst (fst r))) as Hgo.
  { intros u' h' t' Hp. apply (go_round (fun u => query_loop fuel u h' t') (fun r => fst (fst r)) fuel k u x s u'); auto.
    apply le_S_n, Hf. }
  pose proof (EmitVal_paid k (next u x s) h t) as Hev. destruct (EmitVal (next u x s) h t) as [uv hv]. cbn [fst] in Hev.
  repeat case_match; simplify_eq; try loop_ends (rate (u_f u)); apply Hgo; auto with url.
  unfold EmitKey in *. simplify_eq. auto with url.
Qed.

Definition slash (u : UrlParser) : nat := if u_c u =? SLASH then 1 else 0.

Lemma ParseEscape_c u : u_c (ParseEscape u) = u_c u.
Proof. unfold ParseEscape. repeat case_match; done. Qed.

Lemma authority_loop_within fuel : forall k u h t c, k = rate (u_f u) -> (length (u_s u) <= fuel)%nat ->
  exists r, authority_loop fuel u h t c = Some r /\ within k 0 u (fst (fst (fst r))) /\
    (cost k (fst (fst (fst r))) + slash (fst (fst (fst r))) <= cost k u + slash u)%nat.
Proof.
  induction fuel as [|fuel IH]; intros k u h t c Hk Hf; cbn [authority_loop]; destruct (u_s u) as [|x s] eqn:E;
    try (eexists; split; [done|]; cbn [fst]; split; [apply within_refl|lia]); [cbn in Hf; lia|].
  cbn [length] in Hf. destruct (next_within k u x s E) as [Hn Hlen]. pose proof (rate_pos (u_f u)).
  assert (forall u' h' t' c', u_c u' = u_c (next u x s) -> u_c (next u x s) <> SLASH -> paid k (next u x s) u' ->
    exists r, authority_loop fuel u' h' t' c' = Some r /\ within k 0 u (fst (fst (fst r))) /\
      (cost k (fst (fst (fst r))) + slash (fst (fst (fst r))) <= cost k u + slash u)%nat) as Hgo.
  { intros u' h' t' c' Hc Hns Hp. destruct (read_paid k u x s u' E Hp) as [Hw Hl]. rewrite E in Hl. cbn [length] in Hl.
    destruct (IH k u' h' t' c') as (r & -> & Hw' & Hs); [destruct Hw; congruence|lia|].
    exists r. split; [done|]. split; [by apply (within_trans _ 0 0 u u')|].
    assert (slash u' = 0%nat) as Hz by (unfold slash; rewrite Hc; by rewrite (proj2 (Z.eqb_neq _ _))).
    destruct Hw as (_ & Hw & _). lia. }
  destruct ((u_c (next u x s) =? SLASH) || (u_c (next u x s) =? 0x23) || (u_c (next u x s) =? 0x3F)) eqn:Esep.
  - eexists. split; [done|]. cbn [fst]. split; [apply (within_le k k 0); [lia|done]|].
    destruct Hn as (_ & Hn & _). unfold slash. repeat case_match; lia.
  - apply orb_false_iff in Esep as [Esep _]. apply orb_false_iff in Esep as [Esep _]. apply Z.eqb_neq in Esep.
    repeat case_match; apply Hgo; auto using ParseEscape_c; subst k; auto with url.
Qed.

(** ** The stages *)

Lemma ParseAuthority_within k u h : k = rate (u_f u) ->
  exists u' h', ParseAuthority u h = Some (u', h') /\ rate (u_f u') = rate (u_f u) /\ (cost k u' <= cost k u + slash u)%nat.
Proof.
  intros Hk. unfold ParseAuthority.
  destruct (authority_loop_within (length (u_s u)) k u h 1 None Hk ltac:(lia)) as ([[[u' h'] t] c] & -> & (Hr & _) & Hc).
  cbn [fst] in *. eexists _, _. split; [done|]. unfold slash, cost in *. cbn [u_c cut]. case_match; cbn [u_f u_out u_s emit cut]; split; try done;
    rewrite ?length_app; cbn [length]; lia.
Qed.

Lemma ParseScheme_within fuel : forall k u h, k = rate (u_f u) -> (length (u_s u) <= fuel)%nat ->
  exists a u' h', ParseScheme fuel u h = Some (a, u', h') /\ rate (u_f u') = rate (u_f u) /\
    (cost k u' + (if a : bool then 1 else 0) <= cost k u)%nat.
Proof.
  induction fuel as [|fuel IH]; intros k u h Hk Hf; cbn [ParseScheme]; destruct (u_s u) as [|x s] eqn:E;
    try (eexists _, _, _; split; [done|]; split; [done|lia]); [cbn in Hf; lia|].
  cbn [length] in Hf. pose proof (rate_pos (u_f u)) as Hpos. destruct (next_within k u x s E) as [(Hr & Hn & _) _].
  assert (forall u' (h' : Url), paid k (next u x s) u' -> exists a v h'', Some (false, u', h') = Some (a, v, h'') /\ rate (u_f v) = rate (u_f u) /\
    (cost k v + (if a : bool then 1 else 0) <= cost k u)%nat) as Hend.
  { intros u' h' Hp. destruct (read_paid k u x s u' E Hp) as [(? & ? & _) _]. eexists _, _, _. split; [done|]. split; [done|lia]. }
  assert (exists a v h'', ParseScheme fuel (emit (next u x s) [u_c (next u x s)]) h = Some (a, v, h'') /\ rate (u_f v) = rate (u_f u) /\
    (cost k v + (if a : bool then 1 else 0) <= cost k u)%nat) as Hloop.
  { destruct (read_paid k u x s (emit (next u x s) [u_c (next u x s)]) E) as [(Hr' & Hw & _) Hl]; [subst k; auto with url|].
    rewrite E in Hl. cbn [length] in Hl. destruct (IH k (emit (next u x s) [u_c (next u x s)]) h) as (a & v & h'' & -> & Hv & Hc); [congruence|lia|].
    eexists _, _, _. split; [done|]. split; [congruence|lia]. }
  assert (forall u1 n (h' : Url), u_out u1 = u_out u -> u_s u1 = s -> u_f u1 = u_f u -> exists a v h'', Some (true, skip u1 n, h') = Some (a, v, h'') /\ rate (u_f v) = rate (u_f u) /\
    (cost k v + (if a : bool then 1 else 0) <= cost k u)%nat) as Hauth.
  { intros u1 n h' E1 E2 E3. eexists _, _, _. split; [done|]. cbn [skip u_f]. split; [congruence|].
    unfold cost in *. cbn [skip next u_out u_s] in *. rewrite E1, E2, length_drop. nia. }
  repeat case_match; auto; first [by apply Hauth | apply Hend; subst k; auto with url].
Qed.

Lemma stage_within {A} (b : bool) (P : option A) (k : nat) u (get : A -> UrlParser) (skip_ : A) :
  (b = true -> exists r, P = Some r /\ rate (u_f (get r)) = rate (u_f u) /\ (cost k (get r) <= cost k u)%nat) ->
  get skip_ = u ->
  exists r, (if b then P else Some skip_) = Some r /\ rate (u_f (get r)) = rate (u_f u) /\ (cost k (get r) <= cost k u)%nat.
Proof. intros H Hs. destruct b; [by apply H|]. exists skip_. rewrite Hs. done. Qed.

Lemma ParseUrl_rest_within k u h : k = rate (u_f u) ->
  exists h' out, ParseUrl_rest u h = Some (h', out) /\ (length out <= cost k u)%nat.
Proof.
  intros Hk. unfold ParseUrl_rest, ParseUrl_path.
  edestruct (stage_within (negb (u_c u =? 0x23) && negb (u_c u =? 0x3F)) ('(u, v) ← ParsePath u; Some (u, set_path (Some v) h)) k u fst (u, h))
    as ([u1 h1] & -> & Hr1 & Hc1); [|done|].
  { intros _. unfold ParsePath. destruct (path_loop_within (length (u_s u)) k u Hk ltac:(lia)) as (u' & -> & (? & ? & _)).
    eexists. split; [done|]. unfold cost, id in *. cbn in *. split; [done|lia]. }
  cbn [fst mbind option_bind] in *. unfold ParseUrl_query.
  edestruct (stage_within (u_c u1 =? 0x3F) ('(u, v) ← ParseQuery u1 (params h1); Some (u, set_params (Some v) h1)) k u1 fst (u1, h1))
    as ([u2 h2] & -> & Hr2 & Hc2); [|done|].
  { intros _. unfold ParseQuery. edestruct (query_loop_within (length (u_s u1)) k u1) as ([[u' h'] t] & -> & (? & ? & _)); [congruence|lia|].
    cbn [fst mbind option_bind] in *. pose proof (EmitVal_paid 0 u' h' t) as (Hr & Hc & _). 
    assert (cost k (fst (EmitVal u' h' t)) = cost k u') as He by (unfold EmitVal, EmitKey; repeat case_match; done).
    destruct (EmitVal u' h' t) as [u'' h'']. eexists. split; [done|]. cbn [fst] in *. split; [congruence|lia]. }
  cbn [fst mbind option_bind] in *. unfold ParseUrl_fragment.
  edestruct (stage_within (u_c u2 =? 0x23) ('(u, v) ← ParseFragment u2; Some (u, set_fragment (Some v) h2)) k u2 fst (u2, h2))
    as ([u3 h3] & -> & Hr3 & Hc3); [|done|].
  { intros _. unfold ParseFragment. destruct (fragment_loop_within (length (u_s u2)) k u2) as (u' & -> & (? & ? & _)); [congruence|lia|].
    eexists. split; [done|]. unfold cost, id in *. cbn in *. split; [done|lia]. }
  cbn [fst mbind option_bind] in *. eexists _, _. split; [done|]. unfold cost in *. lia.
Qed.

(** [ParseUrl] accepts every text and ends, and what it emits fits the buffer of [n]
    bytes it allocates ([2 n] when Latin-1 is recoded), so no view reaches past it. *)
Theorem ParseUrl_total_and_bounded s f :
  exists h out, ParseUrl s f = Some (h, out) /\ (length out <= rate f * length s)%nat.
Proof.
  rewrite ParseUrl_unfold.
  destruct (ParseScheme_within (length s) (rate f) (st [] 0 s 0 0 f) url0 eq_refl (Nat.le_refl _)) as (a & u & h & -> & Hr & Hc).
  cbn [mbind option_bind]. assert (exists u' h', (if a then ParseAuthority u h else Some (u, h)) = Some (u', h') /\
    rate (u_f u') = rate f /\ (cost (rate f) u' <= cost (rate f) (st [] 0 s 0 0 f))%nat) as (u' & h' & -> & Hr' & Hc').
  { destruct a; [|exists u, h; repeat split; lia || done].
    destruct (ParseAuthority_within (rate f) u h (eq_sym Hr)) as (u' & h' & -> & Hr' & Hc').
    exists u', h'. split; [done|]. split; [by rewrite Hr', Hr|]. unfold slash in Hc'. case_match; lia. }
  cbn [mbind option_bind]. destruct (ParseUrl_rest_within (rate f) u' h' (eq_sym Hr')) as (h2 & out & -> & Ho).
  exists h2, out. split; [done|]. unfold cost in *. cbn [st u_out u_s length] in *. lia.
Qed.
