(* ===== verification/HttpNames.v ===== *)
(** Name tables and their lookups: the header names of [net/http/gethttpheadername.c] and
    the perfect hash of [gethttpheader.inc] that reads them back, the reason phrases of
    [gethttpreason.c], the content types of [findcontenttype.c], the extensions of
    [isnocompressext.c] and the labels of [getipcategoryname.c]. A string is its bytes. *)
From S2P Require Import Prelude Tables.

Abbreviation str s := (ascii_codes s%string).

(** * Header names *)

Definition GetHttpHeaderName (h : Z) : option (list Z) :=
  match h with
  | 0 => Some (str "Host")
  | 1 => Some (str "Cache-Control")
  | 2 => Some (str "Connection")
  | 3 => Some (str "Accept")
  | 4 => Some (str "Accept-Language")
  | 5 => Some (str "Accept-Encoding")
  | 6 => Some (str "User-Agent")
  | 7 => Some (str "Referer")
  | 8 => Some (str "X-Forwarded-For")
  | 9 => Some (str "Origin")
  | 10 => Some (str "Upgrade-Insecure-Requests")
  | 11 => Some (str "Pragma")
  | 12 => Some (str "Cookie")
  | 13 => Some (str "DNT")
  | 14 => Some (str "Sec-GPC")
  | 15 => Some (str "From")
  | 16 => Some (str "If-Modified-Since")
  | 17 => Some (str "X-Requested-With")
  | 18 => Some (str "X-Forwarded-Host")
  | 19 => Some (str "X-Forwarded-Proto")
  | 20 => Some (str "X-CSRF-Token")
  | 21 => Some (str "Save-Data")
  | 22 => Some (str "Range")
  | 23 => Some (str "Content-Length")
  | 24 => Some (str "Content-Type")
  | 25 => Some (str "Vary")
  | 26 => Some (str "Date")
  | 27 => Some (str "Server")
  | 28 => Some (str "Expires")
  | 29 => Some (str "Content-Encoding")
  | 30 => Some (str "Last-Modified")
  | 31 => Some (str "ETag")
  | 32 => Some (str "Allow")
  | 33 => Some (str "Content-Range")
  | 34 => Some (str "Accept-Charset")
  | 35 => Some (str "Access-Control-Allow-Credentials")
  | 36 => Some (str "Access-Control-Allow-Headers")
  | 37 => Some (str "Access-Control-Allow-Methods")
  | 38 => Some (str "Access-Control-Allow-Origin")
  | 39 => Some (str "Access-Control-MaxAge")
  | 40 => Some (str "Access-Control-Method")
  | 41 => Some (str "Access-Control-RequestHeaders")
  | 42 => Some (str "Access-Control-Request-Method")
  | 43 => Some (str "Access-Control-Request-Methods")
  | 44 => Some (str "Age")
  | 45 => Some (str "Authorization")
  | 46 => Some (str "Content-Base")
  | 47 => Some (str "Content-Description")
  | 48 => Some (str "Content-Disposition")
  | 49 => Some (str "Content-Language")
  | 50 => Some (str "Content-Location")
  | 51 => Some (str "Content-MD5")
  | 52 => Some (str "Expect")
  | 53 => Some (str "If-Match")
  | 54 => Some (str "If-None-Match")
  | 55 => Some (str "If-Range")
  | 56 => Some (str "If-Unmodified-Since")
  | 57 => Some (str "Keep-Alive")
  | 58 => Some (str "Link")
  | 59 => Some (str "Location")
  | 60 => Some (str "Max-Forwards")
  | 61 => Some (str "Proxy-Authenticate")
  | 62 => Some (str "Proxy-Authorization")
  | 63 => Some (str "Proxy-Connection")
  | 64 => Some (str "Public")
  | 65 => Some (str "Retry-After")
  | 66 => Some (str "TE")
  | 67 => Some (str "Trailer")
  | 68 => Some (str "Transfer-Encoding")
  | 69 => Some (str "Upgrade")
  | 70 => Some (str "Warning")
  | 71 => Some (str "WWW-Authenticate")
  | 72 => Some (str "Via")
  | 73 => Some (str "Strict-Transport-Security")
  | 74 => Some (str "X-Frame-Options")
  | 75 => Some (str "X-Content-Type-Options")
  | 76 => Some (str "Alt-Svc")
  | 77 => Some (str "Referrer-Policy")
  | 78 => Some (str "X-XSS-Protection")
  | 79 => Some (str "Accept-Ranges")
  | 80 => Some (str "Set-Cookie")
  | 81 => Some (str "Sec-CH-UA")
  | 82 => Some (str "Sec-CH-UA-Mobile")
  | 83 => Some (str "Sec-Fetch-Site")
  | 84 => Some (str "Sec-Fetch-Mode")
  | 85 => Some (str "Sec-Fetch-User")
  | 86 => Some (str "Sec-Fetch-Dest")
  | 87 => Some (str "CF-RAY")
  | 88 => Some (str "CF-Visitor")
  | 89 => Some (str "CF-Connecting-IP")
  | 90 => Some (str "CF-IPCountry")
  | 92 => Some (str "CDN-Loop")
  | 91 => Some (str "Sec-CH-UA-Platform")
  | _ => None
  end.

Definition asso_values : list Z :=
  [182; 182; 182; 182; 182; 182; 182; 182; 182; 182; 182; 182; 182; 182; 182; 182;
   182; 182; 182; 182; 182; 182; 182; 182; 182; 182; 182; 182; 182; 182; 182; 182;
   182; 182; 182; 182; 182; 182; 182; 182; 182; 182; 182; 182; 182; 35; 182; 182;
   182; 182; 182; 182; 182; 5; 182; 182; 182; 182; 182; 182; 182; 182; 182; 182;
   182; 15; 182; 30; 60; 10; 5; 40; 0; 40; 182; 80; 40; 90; 0; 45;
   5; 0; 45; 0; 0; 0; 182; 0; 182; 45; 182; 182; 182; 182; 182; 182;
   182; 15; 182; 30; 60; 10; 5; 40; 0; 40; 182; 80; 40; 90; 0; 45;
   5; 0; 45; 0; 0; 0; 182; 0; 182; 45; 182; 182; 182; 182; 182; 182;
   182; 182; 182; 182; 182; 182; 182; 182; 182; 182; 182; 182; 182; 182; 182; 182;
   182; 182; 182; 182; 182; 182; 182; 182; 182; 182; 182; 182; 182; 182; 182; 182;
   182; 182; 182; 182; 182; 182; 182; 182; 182; 182; 182; 182; 182; 182; 182; 182;
   182; 182; 182; 182; 182; 182; 182; 182; 182; 182; 182; 182; 182; 182; 182; 182;
   182; 182; 182; 182; 182; 182; 182; 182; 182; 182; 182; 182; 182; 182; 182; 182;
   182; 182; 182; 182; 182; 182; 182; 182; 182; 182; 182; 182; 182; 182; 182; 182;
   182; 182; 182; 182; 182; 182; 182; 182; 182; 182; 182; 182; 182; 182; 182; 182;
   182; 182; 182; 182; 182; 182; 182; 182; 182; 182; 182; 182; 182; 182; 182; 182].

(** [struct HttpHeaderSlot]; an empty name has code 0. *)
Record HttpHeaderSlot := { name : list Z; code : Z }.
Definition wordlist : list HttpHeaderSlot :=
  [{| name := str ""; code := 0 |};
   {| name := str ""; code := 0 |};
   {| name := str ""; code := 0 |};
   {| name := str "DNT"; code := 13 |};
   {| name := str "Host"; code := 0 |};
   {| name := str "Allow"; code := 32 |};
   {| name := str ""; code := 0 |};
   {| name := str ""; code := 0 |};
   {| name := str "Location"; code := 59 |};
   {| name := str ""; code := 0 |};
   {| name := str ""; code := 0 |};
   {| name := str "Accept"; code := 3 |};
   {| name := str "TE"; code := 66 |};
   {| name := str "Age"; code := 44 |};
   {| name := str "Date"; code := 26 |};
   {| name := str ""; code := 0 |};
   {| name := str ""; code := 0 |};
   {| name := str ""; code := 0 |};
   {| name := str "Via"; code := 72 |};
   {| name := str ""; code := 0 |};
   {| name := str "Connection"; code := 2 |};
   {| name := str ""; code := 0 |};
   {| name := str ""; code := 0 |};
   {| name := str "If-Match"; code := 53 |};
   {| name := str ""; code := 0 |};
   {| name := str "Range"; code := 22 |};
   {| name := str "X-XSS-Protection"; code := 78 |};
   {| name := str ""; code := 0 |};
   {| name := str "Access-Control-Allow-Headers"; code := 36 |};
   {| name := str "Access-Control-RequestHeaders"; code := 41 |};
   {| name := str "Access-Control-Request-Methods"; code := 43 |};
   {| name := str "Access-Control-MaxAge"; code := 39 |};
   {| name := str "Upgrade"; code := 69 |};
   {| name := str "If-Range"; code := 55 |};
   {| name := str "Content-Length"; code := 23 |};
   {| name := str "X-Frame-Options"; code := 74 |};
   {| name := str "Expect"; code := 52 |};
   {| name := str "Alt-Svc"; code := 76 |};
   {| name := str ""; code := 0 |};
   {| name := str "Content-Description"; code := 47 |};
   {| name := str ""; code := 0 |};
   {| name := str "WWW-Authenticate"; code := 71 |};
   {| name := str ""; code := 0 |};
   {| name := str ""; code := 0 |};
   {| name := str "ETag"; code := 31 |};
   {| name := str "User-Agent"; code := 6 |};
   {| name := str "Origin"; code := 9 |};
   {| name := str "Content-Base"; code := 46 |};
   {| name := str "Content-Range"; code := 33 |};
   {| name := str "Vary"; code := 25 |};
   {| name := str "Upgrade-Insecure-Requests"; code := 10 |};
   {| name := str "Content-Language"; code := 49 |};
   {| name := str "Expires"; code := 28 |};
   {| name := str "CDN-Loop"; code := 92 |};
   {| name := str "Sec-CH-UA"; code := 81 |};
   {| name := str ""; code := 0 |};
   {| name := str "Cookie"; code := 12 |};
   {| name := str "X-Content-Type-Options"; code := 75 |};
   {| name := str "Accept-Ranges"; code := 79 |};
   {| name := str "Save-Data"; code := 21 |};
   {| name := str "Set-Cookie"; code := 80 |};
   {| name := str "Server"; code := 27 |};
   {| name := str "Access-Control-Allow-Credentials"; code := 35 |};
   {| name := str ""; code := 0 |};
   {| name := str "Sec-Fetch-Site"; code := 83 |};
   {| name := str "Keep-Alive"; code := 57 |};
   {| name := str "CF-RAY"; code := 87 |};
   {| name := str "Transfer-Encoding"; code := 68 |};
   {| name := str ""; code := 0 |};
   {| name := str "Content-Disposition"; code := 48 |};
   {| name := str "Accept-Language"; code := 4 |};
   {| name := str "Proxy-Connection"; code := 63 |};
   {| name := str "Access-Control-Allow-Origin"; code := 38 |};
   {| name := str "If-None-Match"; code := 54 |};
   {| name := str "If-Unmodified-Since"; code := 56 |};
   {| name := str ""; code := 0 |};
   {| name := str "Public"; code := 64 |};
   {| name := str "Sec-GPC"; code := 14 |};
   {| name := str ""; code := 0 |};
   {| name := str "Accept-Charset"; code := 34 |};
   {| name := str ""; code := 0 |};
   {| name := str "Access-Control-Method"; code := 40 |};
   {| name := str "Content-Type"; code := 24 |};
   {| name := str "Proxy-Authenticate"; code := 61 |};
   {| name := str "Link"; code := 58 |};
   {| name := str ""; code := 0 |};
   {| name := str "X-Requested-With"; code := 17 |};
   {| name := str "Warning"; code := 70 |};
   {| name := str ""; code := 0 |};
   {| name := str "Access-Control-Request-Method"; code := 42 |};
   {| name := str ""; code := 0 |};
   {| name := str "Content-MD5"; code := 51 |};
   {| name := str "Trailer"; code := 67 |};
   {| name := str ""; code := 0 |};
   {| name := str "From"; code := 15 |};
   {| name := str ""; code := 0 |};
   {| name := str "Content-Encoding"; code := 29 |};
   {| name := str "Referer"; code := 7 |};
   {| name := str "Authorization"; code := 45 |};
   {| name := str "Sec-Fetch-User"; code := 85 |};
   {| name := str ""; code := 0 |};
   {| name := str "Content-Location"; code := 50 |};
   {| name := str ""; code := 0 |};
   {| name := str ""; code := 0 |};
   {| name := str ""; code := 0 |};
   {| name := str ""; code := 0 |};
   {| name := str "CF-Connecting-IP"; code := 89 |};
   {| name := str "CF-IPCountry"; code := 90 |};
   {| name := str "Cache-Control"; code := 1 |};
   {| name := str "Proxy-Authorization"; code := 62 |};
   {| name := str ""; code := 0 |};
   {| name := str "Pragma"; code := 11 |};
   {| name := str ""; code := 0 |};
   {| name := str ""; code := 0 |};
   {| name := str "Sec-Fetch-Dest"; code := 86 |};
   {| name := str ""; code := 0 |};
   {| name := str ""; code := 0 |};
   {| name := str ""; code := 0 |};
   {| name := str "Access-Control-Allow-Methods"; code := 37 |};
   {| name := str ""; code := 0 |};
   {| name := str ""; code := 0 |};
   {| name := str ""; code := 0 |};
   {| name := str "Max-Forwards"; code := 60 |};
   {| name := str ""; code := 0 |};
   {| name := str ""; code := 0 |};
   {| name := str ""; code := 0 |};
   {| name := str ""; code := 0 |};
   {| name := str ""; code := 0 |};
   {| name := str ""; code := 0 |};
   {| name := str ""; code := 0 |};
   {| name := str ""; code := 0 |};
   {| name := str "X-Forwarded-Host"; code := 18 |};
   {| name := str ""; code := 0 |};
   {| name := str ""; code := 0 |};
   {| name := str ""; code := 0 |};
   {| name := str "Accept-Encoding"; code := 5 |};
   {| name := str ""; code := 0 |};
   {| name := str ""; code := 0 |};
   {| name := str ""; code := 0 |};
   {| name := str ""; code := 0 |};
   {| name := str "CF-Visitor"; code := 88 |};
   {| name := str ""; code := 0 |};
   {| name := str "If-Modified-Since"; code := 16 |};
   {| name := str ""; code := 0 |};
   {| name := str ""; code := 0 |};
   {| name := str ""; code := 0 |};
   {| name := str ""; code := 0 |};
   {| name := str "X-CSRF-Token"; code := 20 |};
   {| name := str ""; code := 0 |};
   {| name := str ""; code := 0 |};
   {| name := str ""; code := 0 |};
   {| name := str ""; code := 0 |};
   {| name := str ""; code := 0 |};
   {| name := str "Last-Modified"; code := 30 |};
   {| name := str "Sec-Fetch-Mode"; code := 84 |};
   {| name := str "Referrer-Policy"; code := 77 |};
   {| name := str "Retry-After"; code := 65 |};
   {| name := str ""; code := 0 |};
   {| name := str ""; code := 0 |};
   {| name := str ""; code := 0 |};
   {| name := str "Strict-Transport-Security"; code := 73 |};
   {| name := str ""; code := 0 |};
   {| name := str ""; code := 0 |};
   {| name := str ""; code := 0 |};
   {| name := str ""; code := 0 |};
   {| name := str ""; code := 0 |};
   {| name := str ""; code := 0 |};
   {| name := str ""; code := 0 |};
   {| name := str ""; code := 0 |};
   {| name := str ""; code := 0 |};
   {| name := str ""; code := 0 |};
   {| name := str ""; code := 0 |};
   {| name := str ""; code := 0 |};
   {| name := str ""; code := 0 |};
   {| name := str ""; code := 0 |};
   {| name := str "X-Forwarded-For"; code := 8 |};
   {| name := str ""; code := 0 |};
   {| name := str "X-Forwarded-Proto"; code := 19 |};
   {| name := str "Sec-CH-UA-Platform"; code := 91 |};
   {| name := str ""; code := 0 |};
   {| name := str ""; code := 0 |};
   {| name := str "Sec-CH-UA-Mobile"; code := 82 |}].

(** * Other tables *)

Definition kHttpReason : list (Z * list Z) :=
  [(100, str "Continue");
   (101, str "Switching Protocols");
   (102, str "Processing");
   (200, str "OK");
   (201, str "Created");
   (202, str "Accepted");
   (203, str "Non-authoritative Information");
   (204, str "No Content");
   (205, str "Reset Content");
   (206, str "Partial Content");
   (207, str "Multi-Status");
   (208, str "Already Reported");
   (226, str "IM Used");
   (300, str "Multiple Choices");
   (301, str "Moved Permanently");
   (302, str "Found");
   (303, str "See Other");
   (304, str "Not Modified");
   (305, str "Use Proxy");
   (307, str "Temporary Redirect");
   (308, str "Permanent Redirect");
   (400, str "Bad Request");
   (401, str "Unauthorized");
   (402, str "Payment Required");
   (403, str "Forbidden");
   (404, str "Not Found");
   (405, str "Method Not Allowed");
   (406, str "Not Acceptable");
   (407, str "Proxy Authentication Required");
   (408, str "Request Timeout");
   (409, str "Conflict");
   (410, str "Gone");
   (411, str "Length Required");
   (412, str "Precondition Failed");
   (413, str "Payload Too Large");
   (414, str "Request-URI Too Long");
   (415, str "Unsupported Media Type");
   (416, str "Requested Range Not Satisfiable");
   (417, str "Expectation Failed");
   (418, str "I'm a teapot");
   (421, str "Misdirected Request");
   (422, str "Unprocessable Entity");
   (423, str "Locked");
   (424, str "Failed Dependency");
   (426, str "Upgrade Required");
   (428, str "Precondition Required");
   (429, str "Too Many Requests");
   (431, str "Request Header Fields Too Large");
   (444, str "Connection Closed Without Response");
   (451, str "Unavailable For Legal Reasons");
   (499, str "Client Closed Request");
   (500, str "Internal Server Error");
   (501, str "Not Implemented");
   (502, str "Bad Gateway");
   (503, str "Service Unavailable");
   (504, str "Gateway Timeout");
   (505, str "HTTP Version Not Supported");
   (506, str "Variant Also Negotiates");
   (507, str "Insufficient Storage");
   (508, str "Loop Detected");
   (510, str "Not Extended");
   (511, str "Network Authentication Required");
   (599, str "Network Connect Timeout Error")].

(** Extensions are in arrays of eight bytes, padded with NUL. *)
Definition ext8 (e : list Z) : list Z := take 8 (e ++ replicate 8 0).
Definition kContentTypeExtension : list (list Z * list Z) :=
  [(ext8 (str "7z"), str "application/x-7z-compressed");
   (ext8 (str "aac"), str "audio/aac");
   (ext8 (str "apng"), str "image/apng");
   (ext8 (str "atom"), str "application/atom+xml");
   (ext8 (str "avi"), str "video/x-msvideo");
   (ext8 (str "avif"), str "image/avif");
   (ext8 (str "azw"), str "application/vnd.amazon.ebook");
   (ext8 (str "bmp"), str "image/bmp");
   (ext8 (str "bz2"), str "application/x-bzip2");
   (ext8 (str "c"), str "text/plain");
   (ext8 (str "cc"), str "text/plain");
   (ext8 (str "css"), str "text/css");
   (ext8 (str "csv"), str "text/csv");
   (ext8 (str "diff"), str "text/plain");
   (ext8 (str "diff"), str "text/plain");
   (ext8 (str "doc"), str "application/msword");
   (ext8 (str "epub"), str "application/epub+zip");
   (ext8 (str "gif"), str "image/gif");
   (ext8 (str "gz"), str "application/gzip");
   (ext8 (str "h"), str "text/plain");
   (ext8 (str "htm"), str "text/html");
   (ext8 (str "html"), str "text/html");
   (ext8 (str "i"), str "text/plain");
   (ext8 (str "ico"), str "image/vnd.microsoft.icon");
   (ext8 (str "jar"), str "application/java-archive");
   (ext8 (str "jpeg"), str "image/jpeg");
   (ext8 (str "jpg"), str "image/jpeg");
   (ext8 (str "js"), str "text/javascript");
   (ext8 (str "json"), str "application/json");
   (ext8 (str "m4a"), str "audio/mpeg");
   (ext8 (str "markdown"), str "text/plain");
   (ext8 (str "md"), str "text/plain");
   (ext8 (str "mid"), str "audio/midi");
   (ext8 (str "midi"), str "audio/midi");
   (ext8 (str "mjs"), str "text/javascript");
   (ext8 (str "mp2"), str "audio/mpeg");
   (ext8 (str "mp3"), str "audio/mpeg");
   (ext8 (str "mp4"), str "video/mp4");
   (ext8 (str "mpeg"), str "video/mpeg");
   (ext8 (str "mpg"), str "video/mpeg");
   (ext8 (str "oga"), str "audio/ogg");
   (ext8 (str "ogg"), str "application/ogg");
   (ext8 (str "ogv"), str "video/ogg");
   (ext8 (str "ogx"), str "application/ogg");
   (ext8 (str "otf"), str "font/otf");
   (ext8 (str "patch"), str "text/plain");
   (ext8 (str "pdf"), str "application/pdf");
   (ext8 (str "png"), str "image/png");
   (ext8 (str "rar"), str "application/vnd.rar");
   (ext8 (str "rtf"), str "application/rtf");
   (ext8 (str "s"), str "text/plain");
   (ext8 (str "sh"), str "application/x-sh");
   (ext8 (str "sqlite"), str "application/vnd.sqlite3");
   (ext8 (str "sqlite3"), str "application/vnd.sqlite3");
   (ext8 (str "svg"), str "image/svg+xml");
   (ext8 (str "swf"), str "application/x-shockwave-flash");
   (ext8 (str "t38"), str "image/t38");
   (ext8 (str "tar"), str "application/x-tar");
   (ext8 (str "tiff"), str "image/tiff");
   (ext8 (str "ttf"), str "font/ttf");
   (ext8 (str "txt"), str "text/plain");
   (ext8 (str "ul"), str "audio/basic");
   (ext8 (str "ulaw"), str "audio/basic");
   (ext8 (str "wasm"), str "application/wasm");
   (ext8 (str "wav"), str "audio/x-wav");
   (ext8 (str "weba"), str "audio/webm");
   (ext8 (str "webm"), str "video/webm");
   (ext8 (str "webp"), str "image/webp");
   (ext8 (str "woff"), str "font/woff");
   (ext8 (str "woff2"), str "font/woff2");
   (ext8 (str "wsdl"), str "application/wsdl+xml");
   (ext8 (str "xhtml"), str "application/xhtml+xml");
   (ext8 (str "xls"), str "application/vnd.ms-excel");
   (ext8 (str "xml"), str "application/xml");
   (ext8 (str "xsl"), str "application/xslt+xml");
   (ext8 (str "xslt"), str "application/xslt+xml");
   (ext8 (str "xz"), str "application/x-xz");
   (ext8 (str "z"), str "application/zlib");
   (ext8 (str "zip"), str "application/zip");
   (ext8 (str "zst"), str "application/zstd")].

Definition kNoCompressExts : list (list Z) :=
  [ext8 (str "bz2"); ext8 (str "gif"); ext8 (str "gz"); ext8 (str "jpg"); ext8 (str "lz4"); ext8 (str "mp4"); ext8 (str "mpeg"); ext8 (str "mpg"); ext8 (str "png"); ext8 (str "webp"); ext8 (str "xz"); ext8 (str "zip")].

Definition GetIpCategoryName (c : Z) : option (list Z) :=
  match c with
  | 1 => Some (str "MULTICAST")
  | 2 => Some (str "LOOPBACK")
  | 3 => Some (str "PRIVATE")
  | 4 => Some (str "TESTNET")
  | 5 => Some (str "AFRINIC")
  | 6 => Some (str "LACNIC")
  | 7 => Some (str "APNIC")
  | 8 => Some (str "ARIN")
  | 9 => Some (str "RIPE")
  | 10 => Some (str "DOD")
  | 11 => Some (str "AT&T")
  | 12 => Some (str "APPLE")
  | 13 => Some (str "FORD")
  | 14 => Some (str "COGENT")
  | 15 => Some (str "PRUDENTIAL")
  | 16 => Some (str "USPS")
  | 17 => Some (str "COMCAST")
  | 18 => Some (str "FUTURE")
  | 19 => Some (str "ANONYMOUS")
  | _ => None
  end.

(** * Lookups *)

Definition hd0 (s : list Z) : Z := nth 0 s 0.
Definition asso (str : list Z) (i : nat) : Z := tab asso_values (nth i str 0).

(** [hash]; called with two characters or more. *)
Definition hash (str : list Z) : Z :=
  let len := length str in
  let hval := Z.of_nat len in
  let hval := if (22 <=? len)%nat then hval + asso str 21 else hval in
  let hval := if (11 <=? len)%nat then hval + asso str 10 else hval in
  let hval := if (10 <=? len)%nat then hval + asso str 9 else hval in
  let hval := if (5 <=? len)%nat then hval + asso str 4 else hval in
  hval + asso str (len - 1).

(** Compares as many characters as [s1] has; [s2] is a C string without its terminator. *)
Fixpoint gperf_case_strncmp (s1 s2 : list Z) : Z :=
  match s1 with
  | [] => 0
  | x :: s1 =>
      let c1 := tab kToLower x in
      match s2 with
      | [] => c1 - tab kToLower 0
      | y :: s2 =>
          let c2 := tab kToLower y in
          if negb (c1 =? 0) && (c1 =? c2) then gperf_case_strncmp s1 s2 else c1 - c2
      end
  end.

Definition slot0 : HttpHeaderSlot := {| name := []; code := 0 |}.

(** The outer [None] is a read past the terminator of a name. *)
Definition LookupHttpHeader (str : list Z) : option (option HttpHeaderSlot) :=
  let len := length str in
  if (len <=? 32)%nat && (2 <=? len)%nat then
    let key := hash str in
    if key <=? 181 then
      let slot := nth (Z.to_nat key) wordlist slot0 in
      let s := name slot in
      if (Z.land (Z.lxor (hd0 str) (hd0 s)) (Z.lnot 32) =? 0) && (gperf_case_strncmp str s =? 0) then
        if (length s <? len)%nat then None
        else if nth len s 0 =? 0 then Some (Some slot) else Some None
      else Some None
    else Some None
  else Some None.

Definition GetHttpHeader (str : list Z) : option Z :=
  match LookupHttpHeader str with
  | None => None
  | Some (Some slot) => Some (code slot)
  | Some None => Some (-1)
  end.

(** ** Binary search *)

(** The loop the lookups share, over the index range [l..r] of a table whose entry [m] has
    key [key m]: [Some (Some m)] found, [Some None] absent, [None] out of fuel. *)
Section Bisect.
Variable key : Z -> Z.
Variable x : Z.
Fixpoint bisect (fuel : nat) (l r : Z) : option (option Z) :=
  if l <=? r then
    match fuel with
    | O => None
    | S fuel =>
        let m := Z.land l r + Z.shiftr (Z.lxor l r) 1 in
        if key m <? x then bisect fuel (m + 1) r
        else if key m >? x then bisect fuel l (m - 1)
        else Some (Some m)
    end
  else Some None.
End Bisect.

Definition idx {A} (d : A) (t : list A) (m : Z) : A := nth (Z.to_nat m) t d.

Definition GetHttpReason (code : Z) : option (list Z) :=
  match bisect (fun m => fst (idx (0, []) kHttpReason m)) code (length kHttpReason) 0 (Z.of_nat (length kHttpReason) - 1) with
  | None => None
  | Some (Some m) => Some (snd (idx (0, []) kHttpReason m))
  | Some None => Some []
  end.

Definition READ64BE (b : list Z) : Z := foldl (fun a c => a * 256 + c) 0 b.
Definition bswap_64 (w : Z) : Z :=
  foldl (fun a i => Z.lor (Z.shiftl a 8) (Z.land (Z.shiftr w (8 * i)) 255)) 0 (seqZ 0 8).

(** The mime type found, [Some None] for a null pointer. *)
Definition BisectContentType (ext : Z) : option (option (list Z)) :=
  match bisect (fun m => READ64BE (fst (idx ([], []) kContentTypeExtension m))) ext (length kContentTypeExtension) 0
               (Z.of_nat (length kContentTypeExtension) - 1) with
  | None => None
  | Some (Some m) => Some (Some (snd (idx ([], []) kContentTypeExtension m)))
  | Some None => Some None
  end.

(** The scan from the end of the path, over its reversed bytes. *)
Fixpoint content_type_scan (rev_p : list Z) (w : Z) : option (option (list Z)) :=
  match rev_p with
  | [] => Some None
  | b :: rev_p =>
      let c := Z.land b 255 in
      if c =? DOT then BisectContentType (bswap_64 w)
      else content_type_scan rev_p (Z.lor (u64 (Z.shiftl w 8)) (tab kToLower c))
  end.
Definition FindContentType (p : list Z) : option (option (list Z)) := content_type_scan (rev p) 0.

Definition BisectNoCompressExts (ext : Z) : option bool :=
  match bisect (fun m => READ64BE (idx [] kNoCompressExts m)) ext (length kNoCompressExts) 0
               (Z.of_nat (length kNoCompressExts) - 1) with
  | None => None
  | Some o => Some (bool_decide (is_Some o))
  end.
Fixpoint no_compress_scan (rev_p : list Z) (i : Z) (w : Z) : option bool :=
  match rev_p with
  | [] => BisectNoCompressExts (bswap_64 w)
  | b :: rev_p =>
      let c := Z.land b 255 in
      if c =? DOT then BisectNoCompressExts (bswap_64 w)
      else if 8 <? i + 1 then Some false
      else no_compress_scan rev_p (i + 1) (Z.lor (u64 (Z.shiftl w 8)) (tab kToLower c))
  end.
Definition IsNoCompressExt (p : list Z) : option bool :=
  if bool_decide (p = []) then Some false else no_compress_scan (rev p) 0 0.

(** An extension of more than eight characters is cut to its first eight. *)
Example FindContentType_truncates :
  FindContentType (str "a.markdownish") = Some (Some (str "text/plain")) /\
  FindContentType (str "a.markdownish") = FindContentType (str "a.markdown") /\
  FindContentType (str "a.HTML") = Some (Some (str "text/html")) /\
  FindContentType (str "a.exe") = Some None.
Proof. repeat split; vm_compute; reflexivity. Qed.

(** A path that is one of the extensions and has no dot counts too. *)
Example IsNoCompressExt_runs :
  IsNoCompressExt (str "a.PNG") = Some true /\ IsNoCompressExt (str "a.txt") = Some false /\
  IsNoCompressExt (str "a.gzzzzzzzz") = Some false /\ IsNoCompressExt (str "zip") = Some true.
Proof. repeat split; vm_compute; reflexivity. Qed.
