(* ===== verification/HttpNamesFacts.v ===== *)
(** The lookups of [HttpNames] find exactly what their tables hold: header names in any
    letter case, reason phrases, content types. *)
From S2P Require Import Prelude Tables HttpNames.

(** * Header names *)

Definition lower (s : list Z) : list Z := map (tab kToLower) s.
Definition textual (s : list Z) : Prop := Forall (fun c => is_byte c /\ c <> 0) s.

Lemma asso_lower c : is_byte c -> tab asso_values c = tab asso_values (tab kToLower c).
Proof. intros Hc. apply Z.eqb_eq. by apply (byte_enum (fun c => tab asso_values c =? tab asso_values (tab kToLower c)) eq_refl). Qed.
Lemma lower_byte c : is_byte c -> is_byte (tab kToLower c).
Proof.
  intros Hc. unfold is_byte. pose proof (byte_enum (fun c => (0 <=? tab kToLower c) && (tab kToLower c <? 256)) eq_refl c Hc).
  cbv beta in H. bool_prop. lia.
Qed.
Lemma lower_zero c : is_byte c -> c <> 0 -> tab kToLower c <> 0.
Proof. intros Hc H0. pose proof (byte_enum (fun c => implb (negb (c =? 0)) (negb (tab kToLower c =? 0))) eq_refl c Hc).
  cbv beta in H. destruct (c =? 0) eqn:E; bool_prop; [done|]. cbn in H. by bool_prop. Qed.

Lemma lower_same_letter x y : is_byte x -> is_byte y -> tab kToLower x = tab kToLower y -> Z.land (Z.lxor x y) (Z.lnot 32) = 0.
Proof.
  intros Hx Hy E.
  assert (forallb (fun x => forallb (fun y => implb (tab kToLower x =? tab kToLower y) (Z.land (Z.lxor x y) (Z.lnot 32) =? 0)) (seqZ 0 256)) (seqZ 0 256) = true) as H
    by (vm_compute; reflexivity).
  pose proof (byte_enum _ (byte_enum _ H x Hx) y Hy) as H2. cbv beta in H2. rewrite E, Z.eqb_refl in H2. cbn in H2. by bool_prop.
Qed.

Lemma nth_byte s i : Forall is_byte s -> is_byte (nth i s 0).
Proof. intros H. revert i. induction H; intros [|i]; cbn; unfold is_byte in *; try lia; auto. Qed.
Lemma textual_bytes s : textual s -> Forall is_byte s.
Proof. apply Forall_impl. tauto. Qed.

Lemma asso_lower_at s i : Forall is_byte s -> asso (lower s) i = asso s i.
Proof.
  intros Hs. unfold asso, lower. replace (nth i (map (tab kToLower) s) 0) with (tab kToLower (nth i s 0)).
  - symmetry. by apply asso_lower, nth_byte.
  - clear Hs. revert i. induction s; intros [|i]; cbn; auto.
Qed.

(** The hash does not see letter case. *)
Lemma hash_lower s : Forall is_byte s -> hash (lower s) = hash s.
Proof. intros Hs. unfold hash. rewrite !asso_lower_at by done. unfold lower. by rewrite length_map. Qed.

Lemma strncmp_equal s n : textual s -> lower s = lower n -> gperf_case_strncmp s n = 0.
Proof.
  intros Hs. revert n. induction Hs as [|x s [Hx H0] Hs IH]; intros [|y n] E; cbn in E |- *; try done.
  injection E as E1 E2. rewrite if_true; [by apply IH|]. rewrite andb_true_iff, negb_true_iff, Z.eqb_neq, Z.eqb_eq.
  split; [by apply lower_zero|done].
Qed.

Lemma strncmp_zero s n : textual s -> gperf_case_strncmp s n = 0 ->
  (length s <= length n)%nat /\ lower s = lower (take (length s) n).
Proof.
  intros Hs. revert n. induction Hs as [|x s [Hx H0] Hs IH]; intros n E; [cbn; split; [lia|done]|].
  pose proof (lower_zero x Hx H0). destruct n as [|y n]; cbn in E.
  - replace (tab kToLower 0) with 0 in E by done. lia.
  - destruct (_ && _) eqn:Eb in E; bool_prop.
    + destruct (IH n E) as [Hl He]. cbn. split; [lia|]. f_equal; done.
    + exfalso. rewrite andb_false_iff, negb_false_iff, Z.eqb_eq, Z.eqb_neq in Eb. lia.
Qed.

(** The two tables agree, by enumeration. *)
Definition slot_ok (h : Z) : bool :=
  match GetHttpHeaderName h with
  | None => false
  | Some n =>
      bool_decide (2 <= length n <= 32)%nat && (hash (lower n) <=? 181) &&
      (let slot := nth (Z.to_nat (hash (lower n))) wordlist slot0 in bool_decide (name slot = n) && (code slot =? h)) &&
      forallb (fun c => (0 <? c) && (c <? 256)) n
  end.
Lemma slots_ok : forallb slot_ok (seqZ 0 93) = true.
Proof. vm_compute. reflexivity. Qed.
Lemma wordlist_ok : forallb (fun s => bool_decide (name s = []) || (bool_decide (GetHttpHeaderName (code s) = Some (name s)))) wordlist = true.
Proof. vm_compute. reflexivity. Qed.

Lemma GetHttpHeaderName_range h n : GetHttpHeaderName h = Some n -> 0 <= h < 93.
Proof.
  intros E. destruct h as [|p|p]; [lia| |done].
  do 7 (destruct p as [p|p|]; try (vm_compute in E; discriminate E); try lia).
Qed.

Lemma slot_of h n : GetHttpHeaderName h = Some n ->
  (2 <= length n <= 32)%nat /\ hash (lower n) <= 181 /\ textual n /\
  nth (Z.to_nat (hash (lower n))) wordlist slot0 = {| name := n; code := h |}.
Proof.
  intros E. pose proof slots_ok as H. rewrite forallb_forall in H. specialize (H h).
  assert (In h (seqZ 0 93)) as Hin by (apply list_elem_of_In, elem_of_seqZ; pose proof (GetHttpHeaderName_range h n E); lia).
  specialize (H Hin). unfold slot_ok in H. rewrite E in H. bool_prop.
  repeat match goal with H : bool_decide _ = true |- _ => apply bool_decide_eq_true in H end.
  destruct (nth _ wordlist slot0) as [n' c'] eqn:Es. cbn in *. subst. split_and!; try done; try lia.
  unfold textual. apply List.Forall_forall. intros x Hx. rewrite forallb_forall in H0.
  specialize (H0 x Hx). bool_prop. unfold is_byte. lia.
Qed.

Lemma name_of_slot s : In s wordlist -> name s <> [] -> GetHttpHeaderName (code s) = Some (name s).
Proof.
  intros Hin Hne. pose proof wordlist_ok as H. rewrite forallb_forall in H. specialize (H s Hin).
  apply orb_true_iff in H as [H|H]; by apply bool_decide_eq_true in H.
Qed.

Lemma LookupHttpHeader_hit s h n : textual s -> GetHttpHeaderName h = Some n -> lower s = lower n ->
  LookupHttpHeader s = Some (Some {| name := n; code := h |}).
Proof.
  intros Hs Hn E. destruct (slot_of h n Hn) as (Hlen & Hhash & Htn & Hslot).
  assert (length s = length n) as El by (apply (f_equal length) in E; unfold lower in E; by rewrite !length_map in E).
  unfold LookupHttpHeader. rewrite El, <- (hash_lower s) by (by apply textual_bytes). rewrite E, Hslot. cbn [name].
  rewrite if_true by (rewrite andb_true_iff, !Nat.leb_le; lia). rewrite if_true by (by apply Z.leb_le).
  rewrite if_true.
  - rewrite if_false by (apply Nat.ltb_ge; lia). rewrite nth_overflow by lia. done.
  - rewrite strncmp_equal by done. rewrite andb_true_r. apply Z.eqb_eq. apply lower_same_letter.
    + by apply nth_byte, textual_bytes.
    + by apply nth_byte, textual_bytes.
    + destruct s, n; cbn in *; try done. by injection E.
Qed.

Lemma LookupHttpHeader_total s : textual s -> exists o, LookupHttpHeader s = Some o /\
  forall slot, o = Some slot -> GetHttpHeaderName (code slot) = Some (name slot) /\ lower s = lower (name slot).
Proof.
  intros Hs. unfold LookupHttpHeader.
  destruct ((length s <=? 32)%nat && _) eqn:E1; [|by exists None].
  destruct (hash s <=? 181) eqn:E2; [|by exists None].
  set (slot := nth (Z.to_nat (hash s)) wordlist slot0).
  destruct (_ && (gperf_case_strncmp s (name slot) =? 0)) eqn:E3; [|by exists None].
  apply andb_true_iff in E1 as [E11 E12]. apply Nat.leb_le in E11, E12.
  apply andb_true_iff in E3 as [_ E3]. apply Z.eqb_eq in E3.
  destruct (strncmp_zero s (name slot) Hs E3) as [Hl He]. rewrite if_false by (apply Nat.ltb_ge; lia).
  destruct (nth (length s) (name slot) 0 =? 0) eqn:E4; [|by exists None]. exists (Some slot). split; [done|]. intros ? [= <-].
  assert (name slot <> []) as Hne by (intros En; rewrite En in Hl; cbn in Hl; lia).
  assert (GetHttpHeaderName (code slot) = Some (name slot)) as Hn.
  { destruct (nth_in_or_default (Z.to_nat (hash s)) wordlist slot0) as [Hin|Hd]; [by apply name_of_slot|]. subst slot. by rewrite Hd in Hne. }
  split; [done|]. destruct (slot_of _ _ Hn) as (_ & _ & Htn & _).
  destruct (decide (length s = length (name slot))) as [El|Ne].
  - rewrite He, El. by rewrite take_ge.
  - exfalso. apply Z.eqb_eq in E4. unfold textual in Htn. rewrite List.Forall_forall in Htn.
    destruct (Htn (nth (length s) (name slot) 0)) as [_ H0]; [apply nth_In; lia|done].
Qed.

(** [GetHttpHeader] on a header name, without NULs and in any letter case, is the exact
    inverse of [GetHttpHeaderName]: it answers [h] when the name is that of header [h], and
    -1 when it is no header's name; the perfect hash never misses and never confuses names. *)
Theorem GetHttpHeader_exact s : textual s ->
  exists c, GetHttpHeader s = Some c /\
    forall h n, GetHttpHeaderName h = Some n -> (lower s = lower n <-> c = h).
Proof.
  intros Hs. unfold GetHttpHeader. destruct (LookupHttpHeader_total s Hs) as (o & E & Ho).
  rewrite E. destruct o as [slot|].
  - destruct (Ho slot eq_refl) as [Hn Hl]. exists (code slot). split; [done|]. intros h n Hh. split.
    + intros El. rewrite (LookupHttpHeader_hit s h n Hs Hh El) in E. by injection E as <-.
    + intros <-. congruence.
  - exists (-1). split; [done|]. intros h n Hh. split.
    + intros El. by rewrite (LookupHttpHeader_hit s h n Hs Hh El) in E.
    + intros <-. by destruct (GetHttpHeaderName_range _ _ Hh).
Qed.

Lemma GetHttpHeader_exact_witness : exists c, GetHttpHeader (str "conTENT-length") = Some c /\ c = 23.
Proof.
  destruct (GetHttpHeader_exact (str "conTENT-length")) as (c & E & H).
  - apply (bool_decide_unpack _). vm_compute. reflexivity.
  - exists c. split; [done|]. apply (H 23 (str "Content-Length")); reflexivity.
Defined.

(** * Binary search *)

Section BisectFacts.
Context (key : Z -> Z) (x n : Z) (sorted : forall i j, 0 <= i <= j -> j < n -> key i <= key j).

Lemma bisect_spec fuel : forall l r, 0 <= l -> r < n -> r - l < Z.of_nat fuel ->
  exists o, bisect key x fuel l r = Some o /\
    match o with
    | Some m => l <= m <= r /\ key m = x
    | None => forall i, l <= i <= r -> key i <> x
    end.
Proof.
  induction fuel as [|fuel IH]; intros l r Hl Hr Hf; cbn [bisect].
  - rewrite if_false by (apply Z.leb_gt; lia). exists None. split; [done|lia].
  - destruct (l <=? r) eqn:E; bool_prop; [|exists None; split; [done|lia]].
    rewrite midpoint by lia. assert (l <= (l + r) / 2 <= r) as Hm by lia.
    destruct (key ((l + r) / 2) <? x) eqn:E1; [|destruct (key ((l + r) / 2) >? x) eqn:E2]; bool_prop.
    + destruct (IH ((l + r) / 2 + 1) r) as (o & -> & Ho); [lia..|]. exists o. split; [done|]. destruct o as [m|]; [lia|].
      intros i Hi. destruct (decide (i <= (l + r) / 2)); [|apply Ho; lia]. specialize (sorted i ((l + r) / 2)). lia.
    + apply Z.gtb_lt in E2. destruct (IH l ((l + r) / 2 - 1)) as (o & -> & Ho); [lia..|]. exists o. split; [done|].
      destruct o as [m|]; [lia|]. intros i Hi. destruct (decide ((l + r) / 2 <= i)); [|apply Ho; lia].
      specialize (sorted ((l + r) / 2) i). lia.
    + exists (Some ((l + r) / 2)). split; [done|]. rewrite Z.gtb_ltb, Z.ltb_ge in E2. lia.
Qed.
End BisectFacts.

(** A table sorted by a key, as a check on neighbours. *)
Fixpoint ascending (l : list Z) : bool :=
  match l with
  | a :: (b :: _) as t => (a <=? b) && ascending t
  | _ => true
  end.
Lemma ascending_nth l : ascending l = true -> forall i j, (i <= j < length l)%nat -> nth i l 0 <= nth j l 0.
Proof.
  induction l as [|a l IH]; intros Ha i j Hij; [cbn in Hij; lia|]. cbn [length] in Hij.
  destruct l as [|b l]; [cbn [length] in Hij; replace i with 0%nat by lia; replace j with 0%nat by lia; lia|].
  cbn [ascending] in Ha. apply andb_true_iff in Ha as [Hab Ha]. bool_prop. specialize (IH Ha).
  destruct i as [|i], j as [|j]; try lia.
  - cbn [nth]. specialize (IH 0%nat j ltac:(lia)). cbn [nth] in IH. lia.
  - apply (IH i j). lia.
Qed.

(** The first entry of a table with a key. *)
Definition lookup_by {A} (key : A -> Z) (x : Z) (t : list A) : option A := List.find (fun e => key e =? x) t.

Section TableFacts.
Context {A : Type} (d : A) (t : list A) (key : A -> Z).
Context (Hsorted : ascending (map key t) = true).

Lemma bisect_table x (f : A -> list Z) :
  (forall a b, In a t -> In b t -> key a = key b -> f a = f b) ->
  exists o, bisect (fun m => key (idx d t m)) x (length t) 0 (Z.of_nat (length t) - 1) = Some o /\
    option_map (fun m => f (idx d t m)) o = option_map f (lookup_by key x t).
Proof.
  intros Hf.
  destruct (bisect_spec (fun m => key (idx d t m)) x (Z.of_nat (length t))) with (fuel := length t) (l := 0) (r := Z.of_nat (length t) - 1)
    as (o & -> & Ho); [|lia..|].
  - intros i j Hij Hj. pose proof (ascending_nth _ Hsorted (Z.to_nat i) (Z.to_nat j)) as H. rewrite length_map in H.
    assert (forall k, (k < length t)%nat -> nth k (map key t) 0 = key (nth k t d)) as Hnth.
    { intros k Hk. rewrite (nth_indep _ 0 (key d)) by (rewrite length_map; lia). apply map_nth. }
    rewrite !Hnth in H by lia. unfold idx. apply H. lia.
  - exists o. split; [done|]. unfold lookup_by. destruct (List.find (fun e => key e =? x) t) as [e|] eqn:E.
    + apply List.find_some in E as [Hin He]. apply Z.eqb_eq in He. destruct o as [m|]; cbn [option_map].
      * destruct Ho as [Hm Hk]. f_equal. apply Hf; [apply nth_In; lia|done|congruence].
      * apply (In_nth _ _ d) in Hin as (k & Hk & Hn). destruct (Ho (Z.of_nat k)); [lia|]. unfold idx. by rewrite Nat2Z.id, Hn.
    + destruct o as [m|]; [|done]. destruct Ho as [Hm Hk]. exfalso.
      pose proof (List.find_none _ _ E (idx d t m) ltac:(apply nth_In; lia)) as H. cbv beta in H. by rewrite Hk, Z.eqb_refl in H.
Qed.
End TableFacts.

(** [GetHttpReason] answers, for every code whatever, the phrase of the table's entry
    for that code, and the empty string when there is none. *)
Theorem GetHttpReason_lookup code :
  GetHttpReason code = Some (from_option snd [] (lookup_by fst code kHttpReason)).
Proof.
  unfold GetHttpReason. destruct (bisect_table (0, []) kHttpReason fst eq_refl code snd) as (o & -> & Ho).
  - intros a b Ha Hb Hk. assert (NoDup (map fst kHttpReason)) as Hnd by (apply (bool_decide_unpack _); vm_compute; reflexivity).
    assert (forall l : list (Z * list Z), NoDup (map fst l) -> In a l -> In b l -> a = b) as H.
    { intros l. induction l as [|c l IH]; [done|]. cbn [map]. intros Hc. inversion_clear Hc as [|? ? Hni Hnd']. intros [->|Ha'] [->|Hb']; auto.
      - destruct Hni. apply list_elem_of_In. rewrite Hk. by apply in_map.
      - destruct Hni. apply list_elem_of_In. rewrite <- Hk. by apply in_map. }
    by rewrite (H _ Hnd Ha Hb).
  - destruct o as [m|], (lookup_by fst code kHttpReason) as [e|]; cbn in *; congruence.
Qed.

(** ** Extensions as integers *)

Definition le (l : list Z) : Z := foldr (fun c a => c + 256 * a) 0 l.

Lemma le_range l : Forall is_byte l -> 0 <= le l < 256 ^ Z.of_nat (length l).
Proof.
  induction 1 as [|c l Hc Hl IH]; [cbn; lia|]. cbn [le foldr length]. fold (le l).
  rewrite Nat2Z.inj_succ, Z.pow_succ_r by lia. unfold is_byte in Hc. lia.
Qed.
Lemma le_take k : forall l, Forall is_byte l -> le l mod 256 ^ Z.of_nat k = le (take k l).
Proof.
  induction k as [|k IH]; intros l Hl; [cbn; by rewrite Z.mod_1_r|]. destruct Hl as [|c l Hc Hl]; [done|].
  cbn [le foldr take]. fold (le l) (le (take k l)). rewrite <- IH by done. rewrite Nat2Z.inj_succ, Z.pow_succ_r by lia.
  assert (0 < 256 ^ Z.of_nat k) by (apply Z.pow_pos_nonneg; lia).
  rewrite Z.rem_mul_r by lia. unfold is_byte in Hc.
  replace ((c + 256 * le l) mod 256) with c by (rewrite Z.mul_comm, Z.mod_add, Z.mod_small; lia).
  replace ((c + 256 * le l) / 256) with (le l) by (rewrite Z.mul_comm, Z.div_add, Z.div_small; lia). lia.
Qed.
Lemma le_pad l k : le (l ++ replicate k 0) = le l.
Proof.
  induction l as [|c l IH]; cbn [app]; [|cbn [le foldr]; fold (le l) (le (l ++ replicate k 0)); by rewrite IH].
  induction k as [|k IH]; [done|]. cbn [replicate le foldr]. fold (le (replicate k 0)). rewrite IH. done.
Qed.
Lemma lower_bytes s : Forall is_byte s -> Forall is_byte (lower s).
Proof. unfold lower. induction 1; cbn; constructor; auto using lower_byte. Qed.
Lemma ext8_bytes l : Forall is_byte l -> Forall is_byte (ext8 l).
Proof. intros. unfold ext8. apply Forall_take, Forall_app. split; [done|]. apply Forall_replicate. unfold is_byte. lia. Qed.
Lemma length_ext8 l : length (ext8 l) = 8%nat.
Proof. unfold ext8. rewrite length_take, length_app, length_replicate. lia. Qed.
Lemma le_ext8 l : Forall is_byte l -> le (ext8 l) = le (take 8 l).
Proof.
  intros Hl. unfold ext8. assert (Forall is_byte (l ++ replicate 8 0)).
  { apply Forall_app. split; [done|]. apply Forall_replicate. unfold is_byte. lia. }
  rewrite <- !(le_take 8) by done. by rewrite le_pad.
Qed.

(** One character more: the word keeps the first eight characters read so far. *)
Lemma le_step c l : is_byte c -> Forall is_byte l -> Z.lor (u64 (Z.shiftl (le (take 8 l)) 8)) c = le (take 8 (c :: l)).
Proof.
  intros Hc Hl. unfold u64. rewrite shiftl_mul by lia. change (2 ^ 64) with (2 ^ 8 * 256 ^ Z.of_nat 7).
  rewrite Z.mul_comm, Z.mul_mod_distr_l by lia.
  rewrite <- (le_take 8) by done. change (256 ^ Z.of_nat 8) with (256 ^ Z.of_nat 7 * 256).
  rewrite (Z.rem_mul_r (le l)) by lia.
  rewrite Z.add_mod, (Z.mul_comm (256 ^ _)), Z.mod_mul, Z.add_0_r, !Z.mod_mod by lia. rewrite le_take by done.
  unfold is_byte in Hc. rewrite (lor_high_low _ c 8); [cbn [take le foldr]; fold (le (take 7 l)); lia|lia|lia|].
  rewrite Z.mul_comm. apply Z.mod_mul. lia.
Qed.

Lemma le_byte l i : Forall is_byte l -> (i < length l)%nat -> Z.land (Z.shiftr (le l) (8 * Z.of_nat i)) 255 = nth i l 0.
Proof.
  intros Hl. revert i. induction Hl as [|c l Hc Hl IH]; intros i Hi; [cbn in Hi; lia|]. cbn [le foldr]. fold (le l).
  change 255 with (2 ^ 8 - 1). rewrite land_mask, shiftr_div by lia. change (2 ^ 8) with 256. unfold is_byte in Hc. destruct i as [|i].
  - cbn [nth]. change (2 ^ (8 * Z.of_nat 0)) with 1. rewrite Z.div_1_r. lia.
  - cbn [nth length] in *. rewrite <- IH by lia. change 255 with (2 ^ 8 - 1). rewrite land_mask, shiftr_div by lia.
    f_equal. replace (8 * Z.of_nat (S i)) with (8 + 8 * Z.of_nat i) by lia. rewrite Z.pow_add_r, <- Z.div_div by lia.
    f_equal. change (2 ^ 8) with 256. lia.
Qed.

Lemma be_step a c : is_byte c -> Z.lor (Z.shiftl a 8) c = a * 256 + c.
Proof.
  intros Hc. unfold is_byte in Hc. rewrite shiftl_mul by lia. rewrite (lor_high_low _ c 8); [lia|lia|lia|]. apply Z.mod_mul. lia.
Qed.

Lemma bswap_le l : Forall is_byte l -> length l = 8%nat -> bswap_64 (le l) = READ64BE l.
Proof.
  intros Hl H8. unfold bswap_64, READ64BE.
  assert (forall i, (i < 8)%nat -> Z.land (Z.shiftr (le l) (8 * Z.of_nat i)) 255 = nth i l 0) as H by (intros; apply le_byte; [done|lia]).
  change (seqZ 0 8) with (map Z.of_nat (seq 0 8)). cbn [map seq foldl]. rewrite !H by lia.
  destruct l as [|b0 [|b1 [|b2 [|b3 [|b4 [|b5 [|b6 [|b7 [|? ?]]]]]]]]]; try done. cbn [nth foldl].
  repeat match goal with H : Forall _ (_ :: _) |- _ => apply List.Forall_cons_iff in H as [? H] end.
  rewrite !be_step by done. done.
Qed.

Lemma READ64BE_inj a b : Forall is_byte a -> Forall is_byte b -> length a = length b -> READ64BE a = READ64BE b -> a = b.
Proof.
  unfold READ64BE. revert b. induction a as [|x a IH] using rev_ind; intros b Ha Hb Hl E.
  - by destruct b.
  - destruct b as [|y b _] using rev_ind; [rewrite length_app in Hl; cbn in Hl; lia|].
    apply Forall_app in Hb as [Hb Hy]. apply List.Forall_cons_iff in Hy as [Hy _].
    apply Forall_app in Ha as [Ha Hx]. apply List.Forall_cons_iff in Hx as [Hx _].
    rewrite !foldl_app in E. cbn [foldl] in E. rewrite !length_app in Hl. cbn in Hl. unfold is_byte in Hx, Hy.
    assert (x = y) by lia. subst y. f_equal. apply IH; [done|done|lia|lia].
Qed.

(** * Content types *)

Lemma content_type_scan_ext l : forall acc rest, Forall is_byte l -> Forall is_byte acc -> ~ In DOT l ->
  content_type_scan (l ++ DOT :: rest) (le (take 8 acc)) = BisectContentType (bswap_64 (le (take 8 (lower (rev l) ++ acc)))).
Proof.
  induction l as [|b l IH]; intros acc rest Hl Hacc Hd; cbn [app content_type_scan rev].
  - done.
  - apply List.Forall_cons_iff in Hl as [Hb Hl].
    assert (Z.land b 255 = b) as -> by (change 255 with (2 ^ 8 - 1); rewrite land_mask by lia; apply Z.mod_small, Hb).
    rewrite if_false by (apply Z.eqb_neq; intros ->; apply Hd; by left).
    rewrite le_step by auto using lower_byte. rewrite IH; [|done|constructor; auto using lower_byte|intros Hin; apply Hd; by right].
    unfold lower. by rewrite map_app, <- app_assoc.
Qed.

Definition same_ext (e : list Z) (x : list Z * list Z) : bool := bool_decide (fst x = e).

Lemma content_types_ok :
  forallb (fun a => bool_decide (length (fst a) = 8%nat) && forallb (fun c => (0 <=? c) && (c <? 256)) (fst a) &&
    forallb (fun b => implb (READ64BE (fst a) =? READ64BE (fst b)) (bool_decide (snd a = snd b))) kContentTypeExtension) kContentTypeExtension = true.
Proof. vm_compute. reflexivity. Qed.

Lemma content_type_entry a : In a kContentTypeExtension -> length (fst a) = 8%nat /\ Forall is_byte (fst a).
Proof.
  intros Ha. pose proof content_types_ok as H. rewrite forallb_forall in H. specialize (H a Ha). bool_prop.
  apply bool_decide_eq_true in H. split; [done|]. apply List.Forall_forall. intros c Hc. rewrite forallb_forall in H1.
  specialize (H1 c Hc). bool_prop. unfold is_byte. lia.
Qed.

(** For a path with an extension, in any letter case, [FindContentType] answers the mime
    type of the table's entry for the extension, or none when it has no entry. Only the
    first eight characters of the extension count. *)
Theorem FindContentType_lookup pre ext : Forall is_byte ext -> ~ In DOT ext ->
  FindContentType (pre ++ DOT :: ext) =
  Some (option_map snd (List.find (same_ext (ext8 (lower ext))) kContentTypeExtension)).
Proof.
  intros He Hd. unfold FindContentType. rewrite rev_app_distr. cbn [rev]. rewrite <- app_assoc. cbn [app].
  change 0 with (le (take 8 [])). rewrite content_type_scan_ext; [|by apply Forall_rev|constructor|by rewrite <- in_rev].
  rewrite rev_involutive, app_nil_r, <- le_ext8 by (by apply lower_bytes).
  rewrite bswap_le by (apply length_ext8 || by apply ext8_bytes, lower_bytes). unfold BisectContentType.
  destruct (bisect_table ([], []) kContentTypeExtension (fun e => READ64BE (fst e)) eq_refl (READ64BE (ext8 (lower ext))) snd)
    as (o & -> & Ho).
  - intros a b Ha Hb Hk. pose proof content_types_ok as H. rewrite forallb_forall in H. specialize (H a Ha). bool_prop.
    rewrite forallb_forall in H0. specialize (H0 b Hb). rewrite Hk, Z.eqb_refl in H0. by apply bool_decide_eq_true in H0.
  - assert (lookup_by (fun e => READ64BE (fst e)) (READ64BE (ext8 (lower ext))) kContentTypeExtension =
      List.find (same_ext (ext8 (lower ext))) kContentTypeExtension) as <-.
    { unfold lookup_by. pose proof content_type_entry as Hent. clear Ho. induction kContentTypeExtension as [|a t IH]; [done|]. cbn [List.find].
      destruct (Hent a ltac:(by left)) as [H8 Hb]. unfold same_ext at 1.
      destruct (READ64BE a.1 =? READ64BE (ext8 (lower ext))) eqn:E.
      - rewrite bool_decide_eq_true_2; [done|]. bool_prop. apply READ64BE_inj; [done|by apply ext8_bytes, lower_bytes|by rewrite length_ext8|done].
      - rewrite bool_decide_eq_false_2; [apply IH; intros; apply Hent; by right|]. intros Heq. by rewrite Heq, Z.eqb_refl in E. }
    destruct o as [m|]; cbn [option_map] in *; by rewrite <- Ho.
Qed.

Lemma FindContentType_lookup_witness :
  FindContentType (str "/a.b/index" ++ DOT :: str "HtMl") = Some (Some (str "text/html")).
Proof.
  rewrite (FindContentType_lookup (str "/a.b/index") (str "HtMl")).
  - vm_compute. reflexivity.
  - apply (bool_decide_unpack _). vm_compute. reflexivity.
  - cbn. intros H. repeat destruct H as [H|H]; discriminate || done.
Defined.
