(* ===== verification/Base64.v ===== *)
(** Base64 and base32: [net/http/encodebase64.c], [decodebase64.c] and [base32.c].

    Buffers are lists; sizes are given, so the [-1] that asks for [strlen] is resolved by the
    caller, and allocations are taken to succeed. *)
From S2P Require Import Prelude Tables.

(** * Base64 *)

Definition CHARS : list Z := ascii_codes "ABCDEFGHIJKLMNOPQRSTUVWXYZabcdefghijklmnopqrstuvwxyz0123456789+/"%string.
Definition chars (i : Z) : Z := nth (Z.to_nat i) CHARS 0.

(** The loop of [EncodeBase64]: three bytes a turn, fewer in the last. *)
Fixpoint EncodeBase64 (p : list Z) : list Z :=
  match p with
  | [] => []
  | p0 :: p1 :: p2 :: rest =>
      let w := Z.lor (Z.lor (Z.shiftl p0 16) (Z.shiftl p1 8)) p2 in
      [chars (Z.land (Z.shiftr w 18) 63); chars (Z.land (Z.shiftr w 12) 63); chars (Z.land (Z.shiftr w 6) 63); chars (Z.land w 63)] ++
      EncodeBase64 rest
  | [p0; p1] =>
      let w := Z.lor (Z.shiftl p0 16) (Z.shiftl p1 8) in
      [chars (Z.land (Z.shiftr w 18) 63); chars (Z.land (Z.shiftr w 12) 63); chars (Z.land (Z.shiftr w 6) 63); EQUALS]
  | [p0] =>
      let w := Z.shiftl p0 16 in
      [chars (Z.land (Z.shiftr w 18) 63); chars (Z.land (Z.shiftr w 12) 63); EQUALS; EQUALS]
  end.
(** The length the encoder computes and reports. *)
Definition EncodeBase64_size (size : Z) : Z := (if size mod 3 =? 0 then size else size + (3 - size mod 3)) / 3 * 4.

(** [do { ... } while (a == -1)]: the value of the next character that is no white space,
    and what follows it; [None] at the end of the input. *)
Fixpoint next_digit (p : list Z) : option (Z * list Z) :=
  match p with
  | [] => None
  | b :: p => let a := tab kBase64 (Z.land b 0xff) in if a =? -1 then next_digit p else Some (a, p)
  end.
(** The third and fourth characters, [-2] at the end of the input. *)
Definition next_digit_or_pad (p : list Z) : Z * list Z :=
  match next_digit p with None => (-2, []) | Some r => r end.

(** The loop of [DecodeBase64], what it writes to [q]. *)
Fixpoint decode_base64_loop (fuel : nat) (p : list Z) : option (list Z) :=
  match fuel with
  | O => None
  | S fuel =>
      match next_digit p with
      | None => Some []
      | Some (a, p) =>
          if a =? -2 then decode_base64_loop fuel p else
          match next_digit p with
          | None => Some []
          | Some (b, p) =>
              if b =? -2 then decode_base64_loop fuel p else
              let '(c, p) := next_digit_or_pad p in
              let '(d, p) := next_digit_or_pad p in
              let w := Z.lor (Z.shiftl a 18) (Z.shiftl b 12) in
              let w := if negb (c =? -2) then Z.lor w (Z.shiftl c 6) else w in
              let w := if negb (d =? -2) then Z.lor w d else w in
              let q := [Z.shiftr (Z.land w 0xFF0000) 16] ++
                       (if negb (c =? -2) then [Z.shiftr (Z.land w 0x00FF00) 8] else []) ++
                       (if negb (d =? -2) then [Z.land w 0x0000FF] else []) in
              match decode_base64_loop fuel p with None => None | Some r => Some (q ++ r) end
          end
      end
  end.
Definition DecodeBase64 (data : list Z) : option (list Z) := decode_base64_loop (S (length data)) data.
(** The bytes allocated. *)
Definition DecodeBase64_room (size : Z) : Z := (size + 3) / 4 * 4 / 4 * 3 + 1.

(** * Base32 *)

(** The alphabet is an array of 33 with its terminator. *)
Definition base32def : list Z := ascii_codes "0123456789abcdefghjkmnpqrstvwxyz"%string ++ [0].

Fixpoint tobits_loop (fuel : nat) (b bits : Z) : Z :=
  match fuel with
  | O => bits
  | S fuel => if b =? 0 then bits else let b := Z.shiftr b 1 in if b =? 0 then bits else tobits_loop fuel b (bits + 1)
  end.
(** An [int] has 31 value bits. *)
Definition tobits (b : Z) : Z := tobits_loop 32 b 0.

Definition s8 (x : Z) : Z := (x + 128) mod 256 - 128.

(** The loop of [EncodeBase32]; [s] is the input from [next] on, [buffer] a 32-bit [int].
    The result is what it writes; [None] when out of fuel. *)
Fixpoint encode_base32_loop (fuel : nat) (a : list Z) (bl mask n : Z) (s : list Z) (buffer bitsLeft count : Z) : option (list Z) :=
  if (count <? n) && ((0 <? bitsLeft) || negb (bool_decide (s = []))) then
    match fuel with
    | O => None
    | S fuel =>
        let '(buffer, bitsLeft, s) :=
          if bitsLeft <? bl then
            match s with
            | c :: s => (s32 (Z.lor (s32 (Z.shiftl buffer 8)) (Z.land c 0xFF)), bitsLeft + 8, s)
            | [] => let pad := bl - bitsLeft in (s32 (Z.shiftl buffer pad), bitsLeft + pad, s)
            end
          else (buffer, bitsLeft, s) in
        let bitsLeft := bitsLeft - bl in
        let c := nth (Z.to_nat (Z.land mask (Z.shiftr buffer bitsLeft))) a 0 in
        match encode_base32_loop fuel a bl mask n s buffer bitsLeft (count + 1) with
        | None => None | Some r => Some (c :: r) end
    end
  else Some [].

(** [al = 0] selects the default alphabet; [None] also when the alphabet has a length that
    the assertion refuses. The empty input writes nothing. *)
Definition EncodeBase32 (s : list Z) (alphabet : list Z) : option (list Z) :=
  let a := if bool_decide (alphabet = []) then base32def else alphabet in
  let al := Z.of_nat (length a) in
  if (2 <=? al) && (al <=? 128) then
    let bl := tobits al in
    let mask := Z.shiftl 1 bl - 1 in
    let n := (Z.of_nat (length s) * 8 + bl - 1) / bl in
    match s with
    | [] => Some []
    | c :: s => encode_base32_loop (Z.to_nat n) a bl mask n s (s8 c) 8 0
    end
  else None.

(** [map[a[i] & 0xff] = i] for every [i], over a map of [-1]s; values are signed chars. *)
Fixpoint custom_map (a : list Z) (i : Z) (m : list Z) : list Z :=
  match a with
  | [] => m
  | c :: a => custom_map a (i + 1) (<[Z.to_nat (Z.land c 0xff) := s8 i]> m)
  end.

(** The loop of [DecodeBase32] up to the terminator of the string: the input has no length
    here, as in the source. *)
Fixpoint decode_base32_loop (m : list Z) (bl n : Z) (s : list Z) (buffer bitsLeft count : Z) : list Z :=
  match s with
  | [] => []
  | c :: s =>
      if (count <? n) && negb (c =? 0) then
        let v := tab m (Z.land c 0xff) in
        if v =? -2 then decode_base32_loop m bl n s buffer bitsLeft count
        else if v =? -1 then []
        else
          let buffer := u32 (Z.lor (u32 (Z.shiftl buffer bl)) v) in
          let bitsLeft := bitsLeft + bl in
          if 8 <=? bitsLeft then
            u8 (Z.shiftr buffer (bitsLeft - 8)) :: decode_base32_loop m bl n s buffer (bitsLeft - 8) (count + 1)
          else decode_base32_loop m bl n s buffer bitsLeft count
      else []
  end.
Definition DecodeBase32_size (sl bl : Z) : Z := (sl * bl + 1) / 8 + 1.
(** [s] is the whole C string, [sl] the length passed. *)
Definition DecodeBase32 (s : list Z) (sl : Z) (alphabet : list Z) : option (list Z) :=
  let a := if bool_decide (alphabet = []) then base32def else alphabet in
  let al := Z.of_nat (length a) in
  if (2 <=? al) && (al <=? 128) then
    let bl := tobits al in
    let n := DecodeBase32_size sl bl in
    let m := if bool_decide (alphabet = []) then kBase32 else custom_map a 0 (replicate 256 (-1)) in
    Some (decode_base32_loop m bl n s 0 0 0)
  else None.

Example base64_runs :
  EncodeBase64 (ascii_codes "hello"%string) = ascii_codes "aGVsbG8="%string /\
  DecodeBase64 (ascii_codes "aGVs bG8="%string) = Some (ascii_codes "hello"%string) /\
  EncodeBase32 (ascii_codes "hello"%string) [] = Some (ascii_codes "d1jprv3f"%string) /\
  DecodeBase32 (ascii_codes "D1JP-RV3F"%string) 9 [] = Some (ascii_codes "hello"%string).
Proof. repeat split; vm_compute; reflexivity. Qed.

(** The length passed only bounds the output: characters after it are decoded too. *)
Example DecodeBase32_ignores_length :
  DecodeBase32 (ascii_codes "d1jprv3f"%string) 0 [] = Some (ascii_codes "h"%string) /\
  DecodeBase32 (ascii_codes "d1jprv3f"%string) 3 [] = Some (ascii_codes "hel"%string).
Proof. repeat split; vm_compute; reflexivity. Qed.
