(* ===== verification/Base64Facts.v ===== *)
(** Base64 and base32 decode what they encode, within the buffers they allocate. *)
From S2P Require Import Prelude Tables Base64.

(** * Base64 *)

Lemma chars_digit i : 0 <= i < 64 -> Z.land (chars i) 255 = chars i /\ tab kBase64 (chars i) = i.
Proof.
  intros Hi. pose proof (byte_enum (fun i => implb (i <? 64) ((Z.land (chars i) 255 =? chars i) && (tab kBase64 (chars i) =? i))) eq_refl i) as H.
  specialize (H ltac:(unfold is_byte; lia)). cbv beta in H. rewrite (proj2 (Z.ltb_lt i 64)) in H by lia. cbn [implb] in H. by bool_prop.
Qed.

Lemma next_digit_char i p : 0 <= i < 64 -> next_digit (chars i :: p) = Some (i, p).
Proof. intros Hi. cbn [next_digit]. destruct (chars_digit i Hi) as [-> ->]. rewrite if_false by lia. done. Qed.
Lemma next_digit_pad p : next_digit (EQUALS :: p) = Some (-2, p).
Proof. done. Qed.

Lemma land63 w : Z.land w 63 = w mod 64.
Proof. apply (land_mask w 6). lia. Qed.
Lemma six_bits w k : 0 <= k -> Z.land (Z.shiftr w k) 63 = w / 2 ^ k mod 64.
Proof. intros. rewrite land63, shiftr_div by lia. done. Qed.

Lemma join_bytes x y z : 0 <= y < 256 -> 0 <= z < 256 ->
  Z.lor (Z.lor (Z.shiftl x 16) (Z.shiftl y 8)) z = x * 65536 + y * 256 + z.
Proof.
  intros. rewrite !shiftl_mul by lia. rewrite (lor_high_low (x * 2 ^ 16) (y * 2 ^ 8) 16) by lia.
  rewrite (lor_high_low _ z 8) by lia. lia.
Qed.
Lemma join_digits a b : 0 <= b < 64 -> Z.lor (Z.shiftl a 18) (Z.shiftl b 12) = a * 262144 + b * 4096.
Proof. intros. rewrite !shiftl_mul by lia. rewrite (lor_high_low (a * 2 ^ 18) (b * 2 ^ 12) 18) by lia. lia. Qed.

Lemma byte2 w : Z.shiftr (Z.land w 0xFF0000) 16 = w / 65536 mod 256.
Proof. change 0xFF0000 with ((2 ^ 8 - 1) * 2 ^ 16). rewrite land_field, shiftr_div by lia. rewrite Z.div_mul by lia. done. Qed.
Lemma byte1 w : Z.shiftr (Z.land w 0x00FF00) 8 = w / 256 mod 256.
Proof. change 0x00FF00 with ((2 ^ 8 - 1) * 2 ^ 8). rewrite land_field, shiftr_div by lia. rewrite Z.div_mul by lia. done. Qed.
Lemma byte0 w : Z.land w 0x0000FF = w mod 256.
Proof. apply (land_mask w 8). lia. Qed.

(** One group of four characters. *)
Lemma decode_group fuel w p : 0 <= w < 2 ^ 24 ->
  decode_base64_loop (S fuel) ([chars (w / 2 ^ 18 mod 64); chars (w / 2 ^ 12 mod 64); chars (w / 2 ^ 6 mod 64); chars (w mod 64)] ++ p) =
  match decode_base64_loop fuel p with None => None | Some r => Some ([w / 65536; w / 256 mod 256; w mod 256] ++ r) end.
Proof.
  intros Hw. cbn [decode_base64_loop app]. rewrite next_digit_char by lia. rewrite if_false by lia.
  rewrite next_digit_char by lia. rewrite if_false by lia. unfold next_digit_or_pad.
  rewrite !next_digit_char by lia. rewrite !(if_true (negb _)) by (rewrite negb_true_iff; lia).
  rewrite join_digits by lia. rewrite shiftl_mul by lia.
  rewrite (lor_high_low _ (w / 2 ^ 6 mod 64 * 2 ^ 6) 12) by lia. rewrite (lor_high_low _ (w mod 64) 6) by lia.
  rewrite byte2, byte1, byte0.
  replace (w / 2 ^ 18 mod 64 * 262144 + w / 2 ^ 12 mod 64 * 4096 + w / 2 ^ 6 mod 64 * 2 ^ 6 + w mod 64) with w by lia.
  rewrite (Z.mod_small (w / 65536)) by lia. done.
Qed.

Lemma decode_group_2 fuel w : 0 <= w < 2 ^ 24 -> w mod 256 = 0 ->
  decode_base64_loop (S (S fuel)) [chars (w / 2 ^ 18 mod 64); chars (w / 2 ^ 12 mod 64); chars (w / 2 ^ 6 mod 64); EQUALS] =
  Some [w / 65536; w / 256 mod 256].
Proof.
  intros Hw H0. cbn [decode_base64_loop]. rewrite next_digit_char by lia. rewrite if_false by lia.
  rewrite next_digit_char by lia. rewrite if_false by lia. unfold next_digit_or_pad.
  rewrite !next_digit_char by lia. rewrite next_digit_pad. rewrite !(if_true (negb (_ mod _ =? _))) by (rewrite negb_true_iff; lia).
  cbn [negb Z.eqb Pos.eqb next_digit app]. rewrite join_digits by lia. rewrite shiftl_mul by lia.
  rewrite (lor_high_low _ (w / 2 ^ 6 mod 64 * 2 ^ 6) 12) by lia. rewrite byte2, byte1.
  replace (w / 2 ^ 18 mod 64 * 262144 + w / 2 ^ 12 mod 64 * 4096 + w / 2 ^ 6 mod 64 * 2 ^ 6) with w by lia.
  rewrite (Z.mod_small (w / 65536)) by lia. done.
Qed.

Lemma decode_group_1 fuel w : 0 <= w < 2 ^ 24 -> w mod 65536 = 0 ->
  decode_base64_loop (S (S fuel)) [chars (w / 2 ^ 18 mod 64); chars (w / 2 ^ 12 mod 64); EQUALS; EQUALS] = Some [w / 65536].
Proof.
  intros Hw H0. cbn [decode_base64_loop]. rewrite next_digit_char by lia. rewrite if_false by lia.
  rewrite next_digit_char by lia. rewrite if_false by lia. unfold next_digit_or_pad.
  rewrite !next_digit_pad. cbn [negb Z.eqb Pos.eqb next_digit app]. rewrite join_digits by lia. rewrite byte2.
  replace (w / 2 ^ 18 mod 64 * 262144 + w / 2 ^ 12 mod 64 * 4096) with w by lia.
  rewrite (Z.mod_small (w / 65536)) by lia. done.
Qed.

(** Induction three bytes at a time. *)
Lemma list_ind3 (P : list Z -> Prop) :
  P [] -> (forall x, P [x]) -> (forall x y, P [x; y]) -> (forall x y z l, P l -> P (x :: y :: z :: l)) -> forall l, P l.
Proof. intros H0 H1 H2 H3. fix IH 1. intros [|x [|y [|z l]]]; [exact H0|exact (H1 x)|exact (H2 x y)|exact (H3 x y z l (IH l))]. Qed.

Lemma decode_encode_fuel p : Forall is_byte p -> forall fuel, (length (EncodeBase64 p) < fuel)%nat ->
  decode_base64_loop fuel (EncodeBase64 p) = Some p.
Proof.
  induction p as [|x|x y|x y z p IH] using list_ind3; intros Hb fuel Hf;
    repeat match goal with H : Forall _ (_ :: _) |- _ => apply List.Forall_cons_iff in H as [? H] end; unfold is_byte in *.
  - destruct fuel; [cbn in Hf; lia|done].
  - destruct fuel as [|[|fuel]]; [cbn in Hf; lia..|]. cbn [EncodeBase64]. rewrite !six_bits, shiftl_mul by lia.
    rewrite decode_group_1 by lia. do 2 f_equal. lia.
  - destruct fuel as [|[|fuel]]; [cbn in Hf; lia..|]. cbn [EncodeBase64].
    replace (Z.lor (Z.shiftl x 16) (Z.shiftl y 8)) with (x * 65536 + y * 256)
      by (rewrite <- (Z.add_0_r (x * 65536 + y * 256)), <- join_bytes, Z.lor_0_r by lia; done).
    rewrite !six_bits by lia. rewrite decode_group_2 by lia. f_equal. repeat f_equal; lia.
  - destruct fuel as [|fuel]; [cbn in Hf; lia|]. cbn [EncodeBase64]. rewrite join_bytes, !six_bits, land63 by lia.
    rewrite decode_group by lia. rewrite IH; [|done|cbn [EncodeBase64 app length] in Hf; lia].
    cbn [app]. repeat f_equal; lia.
Qed.

(** [DecodeBase64] decodes every byte string [EncodeBase64] encodes to itself. *)
Theorem DecodeBase64_EncodeBase64 p : Forall is_byte p -> DecodeBase64 (EncodeBase64 p) = Some p.
Proof. intros Hp. unfold DecodeBase64. apply decode_encode_fuel; [done|lia]. Qed.

Lemma length_EncodeBase64 p : Z.of_nat (length (EncodeBase64 p)) = EncodeBase64_size (Z.of_nat (length p)).
Proof.
  unfold EncodeBase64_size. induction p as [|x|x y|x y z p IH] using list_ind3; try done. cbn [EncodeBase64 app length].
  destruct (Z.of_nat (length p) mod 3 =? 0) eqn:E1; destruct (Z.of_nat (S (S (S (length p)))) mod 3 =? 0) eqn:E2; bool_prop; lia.
Qed.

Lemma next_digit_shorter p a p' : next_digit p = Some (a, p') -> (length p' < length p)%nat.
Proof.
  revert a p'. induction p as [|b p IH]; intros a p' E; [done|]. cbn [next_digit] in E. case_match; [|injection E as _ <-; cbn; lia].
  specialize (IH _ _ E). cbn. lia.
Qed.
Lemma next_digit_or_pad_room p : let '(c, p') := next_digit_or_pad p in
  (length p' + (if (c =? -2)%Z then 0 else 1) <= length p)%nat.
Proof.
  unfold next_digit_or_pad. destruct (next_digit p) as [[c p']|] eqn:E; [|cbn; lia]. apply next_digit_shorter in E. case_match; lia.
Qed.

Lemma decode_base64_loop_room fuel : forall p, (length p < fuel)%nat ->
  exists r, decode_base64_loop fuel p = Some r /\ (4 * length r <= 3 * length p)%nat.
Proof.
  induction fuel as [|fuel IH]; intros p Hf; [lia|]. cbn [decode_base64_loop].
  destruct (next_digit p) as [[a p1]|] eqn:E1; [|exists []; split; [done|cbn; lia]]. apply next_digit_shorter in E1.
  case_if; [destruct (IH p1) as (r & -> & Hr); [lia|]; exists r; split; [done|lia]|].
  destruct (next_digit p1) as [[b p2]|] eqn:E2; [|exists []; split; [done|cbn; lia]]. apply next_digit_shorter in E2.
  case_if; [destruct (IH p2) as (r & -> & Hr); [lia|]; exists r; split; [done|lia]|].
  pose proof (next_digit_or_pad_room p2) as H3. destruct (next_digit_or_pad p2) as [c p3].
  pose proof (next_digit_or_pad_room p3) as H4. destruct (next_digit_or_pad p3) as [d p4].
  destruct (IH p4) as (r & -> & Hr); [destruct (c =? -2), (d =? -2); lia|]. eexists. split; [done|].
  rewrite !length_app. destruct (c =? -2), (d =? -2); cbn [negb length] in *; lia.
Qed.

(** [DecodeBase64] ends on every input, whatever bytes it holds, and what it writes
    with the terminator fits the buffer it allocates. *)
Theorem DecodeBase64_fits data :
  exists r, DecodeBase64 data = Some r /\ Z.of_nat (length r) + 1 <= DecodeBase64_room (Z.of_nat (length data)).
Proof.
  destruct (decode_base64_loop_room (S (length data)) data ltac:(lia)) as (r & E & Hr).
  exists r. split; [done|]. unfold DecodeBase64_room. lia.
Qed.

(** * Base32

    Both directions are read as streams of bits, most significant first. *)
Fixpoint bits (k : nat) (x : Z) : list bool :=
  match k with O => [] | S k => Z.testbit x (Z.of_nat k) :: bits k x end.

Lemma length_bits k x : length (bits k x) = k.
Proof. induction k; cbn; auto. Qed.
Lemma bits_ext k x y : (forall i, 0 <= i < Z.of_nat k -> Z.testbit x i = Z.testbit y i) -> bits k x = bits k y.
Proof. induction k as [|k IH]; intros H; [done|]. cbn. rewrite (H (Z.of_nat k)) by lia. f_equal. apply IH. intros i Hi. apply H. lia. Qed.
Lemma bits_app a b x : bits (a + b) x = bits a (Z.shiftr x (Z.of_nat b)) ++ bits b x.
Proof.
  induction a as [|a IH]; [done|]. cbn [Nat.add bits app]. rewrite IH. f_equal. rewrite Z.shiftr_spec by lia. f_equal. lia.
Qed.
Lemma bits_s32 k x : (k <= 32)%nat -> bits k (s32 x) = bits k x.
Proof.
  intros Hk. apply bits_ext. intros i Hi. rewrite <- (Z.mod_pow2_bits_low (s32 x) 32), <- (Z.mod_pow2_bits_low x 32) by lia.
  f_equal. unfold s32. lia.
Qed.
Lemma bits_u32 k x : (k <= 32)%nat -> bits k (u32 x) = bits k x.
Proof. intros Hk. apply bits_ext. intros i Hi. unfold u32. apply Z.mod_pow2_bits_low. lia. Qed.
Lemma bits_land_mask k x : bits k (Z.land (Z.shiftl 1 (Z.of_nat k) - 1) x) = bits k x.
Proof.
  apply bits_ext. intros i Hi. rewrite shiftl_mul, Z.mul_1_l, Z.land_comm, land_mask by lia. apply Z.mod_pow2_bits_low. lia.
Qed.
(** A buffer shifted left to take [b] more bits. *)
Lemma bits_push a b x v : 0 <= v < 2 ^ Z.of_nat b -> bits (a + b) (Z.lor (Z.shiftl x (Z.of_nat b)) v) = bits a x ++ bits b v.
Proof.
  intros Hv. rewrite bits_app. f_equal.
  - apply bits_ext. intros i Hi. rewrite Z.shiftr_lor, Z.shiftr_shiftl_l, Z.sub_diag, Z.shiftl_0_r by lia.
    rewrite (shiftr_div v), Z.div_small, Z.lor_0_r by lia. done.
  - apply bits_ext. intros i Hi. rewrite Z.lor_spec, Z.shiftl_spec_low by lia. done.
Qed.
Lemma bits_zero k : bits k 0 = replicate k false.
Proof. induction k as [|k IH]; [done|]. cbn. by rewrite Z.bits_0, IH. Qed.
Lemma bits_inj k x y : 0 <= x < 2 ^ Z.of_nat k -> 0 <= y < 2 ^ Z.of_nat k -> bits k x = bits k y -> x = y.
Proof.
  intros Hx Hy E. apply Z.bits_inj'. intros i Hi. destruct (decide (i < Z.of_nat k)) as [Hlt|Hge].
  - clear Hx Hy. revert i Hi Hlt. induction k as [|k IH]; intros i Hi Hlt; [lia|]. cbn in E. injection E as E1 E2.
    destruct (decide (i = Z.of_nat k)) as [->|]; [done|]. apply IH; [done|lia|lia].
  - rewrite <- (Z.mod_small x (2 ^ Z.of_nat k)), <- (Z.mod_small y (2 ^ Z.of_nat k)) by lia. by rewrite !Z.mod_pow2_bits_high by lia.
Qed.

Definition bytes_bits (s : list Z) : list bool := mjoin (map (bits 8) s).
Lemma bytes_bits_cons c s : bytes_bits (c :: s) = bits 8 c ++ bytes_bits s.
Proof. done. Qed.
Lemma length_bytes_bits s : length (bytes_bits s) = (8 * length s)%nat.
Proof. induction s as [|c s IH]; [done|]. rewrite bytes_bits_cons, length_app, length_bits, IH. cbn [length]. lia. Qed.

Section Base32.
Context (a m : list Z) (k : nat) (Hk : (1 <= k <= 7)%nat).
Context (digit_ok : forall d, 0 <= d < 2 ^ Z.of_nat k ->
  let c := nth (Z.to_nat d) a 0 in c <> 0 /\ tab m (Z.land c 0xff) = d).
Let bl := Z.of_nat k.
Let mask := Z.shiftl 1 bl - 1.
Definition digit_chars (ds : list Z) : list Z := map (fun d => nth (Z.to_nat d) a 0) ds.
Definition digits_bits (ds : list Z) : list bool := mjoin (map (bits k) ds).
Lemma digits_bits_cons d ds : digits_bits (d :: ds) = bits k d ++ digits_bits ds.
Proof. done. Qed.

(** What the encoder writes carries the pending bits and those of the input, padded. *)
Lemma encode_base32_stream fuel : forall s buffer L count n pad,
  Forall is_byte s -> (L <= 8)%nat -> (length (bits L buffer ++ bytes_bits s) + pad = k * Z.to_nat (n - count))%nat -> (pad < k)%nat ->
  count <= n -> fuel = Z.to_nat (n - count) ->
  exists ds, encode_base32_loop fuel a bl mask n s buffer (Z.of_nat L) count = Some (digit_chars ds) /\
    Forall (fun d => 0 <= d < 2 ^ bl) ds /\ Z.of_nat (length ds) = n - count /\
    digits_bits ds = bits L buffer ++ bytes_bits s ++ replicate pad false.
Proof.
  induction fuel as [|fuel IH]; intros s buffer L count n pad Hs HL Hlen Hpad Hcount Hfuel.
  - assert (n = count) as -> by lia. rewrite Z.sub_diag, length_app, length_bits, length_bytes_bits in Hlen. assert (L = 0 /\ pad = 0 /\ length s = 0)%nat as (-> & -> & H) by lia.
    exists []. destruct s as [|c s]; [|done]. cbn. rewrite Z.ltb_irrefl. repeat split; [constructor|lia].
  - cbn [encode_base32_loop]. rewrite length_app, length_bits, length_bytes_bits in Hlen. rewrite if_true.
    2: { rewrite andb_true_iff, orb_true_iff. split; [apply Z.ltb_lt; lia|]. destruct s; [left; apply Z.ltb_lt; cbn in Hlen; nia|by right]. }
    (* whatever the refill does, it leaves at least [k] pending bits *)
    assert (exists buffer' L' s' pad',
      (if Z.of_nat L <? bl then match s with
         | c :: s0 => (s32 (Z.lor (s32 (Z.shiftl buffer 8)) (Z.land c 0xFF)), Z.of_nat L + 8, s0)
         | [] => (s32 (Z.shiftl buffer (bl - Z.of_nat L)), Z.of_nat L + (bl - Z.of_nat L), s) end
       else (buffer, Z.of_nat L, s)) = (buffer', Z.of_nat L', s') /\ (k <= L' <= k + 8)%nat /\ Forall is_byte s' /\ (pad' < k)%nat /\
      bits L buffer ++ bytes_bits s ++ replicate pad false = bits L' buffer' ++ bytes_bits s' ++ replicate pad' false) as (buffer' & L' & s' & pad' & -> & HL' & Hs' & Hpad' & Hbits).
    { destruct (Z.of_nat L <? bl) eqn:E; bool_prop.
      - destruct s as [|c s].
        + exists (s32 (Z.shiftl buffer (bl - Z.of_nat L))), k, [], 0%nat. assert (pad = k - L)%nat.
          { rewrite <- Hfuel in Hlen. cbn [length] in Hlen. destruct fuel as [|f']; [lia|nia]. }
          split_and!; try lia; try done. { do 2 f_equal. lia. } rewrite bits_s32 by lia. cbn. rewrite app_nil_r.
          replace (bits k (Z.shiftl buffer (bl - Z.of_nat L))) with (bits (L + (k - L)) (Z.lor (Z.shiftl buffer (Z.of_nat (k - L))) 0))
            by (rewrite Z.lor_0_r; f_equal; [lia|f_equal; lia]).
          rewrite bits_push by lia. by rewrite bits_zero, H.
        + apply List.Forall_cons_iff in Hs as [Hc Hs]. exists (s32 (Z.lor (s32 (Z.shiftl buffer 8)) (Z.land c 0xFF))), (L + 8)%nat, s, pad.
          split_and!; try lia; try done. { do 2 f_equal. lia. } rewrite bits_s32 by lia. rewrite bytes_bits_cons, <- !app_assoc.
          assert (Z.land c 255 = c) as -> by (change 255 with (2 ^ 8 - 1); rewrite land_mask by lia; apply Z.mod_small, Hc).
          rewrite app_assoc. f_equal. rewrite <- (bits_push L 8 buffer c) by exact Hc. apply bits_ext. intros i Hi. rewrite !Z.lor_spec. f_equal.
          change (Z.of_nat 8) with 8. rewrite <- (Z.mod_pow2_bits_low (s32 _) 32), <- (Z.mod_pow2_bits_low (Z.shiftl buffer 8) 32) by lia. f_equal. unfold s32. lia.
      - exists buffer, L, s, pad. split_and!; try lia; done. }
    replace (Z.of_nat L' - bl) with (Z.of_nat (L' - k)) by lia.
    destruct (IH s' buffer' (L' - k)%nat (count + 1) n pad') as (ds & -> & Hds & Hn & Hb); [done|lia| |done|lia|lia|].
    { apply (f_equal length) in Hbits. rewrite !length_app, !length_bits, !length_replicate, !length_bytes_bits in *. nia. }
    exists (Z.land mask (Z.shiftr buffer' (Z.of_nat (L' - k))) :: ds). split; [done|].
    assert (0 <= Z.land mask (Z.shiftr buffer' (Z.of_nat (L' - k))) < 2 ^ bl).
    { unfold mask. rewrite shiftl_mul, Z.mul_1_l, Z.land_comm, land_mask by lia. apply Z.mod_pos_bound. lia. }
    split; [by constructor|]. split; [cbn [length]; lia|]. rewrite digits_bits_cons, Hb, Hbits.
    unfold mask, bl. rewrite bits_land_mask. rewrite !app_assoc. do 2 f_equal. rewrite <- bits_app. f_equal. lia.
Qed.

Lemma bits_u8 x : bits 8 (u8 x) = bits 8 x.
Proof. apply bits_ext. intros i Hi. unfold u8. apply Z.mod_pow2_bits_low. lia. Qed.

(** The decoder reads the bytes back from the bits, whatever is left below eight. *)
Lemma decode_base32_stream ds : forall s buffer L count n rest,
  Forall (fun d => 0 <= d < 2 ^ bl) ds -> Forall is_byte s -> (L < 8)%nat -> (length rest < 8)%nat ->
  count + Z.of_nat (length s) < n -> bits L buffer ++ digits_bits ds = bytes_bits s ++ rest ->
  decode_base32_loop m bl n (digit_chars ds) buffer (Z.of_nat L) count = s.
Proof.
  induction ds as [|d ds IH]; intros s buffer L count n rest Hds Hs HL Hrest Hn Hb.
  - apply (f_equal length) in Hb. unfold digits_bits in Hb. cbn in Hb. rewrite !length_app, length_bits, length_bytes_bits in Hb. cbn [length] in Hb.
    destruct s; [done|cbn [length] in Hb; lia].
  - apply List.Forall_cons_iff in Hds as [Hd Hds]. destruct (digit_ok d Hd) as [Hc Hm]. cbn [digit_chars map decode_base32_loop]. fold (digit_chars ds).
    rewrite if_true by (rewrite andb_true_iff, negb_true_iff, Z.ltb_lt, Z.eqb_neq; lia). cbv zeta. rewrite Hm.
    rewrite (if_false (d =? -2)), (if_false (d =? -1)) by lia.
    set (buffer' := u32 (Z.lor (u32 (Z.shiftl buffer bl)) d)).
    assert (bits (L + k) buffer' = bits L buffer ++ bits k d) as Hbuf.
    { unfold buffer'. rewrite bits_u32 by lia. rewrite <- (bits_push L k buffer d) by exact Hd. apply bits_ext. intros i Hi. rewrite !Z.lor_spec. f_equal.
      unfold u32. apply Z.mod_pow2_bits_low. lia. }
    rewrite digits_bits_cons, app_assoc, <- Hbuf in Hb. replace (Z.of_nat L + bl) with (Z.of_nat (L + k)) by lia.
    destruct (8 <=? Z.of_nat (L + k)) eqn:E; bool_prop.
    + replace (L + k)%nat with (8 + (L + k - 8))%nat in Hb by lia. rewrite bits_app, <- bits_u8, <- app_assoc in Hb.
      replace (Z.of_nat (L + k) - 8) with (Z.of_nat (L + k - 8)) by lia.
      destruct s as [|c s]; [apply (f_equal length) in Hb; rewrite !length_app, !length_bits in Hb; cbn [bytes_bits map mjoin list_join length] in Hb; lia|].
      rewrite bytes_bits_cons, <- app_assoc in Hb. apply List.Forall_cons_iff in Hs as [Hcb Hs].
      apply app_inj_1 in Hb as [Hb1 Hb2]; [|by rewrite !length_bits].
      apply (bits_inj 8) in Hb1; [|apply u8_range|exact Hcb]. rewrite Hb1. f_equal.
      apply (IH s buffer' (L + k - 8)%nat (count + 1) n rest); try done; [lia|cbn [length] in Hn; lia].
    + apply (IH s buffer' (L + k)%nat count n rest); try done. lia.
Qed.

Lemma base32_roundtrip c s n : Forall is_byte (c :: s) -> n = (Z.of_nat (length (c :: s)) * 8 + bl - 1) / bl ->
  exists e, encode_base32_loop (Z.to_nat n) a bl mask n s (s8 c) 8 0 = Some e /\ Z.of_nat (length e) = n /\
    decode_base32_loop m bl (DecodeBase32_size n bl) e 0 0 0 = c :: s.
Proof.
  intros Hb Hn. apply List.Forall_cons_iff in Hb as [Hc Hs].
  assert (8 * Z.of_nat (length (c :: s)) <= bl * n < 8 * Z.of_nat (length (c :: s)) + bl) as Hlen.
  { subst n. set (x := Z.of_nat (length (c :: s))) in *. pose proof (Z.div_mod (x * 8 + bl - 1) bl ltac:(lia)).
    pose proof (Z.mod_pos_bound (x * 8 + bl - 1) bl ltac:(lia)). lia. }
  assert (bits 8 (s8 c) = bits 8 c) as Hs8.
  { apply bits_ext. intros i Hi. rewrite <- (Z.mod_pow2_bits_low (s8 c) 8), <- (Z.mod_pow2_bits_low c 8) by lia. f_equal. unfold s8. lia. }
  destruct (encode_base32_stream (Z.to_nat n) s (s8 c) 8 0 n (Z.to_nat (bl * n - 8 * Z.of_nat (length (c :: s))))) as (ds & E & Hds & Hl & Hbits);
    [done|lia| |lia|nia|f_equal; lia|].
  { rewrite length_app, length_bits, length_bytes_bits. cbn [length] in *. nia. }
  exists (digit_chars ds). split; [exact E|]. split; [unfold digit_chars; rewrite length_map; lia|].
  apply (decode_base32_stream ds (c :: s) 0 0 0 _ (replicate (Z.to_nat (bl * n - 8 * Z.of_nat (length (c :: s)))) false)); try done.
  - by constructor.
  - lia.
  - rewrite length_replicate. lia.
  - unfold DecodeBase32_size. cbn [length] in *. lia.
  - rewrite bytes_bits_cons, <- app_assoc, <- Hs8. exact Hbits.
Qed.
End Base32.

Lemma base32_digits d : 0 <= d < 2 ^ Z.of_nat 5 ->
  let c := nth (Z.to_nat d) base32def 0 in c <> 0 /\ tab kBase32 (Z.land c 0xff) = d.
Proof.
  intros Hd c. pose proof (byte_enum (fun d => implb (d <? 32) (negb (nth (Z.to_nat d) base32def 0 =? 0) &&
    (tab kBase32 (Z.land (nth (Z.to_nat d) base32def 0) 0xff) =? d))) eq_refl d) as H. specialize (H ltac:(unfold is_byte; lia)).
  cbv beta in H. rewrite (proj2 (Z.ltb_lt d 32)) in H by lia. cbn [implb] in H. bool_prop. done.
Qed.

(** With the default alphabet, every byte string that [EncodeBase32] encodes is decoded
    to itself by [DecodeBase32] given the length of the text; the stray bits of the last
    digit are dropped. *)
Theorem DecodeBase32_EncodeBase32 s : Forall is_byte s ->
  exists e, EncodeBase32 s [] = Some e /\ DecodeBase32 e (Z.of_nat (length e)) [] = Some s.
Proof.
  intros Hs. destruct s as [|c s]; [by exists []|].
  destruct (base32_roundtrip base32def kBase32 5 ltac:(lia) base32_digits c s _ Hs eq_refl) as (e & He & Hl & Hd).
  exists e. split; [exact He|]. unfold DecodeBase32. cbn [bool_decide]. rewrite Hl. f_equal. exact Hd.
Qed.

(** Every byte string survives the trip through base64, and the trip through base32 with
    the default alphabet. *)
Theorem base_roundtrip s :
  Forall is_byte s ->
  DecodeBase64 (EncodeBase64 s) = Some s /\
  exists e, EncodeBase32 s [] = Some e /\ DecodeBase32 e (Z.of_nat (length e)) [] = Some s.
Proof. intros Hs. split; [by apply DecodeBase64_EncodeBase64|by apply DecodeBase32_EncodeBase32]. Qed.

Lemma base_roundtrip_witness :
  DecodeBase64 (EncodeBase64 [255; 0; 7; 131]) = Some [255; 0; 7; 131] /\
  exists e, EncodeBase32 [255; 0; 7; 131] [] = Some e /\
    DecodeBase32 e (Z.of_nat (length e)) [] = Some [255; 0; 7; 131].
Proof. apply base_roundtrip. apply (bool_decide_unpack _). vm_compute. reflexivity. Defined.
