(* ===== verification/HttpText.v ===== *)
(** Text filters of [net/http]: [escapehtml.c], [escapejsstringliteral.c],
    [visualizecontrolcodes.c], [underlong.c], [hascontrolcodes.c], [encodelatin1.c],
    [decodelatin1.c], [encodehttpheadervalue.c] and [indentlines.c].

    The length -1 is resolved by the caller and allocations succeed. [wint_t] is unsigned.
    A loop that runs over the input with a cursor takes the rest of the input, and fuel for
    as many turns as there are bytes. *)
From S2P Require Import Prelude Utf.

Definition DEL := 0x7F.

(** * escapehtml.c *)

Definition escape_html_char (c : Z) : list Z :=
  if c =? 0x26 then ascii_codes "&amp;"%string
  else if c =? 0x3C then ascii_codes "&lt;"%string
  else if c =? 0x3E then ascii_codes "&gt;"%string
  else if c =? DQUOTE then ascii_codes "&quot;"%string
  else if c =? 0x27 then ascii_codes "&#39;"%string
  else [c].
Definition EscapeHtml (p : list Z) : list Z := mjoin (map escape_html_char p).

(** * Reading a Thompson-Pike sequence *)

(** [for (j = 0;;)]: takes [m] continuation bytes or none. *)
Fixpoint merge_conts (m : nat) (a : Z) (p : list Z) : option (Z * list Z) :=
  match m with
  | O => Some (a, p)
  | S m =>
      match p with
      | [] => None
      | c :: p =>
          let b := Z.land c 0xff in
          if ThomPikeCont b then merge_conts m (u32 (ThomPikeMerge a b)) p else None
      end
  end.
(** The character at the head of the input, its own byte when it starts no sequence. *)
Definition next_wint (x0 : Z) (p : list Z) : Z * list Z :=
  let x := Z.land x0 0xff in
  if 0xC0 <=? x then
    let a := ThomPikeByte x in
    let m := ThomPikeLen x - 1 in
    if m <=? Z.of_nat (length p) then
      match merge_conts (Z.to_nat m) a p with
      | Some r => r
      | None => (x, p)
      end
    else (x, p)
  else (x, p).

(** * escapejsstringliteral.c *)

Definition kEscapeLiteral : list Z :=
  [9; 9; 9; 9; 9; 9; 9; 9; 9; 1; 2; 9; 4; 3; 9; 9;
   9; 9; 9; 9; 9; 9; 9; 9; 9; 9; 9; 9; 9; 9; 9; 9;
   0; 0; 7; 0; 0; 0; 9; 9; 0; 0; 0; 0; 0; 0; 0; 6;
   0; 0; 0; 0; 0; 0; 0; 0; 0; 0; 0; 0; 9; 9; 9; 0;
   0; 0; 0; 0; 0; 0; 0; 0; 0; 0; 0; 0; 0; 0; 0; 0;
   0; 0; 0; 0; 0; 0; 0; 0; 0; 0; 0; 0; 5; 0; 0; 0;
   0; 0; 0; 0; 0; 0; 0; 0; 0; 0; 0; 0; 0; 0; 0; 0;
   0; 0; 0; 0; 0; 0; 0; 0; 0; 0; 0; 0; 0; 0; 0; 9].

Definition hexdig (d : Z) : Z := nth (Z.to_nat d) (ascii_codes "0123456789abcdef"%string) 0.
Definition u_escape (w : Z) : list Z :=
  [BSLASH; 0x75; hexdig (Z.shiftr (Z.land w 0xF000) 12); hexdig (Z.shiftr (Z.land w 0x0F00) 8);
   hexdig (Z.shiftr (Z.land w 0x00F0) 4); hexdig (Z.land w 0x000F)].
(** [do ... while ((w >>= 16))] over a 64-bit word. *)
Fixpoint u_escapes (fuel : nat) (w : Z) : list Z :=
  match fuel with
  | O => []
  | S fuel => u_escape w ++ (let w := Z.shiftr w 16 in if w =? 0 then [] else u_escapes fuel w)
  end.
Definition escape_literal (x : Z) : list Z :=
  match (if (0 <=? x) && (x <=? 127) then nth (Z.to_nat x) kEscapeLiteral 0 else 9) with
  | 0 => [x]
  | 1 => [BSLASH; 0x74]
  | 2 => [BSLASH; 0x6E]
  | 3 => [BSLASH; 0x72]
  | 4 => [BSLASH; 0x66]
  | 5 => [BSLASH; BSLASH]
  | 6 => [BSLASH; SLASH]
  | 7 => [BSLASH; DQUOTE]
  | _ => u_escapes 4 (EncodeUtf16 x)
  end.
Fixpoint escape_js_loop (fuel : nat) (p : list Z) : option (list Z) :=
  match p with
  | [] => Some []
  | c :: p =>
      match fuel with
      | O => None
      | S fuel =>
          let '(x, p) := next_wint c p in
          match escape_js_loop fuel p with None => None | Some r => Some (escape_literal x ++ r) end
      end
  end.
Definition EscapeJsStringLiteral (p : list Z) : option (list Z) := escape_js_loop (length p) p.
(** The room asked for. *)
Definition EscapeJsStringLiteral_room (n : Z) : Z := n * 8 + 6 + 1.

(** * underlong.c *)

Fixpoint underlong_loop (fuel : nat) (p : list Z) : option (list Z) :=
  match p with
  | [] => Some []
  | c :: p =>
      match fuel with
      | O => None
      | S fuel =>
          let '(x, p) := next_wint c p in
          match underlong_loop fuel p with None => None | Some r => Some (tpenc_bytes x ++ r) end
      end
  end.
Definition Underlong (p : list Z) : option (list Z) := underlong_loop (length p) p.

(** * visualizecontrolcodes.c *)

(** The remapped trojan source characters. *)
Definition remap_trojan (x : Z) : Z :=
  if x =? 0x2028 then 0x21B5 else if x =? 0x2029 then 0xB6 else if x =? 0x202A then 0x27EB
  else if x =? 0x202B then 0x27EA else if x =? 0x202D then 0x276F else if x =? 0x202E then 0x276E
  else if x =? 0x2066 then 0x27E9 else if x =? 0x2067 then 0x27E8 else if x =? 0x2068 then 0x29FD
  else if x =? 0x202C then 0x21EE else if x =? 0x2069 then 0x21EF else x.
Definition visualize_char (x : Z) : list Z :=
  let x := remap_trojan x in
  if (0x80 <=? x) && (x <? 0xA0) then
    [BSLASH; 0x75; 0x30; 0x30; hexdig (Z.shiftr (Z.land x 0xF0) 4); hexdig (Z.land x 0x0F)]
  else
    let x := if (0 <=? x) && (x <? 0x20) then
               if negb (x =? HT) && negb (x =? CR) && negb (x =? LF) then x + 0x2400 else x
             else if x =? DEL then 0x2421 else x in
    tpenc_bytes x.
Fixpoint visualize_loop (fuel : nat) (p : list Z) : option (list Z) :=
  match p with
  | [] => Some []
  | c :: p =>
      match fuel with
      | O => None
      | S fuel =>
          let '(x, p) := next_wint c p in
          match visualize_loop fuel p with None => None | Some r => Some (visualize_char x ++ r) end
      end
  end.
Definition VisualizeControlCodes (p : list Z) : option (list Z) := visualize_loop (length p) p.

(** * hascontrolcodes.c and encodelatin1.c *)

Definition kControlWs := 1.
Definition kControlC0 := 2.
Definition kControlC1 := 4.
Definition has_flag (f b : Z) : bool := negb (Z.land f b =? 0).
(** The table [t] both functions build; white space is set last. *)
Definition forbidden (f c : Z) : bool :=
  if (c =? HT) || (c =? CR) || (c =? LF) || (c =? VT) then has_flag f kControlWs
  else (has_flag f kControlC0 && (((0 <=? c) && (c <? 0x20)) || (c =? DEL))) ||
       (has_flag f kControlC1 && ((0x80 <=? c) && (c <? 0xA0))).

(** The index of the first forbidden character, -1 when there is none. *)
Fixpoint has_control_loop (fuel : nat) (n : Z) (p : list Z) (f : Z) : option Z :=
  match p with
  | [] => Some (-1)
  | c :: p' =>
      match fuel with
      | O => None
      | S fuel =>
          let '(x, p'') := next_wint c p' in
          if (x <? 256) && forbidden f x then Some (n - Z.of_nat (length p))
          else has_control_loop fuel n p'' f
      end
  end.
Definition HasControlCodes (p : list Z) (f : Z) : option Z := has_control_loop (length p) (Z.of_nat (length p)) p f.

(** [None] is [EILSEQ]. *)
Fixpoint EncodeLatin1 (p : list Z) (f : Z) : option (list Z) :=
  match p with
  | [] => Some []
  | b :: p =>
      let c := Z.land b 0xff in
      if 0xC0 <=? c then
        match p with
        | d :: p =>
            if (c <=? 0xC3) && (Z.land d 0xC0 =? 0x80) then
              let c := Z.lor (Z.shiftl (Z.land c 0x1F) 6) (Z.land d 0x3F) in
              if forbidden f c then None
              else match EncodeLatin1 p f with None => None | Some r => Some (c :: r) end
            else None
        | [] => None
        end
      else if forbidden f c then None
      else match EncodeLatin1 p f with None => None | Some r => Some (c :: r) end
  end.

(** * decodelatin1.c *)

Definition decode_latin1_char (b : Z) : list Z :=
  let c := Z.land b 0xff in
  if c <? 0x80 then [c] else [Z.lor 0xC0 (Z.shiftr c 6); Z.lor 0x80 (Z.land c 0x3F)].
Definition DecodeLatin1 (p : list Z) : list Z := mjoin (map decode_latin1_char p).

(** * encodehttpheadervalue.c *)

Definition blank (x : Z) : bool := (x =? SP) || (x =? HT).
Definition header_char (x : Z) : bool := ((0x20 <=? x) && (x <=? 0x7E)) || ((0xA0 <=? x) && (x <=? 0xFF)) || (x =? HT).
(** The loop; [t] says that leading blanks are past. [None] is [EILSEQ]. *)
Fixpoint header_value_loop (fuel : nat) (p : list Z) (t : bool) : option (list Z) :=
  match p with
  | [] => Some []
  | c :: p =>
      match fuel with
      | O => None
      | S fuel =>
          let x := Z.land c 0xff in
          let '(x, p) :=
            if 0xC0 <=? x then
              match p with
              | d :: p' => if ThomPikeCont d then
                             if ThomPikeLen x =? 2 then (u32 (ThomPikeMerge (ThomPikeByte x) d), p') else (0, p)
                           else (x, p)
              | [] => (x, p)
              end
            else (x, p) in
          if negb t && blank x then header_value_loop fuel p t
          else if header_char x then
            match header_value_loop fuel p true with None => None | Some r => Some (x :: r) end
          else None
      end
  end.
(** [while (q > r && ...) --q]. *)
Fixpoint drop_blanks (rev_r : list Z) : list Z :=
  match rev_r with
  | x :: r => if blank x then drop_blanks r else rev_r
  | [] => []
  end.
Definition EncodeHttpHeaderValue (data : list Z) : option (list Z) :=
  match header_value_loop (length data) data false with
  | None => None
  | Some r => Some (rev (drop_blanks (rev r)))
  end.

(** * indentlines.c *)

(** The line up to and with its newline and what follows, [None] without a newline. *)
Fixpoint memchr_lf (p : list Z) : option (list Z * list Z) :=
  match p with
  | [] => None
  | c :: p => if c =? LF then Some ([c], p) else
      match memchr_lf p with None => None | Some (l, r) => Some (c :: l, r) end
  end.
Fixpoint indent_loop (fuel : nat) (p : list Z) (j : nat) : option (list Z) :=
  match fuel with
  | O => None
  | S fuel =>
      match memchr_lf p with
      | Some (l, p') =>
          let a := if negb (nth 0 p 0 =? CR) && negb (nth 0 p 0 =? LF) then j else 0%nat in
          match indent_loop fuel p' j with None => None | Some r => Some (replicate a SP ++ l ++ r) end
      | None => Some (replicate (if bool_decide (p = []) then 0%nat else j) SP ++ p)
      end
  end.
Definition IndentLines (p : list Z) (j : nat) : option (list Z) := indent_loop (S (length p)) p j.

Example text_runs :
  EscapeHtml (ascii_codes "a<'b'>"%string) = ascii_codes "a&lt;&#39;b&#39;&gt;"%string /\
  EscapeJsStringLiteral ([0xF0; 0x9F; 0x92; 0xA9] ++ ascii_codes "</x>"%string) = Some (ascii_codes "\ud83d\udca9\u003c\/x\u003e"%string) /\
  Underlong [0xC0; 0x80; 0x41; 0xFF] = Some [0; 0x41; 0xC3; 0xBF] /\
  VisualizeControlCodes [0x1B; 0x41; 0x0A; 0x9B] = Some ([0xE2; 0x90; 0x9B; 0x41; 0x0A] ++ ascii_codes "\u009b"%string) /\
  HasControlCodes [0x41; 0xC2; 0x9B] kControlC1 = Some 1 /\
  EncodeHttpHeaderValue ([SP; 0x41; 0xC3; 0xA9; HT; 0x42; SP]) = Some [0x41; 0xE9; HT; 0x42] /\
  EncodeHttpHeaderValue [0x41; LF] = None /\
  IndentLines [0x61; LF; LF; 0x62] 2 = Some [SP; SP; 0x61; LF; LF; SP; SP; 0x62].
Proof. repeat split; vm_compute; reflexivity. Qed.
