(* ===== verification/HttpTextFacts.v ===== *)
(** What the text filters guarantee of their output: valid literals, no markup, no control
    codes, canonical sequences; and their buffers. *)
From S2P Require Import Prelude Utf Recode HttpText.

(** * Thompson-Pike sequences of five and six bytes *)

Lemma kTpEnc_5 c : 2 ^ 21 <= c < 2 ^ 26 -> nth (Z.to_nat (bsr c - 7)) kTpEnc 0 = 0xF804.
Proof.
  intros Hc. rewrite bsr_spec by lia. pose proof (log2_between 21 26 c ltac:(lia) Hc) as Hl.
  remember (Z.log2 c) as l eqn:El. clear El.
  assert (l = 21 \/ l = 22 \/ l = 23 \/ l = 24 \/ l = 25) as D by lia. by destruct_or! D; subst l.
Qed.
Lemma kTpEnc_6 c : 2 ^ 26 <= c < 2 ^ 32 -> nth (Z.to_nat (bsr c - 7)) kTpEnc 0 = 0xFC05.
Proof.
  intros Hc. rewrite bsr_spec by lia. pose proof (log2_between 26 32 c ltac:(lia) Hc) as Hl.
  remember (Z.log2 c) as l eqn:El. clear El.
  assert (l = 26 \/ l = 27 \/ l = 28 \/ l = 29 \/ l = 30 \/ l = 31) as D by lia. by destruct_or! D; subst l.
Qed.

(** The loop of [tpenc] as arithmetic: the continuation bytes so far, packed. *)
Fixpoint conts_of (n : nat) (c : Z) : list Z :=
  match n with O => [] | S n => conts_of n (c / 64) ++ [c mod 64] end.
Fixpoint pack (l : list Z) : Z := match l with [] => 0 | b :: l => 128 + b + 256 * pack l end.

Lemma length_conts_of n c : length (conts_of n c) = n.
Proof. revert c. induction n as [|n IH]; intros c; [done|]. cbn. rewrite length_app, IH. cbn. lia. Qed.
Lemma conts_of_range n c : Forall (fun r => 0 <= r < 64) (conts_of n c).
Proof.
  revert c. induction n as [|n IH]; intros c; [constructor|]. cbn. apply Forall_app. split; [done|].
  constructor; [|constructor]. pose proof (Z.mod_pos_bound c 64). lia.
Qed.
Lemma pack_range l : Forall (fun r => 0 <= r < 64) l -> 0 <= pack l < 2 ^ (8 * Z.of_nat (length l)).
Proof.
  induction 1 as [|b l Hb Hl IH]; [cbn; lia|]. cbn [pack length]. rewrite Nat2Z.inj_succ.
  replace (8 * Z.succ (Z.of_nat (length l))) with (8 + 8 * Z.of_nat (length l)) by lia. rewrite Z.pow_add_r by lia. lia.
Qed.

Lemma tpenc_loop_spec n : forall c l, (n + length l <= 5)%nat -> 0 <= c -> Forall (fun r => 0 <= r < 64) l ->
  tpenc_loop n c (256 * pack l) = (c / 64 ^ Z.of_nat n, 256 * pack (conts_of n c ++ l)).
Proof.
  induction n as [|n IH]; intros c l Hn Hc Hl; cbn [tpenc_loop conts_of]; [by rewrite Z.div_1_r|].
  assert (0 <= 256 * pack l < 2 ^ 40) as Hw.
  { pose proof (pack_range l Hl). assert (2 ^ (8 * Z.of_nat (length l)) <= 2 ^ 32) by (apply Z.pow_le_mono_r; lia). lia. }
  rewrite tpenc_turn by lia. replace ((256 * pack l + 128 + c mod 64) * 256) with (256 * pack (c mod 64 :: l)) by (cbn [pack]; lia).
  rewrite shiftr_div by lia. change (2 ^ 6) with 64. rewrite IH; [|cbn [length]; lia|lia|constructor; [lia|done]].
  rewrite <- app_assoc. cbn [app]. f_equal. rewrite Nat2Z.inj_succ, Z.pow_succ_r, Z.div_div by lia. done.
Qed.

Lemma tpenc_nbyte c n lead j :
  128 <= c -> nth (Z.to_nat (bsr c - 7)) kTpEnc 0 = lead * 256 + Z.of_nat n -> (1 <= n <= 5)%nat -> 0 <= j ->
  0 <= c / 64 ^ Z.of_nat n < 2 ^ j -> lead mod 2 ^ j = 0 -> 0 <= lead -> lead + c / 64 ^ Z.of_nat n < 256 ->
  tpenc c = lead + c / 64 ^ Z.of_nat n + 256 * pack (conts_of n c).
Proof.
  intros Hc He Hn Hj Hq Hl Hl0 Hb. unfold tpenc. rewrite if_false by lia. rewrite He.
  change 0xff with (2 ^ 8 - 1). rewrite land_mask by lia.
  replace ((lead * 256 + Z.of_nat n) mod 2 ^ 8) with (Z.of_nat n) by lia. rewrite Nat2Z.id.
  change 0 with (256 * pack []) at 1. rewrite tpenc_loop_spec by (cbn; done || lia). rewrite app_nil_r, shiftr_div by lia.
  replace ((lead * 256 + Z.of_nat n) / 2 ^ 8) with lead by lia.
  rewrite (tpenc_join _ _ _ j) by (done || lia). lia.
Qed.

Lemma unpack_pack n l : (length l <= n)%nat -> Forall (fun r => 0 <= r < 64) l -> l <> [] ->
  tpenc_unpack n (pack l) = map (fun r => 0x80 + r) l.
Proof.
  intros Hn Hl. revert n Hn. induction Hl as [|b l Hb Hl IH]; intros n Hn Hne; [done|]. destruct n as [|n]; [cbn in Hn; lia|].
  cbn [pack map]. destruct l as [|b' l].
  - cbn [pack]. rewrite Z.mul_0_r, Z.add_0_r. rewrite tpenc_unpack_last by lia. done.
  - rewrite tpenc_unpack_cons; [|lia|]. { f_equal. apply IH; [cbn in Hn |- *; lia|done]. }
    cbn [pack]. apply List.Forall_cons_iff in Hl as [Hb' Hl]. pose proof (pack_range l Hl). lia.
Qed.

(** The encoding of a code above 127: a lead byte and its continuation bytes. *)
Definition tp_form (c lead : Z) (conts : list Z) : Prop :=
  tpenc_bytes c = lead :: map (fun r => 0x80 + r) conts /\ Forall (fun r => 0 <= r < 64) conts /\
  0xC0 <= lead < 256 /\ ThomPikeLen lead = 1 + Z.of_nat (length conts) /\
  foldl (fun a r => a * 64 + r) (ThomPikeByte lead) conts = c.

Lemma foldl_conts n : forall c, 0 <= c -> foldl (fun a r => a * 64 + r) (c / 64 ^ Z.of_nat n) (conts_of n c) = c.
Proof.
  induction n as [|n IH]; intros c Hc; cbn [conts_of foldl]; [by rewrite Z.div_1_r|].
  rewrite foldl_app. cbn [foldl]. rewrite Nat2Z.inj_succ, Z.pow_succ_r, <- Z.div_div by lia. rewrite IH by lia. lia.
Qed.

Lemma tp_form_intro c n lead j :
  128 <= c -> nth (Z.to_nat (bsr c - 7)) kTpEnc 0 = lead * 256 + Z.of_nat n -> (1 <= n <= 5)%nat -> 0 <= j ->
  c / 64 ^ Z.of_nat n < 2 ^ j -> lead mod 2 ^ j = 0 -> 0xC0 <= lead -> lead + c / 64 ^ Z.of_nat n < 256 ->
  ThomPikeLen (lead + c / 64 ^ Z.of_nat n) = 1 + Z.of_nat n -> ThomPikeByte (lead + c / 64 ^ Z.of_nat n) = c / 64 ^ Z.of_nat n ->
  tp_form c (lead + c / 64 ^ Z.of_nat n) (conts_of n c).
Proof.
  intros Hc He Hn Hj Hq Hl Hl0 Hb HL HB.
  assert (0 <= c / 64 ^ Z.of_nat n) by (apply Z.div_pos; [lia|apply Z.pow_pos_nonneg; lia]).
  unfold tp_form, tpenc_bytes. rewrite (tpenc_nbyte c n lead j) by (done || lia).
  assert (conts_of n c <> []) as Hne by (intros E; pose proof (length_conts_of n c) as Hl'; rewrite E in Hl'; cbn in Hl'; lia).
  assert (0 < pack (conts_of n c)).
  { pose proof (conts_of_range n c) as Hr. destruct (conts_of n c) as [|b l]; [done|]. apply List.Forall_cons_iff in Hr as [Hb' Hr].
    pose proof (pack_range l Hr). cbn [pack]. lia. }
  rewrite tpenc_unpack_cons by lia. rewrite unpack_pack; [|rewrite length_conts_of; lia|apply conts_of_range|done].
  rewrite length_conts_of, HB. split_and!; try done; try lia; [apply conts_of_range|by apply foldl_conts; lia].
Qed.

Lemma lead5 b : 0xF8 <= b < 0xFC -> ThomPikeLen b = 5 /\ ThomPikeByte b = b - 0xF8.
Proof.
  intros Hb. by_bytes (fun b => implb ((0xF8 <=? b) && (b <? 0xFC)) ((ThomPikeLen b =? 5) && (ThomPikeByte b =? b - 0xF8))) b.
Qed.
Lemma lead6 b : 0xFC <= b < 256 -> ThomPikeLen b = 6 /\ ThomPikeByte b = b - 0xFC.
Proof.
  intros Hb. by_bytes (fun b => implb ((0xFC <=? b) && (b <? 256)) ((ThomPikeLen b =? 6) && (ThomPikeByte b =? b - 0xFC))) b.
Qed.

Ltac tp_case n lead j H :=
  let q := fresh "q" in
  pose (q := (64 ^ Z.of_nat n)); match goal with |- exists _ _, tp_form ?c _ _ /\ _ =>
    assert (0 <= c / q < 2 ^ j) as Hq by (unfold q; cbn; lia); exists (lead + c / q), (conts_of n c);
    destruct (H (lead + c / q)) as [HL HB]; [lia|]; split; [apply (tp_form_intro c n lead j); unfold q in *; try done; try lia|
      rewrite length_conts_of] end.

Definition tp_conts (c : Z) : nat :=
  if c <? 2 ^ 11 then 1%nat else if c <? 2 ^ 16 then 2%nat else if c <? 2 ^ 21 then 3%nat else if c <? 2 ^ 26 then 4%nat else 5%nat.

(** Every 32-bit code above 127 has such an encoding, of a length given by its size. *)
Lemma tp_form_exists c : 128 <= c < 2 ^ 32 -> exists lead conts, tp_form c lead conts /\
  length conts = tp_conts c.
Proof.
  intros Hc. unfold tp_conts. case_ifs.
  - tp_case 1%nat 0xC0 5 lead2; [by rewrite kTpEnc_2 by lia|done].
  - tp_case 2%nat 0xE0 4 lead3; [by rewrite kTpEnc_3 by lia|done].
  - tp_case 3%nat 0xF0 3 lead4; [by rewrite kTpEnc_4 by lia|done].
  - tp_case 4%nat 0xF8 2 lead5; [by rewrite kTpEnc_5 by lia|done].
  - tp_case 5%nat 0xFC 2 lead6; [by rewrite kTpEnc_6 by lia|done].
Qed.

(** * Reading a sequence *)


Lemma merge_conts_pack l : forall a rest, Forall (fun r => 0 <= r < 64) l -> 0 <= a < 2 ^ 32 ->
  merge_conts (length l) a (map (fun r => 0x80 + r) l ++ rest) = Some (u32 (foldl (fun a r => a * 64 + r) a l), rest).
Proof.
  intros a rest Hl. revert a. induction Hl as [|b l Hb Hl IH]; intros a Ha; cbn [length map app merge_conts foldl].
  - by rewrite u32_small by lia.
  - rewrite byte_land by (unfold is_byte; lia). rewrite cont_byte, merge_cont by lia. rewrite IH by apply u32_range.
    do 2 f_equal. clear IH. assert (forall l a b, u32 a = u32 b -> u32 (foldl (fun a r => a * 64 + r) a l) = u32 (foldl (fun a r => a * 64 + r) b l)) as H.
    { clear. induction l as [|r l IH]; intros a b E; [done|]. cbn [foldl]. apply IH. unfold u32 in *.
      rewrite (Z.add_mod (a * 64)), (Z.mul_mod a), E, <- Z.mul_mod, <- Z.add_mod by lia. done. }
    apply H. unfold u32. by rewrite Z.mod_mod by lia.
Qed.

(** The encoding of a code is read back as that code. *)
Lemma next_wint_tpenc c rest : 0 <= c < 2 ^ 32 ->
  exists x0 p, tpenc_bytes c ++ rest = x0 :: p /\ next_wint x0 p = (c, rest).
Proof.
  intros Hc. destruct (decide (c < 128)) as [Hlt|Hge].
  - exists c, rest. unfold tpenc_bytes. rewrite tpenc_1byte, tpenc_unpack_last by lia. split; [done|].
    unfold next_wint. rewrite byte_land by (unfold is_byte; lia). by rewrite if_false by lia.
  - destruct (tp_form_exists c ltac:(lia)) as (lead & conts & (E & Hr & Hlead & Hlen & Hval) & _).
    rewrite E. exists lead, (map (fun r => 0x80 + r) conts ++ rest). split; [done|]. unfold next_wint. rewrite byte_land by (unfold is_byte; lia).
    rewrite (if_true (0xC0 <=? lead)) by lia. rewrite Hlen. rewrite if_true by (rewrite length_app, length_map; apply Z.leb_le; lia).
    replace (Z.to_nat (1 + Z.of_nat (length conts) - 1)) with (length conts) by lia.
    rewrite merge_conts_pack; [|done|].
    + rewrite Hval, u32_small by lia. done.
    + by_bytes (fun b => (0 <=? ThomPikeByte b) && (ThomPikeByte b <? 256)) lead.
Qed.

Lemma merge_conts_spec m : forall a p r p', merge_conts m a p = Some (r, p') -> 0 <= a ->
  exists used, p = used ++ p' /\ length used = m /\ 0 <= r < (a + 1) * 64 ^ Z.of_nat m.
Proof.
  induction m as [|m IH]; intros a p r p' E Ha; cbn [merge_conts] in E.
  - injection E as <- <-. exists []. repeat split; lia.
  - destruct p as [|c p]; [done|]. destruct (ThomPikeCont _); [|done].
    assert (0 <= Z.land 0x3F (Z.land c 0xff) < 64) as Hc.
    { rewrite Z.land_comm. change 0x3F with (2 ^ 6 - 1). rewrite land_mask by lia. apply Z.mod_pos_bound. lia. }
    assert (u32 (ThomPikeMerge a (Z.land c 0xff)) <= a * 64 + 63) as Hm.
    { unfold ThomPikeMerge. rewrite shiftl_mul, (lor_high_low _ _ 6) by lia. unfold u32. lia. }
    destruct (IH _ _ _ _ E ltac:(apply u32_range)) as (used & -> & Hl & Hr). exists (c :: used). split; [done|]. split; [cbn; lia|].
    rewrite Nat2Z.inj_succ, Z.pow_succ_r by lia. nia.
Qed.

(** What is read: a 32-bit code, whose encoding is no longer than what was read of it. *)
Lemma next_wint_spec x0 p x p' : is_byte x0 -> Forall is_byte p -> next_wint x0 p = (x, p') ->
  0 <= x < 2 ^ 32 /\ exists used, p = used ++ p' /\
  ((used = [] /\ x = x0) \/ (x < 128 \/ (tp_conts x <= length used)%nat)).
Proof.
  intros Hx Hp. unfold next_wint. rewrite byte_land by done. unfold is_byte in Hx.
  assert (0 <= x0 < 2 ^ 32 /\ exists used, p = used ++ p /\ ((used = [] /\ x0 = x0) \/ (x0 < 128 \/ (tp_conts x0 <= length used)%nat))) as Hraw.
  { split; [lia|]. exists []. split; [done|by left]. }
  case_if; bool_prop; [|by intros [= <- <-]]. case_if; bool_prop; [|by intros [= <- <-]].
  destruct (merge_conts _ _ _) as [[r q]|] eqn:Em; [|by intros [= <- <-]]. intros [= <- <-].
  assert (0 <= ThomPikeByte x0 < 256) as Hb by (by_bytes (fun b => (0 <=? ThomPikeByte b) && (ThomPikeByte b <? 256)) x0).
  destruct (merge_conts_spec _ _ _ _ _ Em ltac:(lia)) as (used & -> & Hl & Hr).
  assert (2 <= ThomPikeLen x0 <= 6 /\ (ThomPikeByte x0 + 1) * 64 ^ (ThomPikeLen x0 - 1) <=
    nth (Z.to_nat (ThomPikeLen x0)) [0; 0; 2 ^ 11; 2 ^ 16; 2 ^ 21; 2 ^ 26; 2 ^ 32] 0) as [HL HB].
  { pose proof (byte_enum (fun x0 => implb (0xC0 <=? x0) ((2 <=? ThomPikeLen x0) && (ThomPikeLen x0 <=? 6) && ((ThomPikeByte x0 + 1) * 64 ^ (ThomPikeLen x0 - 1) <=?
      nth (Z.to_nat (ThomPikeLen x0)) [0; 0; 2 ^ 11; 2 ^ 16; 2 ^ 21; 2 ^ 26; 2 ^ 32] 0))) eq_refl x0 ltac:(unfold is_byte; lia)) as H.
    cbv beta in H. rewrite (proj2 (Z.leb_le 0xC0 x0)) in H by lia. cbn [implb] in H. bool_prop. lia. }
  rewrite Z2Nat.id in Hr by lia. pose proof (conj (proj1 Hr) (Z.lt_le_trans _ _ _ (proj2 Hr) HB)) as Hr'. clear Hr HB.
  assert (ThomPikeLen x0 = 2 \/ ThomPikeLen x0 = 3 \/ ThomPikeLen x0 = 4 \/ ThomPikeLen x0 = 5 \/ ThomPikeLen x0 = 6) as D by lia.
  split; [|exists used; split; [done|]; right; right; rewrite Hl; unfold tp_conts];
    destruct_or! D; rewrite D in Hr'; rewrite ?D; cbv [nth Z.to_nat Pos.to_nat Pos.iter_op Nat.add] in Hr'; case_ifs; lia.
Qed.

Lemma length_tpenc_bytes x : 0 <= x < 2 ^ 32 ->
  length (tpenc_bytes x) = if decide (x < 128) then 1%nat else S (tp_conts x).
Proof.
  intros Hx. destruct (decide (x < 128)).
  - unfold tpenc_bytes. by rewrite tpenc_1byte, tpenc_unpack_last by lia.
  - destruct (tp_form_exists x ltac:(lia)) as (lead & conts & (E & _) & Hl). rewrite E. cbn. by rewrite length_map, Hl.
Qed.

(** * Filters that go through every character

    The three loops have the same shape: they write [out x] for each character [x] read. *)
Section Filter.
Context (loop : nat -> list Z -> option (list Z)) (out : Z -> list Z).
Context (loop_nil : forall fuel, loop fuel [] = Some []).
Context (loop_cons : forall fuel c p, loop (S fuel) (c :: p) =
  let '(x, p) := next_wint c p in match loop fuel p with None => None | Some r => Some (out x ++ r) end).

(** The loop ends, having read some characters [xs], each of which took at least as much
    input as [cost] says. *)
Lemma filter_reads (cost : Z -> nat) fuel : forall p, Forall is_byte p -> (length p <= fuel)%nat ->
  (forall x0 p x p', is_byte x0 -> Forall is_byte p -> next_wint x0 p = (x, p') -> (cost x + length p' <= S (length p))%nat) ->
  exists xs, loop fuel p = Some (mjoin (map out xs)) /\ Forall (fun x => 0 <= x < 2 ^ 32) xs /\
    (list_sum (map cost xs) <= length p)%nat.
Proof.
  intros p Hp Hf Hcost. revert p Hp Hf. induction fuel as [|fuel IH]; intros p Hp Hf.
  - destruct p; [|cbn in Hf; lia]. exists []. rewrite loop_nil. repeat split; constructor.
  - destruct Hp as [|c p Hc Hp]; [exists []; rewrite loop_nil; repeat split; constructor|]. rewrite loop_cons.
    destruct (next_wint c p) as [x p'] eqn:E. destruct (next_wint_spec c p x p' Hc Hp E) as [Hx (used & -> & _)].
    pose proof (Hcost _ _ _ _ Hc Hp E) as Hco. rewrite length_app in *. cbn [length] in Hf. rewrite length_app in Hf. apply Forall_app in Hp as [_ Hp].
    destruct (IH p' Hp ltac:(lia)) as (xs & -> & Hxs & Hn). exists (x :: xs). split; [done|]. split; [by constructor|].
    cbn [map length]. rewrite length_app. change (list_sum (cost x :: map cost xs)) with (cost x + list_sum (map cost xs))%nat. lia.
Qed.

(** On a text of encoded characters it reads those characters. *)
Definition tp_text (xs : list Z) : list Z := mjoin (map tpenc_bytes xs).
Lemma tp_text_cons x xs : tp_text (x :: xs) = tpenc_bytes x ++ tp_text xs.
Proof. done. Qed.

Lemma tpenc_bytes_nonempty x : 0 <= x < 2 ^ 32 -> (1 <= length (tpenc_bytes x))%nat.
Proof. intros Hx. rewrite length_tpenc_bytes by done. case_decide; lia. Qed.

Lemma filter_text xs : forall fuel, Forall (fun x => 0 <= x < 2 ^ 32) xs -> (length (tp_text xs) <= fuel)%nat ->
  loop fuel (tp_text xs) = Some (mjoin (map out xs)).
Proof.
  induction xs as [|x xs IH]; intros fuel Hxs Hf; [apply loop_nil|]. apply List.Forall_cons_iff in Hxs as [Hx Hxs].
  rewrite tp_text_cons in *. rewrite length_app in Hf.
  pose proof (tpenc_bytes_nonempty x Hx). destruct fuel as [|fuel]; [lia|].
  destruct (next_wint_tpenc x (tp_text xs) Hx) as (x0 & p & E & En). rewrite E, loop_cons, En.
  rewrite IH; [done|done|lia].
Qed.
End Filter.

Lemma next_wint_consumes x0 p x p' : is_byte x0 -> Forall is_byte p -> next_wint x0 p = (x, p') -> (1 + length p' <= S (length p))%nat.
Proof. intros H1 H2 E. destruct (next_wint_spec x0 p x p' H1 H2 E) as [_ (used & -> & _)]. rewrite length_app. lia. Qed.

(** ** Underlong *)

Lemma underlong_cons fuel c p : underlong_loop (S fuel) (c :: p) =
  let '(x, p) := next_wint c p in match underlong_loop fuel p with None => None | Some r => Some (tpenc_bytes x ++ r) end.
Proof. done. Qed.
Lemma underlong_nil fuel : underlong_loop fuel [] = Some [].
Proof. by destruct fuel. Qed.

(** Half of the bytes a character is written with, rounded up, were read for it. *)
Definition half (n : nat) : nat := (n / 2 + n mod 2)%nat.
Lemma half_le n : (half n <= n <= 2 * half n)%nat.
Proof. unfold half. pose proof (Nat.div_mod_eq n 2). lia. Qed.
Lemma underlong_cost x0 p x p' : is_byte x0 -> Forall is_byte p -> next_wint x0 p = (x, p') ->
  (half (length (tpenc_bytes x)) + length p' <= S (length p))%nat.
Proof.
  intros H1 H2 E. destruct (next_wint_spec x0 p x p' H1 H2 E) as [Hx (used & -> & Hu)]. rewrite length_app, length_tpenc_bytes by done.
  destruct (decide (x < 128)); [cbn; lia|]. destruct Hu as [[-> ->]|[Hlt|Hu]]; [|lia|].
  - assert (tp_conts x0 = 1%nat) as -> by (unfold tp_conts, is_byte in *; rewrite if_true by lia; done). cbn. lia.
  - pose proof (half_le (S (tp_conts x))). lia.
Qed.

(** [Underlong] ends, fits the buffer of [2 n + 1] bytes it allocates, and its result is
    canonical: running it again changes nothing. *)
Theorem Underlong_canonical p : Forall is_byte p ->
  exists r, Underlong p = Some r /\ (length r <= 2 * length p)%nat /\ Underlong r = Some r.
Proof.
  intros Hp. destruct (filter_reads underlong_loop tpenc_bytes underlong_nil underlong_cons (fun x => half (length (tpenc_bytes x)))
    (length p) p Hp (Nat.le_refl _) underlong_cost) as (xs & E & Hxs & Hn).
  exists (tp_text xs). split; [exact E|]. split.
  - etransitivity; [|apply Nat.mul_le_mono_l, Hn]. clear. induction xs as [|x xs IH]; [cbn; lia|].
    cbn [map]. rewrite tp_text_cons, length_app.
    match goal with |- context [list_sum (?a :: ?l)] => change (list_sum (a :: l)) with (a + list_sum l)%nat end.
    pose proof (half_le (length (tpenc_bytes x))). lia.
  - by apply (filter_text underlong_loop tpenc_bytes underlong_nil underlong_cons).
Qed.

Lemma Underlong_canonical_witness :
  exists r, Underlong [0xC0; 0x80; 0xFF; 0xE2; 0x82; 0xAC] = Some r /\ (length r <= 12)%nat /\ Underlong r = Some r.
Proof. apply Underlong_canonical. apply (bool_decide_unpack _). vm_compute. reflexivity. Defined.

(** ** VisualizeControlCodes *)

Lemma visualize_cons fuel c p : visualize_loop (S fuel) (c :: p) =
  let '(x, p) := next_wint c p in match visualize_loop fuel p with None => None | Some r => Some (visualize_char x ++ r) end.
Proof. done. Qed.
Lemma visualize_nil fuel : visualize_loop fuel [] = Some [].
Proof. by destruct fuel. Qed.

Definition visible (x : Z) : Prop := 0 <= x < 2 ^ 32 /\ forbidden (kControlC0 + kControlC1) x = false.

Lemma visible_spec x : 0 <= x < 2 ^ 32 -> ~ (0x80 <= x < 0xA0) -> x = HT \/ x = CR \/ x = LF \/ (0x20 <= x /\ x <> DEL) -> visible x.
Proof.
  intros Hx H1 H2. split; [done|]. unfold forbidden. replace (has_flag (kControlC0 + kControlC1) kControlWs) with false by done.
  case_if; [done|]. bool_prop. unfold DEL in *. apply orb_false_iff. split; apply andb_false_iff; right; lia.
Qed.

Lemma hexdig_visible d : 0 <= d < 16 -> visible (hexdig d) /\ tpenc_bytes (hexdig d) = [hexdig d] /\ 0x30 <= hexdig d <= 0x66.
Proof.
  intros Hd. assert (0x30 <= hexdig d <= 0x66) as H.
  { pose proof (byte_enum (fun d => implb (d <? 16) ((0x30 <=? hexdig d) && (hexdig d <=? 0x66))) eq_refl d ltac:(unfold is_byte; lia)) as H.
    cbv beta in H. rewrite (proj2 (Z.ltb_lt d 16)) in H by lia. cbn [implb] in H. bool_prop. lia. }
  split; [apply visible_spec; unfold DEL; lia|]. split; [|done]. unfold tpenc_bytes. rewrite tpenc_1byte, tpenc_unpack_last by lia. done.
Qed.

(** A character is written as visible characters. *)
Lemma visualize_char_text x : 0 <= x < 2 ^ 32 -> exists ys, visualize_char x = tp_text ys /\ Forall visible ys.
Proof.
  intros Hx. unfold visualize_char. set (y := remap_trojan x).
  assert (0 <= y < 2 ^ 32) as Hy by (unfold y, remap_trojan; case_ifs).
  case_if; bool_prop.
  - change 0xF0 with ((2 ^ 4 - 1) * 2 ^ 4). rewrite land_field, shiftr_div, Z.div_mul by lia. change 0x0F with (2 ^ 4 - 1). rewrite land_mask by lia.
    destruct (hexdig_visible (y / 2 ^ 4 mod 2 ^ 4)) as (V1 & E1 & _); [lia|]. destruct (hexdig_visible (y mod 2 ^ 4)) as (V2 & E2 & _); [lia|].
    exists [BSLASH; 0x75; 0x30; 0x30; hexdig (y / 2 ^ 4 mod 2 ^ 4); hexdig (y mod 2 ^ 4)]. split.
    + rewrite !tp_text_cons, E1, E2. done.
    + repeat match goal with |- Forall _ _ => constructor end; try done; apply visible_spec; unfold DEL; lia.
  - eexists [_]. split; [rewrite tp_text_cons; cbn; by rewrite app_nil_r|]. constructor; [|constructor].
    unfold DEL in *. rewrite andb_false_iff in E. case_ifs; apply visible_spec; unfold DEL; bool_prop; lia.
Qed.

Lemma has_control_text ys : forall fuel n, Forall visible ys -> (length (tp_text ys) <= fuel)%nat ->
  has_control_loop fuel n (tp_text ys) (kControlC0 + kControlC1) = Some (-1).
Proof.
  induction ys as [|y ys IH]; intros fuel n Hys Hf; [by destruct fuel|]. apply List.Forall_cons_iff in Hys as [[Hy Hv] Hys].
  rewrite tp_text_cons in *. rewrite length_app in Hf. pose proof (tpenc_bytes_nonempty y Hy). destruct fuel as [|fuel]; [lia|].
  destruct (next_wint_tpenc y (tp_text ys) Hy) as (x0 & p & E & En). rewrite E. cbn [has_control_loop]. rewrite En, Hv, andb_false_r.
  apply IH; [done|lia].
Qed.

Lemma tp_text_join (xs : list Z) : forall f : Z -> list Z, (forall x, In x xs -> exists ys, f x = tp_text ys /\ Forall visible ys) ->
  exists ys, mjoin (map f xs) = tp_text ys /\ Forall visible ys.
Proof.
  induction xs as [|x xs IH]; intros f Hf; [by exists []|].
  destruct (Hf x ltac:(by left)) as (ys & E & Hv). destruct (IH f) as (zs & E2 & Hz); [intros; apply Hf; by right|].
  exists (ys ++ zs). split; [|by apply Forall_app]. change (mjoin (map f (x :: xs))) with (f x ++ mjoin (map f xs)).
  rewrite E, E2. unfold tp_text. rewrite map_app. by rewrite join_app.
Qed.

(** Text passed through [VisualizeControlCodes] holds no C0 or C1 control codes other
    than tab, carriage return and newline, not even in overlong form: [HasControlCodes]
    finds none, whatever the input was. *)
Theorem VisualizeControlCodes_clean p : Forall is_byte p ->
  exists r, VisualizeControlCodes p = Some r /\ HasControlCodes r (kControlC0 + kControlC1) = Some (-1).
Proof.
  intros Hp. destruct (filter_reads visualize_loop visualize_char visualize_nil visualize_cons (fun _ => 1%nat)
    (length p) p Hp (Nat.le_refl _) next_wint_consumes) as (xs & E & Hxs & _).
  destruct (tp_text_join xs visualize_char) as (ys & Ey & Hys).
  { rewrite List.Forall_forall in Hxs. intros x Hin. by apply visualize_char_text, Hxs. }
  exists (tp_text ys). rewrite <- Ey. split; [exact E|]. rewrite Ey. by apply has_control_text.
Qed.

Lemma VisualizeControlCodes_clean_witness :
  exists r, VisualizeControlCodes [0x1B; 0xC0; 0x9B; 0xC2; 0x85; 0x7F; LF] = Some r /\ HasControlCodes r (kControlC0 + kControlC1) = Some (-1).
Proof. apply VisualizeControlCodes_clean. apply (bool_decide_unpack _). vm_compute. reflexivity. Defined.

(** ** EscapeJsStringLiteral *)

(** The inside of a JSON string: printable ASCII, quotes and backslashes only in escapes. *)
Definition is_hex (c : Z) : bool := ((0x30 <=? c) && (c <=? 0x39)) || ((0x61 <=? c) && (c <=? 0x66)).
Definition plain_literal (c : Z) : bool :=
  (0x20 <=? c) && (c <=? 0x7E) && negb (existsb (Z.eqb c) [DQUOTE; BSLASH; 0x3C; 0x3E; 0x26; 0x27]).
Inductive json_literal : list Z -> Prop :=
| json_nil : json_literal []
| json_plain c l : plain_literal c = true -> json_literal l -> json_literal (c :: l)
| json_short e l : In e [0x74; 0x6E; 0x72; 0x66; BSLASH; SLASH; DQUOTE] -> json_literal l -> json_literal (BSLASH :: e :: l)
| json_u a b c d l : is_hex a && is_hex b && is_hex c && is_hex d = true -> json_literal l ->
    json_literal (BSLASH :: 0x75 :: a :: b :: c :: d :: l).

Lemma hexdig_is_hex d : 0 <= d < 16 -> is_hex (hexdig d) = true.
Proof.
  intros Hd. pose proof (byte_enum (fun d => implb (d <? 16) (is_hex (hexdig d))) eq_refl d ltac:(unfold is_byte; lia)) as H.
  cbv beta in H. by rewrite (proj2 (Z.ltb_lt d 16)) in H by lia.
Qed.

Lemma json_u_escape w l : json_literal l -> json_literal (u_escape w ++ l).
Proof.
  intros Hl. unfold u_escape. cbn [app]. apply json_u; [|done].
  change 0xF000 with ((2 ^ 4 - 1) * 2 ^ 12). change 0x0F00 with ((2 ^ 4 - 1) * 2 ^ 8). change 0x00F0 with ((2 ^ 4 - 1) * 2 ^ 4).
  change 0x000F with (2 ^ 4 - 1). rewrite !land_field, land_mask, !shiftr_div, !Z.div_mul by lia.
  by rewrite !hexdig_is_hex by lia.
Qed.

Lemma u_escapes_spec w l : 0 <= w < 2 ^ 32 -> json_literal l ->
  json_literal (u_escapes 4 w ++ l) /\ (length (u_escapes 4 w) <= if (w <? 2 ^ 16)%Z then 6 else 12)%nat.
Proof.
  intros Hw Hl. cbn [u_escapes]. rewrite !shiftr_div by lia. rewrite <- !app_assoc.
  destruct (w <? 2 ^ 16) eqn:E; bool_prop.
  - rewrite (if_true (w / 2 ^ 16 =? 0)) by lia. cbn [app]. split; [by apply json_u_escape|cbn; lia].
  - rewrite (if_false (w / 2 ^ 16 =? 0)), (if_true (w / 2 ^ 16 / 2 ^ 16 =? 0)) by lia. rewrite app_nil_r.
    split; [by do 2 apply json_u_escape|cbn; lia].
Qed.

Lemma EncodeUtf16_range x : 0 <= x < 2 ^ 32 -> 0 <= EncodeUtf16 x < 2 ^ 32 /\ (x < 2 ^ 16 -> EncodeUtf16 x < 2 ^ 16).
Proof.
  intros Hx. destruct (decide (x < 0x10000)); [rewrite EncodeUtf16_bmp; lia|].
  destruct (decide (x < 0x110000)); [rewrite EncodeUtf16_astral; lia|]. unfold EncodeUtf16.
  rewrite u32_small by lia. rewrite !if_false by lia. lia.
Qed.

Definition literal_cost (x : Z) : nat := if x <? 2 ^ 16 then 1 else 2.

Lemma literal_kinds x : 0 <= x <= 127 ->
  let k := nth (Z.to_nat x) kEscapeLiteral 0 in
  (k = 0 /\ plain_literal x = true) \/ k = 1 \/ k = 2 \/ k = 3 \/ k = 4 \/ k = 5 \/ k = 6 \/ k = 7 \/ k = 9.
Proof.
  intros Hx k. pose proof (byte_enum (fun x => implb (x <=? 127) (let k := nth (Z.to_nat x) kEscapeLiteral 0 in
    ((k =? 0) && plain_literal x) || existsb (Z.eqb k) [1; 2; 3; 4; 5; 6; 7; 9])) eq_refl x ltac:(unfold is_byte; lia)) as H.
  cbv beta in H. rewrite (proj2 (Z.leb_le x 127)) in H by lia. cbn [implb] in H. cbv zeta in H. fold k in H.
  apply orb_true_iff in H as [H|H]; [bool_prop; by left|]. apply existsb_exists in H as (y & Hy & H). bool_prop. subst y.
  right. clearbody k. cbn in Hy. lia.
Qed.

Lemma escape_literal_spec x l : 0 <= x < 2 ^ 32 -> json_literal l ->
  json_literal (escape_literal x ++ l) /\ (length (escape_literal x) <= 8 * literal_cost x)%nat.
Proof.
  intros Hx Hl. unfold escape_literal, literal_cost.
  destruct (EncodeUtf16_range x Hx) as [Hu Hs]. destruct (u_escapes_spec (EncodeUtf16 x) l Hu Hl) as [Hj Hlen].
  assert (json_literal (u_escapes 4 (EncodeUtf16 x) ++ l) /\ (length (u_escapes 4 (EncodeUtf16 x)) <= 8 * if (x <? 2 ^ 16)%Z then 1 else 2)%nat) as Hesc.
  { split; [done|]. destruct (x <? 2 ^ 16) eqn:E; bool_prop.
    - rewrite (proj2 (Z.ltb_lt _ _)) in Hlen by auto. lia.
    - destruct (EncodeUtf16 x <? 2 ^ 16); lia. }
  destruct ((0 <=? x) && (x <=? 127)) eqn:E; [|exact Hesc]. bool_prop. rewrite (if_true (x <? 2 ^ 16)) in * by lia.
  destruct (literal_kinds x ltac:(lia)) as [[Hk Hp]|Hk].
  - rewrite Hk. split; [by apply json_plain|cbn; lia].
  - destruct_or! Hk; rewrite Hk; try exact Hesc; (split; [apply json_short; [cbn; tauto|done]|cbn; lia]).
Qed.

Lemma escape_js_cons fuel c p : escape_js_loop (S fuel) (c :: p) =
  let '(x, p) := next_wint c p in match escape_js_loop fuel p with None => None | Some r => Some (escape_literal x ++ r) end.
Proof. done. Qed.
Lemma escape_js_nil fuel : escape_js_loop fuel [] = Some [].
Proof. by destruct fuel. Qed.

Lemma literal_cost_paid x0 p x p' : is_byte x0 -> Forall is_byte p -> next_wint x0 p = (x, p') ->
  (literal_cost x + length p' <= S (length p))%nat.
Proof.
  intros H1 H2 E. destruct (next_wint_spec x0 p x p' H1 H2 E) as [Hx (used & -> & Hu)]. rewrite length_app. unfold literal_cost.
  destruct (x <? 2 ^ 16) eqn:E1; bool_prop; [lia|]. destruct Hu as [[-> ->]|[Hlt|Hu]]; [unfold is_byte in H1; lia|lia|].
  unfold tp_conts in Hu. rewrite (if_false (x <? 2 ^ 11)), (if_false (x <? 2 ^ 16)) in Hu by lia.
  repeat case_match; lia.
Qed.

(** [EscapeJsStringLiteral] ends on every input, its output with the terminator fits the
    buffer it asks for, and the output is the inside of a JSON string literal of printable
    ASCII without markup characters: no input can close the string or the script around it. *)
Theorem EscapeJsStringLiteral_literal p : Forall is_byte p ->
  exists r, EscapeJsStringLiteral p = Some r /\ json_literal r /\
    Z.of_nat (length r) + 1 <= EscapeJsStringLiteral_room (Z.of_nat (length p)).
Proof.
  intros Hp. destruct (filter_reads escape_js_loop escape_literal escape_js_nil escape_js_cons literal_cost
    (length p) p Hp (Nat.le_refl _) literal_cost_paid) as (xs & E & Hxs & Hn).
  assert (json_literal (mjoin (map escape_literal xs)) /\ (length (mjoin (map escape_literal xs)) <= 8 * list_sum (map literal_cost xs))%nat) as [Hj Hl].
  { clear E Hn. induction Hxs as [|x xs Hx Hxs [IHj IHl]]; [split; [constructor|cbn; lia]|].
    change (mjoin (map escape_literal (x :: xs))) with (escape_literal x ++ mjoin (map escape_literal xs)).
    destruct (escape_literal_spec x _ Hx IHj) as [H1 H2]. split; [done|]. rewrite length_app. cbn [map].
    change (list_sum (literal_cost x :: map literal_cost xs)) with (literal_cost x + list_sum (map literal_cost xs))%nat. lia. }
  exists (mjoin (map escape_literal xs)). split; [done|]. split; [done|]. unfold EscapeJsStringLiteral_room. lia.
Qed.

Lemma EscapeJsStringLiteral_literal_witness :
  exists r, EscapeJsStringLiteral (ascii_codes "</script>"%string ++ [DQUOTE; 0; 0xF0; 0x9F; 0x92; 0xA9; 0xFF]) = Some r /\ json_literal r /\
    Z.of_nat (length r) + 1 <= EscapeJsStringLiteral_room 16.
Proof.
  apply (EscapeJsStringLiteral_literal (ascii_codes "</script>"%string ++ [DQUOTE; 0; 0xF0; 0x9F; 0x92; 0xA9; 0xFF])).
  apply (bool_decide_unpack _). vm_compute. reflexivity.
Defined.

(** ** EscapeHtml *)

(** Reads the entities back. *)
Fixpoint unescape_html (fuel : nat) (l : list Z) : list Z :=
  match fuel with
  | O => []
  | S fuel =>
      match l with
      | [] => []
      | c :: r =>
          match List.find (fun e => bool_decide (take (length (escape_html_char e)) l = escape_html_char e)) [0x26; 0x3C; 0x3E; DQUOTE; 0x27] with
          | Some e => e :: unescape_html fuel (drop (length (escape_html_char e)) l)
          | None => c :: unescape_html fuel r
          end
      end
  end.
Definition markup (c : Z) : bool := existsb (Z.eqb c) [0x3C; 0x3E; DQUOTE; 0x27].

Lemma EscapeHtml_cons c p : EscapeHtml (c :: p) = escape_html_char c ++ EscapeHtml p.
Proof. done. Qed.

Lemma escape_html_cases c : In c [0x26; 0x3C; 0x3E; DQUOTE; 0x27] \/
  (escape_html_char c = [c] /\ c <> 0x26 /\ markup c = false).
Proof.
  unfold escape_html_char, markup. cbn [existsb In].
  repeat match goal with |- context [c =? ?k] => destruct (Z.eqb_spec c k); [left; subst; tauto|] end.
  right. done.
Qed.

Lemma unescape_EscapeHtml p : forall fuel, (length (EscapeHtml p) < fuel)%nat -> unescape_html fuel (EscapeHtml p) = p.
Proof.
  induction p as [|c p IH]; intros fuel Hf; (destruct fuel as [|fuel]; [lia|]); [done|].
  rewrite EscapeHtml_cons in *. rewrite length_app in Hf. destruct (escape_html_cases c) as [Hc|(E & Hne & _)].
  - cbn in Hc. destruct_or! Hc; try done; subst c; cbn; f_equal; apply IH; cbn in Hf; lia.
  - rewrite E in *. cbn [app unescape_html length] in *.
    destruct (List.find _ _) as [e|] eqn:Ef; [exfalso|f_equal; apply IH; lia]. apply List.find_some in Ef as [He Hb].
    apply bool_decide_eq_true in Hb. cbn in He. destruct_or! He; try done; subst e; vm_compute in Hb; injection Hb as Hb _; by subst.
Qed.

(** HTML escaped by [EscapeHtml] holds none of the characters that open a tag or end an
    attribute, fits the buffer of [6 n + 1] bytes, and reads back as the original text. *)
Theorem EscapeHtml_safe p :
  forallb (fun c => negb (markup c)) (EscapeHtml p) = true /\ (length (EscapeHtml p) <= 6 * length p)%nat /\
  unescape_html (S (length (EscapeHtml p))) (EscapeHtml p) = p.
Proof.
  split; [|split; [|apply unescape_EscapeHtml; lia]].
  - induction p as [|c p IH]; [done|]. rewrite EscapeHtml_cons, forallb_app, IH, andb_true_r.
    destruct (escape_html_cases c) as [Hc|(-> & _ & Hm)]; [|cbn [forallb]; by rewrite Hm].
    cbn in Hc. by destruct_or! Hc; subst.
  - induction p as [|c p IH]; [cbn; lia|]. rewrite EscapeHtml_cons, length_app. cbn [length].
    assert (length (escape_html_char c) <= 6)%nat; [|lia].
    destruct (escape_html_cases c) as [Hc|(-> & _)]; [|cbn; lia]. cbn in Hc. destruct_or! Hc; try done; subst; cbn; lia.
Qed.

(** ** Latin-1 *)

Lemma DecodeLatin1_cons c p : DecodeLatin1 (c :: p) = decode_latin1_char c ++ DecodeLatin1 p.
Proof. done. Qed.

(** [EncodeLatin1] undoes [DecodeLatin1], and with the flags that forbid control codes it
    fails exactly when the text has a forbidden character. *)
Theorem EncodeLatin1_DecodeLatin1 p f : Forall is_byte p ->
  EncodeLatin1 (DecodeLatin1 p) f = if existsb (forbidden f) p then None else Some p.
Proof.
  induction 1 as [|c p Hc Hp IH]; [done|]. rewrite DecodeLatin1_cons. unfold decode_latin1_char. rewrite byte_land by done.
  assert (0 <= c < 256) as Hr by exact Hc. destruct (c <? 0x80) eqn:E; bool_prop; cbn [app EncodeLatin1 existsb].
  - rewrite byte_land by done. rewrite if_false by lia. rewrite IH. destruct (forbidden f c), (existsb (forbidden f) p); done.
  - assert (Z.lor 0xC0 (Z.shiftr c 6) = 0xC0 + c / 64) as ->.
    { rewrite shiftr_div by lia. rewrite (lor_high_low _ _ 6) by lia. done. }
    assert (Z.lor 0x80 (Z.land c 0x3F) = 0x80 + c mod 64) as ->.
    { change 0x3F with (2 ^ 6 - 1). rewrite land_mask by lia. rewrite (lor_high_low _ _ 6) by lia. done. }
    rewrite byte_land by (unfold is_byte; lia). rewrite if_true by lia.
    rewrite if_true.
    + assert (Z.lor (Z.shiftl (Z.land (0xC0 + c / 64) 0x1F) 6) (Z.land (0x80 + c mod 64) 0x3F) = c) as ->.
      { change 0x1F with (2 ^ 5 - 1). change 0x3F with (2 ^ 6 - 1). rewrite !land_mask, shiftl_mul by lia. rewrite (lor_high_low _ _ 6) by lia. lia. }
      rewrite IH. destruct (forbidden f c), (existsb (forbidden f) p); done.
    + rewrite andb_true_iff. split; [lia|]. change 0xC0 with ((2 ^ 2 - 1) * 2 ^ 6). rewrite land_field by lia. lia.
Qed.

Lemma EncodeLatin1_DecodeLatin1_witness :
  EncodeLatin1 (DecodeLatin1 [0x41; 0xE9; 0x9B]) 0 = Some [0x41; 0xE9; 0x9B] /\
  EncodeLatin1 (DecodeLatin1 [0x41; 0xE9; 0x9B]) kControlC1 = None.
Proof.
  assert (Forall is_byte [0x41; 0xE9; 0x9B]) as H by (apply (bool_decide_unpack _); vm_compute; reflexivity).
  split; [exact (EncodeLatin1_DecodeLatin1 _ 0 H)|exact (EncodeLatin1_DecodeLatin1 _ kControlC1 H)].
Defined.

(** ** EncodeHttpHeaderValue *)

Lemma header_value_loop_ok fuel : forall p t r, header_value_loop fuel p t = Some r ->
  Forall (fun x => header_char x = true) r /\ (length r <= length p)%nat /\
  (t = false -> match r with x :: _ => blank x = false | [] => True end).
Proof.
  induction fuel as [|fuel IH]; intros p t r E; destruct p as [|c p]; cbn [header_value_loop] in E; try done;
    try (injection E as <-; repeat split; [constructor|cbn; lia]).
  match type of E with (let '(x, p) := ?e in _) = _ => destruct e as [x p'] eqn:Ep end.
  assert (length p' <= length p)%nat as Hlen.
  { revert Ep. repeat case_match; intros [= ? ?]; subst; cbn; lia. }
  destruct (negb t && blank x) eqn:Eb.
  - destruct (IH _ _ _ E) as (H1 & H2 & H3). repeat split; [done|cbn; lia|done].
  - destruct (header_char x) eqn:Eh; [|done]. destruct (header_value_loop fuel p' true) as [r'|] eqn:Er; [|done].
    injection E as <-. destruct (IH _ _ _ Er) as (H1 & H2 & _). repeat split; [by constructor|cbn; lia|].
    intros ->. by cbn in Eb.
Qed.

Lemma drop_blanks_spec l : exists b, l = b ++ drop_blanks l /\ match drop_blanks l with x :: _ => blank x = false | [] => True end.
Proof.
  induction l as [|x l IH]; [by exists []|]. cbn [drop_blanks]. destruct (blank x) eqn:E; [|by exists []].
  destruct IH as (b & Hb & Hd). exists (x :: b). split; [|done]. cbn. by rewrite <- Hb.
Qed.

Lemma not_blank x : blank x = false -> x <> SP /\ x <> HT.
Proof. unfold blank. intros H. apply orb_false_iff in H. lia. Qed.

(** The characters of a header value: printable ASCII, the upper half of Latin-1, and tab. *)
Definition value_char (x : Z) : Prop := x = 9 \/ 32 <= x <= 126 \/ 160 <= x <= 255.
#[export] Instance value_char_dec x : Decision (value_char x).
Proof. unfold value_char. apply _. Defined.
(** A text without the blanks at its ends. *)
Definition strip (l : list Z) : list Z := rev (drop_blanks (rev (drop_blanks l))).

Lemma header_char_value x : header_char x = bool_decide (value_char x).
Proof.
  unfold header_char, value_char. case_bool_decide; [|apply not_true_iff_false; intros E; bool_prop; lia].
  destruct (Z.eqb_spec x 9); [by rewrite orb_true_r|]. rewrite orb_false_r. apply orb_true_iff. rewrite !andb_true_iff. lia.
Qed.

(** On UTF-8 text the loop takes one character a turn. *)
Lemma header_value_turn c cs fuel t : scalar c ->
  header_value_loop (S fuel) (utf8 c ++ cs) t =
  (if negb t && blank c then header_value_loop fuel cs t
   else if header_char c then match header_value_loop fuel cs true with None => None | Some r => Some (c :: r) end else None).
Proof.
  intros Hc. unfold scalar in Hc. unfold utf8. destruct (c <? 0x80) eqn:E1; [|destruct (c <? 0x800) eqn:E2; [|]]; bool_prop.
  - cbn [app header_value_loop]. rewrite byte_land by (unfold is_byte; lia). rewrite if_false by lia. done.
  - cbn [app header_value_loop]. rewrite byte_land by (unfold is_byte; lia). rewrite if_true by lia. rewrite cont_byte by lia.
    destruct (lead2 (0xC0 + c / 64)) as [-> ->]; [lia|]. cbn [Z.eqb Pos.eqb]. rewrite merge_cont by lia.
    replace (u32 _) with c; [done|]. unfold u32. lia.
  - assert (blank c = false /\ header_char c = false) as [-> ->].
    { rewrite header_char_value. unfold blank, value_char. split; [|apply bool_decide_eq_false]; lia. }
    rewrite andb_false_r. destruct (c <? 0x10000) eqn:E3; bool_prop; cbn [app header_value_loop].
    + rewrite byte_land by (unfold is_byte; lia). rewrite if_true by lia. rewrite cont_byte by lia.
      destruct (lead3 (0xE0 + c / 4096)) as [-> _]; [lia|]. by destruct t.
    + rewrite byte_land by (unfold is_byte; lia). rewrite if_true by lia. rewrite cont_byte by lia.
      destruct (lead4 (0xF0 + c / 262144)) as [-> _]; [lia|]. by destruct t.
Qed.
Lemma header_value_text cs : Forall scalar cs -> forall fuel t, (length cs <= fuel)%nat ->
  header_value_loop fuel (utf8s cs) t =
  if bool_decide (Forall value_char cs) then Some (if t then cs else drop_blanks cs) else None.
Proof.
  induction 1 as [|c cs Hc _ IH]; intros fuel t Hf; [destruct fuel; by destruct t|]. destruct fuel as [|fuel]; [cbn in Hf; lia|].
  change (utf8s (c :: cs)) with (utf8 c ++ utf8s cs). rewrite header_value_turn by done. cbn in Hf. rewrite !IH by lia.
  rewrite header_char_value. cbn [drop_blanks].
  assert (bool_decide (Forall value_char (c :: cs)) = bool_decide (value_char c) && bool_decide (Forall value_char cs)) as ->.
  { rewrite <- bool_decide_and. apply bool_decide_ext. apply List.Forall_cons_iff. }
  destruct t; cbn [negb andb]; [by repeat case_bool_decide|]. destruct (blank c) eqn:Eb; [|by repeat case_bool_decide].
  rewrite (bool_decide_eq_true_2 (value_char c)); [done|]. unfold blank, value_char in *. lia.
Qed.

(** C40: Whatever bytes it is given, what [EncodeHttpHeaderValue] accepts is a header value
    that fits its buffer: printable ASCII, Latin-1 and tabs, so no line break can end the
    header, with no blank at either end. On UTF-8 text it is exact: the characters stripped
    of blanks when each of them is allowed, EILSEQ when one is not. *)
Theorem EncodeHttpHeaderValue_exact :
  (forall data r, EncodeHttpHeaderValue data = Some r ->
     Forall value_char r /\ (length r <= length data)%nat /\
     match r with x :: _ => x <> SP /\ x <> HT | [] => True end /\
     match rev r with x :: _ => x <> SP /\ x <> HT | [] => True end) /\
  forall cs, Forall scalar cs ->
    EncodeHttpHeaderValue (utf8s cs) = if bool_decide (Forall value_char cs) then Some (strip cs) else None.
Proof.
  split; [|intros cs Hcs; unfold EncodeHttpHeaderValue; rewrite header_value_text;
           [by case_bool_decide|done|by apply utf8s_length]].
  intros data r. unfold EncodeHttpHeaderValue. destruct (header_value_loop _ data false) as [r0|] eqn:E; [|done]. intros [= <-].
  destruct (header_value_loop_ok _ _ _ _ E) as (H1 & H2 & H3). specialize (H3 eq_refl).
  destruct (drop_blanks_spec (rev r0)) as (b & Hb & Hd). apply (f_equal (@rev Z)) in Hb.
  rewrite rev_involutive, rev_app_distr in Hb. rewrite rev_involutive. set (k := rev (drop_blanks (rev r0))) in *.
  rewrite Hb in H1, H2, H3. apply Forall_app in H1 as [H1 _]. rewrite length_app in H2.
  split; [eapply List.Forall_impl; [|exact H1]; intros x; cbn beta; rewrite header_char_value; apply bool_decide_eq_true|].
  split; [lia|]. split; [destruct k; [done|]; by apply not_blank|]. destruct (drop_blanks (rev r0)); [done|]. by apply not_blank.
Qed.

Lemma EncodeHttpHeaderValue_exact_witness :
  Forall value_char [0x41; 0xE9; HT; 0x42] /\ EncodeHttpHeaderValue (utf8s [SP; 0x41; 0x20AC]) = None.
Proof.
  split; [apply (proj1 EncodeHttpHeaderValue_exact [SP; 0x41; 0xC3; 0xA9; HT; 0x42; SP]); vm_compute; reflexivity|].
  rewrite (proj2 EncodeHttpHeaderValue_exact [SP; 0x41; 0x20AC]); [reflexivity|].
  apply (bool_decide_unpack _); vm_compute; reflexivity.
Defined.
