(* ===== verification/NodeTree.v ===== *)
(** What the red-black tree promises to its clients: an ordered set of nodes.

    A client sees the tree as the list of its nodes in order. [NodeTree] are the operations,
    [NodeTreeLaws] what they do to the list; [TreeInstance] shows that the functions of
    [libc/intrin/tree.c] obey the laws. *)
From S2P Require Import Prelude.
From stdpp Require Import list sorting.
#[local] Open Scope Z_scope.

(** What [tree_insert] and the searches ask of the caller's comparison. *)
Class Comparator (cmp : Z -> Z -> Z) := {
  cmp_sym a b : cmp a b < 0 <-> 0 < cmp b a;
  cmp_trans a b c : cmp a b <= 0 -> cmp b c <= 0 -> cmp a c <= 0 }.

Section Order.
Variable cmp : Z -> Z -> Z.

Definition sorted (l : list Z) : Prop := StronglySorted (fun a b => cmp a b <= 0) l.

(** The place of a new node in the order: after the nodes that are not greater. *)
Fixpoint ins (node : Z) (l : list Z) : list Z :=
  match l with
  | [] => [node]
  | z :: l => if cmp node z <? 0 then node :: z :: l else z :: ins node l
  end.
Definition below (node : Z) (l : list Z) : Prop := Forall (fun z => 0 <= cmp node z) l.
Definition above (node : Z) (l : list Z) : Prop := Forall (fun z => cmp node z < 0) l.
Lemma ins_split node l1 l2 : below node l1 -> above node l2 -> ins node (l1 ++ l2) = l1 ++ node :: l2.
Proof.
  induction 1 as [|z l1 Hz _ IH]; intros H2; cbn [app ins].
  - destruct H2 as [|z l2 Hz _]; [done|]. cbn. by rewrite if_true by lia.
  - rewrite if_false by lia. by rewrite IH.
Qed.
End Order.

(** The key lies between the nodes less than it and those greater. *)
Definition ranked (c : Z -> Z) (l : list Z) : Prop := StronglySorted (fun a b => Z.sgn (c b) <= Z.sgn (c a)) l.

(** The operations; NULL is 0, and [None] is a bad pointer. *)
Class NodeTree (ST : Type) := {
  t_insert : (Z -> Z -> Z) -> Z -> ST -> option ST;
  t_remove : Z -> ST -> option ST;
  t_floor : (Z -> Z) -> ST -> option Z;
  t_first : ST -> option Z;
  t_last : ST -> option Z;
  t_next : Z -> ST -> option Z;
  t_prev : Z -> ST -> option Z }.

Class NodeTreeLaws (ST : Type) {Hops : NodeTree ST} := {
  (** The tree holds these nodes, in this order. *)
  nodes : ST -> list Z -> Prop;
  (** There is memory for a node at this address. *)
  avail : ST -> Z -> Prop;
  nodes_distinct st l : nodes st l -> NoDup l;
  nodes_avail st l z : nodes st l -> z ∈ l -> avail st z;
  nodes_nonnull st l z : nodes st l -> z ∈ l -> 0 < z;
  insert_law cmp {Hc : Comparator cmp} st l n : nodes st l -> sorted cmp l -> avail st n -> n ∉ l ->
    exists st', t_insert cmp n st = Some st' /\ nodes st' (ins cmp n l) /\ forall z, avail st z -> avail st' z;
  remove_law st l1 x l2 : nodes st (l1 ++ x :: l2) ->
    exists st', t_remove x st = Some st' /\ nodes st' (l1 ++ l2) /\ forall z, avail st z -> avail st' z;
  floor_law c st l : nodes st l -> ranked c l ->
    exists p, t_floor c st = Some p /\
      ((p ∈ l /\ c p = 0) \/ (Forall (fun z => c z <> 0) l /\ p = List.last (filter (fun z => 0 < c z) l) 0));
  first_law st l : nodes st l -> t_first st = Some (hd 0 l);
  last_law st l : nodes st l -> t_last st = Some (List.last l 0);
  next_law st l1 x l2 : nodes st (l1 ++ x :: l2) -> t_next x st = Some (hd 0 l2);
  prev_law st l1 x l2 : nodes st (l1 ++ x :: l2) -> t_prev x st = Some (List.last l1 0) }.
