(* ===== verification/Tree.v ===== *)
(** Intrusive red-black trees: [libc/intrin/tree.c] and the searches of [tree.h].

    Memory maps addresses to the [struct Tree]s that live there; the state is that and the
    caller's [*root]. Every access goes through [load] and [store], which fail on NULL and on
    any address that holds no node, so a run that succeeds has dereferenced nothing else.
    Loops take fuel and also fail when it runs out. Addresses are even, which leaves the low
    bit of [word] for the colour. *)
From stdpp Require Export gmap.
From S2P Require Export Prelude.

(** * State *)

(** [struct Tree] *)
Record Tree := mkTree { word : Z; right : Z; parent : Z }.
Record TS := mkTS { root : Z; mem : gmap Z Tree }.

Definition M (A : Type) : Type := TS -> option (A * TS).
#[export] Instance M_ret : MRet M := fun A a s => Some (a, s).
#[export] Instance M_bind : MBind M := fun A B f m s => match m s with Some (a, s) => f a s | None => None end.
Definition fail {A} : M A := fun _ => None.

Definition load (p : Z) : M Tree := fun s => match mem s !! p with Some n => Some (n, s) | None => None end.
Definition store (p : Z) (n : Tree) : M unit := fun s =>
  match mem s !! p with Some _ => Some (tt, mkTS (root s) (<[p := n]> (mem s))) | None => None end.
Definition get_root : M Z := fun s => Some (root s, s).
Definition set_root (v : Z) : M unit := fun s => Some (tt, mkTS v (mem s)).

(** * Fields *)

Definition tree_get_left (p : Z) : M Z := n ← load p; mret (Z.land (word n) (-2)).
Definition tree_set_left (p left : Z) : M unit :=
  n ← load p; store p (mkTree (Z.lor left (Z.land (word n) 1)) (right n) (parent n)).
Definition tree_get_red (p : Z) : M Z := n ← load p; mret (Z.land (word n) 1).
Definition tree_set_red (p red : Z) : M unit :=
  n ← load p; store p (mkTree (Z.lor (Z.land (word n) (-2)) red) (right n) (parent n)).
Definition get_right (p : Z) : M Z := n ← load p; mret (right n).
Definition set_right (p v : Z) : M unit := n ← load p; store p (mkTree (word n) v (parent n)).
Definition get_parent (p : Z) : M Z := n ← load p; mret (parent n).
Definition set_parent (p v : Z) : M unit := n ← load p; store p (mkTree (word n) (right n) v).

Definition isred (p : Z) : M bool := r ← tree_get_red p; mret (negb (r =? 0)).
(** [!p || !tree_get_red(p)] *)
Definition isblack_or_null (p : Z) : M bool := if p =? 0 then mret true else b ← isred p; mret (negb b).
(** [p && tree_get_red(p)] *)
Definition isred_node (p : Z) : M bool := if p =? 0 then mret false else isred p.
Definition whenM (b : bool) (m : M unit) : M unit := if b then m else mret ().

(** * Walking *)

Fixpoint tree_last (fuel : nat) (node : Z) : M Z :=
  match fuel with
  | O => fail
  | S fuel =>
      if node =? 0 then mret node
      else r ← get_right node; if r =? 0 then mret node else tree_last fuel r
  end.
Fixpoint tree_first (fuel : nat) (node : Z) : M Z :=
  match fuel with
  | O => fail
  | S fuel =>
      if node =? 0 then mret node
      else l ← tree_get_left node; if l =? 0 then mret node else tree_first fuel l
  end.

(** [while (parent && node == parent->right)] *)
Fixpoint next_up (fuel : nat) (node parent : Z) : M Z :=
  match fuel with
  | O => fail
  | S fuel =>
      if parent =? 0 then mret parent
      else r ← get_right parent;
           if node =? r then pp ← get_parent parent; next_up fuel parent pp else mret parent
  end.
Definition tree_next (fuel : nat) (node : Z) : M Z :=
  if node =? 0 then mret 0
  else r ← get_right node;
       if negb (r =? 0) then tree_first fuel r
       else p ← get_parent node; next_up fuel node p.
Fixpoint prev_up (fuel : nat) (node parent : Z) : M Z :=
  match fuel with
  | O => fail
  | S fuel =>
      if parent =? 0 then mret parent
      else l ← tree_get_left parent;
           if node =? l then pp ← get_parent parent; prev_up fuel parent pp else mret parent
  end.
Definition tree_prev (fuel : nat) (node : Z) : M Z :=
  if node =? 0 then mret 0
  else l ← tree_get_left node;
       if negb (l =? 0) then tree_last fuel l
       else p ← get_parent node; prev_up fuel node p.

(** * Rotations *)

(** [if (!p) *root = v; else if (u == tree_get_left(p)) tree_set_left(p, v); else p->right = v;] *)
Definition replace_child (p u v : Z) : M unit :=
  if p =? 0 then set_root v
  else l ← tree_get_left p; if u =? l then tree_set_left p v else set_right p v.

Definition tree_rotate_left (x : Z) : M unit :=
  y ← get_right x;
  yl ← tree_get_left y;
  set_right x yl;;
  (yl ← tree_get_left y; whenM (negb (yl =? 0)) (set_parent yl x));;
  (xp ← get_parent x; set_parent y xp);;
  (xp ← get_parent x; replace_child xp x y);;
  tree_set_left y x;;
  set_parent x y.

(** The same with the test on the right child first. *)
Definition replace_child_r (p u v : Z) : M unit :=
  if p =? 0 then set_root v
  else r ← get_right p; if u =? r then set_right p v else tree_set_left p v.

Definition tree_rotate_right (y : Z) : M unit :=
  x ← tree_get_left y;
  xr ← get_right x;
  tree_set_left y xr;;
  (xr ← get_right x; whenM (negb (xr =? 0)) (set_parent xr y));;
  (yp ← get_parent y; set_parent x yp);;
  (yp ← get_parent y; replace_child_r yp y x);;
  set_parent y x;;
  set_right x y.

(** * Insertion *)

Fixpoint rebalance_insert_loop (fuel : nat) (node : Z) : M unit :=
  match fuel with
  | O => fail
  | S fuel =>
      rt ← get_root;
      go ← (if node =? rt then mret false else p ← get_parent node; isred p);
      if negb go then mret ()
      else
        p ← get_parent node;
        g ← get_parent p;
        gl ← tree_get_left g;
        if p =? gl then
          uncle ← get_right g;
          ur ← isred_node uncle;
          if ur : bool then
            tree_set_red p 0;; tree_set_red uncle 0;; tree_set_red g 1;;
            rebalance_insert_loop fuel g
          else
            pr ← get_right p;
            node ← (if node =? pr then tree_rotate_left p;; mret p else mret node);
            p ← get_parent node;
            tree_set_red p 0;;
            (p ← get_parent node; g ← get_parent p; tree_set_red g 1);;
            (p ← get_parent node; g ← get_parent p; tree_rotate_right g);;
            rebalance_insert_loop fuel node
        else
          uncle ← tree_get_left g;
          ur ← isred_node uncle;
          if ur : bool then
            tree_set_red p 0;; tree_set_red uncle 0;; tree_set_red g 1;;
            rebalance_insert_loop fuel g
          else
            pl ← tree_get_left p;
            node ← (if node =? pl then tree_rotate_right p;; mret p else mret node);
            p ← get_parent node;
            tree_set_red p 0;;
            (p ← get_parent node; g ← get_parent p; tree_set_red g 1);;
            (p ← get_parent node; g ← get_parent p; tree_rotate_left g);;
            rebalance_insert_loop fuel node
  end.
Definition tree_rebalance_insert (fuel : nat) (node : Z) : M unit :=
  tree_set_red node 1;;
  rebalance_insert_loop fuel node;;
  (rt ← get_root; tree_set_red rt 0).

(** [cmp] is the caller's comparison of nodes. *)
Section Cmp.
Variable cmp : Z -> Z -> Z.

(** The last value of [parent] in the descent from [search]. *)
Fixpoint insert_descend (fuel : nat) (node search : Z) : M Z :=
  match fuel with
  | O => fail
  | S fuel =>
      let parent := search in
      search ← (if cmp node search <? 0 then tree_get_left search else get_right search);
      if search =? 0 then mret parent else insert_descend fuel node search
  end.

Definition tree_insert (fuel : nat) (node : Z) : M unit :=
  (_ ← load node; store node (mkTree 0 0 0));;
  rt ← get_root;
  if rt =? 0 then set_root node
  else
    parent ← insert_descend fuel node rt;
    (if cmp node parent <? 0 then tree_set_left parent node else set_right parent node);;
    set_parent node parent;;
    tree_rebalance_insert fuel node.
End Cmp.

(** * Removal *)

Definition tree_transplant (u v : Z) : M unit :=
  (up ← get_parent u; replace_child up u v);;
  whenM (negb (v =? 0)) (up ← get_parent u; set_parent v up).

Fixpoint rebalance_remove_loop (fuel : nat) (node parent : Z) : M Z :=
  match fuel with
  | O => fail
  | S fuel =>
      rt ← get_root;
      go ← (if node =? rt then mret false else isblack_or_null node);
      if negb go then mret node
      else
        pl ← tree_get_left parent;
        if node =? pl then
          sibling ← get_right parent;
          sr ← isred sibling;
          sibling ← (if sr : bool then
                       tree_set_red sibling 0;; tree_set_red parent 1;; tree_rotate_left parent;; get_right parent
                     else mret sibling);
          sl ← tree_get_left sibling;
          lb ← isblack_or_null sl;
          bb ← (if lb : bool then r ← get_right sibling; isblack_or_null r else mret false);
          if bb : bool then
            tree_set_red sibling 1;;
            pp ← get_parent parent;
            rebalance_remove_loop fuel parent pp
          else
            r ← get_right sibling;
            rb ← isblack_or_null r;
            sibling ← (if rb : bool then
                         (l ← tree_get_left sibling; tree_set_red l 0);; tree_set_red sibling 1;;
                         tree_rotate_right sibling;; get_right parent
                       else mret sibling);
            (pc ← tree_get_red parent; tree_set_red sibling pc);;
            tree_set_red parent 0;;
            (r ← get_right sibling; tree_set_red r 0);;
            tree_rotate_left parent;;
            get_root
        else
          sibling ← tree_get_left parent;
          sr ← isred sibling;
          sibling ← (if sr : bool then
                       tree_set_red sibling 0;; tree_set_red parent 1;; tree_rotate_right parent;; tree_get_left parent
                     else mret sibling);
          sr' ← get_right sibling;
          rb ← isblack_or_null sr';
          bb ← (if rb : bool then l ← tree_get_left sibling; isblack_or_null l else mret false);
          if bb : bool then
            tree_set_red sibling 1;;
            pp ← get_parent parent;
            rebalance_remove_loop fuel parent pp
          else
            l ← tree_get_left sibling;
            lb ← isblack_or_null l;
            sibling ← (if lb : bool then
                         (r ← get_right sibling; tree_set_red r 0);; tree_set_red sibling 1;;
                         tree_rotate_left sibling;; tree_get_left parent
                       else mret sibling);
            (pc ← tree_get_red parent; tree_set_red sibling pc);;
            tree_set_red parent 0;;
            (l ← tree_get_left sibling; tree_set_red l 0);;
            tree_rotate_right parent;;
            get_root
  end.
Definition tree_rebalance_remove (fuel : nat) (node parent : Z) : M unit :=
  node ← rebalance_remove_loop fuel node parent;
  whenM (negb (node =? 0)) (tree_set_red node 0).

Definition tree_remove (fuel : nat) (node : Z) : M unit :=
  color ← tree_get_red node;
  l ← tree_get_left node;
  r ← get_right node;
  '(color, x, x_parent) ←
    (if l =? 0 then
       tree_transplant node r;; (p ← get_parent node; mret (color, r, p))
     else if r =? 0 then
       tree_transplant node l;; (p ← get_parent node; mret (color, l, p))
     else
       y ← tree_first fuel r;
       color ← tree_get_red y;
       x ← get_right y;
       yp ← get_parent y;
       x_parent ← (if yp =? node then whenM (negb (x =? 0)) (set_parent x y);; mret y
                   else
                     tree_transplant y x;;
                     (nr ← get_right node; set_right y nr);;
                     (yr ← get_right y; set_parent yr y);;
                     get_parent y);
       tree_transplant node y;;
       (nl ← tree_get_left node; tree_set_left y nl);;
       (yl ← tree_get_left y; set_parent yl y);;
       (nc ← tree_get_red node; tree_set_red y nc);;
       mret (color, x, x_parent));
  whenM (color =? 0) (tree_rebalance_remove fuel x x_parent).

(** * Searches of tree.h; [c node] is the sign of [cmp(key, node)] *)

Section Search.
Variable c : Z -> Z.
Fixpoint tree_get (fuel : nat) (node : Z) : M Z :=
  match fuel with
  | O => fail
  | S fuel =>
      if node =? 0 then mret 0
      else if c node <? 0 then l ← tree_get_left node; tree_get fuel l
      else if 0 <? c node then r ← get_right node; tree_get fuel r
      else mret node
  end.
Fixpoint tree_floor (fuel : nat) (node left : Z) : M Z :=
  match fuel with
  | O => fail
  | S fuel =>
      if node =? 0 then mret left
      else if c node <? 0 then l ← tree_get_left node; tree_floor fuel l left
      else if 0 <? c node then r ← get_right node; tree_floor fuel r node
      else mret node
  end.
Fixpoint tree_lower (fuel : nat) (node left : Z) : M Z :=
  match fuel with
  | O => fail
  | S fuel =>
      if node =? 0 then mret left
      else if c node <=? 0 then l ← tree_get_left node; tree_lower fuel l node
      else r ← get_right node; tree_lower fuel r left
  end.
Fixpoint tree_ceil (fuel : nat) (node left : Z) : M Z :=
  match fuel with
  | O => fail
  | S fuel =>
      if node =? 0 then mret left
      else if c node <? 0 then l ← tree_get_left node; tree_ceil fuel l node
      else r ← get_right node; tree_ceil fuel r left
  end.
End Search.
