(* ===== verification/TreeFacts.v ===== *)
(** Red-black trees in memory: what a heap represents, and the effect of the field
    operations and rotations on it. *)
From S2P Require Import Prelude Tree.
From stdpp Require Import list gmap.
#[local] Open Scope Z_scope.

(** * Abstract trees *)

Inductive tree :=
| E : tree
| T (red : bool) (l : tree) (x : Z) (r : tree).
Definition addr (t : tree) : Z := match t with E => 0 | T _ _ x _ => x end.
Fixpoint inorder (t : tree) : list Z :=
  match t with E => [] | T _ l x r => inorder l ++ x :: inorder r end.
Fixpoint depth (t : tree) : nat := match t with E => 0 | T _ l _ r => S (Nat.max (depth l) (depth r)) end.

(** A context: the path from a subtree up to the root. [FL] is a node whose left subtree has
    the hole. *)
Inductive frame :=
| FL (red : bool) (x : Z) (r : tree)
| FR (red : bool) (l : tree) (x : Z).
Definition ctx := list frame.
Definition plug1 (f : frame) (t : tree) : tree :=
  match f with FL c x r => T c t x r | FR c l x => T c l x t end.
Fixpoint plug (k : ctx) (t : tree) : tree := match k with [] => t | f :: k => plug k (plug1 f t) end.
Definition faddr (f : frame) : Z := match f with FL _ x _ => x | FR _ _ x => x end.
Definition caddr (k : ctx) : Z := match k with [] => 0 | f :: _ => faddr f end.
(** The nodes before and after the hole, in order. *)
Fixpoint before (k : ctx) : list Z :=
  match k with [] => [] | FL _ _ _ :: k => before k | FR _ l x :: k => before k ++ inorder l ++ [x] end.
Fixpoint after (k : ctx) : list Z :=
  match k with [] => [] | FL _ x r :: k => x :: inorder r ++ after k | FR _ _ _ :: k => after k end.

Lemma inorder_plug k : forall t, inorder (plug k t) = before k ++ inorder t ++ after k.
Proof.
  induction k as [|[c x r|c l x] k IH]; intros t; cbn [plug before after plug1]; [by rewrite app_nil_r| |];
    rewrite IH; cbn [inorder]; rewrite <- !app_assoc; done.
Qed.
Lemma plug_app k1 k2 t : plug (k1 ++ k2) t = plug k2 (plug k1 t).
Proof. revert t. induction k1 as [|f k1 IH]; intros t; [done|]. apply IH. Qed.

(** * Representation *)

Definition cell (l : Z) (red : bool) (r p : Z) : Tree := mkTree (l + Z.b2z red) r p.

Fixpoint rep (m : gmap Z Tree) (p : Z) (t : tree) : Prop :=
  match t with
  | E => True
  | T c l x r => m !! x = Some (cell (addr l) c (addr r) p) /\ rep m x l /\ rep m x r
  end.
Fixpoint repk (m : gmap Z Tree) (a : Z) (k : ctx) : Prop :=
  match k with
  | [] => True
  | FL c x r :: k => m !! x = Some (cell a c (addr r) (caddr k)) /\ rep m x r /\ repk m x k
  | FR c l x :: k => m !! x = Some (cell (addr l) c a (caddr k)) /\ rep m x l /\ repk m x k
  end.
Definition good_addr (a : Z) : Prop := 0 < a /\ a mod 2 = 0.
Definition good (l : list Z) : Prop := NoDup l /\ Forall good_addr l.

(** The state holds the tree [plug k t], the subtree [t] is in focus, and memory outside of
    the tree is as in [F]. *)
Definition R (F : gmap Z Tree) (s : TS) (k : ctx) (t : tree) : Prop :=
  rep (mem s) (caddr k) t /\ repk (mem s) (addr t) k /\ root s = addr (plug k t) /\ good (inorder (plug k t)) /\
  forall z, z ∉ inorder (plug k t) -> mem s !! z = F !! z.


Lemma R_down_left F s k c l x r : R F s k (T c l x r) <-> R F s (FL c x r :: k) l.
Proof. unfold R. cbn [rep repk plug plug1 caddr faddr addr]. tauto. Qed.
Lemma R_down_right F s k c l x r : R F s k (T c l x r) <-> R F s (FR c l x :: k) r.
Proof. unfold R. cbn [rep repk plug plug1 caddr faddr addr]. tauto. Qed.
Lemma R_plug F s k1 : forall k t, R F s (k1 ++ k) t <-> R F s k (plug k1 t).
Proof.
  induction k1 as [|[c x r|c l x] k1 IH]; intros k t; cbn [app plug plug1]; [done| |];
    rewrite <- IH; [by rewrite R_down_left|by rewrite R_down_right].
Qed.

Lemma good_of_R F s k t : R F s k t -> good (inorder t).
Proof.
  intros (_ & _ & _ & (Hn & Hf) & _). rewrite inorder_plug in Hn, Hf. apply NoDup_app in Hn as (_ & _ & Hn). apply NoDup_app in Hn as (Hn & _).
  apply Forall_app in Hf as [_ Hf]. apply Forall_app in Hf as [Hf _]. done.
Qed.
Lemma good_children l x r : good (inorder l ++ x :: inorder r) -> good (inorder l) /\ good (inorder r) /\ good_addr x.
Proof.
  intros [Hn Hf]. cbn in *. apply NoDup_app in Hn as (Hl & _ & Hr). apply NoDup_cons in Hr as [_ Hr].
  apply Forall_app in Hf as [Hfl Hfr]. apply Forall_cons in Hfr as [Hx Hfr]. done.
Qed.
Lemma addr_good t : good (inorder t) -> t <> E -> good_addr (addr t).
Proof. intros [_ Hf] Ht. destruct t; [done|]. cbn in *. apply Forall_app in Hf as [_ Hf]. by inversion Hf. Qed.
Lemma addr_even t : good (inorder t) -> addr t mod 2 = 0.
Proof. intros H. destruct t; [done|]. by destruct (addr_good (T red t1 x t2) H ltac:(done)). Qed.
Lemma addr_zero t : good (inorder t) -> (addr t =? 0) = match t with E => true | _ => false end.
Proof. intros H. destruct t; [done|]. destruct (addr_good (T red t1 x t2) H ltac:(done)) as [? _]. cbn in *. lia. Qed.

(** ** Fields of a cell *)

Lemma cell_left a c : a mod 2 = 0 -> Z.land (a + Z.b2z c) (-2) = a.
Proof.
  intros Ha. change (-2) with (Z.lnot 1). rewrite <- Z.ldiff_land. change 1 with (Z.ones 1). rewrite Z.ldiff_ones_r by lia.
  rewrite shiftr_div, shiftl_mul by lia. destruct c; cbn [Z.b2z]; lia.
Qed.
Lemma cell_red a c : a mod 2 = 0 -> Z.land (a + Z.b2z c) 1 = Z.b2z c.
Proof. intros Ha. change 1 with (2 ^ 1 - 1). rewrite land_mask by lia. destruct c; cbn [Z.b2z]; lia. Qed.
Lemma cell_join a c : a mod 2 = 0 -> Z.lor a (Z.b2z c) = a + Z.b2z c.
Proof. intros Ha. rewrite (lor_high_low _ _ 1); [done|lia|destruct c; cbn; lia|done]. Qed.

Section Fields.
Context (s : TS) (p l r q : Z) (c : bool) (Hp : mem s !! p = Some (cell l c r q)) (Hl : l mod 2 = 0).
Lemma get_left_ok : tree_get_left p s = Some (l, s).
Proof. unfold tree_get_left, mbind, M_bind, load. rewrite Hp. cbn. by rewrite cell_left. Qed.
Lemma get_red_ok : tree_get_red p s = Some (Z.b2z c, s).
Proof. unfold tree_get_red, mbind, M_bind, load. rewrite Hp. cbn. by rewrite cell_red. Qed.
Lemma isred_ok : isred p s = Some (c, s).
Proof. unfold isred, mbind, M_bind. rewrite get_red_ok. by destruct c. Qed.
Lemma get_right_ok : get_right p s = Some (r, s).
Proof. unfold get_right, mbind, M_bind, load. by rewrite Hp. Qed.
Lemma get_parent_ok : get_parent p s = Some (q, s).
Proof. unfold get_parent, mbind, M_bind, load. by rewrite Hp. Qed.
Lemma set_left_ok v : v mod 2 = 0 -> tree_set_left p v s = Some (tt, mkTS (root s) (<[p := cell v c r q]> (mem s))).
Proof.
  intros Hv. unfold tree_set_left, mbind, M_bind, load, store. rewrite Hp. cbn. rewrite Hp, cell_red, cell_join by done. done.
Qed.
Lemma set_red_ok b : tree_set_red p (Z.b2z b) s = Some (tt, mkTS (root s) (<[p := cell l b r q]> (mem s))).
Proof.
  unfold tree_set_red, mbind, M_bind, load, store. rewrite Hp. cbn. rewrite Hp, cell_left, cell_join by done. done.
Qed.
Lemma set_right_ok v : set_right p v s = Some (tt, mkTS (root s) (<[p := cell l c v q]> (mem s))).
Proof. unfold set_right, mbind, M_bind, load, store. rewrite Hp. cbn. by rewrite Hp. Qed.
Lemma set_parent_ok v : set_parent p v s = Some (tt, mkTS (root s) (<[p := cell l c r v]> (mem s))).
Proof. unfold set_parent, mbind, M_bind, load, store. rewrite Hp. cbn. by rewrite Hp. Qed.
End Fields.

Lemma bind_ok {A B} (m : M A) (f : A -> M B) s a s' : m s = Some (a, s') -> (m ≫= f) s = f a s'.
Proof. intros H. unfold mbind, M_bind. by rewrite H. Qed.
Lemma isred_node_ok s par t : good (inorder t) -> rep (mem s) par t ->
  isred_node (addr t) s = Some (match t with T c _ _ _ => c | E => false end, s).
Proof.
  intros Hg Hr. unfold isred_node. rewrite addr_zero by done. destruct t as [|c l x r]; [done|]. destruct Hr as (H & _).
  apply (isred_ok _ _ _ _ _ _ H). by apply addr_even, (good_children _ _ _ Hg).
Qed.
Lemma isblack_ok s par t : good (inorder t) -> rep (mem s) par t ->
  isblack_or_null (addr t) s = Some (match t with T c _ _ _ => negb c | E => true end, s).
Proof.
  intros Hg Hr. unfold isblack_or_null. rewrite addr_zero by done. destruct t as [|c l x r]; [done|]. destruct Hr as (H & _).
  erewrite bind_ok; [|apply (isred_ok _ _ _ _ _ _ H); by apply addr_even, (good_children _ _ _ Hg)]. done.
Qed.

(** ** Writes elsewhere *)

Lemma rep_insert m p t a v : a ∉ inorder t -> rep m p t -> rep (<[a := v]> m) p t.
Proof.
  revert p. induction t as [|c l IHl x r IHr]; intros p Ha Hr; [done|]. cbn in *. rewrite elem_of_app, elem_of_cons in Ha.
  destruct Hr as (H & Hl & Hr). rewrite lookup_insert_ne by tauto. split; [done|]. split; [apply IHl|apply IHr]; tauto.
Qed.
Fixpoint kelems (k : ctx) : list Z :=
  match k with [] => [] | FL _ x r :: k => x :: inorder r ++ kelems k | FR _ l x :: k => x :: inorder l ++ kelems k end.
Lemma repk_insert m b k a v : a ∉ kelems k -> repk m b k -> repk (<[a := v]> m) b k.
Proof.
  revert b. induction k as [|[c x r|c l x] k IH]; intros b Ha Hk; [done| |]; cbn in *; rewrite elem_of_cons, elem_of_app in Ha;
    destruct Hk as (H & Hl & Hr); (rewrite lookup_insert_ne by tauto); (split; [done|]); split; [apply rep_insert|apply IH|apply rep_insert|apply IH]; tauto.
Qed.
Lemma inorder_plug_perm k t : inorder (plug k t) ≡ₚ inorder t ++ kelems k.
Proof.
  rewrite inorder_plug. induction k as [|[c x r|c l x] k IH]; cbn; [by rewrite !app_nil_r| |].
  - trans (x :: inorder r ++ (before k ++ inorder t ++ after k)); [solve_Permutation|]. rewrite IH. solve_Permutation.
  - trans (x :: inorder l ++ (before k ++ inorder t ++ after k)); [solve_Permutation|]. rewrite IH. solve_Permutation.
Qed.

(** * Running operations *)

(** The operation succeeds and its result and final state satisfy [Q]. *)
Definition wp {A} (m : M A) (s : TS) (Q : A -> TS -> Prop) : Prop :=
  match m s with Some (a, s') => Q a s' | None => False end.

Lemma wp_bind {A B} (m : M A) (f : A -> M B) s Q : wp m s (fun a s' => wp (f a) s' Q) -> wp (m ≫= f) s Q.
Proof. unfold wp, mbind, M_bind. by destruct (m s) as [[a s']|]. Qed.
Lemma wp_ret {A} (a : A) s (Q : A -> TS -> Prop) : Q a s -> wp (mret a) s Q.
Proof. done. Qed.
Lemma wp_mono {A} (m : M A) s (Q Q' : A -> TS -> Prop) : wp m s Q -> (forall a s', Q a s' -> Q' a s') -> wp m s Q'.
Proof. unfold wp. destruct (m s) as [[a s']|]; auto. Qed.
Lemma wp_elim {A} (m : M A) s (Q : A -> TS -> Prop) : wp m s Q <-> exists a s', m s = Some (a, s') /\ Q a s'.
Proof. unfold wp. destruct (m s) as [[a s']|]; split; [by eauto|by intros (? & ? & [= <- <-] & ?)|done|by intros (? & ? & ? & ?)]. Qed.
Lemma wp_get_root s (Q : Z -> TS -> Prop) : Q (root s) s -> wp get_root s Q.
Proof. done. Qed.
Lemma wp_set_root v s (Q : unit -> TS -> Prop) : Q tt (mkTS v (mem s)) -> wp (set_root v) s Q.
Proof. done. Qed.

Section WpFields.
Context (s : TS) (p l r q : Z) (c : bool).
Lemma wp_get_left (Q : Z -> TS -> Prop) : mem s !! p = Some (cell l c r q) -> l mod 2 = 0 -> Q l s -> wp (tree_get_left p) s Q.
Proof. intros. unfold wp. by erewrite get_left_ok. Qed.
Lemma wp_get_red (Q : Z -> TS -> Prop) : mem s !! p = Some (cell l c r q) -> l mod 2 = 0 -> Q (Z.b2z c) s -> wp (tree_get_red p) s Q.
Proof. intros. unfold wp. by erewrite get_red_ok. Qed.
Lemma wp_isred (Q : bool -> TS -> Prop) : mem s !! p = Some (cell l c r q) -> l mod 2 = 0 -> Q c s -> wp (isred p) s Q.
Proof. intros. unfold wp. by erewrite isred_ok. Qed.
Lemma wp_get_right (Q : Z -> TS -> Prop) : mem s !! p = Some (cell l c r q) -> Q r s -> wp (get_right p) s Q.
Proof. intros. unfold wp. by erewrite get_right_ok. Qed.
Lemma wp_get_parent (Q : Z -> TS -> Prop) : mem s !! p = Some (cell l c r q) -> Q q s -> wp (get_parent p) s Q.
Proof. intros. unfold wp. by erewrite get_parent_ok. Qed.
Lemma wp_set_left v (Q : unit -> TS -> Prop) : mem s !! p = Some (cell l c r q) -> l mod 2 = 0 -> v mod 2 = 0 ->
  Q tt (mkTS (root s) (<[p := cell v c r q]> (mem s))) -> wp (tree_set_left p v) s Q.
Proof. intros. unfold wp. by erewrite set_left_ok. Qed.
Lemma wp_set_red (b : bool) (Q : unit -> TS -> Prop) : mem s !! p = Some (cell l c r q) -> l mod 2 = 0 ->
  Q tt (mkTS (root s) (<[p := cell l b r q]> (mem s))) -> wp (tree_set_red p (Z.b2z b)) s Q.
Proof. intros. unfold wp. by erewrite set_red_ok. Qed.
Lemma wp_set_right v (Q : unit -> TS -> Prop) : mem s !! p = Some (cell l c r q) ->
  Q tt (mkTS (root s) (<[p := cell l c v q]> (mem s))) -> wp (set_right p v) s Q.
Proof. intros. unfold wp. by erewrite set_right_ok. Qed.
Lemma wp_set_parent v (Q : unit -> TS -> Prop) : mem s !! p = Some (cell l c r q) ->
  Q tt (mkTS (root s) (<[p := cell l c r v]> (mem s))) -> wp (set_parent p v) s Q.
Proof. intros. unfold wp. by erewrite set_parent_ok. Qed.
End WpFields.

(** Finds the cell at an address after the writes so far. *)
Ltac apart := first [assumption | congruence | solve [eauto 3]].
(** Follows an address through the writes. *)
Ltac chase :=
  repeat match goal with
  | H : forall z, z ∉ _ -> ?m !! z = _ |- context [?m !! ?z] => is_var m; rewrite (H z) by apart
  | H : forall z, z ∉ _ -> mem ?s !! z = _ |- context [mem ?s !! ?z] => is_var s; rewrite (H z) by apart
  | |- context [<[?a := _]> _ !! ?z] => rewrite (lookup_insert_ne _ a z) by apart
  end.
Ltac look := cbn [mem root]; first [eassumption | chase; first [rewrite lookup_insert_eq; reflexivity | eassumption]].
Ltac ev := first [eassumption | reflexivity | apply addr_even; assumption | unfold good_addr in *; lia].

(** One operation on a cell that is known. *)
Ltac step :=
  match goal with
  | |- wp (_ ≫= _) _ _ => apply wp_bind
  | |- wp (mret _) _ _ => apply wp_ret
  | |- wp get_root _ _ => apply wp_get_root
  | |- wp (set_root _) _ _ => apply wp_set_root
  | |- wp (tree_get_left _) _ _ => eapply wp_get_left; [look|ev|]
  | |- wp (tree_get_red _) _ _ => eapply wp_get_red; [look|ev|]
  | |- wp (isred _) _ _ => eapply wp_isred; [look|ev|]
  | |- wp (get_right _) _ _ => eapply wp_get_right; [look|]
  | |- wp (get_parent _) _ _ => eapply wp_get_parent; [look|]
  | |- wp (tree_set_left _ _) _ _ => eapply wp_set_left; [look|ev|ev|]
  | |- wp (tree_set_red _ 0) _ _ => eapply (wp_set_red _ _ _ _ _ _ false); [look|ev|]
  | |- wp (tree_set_red _ 1) _ _ => eapply (wp_set_red _ _ _ _ _ _ true); [look|ev|]
  | |- wp (tree_set_red _ (Z.b2z _)) _ _ => eapply wp_set_red; [look|ev|]
  | |- wp (set_right _ _) _ _ => eapply wp_set_right; [look|]
  | |- wp (set_parent _ _) _ _ => eapply wp_set_parent; [look|]
  end; cbn [mem root].

(** ** Pieces of a tree under writes *)

Lemma rep_frame m m' p t : (forall z, z ∈ inorder t -> m' !! z = m !! z) -> rep m p t -> rep m' p t.
Proof.
  revert p. induction t as [|c l IHl x r IHr]; intros p Hm Hr; [done|]. cbn in *. destruct Hr as (H & Hl & Hr).
  split; [rewrite Hm; [done|set_solver]|]. split; [apply IHl|apply IHr]; try done; intros z Hz; apply Hm; set_solver.
Qed.
Lemma repk_frame m m' b k : (forall z, z ∈ kelems k -> m' !! z = m !! z) -> repk m b k -> repk m' b k.
Proof.
  revert b. induction k as [|[c x r|c l x] k IH]; intros b Hm Hk; [done| |]; cbn in *; destruct Hk as (H & Hl & Hr);
    (split; [rewrite Hm; [done|set_solver]|]); (split; [eapply rep_frame; [|done]|apply IH; [|done]]); intros z Hz; apply Hm; set_solver.
Qed.

(** A subtree gets a new parent. *)
Lemma wp_reparent s p b v (Q : unit -> TS -> Prop) : rep (mem s) p b -> good (inorder b) ->
  (forall m', rep m' v b -> (forall z, z ∉ inorder b -> m' !! z = mem s !! z) -> Q tt (mkTS (root s) m')) ->
  wp (whenM (negb (addr b =? 0)) (set_parent (addr b) v)) s Q.
Proof.
  intros Hr Hg HQ. rewrite addr_zero by done. destruct b as [|c l x r]; cbn [negb whenM].
  - step. destruct s as [rt m]. apply HQ; done.
  - destruct Hr as (Hx & Hl & Hr). destruct Hg as [Hn _]. cbn [inorder] in *. apply NoDup_app in Hn as (_ & Hn1 & Hn2).
    apply NoDup_cons in Hn2 as [Hn2 _]. cbn [addr]. step. apply HQ.
    + cbn. rewrite lookup_insert_eq. split; [done|]. split; apply rep_insert; set_solver.
    + intros z Hz. rewrite lookup_insert_ne; [done|]. set_solver.
Qed.

Definition sib (f : frame) : tree := match f with FL _ _ r => r | FR _ l _ => l end.
Lemma good_kelems_cons f k : good (kelems (f :: k)) ->
  good_addr (faddr f) /\ good (inorder (sib f)) /\ good (kelems k) /\
  faddr f ∉ inorder (sib f) /\ faddr f ∉ kelems k /\
  (forall z, z ∈ inorder (sib f) -> z ∉ kelems k).
Proof.
  intros [Hn Hf]. destruct f; cbn in *; apply NoDup_cons in Hn as [Hx Hn]; apply NoDup_app in Hn as (H1 & H2 & H3);
    apply Forall_cons in Hf as [Hfx Hf]; apply Forall_app in Hf as [Hf1 Hf2]; rewrite not_elem_of_app in Hx; unfold good; tauto.
Qed.

(** A subtree is replaced under its parent. *)
Lemma wp_replace_child s k u v (Q : unit -> TS -> Prop) :
  repk (mem s) u k -> good (kelems k) -> u ∉ kelems k -> u <> 0 -> u mod 2 = 0 -> v mod 2 = 0 ->
  (forall s', repk (mem s') v k -> (forall z, z ∉ kelems k -> mem s' !! z = mem s !! z) ->
     root s' = (match k with [] => v | _ => root s end) -> Q tt s') ->
  wp (replace_child (caddr k) u v) s Q.
Proof.
  intros Hk Hg Hu Hu0 Hue Hve HQ. unfold replace_child. destruct k as [|f k].
  - cbn [caddr Z.eqb]. step. by apply HQ.
  - destruct (good_kelems_cons f k Hg) as (Hx & Hs & Hgk & Hx1 & Hx2 & Hx3). cbn [caddr].
    rewrite (proj2 (Z.eqb_neq _ _)) by (unfold good_addr in *; lia).
    destruct f as [c x r|c l x]; cbn in Hk, Hx, Hs, Hx1, Hx2, Hx3, Hu |- *; destruct Hk as (Hkx & Hsib & Hk).
    + repeat step. rewrite Z.eqb_refl. step. apply HQ; cbn; [|intros z Hz; apply lookup_insert_ne; set_solver|done].
      rewrite lookup_insert_eq. split; [done|]. split; [by apply rep_insert|by apply repk_insert].
    + repeat step. rewrite (proj2 (Z.eqb_neq u _)).
      * step. apply HQ; cbn; [|intros z Hz; apply lookup_insert_ne; set_solver|done].
        rewrite lookup_insert_eq. split; [done|]. split; [by apply rep_insert|by apply repk_insert].
      * intros ->. destruct l as [|? ? y ?]; [done|]. apply Hu. cbn. set_solver.
Qed.

Lemma wp_replace_child_r s k u v (Q : unit -> TS -> Prop) :
  repk (mem s) u k -> good (kelems k) -> u ∉ kelems k -> u <> 0 -> u mod 2 = 0 -> v mod 2 = 0 ->
  (forall s', repk (mem s') v k -> (forall z, z ∉ kelems k -> mem s' !! z = mem s !! z) ->
     root s' = (match k with [] => v | _ => root s end) -> Q tt s') ->
  wp (replace_child_r (caddr k) u v) s Q.
Proof.
  intros Hk Hg Hu Hu0 Hue Hve HQ. unfold replace_child_r. destruct k as [|f k].
  - cbn [caddr Z.eqb]. step. by apply HQ.
  - destruct (good_kelems_cons f k Hg) as (Hx & Hs & Hgk & Hx1 & Hx2 & Hx3). cbn [caddr].
    rewrite (proj2 (Z.eqb_neq _ _)) by (unfold good_addr in *; lia).
    destruct f as [c x r|c l x]; cbn in Hk, Hx, Hs, Hx1, Hx2, Hx3, Hu |- *; destruct Hk as (Hkx & Hsib & Hk).
    + repeat step. rewrite (proj2 (Z.eqb_neq u _)).
      * step. apply HQ; cbn; [|intros z Hz; apply lookup_insert_ne; set_solver|done].
        rewrite lookup_insert_eq. split; [done|]. split; [by apply rep_insert|by apply repk_insert].
      * intros ->. destruct r as [|? ? y ?]; [done|]. apply Hu. cbn. set_solver.
    + repeat step. rewrite Z.eqb_refl. step. apply HQ; cbn; [|intros z Hz; apply lookup_insert_ne; set_solver|done].
      rewrite lookup_insert_eq. split; [done|]. split; [by apply rep_insert|by apply repk_insert].
Qed.

(** ** Rotations *)

Lemma addr_plug_indep f k t t' : addr (plug (f :: k) t) = addr (plug (f :: k) t').
Proof. revert f t t'. induction k as [|g k IH]; intros f t t'; [by destruct f|]. apply (IH g). Qed.
Lemma addr_plug_top k t : addr (plug k t) = match k with [] => addr t | _ => addr (plug k E) end.
Proof. destruct k; [done|]. apply addr_plug_indep. Qed.

(** What [R] says of the whole tree, with the focus and the context apart. *)
Lemma R_parts F s k t : R F s k t <->
  rep (mem s) (caddr k) t /\ repk (mem s) (addr t) k /\ root s = (match k with [] => addr t | _ => addr (plug k E) end) /\
  good (inorder t) /\ good (kelems k) /\ (forall z, z ∈ inorder t -> z ∉ kelems k) /\
  forall z, z ∉ inorder t -> z ∉ kelems k -> mem s !! z = F !! z.
Proof.
  unfold R, good. rewrite <- addr_plug_top. rewrite inorder_plug_perm, NoDup_app, Forall_app.
  assert ((forall z, z ∉ inorder (plug k t) -> mem s !! z = F !! z) <-> (forall z, z ∉ inorder t -> z ∉ kelems k -> mem s !! z = F !! z)) as ->.
  { split; intros H z; specialize (H z); rewrite inorder_plug_perm, not_elem_of_app in *; tauto. }
  tauto.
Qed.
Lemma nodup_perm {A} (l l' : list A) : NoDup l -> l ≡ₚ l' -> NoDup l'.
Proof. by intros H <-. Qed.
Definition off (l m : list Z) : Prop := forall z, z ∈ l -> z ∉ m.
Lemma off_sym l m : off l m -> off m l.
Proof. intros H z Hz Hl. by apply (H z). Qed.

(** Two neighbouring nodes and the three subtrees around them are apart, and apart from
    the rest. *)
Lemma triple_facts a x b y e K : NoDup (a ++ x :: b ++ y :: e) -> off (a ++ x :: b ++ y :: e) K ->
  (x <> y /\ x ∉ a /\ x ∉ b /\ x ∉ e /\ x ∉ K) /\ (y ∉ a /\ y ∉ b /\ y ∉ e /\ y ∉ K) /\
  (off a b /\ off a e /\ off b e) /\ (off a K /\ off b K /\ off e K).
Proof.
  intros Hn Hk. assert (NoDup (x :: y :: a ++ b ++ e)) as Hn' by (apply (nodup_perm _ _ Hn); solve_Permutation). clear Hn.
  rewrite !NoDup_cons, !not_elem_of_cons, !not_elem_of_app, !NoDup_app in Hn'. destruct Hn' as ((Hxy & Hxa & Hxb & Hxe) & (Hya & Hyb & Hye) & _ & Hab & _ & Hbe & _).
  unfold off in *. split_and!; try done; try (intros z Hz; specialize (Hab z Hz); set_solver +Hab);
    try (apply Hk; rewrite ?elem_of_app, ?elem_of_cons, ?elem_of_app, ?elem_of_cons; tauto);
    intros z Hz; apply Hk; rewrite ?elem_of_app, ?elem_of_cons, ?elem_of_app, ?elem_of_cons; tauto.
Qed.
#[local] Hint Unfold off : core.

Lemma rotate_left_ok F s k c a x d b y e (Q : unit -> TS -> Prop) :
  R F s k (T c a x (T d b y e)) -> (forall s', R F s' k (T d (T c a x b) y e) -> Q tt s') -> wp (tree_rotate_left x) s Q.
Proof.
  intros HR HQ. apply R_parts in HR as ((Hx & Ha & Hy & Hb & He) & Hk & Hrt & Hg & Hgk & Hd & HF). cbn [inorder addr] in *.
  assert (good (inorder a) /\ good (inorder b) /\ good (inorder e) /\ good_addr x /\ good_addr y) as (Hga & Hgb & Hge & Hgx & Hgy).
  { pose proof (good_children a x (T d b y e) Hg) as (? & H & ?). apply good_children in H. tauto. }
  destruct (triple_facts _ _ _ _ _ _ (proj1 Hg) Hd) as ((? & ? & ? & ? & ?) & (? & ? & ? & ?) & (Hab & Hae & Hbe) & (HaK & HbK & HeK)).
  pose proof (off_sym _ _ Hab). pose proof (off_sym _ _ Hae). pose proof (off_sym _ _ Hbe). pose proof (off_sym _ _ HbK).
  unfold tree_rotate_left. repeat step. eapply wp_reparent; [apply rep_insert; eassumption|done|]. intros m1 Hb1 Hm1.
  cbn [mem root] in *. repeat step.
  apply wp_replace_child; [|done|done|unfold good_addr in *; lia|ev|ev|].
  { cbn [mem]. eapply repk_frame; [|exact Hk]. intros z Hz. chase. done. }
  intros s2 Hk2 Hm2 Hr2. cbn [mem root] in *. repeat step. apply HQ. apply R_parts. cbn [rep repk addr caddr mem root inorder].
  rewrite <- app_assoc. cbn [app]. split_and!; try done.
  - chase. by rewrite lookup_insert_eq.
  - by rewrite lookup_insert_eq.
  - eapply rep_frame; [|exact Ha]. intros z Hz. by chase.
  - eapply rep_frame; [|exact Hb1]. intros z Hz. by chase.
  - eapply rep_frame; [|exact He]. intros z Hz. by chase.
  - by apply repk_insert, repk_insert.
  - rewrite Hr2. destruct k; [done|]. exact Hrt.
  - intros z Hz1 Hz2. rewrite <- (HF z Hz1 Hz2). rewrite !not_elem_of_app, !not_elem_of_cons, !not_elem_of_app, !not_elem_of_cons in Hz1.
    destruct Hz1 as (? & ? & ? & ? & ?). by chase.
Qed.

Lemma rotate_right_ok F s k c a x d b y e (Q : unit -> TS -> Prop) :
  R F s k (T d (T c a x b) y e) -> (forall s', R F s' k (T c a x (T d b y e)) -> Q tt s') -> wp (tree_rotate_right y) s Q.
Proof.
  intros HR HQ. apply R_parts in HR as ((Hy & (Hx & Ha & Hb) & He) & Hk & Hrt & Hg & Hgk & Hd & HF). cbn [inorder addr] in *.
  assert (good (inorder a) /\ good (inorder b) /\ good (inorder e) /\ good_addr x /\ good_addr y) as (Hga & Hgb & Hge & Hgx & Hgy).
  { pose proof (good_children (T c a x b) y e Hg) as (H & ? & ?). apply good_children in H. tauto. }
  rewrite <- app_assoc in *. cbn [app] in *.
  destruct (triple_facts _ _ _ _ _ _ (proj1 Hg) Hd) as ((? & ? & ? & ? & ?) & (? & ? & ? & ?) & (Hab & Hae & Hbe) & (HaK & HbK & HeK)).
  pose proof (off_sym _ _ Hab). pose proof (off_sym _ _ Hae). pose proof (off_sym _ _ Hbe). pose proof (off_sym _ _ HbK).
  unfold tree_rotate_right. repeat step. eapply wp_reparent; [apply rep_insert; eassumption|done|]. intros m1 Hb1 Hm1.
  cbn [mem root] in *. repeat step.
  apply wp_replace_child_r; [|done|done|unfold good_addr in *; lia|ev|ev|].
  { cbn [mem]. eapply repk_frame; [|exact Hk]. intros z Hz. chase. done. }
  intros s2 Hk2 Hm2 Hr2. cbn [mem root] in *. repeat step. apply HQ. apply R_parts. cbn [rep repk addr caddr mem root inorder].
  split_and!; try done.
  - by rewrite lookup_insert_eq.
  - eapply rep_frame; [|exact Ha]. intros z Hz. by chase.
  - chase. by rewrite lookup_insert_eq.
  - eapply rep_frame; [|exact Hb1]. intros z Hz. by chase.
  - eapply rep_frame; [|exact He]. intros z Hz. by chase.
  - by apply repk_insert, repk_insert.
  - rewrite Hr2. destruct k; [done|]. exact Hrt.
  - intros z Hz1 Hz2. rewrite <- (HF z Hz1 Hz2). rewrite !not_elem_of_app, !not_elem_of_cons, !not_elem_of_app, !not_elem_of_cons in Hz1.
    destruct Hz1 as (? & ? & ? & ? & ?). by chase.
Qed.

(** ** The node in focus *)

Section Focus.
Context (F : gmap Z Tree) (s : TS) (k : ctx) (c : bool) (l : tree) (x : Z) (r : tree).
Hypothesis HR : R F s k (T c l x r).
Lemma R_cell : mem s !! x = Some (cell (addr l) c (addr r) (caddr k)) /\ addr l mod 2 = 0 /\ good_addr x.
Proof.
  pose proof (good_of_R _ _ _ _ HR) as Hg. apply good_children in Hg as (Hl & _ & Hx). destruct HR as ((H & _) & _).
  split; [done|]. split; [by apply addr_even|done].
Qed.
Lemma R_set_red b (Q : unit -> TS -> Prop) :
  (forall s', R F s' k (T b l x r) -> Q tt s') -> wp (tree_set_red x (Z.b2z b)) s Q.
Proof.
  intros HQ. destruct R_cell as (Hx & Hl & _). eapply wp_set_red; [exact Hx|exact Hl|]. apply HQ.
  apply R_parts in HR as ((_ & Hrl & Hrr) & Hk & Hrt & Hg & Hgk & Hd & HF). cbn [inorder addr] in *.
  pose proof (proj1 Hg) as Hn. apply NoDup_app in Hn as (_ & Hn1 & Hn2). apply NoDup_cons in Hn2 as [Hn2 _].
  apply R_parts. cbn [rep mem root addr inorder]. rewrite lookup_insert_eq.
  assert (x ∉ inorder l) by (intros H; apply (Hn1 x H); left).
  split_and!; try done; try (by apply rep_insert).
  - apply repk_insert; [|done]. apply Hd. set_solver.
  - intros z Hz1 Hz2. rewrite <- (HF z) by done. apply lookup_insert_ne. set_solver.
Qed.
Lemma R_get_left (Q : Z -> TS -> Prop) : Q (addr l) s -> wp (tree_get_left x) s Q.
Proof. intros H. destruct R_cell as (? & ? & _). by eapply wp_get_left. Qed.
Lemma R_get_right (Q : Z -> TS -> Prop) : Q (addr r) s -> wp (get_right x) s Q.
Proof. intros H. destruct R_cell as (? & ? & _). by eapply wp_get_right. Qed.
Lemma R_get_parent (Q : Z -> TS -> Prop) : Q (caddr k) s -> wp (get_parent x) s Q.
Proof. intros H. destruct R_cell as (? & ? & _). by eapply wp_get_parent. Qed.
Lemma R_isred (Q : bool -> TS -> Prop) : Q c s -> wp (isred x) s Q.
Proof. intros H. destruct R_cell as (? & ? & _). by eapply wp_isred. Qed.
Lemma R_get_red (Q : Z -> TS -> Prop) : Q (Z.b2z c) s -> wp (tree_get_red x) s Q.
Proof. intros H. destruct R_cell as (? & ? & _). by eapply wp_get_red. Qed.
End Focus.

Definition is_red (t : tree) : bool := match t with E => false | T c _ _ _ => c end.
Lemma R_isred_node F s k t (Q : bool -> TS -> Prop) : R F s k t -> Q (is_red t) s -> wp (isred_node (addr t)) s Q.
Proof. intros HR H. unfold wp. rewrite (isred_node_ok s (caddr k)); [done|by eapply good_of_R|by destruct HR]. Qed.
Lemma R_isblack F s k t (Q : bool -> TS -> Prop) : R F s k t -> Q (negb (is_red t)) s -> wp (isblack_or_null (addr t)) s Q.
Proof. intros HR H. unfold wp. rewrite (isblack_ok s (caddr k)); [by destruct t|by eapply good_of_R|by destruct HR]. Qed.
Lemma R_is_null F s k t : R F s k t -> (addr t =? 0) = match t with E => true | _ => false end.
Proof. intros HR. apply addr_zero. by eapply good_of_R. Qed.
Lemma R_root F s k t : R F s k t -> root s = match k with [] => addr t | _ => addr (plug k E) end.
Proof. intros HR. apply R_parts in HR. tauto. Qed.
Lemma R_up F s f k t : R F s (f :: k) t <-> R F s k (plug1 f t).
Proof. destruct f; cbn [plug1]; [by rewrite R_down_left|by rewrite R_down_right]. Qed.

Lemma addr_elem t : t <> E -> addr t ∈ inorder t.
Proof. destruct t; [done|]. intros _. cbn. set_solver. Qed.
Lemma plug_not_E f k t : plug (f :: k) t <> E.
Proof. revert f t. induction k as [|g k IH]; intros f t; [by destruct f|]. apply (IH g). Qed.
Lemma R_not_root F s f k t : R F s (f :: k) t -> (addr t =? root s) = false.
Proof.
  intros HR. apply Z.eqb_neq. intros Ha. pose proof (good_of_R F s [] (plug (f :: k) t)) as Hg.
  assert (R F s [] (plug (f :: k) t)) as HR' by (apply R_plug; by rewrite app_nil_r). specialize (Hg HR').
  apply R_parts in HR as (_ & _ & Hrt & _ & _ & Hd & _). rewrite (addr_plug_indep f k E t) in Hrt.
  destruct t as [|c l x r].
  - destruct (addr_good _ Hg (plug_not_E f k _)). cbn [addr] in Ha. lia.
  - apply (Hd (addr (T c l x r))); [by apply addr_elem|]. rewrite Ha, Hrt, (addr_plug_indep f k _ E).
    assert (addr (plug (f :: k) E) ∈ inorder (plug (f :: k) E)) as H by (apply addr_elem, plug_not_E).
    by rewrite inorder_plug_perm in H.
Qed.
Lemma R_sides F s k c l x r : R F s k (T c l x r) ->
  (l <> E -> (addr l =? addr r) = false) /\ (r <> E -> (addr r =? addr l) = false).
Proof.
  intros HR. pose proof (good_of_R _ _ _ _ HR) as Hg. cbn in Hg. pose proof Hg as [Hn _]. apply good_children in Hg as (Hl & Hr & _).
  apply NoDup_app in Hn as (_ & Hn & _).
  split; intros Ht; apply Z.eqb_neq; intros Hlr; pose proof (addr_elem _ Ht) as He.
  - apply (Hn _ He). rewrite Hlr. right. apply addr_elem. intros ->. destruct (addr_good _ Hl Ht). cbn in Hlr. lia.
  - assert (l <> E) as Hl0 by (intros ->; destruct (addr_good _ Hr Ht); cbn in Hlr; lia).
    apply (Hn (addr l)); [by apply addr_elem|]. rewrite <- Hlr. by right.
Qed.

(** ** Operations anywhere in the tree *)

(** [k1] is the path from the top of the focus down to the node operated on. *)
Section At.
Context (F : gmap Z Tree) (s : TS) (k1 k : ctx).
Lemma at_set_red c l x r b (Q : unit -> TS -> Prop) : R F s k (plug k1 (T c l x r)) ->
  (forall s', R F s' k (plug k1 (T b l x r)) -> Q tt s') -> wp (tree_set_red x (Z.b2z b)) s Q.
Proof. intros HR HQ. apply R_plug in HR. eapply R_set_red; [exact HR|]. intros s' H. apply HQ. by apply R_plug. Qed.
Lemma at_rotate_left c a x d b y e (Q : unit -> TS -> Prop) : R F s k (plug k1 (T c a x (T d b y e))) ->
  (forall s', R F s' k (plug k1 (T d (T c a x b) y e)) -> Q tt s') -> wp (tree_rotate_left x) s Q.
Proof. intros HR HQ. apply R_plug in HR. eapply rotate_left_ok; [exact HR|]. intros s' H. apply HQ. by apply R_plug. Qed.
Lemma at_rotate_right c a x d b y e (Q : unit -> TS -> Prop) : R F s k (plug k1 (T d (T c a x b) y e)) ->
  (forall s', R F s' k (plug k1 (T c a x (T d b y e))) -> Q tt s') -> wp (tree_rotate_right y) s Q.
Proof. intros HR HQ. apply R_plug in HR. eapply rotate_right_ok; [exact HR|]. intros s' H. apply HQ. by apply R_plug. Qed.
Section Read.
Context (c : bool) (l : tree) (x : Z) (r : tree).
Hypothesis HR : R F s k (plug k1 (T c l x r)).
Lemma at_get_left (Q : Z -> TS -> Prop) : Q (addr l) s -> wp (tree_get_left x) s Q.
Proof. eapply R_get_left, R_plug, HR. Qed.
Lemma at_get_right (Q : Z -> TS -> Prop) : Q (addr r) s -> wp (get_right x) s Q.
Proof. eapply R_get_right, R_plug, HR. Qed.
Lemma at_get_parent (Q : Z -> TS -> Prop) : Q (caddr (k1 ++ k)) s -> wp (get_parent x) s Q.
Proof. eapply R_get_parent, R_plug, HR. Qed.
Lemma at_isred (Q : bool -> TS -> Prop) : Q c s -> wp (isred x) s Q.
Proof. eapply R_isred, R_plug, HR. Qed.
Lemma at_get_red (Q : Z -> TS -> Prop) : Q (Z.b2z c) s -> wp (tree_get_red x) s Q.
Proof. eapply R_get_red, R_plug, HR. Qed.
Lemma at_left (Q : bool -> TS -> Prop) :
  Q (negb (is_red l)) s -> wp (isblack_or_null (addr l)) s Q.
Proof. eapply R_isblack, (R_plug _ _ (FL c x r :: k1)), HR. Qed.
Lemma at_right (Q : bool -> TS -> Prop) :
  Q (negb (is_red r)) s -> wp (isblack_or_null (addr r)) s Q.
Proof. eapply R_isblack, (R_plug _ _ (FR c l x :: k1)), HR. Qed.
Lemma at_left_node (Q : bool -> TS -> Prop) : Q (is_red l) s -> wp (isred_node (addr l)) s Q.
Proof. eapply R_isred_node, (R_plug _ _ (FL c x r :: k1)), HR. Qed.
Lemma at_right_node (Q : bool -> TS -> Prop) : Q (is_red r) s -> wp (isred_node (addr r)) s Q.
Proof. eapply R_isred_node, (R_plug _ _ (FR c l x :: k1)), HR. Qed.
Lemma at_sides : (l <> E -> (addr l =? addr r) = false) /\ (r <> E -> (addr r =? addr l) = false).
Proof. eapply R_sides, R_plug, HR. Qed.
Lemma at_isred_node (Q : bool -> TS -> Prop) : Q c s -> wp (isred_node x) s Q.
Proof. intros H. eapply (R_isred_node _ _ _ (T c l x r)); [by apply R_plug, HR|done]. Qed.
Lemma at_isblack (Q : bool -> TS -> Prop) : Q (negb c) s -> wp (isblack_or_null x) s Q.
Proof. intros H. eapply (R_isblack _ _ _ (T c l x r)); [by apply R_plug, HR|done]. Qed.
Lemma at_good : good_addr x.
Proof. eapply R_cell, R_plug, HR. Qed.
End Read.
End At.

(** The path to the node [x] in [t] and the node found there. *)
Ltac find_node x t k :=
  match t with
  | T ?c ?l x ?r => constr:((k, c, l, r))
  | T ?c ?l ?y ?r =>
      match goal with
      | _ => let k' := constr:(FL c y r :: k) in find_node x l k'
      | _ => let k' := constr:(FR c l y :: k) in find_node x r k'
      end
  end.
(** Applies a lemma at the child [u] of some node, [left] or [right]. *)
Ltac at_child left right u :=
  match goal with HR : R ?F ?s ?k ?t |- wp _ ?s _ =>
    let rec go t k1 :=
      match t with
      | T ?c u ?y ?r => eapply (left F s k1 k c u y r HR)
      | T ?c ?l ?y u => eapply (right F s k1 k c l y u HR)
      | T ?c ?l ?y ?r => first [let k' := constr:(FL c y r :: k1) in go l k' | let k' := constr:(FR c l y :: k1) in go r k']
      end in go t (@nil frame) end.
(** Applies [lem] at the node [x] of the tree the state holds. *)
Ltac reading lem x :=
  match goal with HR : R ?F ?s ?k ?t |- wp _ ?s _ =>
    match find_node x t (@nil frame) with (?k1, ?c, ?l, ?r) => eapply (lem F s k1 k c l x r HR); cbn [addr caddr faddr app] end end.
Ltac writing :=
  match goal with HR : R ?F ?s _ _ |- forall s', R ?F s' _ _ -> _ =>
    clear HR; let s' := fresh "s" in intros s' HR; cbn [plug plug1] in HR; try clear s end.
Ltac tstep :=
  cbn [addr is_red negb caddr faddr app];
  match goal with
  | |- wp (_ ≫= _) _ _ => apply wp_bind
  | |- wp (mret _) _ _ => apply wp_ret
  | |- wp get_root _ _ => apply wp_get_root
  | |- wp (tree_get_left ?x) _ _ => reading at_get_left x
  | |- wp (get_right ?x) _ _ => reading at_get_right x
  | |- wp (get_parent ?x) _ _ => reading at_get_parent x
  | |- wp (isred ?x) _ _ => reading at_isred x
  | |- wp (tree_get_red ?x) _ _ => reading at_get_red x
  | |- wp (isred_node 0) _ _ => change (isred_node 0) with (mret false : M bool)
  | |- wp (isred_node (addr ?u)) _ _ => at_child at_left_node at_right_node u
  | |- wp (isred_node ?x) _ _ => reading at_isred_node x
  | |- wp (isblack_or_null 0) _ _ => change (isblack_or_null 0) with (mret true : M bool)
  | |- wp (isblack_or_null (addr ?u)) _ _ => at_child at_left at_right u
  | |- wp (isblack_or_null ?x) _ _ => reading at_isblack x
  | HR : R ?F ?s ?k ?t |- wp (tree_set_red ?x ?v) ?s _ =>
      let b := match v with 0 => constr:(false) | 1 => constr:(true) | Z.b2z ?b => constr:(b) end in
      match find_node x t (@nil frame) with (?k1, ?c, ?l, ?r) => eapply (at_set_red F s k1 k c l x r b); [exact HR|]; writing end
  | HR : R ?F ?s ?k ?t |- wp (tree_rotate_left ?x) ?s _ =>
      match find_node x t (@nil frame) with (?k1, ?c, ?l, T ?d ?b ?y ?e) =>
        eapply (at_rotate_left F s k1 k c l x d b y e); [exact HR|]; writing end
  | HR : R ?F ?s ?k ?t |- wp (tree_rotate_right ?x) ?s _ =>
      match find_node x t (@nil frame) with (?k1, ?d, T ?c ?a ?y ?b, ?e) =>
        eapply (at_rotate_right F s k1 k c a y d b x e); [exact HR|]; writing end
  end; cbn beta.

(** The two children of a node are apart. *)
Ltac sides HR x :=
  match type of HR with R ?F ?s ?k ?t =>
    match find_node x t (@nil frame) with (?k1, ?c, ?l, ?r) =>
      let H1 := fresh "Hl" in let H2 := fresh "Hr" in pose proof (at_sides F s k1 k c l x r HR) as [H1 H2];
      try specialize (H1 ltac:(done)); try specialize (H2 ltac:(done)); cbn [addr] in H1, H2 end end.
Ltac eqbs := repeat first [rewrite Z.eqb_refl | match goal with H : (?a =? ?b) = false |- context [?a =? ?b] => rewrite H | H : (?a =? ?b) = false |- context [?b =? ?a] => rewrite (Z.eqb_sym b a), H end].
