(* ===== verification/TreeInsert.v ===== *)
(** Insertion into a red-black tree: the rebalancing keeps the red-black invariant and the
    order of the nodes, and ends in a number of turns logarithmic in the size. *)
From S2P Require Import Prelude NodeTree Tree TreeFacts.
From stdpp Require Import list gmap sorting.
#[local] Open Scope Z_scope.

(** * The invariant *)

(** [n] black nodes on every path down from [t], and no red node with a red child. *)
Fixpoint RB (t : tree) (n : nat) : Prop :=
  match t with
  | E => n = 0%nat
  | T true l _ r => RB l n /\ RB r n /\ is_red l = false /\ is_red r = false
  | T false l _ r => match n with O => False | S n => RB l n /\ RB r n end
  end.
(** A tree as the functions keep it: the root is black. *)
Definition rb_tree (t : tree) : Prop := is_red t = false /\ exists n, RB t n.

Definition kred (k : ctx) : bool := match k with FL c _ _ :: _ | FR c _ _ :: _ => c | [] => true end.
(** The context of a subtree of black height [n]; the node above a red one exists and is
    black. Nothing is said of the colour of the hole. *)
Fixpoint RBk (k : ctx) (n : nat) : Prop :=
  match k with
  | [] => True
  | FL true _ t :: k | FR true t _ :: k => RB t n /\ is_red t = false /\ kred k = false /\ RBk k n
  | FL false _ t :: k | FR false t _ :: k => RB t n /\ RBk k (S n)
  end.

(** Filling the hole keeps the invariant when the colours fit. *)
Lemma RB_plug k : forall t n, RB t n -> RBk k n -> (kred k = true -> is_red t = false) -> k <> [] \/ is_red t = false -> rb_tree (plug k t).
Proof.
  induction k as [|f k IH]; intros t n Ht Hk Hc Hr; [split; [tauto|eauto]|]. cbn [plug].
  destruct f as [[] x r|[] l x]; cbn [plug1 RBk kred] in *; destruct Hk as (Hs & Hk).
  - destruct Hk as (Hsr & Hkr & Hk). apply (IH _ n); [cbn; auto|done|by rewrite Hkr|]. left. by intros ->.
  - apply (IH _ (S n)); [done|done|done|by right].
  - destruct Hk as (Hsr & Hkr & Hk). apply (IH _ n); [cbn; auto|done|by rewrite Hkr|]. left. by intros ->.
  - apply (IH _ (S n)); [done|done|done|by right].
Qed.
(** Conversely every focus of a tree sees the invariant. *)
Lemma RB_unplug k : forall t, rb_tree (plug k t) -> exists n, RB t n /\ RBk k n /\ (kred k = true -> is_red t = false).
Proof.
  induction k as [|f k IH]; intros t H; [destruct H as (H & n & Hn); by exists n|]. cbn [plug] in H.
  destruct (IH _ H) as (n & H1 & H2 & H3). destruct f as [[] x r|[] l x]; cbn [plug1 RB is_red RBk kred] in *.
  - exists n. split_and!; try tauto. destruct (kred k) eqn:E; [by specialize (H3 eq_refl)|done].
  - destruct n as [|n]; [done|]. exists n. split_and!; try done; tauto.
  - exists n. split_and!; try tauto. destruct (kred k) eqn:E; [by specialize (H3 eq_refl)|done].
  - destruct n as [|n]; [done|]. exists n. split_and!; try done; tauto.
Qed.

(** * Balance *)

Lemma RB_depth t : forall n, RB t n -> (depth t <= 2 * n + (if is_red t then 1 else 0))%nat.
Proof.
  induction t as [|[] l IHl x r IHr]; intros n H; [cbn; lia| |]; cbn [RB depth is_red] in *.
  - destruct H as (Hl & Hr & El & Er). specialize (IHl n Hl). specialize (IHr n Hr). rewrite El, Er in *. lia.
  - destruct n as [|n]; [done|]. destruct H as [Hl Hr]. specialize (IHl n Hl). specialize (IHr n Hr). repeat case_match; lia.
Qed.
Lemma RB_size t : forall n, RB t n -> (2 ^ n <= S (length (inorder t)))%nat.
Proof.
  induction t as [|[] l IHl x r IHr]; intros n H; cbn [RB inorder] in *; [by subst| |]; rewrite length_app; cbn [length].
  - destruct H as (Hl & Hr & _). specialize (IHl n Hl). lia.
  - destruct n as [|n]; [done|]. destruct H as [Hl Hr]. specialize (IHl n Hl). specialize (IHr n Hr). cbn [Nat.pow]. lia.
Qed.
(** The height the code relies on. *)
Definition height (n : nat) : nat := (2 * Nat.log2 (S n))%nat.
Lemma rb_tree_depth t : rb_tree t -> (depth t <= height (length (inorder t)))%nat.
Proof.
  intros (Hr & n & Hn). pose proof (RB_depth t n Hn) as Hd. rewrite Hr in Hd. pose proof (RB_size t n Hn) as Hs.
  unfold height. apply Nat.log2_le_mono in Hs. rewrite Nat.log2_pow2 in Hs by lia. lia.
Qed.
Lemma depth_plug k : forall t, (length k + depth t <= depth (plug k t))%nat.
Proof. induction k as [|f k IH]; intros t; [done|]. cbn [plug length]. specialize (IH (plug1 f t)). destruct f; cbn in *; lia. Qed.


(** * Rebalancing *)

Definition blacken (t : tree) : tree := match t with E => E | T _ l x r => T false l x r end.
(** What the loop leaves: painting the root black gives a tree. *)
Definition rb_top (t : tree) : Prop := t <> E /\ rb_tree (blacken t).
Lemma rb_tree_top t : t <> E -> rb_tree t -> rb_top t.
Proof. intros Ht H. split; [done|]. destruct t as [|[] l x r]; [done| |done]. by destruct H. Qed.

Ltac by_order Ho :=
  rewrite <- Ho; cbn [plug plug1]; rewrite !inorder_plug; cbn [inorder]; repeat (rewrite <- app_assoc; cbn [app]); reflexivity.
(** The loop on the red node [x], whose subtree and context are fine but for its colour. *)
Section InsertLoop.
Context (F : gmap Z Tree) (Q : unit -> TS -> Prop) (order : list Z).
Hypothesis HQ : forall s t, R F s [] t -> rb_top t -> inorder t = order -> Q tt s.

Lemma insert_stop fuel s f k l x r n : (0 < fuel)%nat -> R F s (f :: k) (T true l x r) -> kred (f :: k) = false ->
  RB (T true l x r) n -> RBk (f :: k) n -> inorder (plug (f :: k) (T true l x r)) = order ->
  wp (rebalance_insert_loop fuel x) s Q.
Proof.
  intros Hf HR Hb Ht Hk Ho. destruct fuel as [|fuel]; [lia|]. cbn [rebalance_insert_loop]. repeat tstep.
  pose proof (R_not_root _ _ _ _ (T true l x r) HR) as Hroot. cbn [addr] in Hroot. rewrite Hroot. tstep. tstep.
  assert (wp (isred (faddr f)) s (fun b s' => b = false /\ s' = s)) as Hw.
  { apply R_up in HR. destruct f as [c y e|c e y]; cbn [plug1 faddr kred] in *; subst c; by tstep. }
  eapply wp_mono; [exact Hw|]. intros b s' [-> ->]. cbn [negb]. tstep.
  apply (HQ _ (plug (f :: k) (T true l x r))); [|apply rb_tree_top; [apply plug_not_E|eapply RB_plug; eauto; congruence]|done].
  apply (R_plug _ _ (f :: k) []). by rewrite app_nil_r.
Qed.

Lemma insert_loop_ok fuel : forall s k l x r n, (length k < fuel)%nat -> R F s k (T true l x r) ->
  RB (T true l x r) n -> RBk k n -> inorder (plug k (T true l x r)) = order ->
  wp (rebalance_insert_loop fuel x) s Q.
Proof.
  induction fuel as [|fuel IH]; intros s k l x r n Hf HR Ht Hk Ho; [lia|]. destruct k as [|f k].
  { cbn [rebalance_insert_loop]. repeat tstep. rewrite (R_root _ _ _ _ HR). cbn [addr]. rewrite Z.eqb_refl. repeat tstep.
    apply (HQ _ _ HR); [|done]. split; [done|]. split; [done|]. exists (S n). cbn in *. tauto. }
  destruct (kred (f :: k)) eqn:Ef; [|by eapply insert_stop; eauto; lia].
  destruct k as [|g k]; [destruct f as [[] ? ?|[] ? ?]; cbn in *; destruct_and? Hk; done|].
  cbn [rebalance_insert_loop]. repeat tstep. pose proof (R_not_root _ _ _ _ (T true l x r) HR) as Hroot. cbn [addr] in Hroot. rewrite Hroot.
  rewrite !R_up in HR. cbn [length] in Hf.
  destruct f as [[] p sb|[] sb p]; try done; destruct g as [[] g u|[] u g]; cbn [RBk kred plug1] in *;
    destruct_and? Hk; try done; clear Ef; repeat tstep; sides HR p; sides HR g; eqbs; repeat tstep.
  all: destruct (is_red u) eqn:Eu;
    [destruct u as [|[] ul u ur]; try done; repeat tstep; eapply (IH _ k _ _ _ (S n)); [lia|exact HR| | |by_order Ho]; cbn in *; tauto|].
  all: repeat tstep; eqbs; repeat tstep.
  all: match goal with
       | HR : R _ _ _ (T false (T true _ ?z _) ?y ?b) |- wp (rebalance_insert_loop _ ?z) _ _ =>
           apply (R_up _ _ (FL false y b)) in HR; eapply (insert_stop _ _ (FL false y b) k _ _ _ n)
       | HR : R _ _ _ (T false ?a ?y (T true _ ?z _)) |- wp (rebalance_insert_loop _ ?z) _ _ =>
           apply (R_up _ _ (FR false a y)) in HR; eapply (insert_stop _ _ (FR false a y) k _ _ _ n)
       end; [lia|exact HR|done| | |by_order Ho]; cbn in *; tauto.
Qed.
End InsertLoop.

Lemma rb_top_blacken t : rb_top t -> rb_tree (blacken t).
Proof. by intros [_ H]. Qed.

(** The rebalancing of a freshly linked node. *)
Lemma rebalance_insert_ok F s fuel f k c x n (Q : unit -> TS -> Prop) :
  (S (length k) < fuel)%nat -> R F s (f :: k) (T c E x E) -> RBk (f :: k) n -> n = 0%nat ->
  (forall s' t, R F s' [] t -> rb_tree t -> inorder t = before (f :: k) ++ x :: after (f :: k) -> Q tt s') ->
  wp (tree_rebalance_insert fuel x) s Q.
Proof.
  intros Hf HR Hk -> HQ. unfold tree_rebalance_insert. tstep. eapply (R_set_red _ _ _ _ _ _ _ HR true). clear s HR. intros s HR. tstep.
  eapply insert_loop_ok with (order := before (f :: k) ++ x :: after (f :: k)) (k := f :: k); [|cbn [length]; lia|exact HR|done|done|by rewrite inorder_plug].
  clear s HR. intros s t HR [Ht Hrb] Ho. repeat tstep. rewrite (R_root _ _ _ _ HR). destruct t as [|c' l y r]; [done|]. tstep.
  apply (HQ _ _ HR); [exact Hrb|]. by rewrite <- Ho.
Qed.

(** * Insertion in order *)

Section Order.
Context (cmp : Z -> Z -> Z) `{!Comparator cmp}.

Lemma cmp_le_lt a b c : cmp a b < 0 -> cmp b c <= 0 -> cmp a c < 0.
Proof.
  intros H1 H2. apply cmp_sym in H1. destruct (Z.lt_ge_cases (cmp a c) 0) as [|H3]; [done|].
  assert (cmp c a <= 0) as H4 by (destruct (Z.le_gt_cases (cmp c a) 0) as [|H4]; [done|]; apply cmp_sym in H4; lia).
  pose proof (cmp_trans b c a H2 H4). lia.
Qed.
Lemma cmp_flip a b : 0 <= cmp a b <-> cmp b a <= 0.
Proof. pose proof (cmp_sym a b). lia. Qed.
Lemma sorted_node l x r : sorted cmp (l ++ x :: r) ->
  sorted cmp l /\ sorted cmp r /\ Forall (fun z => cmp z x <= 0) l /\ Forall (fun z => cmp x z <= 0) r.
Proof.
  intros H. apply StronglySorted_app in H as (H1 & H2 & H3). inversion H3 as [|? ? H4 H5]; subst. split_and!; try done.
  apply Forall_forall. intros z Hz. apply H1; [done|left].
Qed.
Lemma ins_sorted node l : sorted cmp l -> sorted cmp (ins cmp node l).
Proof.
  induction 1 as [|z l Hl IH Hz]; cbn [ins]; [repeat constructor|]. case_if; bool_prop.
  - constructor; [by constructor|]. constructor; [lia|]. eapply Forall_impl; [exact Hz|]. intros w Hw. cbn in *.
    pose proof (cmp_le_lt node z w). lia.
  - constructor; [done|]. clear IH Hl. assert (cmp z node <= 0) by (apply cmp_flip; lia).
    induction Hz as [|w l Hw Hz IH]; cbn [ins]; [by repeat constructor|]. case_if; repeat constructor; done.
Qed.

(** The descent ends at the empty place of the new node. *)
Lemma insert_descend_ok fuel : forall F s node t k, (depth t < fuel)%nat -> t <> E -> R F s k t -> sorted cmp (inorder t) ->
  below cmp node (before k) -> above cmp node (after k) ->
  wp (insert_descend cmp fuel node (addr t)) s (fun p s' => s' = s /\
    exists f k', plug (f :: k') E = plug k t /\ p = faddr f /\ (match f with FL _ _ _ => cmp node p < 0 | FR _ _ _ => 0 <= cmp node p end) /\
      below cmp node (before (f :: k')) /\ above cmp node (after (f :: k'))).
Proof.
  induction fuel as [|fuel IH]; intros F s node t k Hf Ht HR Hs Hb Ha; [lia|]. destruct t as [|c l x r]; [done|]. cbn [insert_descend addr].
  cbn [inorder depth] in *. apply sorted_node in Hs as (Hsl & Hsr & Hl & Hr). tstep.
  destruct (cmp node x <? 0) eqn:E; bool_prop; tstep.
  - pose proof (proj1 (R_down_left _ _ _ _ _ _ _) HR) as HL. rewrite (R_is_null _ _ _ _ HL).
    assert (above cmp node (after (FL c x r :: k))) as Ha'.
    { cbn. constructor; [done|]. apply Forall_app. split; [|done]. eapply Forall_impl; [exact Hr|]. intros z Hz. by apply (cmp_le_lt _ x). }
    destruct l as [|? ? y ?].
    + tstep. split; [done|]. by exists (FL c x r), k.
    + apply (IH F s node (T red l1 y l2) (FL c x r :: k)); try done. lia.
  - pose proof (proj1 (R_down_right _ _ _ _ _ _ _) HR) as HL. rewrite (R_is_null _ _ _ _ HL).
    assert (below cmp node (before (FR c l x :: k))) as Ha'.
    { cbn. apply Forall_app. split; [done|]. apply Forall_app. split; [|by constructor]. eapply Forall_impl; [exact Hl|]. intros z Hz.
      cbn. apply cmp_flip. apply (cmp_trans _ x); [done|]. by apply cmp_flip. }
    destruct r as [|? ? y ?].
    + tstep. split; [done|]. by exists (FR c l x), k.
    + apply (IH F s node (T red r1 y r2) (FR c l x :: k)); try done. lia.
Qed.
End Order.

(** * tree_insert *)

Lemma R_frame_change F F' s k t : R F s k t -> (forall z, z ∉ inorder (plug k t) -> F !! z = F' !! z) -> R F' s k t.
Proof. intros (H1 & H2 & H3 & H4 & H5) H. split_and!; try done. intros z Hz. rewrite H5 by done. by apply H. Qed.

Lemma R_all F s k t : R F s k t <-> R F s [] (plug k t).
Proof. rewrite <- R_plug. by rewrite app_nil_r. Qed.

(** Linking a cleared node into an empty place. *)
Lemma link_ok F s f k node (Q : unit -> TS -> Prop) : R F s (f :: k) E -> good_addr node -> node ∉ kelems (f :: k) ->
  mem s !! node = Some (mkTree 0 0 0) -> (forall s', R F s' (f :: k) (T false E node E) -> Q tt s') ->
  wp (match f with FL _ _ _ => tree_set_left (faddr f) node | FR _ _ _ => set_right (faddr f) node end) s
    (fun _ s => wp (set_parent node (faddr f)) s Q).
Proof.
  intros HR Hg Hn Hc HQ. change (mkTree 0 0 0) with (cell 0 false 0 0) in Hc. apply R_parts in HR as (_ & Hk & Hrt & _ & Hgk & _ & HF).
  destruct (good_kelems_cons _ _ Hgk) as (Hx & Hgs & Hgk' & Hx1 & Hx2 & Hx3).
  assert (node <> faddr f /\ node ∉ inorder (sib f) /\ node ∉ kelems k) as (Hn1 & Hn2 & Hn3).
  { destruct f; cbn in *; rewrite not_elem_of_cons, not_elem_of_app in Hn; tauto. }
  destruct f as [c x r|c l x]; cbn [repk addr faddr sib] in *; destruct Hk as (Hk1 & Hk2 & Hk3); unfold good_addr in Hg; repeat step.
  all: apply HQ; apply R_parts; cbn [rep repk addr caddr faddr mem root inorder app plug plug1] in *.
  all: rewrite lookup_insert_eq, lookup_insert_ne, lookup_insert_eq by done.
  all: split_and!; try done; try (by repeat first [apply rep_insert | apply repk_insert]).
  all: try (intros z Hz; assert (z = node) as -> by set_solver +Hz; done).
  all: try (split; [apply NoDup_singleton|by apply Forall_singleton]).
  all: intros z Hz1 Hz2; rewrite <- (HF z) by set_solver; rewrite !lookup_insert_ne; [done|set_solver|set_solver].
Qed.

Lemma tree_insert_wp cmp `{!Comparator cmp} F s t node fuel :
  R F s [] t -> rb_tree t -> sorted cmp (inorder t) ->
  good_addr node -> node ∉ inorder t -> is_Some (mem s !! node) ->
  (height (length (inorder t)) + 2 <= fuel)%nat ->
  wp (tree_insert cmp fuel node) s (fun _ s' => exists t', R F s' [] t' /\ rb_tree t' /\ inorder t' = ins cmp node (inorder t)).
Proof.
  intros HR Hrb Hs Hg Hn [n0 Hn0] Hf.
  pose proof (rb_tree_depth t Hrb) as Hd.
  set (F1 := <[node := mkTree 0 0 0]> F). set (s1 := mkTS (root s) (<[node := mkTree 0 0 0]> (mem s))).
  assert (R F1 s1 [] t) as HR1.
  { destruct HR as (H1 & _ & H3 & H4 & H5). unfold R. unfold s1, F1; cbn [mem root plug] in *. split_and!; try done; [by apply rep_insert|]. intros z Hz.
    destruct (decide (z = node)) as [->|]; [by rewrite !lookup_insert_eq|]. rewrite !lookup_insert_ne by done. by apply H5. }
  unfold tree_insert. apply wp_bind.
  assert ((_ ← load node; store node (mkTree 0 0 0)) s = Some (tt, s1)) as Hst.
  { unfold mbind, M_bind, load, store. by rewrite Hn0, Hn0. }
  unfold wp at 1. rewrite Hst. tstep. tstep. rewrite (R_root _ _ _ _ HR1), (R_is_null _ _ _ _ HR1).
  destruct t as [|c l x r].
  { step. exists (T false E node E). split; [|split; [split; [done|by exists 1%nat]|done]]. unfold R. cbn [rep repk mem root plug addr caddr inorder app].
    unfold s1. cbn [mem]. rewrite lookup_insert_eq. split_and!; try done; [split; [apply NoDup_singleton|by apply Forall_singleton]|].
    intros z Hz. rewrite lookup_insert_ne by set_solver. destruct HR as (_ & _ & _ & _ & HF). apply HF. set_solver. }
  tstep. eapply wp_mono; [apply (insert_descend_ok cmp fuel F1 s1 node (T c l x r) []); try done; [lia|constructor|constructor]|].
  intros p s2 (-> & f & k & Hpl & -> & Hdir & Hb & Ha). change (plug (f :: k) E = T c l x r) in Hpl.
  assert (R F1 s1 (f :: k) E) as HR2 by (apply R_all; by rewrite Hpl).
  assert (inorder (T c l x r) = before (f :: k) ++ after (f :: k)) as Hio by (rewrite <- Hpl, inorder_plug; done).
  assert (node ∉ kelems (f :: k)) as Hnk.
  { rewrite <- Hpl, inorder_plug_perm in Hn. exact Hn. }
  destruct (RB_unplug (f :: k) E) as (n & Hn1 & Hn2 & _); [by rewrite Hpl|]. cbn in Hn1.
  assert (length k < depth (T c l x r))%nat as Hlen by (rewrite <- Hpl; pose proof (depth_plug (f :: k) E); cbn [length] in *; lia).
  tstep. replace (if cmp node (faddr f) <? 0 then _ else _) with
    (match f with FL _ _ _ => tree_set_left (faddr f) node | FR _ _ _ => set_right (faddr f) node end : M unit)
    by (destruct f; [rewrite if_true by lia|rewrite if_false by lia]; done).
  eapply wp_mono; [eapply (link_ok F1 s1 f k node _ HR2 Hg Hnk (lookup_insert_eq _ _ _))|].
  2: { intros [] s2 H. tstep. exact H. }
  intros s2 HR3. eapply rebalance_insert_ok; [|exact HR3|exact Hn2|done|]; [lia|].
  intros s3 t' HR4 Hrb' Ho. exists t'. split; [|split; [done|]]; [|by rewrite Ho, Hio, ins_split].
  eapply R_frame_change; [exact HR4|]. cbn [plug]. intros z Hz. unfold F1. rewrite lookup_insert_ne; [done|].
  intros <-. apply Hz. rewrite Ho. set_solver.
Qed.

(** C7: Insertion keeps the red-black tree. Given any tree that satisfies the invariant (even
    distinct addresses, correct parent links, black root, no red node under a red one, equal
    black heights) whose nodes are in the order of the comparison, and a node outside of it,
    [tree_insert] dereferences only nodes of the tree and the new one, ends within a number
    of turns logarithmic in the size, and leaves a red-black tree that holds the old nodes in
    their order and the new one after all that are not greater; no other memory changes. *)
Theorem tree_insert_correct cmp `{!Comparator cmp} F s t node fuel :
  R F s [] t -> rb_tree t -> sorted cmp (inorder t) ->
  good_addr node -> node ∉ inorder t -> is_Some (mem s !! node) ->
  (height (length (inorder t)) + 2 <= fuel)%nat ->
  exists s' t', tree_insert cmp fuel node s = Some (tt, s') /\
    R F s' [] t' /\ rb_tree t' /\ inorder t' = ins cmp node (inorder t) /\ sorted cmp (inorder t').
Proof.
  intros HR Hrb Hs Hg Hn Hm Hf. pose proof (tree_insert_wp cmp F s t node fuel HR Hrb Hs Hg Hn Hm Hf) as ([] & s' & H & t' & H1 & H2 & H3)%wp_elim.
  exists s', t'. rewrite H3. split_and!; try done. by apply ins_sorted.
Qed.

#[export] Instance Z_sub_comparator : Comparator Z.sub.
Proof. split; lia. Qed.
(** A tree of one node, and a second node beside it. *)
Definition one_node : TS := mkTS 16 {[16 := mkTree 0 0 0; 32 := mkTree 7 7 7]}.
Lemma one_node_R : R (mem one_node) one_node [] (T false E 16 E).
Proof.
  unfold R. split_and!; try done. split; [apply NoDup_singleton|]. apply Forall_singleton. by unfold good_addr.
Qed.
Lemma tree_insert_correct_witness : exists s' t', tree_insert Z.sub 4 32 one_node = Some (tt, s') /\
  R (mem one_node) s' [] t' /\ rb_tree t' /\ inorder t' = [16; 32] /\ sorted Z.sub (inorder t').
Proof.
  apply (tree_insert_correct Z.sub (mem one_node) one_node (T false E 16 E) 32 4).
  - exact one_node_R.
  - split; [reflexivity|]. by exists 1%nat.
  - repeat constructor.
  - by unfold good_addr.
  - cbn. set_solver.
  - by eexists.
  - vm_compute. lia.
Defined.
