(* ===== verification/TreeWalk.v ===== *)
(** Walking and searching a red-black tree: [tree_first], [tree_next] and their mirror images
    follow the order of the nodes, and the searches find what a scan of that order finds. *)
From S2P Require Import Prelude NodeTree Tree TreeFacts TreeInsert.
From stdpp Require Import list gmap sorting.
#[local] Open Scope Z_scope.

(** * Walking *)

(** Only left (right) turns. *)
Definition all_left (k : ctx) : Prop := Forall (fun f => match f with FL _ _ _ => True | _ => False end) k.
Definition all_right (k : ctx) : Prop := Forall (fun f => match f with FR _ _ _ => True | _ => False end) k.
Lemma all_left_before k : all_left k -> before k = [].
Proof. induction 1 as [|[] k Hf _ IH]; done. Qed.
Lemma all_right_after k : all_right k -> after k = [].
Proof. induction 1 as [|[] k Hf _ IH]; done. Qed.

(** [tree_first] stops at the leftmost node. *)
Lemma tree_first_ok fuel : forall F s k t, (depth t <= fuel)%nat -> t <> E -> R F s k t ->
  wp (tree_first fuel (addr t)) s (fun p s' => s' = s /\ exists k1 c r, all_left k1 /\ t = plug k1 (T c E p r)).
Proof.
  induction fuel as [|fuel IH]; intros F s k t Hf Ht HR; destruct t as [|c l x r]; try done; [cbn in Hf; lia|].
  cbn [tree_first]. rewrite (R_is_null _ _ _ _ HR). repeat tstep. pose proof (proj1 (R_down_left _ _ _ _ _ _ _) HR) as HL.
  rewrite (R_is_null _ _ _ _ HL). cbn [depth] in Hf. destruct l as [|d a y b] eqn:El; rewrite <- El in *.
  - tstep. split; [done|]. exists [], c, r. subst l. split; [constructor|done].
  - eapply wp_mono; [eapply (IH _ _ _ l); [lia|by subst|exact HL]|]. intros p s' (-> & k1 & c1 & r1 & Hk & ->).
    split; [done|]. exists (k1 ++ [FL c x r]), c1, r1. split; [apply Forall_app; split; [done|by constructor]|]. by rewrite plug_app.
Qed.
Lemma tree_last_ok fuel : forall F s k t, (depth t <= fuel)%nat -> t <> E -> R F s k t ->
  wp (tree_last fuel (addr t)) s (fun p s' => s' = s /\ exists k1 c l, all_right k1 /\ t = plug k1 (T c l p E)).
Proof.
  induction fuel as [|fuel IH]; intros F s k t Hf Ht HR; destruct t as [|c l x r]; try done; [cbn in Hf; lia|].
  cbn [tree_last]. rewrite (R_is_null _ _ _ _ HR). repeat tstep. pose proof (proj1 (R_down_right _ _ _ _ _ _ _) HR) as HL.
  rewrite (R_is_null _ _ _ _ HL). cbn [depth] in Hf. destruct r as [|d a y b] eqn:El; rewrite <- El in *.
  - tstep. split; [done|]. exists [], c, l. subst r. split; [constructor|done].
  - eapply wp_mono; [eapply (IH _ _ _ r); [lia|by subst|exact HL]|]. intros p s' (-> & k1 & c1 & r1 & Hk & ->).
    split; [done|]. exists (k1 ++ [FR c l x]), c1, r1. split; [apply Forall_app; split; [done|by constructor]|]. by rewrite plug_app.
Qed.

(** The climbs go up while they come from the right (left). *)
Lemma next_up_ok fuel : forall F s k t, (length k < fuel)%nat -> t <> E -> R F s k t ->
  wp (next_up fuel (addr t) (caddr k)) s (fun p s' => s' = s /\ p = hd 0 (after k)).
Proof.
  induction fuel as [|fuel IH]; intros F s k t Hf Ht HR; [lia|]. cbn [next_up]. destruct k as [|f k]; [by apply wp_ret|]. cbn [length caddr] in *.
  assert ((faddr f =? 0) = false) as ->.
  { apply R_up in HR. destruct f; destruct (R_cell _ _ _ _ _ _ _ HR) as (_ & _ & H & _); cbn; lia. }
  apply R_up in HR. destruct f as [c x r|c l x]; cbn [plug1 faddr] in *; sides HR x; tstep; tstep; cbn [after hd].
  - rewrite Hl by done. by tstep.
  - rewrite Z.eqb_refl. repeat tstep. eapply (IH _ _ _ (T c l x t)); [lia|done|exact HR].
Qed.
Lemma prev_up_ok fuel : forall F s k t, (length k < fuel)%nat -> t <> E -> R F s k t ->
  wp (prev_up fuel (addr t) (caddr k)) s (fun p s' => s' = s /\ p = List.last (before k) 0).
Proof.
  induction fuel as [|fuel IH]; intros F s k t Hf Ht HR; [lia|]. cbn [prev_up]. destruct k as [|f k]; [by apply wp_ret|]. cbn [length caddr] in *.
  assert ((faddr f =? 0) = false) as ->.
  { apply R_up in HR. destruct f; destruct (R_cell _ _ _ _ _ _ _ HR) as (_ & _ & H & _); cbn; lia. }
  apply R_up in HR. destruct f as [c x r|c l x]; cbn [plug1 faddr] in *; sides HR x; tstep; tstep; cbn [before].
  - rewrite Z.eqb_refl. repeat tstep. eapply (IH _ _ _ (T c t x r)); [lia|done|exact HR].
  - rewrite Hr by done. tstep. split; [done|]. by rewrite app_assoc, last_last.
Qed.

Lemma tree_next_ok fuel F s k c l x r : (length k + depth r < fuel)%nat -> R F s k (T c l x r) ->
  wp (tree_next fuel x) s (fun p s' => s' = s /\ p = hd 0 (inorder r ++ after k)).
Proof.
  intros Hf HR. unfold tree_next. pose proof (R_is_null _ _ _ _ HR) as Hx. cbn [addr] in Hx. rewrite Hx. tstep. tstep.
  pose proof (proj1 (R_down_right _ _ _ _ _ _ _) HR) as HL. rewrite (R_is_null _ _ _ _ HL). destruct r as [|d a y b] eqn:El; rewrite <- El in *; cbn [negb].
  - repeat tstep. replace (inorder r) with (@nil Z) by (by subst). apply (next_up_ok fuel F s k (T c l x r)); [lia|done|exact HR].
  - eapply wp_mono; [eapply (tree_first_ok fuel F s _ r); [lia|by subst|exact HL]|]. intros p s' (-> & k1 & c1 & r1 & Hk & ->).
    split; [done|]. rewrite inorder_plug, (all_left_before k1) by done. done.
Qed.
Lemma tree_prev_ok fuel F s k c l x r : (length k + depth l < fuel)%nat -> R F s k (T c l x r) ->
  wp (tree_prev fuel x) s (fun p s' => s' = s /\ p = List.last (before k ++ inorder l) 0).
Proof.
  intros Hf HR. unfold tree_prev. pose proof (R_is_null _ _ _ _ HR) as Hx. cbn [addr] in Hx. rewrite Hx. tstep. tstep.
  pose proof (proj1 (R_down_left _ _ _ _ _ _ _) HR) as HL. rewrite (R_is_null _ _ _ _ HL). destruct l as [|d a y b] eqn:El; rewrite <- El in *; cbn [negb].
  - repeat tstep. replace (inorder l) with (@nil Z) by (by subst). rewrite app_nil_r. apply (prev_up_ok fuel F s k (T c l x r)); [lia|done|exact HR].
  - eapply wp_mono; [eapply (tree_last_ok fuel F s _ l); [lia|by subst|exact HL]|]. intros p s' (-> & k1 & c1 & r1 & Hk & ->).
    split; [done|]. rewrite inorder_plug, (all_right_after k1) by done. cbn [inorder app]. rewrite app_nil_r, !app_assoc. by rewrite last_last.
Qed.

(** ** A node and its place *)

Lemma split_unique {A} (l1 m1 l2 m2 : list A) x : NoDup (l1 ++ x :: l2) -> l1 ++ x :: l2 = m1 ++ x :: m2 -> l1 = m1 /\ l2 = m2.
Proof.
  revert m1. induction l1 as [|a l1 IH]; intros m1 Hn He; destruct m1 as [|b m1]; cbn in *; simplify_eq; [done| | |].
  - apply NoDup_cons in Hn as [Hn _]. set_solver.
  - apply NoDup_cons in Hn as [Hn _]. set_solver.
  - apply NoDup_cons in Hn as [_ Hn]. destruct (IH m1 Hn ltac:(done)). by subst.
Qed.
Lemma find_zip t x : x ∈ inorder t -> exists k c l r, t = plug k (T c l x r).
Proof.
  induction t as [|c l IHl y r IHr]; cbn [inorder]; [by intros ?%not_elem_of_nil|]. rewrite elem_of_app, elem_of_cons. intros [H|[->|H]].
  - destruct (IHl H) as (k & d & a & b & ->). exists (k ++ [FL c y r]), d, a, b. by rewrite plug_app.
  - by exists [], c, l, r.
  - destruct (IHr H) as (k & d & a & b & ->). exists (k ++ [FR c l y]), d, a, b. by rewrite plug_app.
Qed.
Lemma find_place F s t x l1 l2 : R F s [] t -> inorder t = l1 ++ x :: l2 ->
  exists k c l r, t = plug k (T c l x r) /\ R F s k (T c l x r) /\ l1 = before k ++ inorder l /\ l2 = inorder r ++ after k.
Proof.
  intros HR Ht. destruct (find_zip t x) as (k & c & l & r & ->); [rewrite Ht; set_solver|]. exists k, c, l, r.
  pose proof (good_of_R _ _ _ _ HR) as [Hn _]. pose proof (inorder_plug k (T c l x r)) as Hi. cbn [inorder] in Hi.
  rewrite <- !app_assoc in Hi. cbn [app] in Hi. rewrite app_assoc in Hi. rewrite Hi in Ht, Hn. destruct (split_unique _ _ _ _ _ Hn Ht).
  split; [done|]. split; [by apply R_all|done].
Qed.

(** The walks follow the order of the nodes: in a red-black tree, [tree_first] and
    [tree_last] return the first and the last node of the order (NULL for the empty tree),
    and [tree_next] and [tree_prev] of a node return its neighbours (NULL at the ends), each
    within a number of turns logarithmic in the size. *)
Theorem tree_walk_correct F s t fuel :
  R F s [] t -> rb_tree t -> (height (length (inorder t)) < fuel)%nat ->
  tree_first fuel (root s) s = Some (hd 0 (inorder t), s) /\
  tree_last fuel (root s) s = Some (List.last (inorder t) 0, s) /\
  forall l1 x l2, inorder t = l1 ++ x :: l2 ->
    tree_next fuel x s = Some (hd 0 l2, s) /\ tree_prev fuel x s = Some (List.last l1 0, s).
Proof.
  intros HR Hrb Hf. pose proof (rb_tree_depth t Hrb) as Hd. rewrite (R_root _ _ _ _ HR).
  destruct fuel as [|fuel]; [lia|]. split_and!.
  - destruct t as [|c l x r] eqn:Et; [done|]. rewrite <- Et in *.
    pose proof (tree_first_ok (S fuel) F s [] t ltac:(lia) ltac:(by subst) HR) as (p & s' & H & -> & k & d & e & Hk & ->)%wp_elim.
    by rewrite H, inorder_plug, all_left_before.
  - destruct t as [|c l x r] eqn:Et; [done|]. rewrite <- Et in *.
    pose proof (tree_last_ok (S fuel) F s [] t ltac:(lia) ltac:(by subst) HR) as (p & s' & H & -> & k & d & e & Hk & ->)%wp_elim.
    rewrite H, inorder_plug, all_right_after by done. cbn [inorder]. by rewrite app_nil_r, app_assoc, last_last.
  - intros l1 x l2 Ht. destruct (find_place _ _ _ _ _ _ HR Ht) as (k & c & l & r & -> & HR' & -> & ->).
    pose proof (depth_plug k (T c l x r)) as Hp. cbn [depth] in Hp. split.
    + pose proof (tree_next_ok (S fuel) F s k c l x r ltac:(lia) HR') as (p & s' & H & -> & ->)%wp_elim. done.
    + pose proof (tree_prev_ok (S fuel) F s k c l x r ltac:(lia) HR') as (p & s' & H & -> & ->)%wp_elim. done.
Qed.

(** * Searching *)

Section Searches.
Context (c : Z -> Z).

Lemma ranked_node l x r : ranked c (l ++ x :: r) ->
  ranked c l /\ ranked c r /\ (forall z, z ∈ l -> Z.sgn (c x) <= Z.sgn (c z)) /\ (forall z, z ∈ r -> Z.sgn (c z) <= Z.sgn (c x)).
Proof.
  intros H. apply StronglySorted_app in H as (H1 & H2 & H3). inversion H3 as [|? ? H4 H5]; subst. split_and!; try done.
  - intros z Hz. apply H1; [done|left].
  - by apply Forall_forall.
Qed.
Lemma sgn_lt a b : Z.sgn a <= Z.sgn b -> b < 0 -> a < 0.
Proof. lia. Qed.
Lemma last_app_cons {A} (l1 l2 : list A) x d : List.last (l1 ++ x :: l2) d = List.last l2 x.
Proof.
  induction l1 as [|a l1 IH]; cbn [app]; [|destruct l1; exact IH]. revert x. induction l2 as [|b l2 IH]; intros x; [done|].
  cbn [List.last]. destruct l2; [done|]. exact (IH x).
Qed.

Lemma tree_get_ok fuel : forall F s k t, (depth t < fuel)%nat -> R F s k t -> ranked c (inorder t) ->
  wp (tree_get c fuel (addr t)) s (fun p s' => s' = s /\ ((p ∈ inorder t /\ c p = 0) \/ (p = 0 /\ Forall (fun z => c z <> 0) (inorder t)))).
Proof.
  induction fuel as [|fuel IH]; intros F s k t Hf HR Hs; [lia|]. cbn [tree_get]. rewrite (R_is_null _ _ _ _ HR).
  destruct t as [|d l x r]; [tstep; split; [done|]; right; done|]. cbn [inorder depth addr] in *. apply ranked_node in Hs as (Hl & Hr & Hlx & Hrx).
  destruct (c x <? 0) eqn:E1; [|destruct (0 <? c x) eqn:E2]; bool_prop.
  - repeat tstep. eapply wp_mono; [eapply IH; [|apply R_down_left, HR|done]; lia|]. intros p s' (-> & Hp). split; [done|].
    destruct Hp as [[H1 H2]|[-> H]]; [left; set_solver|right]. split; [done|]. apply Forall_app. split; [done|]. constructor; [lia|].
    apply Forall_forall. intros z Hz. specialize (Hrx z Hz). lia.
  - repeat tstep. eapply wp_mono; [eapply IH; [|apply R_down_right, HR|done]; lia|]. intros p s' (-> & Hp). split; [done|].
    destruct Hp as [[H1 H2]|[-> H]]; [left; set_solver|right]. split; [done|]. apply Forall_app. split; [|constructor; [lia|done]].
    apply Forall_forall. intros z Hz. specialize (Hlx z Hz). lia.
  - tstep. split; [done|]. left. split; [set_solver|lia].
Qed.
Lemma tree_lower_ok fuel : forall F s k t left, (depth t < fuel)%nat -> R F s k t -> ranked c (inorder t) ->
  wp (tree_lower c fuel (addr t) left) s (fun p s' => s' = s /\ p = hd left (filter (fun z => c z <= 0) (inorder t))).
Proof.
  induction fuel as [|fuel IH]; intros F s k t left Hf HR Hs; [lia|]. cbn [tree_lower]. rewrite (R_is_null _ _ _ _ HR).
  destruct t as [|d l x r]; [by tstep|]. cbn [inorder depth addr] in *. apply ranked_node in Hs as (Hl & Hr & Hlx & Hrx).
  rewrite filter_app, filter_cons. destruct (c x <=? 0) eqn:E1; bool_prop.
  - repeat tstep. eapply wp_mono; [eapply (IH _ _ _ l x); [|apply R_down_left, HR|done]; lia|]. intros p s' (-> & ->). split; [done|].
    rewrite decide_True by lia. by destruct (filter _ (inorder l)).
  - repeat tstep. eapply wp_mono; [eapply (IH _ _ _ r left); [|apply R_down_right, HR|done]; lia|]. intros p s' (-> & ->). split; [done|].
    rewrite decide_False by lia. rewrite (filter_none _ (inorder l)); [done|]. intros z Hz. specialize (Hlx z Hz). lia.
Qed.
Lemma tree_ceil_ok fuel : forall F s k t left, (depth t < fuel)%nat -> R F s k t -> ranked c (inorder t) ->
  wp (tree_ceil c fuel (addr t) left) s (fun p s' => s' = s /\ p = hd left (filter (fun z => c z < 0) (inorder t))).
Proof.
  induction fuel as [|fuel IH]; intros F s k t left Hf HR Hs; [lia|]. cbn [tree_ceil]. rewrite (R_is_null _ _ _ _ HR).
  destruct t as [|d l x r]; [by tstep|]. cbn [inorder depth addr] in *. apply ranked_node in Hs as (Hl & Hr & Hlx & Hrx).
  rewrite filter_app, filter_cons. destruct (c x <? 0) eqn:E1; bool_prop.
  - repeat tstep. eapply wp_mono; [eapply (IH _ _ _ l x); [|apply R_down_left, HR|done]; lia|]. intros p s' (-> & ->). split; [done|].
    rewrite decide_True by lia. by destruct (filter _ (inorder l)).
  - repeat tstep. eapply wp_mono; [eapply (IH _ _ _ r left); [|apply R_down_right, HR|done]; lia|]. intros p s' (-> & ->). split; [done|].
    rewrite decide_False by lia. rewrite (filter_none _ (inorder l)); [done|]. intros z Hz. specialize (Hlx z Hz). lia.
Qed.
Lemma tree_floor_ok fuel : forall F s k t left, (depth t < fuel)%nat -> R F s k t -> ranked c (inorder t) ->
  wp (tree_floor c fuel (addr t) left) s (fun p s' => s' = s /\
    ((p ∈ inorder t /\ c p = 0) \/ (Forall (fun z => c z <> 0) (inorder t) /\ p = List.last (filter (fun z => 0 < c z) (inorder t)) left))).
Proof.
  induction fuel as [|fuel IH]; intros F s k t left Hf HR Hs; [lia|]. cbn [tree_floor]. rewrite (R_is_null _ _ _ _ HR).
  destruct t as [|d l x r]; [tstep; split; [done|]; by right|]. cbn [inorder depth addr] in *. apply ranked_node in Hs as (Hl & Hr & Hlx & Hrx).
  rewrite filter_app, filter_cons. destruct (c x <? 0) eqn:E1; [|destruct (0 <? c x) eqn:E2]; bool_prop.
  - repeat tstep. eapply wp_mono; [eapply IH; [|apply R_down_left, HR|done]; lia|]. intros p s' (-> & Hp). split; [done|].
    destruct Hp as [[H1 H2]|[H ->]]; [left; set_solver|right]. split.
    + apply Forall_app. split; [done|]. constructor; [lia|]. apply Forall_forall. intros z Hz. specialize (Hrx z Hz). lia.
    + rewrite decide_False by lia. rewrite (filter_none _ (inorder r)); [by rewrite app_nil_r|]. intros z Hz. specialize (Hrx z Hz). lia.
  - repeat tstep. eapply wp_mono; [eapply IH; [|apply R_down_right, HR|done]; lia|]. intros p s' (-> & Hp). split; [done|].
    destruct Hp as [[H1 H2]|[H ->]]; [left; set_solver|right]. split.
    + apply Forall_app. split; [|constructor; [lia|done]]. apply Forall_forall. intros z Hz. specialize (Hlx z Hz). lia.
    + rewrite decide_True by lia. rewrite last_app_cons. done.
  - tstep. split; [done|]. left. split; [set_solver|lia].
Qed.
End Searches.

(** The searches agree with a scan of the nodes in order. In a red-black tree whose nodes
    are ordered as the search function [c] ranks them, [tree_get] returns a node equal to
    the key or NULL when there is none, [tree_lower] the first node not less than the key,
    [tree_ceil] the first node greater, and [tree_floor] a node equal to the key, or else the
    last node less than it; each within a number of turns logarithmic in the size. *)
Theorem tree_search_correct c F s t fuel :
  R F s [] t -> rb_tree t -> ranked c (inorder t) -> (height (length (inorder t)) < fuel)%nat ->
  (exists p, tree_get c fuel (root s) s = Some (p, s) /\
     ((p ∈ inorder t /\ c p = 0) \/ (p = 0 /\ Forall (fun z => c z <> 0) (inorder t)))) /\
  tree_lower c fuel (root s) 0 s = Some (hd 0 (filter (fun z => c z <= 0) (inorder t)), s) /\
  tree_ceil c fuel (root s) 0 s = Some (hd 0 (filter (fun z => c z < 0) (inorder t)), s) /\
  exists p, tree_floor c fuel (root s) 0 s = Some (p, s) /\
    ((p ∈ inorder t /\ c p = 0) \/
     (Forall (fun z => c z <> 0) (inorder t) /\ p = List.last (filter (fun z => 0 < c z) (inorder t)) 0)).
Proof.
  intros HR Hrb Hs Hf. pose proof (rb_tree_depth t Hrb) as Hd. rewrite (R_root _ _ _ _ HR). split_and!.
  - pose proof (tree_get_ok c fuel F s [] t ltac:(lia) HR Hs) as (p & s' & H & -> & Hp)%wp_elim. by exists p.
  - pose proof (tree_lower_ok c fuel F s [] t 0 ltac:(lia) HR Hs) as (p & s' & H & -> & ->)%wp_elim. done.
  - pose proof (tree_ceil_ok c fuel F s [] t 0 ltac:(lia) HR Hs) as (p & s' & H & -> & ->)%wp_elim. done.
  - pose proof (tree_floor_ok c fuel F s [] t 0 ltac:(lia) HR Hs) as (p & s' & H & -> & Hp)%wp_elim. by exists p.
Qed.

(** On a tree with the red-black invariant and logarithmic fuel, [tree_first], [tree_last],
    [tree_next] and [tree_prev] follow the order of the nodes, and for every comparison that is
    monotone along it [tree_get], [tree_lower], [tree_ceil] and [tree_floor] return what a scan
    of the nodes returns; none of them changes memory. *)
Theorem tree_queries_correct F s t fuel :
  R F s [] t -> rb_tree t -> (height (length (inorder t)) < fuel)%nat ->
  (tree_first fuel (root s) s = Some (hd 0 (inorder t), s) /\
   tree_last fuel (root s) s = Some (List.last (inorder t) 0, s) /\
   forall l1 x l2, inorder t = l1 ++ x :: l2 ->
     tree_next fuel x s = Some (hd 0 l2, s) /\ tree_prev fuel x s = Some (List.last l1 0, s)) /\
  forall c, ranked c (inorder t) ->
    (exists p, tree_get c fuel (root s) s = Some (p, s) /\
       ((p ∈ inorder t /\ c p = 0) \/ (p = 0 /\ Forall (fun z => c z <> 0) (inorder t)))) /\
    tree_lower c fuel (root s) 0 s = Some (hd 0 (filter (fun z => c z <= 0) (inorder t)), s) /\
    tree_ceil c fuel (root s) 0 s = Some (hd 0 (filter (fun z => c z < 0) (inorder t)), s) /\
    exists p, tree_floor c fuel (root s) 0 s = Some (p, s) /\
      ((p ∈ inorder t /\ c p = 0) \/
       (Forall (fun z => c z <> 0) (inorder t) /\ p = List.last (filter (fun z => 0 < c z) (inorder t)) 0)).
Proof.
  intros HR Hrb Hf. split; [by apply (tree_walk_correct F)|].
  intros c Hc. by apply (tree_search_correct c F).
Qed.

Lemma tree_queries_correct_witness :
  tree_first 3 16 one_node = Some (16, one_node) /\ tree_next 3 16 one_node = Some (0, one_node) /\
  tree_lower (fun z => 10 - z) 3 16 0 one_node = Some (16, one_node) /\
  tree_ceil (fun z => 16 - z) 3 16 0 one_node = Some (0, one_node).
Proof.
  destruct (tree_queries_correct (mem one_node) one_node (T false E 16 E) 3 one_node_R) as [(H1 & _ & H2) H3];
    [split; [reflexivity|by exists 1%nat]|vm_compute; lia|].
  split_and!; [exact H1|apply (H2 [] 16 []); reflexivity| |]; apply H3; repeat constructor.
Defined.
