(* ===== verification/TreeRemove.v ===== *)
(** Removal from a red-black tree: splicing a node out and restoring the black height keep
    the invariant and the order of the other nodes. *)
From S2P Require Import Prelude Tree TreeFacts TreeInsert TreeWalk.
From stdpp Require Import list gmap sorting.
#[local] Open Scope Z_scope.

(** * Rebalancing *)

(** A subtree that lacks one black node: [n] black nodes on every path below a red root, whose
    children may be red. *)
Definition lacking (t : tree) (n : nat) : Prop := match t with T true l _ r => RB l n /\ RB r n | _ => RB t n end.
Lemma RB_lacking t n : RB t n -> lacking t n.
Proof. destruct t as [|[] l x r]; [done| |done]. cbn. tauto. Qed.
Lemma lacking_black t n : is_red t = false -> lacking t n -> RB t n.
Proof. by destruct t as [|[] l x r]. Qed.
Lemma RB_S t n : RB t (S n) -> is_red t = false -> exists l x r, t = T false l x r /\ RB l n /\ RB r n.
Proof. destruct t as [|[] l x r]; [done|done|]. intros [? ?] _. by exists l, x, r. Qed.
Lemma RB_red t : is_red t = true -> exists l x r, t = T true l x r.
Proof. destruct t as [|[] l x r]; [done| |done]. by exists l, x, r. Qed.

Section RemoveLoop.
Context (F : gmap Z Tree) (order : list Z).
(** Painting the node [p] black restores the tree. *)
Definition almost (p : Z) (s : TS) : Prop :=
  exists k t, R F s k t /\ p = addr t /\ rb_tree (plug k (blacken t)) /\ inorder (plug k t) = order.

Lemma remove_done s k t n : R F s k t -> RB t n -> RBk k n -> (kred k = true -> is_red t = false) -> inorder (plug k t) = order ->
  almost (root s) s.
Proof.
  intros HR Ht Hk Hr Ho. exists [], (plug k t). apply R_all in HR. split; [done|]. split; [by rewrite (R_root _ _ _ _ HR)|]. split; [|done].
  assert (rb_tree (plug k t)) as H by (eapply RB_plug; eauto; destruct k; [right; by apply Hr|by left]).
  destruct H as [H1 H2]. cbn [plug]. by destruct (plug k t) as [|[] l x r].
Qed.
Lemma remove_stop s k t n : R F s k t -> lacking t n -> RBk k (S n) -> k = [] \/ is_red t = true -> inorder (plug k t) = order ->
  almost (addr t) s.
Proof.
  intros HR Ht Hk Hr Ho. exists k, t. split; [done|]. split; [done|]. split; [|done]. destruct t as [|[] l x r].
  - destruct Hr as [->|]; [|done]. split; [done|]. by exists n.
  - apply (RB_plug k _ (S n)); [done|done|done|by right].
  - destruct Hr as [->|]; [|done]. split; [done|]. by exists n.
Qed.

(** A red node stops the loop. *)
Lemma remove_loop_red fuel s k l x r n : (0 < fuel)%nat -> R F s k (T true l x r) -> lacking (T true l x r) n -> RBk k (S n) ->
  inorder (plug k (T true l x r)) = order -> wp (rebalance_remove_loop fuel x (caddr k)) s almost.
Proof.
  intros Hf HR Ht Hk Ho. destruct fuel as [|fuel]; [lia|]. cbn [rebalance_remove_loop]. tstep. tstep. tstep.
  destruct (x =? root s); [repeat tstep; eapply (remove_stop _ _ (T true l x r)); eauto|].
  reading at_isblack x. cbn [negb]. tstep. eapply (remove_stop _ _ (T true l x r)); eauto.
Qed.

(** Runs the loop, splitting on the colours of the nephews. *)
Ltac run :=
  repeat first
    [ tstep
    | match goal with
      | H : is_red ?u = false |- context [is_red ?u] => rewrite H; cbn [negb]
      | |- context [is_red ?u] => let H := fresh "Hred" in destruct (is_red u) eqn:H; [apply RB_red in H as (? & ? & ? & ->)|]; cbn [negb]
      end ].

(** The loop on the subtree [t], one black node short. *)
Lemma remove_loop_ok fuel : forall s k t n, (length k + 2 <= fuel)%nat -> R F s k t -> lacking t n -> RBk k (S n) ->
  inorder (plug k t) = order -> wp (rebalance_remove_loop fuel (addr t) (caddr k)) s almost.
Proof.
  induction fuel as [|fuel IH]; intros s k t n Hf HR Ht Hk Ho; [lia|]. cbn [rebalance_remove_loop].
  tstep. tstep. tstep. destruct k as [|f k].
  { rewrite (R_root _ _ _ _ HR), Z.eqb_refl. repeat tstep. eapply remove_stop; eauto. }
  rewrite (R_not_root _ _ _ _ _ HR). eapply R_isblack; [exact HR|]. destruct (is_red t) eqn:Et; cbn [negb].
  { tstep. eapply remove_stop; eauto. }
  apply lacking_black in Ht; [|done]. apply R_up in HR. cbn [length] in Hf.
  assert (RB (sib f) (S n)) as Hs by (destruct f as [[] ? ?|[] ? ?]; cbn in *; tauto).
  assert (exists c l x r, sib f = T c l x r) as (cw & wl & w & wr & Hw) by (destruct (sib f) as [|[] ? ? ?]; [done|eauto..]).
  destruct f as [c p sb|c sb p]; cbn [sib] in *; subst sb; cbn [plug1] in HR; sides HR p; repeat tstep; eqbs; repeat tstep.
  all: assert (cw = true -> c = false /\ exists l1 v1 r1 l2 v2 r2, wl = T false l1 v1 r1 /\ wr = T false l2 v2 r2 /\ RB l1 n /\ RB r1 n /\ RB l2 n /\ RB r2 n) as Hred
    by (intros ->; split; [by destruct c; cbn in Hk; destruct_and? Hk|]; destruct Hs as (Hw1 & Hw2 & Hw3 & Hw4);
        destruct (RB_S _ _ Hw1 Hw3) as (l1 & v1 & r1 & -> & ? & ?); destruct (RB_S _ _ Hw2 Hw4) as (l2 & v2 & r2 & -> & ? & ?); by exists l1, v1, r1, l2, v2, r2).
  all: destruct cw;
    [destruct Hred as (-> & l1 & v & r1 & l2 & v2 & r2 & -> & -> & ? & ? & ? & ?); [done|]; cbn in Hk; destruct_and? Hk|clear Hred; destruct Hs as [Hw1 Hw2]].
  all: run.
  all: try match goal with
       | |- wp (rebalance_remove_loop _ ?p ?w) _ _ =>
           match type of HR with
           | R _ _ _ (T false (T true ?l p ?r) w ?e) => apply (R_up _ _ (FL false w e)) in HR; eapply (remove_loop_red _ _ (FL false w e :: k) l p r n); [lia|exact HR| | |by_order Ho]
           | R _ _ _ (T false ?e w (T true ?l p ?r)) => apply (R_up _ _ (FR false e w)) in HR; eapply (remove_loop_red _ _ (FR false e w :: k) l p r n); [lia|exact HR| | |by_order Ho]
           end; cbn in *; tauto
       end.
  all: try match type of HR with
       | R _ _ _ (T ?d _ _ _) => is_var d; destruct d; cbn in Hk; destruct_and? Hk
       end.
  all: try match goal with
       | |- wp (rebalance_remove_loop _ _ _) _ _ =>
           match type of HR with
           | R _ _ _ (T true ?l ?p ?r) => eapply (remove_loop_red _ _ k l p r n); [lia|exact HR| | |by_order Ho]; cbn in *; tauto
           | R _ _ _ ?t' => eapply (IH _ k t' (S n)); [lia|exact HR| | |by_order Ho]; cbn in *; tauto
           end
       end.
  all: match type of HR with
       | R _ _ _ (T true _ _ _) => eapply (remove_done _ k _ (S n)); [exact HR| | | |by_order Ho]
       | R _ _ _ (T false _ _ _) => eapply (remove_done _ k _ (S (S n))); [exact HR| | | |by_order Ho]
       end; cbn in *; try congruence; tauto.
Qed.

Lemma rebalance_remove_ok fuel s k t n (Q : unit -> TS -> Prop) : (length k + 2 <= fuel)%nat -> R F s k t -> lacking t n -> RBk k (S n) ->
  inorder (plug k t) = order -> (forall s' t', R F s' [] t' -> rb_tree t' -> inorder t' = order -> Q tt s') ->
  wp (tree_rebalance_remove fuel (addr t) (caddr k)) s Q.
Proof.
  intros Hf HR Ht Hk Ho HQ. unfold tree_rebalance_remove. tstep. eapply wp_mono; [by eapply remove_loop_ok|].
  intros p s' (k' & t' & HR' & -> & Hrb & Ho'). cbn beta. rewrite (R_is_null _ _ _ _ HR'). destruct t' as [|c l x r]; cbn [negb whenM addr].
  - tstep. apply (HQ _ (plug k' E)); [by rewrite <- R_all|done|done].
  - eapply (R_set_red _ _ _ _ _ _ _ HR' false). intros s2 HR2. apply (HQ _ (plug k' (T false l x r))); [by rewrite <- R_all|done|].
    rewrite <- Ho', !inorder_plug. done.
Qed.
End RemoveLoop.

(** * Splicing a node out *)

(** The subtree [b], whatever its parent was, takes the place of the node [u]. *)
Lemma wp_transplant s k u c l r q b (Q : unit -> TS -> Prop) :
  mem s !! u = Some (cell l c r (caddr k)) -> l mod 2 = 0 -> repk (mem s) u k -> good (kelems k) -> u ∉ kelems k -> good_addr u ->
  rep (mem s) q b -> good (inorder b) -> off (inorder b) (kelems k) -> u ∉ inorder b ->
  (forall s', repk (mem s') (addr b) k -> rep (mem s') (caddr k) b ->
     (forall z, z ∉ kelems k -> z ∉ inorder b -> mem s' !! z = mem s !! z) ->
     root s' = (match k with [] => addr b | _ => root s end) -> Q tt s') ->
  wp (tree_transplant u (addr b)) s Q.
Proof.
  intros Hu Hl Hk Hgk Huk [Hu0 Hue] Hb Hgb Hoff Hub HQ. unfold tree_transplant. repeat step.
  apply wp_replace_child; [done|done|done|lia|done|by apply addr_even|]. intros s1 Hk1 Hm1 Hr1.
  assert (rep (mem s1) q b) as Hb1 by (eapply rep_frame; [|exact Hb]; intros z Hz; apply Hm1; by apply Hoff).
  assert (mem s1 !! u = Some (cell l c r (caddr k))) as Hu1 by (by rewrite Hm1).
  rewrite addr_zero by done. destruct b as [|d a x e]; cbn [negb whenM addr].
  { tstep. apply HQ; try done. intros z Hz _. by apply Hm1. }
  destruct Hb1 as (Hx & Ha & He). cbn [inorder] in *. destruct Hgb as [Hn _]. apply NoDup_app in Hn as (_ & Hn1 & Hn2). apply NoDup_cons in Hn2 as [Hn2 _].
  assert (x ∉ inorder a) by (intros Hxa; apply (Hn1 x Hxa); left). assert (x ∉ kelems k) by (apply Hoff; set_solver).
  repeat step. apply HQ; cbn [mem root rep]; [by apply repk_insert| | |done].
  - rewrite lookup_insert_eq. split; [done|]. split; by apply rep_insert.
  - intros z Hz1 Hz2. rewrite lookup_insert_ne by set_solver. by apply Hm1.
Qed.

Lemma good_skip l x r : good (l ++ x :: r) -> good (l ++ r).
Proof.
  intros [Hn Hf]. split.
  - assert (NoDup (x :: l ++ r)) as H by (apply (nodup_perm _ _ Hn); solve_Permutation). by apply NoDup_cons in H as [_ H].
  - apply Forall_app in Hf as [H1 H2]. apply Forall_app. split; [done|]. by inversion H2.
Qed.

(** The second half of [tree_remove]: the successor [y], linked to its new right subtree,
    takes the place and the left subtree and colour of [x]. *)
Lemma splice_ok {A} F s k c l x r0 cy y q rr (a : A) (Q : A -> TS -> Prop) :
  mem s !! x = Some (cell (addr l) c r0 (caddr k)) -> rep (mem s) x l -> rep (mem s) q (T cy E y rr) -> repk (mem s) x k ->
  root s = (match k with [] => x | _ => addr (plug k E) end) ->
  good (inorder l ++ x :: y :: inorder rr) -> good (kelems k) -> off (inorder l ++ x :: y :: inorder rr) (kelems k) ->
  (forall z, z ∉ inorder l ++ x :: y :: inorder rr -> z ∉ kelems k -> mem s !! z = F !! z) -> l <> E ->
  (forall s' v, R (<[x := v]> F) s' k (T c l y rr) -> Q a s') ->
  wp (tree_transplant x y;; (nl ← tree_get_left x; tree_set_left y nl);; (yl ← tree_get_left y; set_parent yl y);;
      (nc ← tree_get_red x; tree_set_red y nc);; mret a) s Q.
Proof.
  intros Hx Hl Hy Hk Hrt Hg Hgk Hoff HF Hl0 HQ.
  destruct (triple_facts _ _ [] _ _ _ (proj1 Hg) Hoff) as ((Hxy & Hxl & _ & Hxr & HxK) & (Hyl & _ & Hyr & HyK) & (_ & Hlr & _) & (HlK & _ & HrK)).
  pose proof (good_children _ _ (T false E y rr) Hg) as (Hgl & Hgy & Hgx).
  assert (off (inorder (T cy E y rr)) (kelems k)) as Hoy by (intros z; cbn; rewrite elem_of_cons; intros [->|]; auto).
  apply wp_bind. apply (wp_transplant s k x c (addr l) r0 q (T cy E y rr)); try done; [by apply addr_even|cbn; set_solver|].
  intros s1 Hk1 (Hy1 & _ & Hr1) Hm1 Hrt1. cbn [addr inorder app] in *.
  assert (mem s1 !! x = Some (cell (addr l) c r0 (caddr k))) as Hx1 by (rewrite Hm1; [done|done|set_solver]).
  assert (rep (mem s1) x l) as Hl1 by (eapply rep_frame; [|exact Hl]; intros z Hz; apply Hm1; [by apply HlK|]; specialize (Hlr z Hz); set_solver).
  repeat step. destruct l as [|d a' v e]; [done|]. cbn [rep addr] in *. destruct Hl1 as (Hv & Ha' & He). cbn [inorder] in *.
  assert (v <> x /\ v <> y /\ v ∉ inorder rr /\ v ∉ kelems k) as (Hvx & Hvy & Hvr & HvK).
  { split_and!; [set_solver|set_solver|apply Hlr; set_solver|apply HlK; set_solver]. }
  pose proof (addr_good (T d a' v e) Hgl Hl0) as Hgv. cbn [addr] in Hgv. destruct Hgl as [Hnl _]. apply NoDup_app in Hnl as (_ & Hn1 & Hn2). apply NoDup_cons in Hn2 as [Hn2 _].
  assert (v ∉ inorder a') by (intros Hva; apply (Hn1 v Hva); left).
  repeat step. apply (HQ _ (cell v c r0 (caddr k))). apply R_parts. cbn [rep repk mem root addr inorder].
  assert (y ∉ inorder a' /\ y ∉ inorder e) as [Hya Hye] by set_solver.
  split_and!; try done.
  - by rewrite lookup_insert_eq.
  - rewrite lookup_insert_ne by done. by rewrite lookup_insert_eq.
  - by repeat apply rep_insert.
  - by repeat apply rep_insert.
  - by repeat apply rep_insert.
  - by repeat apply repk_insert.
  - rewrite Hrt1. destruct k; [done|]. exact Hrt.
  - by eapply good_skip.
  - intros z Hz. apply Hoff. set_solver.
  - intros z Hz1 Hz2. destruct (decide (z = x)) as [->|Hzx].
    + rewrite lookup_insert_eq, !lookup_insert_ne by done. done.
    + rewrite !lookup_insert_ne by set_solver. rewrite Hm1 by set_solver. apply HF; set_solver.
Qed.

(** A node with one child at most is bypassed. *)
Lemma bypass_ok F s k c l x r b (Q : unit -> TS -> Prop) : R F s k (T c l x r) -> (l = E /\ b = r) \/ (r = E /\ b = l) ->
  (forall s', let v := cell (addr l) c (addr r) (caddr k) in R (<[x := v]> F) s' k b -> mem s' !! x = Some v -> Q tt s') ->
  wp (tree_transplant x (addr b)) s Q.
Proof.
  intros HR Hb HQ. pose proof (R_cell _ _ _ _ _ _ _ HR) as (Hx & Hle & Hgx). apply R_parts in HR as ((_ & Hl & Hr) & Hk & Hrt & Hg & Hgk & Hd & HF).
  cbn [inorder addr] in *. pose proof (good_skip _ _ _ Hg) as Hgs.
  assert (inorder b = inorder l ++ inorder r) as Hib by (destruct Hb as [[-> ->]|[-> ->]]; cbn; by rewrite ?app_nil_r).
  assert (x ∉ inorder b) as Hxb.
  { rewrite Hib. destruct Hg as [Hn _]. assert (NoDup (x :: inorder l ++ inorder r)) as Hn' by (apply (nodup_perm _ _ Hn); solve_Permutation).
    by apply NoDup_cons in Hn' as [Hn' _]. }
  assert (off (inorder b) (kelems k)) as Hob by (rewrite Hib; intros z Hz; apply Hd; set_solver +Hz).
  assert (x ∉ kelems k) as HxK by (apply Hd; set_solver +).
  eapply (wp_transplant s k x c _ _ x b); try done; [by destruct Hb as [[-> ->]|[-> ->]]|by rewrite Hib|].
  intros s1 Hk1 Hb1 Hm1 Hrt1. apply (HQ s1); [|by rewrite Hm1].
  apply R_parts. split_and!; try done; [|by rewrite Hib|].
  - rewrite Hrt1. destruct k; [done|]. exact Hrt.
  - intros z Hz1 Hz2. rewrite Hm1 by done. destruct (decide (z = x)) as [->|Hzx]; [by rewrite lookup_insert_eq|].
    rewrite lookup_insert_ne by done. apply HF; [|done]. rewrite Hib in Hz1. set_solver +Hz1 Hzx.
Qed.

Lemma faddr_in f k t : faddr f ∈ inorder (plug (f :: k) t).
Proof. rewrite inorder_plug_perm. destruct f; cbn; set_solver +. Qed.

(** The successor's place in the tree before and after. *)
Lemma RBk_rename k1 c l x y k n : RBk (k1 ++ FR c l x :: k) n -> RBk (k1 ++ FR c l y :: k) n.
Proof.
  revert n. induction k1 as [|f k1 IH]; intros n; [by destruct c|]. cbn [app]. assert (kred (k1 ++ FR c l x :: k) = kred (k1 ++ FR c l y :: k)) as Hk by (by destruct k1 as [|[] ?]).
  destruct f as [[] ? ?|[] ? ?]; cbn [RBk]; rewrite ?Hk; specialize (IH n) as IH0; specialize (IH (S n)); tauto.
Qed.
Lemma kred_rename k1 c l x y k : kred (k1 ++ FR c l x :: k) = kred (k1 ++ FR c l y :: k).
Proof. by destruct k1 as [|[] ?]. Qed.

Lemma wp_set_parent_of s p b v (Q : unit -> TS -> Prop) : rep (mem s) p b -> good (inorder b) -> b <> E ->
  (forall m', rep m' v b -> (forall z, z ∉ inorder b -> m' !! z = mem s !! z) -> Q tt (mkTS (root s) m')) ->
  wp (set_parent (addr b) v) s Q.
Proof. intros Hr Hg Hb HQ. pose proof (wp_reparent s p b v Q Hr Hg HQ) as H. rewrite addr_zero in H by done. by destruct b. Qed.

(** The successor [y] of [x], at [k1] in its right subtree, is cut out and put in the place
    of [x]; the loop goes on at its right child. *)
Lemma successor_ok {A} F s k c l x k1 cy y yr (f : Z -> Z -> A) (Q : A -> TS -> Prop) :
  R F s (k1 ++ FR c l x :: k) (T cy E y yr) -> l <> E -> all_left k1 ->
  (forall s' v, R (<[x := v]> F) s' (k1 ++ FR c l y :: k) yr -> Q (f (addr yr) (caddr (k1 ++ FR c l y :: k))) s') ->
  wp (x' ← get_right y; yp ← get_parent y;
      x_parent ← (if yp =? x then whenM (negb (x' =? 0)) (set_parent x' y);; mret y
                  else tree_transplant y x';; (nr ← get_right x; set_right y nr);; (yr ← get_right y; set_parent yr y);; get_parent y);
      tree_transplant x y;; (nl ← tree_get_left x; tree_set_left y nl);; (yl ← tree_get_left y; set_parent yl y);;
      (nc ← tree_get_red x; tree_set_red y nc);; mret (f x' x_parent)) s Q.
Proof.
  intros HR Hl Hk1 HQ. tstep. eapply R_get_right; [exact HR|]. tstep. eapply R_get_parent; [exact HR|].
  pose proof HR as HR0. apply R_plug in HR0. apply R_up in HR0. cbn [plug1] in HR0.
  assert (inorder (plug k1 (T cy E y yr)) = y :: inorder (plug k1 yr)) as Hio.
  { rewrite !inorder_plug, all_left_before by done. done. }
  apply R_parts in HR0 as ((Hx & Hrl & Hrr) & Hk & Hrt & Hg & Hgk & Hd & HF). cbn [inorder addr] in *. rewrite Hio in *.
  assert (forall s' v, R (<[x := v]> F) s' k (T c l y (plug k1 yr)) -> Q (f (addr yr) (caddr (k1 ++ FR c l y :: k))) s') as HQ'.
  { intros s' v H. apply (HQ s' v). apply R_plug. by apply (R_up _ _ (FR c l y)). }
  destruct k1 as [|g k1].
  - cbn [app caddr faddr] in *. rewrite Z.eqb_refl. destruct Hrr as (Hy & _ & Hyr). cbn [plug] in *.
    pose proof (good_children _ _ (T cy E y yr) Hg) as (Hgl & Hgyr & Hgx). pose proof (good_children E y yr Hgyr) as (_ & Hgyr' & Hgy).
    destruct (triple_facts _ _ [] _ _ _ (proj1 Hg) Hd) as ((Hxy & Hxl & _ & Hxr & HxK) & (Hyl & _ & Hyr0 & HyK) & (_ & Hlr & _) & (HlK & _ & HrK)).
    tstep. tstep. eapply wp_reparent; [exact Hyr|done|]. intros m' Hyr' Hm'. tstep.
    eapply (splice_ok F _ k c l x y cy y x yr); cbn [mem root]; try done.
    + by rewrite Hm'.
    + eapply rep_frame; [|exact Hrl]. intros z Hz. apply Hm'. by apply Hlr.
    + split; [by rewrite Hm'|done].
    + eapply repk_frame; [|exact Hk]. intros z Hz. apply Hm'. by apply (off_sym _ _ HrK).
    + intros z Hz1 Hz2. rewrite Hm' by set_solver +Hz1. by apply HF.
  - set (K := (g :: k1) ++ FR c l x :: k) in *. set (rr := plug (g :: k1) yr) in *.
    assert (rr <> E) as Hrr0 by apply plug_not_E.
    destruct (triple_facts _ _ [] _ _ _ (proj1 Hg) Hd) as ((Hxy & Hxl & _ & Hxr & HxK) & (Hyl & _ & Hyr0 & HyK) & (_ & Hlr & _) & (HlK & _ & HrK)).
    assert ((caddr K =? x) = false) as ->.
    { apply Z.eqb_neq. intros Hc. apply Hxr. rewrite <- Hc. apply faddr_in. }
    tstep. tstep. eapply (bypass_ok _ _ _ _ _ _ _ yr); [exact HR|by left|]. intros s1 v HR1 Hy1.
    apply R_plug in HR1. apply R_up in HR1. cbn [plug1] in HR1. fold rr in HR1. clear HR.
    tstep. tstep. reading at_get_right x.
    apply R_parts in HR1 as ((Hx1 & Hl1 & Hr1) & Hk2 & Hrt1 & _ & _ & _ & HF1). cbn [inorder addr] in *.
    change v with (cell 0 cy (addr yr) (caddr K)) in *. clear v.
    pose proof (good_children _ _ (T cy E y rr) Hg) as (_ & Hgyr & _). pose proof (good_children E y rr Hgyr) as (_ & Hgr & Hgy).
    repeat step. eapply wp_set_parent_of; [apply rep_insert; [|exact Hr1]; done|done|done|]. intros m' Hr' Hm'. cbn [mem root] in *.
    assert (m' !! y = Some (cell 0 cy (addr rr) (caddr K))) as Hy' by (rewrite Hm' by done; by rewrite lookup_insert_eq).
    assert (forall z, z ∉ inorder rr -> z <> y -> m' !! z = mem s1 !! z) as Hm2.
    { intros z Hz1 Hz2. rewrite Hm' by done. by apply lookup_insert_ne. }
    step. apply (splice_ok F _ k c l x (addr rr) cy y (caddr K) rr); cbn [mem root]; try done.
    + by rewrite Hm2.
    + eapply rep_frame; [|exact Hl1]. intros z Hz. apply Hm2; [by apply Hlr|]. intros ->. done.
    + eapply repk_frame; [|exact Hk2]. intros z Hz. apply Hm2; [by apply (off_sym _ _ HrK)|]. intros ->. done.
    + intros z Hz1 Hz2. rewrite Hm2 by set_solver +Hz1. rewrite HF1; [|set_solver +Hz1|done]. apply lookup_insert_ne. set_solver +Hz1.
Qed.

(** * tree_remove *)

(** The end of [tree_remove]: the subtree [b] stands where a node of colour [c] was cut out. *)
Lemma remove_end F s k b c n fuel (Q : unit -> TS -> Prop) :
  R F s k b -> (match c with true => RB b n /\ is_red b = false /\ RBk k n | false => RB b n /\ RBk k (S n) end) ->
  (length k + 2 <= fuel)%nat ->
  (forall s' t', R F s' [] t' -> rb_tree t' -> inorder t' = inorder (plug k b) -> Q tt s') ->
  wp (whenM (Z.b2z c =? 0) (tree_rebalance_remove fuel (addr b) (caddr k))) s Q.
Proof.
  intros HR Hc Hf HQ. destruct c; cbn [Z.b2z Z.eqb whenM].
  - destruct Hc as (H1 & H2 & H3). tstep. apply (HQ _ (plug k b)); [by rewrite <- R_all| |done]. eapply RB_plug; eauto.
  - destruct Hc as (H1 & H2). eapply rebalance_remove_ok; [done|exact HR|by apply RB_lacking|exact H2|reflexivity|done].
Qed.

Lemma cut_facts c l x r n k b : RB (T c l x r) n -> RBk k n -> b = l \/ b = r ->
  let n := if c then n else pred n in
  match c with true => RB b n /\ is_red b = false /\ RBk k n | false => RB b n /\ RBk k (S n) end.
Proof. intros Hn Hk Hb. destruct c; cbv zeta; [cbn in Hn; destruct Hb as [->| ->]; tauto|]. destruct n; [done|]. cbn in Hn |- *. destruct Hb as [->| ->]; tauto. Qed.

Lemma tree_remove_wp F s k c l x r fuel :
  R F s k (T c l x r) -> rb_tree (plug k (T c l x r)) -> (height (length (inorder (plug k (T c l x r)))) + 2 <= fuel)%nat ->
  wp (tree_remove fuel x) s (fun _ s' => exists t' v, R (<[x := v]> F) s' [] t' /\ rb_tree t' /\
    inorder t' = (before k ++ inorder l) ++ inorder r ++ after k).
Proof.
  intros HR Hrb Hf. pose proof (rb_tree_depth _ Hrb) as Hd.
  pose proof (depth_plug k (T c l x r)) as Hdk. cbn [depth] in Hdk.
  destruct (RB_unplug _ _ Hrb) as (n & Hn & Hk & Hred).
  unfold tree_remove. repeat tstep. 
  pose proof (proj1 (R_down_left _ _ _ _ _ _ _) HR) as HL. pose proof (proj1 (R_down_right _ _ _ _ _ _ _) HR) as HRr.
  rewrite (R_is_null _ _ _ _ HL), (R_is_null _ _ _ _ HRr).
  destruct l as [|lc ll lx lr] eqn:El.
  { tstep. eapply (bypass_ok _ _ _ _ _ _ _ r); [exact HR|by left|]. intros s1 v HR1 Hx1.
    tstep. eapply (wp_get_parent _ _ 0 (addr r) (caddr k) c); [exact Hx1|]. tstep.
    eapply (remove_end _ _ k r c); [exact HR1|apply (cut_facts c E x r n k r Hn Hk); by right|lia|].
    intros s2 t' HR2 Hrb2 Ho2. exists t', v. split; [done|]. split; [done|]. rewrite Ho2, inorder_plug. cbn. by rewrite app_nil_r. }
  rewrite <- El in *. destruct r as [|rc rl rx rr] eqn:Er.
  { tstep. eapply (bypass_ok _ _ _ _ _ _ _ l); [exact HR|by right|]. intros s1 v HR1 Hx1.
    tstep. eapply (wp_get_parent _ _ (addr l) 0 (caddr k) c); [exact Hx1|]. tstep.
    eapply (remove_end _ _ k l c); [exact HR1|apply (cut_facts c l x E n k l Hn Hk); by left|lia|].
    intros s2 t' HR2 Hrb2 Ho2. exists t', v. split; [done|]. split; [done|]. rewrite Ho2, inorder_plug. cbn. by rewrite app_assoc. }
  rewrite <- Er in *. tstep. eapply wp_mono; [eapply (tree_first_ok fuel F s _ r); [lia|by subst|exact HRr]|].
  intros y s1 (-> & k1 & cy & yr & Hk1 & Hr). rewrite Hr in HRr, HR. apply R_plug in HRr. tstep. eapply R_get_red; [exact HRr|].
  destruct (RB_unplug (k1 ++ FR c l x :: k) (T cy E y yr)) as (m & Hm & Hkm & _).
  { rewrite plug_app, <- Hr. exact Hrb. }
  eapply (successor_ok F s k c l x k1 cy y yr (fun x' xp => (Z.b2z cy, x', xp))); [exact HRr|by subst|done|].
  intros s2 v HR2. cbn beta iota.
  eapply (remove_end _ _ (k1 ++ FR c l y :: k) yr cy); [exact HR2|apply (cut_facts cy E y yr m); [done|by eapply RBk_rename|by right]| |].
  - pose proof (depth_plug (k1 ++ FR c l x :: k) (T cy E y yr)) as Hdp. rewrite plug_app, <- Hr in Hdp. cbn [plug plug1] in Hdp.
    rewrite length_app in *. cbn [length depth] in *. lia.
  - intros s3 t' HR3 Hrb3 Ho3. exists t', v. split; [done|]. split; [done|]. rewrite Ho3, plug_app, Hr. cbn [plug plug1].
    rewrite !inorder_plug. cbn [inorder]. rewrite !inorder_plug, !(all_left_before k1) by done. cbn [inorder app]. rewrite <- !app_assoc. cbn [app]. by rewrite <- !app_assoc.
Qed.

(** C8: Removal keeps the red-black tree. Given any red-black tree, removing any of its nodes
    dereferences only nodes of the tree, ends within a number of turns logarithmic in the
    size, and leaves a red-black tree of the other nodes in the same order; no memory outside
    of the tree changes. *)
Theorem tree_remove_correct F s t l1 x l2 fuel :
  R F s [] t -> rb_tree t -> inorder t = l1 ++ x :: l2 -> (height (length (inorder t)) + 2 <= fuel)%nat ->
  exists s' t' v, tree_remove fuel x s = Some (tt, s') /\
    R (<[x := v]> F) s' [] t' /\ rb_tree t' /\ inorder t' = l1 ++ l2.
Proof.
  intros HR Hrb Ht Hf. destruct (find_place _ _ _ _ _ _ HR Ht) as (k & c & l & r & -> & HR' & -> & ->).
  pose proof (tree_remove_wp F s k c l x r fuel HR' Hrb Hf) as ([] & s' & H & t' & v & H1 & H2 & H3)%wp_elim. by exists s', t', v.
Qed.

Lemma tree_remove_correct_witness : exists s' t' v, tree_remove 4 16 one_node = Some (tt, s') /\
  R (<[16 := v]> (mem one_node)) s' [] t' /\ rb_tree t' /\ inorder t' = [].
Proof.
  apply (tree_remove_correct (mem one_node) one_node (T false E 16 E) [] 16 [] 4 one_node_R);
    [split; [reflexivity|by exists 1%nat]|reflexivity|vm_compute; lia].
Defined.
