(* ===== verification/TreeInstance.v ===== *)
(** The functions of [libc/intrin/tree.c] obey the laws their clients rely on. *)
From S2P Require Import Prelude NodeTree Tree TreeFacts TreeInsert TreeWalk TreeRemove.
From stdpp Require Import list gmap sorting.
#[local] Open Scope Z_scope.

(** Enough turns for any tree in the memory. *)
Definition tree_fuel (s : TS) : nat := (height (size (mem s)) + 3)%nat.
Definition run {A} (m : M A) (s : TS) : option TS := match m s with Some (_, s') => Some s' | None => None end.
Definition result {A} (m : M A) (s : TS) : option A := match m s with Some (a, _) => Some a | None => None end.
#[export] Instance tree_ops : NodeTree TS := {
  t_insert cmp n s := run (tree_insert cmp (tree_fuel s) n) s;
  t_remove x s := run (tree_remove (tree_fuel s) x) s;
  t_floor c s := result (tree_floor c (tree_fuel s) (root s) 0) s;
  t_first s := result (tree_first (tree_fuel s) (root s)) s;
  t_last s := result (tree_last (tree_fuel s) (root s)) s;
  t_next x s := result (tree_next (tree_fuel s) x) s;
  t_prev x s := result (tree_prev (tree_fuel s) x) s }.

Definition tree_nodes (s : TS) (l : list Z) : Prop := exists t, R (mem s) s [] t /\ rb_tree t /\ inorder t = l.
Definition tree_avail (s : TS) (z : Z) : Prop := good_addr z /\ is_Some (mem s !! z).

Lemma rep_lookup m p t z : rep m p t -> z ∈ inorder t -> is_Some (m !! z).
Proof.
  revert p. induction t as [|c l IHl x r IHr]; intros p; cbn; [by intros _ ?%not_elem_of_nil|]. intros (Hx & Hl & Hr).
  rewrite elem_of_app, elem_of_cons. intros [H|[->|H]]; [by apply (IHl x)|by eexists|by apply (IHr x)].
Qed.
Lemma length_size (m : gmap Z Tree) l : NoDup l -> (forall z, z ∈ l -> is_Some (m !! z)) -> (length l <= size m)%nat.
Proof.
  intros Hn Hl. rewrite <- (size_list_to_set (C := gset Z) l) by done. rewrite <- (size_dom m). apply subseteq_size.
  intros z. rewrite elem_of_list_to_set, elem_of_dom. apply Hl.
Qed.
Lemma height_mono a b : (a <= b)%nat -> (height a <= height b)%nat.
Proof. intros H. unfold height. assert (Nat.log2 (S a) <= Nat.log2 (S b))%nat by (apply Nat.log2_le_mono; lia). lia. Qed.
Lemma tree_fuel_ok F s t : R F s [] t -> (height (length (inorder t)) + 3 <= tree_fuel s)%nat.
Proof.
  intros HR. unfold tree_fuel. assert (height (length (inorder t)) <= height (size (mem s)))%nat; [|lia]. apply height_mono, length_size.
  - by destruct (good_of_R _ _ _ _ HR).
  - intros z. apply rep_lookup with (p := 0). by destruct HR.
Qed.
(** Memory of nodes stays memory of nodes. *)
Lemma avail_kept F s s' t v z : R F s' [] t -> (forall y, is_Some (mem s !! y) -> is_Some (F !! y) \/ y = v) -> v ∈ inorder t \/ is_Some (F !! v) ->
  tree_avail s z -> tree_avail s' z.
Proof.
  intros HR HF Hv [Hg Hz]. split; [done|]. destruct (decide (z ∈ inorder t)) as [Hi|Hi]; [apply (rep_lookup _ 0 t); [by destruct HR|done]|].
  destruct HR as (_ & _ & _ & _ & Hm). rewrite Hm by done. destruct (HF z Hz) as [H|H]; [done|subst]. by destruct Hv.
Qed.
Lemma own_frame F s t : R F s [] t -> R (mem s) s [] t.
Proof. intros HR. eapply R_frame_change; [exact HR|]. intros z Hz. symmetry. by apply HR. Qed.

#[export] Program Instance tree_laws : NodeTreeLaws TS := { nodes := tree_nodes; avail := tree_avail }.
Next Obligation. intros st l (t & HR & _ & <-). by destruct (good_of_R _ _ _ _ HR). Qed.
Next Obligation.
  intros st l z (t & HR & _ & <-) Hz. destruct (good_of_R _ _ _ _ HR) as [_ Hf]. split; [by apply (proj1 (Forall_forall _ _) Hf z Hz)|].
  apply (rep_lookup _ 0 t); [by destruct HR|done].
Qed.
Next Obligation. intros st l z (t & HR & _ & <-) Hz. destruct (good_of_R _ _ _ _ HR) as [_ Hf]. by apply (proj1 (Forall_forall _ _) Hf z Hz). Qed.
Next Obligation.
  intros cmp Hc st l n (t & HR & Hrb & <-) Hs [Hg Hn] Hni. pose proof (tree_fuel_ok _ _ _ HR) as Hf.
  pose proof (tree_insert_wp cmp (mem st) st t n (tree_fuel st) HR Hrb Hs Hg Hni Hn ltac:(lia)) as ([] & s' & H & t' & H1 & H2 & H3)%wp_elim.
  exists s'. cbn [t_insert t_remove tree_ops]. unfold run. rewrite H. split; [done|]. split; [exists t'; split; [by eapply own_frame|done]|].
  intros z. eapply (avail_kept _ _ _ _ n); [exact H1|by left|by right].
Qed.
Next Obligation.
  intros st l1 x l2 (t & HR & Hrb & Ht). pose proof (tree_fuel_ok _ _ _ HR) as Hf. destruct (find_place _ _ _ _ _ _ HR Ht) as (k & c & l & r & -> & HR' & -> & ->).
  pose proof (tree_remove_wp (mem st) st k c l x r (tree_fuel st) HR' Hrb ltac:(lia)) as ([] & s' & H & t' & v & H1 & H2 & H3)%wp_elim.
  exists s'. cbn [t_insert t_remove tree_ops]. unfold run. rewrite H. split; [done|]. split; [exists t'; split; [by eapply own_frame|done]|].
  intros z. eapply (avail_kept _ _ _ _ x); [exact H1| |right; by rewrite lookup_insert_eq].
  intros y Hy. destruct (decide (y = x)) as [|Hne]; [by right|left]. by rewrite lookup_insert_ne.
Qed.
Next Obligation.
  intros c st l (t & HR & Hrb & <-) Hr. pose proof (tree_fuel_ok _ _ _ HR) as Hf. pose proof (rb_tree_depth t Hrb) as Hd.
  pose proof (tree_floor_ok c (tree_fuel st) (mem st) st [] t 0 ltac:(lia) HR Hr) as (p & s' & H & -> & Hp)%wp_elim.
  exists p. cbn [t_floor t_first t_last t_next t_prev tree_ops]. unfold result. rewrite (R_root _ _ _ _ HR), H. done.
Qed.
Next Obligation.
  intros st l (t & HR & Hrb & <-). pose proof (tree_fuel_ok _ _ _ HR) as Hf. pose proof (rb_tree_depth t Hrb) as Hd.
  cbn [t_floor t_first t_last t_next t_prev tree_ops]. unfold result. rewrite (R_root _ _ _ _ HR). destruct t as [|c l x r] eqn:Et; [unfold tree_fuel; by rewrite Nat.add_comm|]. rewrite <- Et in *.
  pose proof (tree_first_ok (tree_fuel st) (mem st) st [] t ltac:(lia) ltac:(by subst) HR) as (p & s' & H & -> & k & d & e & Hk & ->)%wp_elim.
  by rewrite H, inorder_plug, all_left_before.
Qed.
Next Obligation.
  intros st l (t & HR & Hrb & <-). pose proof (tree_fuel_ok _ _ _ HR) as Hf. pose proof (rb_tree_depth t Hrb) as Hd.
  cbn [t_floor t_first t_last t_next t_prev tree_ops]. unfold result. rewrite (R_root _ _ _ _ HR). destruct t as [|c l x r] eqn:Et; [unfold tree_fuel; by rewrite Nat.add_comm|]. rewrite <- Et in *.
  pose proof (tree_last_ok (tree_fuel st) (mem st) st [] t ltac:(lia) ltac:(by subst) HR) as (p & s' & H & -> & k & d & e & Hk & ->)%wp_elim.
  rewrite H, inorder_plug, all_right_after by done. cbn [inorder]. by rewrite app_nil_r, app_assoc, last_last.
Qed.
Next Obligation.
  intros st l1 x l2 (t & HR & Hrb & Ht). pose proof (tree_fuel_ok _ _ _ HR) as Hf. pose proof (rb_tree_depth t Hrb) as Hd.
  destruct (find_place _ _ _ _ _ _ HR Ht) as (k & c & l & r & -> & HR' & -> & ->). pose proof (depth_plug k (T c l x r)) as Hp. cbn [depth] in Hp.
  pose proof (tree_next_ok (tree_fuel st) (mem st) st k c l x r ltac:(lia) HR') as (p & s' & H & -> & ->)%wp_elim. cbn [t_floor t_first t_last t_next t_prev tree_ops]. unfold result. by rewrite H.
Qed.
Next Obligation.
  intros st l1 x l2 (t & HR & Hrb & Ht). pose proof (tree_fuel_ok _ _ _ HR) as Hf. pose proof (rb_tree_depth t Hrb) as Hd.
  destruct (find_place _ _ _ _ _ _ HR Ht) as (k & c & l & r & -> & HR' & -> & ->). pose proof (depth_plug k (T c l x r)) as Hp. cbn [depth] in Hp.
  pose proof (tree_prev_ok (tree_fuel st) (mem st) st k c l x r ltac:(lia) HR') as (p & s' & H & -> & ->)%wp_elim. cbn [t_floor t_first t_last t_next t_prev tree_ops]. unfold result. by rewrite H.
Qed.

(** A tree without nodes *)
Lemma tree_empty m : nodes (mkTS 0 m) [].
Proof. exists E. split; [|split; [|done]]. { split; [done|]. split; [done|]. split; [done|]. split; [split; [apply NoDup_nil_2|constructor]|done]. } split; [done|]. by exists 0%nat. Qed.
