(* ===== verification/PageTable.v ===== *)
(** The map of live pages: [__maps_mark], [__maps_unmark] of [libc/intrin/maps.c] and
    [kisdangerous] of [libc/intrin/kisdangerous.c].

    A radix trie of five layers over the page number: four directories of 512 entries and a
    table of eight 64-bit words. Directories are maps from an index to what its entry points
    to; an absent entry is a null pointer. A new directory or table takes one unit of the
    allocator's budget, and fails when it is spent. The trie is changed under the lock of
    the memory manager, one operation at a time. *)
From stdpp Require Export gmap.
From S2P Require Export Prelude.

(** * State *)

(** [struct MapPageTable] and the layers of [struct MapPageDirectory] *)
Notation MapPageTable := (list Z) (only parsing).
Notation PD1 := (gmap Z MapPageTable) (only parsing).
Notation PD2 := (gmap Z PD1) (only parsing).
Notation PD3 := (gmap Z PD2) (only parsing).
Notation PD4 := (gmap Z PD3) (only parsing).
(** [__maps.alive], and how many allocations will succeed. *)
Record Alive := mkAlive { alive : option PD4; budget : nat }.

Definition newpt : MapPageTable := replicate 8 0.

(** Allocates a directory or table unless there is one. *)
Definition __maps_getpd {A} (p : option A) (fresh : A) (n : nat) : option (A * nat) :=
  match p with
  | Some pd => Some (pd, n)
  | None => match n with O => None | S n => Some (fresh, n) end
  end.

(** [(w >> sh) & 511] *)
Definition index (w sh : Z) : Z := Z.land (Z.shiftr w sh) 511.

(** * Operations *)

Section Pages.
Variable pagesize : Z.

(** [w += __pagesize] *)
Definition adv (w : Z) : Z := u64 (w + pagesize).
(** [while (w < e)]: gathers the bits of the pages that share a word; returns [w], [i] and
    the mask. *)
Fixpoint gather (fuel : nat) (w e i mask : Z) : option (Z * Z * Z) :=
  match fuel with
  | O => None
  | S fuel =>
      if w <? e then
        let i2 := index w 12 in
        if negb (i2 / 64 =? i / 64) then Some (w, i, mask)
        else gather fuel (adv w) e i2 (Z.lor mask (Z.shiftl 1 (Z.land i2 63)))
      else Some (w, i, mask)
  end.

Definition or_word (t : MapPageTable) (i mask : Z) : MapPageTable :=
  alter (fun x => Z.lor x mask) (Z.to_nat (i / 64)) t.
Definition andn_word (t : MapPageTable) (i mask : Z) : MapPageTable :=
  alter (fun x => Z.land x (Z.lnot mask)) (Z.to_nat (i / 64)) t.

(** One turn of [__maps_mark] at [w] with [mask] for the word of [i]; also tells whether the
    mask was applied. When memory runs out the directories made so far stay. *)
Definition mark_turn (w i mask : Z) (a : Alive) : Alive * bool :=
  match __maps_getpd (alive a) ∅ (budget a) with
  | None => (a, false)
  | Some (p4, n) =>
  match __maps_getpd (p4 !! index w 48) ∅ n with
  | None => (mkAlive (Some p4) n, false)
  | Some (p3, n) =>
  match __maps_getpd (p3 !! index w 39) ∅ n with
  | None => (mkAlive (Some (<[index w 48 := p3]> p4)) n, false)
  | Some (p2, n) =>
  match __maps_getpd (p2 !! index w 30) ∅ n with
  | None => (mkAlive (Some (<[index w 48 := <[index w 39 := p2]> p3]> p4)) n, false)
  | Some (p1, n) =>
  match __maps_getpd (p1 !! index w 21) newpt n with
  | None => (mkAlive (Some (<[index w 48 := <[index w 39 := <[index w 30 := p1]> p2]> p3]> p4)) n, false)
  | Some (pt, n) =>
      (mkAlive (Some (<[index w 48 := <[index w 39 := <[index w 30 := <[index w 21 := or_word pt i mask]> p1]> p2]> p3]> p4)) n, true)
  end end end end end.

Fixpoint mark_loop (fuel : nat) (w e : Z) (a : Alive) : option Alive :=
  match fuel with
  | O => None
  | S fuel' =>
      if w <? e then
        let i := index w 12 in
        match gather fuel (adv w) e i (Z.shiftl 1 (Z.land i 63)) with
        | None => None
        | Some (w', i, mask) =>
            match mark_turn w i mask a with
            | (a, true) => mark_loop fuel' w' e a
            | (a, false) => Some a
            end
        end
      else Some a
  end.
(** A loop counts pages, so [size] is enough fuel. *)
Definition mark_fuel (size : Z) : nat := S (Z.to_nat size).
Definition __maps_mark (addr size : Z) (a : Alive) : option Alive := mark_loop (mark_fuel size) addr (u64 (addr + size)) a.

(** [__maps_unmark] passes over pages whose directories do not exist. *)
Definition lookup_pt (w : Z) (p4 : PD4) : option MapPageTable :=
  p3 ← p4 !! index w 48; p2 ← p3 !! index w 39; p1 ← p2 !! index w 30; p1 !! index w 21.
Definition store_pt (w : Z) (t : MapPageTable) (p4 : PD4) : PD4 :=
  alter (alter (alter (alter (fun _ => t) (index w 21)) (index w 30)) (index w 39)) (index w 48) p4.
Fixpoint unmark_loop (fuel : nat) (w e : Z) (a : Alive) : option Alive :=
  match fuel with
  | O => None
  | S fuel' =>
      if w <? e then
        match alive a with
        | None => Some a
        | Some p4 =>
            match lookup_pt w p4 with
            | None => unmark_loop fuel' (adv w) e a
            | Some pt =>
                let i := index w 12 in
                match gather fuel (adv w) e i (Z.shiftl 1 (Z.land i 63)) with
                | None => None
                | Some (w', i, mask) =>
                    unmark_loop fuel' w' e (mkAlive (Some (store_pt w (andn_word pt i mask) p4)) (budget a))
                end
            end
        end
      else Some a
  end.
Definition __maps_unmark (addr size : Z) (a : Alive) : option Alive := unmark_loop (mark_fuel size) addr (u64 (addr + size)) a.

Definition kisdangerous (addr : Z) (a : Alive) : bool :=
  let w := Z.land addr (- pagesize) in
  match alive a with
  | None => true
  | Some p4 =>
      match lookup_pt w p4 with
      | None => true
      | Some pt => let i := index w 12 in Z.land (nth (Z.to_nat (i / 64)) pt 0) (Z.shiftl 1 (Z.land i 63)) =? 0
      end
  end.
End Pages.
