(* ===== verification/PageTableFacts.v ===== *)
(** The trie of live pages is a set of pages: marking adds the pages of an interval, unmarking
    removes them, and [kisdangerous] is membership. *)
From S2P Require Import Prelude PageTable.
From stdpp Require Import list gmap.
#[local] Open Scope Z_scope.

(** * Indices *)

Lemma index_mod w sh : 0 <= sh -> index w sh = (w / 2 ^ sh) mod 512.
Proof. intros H. unfold index. change 511 with (2 ^ 9 - 1). rewrite land_mask, shiftr_div by lia. done. Qed.
(** The digits of the page number [q]. *)
Lemma index_page q : index (q * 4096) 12 = q mod 512 /\ index (q * 4096) 21 = (q / 512) mod 512 /\
  index (q * 4096) 30 = (q / 512 / 512) mod 512 /\ index (q * 4096) 39 = (q / 512 / 512 / 512) mod 512 /\
  index (q * 4096) 48 = (q / 512 / 512 / 512 / 512) mod 512.
Proof.
  rewrite !index_mod by lia. rewrite !Z.div_div by lia. split_and!; f_equal.
  - change (2 ^ 12) with 4096. apply Z.div_mul. lia.
  - change (2 ^ 21) with (512 * 4096). apply Z.div_mul_cancel_r; lia.
  - change (2 ^ 30) with (512 * 512 * 4096). apply Z.div_mul_cancel_r; lia.
  - change (2 ^ 39) with (512 * 512 * 512 * 4096). rewrite Z.div_mul_cancel_r by lia. f_equal.
  - change (2 ^ 48) with (512 * 512 * 512 * 512 * 4096). rewrite Z.div_mul_cancel_r by lia. f_equal.
Qed.
Definition path (w : Z) : Z * Z * Z * Z := (index w 48, index w 39, index w 30, index w 21).
(** Equal paths mean the same table. *)
Lemma path_page q r : 0 <= q < 2 ^ 45 -> 0 <= r < 2 ^ 45 -> path (q * 4096) = path (r * 4096) <-> q / 512 = r / 512.
Proof.
  intros Hq Hr. unfold path. destruct (index_page q) as (_ & -> & -> & -> & ->). destruct (index_page r) as (_ & -> & -> & -> & ->).
  split; [|by intros ->]. intros [= H1 H2 H3 H4].
  assert (q / 512 / 512 / 512 / 512 = r / 512 / 512 / 512 / 512) as E4.
  { rewrite !Z.mod_small in H1; [done| |]; rewrite !Z.div_div by lia; lia. }
  assert (q / 512 / 512 / 512 = r / 512 / 512 / 512) as E3 by lia.
  assert (q / 512 / 512 = r / 512 / 512) as E2 by lia. lia.
Qed.

(** * Membership *)

(** The bit of page number [q] *)
Definition pt_bit (t : MapPageTable) (q : Z) : bool := Z.testbit (nth (Z.to_nat (q mod 512 / 64)) t 0) (q mod 64).
Definition live (a : Alive) (q : Z) : bool :=
  match alive a with
  | None => false
  | Some p4 => match lookup_pt (q * 4096) p4 with None => false | Some t => pt_bit t q end
  end.
(** Tables have eight words. *)
Definition wf (a : Alive) : Prop := forall p4 w t, alive a = Some p4 -> lookup_pt w p4 = Some t -> length t = 8%nat.

Lemma land_bit x k : 0 <= k -> (Z.land x (Z.shiftl 1 k) =? 0) = negb (Z.testbit x k).
Proof.
  intros Hk. rewrite Z.shiftl_1_l. destruct (Z.testbit x k) eqn:E; cbn [negb].
  - apply Z.eqb_neq. intros H. assert (Z.testbit (Z.land x (2 ^ k)) k = true) as Hb by (rewrite Z.land_spec, E, Z.pow2_bits_true by lia; done).
    rewrite H, Z.bits_0 in Hb. done.
  - apply Z.eqb_eq. apply Z.bits_inj'. intros n Hn. rewrite Z.land_spec, Z.bits_0, Z.pow2_bits_eqb by lia.
    destruct (Z.eqb_spec k n); [subst; by rewrite E|]. apply andb_false_r.
Qed.
Lemma land_63 x : Z.land x 63 = x mod 64.
Proof. change 63 with (2 ^ 6 - 1). by rewrite land_mask. Qed.
Lemma mod_512_64 q : (q mod 512) mod 64 = q mod 64.
Proof. lia. Qed.
Lemma kisdangerous_live ps addr a q : Z.land addr (- ps) = q * 4096 -> kisdangerous ps addr a = negb (live a q).
Proof.
  intros Hq. unfold kisdangerous, live. rewrite Hq. destruct (alive a); [|done]. destruct (lookup_pt _ _); [|done].
  destruct (index_page q) as (-> & _). rewrite land_bit by (rewrite land_63; lia). unfold pt_bit. by rewrite land_63, mod_512_64.
Qed.

(** ** One table *)

Lemma lookup_pt_path w w' p4 : path w = path w' -> lookup_pt w p4 = lookup_pt w' p4.
Proof. unfold path, lookup_pt. by intros [= -> -> -> ->]. Qed.

(** The trie after storing table [t] on the path of [w]. *)
Definition put_pt (w : Z) (t : MapPageTable) (p4 : PD4) : PD4 :=
  let p3 := default ∅ (p4 !! index w 48) in let p2 := default ∅ (p3 !! index w 39) in let p1 := default ∅ (p2 !! index w 30) in
  <[index w 48 := <[index w 39 := <[index w 30 := <[index w 21 := t]> p1]> p2]> p3]> p4.
Lemma lookup_pt_default w p4 : lookup_pt w p4 =
  (default ∅ (default ∅ (default ∅ (p4 !! index w 48) !! index w 39) !! index w 30) : PD1) !! index w 21.
Proof.
  unfold lookup_pt. destruct (p4 !! index w 48) as [p3|]; cbn [mbind option_bind default from_option id]; [|by repeat (rewrite lookup_empty; cbn [default from_option id])].
  destruct (p3 !! index w 39) as [p2|]; cbn [mbind option_bind default from_option id]; [|by repeat (rewrite lookup_empty; cbn [default from_option id])].
  destruct (p2 !! index w 30); cbn [mbind option_bind default from_option id]; [done|symmetry; apply (lookup_empty (M := gmap Z))].
Qed.
Lemma lookup_put w t p4 w' : lookup_pt w' (put_pt w t p4) = if decide (path w = path w') then Some t else lookup_pt w' p4.
Proof.
  rewrite !lookup_pt_default. unfold put_pt, path.
  destruct (decide (index w 48 = index w' 48)) as [E4|]; [|rewrite lookup_insert_ne, decide_False by congruence; done].
  rewrite E4, lookup_insert_eq. cbn [default from_option id].
  destruct (decide (index w 39 = index w' 39)) as [E3|]; [|rewrite lookup_insert_ne, decide_False by congruence; done].
  rewrite E3, lookup_insert_eq. cbn [default from_option id].
  destruct (decide (index w 30 = index w' 30)) as [E2|]; [|rewrite lookup_insert_ne, decide_False by congruence; done].
  rewrite E2, lookup_insert_eq. cbn [default from_option id].
  destruct (decide (index w 21 = index w' 21)) as [E1|]; [|rewrite lookup_insert_ne, decide_False by congruence; done].
  by rewrite E1, lookup_insert_eq, decide_True.
Qed.
Lemma store_put w t t' p4 : lookup_pt w p4 = Some t' -> forall w', lookup_pt w' (store_pt w t p4) = lookup_pt w' (put_pt w t p4).
Proof.
  unfold lookup_pt at 1. intros H w'. apply bind_Some in H as (p3 & H3 & H). apply bind_Some in H as (p2 & H2 & H). apply bind_Some in H as (p1 & H1 & H0).
  f_equal. unfold store_pt, put_pt. rewrite H3. cbn [default from_option id]. rewrite H2. cbn [default from_option id]. rewrite H1. cbn [default from_option id].
  assert (forall {A} (f : A -> A) (m : gmap Z A) k x, m !! k = Some x -> alter f k m = <[k := f x]> m) as Ha.
  { intros A f m k x Hk. apply map_eq. intros j. destruct (decide (k = j)) as [->|]; [by rewrite lookup_alter, decide_True, Hk, lookup_insert_eq|].
    by rewrite lookup_alter_ne, lookup_insert_ne. }
  rewrite (Ha _ _ _ _ _ H3), (Ha _ _ _ _ _ H2), (Ha _ _ _ _ _ H1), (Ha _ _ _ _ _ H0). done.
Qed.

(** ** One turn *)

Definition table (a : Alive) (w : Z) : option MapPageTable := lookup_pt w (default ∅ (alive a)).
Lemma live_table a q : live a q = match table a (q * 4096) with None => false | Some t => pt_bit t q end.
Proof.
  unfold live, table. destruct (alive a) as [p4|]; [done|]. cbn [default from_option id]. rewrite lookup_pt_default.
  by repeat (rewrite lookup_empty; cbn [default from_option id]).
Qed.
Lemma wf_table a : wf a <-> forall w t, table a w = Some t -> length t = 8%nat.
Proof.
  unfold wf, table. destruct (alive a) as [p4|]; cbn [default from_option id]; [naive_solver|]. split; [|done]. intros _ w t.
  rewrite lookup_pt_default. by repeat (rewrite lookup_empty; cbn [default from_option id]).
Qed.

Lemma getpd_some {A} (p : option A) e n r n' : __maps_getpd p e n = Some (r, n') -> r = default e p /\ (n' <= n)%nat.
Proof. unfold __maps_getpd. destruct p, n; intros [= <- <-]; (split; [done|lia]). Qed.
Lemma getpd_none {A} (p : option A) e n : __maps_getpd p e n = None -> p = None /\ n = 0%nat.
Proof. unfold __maps_getpd. destruct p, n; done. Qed.
(** Making an empty directory explicit changes no table. *)
Lemma default_insert {A} (m : gmap Z (gmap Z A)) i j : default ∅ (<[i := default ∅ (m !! i)]> m !! j) = default ∅ (m !! j).
Proof. destruct (decide (i = j)) as [->|]; [by rewrite lookup_insert_eq|by rewrite lookup_insert_ne]. Qed.

Ltac level k :=
  match goal with w : Z, w' : Z |- context [<[index ?w k := _]> _ !! index ?w' k] =>
    let E := fresh "E" in destruct (decide (index w k = index w' k)) as [E|]; [rewrite E, lookup_insert_eq; cbn [default from_option id]|rewrite lookup_insert_ne by done] end.
Lemma mark_turn_spec w i mask a : 
  let '(a', ok) := mark_turn w i mask a in
  (budget a' <= budget a)%nat /\
  if ok then forall w', table a' w' = if decide (path w = path w') then Some (or_word (default newpt (table a w)) i mask) else table a w'
  else budget a' = 0%nat /\ forall w', table a' w' = table a w'.
Proof.
  unfold mark_turn, table. destruct (__maps_getpd (alive a) ∅ (budget a)) as [[p4 n4]|] eqn:G4; [|by apply getpd_none in G4 as [_ ->]].
  apply getpd_some in G4 as [-> H4]. set (p4 := default ∅ (alive a)) in *.
  destruct (__maps_getpd (p4 !! index w 48) ∅ n4) as [[p3 n3]|] eqn:G3; [|by apply getpd_none in G3 as [_ ->]].
  apply getpd_some in G3 as [-> H3]. set (p3 := default ∅ (p4 !! index w 48)) in *.
  destruct (__maps_getpd (p3 !! index w 39) ∅ n3) as [[p2 n2]|] eqn:G2.
  2: { apply getpd_none in G2 as [_ ->]. cbn [alive budget default from_option id]. split; [lia|]. split; [done|]. intros w'.
       rewrite !lookup_pt_default. unfold p3. by rewrite default_insert. }
  apply getpd_some in G2 as [-> H2]. set (p2 := default ∅ (p3 !! index w 39)) in *.
  destruct (__maps_getpd (p2 !! index w 30) ∅ n2) as [[p1 n1]|] eqn:G1.
  2: { apply getpd_none in G1 as [_ ->]. cbn [alive budget default from_option id]. split; [lia|]. split; [done|]. intros w'.
       rewrite !lookup_pt_default. level 48; [|done]. unfold p2, p3. rewrite E. by rewrite default_insert. }
  apply getpd_some in G1 as [-> H1]. set (p1 := default ∅ (p2 !! index w 30)) in *.
  destruct (__maps_getpd (p1 !! index w 21) newpt n1) as [[pt n0]|] eqn:G0.
  2: { apply getpd_none in G0 as [_ ->]. cbn [alive budget default from_option id]. split; [lia|]. split; [done|]. intros w'.
       rewrite !lookup_pt_default. level 48; [|done]. level 39; [|unfold p3; by rewrite E]. unfold p1, p2, p3. rewrite E, E0. by rewrite default_insert. }
  apply getpd_some in G0 as [-> H0]. cbn [alive budget default from_option id]. split; [lia|]. intros w'.
  rewrite (lookup_pt_default w p4). fold p3 p2 p1. apply lookup_put.
Qed.

(** ** Words *)

Lemma pt_bit_alter f t i q : length t = 8%nat -> 0 <= i < 512 ->
  pt_bit (alter f (Z.to_nat (i / 64)) t) q =
  if i / 64 =? q mod 512 / 64 then Z.testbit (f (nth (Z.to_nat (q mod 512 / 64)) t 0)) (q mod 64) else pt_bit t q.
Proof.
  intros Ht Hi. unfold pt_bit. destruct (Z.eqb_spec (i / 64) (q mod 512 / 64)) as [E|E].
  - rewrite E. f_equal. destruct (lookup_lt_is_Some_2 t (Z.to_nat (q mod 512 / 64))) as [x Hx]; [lia|].
    rewrite (nth_lookup_Some _ _ 0 x Hx). apply nth_lookup_Some. rewrite list_lookup_alter_eq, Hx. done.
  - f_equal. rewrite !nth_lookup. f_equal. apply list_lookup_alter_ne. lia.
Qed.
Lemma or_word_bit t i mask q : length t = 8%nat -> 0 <= i < 512 ->
  pt_bit (or_word t i mask) q = pt_bit t q || ((i / 64 =? q mod 512 / 64) && Z.testbit mask (q mod 64)).
Proof.
  intros Ht Hi. unfold or_word. rewrite pt_bit_alter by done. destruct (i / 64 =? q mod 512 / 64); cbn [andb]; [|by rewrite orb_false_r].
  apply Z.lor_spec.
Qed.
Lemma andn_word_bit t i mask q : length t = 8%nat -> 0 <= i < 512 ->
  pt_bit (andn_word t i mask) q = pt_bit t q && negb ((i / 64 =? q mod 512 / 64) && Z.testbit mask (q mod 64)).
Proof.
  intros Ht Hi. unfold andn_word. rewrite pt_bit_alter by done. destruct (i / 64 =? q mod 512 / 64); cbn [andb negb]; [|by rewrite andb_true_r].
  rewrite Z.land_spec, Z.lnot_spec by lia. done.
Qed.

(** * Intervals of pages *)

Section Loops.
Variable ps : Z.
(** The page size is a multiple of 4096 and tells the words of a table apart. *)
Hypothesis Hps : 0 < ps <= 2 ^ 20 /\ (4096 | ps).

(** Page [q] starts in [w..e]. *)
Definition inp (q w e : Z) : bool := (w <=? q * 4096) && (q * 4096 <? e) && ((q * 4096) mod ps =? 0).
Lemma inp_split q w w' e : w <= w' -> w' mod ps = 0 -> inp q w e = inp q w (Z.min w' e) || inp q w' e.
Proof.
  intros Hw Hm. unfold inp. destruct ((q * 4096) mod ps =? 0); [|by rewrite !andb_false_r]. rewrite !andb_true_r.
  destruct (w <=? q * 4096) eqn:E1, (q * 4096 <? e) eqn:E2, (q * 4096 <? Z.min w' e) eqn:E3, (w' <=? q * 4096) eqn:E4; cbn; try done; clear Hm Hps; bool_prop; lia.
Qed.
Lemma next_multiple w x : w mod ps = 0 -> x mod ps = 0 -> x < w + ps -> w <= x -> x = w.
Proof. intros H1 H2 H3 H4. apply Z.mod_divide in H1 as [a ->]; [|lia]. apply Z.mod_divide in H2 as [b ->]; [|lia].
  destruct Hps as [Hp _]. clear Hps. assert (a <= b /\ b < a + 1) by nia. f_equal. lia. Qed.
Lemma inp_one q w : w mod ps = 0 -> inp q w (w + ps) = (q * 4096 =? w).
Proof.
  intros Hw. unfold inp. destruct (Z.eqb_spec (q * 4096) w) as [->|Hne].
  - rewrite Hw. cbn. rewrite andb_true_r. lia.
  - apply not_true_iff_false. intros H. bool_prop. apply Hne. apply next_multiple; lia.
Qed.

Lemma aligned_4096 w : w mod ps = 0 -> w = w / 4096 * 4096.
Proof.
  intros H. destruct Hps as [Hp [d Hd]]. apply Z.mod_divide in H as [a ->]; [|lia]. rewrite Hd. rewrite Z.mul_assoc. by rewrite Z.div_mul by lia.
Qed.
Lemma add_aligned w : w mod ps = 0 -> (w + ps) mod ps = 0.
Proof. intros H. rewrite Z.add_mod, H, Z.mod_same by lia. done. Qed.
Lemma index_word w : 0 <= w -> index w 12 / 64 = (w / 2 ^ 18) mod 8 /\ index w 12 mod 64 = (w / 4096) mod 64 /\ 0 <= index w 12 < 512.
Proof. intros Hw. rewrite index_mod by lia. clear Hps. lia. Qed.
Lemma inp_empty q w : inp q w w = false.
Proof. unfold inp. clear Hps. lia. Qed.
Lemma inp_head q w e : w mod ps = 0 -> w + ps <= e -> inp q w e = (q * 4096 =? w) || inp q (w + ps) e.
Proof.
  intros Hw He. rewrite (inp_split q w (w + ps)); [|lia|by apply add_aligned]. rewrite Z.min_l by lia. by rewrite inp_one.
Qed.
(** Setting the bit of the page at [w] *)
Lemma page_bit w q : 0 <= w -> w mod ps = 0 -> q / 64 = w / 2 ^ 18 ->
  Z.testbit (Z.shiftl 1 (Z.land (index w 12) 63)) (q mod 64) = (q * 4096 =? w).
Proof.
  intros Hw Hm Hq. destruct (index_word w Hw) as (_ & H2 & H3). pose proof (aligned_4096 w Hm) as Ha.
  rewrite land_63, H2, Z.shiftl_1_l, Z.pow2_bits_eqb by lia. clear Hm Hps H3 H2.
  destruct (Z.eqb_spec ((w / 4096) mod 64) (q mod 64)); destruct (Z.eqb_spec (q * 4096) w); try done; exfalso; lia.
Qed.

(** The bits gathered in a mask are those of the pages passed, all in one word. *)
Lemma gather_ok fuel : forall w e mask, 0 <= w -> w mod ps = 0 -> e <= 2 ^ 57 -> w <= 2 ^ 57 -> (0 < fuel)%nat -> e - (w + ps) < Z.of_nat fuel ->
  let w1 := w + ps in
  exists w' i' mask', gather ps fuel w1 e (index w 12) mask = Some (w', i', mask') /\
    w1 <= w' /\ w' mod ps = 0 /\ (w' = w1 \/ w' < e + ps) /\ 0 <= i' < 512 /\ i' / 64 = index w 12 / 64 /\
    (forall q, inp q w1 w' = true -> q / 64 = w / 2 ^ 18) /\
    forall q, q / 64 = w / 2 ^ 18 -> Z.testbit mask' (q mod 64) = Z.testbit mask (q mod 64) || inp q w1 w'.
Proof.
  pose proof (proj1 Hps) as Hp.
  induction fuel as [|fuel IH]; intros w e mask Hw Hwm He Hw57 Hf0 Hf w1; subst w1; cbn [gather]; [lia|].
  destruct (index_word w Hw) as (Hi1 & Hi2 & Hi3). pose proof (add_aligned w Hwm) as Hm1.
  assert (exists w' i' mask', Some (w + ps, index w 12, mask) = Some (w', i', mask') /\
    w + ps <= w' /\ w' mod ps = 0 /\ (w' = w + ps \/ w' < e + ps) /\ 0 <= i' < 512 /\ i' / 64 = index w 12 / 64 /\
    (forall q, inp q (w + ps) w' = true -> q / 64 = w / 2 ^ 18) /\
    forall q, q / 64 = w / 2 ^ 18 -> Z.testbit mask' (q mod 64) = Z.testbit mask (q mod 64) || inp q (w + ps) w') as Hstop.
  { exists (w + ps), (index w 12), mask. split_and!; try done; try lia; try (by left); [intros q|intros q _]; rewrite inp_empty; [done|]. by rewrite orb_false_r. }
  destruct (w + ps <? e) eqn:E; [|exact Hstop]. bool_prop. destruct (index (w + ps) 12 / 64 =? index w 12 / 64) eqn:Eg; cbn [negb]; [|exact Hstop].
  bool_prop. clear Hstop. destruct (index_word (w + ps)) as (Hj1 & Hj2 & Hj3); [lia|].
  assert ((w + ps) / 2 ^ 18 = w / 2 ^ 18) as Hgrp.
  { rewrite Hj1, Hi1 in Eg. clear - Eg Hp Hw. lia. }
  destruct (IH (w + ps) e (Z.lor mask (Z.shiftl 1 (Z.land (index (w + ps) 12) 63)))) as (w' & i' & mask' & Hgo & H1 & H2 & H3 & H4 & H5 & H6 & H7);
    [lia|done|done|lia|lia|lia|].
  unfold adv. rewrite u64_small by lia. rewrite Hgo. exists w', i', mask'. split_and!; try done; try lia.
  - intros q Hq. rewrite inp_head in Hq by (done || lia). apply orb_true_iff in Hq as [Hq|Hq]; [|rewrite <- Hgrp; by apply H6].
    bool_prop. pose proof (aligned_4096 _ Hm1) as Ha. rewrite <- Hgrp. clear -Hq Ha. lia.
  - intros q Hq. rewrite H7 by congruence. rewrite Z.lor_spec, page_bit; [|lia|done|congruence]. rewrite (inp_head q (w + ps)); [|done|lia].
    by rewrite orb_assoc.
Qed.

(** The pages of one turn, seen from the word they are in. *)
Lemma turn_pages w w' i' mask' q : 0 <= w -> w mod ps = 0 -> w + ps <= w' -> i' / 64 = index w 12 / 64 ->
  (forall q, inp q (w + ps) w' = true -> q / 64 = w / 2 ^ 18) ->
  (forall q, q / 64 = w / 2 ^ 18 ->
     Z.testbit mask' (q mod 64) = Z.testbit (Z.shiftl 1 (Z.land (index w 12) 63)) (q mod 64) || inp q (w + ps) w') ->
  (q / 512 =? w / 2 ^ 21) && ((i' / 64 =? q mod 512 / 64) && Z.testbit mask' (q mod 64)) = inp q w w'.
Proof.
  intros Hw Hm Hw' Hi H1 H2. rewrite inp_head by done. destruct (index_word w Hw) as (Hi1 & _ & _). rewrite Hi, Hi1.
  destruct (Z.eqb_spec (q / 64) (w / 2 ^ 18)) as [E|E].
  - rewrite H2, page_bit by done. rewrite (proj2 (Z.eqb_eq (q / 512) _)) by (clear -E; lia). rewrite (proj2 (Z.eqb_eq _ (q mod 512 / 64))) by (clear -E; lia). done.
  - rewrite andb_assoc. assert ((q / 512 =? w / 2 ^ 21) && ((w / 2 ^ 18) mod 8 =? q mod 512 / 64) = false) as ->.
    { apply not_true_iff_false. intros H. bool_prop. apply E. clear E. lia. }
    cbn [andb]. symmetry. apply orb_false_iff. split.
    + apply Z.eqb_neq. intros H. apply E. rewrite <- H. clear -E. lia.
    + apply not_true_iff_false. intros H. by apply E, H1.
Qed.
Lemma path_word w q : 0 <= w < 2 ^ 57 -> w mod ps = 0 -> 0 <= q < 2 ^ 45 -> path w = path (q * 4096) <-> q / 512 = w / 2 ^ 21.
Proof.
  intros Hw Hm Hq. rewrite (aligned_4096 w Hm) at 1. rewrite path_page by lia. rewrite Z.div_div by lia. clear -Hw. split; intros; lia.
Qed.

Lemma nth_zeros n i : nth i (replicate n 0) 0 = 0.
Proof. revert i. induction n as [|n IH]; intros [|i]; try done. apply IH. Qed.
Lemma mark_loop_ok fuel : forall w e a, 0 <= w -> w mod ps = 0 -> e <= 2 ^ 57 -> w <= 2 ^ 57 + 2 ^ 20 -> (0 < fuel)%nat -> e - w < Z.of_nat fuel -> wf a ->
  exists a' w1, mark_loop ps fuel w e a = Some a' /\ wf a' /\ w <= w1 /\ (w1 = w \/ w1 < e + ps) /\ w1 mod ps = 0 /\
    (forall q, 0 <= q < 2 ^ 45 -> live a' q = live a q || inp q w w1) /\ (budget a' = 0%nat \/ e <= w1).
Proof.
  pose proof (proj1 Hps) as Hp.
  induction fuel as [|fuel IH]; intros w e a Hw Hm He Hw57 Hf0 Hf Hwf; [lia|]. cbn [mark_loop].
  destruct (w <? e) eqn:E; bool_prop.
  2: { exists a, w. split_and!; try done; try lia. intros q _. by rewrite inp_empty, orb_false_r. }
  unfold adv. rewrite u64_small by lia.
  destruct (gather_ok (S fuel) w e (Z.shiftl 1 (Z.land (index w 12) 63)) Hw Hm He ltac:(lia) ltac:(lia) ltac:(lia)) as (w' & i' & mask' & Hgo & H1 & H2 & H3 & H4 & H5 & H6 & H7).
  rewrite Hgo. pose proof (mark_turn_spec w i' mask' a) as Ht. destruct (mark_turn w i' mask' a) as [a1 ok]. destruct Ht as [Hb Ht].
  destruct ok.
  - assert (wf a1) as Hwf1.
    { apply wf_table. intros x t. rewrite Ht. rewrite wf_table in Hwf. case_decide; [|by apply Hwf]. intros [= <-]. unfold or_word. rewrite length_alter.
      destruct (table a w) as [t|] eqn:Et; [by apply (Hwf w)|done]. }
    assert (forall q, 0 <= q < 2 ^ 45 -> live a1 q = live a q || inp q w w') as Hl.
    { intros q Hq. rewrite <- (turn_pages w w' i' mask') by done. rewrite !live_table, Ht. pose proof (path_word w q ltac:(lia) Hm Hq) as Hpath.
      case_decide as Hd; [|rewrite (proj2 (Z.eqb_neq (q / 512) _)) by (intros ?; by apply Hd, Hpath); by rewrite orb_false_r].
      rewrite (proj2 (Z.eqb_eq (q / 512) _)) by (by apply Hpath). unfold table. rewrite (lookup_pt_path _ _ _ Hd). fold (table a (q * 4096)). cbn [andb].
      rewrite wf_table in Hwf. destruct (table a (q * 4096)) as [t|] eqn:Et; cbn [default from_option id]; [apply or_word_bit; [by apply (Hwf (q * 4096))|done]|].
      rewrite or_word_bit by done. f_equal. unfold pt_bit, newpt. rewrite nth_zeros. apply Z.bits_0. }
    destruct (IH w' e a1) as (a' & w1 & Hgo1 & K1 & K2 & K3 & K4 & K5 & K6); [lia|done|done|lia|lia|lia|done|].
    rewrite Hgo1. exists a', w1. split_and!; try done; try lia.
    intros q Hq. rewrite K5, Hl by done. rewrite (inp_split q w w' w1) by (done || lia). rewrite Z.min_l by lia. by rewrite orb_assoc.
  - destruct Ht as [Hb0 Ht]. exists a1, w. split_and!; try done; try lia.
    + rewrite wf_table in *. intros x t. rewrite Ht. apply Hwf.
    + intros q _. rewrite inp_empty, orb_false_r, !live_table. by rewrite Ht.
Qed.

Lemma unmark_loop_ok fuel : forall w e a, 0 <= w -> w mod ps = 0 -> e <= 2 ^ 57 -> w <= 2 ^ 57 + 2 ^ 20 -> (0 < fuel)%nat -> e - w < Z.of_nat fuel -> wf a ->
  exists a' w1, unmark_loop ps fuel w e a = Some a' /\ wf a' /\ w <= w1 /\ (w1 = w \/ w1 < e + ps) /\ w1 mod ps = 0 /\
    (forall q, 0 <= q < 2 ^ 45 -> live a' q = live a q && negb (inp q w w1)) /\ (alive a = None \/ e <= w1).
Proof.
  pose proof (proj1 Hps) as Hp.
  induction fuel as [|fuel IH]; intros w e a Hw Hm He Hw57 Hf0 Hf Hwf; [lia|]. cbn [unmark_loop].
  destruct (w <? e) eqn:E; bool_prop.
  2: { exists a, w. split_and!; try done; try lia; try (by left); try (by right). intros q _. by rewrite inp_empty, andb_true_r. }
  destruct (alive a) as [p4|] eqn:Ea.
  2: { exists a, w. split_and!; try done; try lia; try (by left); try (by right). intros q _. by rewrite inp_empty, andb_true_r. }
  unfold adv. rewrite u64_small by lia.
  destruct (lookup_pt w p4) as [pt|] eqn:Ept.
  - destruct (gather_ok (S fuel) w e (Z.shiftl 1 (Z.land (index w 12) 63)) Hw Hm He ltac:(lia) ltac:(lia) ltac:(lia)) as (w' & i' & mask' & Hgo & H1 & H2 & H3 & H4 & H5 & H6 & H7).
    rewrite Hgo. set (a1 := mkAlive (Some (store_pt w (andn_word pt i' mask') p4)) (budget a)).
    assert (forall x, table a1 x = if decide (path w = path x) then Some (andn_word pt i' mask') else table a x) as Ht.
    { intros x. unfold table. rewrite Ea. cbn [a1 alive default from_option id]. rewrite (store_put _ _ _ _ Ept). apply lookup_put. }
    assert (length pt = 8%nat) as Hpt by (by apply (Hwf p4 w)).
    assert (wf a1) as Hwf1.
    { apply wf_table. intros x t. rewrite Ht. rewrite wf_table in Hwf. case_decide; [|by apply Hwf]. intros [= <-]. unfold andn_word. by rewrite length_alter. }
    assert (forall q, 0 <= q < 2 ^ 45 -> live a1 q = live a q && negb (inp q w w')) as Hl.
    { intros q Hq. rewrite <- (turn_pages w w' i' mask') by done. rewrite !live_table, Ht. pose proof (path_word w q ltac:(lia) Hm Hq) as Hpath.
      case_decide as Hd; [|rewrite (proj2 (Z.eqb_neq (q / 512) _)) by (intros ?; by apply Hd, Hpath); by rewrite andb_true_r].
      rewrite (proj2 (Z.eqb_eq (q / 512) _)) by (by apply Hpath). unfold table. rewrite Ea. cbn [default from_option id]. rewrite <- (lookup_pt_path _ _ _ Hd), Ept.
      cbn [andb]. by apply andn_word_bit. }
    destruct (IH w' e a1) as (a' & w1 & Hgo1 & K1 & K2 & K3 & K4 & K5 & K6); [lia|done|done|lia|lia|lia|done|].
    rewrite Hgo1. exists a', w1. split_and!; try done; try lia; [|by destruct K6; [|right]].
    intros q Hq. rewrite K5, Hl by done. rewrite (inp_split q w w' w1) by (done || lia). rewrite Z.min_l by lia. by rewrite negb_orb, andb_assoc.
  - destruct (IH (w + ps) e a) as (a' & w1 & Hgo1 & K1 & K2 & K3 & K4 & K5 & K6); [lia|by apply add_aligned|done|lia|lia|lia|done|].
    rewrite Hgo1. exists a', w1. split_and!; try done; try lia; [|by destruct K6 as [K6|]; [rewrite K6 in Ea|right]].
    intros q Hq. rewrite K5 by done. rewrite (inp_head q w w1) by (done || lia). destruct (Z.eqb_spec (q * 4096) w) as [Hqw|]; [|done].
    cbn [orb negb]. rewrite live_table. unfold table. rewrite Ea. cbn [default from_option id]. rewrite Hqw, Ept. done.
Qed.

(** The page an address is on. *)
Definition page (p : Z) : Z := p / ps * ps.
Lemma inp_round q w e w1 : w1 mod ps = 0 -> e <= w1 -> w1 < e + ps -> inp q w w1 = inp q w e.
Proof.
  intros Hm H1 H2. pose proof (proj1 Hps) as Hp. unfold inp. destruct ((q * 4096) mod ps =? 0) eqn:E; [|by rewrite !andb_false_r]. bool_prop. f_equal. f_equal.
  destruct (Z.lt_ge_cases (q * 4096) e) as [Hlt|Hge]; [clear Hps; lia|]. destruct (Z.lt_ge_cases (q * 4096) w1) as [Hlt'|]; [|clear Hps; lia].
  exfalso. assert (w1 - q * 4096 < ps) by lia. assert (w1 = q * 4096); [|lia]. apply next_multiple; try done; lia.
Qed.
Lemma inp_weaken q w e w1 : w1 mod ps = 0 -> w <= e -> (w1 = w \/ w1 < e + ps) -> inp q w w1 = true -> inp q w e = true.
Proof.
  intros Hm Hwe H1 H. pose proof (proj1 Hps) as Hp. unfold inp in *. bool_prop. apply andb_true_iff. split; [apply andb_true_iff; split; [lia|]|lia].
  apply Z.ltb_lt. destruct (Z.lt_ge_cases (q * 4096) e) as [|Hge]; [done|]. exfalso.
  assert (w1 = q * 4096); [|lia]. apply next_multiple; try done; lia.
Qed.
End Loops.

(** * Correctness *)

Lemma page_land b p : 12 <= b <= 20 -> Z.land p (- 2 ^ b) = page (2 ^ b) p.
Proof.
  intros Hb. unfold page. replace (- 2 ^ b) with (Z.lnot (Z.ones b)) by (rewrite Z.ones_equiv; unfold Z.lnot; lia).
  rewrite <- Z.ldiff_land, Z.ldiff_ones_r, shiftr_div, shiftl_mul by lia. done.
Qed.
Lemma page_size b : 12 <= b <= 20 -> 0 < 2 ^ b <= 2 ^ 20 /\ (4096 | 2 ^ b).
Proof.
  intros Hb. split; [split; [lia|apply Z.pow_le_mono_r; lia]|]. exists (2 ^ (b - 12)). change 4096 with (2 ^ 12). rewrite <- Z.pow_add_r by lia. f_equal. lia.
Qed.
(** The page of [p] is in the interval. *)
Definition within (ps p addr e : Z) : bool := (addr <=? page ps p) && (page ps p <? e).
(** An address as page number *)
Lemma danger_live b p a : 12 <= b <= 20 -> 0 <= p < 2 ^ 57 ->
  let q := page (2 ^ b) p / 4096 in
  kisdangerous (2 ^ b) p a = negb (live a q) /\ 0 <= q < 2 ^ 45 /\ forall w e, inp (2 ^ b) q w e = within (2 ^ b) p w e.
Proof.
  intros Hb Hp q. pose proof (page_size b Hb) as Hps. pose proof (proj1 Hps) as H.
  assert (page (2 ^ b) p mod 2 ^ b = 0) as Hm by (unfold page; apply Z.mod_mul; lia).
  pose proof (aligned_4096 _ Hps _ Hm) as Ha. fold q in Ha.
  assert (0 <= page (2 ^ b) p <= p) as Hr by (unfold page; pose proof (Z.mod_pos_bound p (2 ^ b)); pose proof (Z.div_mod p (2 ^ b)); pose proof (Z.div_pos p (2 ^ b)); nia).
  split; [apply kisdangerous_live; rewrite page_land by done; done|]. split; [subst q; clear -Hr Hp; lia|].
  intros w e. unfold inp, within. rewrite <- Ha, Hm. by rewrite andb_true_r.
Qed.

Section Interval.
Context (b addr size : Z) (a : Alive).
Hypothesis Hb : 12 <= b <= 20.
Hypothesis Ha : 0 <= addr.
Hypothesis Hal : addr mod 2 ^ b = 0.
Hypothesis Hs : 0 <= size.
Hypothesis He : addr + size <= 2 ^ 57.
Hypothesis Hwf : wf a.

Lemma mark_ok : exists a', __maps_mark (2 ^ b) addr size a = Some a' /\ wf a' /\
  (forall p, 0 <= p < 2 ^ 57 -> kisdangerous (2 ^ b) p a = false -> kisdangerous (2 ^ b) p a' = false) /\
  (forall p, 0 <= p < 2 ^ 57 -> kisdangerous (2 ^ b) p a' = false ->
     kisdangerous (2 ^ b) p a = false \/ within (2 ^ b) p addr (addr + size) = true) /\
  ((0 < budget a')%nat -> forall p, 0 <= p < 2 ^ 57 ->
     kisdangerous (2 ^ b) p a' = kisdangerous (2 ^ b) p a && negb (within (2 ^ b) p addr (addr + size))).
Proof.
  pose proof (page_size b Hb) as Hps. set (ps := 2 ^ b) in *. unfold __maps_mark, mark_fuel. rewrite u64_small by lia.
  destruct (mark_loop_ok ps Hps (S (Z.to_nat size)) addr (addr + size) a) as (a' & w1 & H1 & H2 & H3 & H4 & H5 & H6 & H7); try lia; try done.
  exists a'. split; [done|]. split; [done|].
  assert (forall p, 0 <= p < 2 ^ 57 -> kisdangerous ps p a' = kisdangerous ps p a && negb (within ps p addr w1)) as Hk.
  { intros p Hp. destruct (danger_live b p a Hb Hp) as (E1 & Hq & Hin). destruct (danger_live b p a' Hb Hp) as (E2 & _). fold ps in E1, E2, Hq, Hin. rewrite E1, E2.
    rewrite H6, Hin by done. apply negb_orb. }
  split_and!.
  - intros p Hp H. by rewrite Hk, H.
  - intros p Hp H. rewrite Hk in H by done. apply andb_false_iff in H as [H|H]; [by left|right]. apply negb_false_iff in H.
    destruct (danger_live b p a Hb Hp) as (_ & _ & Hin). fold ps in Hin. rewrite <- Hin in H |- *. apply (inp_weaken ps Hps _ _ _ w1); try done. lia.
  - intros Hbud p Hp. rewrite Hk by done. f_equal. f_equal. destruct (danger_live b p a Hb Hp) as (_ & _ & Hin). fold ps in Hin. rewrite <- !Hin.
    destruct H4 as [->|H4]; [|apply (inp_round ps Hps); [done|lia|done]]. assert (size = 0) as -> by lia. f_equal. lia.
Qed.
Lemma unmark_ok : exists a', __maps_unmark (2 ^ b) addr size a = Some a' /\ wf a' /\
  forall p, 0 <= p < 2 ^ 57 -> kisdangerous (2 ^ b) p a' = kisdangerous (2 ^ b) p a || within (2 ^ b) p addr (addr + size).
Proof.
  pose proof (page_size b Hb) as Hps. set (ps := 2 ^ b) in *. unfold __maps_unmark, mark_fuel. rewrite u64_small by lia.
  destruct (unmark_loop_ok ps Hps (S (Z.to_nat size)) addr (addr + size) a) as (a' & w1 & H1 & H2 & H3 & H4 & H5 & H6 & H7); try lia; try done.
  exists a'. split; [done|]. split; [done|]. intros p Hp. destruct (danger_live b p a Hb Hp) as (E1 & Hq & Hin). destruct (danger_live b p a' Hb Hp) as (E2 & _). fold ps in E1, E2, Hq, Hin. rewrite E1, E2.
  rewrite H6, negb_andb, negb_involutive by done. rewrite <- Hin. destruct H7 as [H7|H7].
  - unfold live. rewrite H7. done.
  - f_equal. destruct H4 as [->|H4]; [|apply (inp_round ps Hps); [done|lia|done]]. assert (size = 0) as -> by lia. f_equal. lia.
Qed.
End Interval.


