(* ===== verification/Maps.v ===== *)
(** The memory manager: the tracking of mappings in [libc/intrin/maps.c] and
    [libc/intrin/mmap.c], over any tree of nodes that obeys [NodeTree].

    A [struct Map] is known by the address of the tree node in it ([MAP_TREE_CONTAINER] is a
    constant offset). [objs] is the memory of these structures; reading one that is not there
    gives [None]. [freed] is the stack of free structures that [__maps_free] pushes to, and
    [supply] what the bump allocator [__maps_balloc] will hand out, nothing when the system is
    out of memory. The link of a free structure shares memory with its tree node, which is
    sound because nodes on a list are in no tree and insertion writes every field of a node.
    Everything runs under the lock of the memory manager. *)
From stdpp Require Export gmap.
From S2P Require Export Prelude NodeTree PageTable.

(** * State *)

(** What the operating system decides: the sizes and the values of the mapping flags. *)
Class Platform := {
  pagesize : Z; gransize : Z; IsWindows : bool;
  MAP_ANONYMOUS : Z; MAP_FIXED_NOREPLACE : Z; MAP_SHARED_VALIDATE : Z }.
Definition MAP_SHARED : Z := 1.
Definition MAP_TYPE : Z := 15.
Definition MAP_FIXED : Z := 16.
Definition MAP_FAILED : Z := 2 ^ 64 - 1.
Definition MAPS_RESERVATION : Z := -2.
Definition MAPS_SUBREGION : Z := -3.
Definition MAPS_VIRTUAL : Z := -4.

(** [struct Map] *)
Record Map := mkMap { m_addr : Z; m_size : Z; m_off : Z; m_flags : Z; m_prot : Z; m_hand : Z }.
Definition map0 : Map := mkMap 0 0 0 0 0 0.
Definition with_addr (m : Map) (a s : Z) : Map := mkMap a s (m_off m) (m_flags m) (m_prot m) (m_hand m).
Definition with_off (m : Map) (o : Z) : Map := mkMap (m_addr m) (m_size m) o (m_flags m) (m_prot m) (m_hand m).

(** [struct Maps] *)
Record Maps (ST : Type) := mkMaps {
  tree : ST; objs : gmap Z Map; count : Z; pages : Z; freed : list Z; supply : list Z; alive_pages : Alive }.
Arguments mkMaps {ST} _ _ _ _ _ _ _.
Arguments tree {ST} _. Arguments objs {ST} _. Arguments count {ST} _. Arguments pages {ST} _.
Arguments freed {ST} _. Arguments supply {ST} _. Arguments alive_pages {ST} _.

Section Manager.
Context {ST : Type} `{!NodeTree ST} `{!Platform}.

Definition set_tree (t : ST) (s : Maps ST) := mkMaps t (objs s) (count s) (pages s) (freed s) (supply s) (alive_pages s).
Definition set_obj (n : Z) (m : Map) (s : Maps ST) := mkMaps (tree s) (<[n := m]> (objs s)) (count s) (pages s) (freed s) (supply s) (alive_pages s).
Definition set_count (v : Z) (s : Maps ST) := mkMaps (tree s) (objs s) v (pages s) (freed s) (supply s) (alive_pages s).
Definition set_pages (v : Z) (s : Maps ST) := mkMaps (tree s) (objs s) (count s) v (freed s) (supply s) (alive_pages s).
Definition set_alive (a : Alive) (s : Maps ST) := mkMaps (tree s) (objs s) (count s) (pages s) (freed s) (supply s) a.

(** * Sizes and order *)

Definition PGUP (x : Z) : Z := Z.land (u64 (x + pagesize - 1)) (- pagesize).
Definition npages (size : Z) : Z := u64 (size + pagesize - 1) / pagesize.
(** The end of a mapping, rounded up to pages. *)
Definition m_end (m : Map) : Z := u64 (m_addr m + PGUP (m_size m)).

Definition addr_of (o : gmap Z Map) (n : Z) : Z := match o !! n with Some m => m_addr m | None => 0 end.
Definition __maps_compare (o : gmap Z Map) (a b : Z) : Z :=
  Z.b2z (addr_of o b <? addr_of o a) - Z.b2z (addr_of o a <? addr_of o b).
Definition __maps_search (o : gmap Z Map) (key node : Z) : Z :=
  Z.b2z (addr_of o node <? key) - Z.b2z (key <? addr_of o node).

Definition __maps_floor (s : Maps ST) (addr : Z) : option Z := t_floor (__maps_search (objs s) addr) (tree s).
Definition __maps_first (s : Maps ST) : option Z := t_first (tree s).
Definition __maps_last (s : Maps ST) : option Z := t_last (tree s).
Definition __maps_next (s : Maps ST) (n : Z) : option Z := t_next n (tree s).
Definition __maps_prev (s : Maps ST) (n : Z) : option Z := t_prev n (tree s).

Definition __maps_add (s : Maps ST) (n : Z) : option (Maps ST) :=
  t ← t_insert (__maps_compare (objs s)) n (tree s); Some (set_count (count s + 1) (set_tree t s)).

(** * Structures *)

(** 0 when there is no memory. *)
Definition __maps_alloc (s : Maps ST) : Z * Maps ST :=
  match freed s with
  | n :: l => (n, mkMaps (tree s) (objs s) (count s) (pages s) l (supply s) (alive_pages s))
  | [] =>
      match supply s with
      | n :: l => (n, mkMaps (tree s) (<[n := map0]> (objs s)) (count s) (pages s) [] l (alive_pages s))
      | [] => (0, s)
      end
  end.
Definition __maps_free (s : Maps ST) (n : Z) : option (Maps ST) :=
  m ← objs s !! n;
  Some (mkMaps (tree s) (<[n := mkMap MAP_FAILED 0 (m_off m) (m_flags m) (m_prot m) (-1)]> (objs s)) (count s) (pages s)
               (n :: freed s) (supply s) (alive_pages s)).
Fixpoint __maps_free_all (s : Maps ST) (l : list Z) : option (Maps ST) :=
  match l with [] => Some s | n :: l => s ← __maps_free s n; __maps_free_all s l end.

(** * Merging *)

Definition __maps_funge_flags (flags : Z) : Z :=
  let flags := Z.land flags (Z.lnot MAP_FIXED) in
  let flags := Z.land flags (Z.lnot MAP_FIXED_NOREPLACE) in
  if Z.land flags MAP_TYPE =? MAP_SHARED_VALIDATE then Z.lor (Z.land flags (Z.lnot MAP_TYPE)) MAP_SHARED else flags.
Definition anonymous (m : Map) : bool := negb (Z.land (m_flags m) MAP_ANONYMOUS =? 0).
Definition __maps_fungible (m : Map) : bool := negb IsWindows && anonymous m.
Definition __maps_adjacent (x y : Map) : bool := m_end x =? m_addr y.
Definition __maps_mergeable (x y : Map) : bool :=
  __maps_adjacent x y && __maps_fungible x && __maps_fungible y && (m_prot x =? m_prot y) &&
  (__maps_funge_flags (m_flags x) =? __maps_funge_flags (m_flags y)).

(** [left] and [right] are the neighbours of [map]; each step returns the state and what is
    left of [map], 0 when it was merged. *)
Definition merge_left (s : Maps ST) (left map : Z) : option (Maps ST * Z) :=
  if left =? 0 then Some (s, map)
  else
    l ← objs s !! left; m ← objs s !! map;
    if __maps_mergeable l m
    then s ← __maps_free (set_obj left (with_addr l (m_addr l) (u64 (PGUP (m_size l) + m_size m))) s) map; Some (s, 0)
    else Some (s, map).
Definition merge_right (s : Maps ST) (map right : Z) : option (Maps ST * Z) :=
  if (map =? 0) || (right =? 0) then Some (s, map)
  else
    m ← objs s !! map; r ← objs s !! right;
    if __maps_mergeable m r
    then
      let size := PGUP (m_size m) in
      let s := set_obj map (with_addr m (m_addr m) size) s in
      s ← __maps_free (set_obj right (with_addr r (u64 (m_addr r - size)) (u64 (m_size r + size))) s) map; Some (s, 0)
    else Some (s, map).
Definition merge_hole (s : Maps ST) (left map right : Z) : option (Maps ST) :=
  if negb (map =? 0) || (left =? 0) || (right =? 0) then Some s
  else
    l ← objs s !! left; r ← objs s !! right;
    if __maps_mergeable l r
    then
      let s := set_obj left (with_addr l (m_addr l) (u64 (PGUP (m_size l) + m_size r))) s in
      t ← t_remove right (tree s);
      s ← __maps_free (set_tree t s) right; Some (set_count (count s - 1) s)
    else Some s.

Definition __maps_insert (s : Maps ST) (map : Z) : option (Maps ST) :=
  m ← objs s !! map;
  let s := set_pages (pages s + npages (m_size m)) s in
  left ← __maps_floor s (m_addr m);
  right ← (if left =? 0 then __maps_first s else __maps_next s left);
  '(s, map) ← merge_left s left map;
  '(s, map) ← merge_right s map right;
  s ← merge_hole s left map right;
  if map =? 0 then Some s else __maps_add s map.

(** * Queries *)

(** [map->addr <= addr + size] *)
Definition reaches (addr size : Z) (m : Map) : bool := m_addr m <=? u64 (addr + size).
(** The mapping has a page in common with [addr..addr + PGUP(size)]. *)
Definition intersects (addr size : Z) (m : Map) : bool :=
  Z.max addr (m_addr m) <? Z.min (u64 (addr + PGUP size)) (m_end m).
(** [if (!(map = __maps_floor(addr))) map = __maps_first();] *)
Definition start_at (s : Maps ST) (addr : Z) : option Z :=
  n ← __maps_floor s addr; if n =? 0 then __maps_first s else Some n.

Fixpoint overlaps_loop (fuel : nat) (s : Maps ST) (addr size n : Z) : option bool :=
  match fuel with
  | O => None
  | S fuel =>
      if n =? 0 then Some false
      else
        m ← objs s !! n;
        if negb (reaches addr size m) then Some false
        else if intersects addr size m then Some true
        else n ← __maps_next s n; overlaps_loop fuel s addr size n
  end.
(** A loop visits each mapping once. *)
Definition maps_fuel (s : Maps ST) : nat := S (Z.to_nat (count s)).
Definition __maps_overlaps (s : Maps ST) (addr size : Z) : option bool :=
  n ← start_at s addr; overlaps_loop (maps_fuel s) s addr size n.

Definition GRUP (x : Z) : Z := Z.land (u64 (x + gransize - 1)) (- gransize).
(** The loop of [__maps_pickaddr] from the highest mapping down, 0 when no gap is wide enough. *)
Fixpoint pickaddr_loop (fuel : nat) (s : Maps ST) (size n : Z) : option Z :=
  match fuel with
  | O => None
  | S fuel =>
      if n =? 0 then Some 0
      else
        m ← objs s !! n;
        prev ← __maps_prev s n;
        lo ← (if prev =? 0 then Some gransize else p ← objs s !! prev; Some (u64 (m_addr p + GRUP (m_size p))));
        if (lo <? m_addr m) && (size <=? m_addr m - lo) then Some (m_addr m - size)
        else pickaddr_loop fuel s size prev
  end.
(** [None] also when there is no mapping at all, which is not possible. *)
Definition __maps_pickaddr (s : Maps ST) (size : Z) : option Z :=
  let size := GRUP size in
  last ← __maps_last s;
  if last =? 0 then None
  else
    addr ← pickaddr_loop (maps_fuel s) s size last;
    if addr =? 0 then
      m ← objs s !! last;
      let addr := u64 (m_addr m + GRUP (m_size m)) in
      Some (if 2 ^ 63 <=? s64 addr + size then 0 else addr)
    else Some addr.

(** * Untracking *)

(** An element of [struct Map temp[2]]; [f_freed] is its link, an index into [temp]. *)
Record frag := mkFrag { f_addr : Z; f_size : Z; f_freed : option nat }.
(** The variables of [__muntrack]: [untracked] is [*untracked], an index into [temp]. *)
Record untrack := mkUntrack {
  u_maps : Maps ST; u_rc : Z; u_deleted : list Z; u_untracked : option nat; u_temp : list frag; u_ti : nat }.

Definition set_maps (s : Maps ST) (u : untrack) : untrack :=
  mkUntrack s (u_rc u) (u_deleted u) (u_untracked u) (u_temp u) (u_ti u).
(** [if (untracked)]: records a fragment; a third one would be written past [temp]. *)
Definition add_frag (track : bool) (addr size : Z) (u : untrack) : option untrack :=
  if track then
    if (u_ti u <? length (u_temp u))%nat
    then Some (mkUntrack (u_maps u) (u_rc u) (u_deleted u) (Some 0%nat)
                 (<[u_ti u := mkFrag addr size (u_untracked u)]> (u_temp u)) (S (u_ti u)))
    else None
  else Some u.

(** The body of the loop for a mapping [n] that intersects the interval; [size] is rounded. *)
Definition muntrack_one (track : bool) (addr size n : Z) (m : Map) (u : untrack) : option untrack :=
  let s := u_maps u in
  let map_addr := m_addr m in
  let map_size := m_size m in
  let e := u64 (addr + size) in
  let map_end := m_end m in
  if (addr <=? map_addr) && (map_end <=? e) then
    if m_hand m =? MAPS_RESERVATION then Some u
    else
      t ← t_remove n (tree s);
      let s := set_count (count s - 1) (set_pages (pages s - npages map_size) (set_tree t s)) in
      Some (mkUntrack s (u_rc u) (n :: u_deleted u) (u_untracked u) (u_temp u) (u_ti u))
  else if addr <=? map_addr then
    let left := u64 (e - map_addr) in
    let right := u64 (map_size - left) in
    let m := with_addr m (u64 (map_addr + left)) right in
    let m := if anonymous m then m else with_off m (m_off m + left) in
    let s := set_pages (pages s - npages left) (set_obj n m s) in
    add_frag track map_addr left (set_maps s u)
  else if map_end <=? e then
    let left := u64 (addr - map_addr) in
    let right := u64 (map_addr + map_size - addr) in
    let s := set_pages (pages s - npages right) (set_obj n (with_addr m map_addr left) s) in
    add_frag track addr right (set_maps s u)
  else
    let left := u64 (addr - map_addr) in
    let middle := size in
    let right := u64 (map_size - middle - left) in
    let '(leftmap, s) := __maps_alloc s in
    if negb (leftmap =? 0) then
      lm ← objs s !! leftmap;
      let s := set_obj leftmap (mkMap map_addr left (m_off m) (m_flags m) (m_prot m) (m_hand lm)) s in
      let m := with_addr m (u64 (map_addr + (left + middle))) right in
      let m := if anonymous m then m else with_off m (m_off m + (left + middle)) in
      let s := set_obj n m s in
      t ← t_insert (__maps_compare (objs s)) leftmap (tree s);
      let s := set_count (count s + 1) (set_pages (pages s - npages middle) (set_tree t s)) in
      add_frag track addr size (set_maps s u)
    else Some (mkUntrack s (-1) (u_deleted u) (u_untracked u) (u_temp u) (u_ti u)).

Fixpoint muntrack_loop (fuel : nat) (track : bool) (addr size n : Z) (u : untrack) : option untrack :=
  match fuel with
  | O => None
  | S fuel =>
      if n =? 0 then Some u
      else
        m ← objs (u_maps u) !! n;
        if negb (reaches addr size m) then Some u
        else
          next ← __maps_next (u_maps u) n;
          u ← (if negb (Z.max addr (m_addr m) <? Z.min (u64 (addr + size)) (m_end m)) then Some u
               else muntrack_one track addr size n m u);
          muntrack_loop fuel track addr size next u
  end.
Definition frag0 : frag := mkFrag 0 0 None.
Definition __muntrack (track : bool) (s : Maps ST) (addr size : Z) : option untrack :=
  let size := PGUP size in
  n ← start_at s addr;
  muntrack_loop (maps_fuel s) track addr size n (mkUntrack s 0 [] None [frag0; frag0] 0).

(** The fragments on the list [*untracked]. *)
Fixpoint frag_list (fuel : nat) (temp : list frag) (p : option nat) : list (Z * Z) :=
  match fuel, p with
  | S fuel, Some i => match temp !! i with Some f => (f_addr f, f_size f) :: frag_list fuel temp (f_freed f) | None => [] end
  | _, _ => []
  end.

(** * Entry points *)

Definition __maps_untrack (s : Maps ST) (addr size : Z) : option (Z * Maps ST) :=
  u ← __muntrack false s addr size;
  s ← __maps_free_all (u_maps u) (u_deleted u);
  a ← __maps_unmark pagesize addr size (alive_pages s);
  Some (u_rc u, set_alive a s).

Definition __maps_track (s : Maps ST) (addr size prot flags : Z) : option (bool * Maps ST) :=
  let '(map, s) := __maps_alloc s in
  if map =? 0 then Some (false, s)
  else
    m ← objs s !! map;
    s ← __maps_insert (set_obj map (mkMap addr size (m_off m) flags prot MAPS_VIRTUAL) s) map;
    a ← __maps_mark pagesize addr size (alive_pages s);
    Some (true, set_alive a s).

(** [__maps_destroy_all] where the system is not Windows: the calls made and the result. *)
Definition destroy_all (sys_munmap : Z -> Z -> Z) (l : list (Z * Z)) : Z :=
  foldl (fun rc p => if sys_munmap p.1 p.2 =? 0 then rc else -1) 0 l.

Definition einval : Z := -1.
(** [__munmap] where the system is not Windows; also returns what was passed to the
    system, in order. *)
Definition __munmap (sys_munmap : Z -> Z -> Z) (s : Maps ST) (addr size : Z) : option (Z * list (Z * Z) * Maps ST) :=
  if negb (Z.land addr (gransize - 1) =? 0) || (size =? 0) || (u64 (addr + size) <? size) then Some (einval, [], s)
  else
    a ← __maps_unmark pagesize addr size (alive_pages s);
    u ← __muntrack true (set_alive a s) addr size;
    let untracked := frag_list 3 (u_temp u) (u_untracked u) in
    deleted ← mapM (fun n => m ← objs (u_maps u) !! n; Some (m_addr m, m_size m)) (u_deleted u);
    let rc := Z.lor (u_rc u) (destroy_all sys_munmap untracked) in
    let rc := Z.lor rc (destroy_all sys_munmap deleted) in
    s ← __maps_free_all (u_maps u) (u_deleted u);
    Some (rc, untracked ++ deleted, s).
End Manager.
Arguments mkUntrack {ST} _ _ _ _ _ _. Arguments u_maps {ST} _. Arguments u_rc {ST} _. Arguments u_deleted {ST} _.
Arguments u_untracked {ST} _. Arguments u_temp {ST} _. Arguments u_ti {ST} _.
