(* ===== verification/MapsFacts.v ===== *)
(** The memory manager keeps a map from addresses to what is mapped there: inserting a
    mapping adds its pages, untracking an interval removes the pages of the interval and no
    others, whatever merging, shaving and splitting of structures it takes. *)
From S2P Require Import Prelude NodeTree PageTable PageTableFacts Maps.
From stdpp Require Import list gmap sorting.
#[local] Open Scope Z_scope.

(** Arithmetic that needs no remainders *)
Ltac mlia := repeat match goal with H : context [Z.modulo _ _] |- _ => clear H end; lia.

(** Page sizes of the supported systems. *)
Class GoodPlatform {P : Platform} := {
  page_bits : exists b, 12 <= b <= 20 /\ pagesize = 2 ^ b;
  gran_pages : (pagesize | gransize) /\ exists g, 12 <= g <= 20 /\ gransize = 2 ^ g }.

Section Facts.
Context {ST : Type} {Hops : NodeTree ST} {Hlaws : NodeTreeLaws ST} {P : Platform} {GP : GoodPlatform}.

(** * Rounding *)

Lemma ps_pos : 0 < pagesize <= 2 ^ 20.
Proof. destruct page_bits as (b & Hb & ->). apply (page_size b Hb). Qed.
Definition up (x : Z) : Z := (x + pagesize - 1) / pagesize * pagesize.
Lemma PGUP_up x : 0 <= x <= 2 ^ 60 -> PGUP x = up x.
Proof.
  intros Hx. pose proof ps_pos. unfold PGUP, up. rewrite u64_small by lia. destruct page_bits as (b & Hb & ->). by rewrite page_land.
Qed.
Lemma up_bounds x : x <= up x < x + pagesize.
Proof. pose proof ps_pos. unfold up. pose proof (Z.mod_pos_bound (x + pagesize - 1) pagesize). pose proof (Z.div_mod (x + pagesize - 1) pagesize). lia. Qed.
Lemma up_aligned x : up x mod pagesize = 0.
Proof. pose proof ps_pos. unfold up. apply Z.mod_mul. lia. Qed.
Lemma up_id x : x mod pagesize = 0 -> up x = x.
Proof.
  intros Hx. pose proof ps_pos. apply Z.mod_divide in Hx as [k ->]; [|lia]. unfold up. f_equal.
  replace (k * pagesize + pagesize - 1) with (pagesize - 1 + k * pagesize) by lia. rewrite Z.div_add by lia. rewrite Z.div_small by lia. lia.
Qed.
Lemma up_add a x : a mod pagesize = 0 -> up (a + x) = a + up x.
Proof.
  intros Ha. pose proof ps_pos. apply Z.mod_divide in Ha as [k ->]; [|lia]. unfold up.
  replace (k * pagesize + x + pagesize - 1) with (x + pagesize - 1 + k * pagesize) by lia. rewrite Z.div_add by lia. lia.
Qed.
Lemma npages_up x : 0 <= x <= 2 ^ 60 -> npages x * pagesize = up x.
Proof. intros Hx. pose proof ps_pos. unfold npages, up. rewrite u64_small by lia. done. Qed.
Lemma npages_add a x : a mod pagesize = 0 -> 0 <= a -> 0 <= x -> a + x <= 2 ^ 60 -> npages (a + x) = npages a + npages x.
Proof.
  intros Ha H1 H2 H3. pose proof ps_pos as Hps. assert (npages (a + x) * pagesize = (npages a + npages x) * pagesize) as H; [|nia].
  rewrite Z.mul_add_distr_r, !npages_up by lia. rewrite up_add, (up_id a) by done. done.
Qed.
Lemma mod_add_0 a b : a mod pagesize = 0 -> b mod pagesize = 0 -> (a + b) mod pagesize = 0.
Proof. intros Ha Hb. pose proof ps_pos. rewrite Z.add_mod, Ha, Hb by lia. done. Qed.
Lemma mod_sub_0 a b : a mod pagesize = 0 -> b mod pagesize = 0 -> (a - b) mod pagesize = 0.
Proof. intros Ha Hb. pose proof ps_pos. rewrite Zminus_mod, Ha, Hb by lia. done. Qed.

(** * Mappings *)

(** Mappings of whole pages in the 56-bit address space *)
Definition ok_map (m : Map) : Prop :=
  0 <= m_addr m /\ m_addr m mod pagesize = 0 /\ 0 < m_size m /\ m_addr m + up (m_size m) <= 2 ^ 56.
Lemma m_end_ok m : ok_map m -> m_end m = m_addr m + up (m_size m) /\ m_addr m < m_end m /\ m_end m mod pagesize = 0 /\ m_size m <= 2 ^ 56.
Proof.
  intros (H1 & H2 & H3 & H4). pose proof (up_bounds (m_size m)). unfold m_end. rewrite PGUP_up by lia. rewrite u64_small by lia.
  split; [done|]. split; [lia|]. split; [apply mod_add_0; [done|apply up_aligned]|lia].
Qed.
Definition covers (m : Map) (p : Z) : Prop := m_addr m <= p < m_end m.
(** What the manager knows of the byte at [p]: protection, flags and the place in the file. *)
Definition attr (m : Map) (p : Z) : Z * Z * option Z :=
  (m_prot m, __maps_funge_flags (m_flags m), if anonymous m then None else Some (m_off m + (p - m_addr m))).
Definition tracks (L : list (Z * Map)) (p : Z) (a : Z * Z * option Z) : Prop :=
  exists x, x ∈ L /\ covers x.2 p /\ attr x.2 p = a.

Lemma tracks_app L1 L2 p a : tracks (L1 ++ L2) p a <-> tracks L1 p a \/ tracks L2 p a.
Proof. unfold tracks. setoid_rewrite elem_of_app. naive_solver. Qed.
Lemma tracks_cons x L p a : tracks (x :: L) p a <-> (covers x.2 p /\ attr x.2 p = a) \/ tracks L p a.
Proof. unfold tracks. setoid_rewrite elem_of_cons. naive_solver. Qed.
Lemma tracks_nil p a : tracks [] p a <-> False.
Proof. unfold tracks. set_solver. Qed.

(** Mappings in order, apart from each other *)
Definition before_map (x y : Z * Map) : Prop := m_end x.2 <= m_addr y.2.
Definition ordered (L : list (Z * Map)) : Prop := StronglySorted before_map L /\ Forall (fun x => ok_map x.2) L.
Definition total_pages (L : list (Z * Map)) : Z := foldr (fun x a => npages (m_size x.2) + a) 0 L.
Lemma total_pages_app L1 L2 : total_pages (L1 ++ L2) = total_pages L1 + total_pages L2.
Proof. induction L1 as [|x L1 IH]; [done|]. cbn. fold (total_pages (L1 ++ L2)) (total_pages L1). rewrite IH. lia. Qed.

Lemma ordered_app L1 L2 : ordered (L1 ++ L2) <-> ordered L1 /\ ordered L2 /\ forall x y, x ∈ L1 -> y ∈ L2 -> before_map x y.
Proof. unfold ordered. rewrite StronglySorted_app, Forall_app. naive_solver. Qed.
Lemma ordered_cons x L : ordered (x :: L) <-> ok_map x.2 /\ ordered L /\ forall y, y ∈ L -> before_map x y.
Proof. unfold ordered. rewrite StronglySorted_cons, Forall_cons, (Forall_forall (before_map x)). naive_solver. Qed.
Lemma ordered_nil : ordered [].
Proof. split; constructor. Qed.

(** * The state *)

(** The state tracks [L]; the structures [D] are in the caller's hands, and [e] pages are
    counted that are not in [L]. There are no reservations, which only Windows has. *)
Record rep (s : Maps ST) (L : list (Z * Map)) (D : list Z) (e : Z) : Prop := {
  rep_nodes : nodes (tree s) L.*1;
  rep_objs : Forall (fun x => objs s !! x.1 = Some x.2) L;
  rep_order : ordered L;
  rep_count : count s = Z.of_nat (length L);
  rep_pages : pages s = total_pages L + e;
  rep_distinct : NoDup (L.*1 ++ D ++ freed s ++ supply s);
  rep_avail : Forall (fun n => 0 < n /\ avail (tree s) n) (D ++ freed s ++ supply s);
  rep_structs : Forall (fun n => is_Some (objs s !! n)) (D ++ freed s);
  rep_hands : map_Forall (fun _ m => m_hand m <> MAPS_RESERVATION) (objs s) }.

(** ** Order of nodes and order of addresses *)

Lemma compare_sgn x y : Z.b2z (y <? x) - Z.b2z (x <? y) = Z.sgn (x - y).
Proof. destruct (Z.ltb_spec x y), (Z.ltb_spec y x); cbn [Z.b2z]; lia. Qed.
#[export] Instance maps_comparator o : Comparator (__maps_compare o).
Proof. split; unfold __maps_compare; intros; rewrite !compare_sgn in *; lia. Qed.

Lemma addr_of_rep s L D e x : rep s L D e -> x ∈ L -> addr_of (objs s) x.1 = m_addr x.2.
Proof. intros HR Hx. unfold addr_of. pose proof (rep_objs _ _ _ _ HR) as H. rewrite Forall_forall in H. by rewrite (H x Hx). Qed.
Lemma before_addr x y : ok_map x.2 -> before_map x y -> m_addr x.2 < m_addr y.2.
Proof. intros Hx H. destruct (m_end_ok _ Hx) as (_ & ? & _). unfold before_map in H. lia. Qed.

Lemma sorted_fmap (Q : Z -> Z -> Prop) (L : list (Z * Map)) :
  StronglySorted (fun x y => Q x.1 y.1) L -> StronglySorted Q L.*1.
Proof. induction 1 as [|x L H IH Hx]; cbn; [constructor|]. constructor; [done|]. by apply Forall_fmap. Qed.
Lemma sorted_impl_in {A} (R1 R2 : A -> A -> Prop) L : (forall x y, x ∈ L -> y ∈ L -> R1 x y -> R2 x y) -> StronglySorted R1 L -> StronglySorted R2 L.
Proof.
  intros H HL. induction HL as [|x L HL IH Hx]; constructor.
  - apply IH. intros y z Hy Hz. apply H; by right.
  - rewrite Forall_forall in *. intros y Hy. apply H; [left|by right|by apply Hx].
Qed.
Section ByAddr.
Context (o : gmap Z Map) (L : list (Z * Map)) (HL : ordered L) (Ho : forall x, x ∈ L -> addr_of o x.1 = m_addr x.2).
Lemma by_addr (Q : Z -> Z -> Prop) : (forall x y, x ∈ L -> y ∈ L -> m_addr x.2 < m_addr y.2 -> Q x.1 y.1) -> StronglySorted Q L.*1.
Proof.
  intros H. apply sorted_fmap. destruct HL as [Hs Hk]. eapply sorted_impl_in; [|exact Hs]. intros x y Hx Hy Hxy. apply H; try done.
  apply before_addr; [|done]. rewrite Forall_forall in Hk. by apply Hk.
Qed.
Lemma sorted_nodes : sorted (__maps_compare o) L.*1.
Proof. apply by_addr. intros x y Hx Hy H. unfold __maps_compare. rewrite (Ho x Hx), (Ho y Hy), compare_sgn. lia. Qed.
Lemma ranked_nodes key : ranked (__maps_search o key) L.*1.
Proof. apply by_addr. intros x y Hx Hy H. unfold __maps_search. rewrite (Ho x Hx), (Ho y Hy), !compare_sgn. lia. Qed.
End ByAddr.

(** The nodes in front of a key, and those after it. *)
Lemma floor_spec s L1 L2 D e key : rep s (L1 ++ L2) D e -> (forall x, x ∈ L1 -> m_addr x.2 <= key) -> (forall x, x ∈ L2 -> key < m_addr x.2) ->
  __maps_floor s key = Some (List.last L1.*1 0).
Proof.
  intros HR H1 H2. pose proof (rep_order _ _ _ _ HR) as Ho. pose proof (fun x => addr_of_rep s (L1 ++ L2) D e x HR) as Ha.
  assert (forall x, x ∈ L1 ++ L2 -> __maps_search (objs s) key x.1 = Z.sgn (key - m_addr x.2)) as Hs.
  { intros x Hx. unfold __maps_search. by rewrite (Ha x Hx), compare_sgn. }
  destruct (floor_law (__maps_search (objs s) key) (tree s) (L1 ++ L2).*1 (rep_nodes _ _ _ _ HR)) as (p & Hp & Hcase).
  { apply ranked_nodes; [done|]. intros x Hx. by apply Ha. }
  unfold __maps_floor. rewrite Hp. f_equal. destruct Hcase as [[Hin Hz]|[Hnz ->]].
  - apply list_elem_of_fmap in Hin as (x & -> & Hx). rewrite Hs in Hz by done. apply elem_of_app in Hx as [Hx|Hx]; [|specialize (H2 x Hx); lia].
    apply list_elem_of_split in Hx as (A & B & ->). destruct B as [|y B].
    + rewrite fmap_app. cbn. by rewrite last_last.
    + exfalso. rewrite <- app_assoc in Ho. apply ordered_app in Ho as (_ & Ho & _). cbn [app] in Ho. apply ordered_cons in Ho as (Hok & _ & Hb).
      pose proof (before_addr x y Hok (Hb y ltac:(left))). specialize (H1 y ltac:(set_solver)). lia.
  - f_equal. rewrite fmap_app, filter_app. rewrite (filter_all _ L1.*1), (filter_none _ L2.*1); [by rewrite app_nil_r| |].
    + intros n Hn. apply list_elem_of_fmap in Hn as (x & -> & Hx). rewrite Hs by set_solver. specialize (H2 x Hx). lia.
    + intros n Hn. apply list_elem_of_fmap in Hn as (x & -> & Hx). rewrite Hs by set_solver. specialize (H1 x Hx).
      rewrite Forall_forall in Hnz. specialize (Hnz x.1 ltac:(rewrite fmap_app; set_solver)). rewrite Hs in Hnz by set_solver. lia.
Qed.
Lemma nonnull s L D e x : rep s L D e -> x ∈ L -> (x.1 =? 0) = false.
Proof.
  intros HR Hx. pose proof (nodes_nonnull _ _ x.1 (rep_nodes _ _ _ _ HR)) as H. specialize (H ltac:(by apply list_elem_of_fmap_2)). lia.
Qed.
Lemma next_spec s L1 x L2 D e : rep s (L1 ++ x :: L2) D e -> __maps_next s x.1 = Some (hd 0 L2.*1).
Proof. intros HR. unfold __maps_next. apply (next_law (tree s) L1.*1). rewrite <- fmap_cons, <- fmap_app. apply (rep_nodes _ _ _ _ HR). Qed.
(** The neighbours [__maps_insert] finds *)
Lemma neighbours s L1 L2 D e key : rep s (L1 ++ L2) D e -> (forall x, x ∈ L1 -> m_addr x.2 <= key) -> (forall x, x ∈ L2 -> key < m_addr x.2) ->
  __maps_floor s key = Some (List.last L1.*1 0) /\
  (if List.last L1.*1 0 =? 0 then __maps_first s else __maps_next s (List.last L1.*1 0)) = Some (hd 0 L2.*1).
Proof.
  intros HR H1 H2. split; [by eapply floor_spec|]. destruct L1 as [|x L1 _] using rev_ind.
  - cbn. unfold __maps_first. apply first_law. apply (rep_nodes _ _ _ _ HR).
  - rewrite fmap_app. cbn [fmap list_fmap]. rewrite last_last. rewrite (nonnull _ _ _ _ x HR) by set_solver. rewrite <- app_assoc in HR. by apply (next_spec s L1 x L2 D e).
Qed.


(** ** Elementary changes *)

Lemma obj_of s A x B D e : rep s (A ++ x :: B) D e -> objs s !! x.1 = Some x.2.
Proof. intros HR. pose proof (rep_objs _ _ _ _ HR) as H. rewrite Forall_forall in H. apply H. set_solver. Qed.
Lemma objs_others (o : gmap Z Map) n m L : n ∉ L.*1 -> Forall (fun x => o !! x.1 = Some x.2) L -> Forall (fun x => <[n := m]> o !! x.1 = Some x.2) L.
Proof.
  intros Hn H. rewrite Forall_forall in *. intros x Hx. rewrite lookup_insert_ne; [by apply H|]. intros ->. apply Hn. by apply list_elem_of_fmap_2.
Qed.
Lemma structs_insert (o : gmap Z Map) n m l : Forall (fun n => is_Some (o !! n)) l -> Forall (fun k => is_Some (<[n := m]> o !! k)) l.
Proof. intros H. eapply Forall_impl; [exact H|]. intros k Hk. cbn beta in *. destruct (decide (n = k)) as [->|]; [rewrite lookup_insert_eq; by eexists|by rewrite lookup_insert_ne]. Qed.

(** A tracked mapping changes. *)
Lemma rep_change s A n m B D e m' : rep s (A ++ (n, m) :: B) D e -> ordered (A ++ (n, m') :: B) -> m_hand m' <> MAPS_RESERVATION ->
  rep (set_obj n m' s) (A ++ (n, m') :: B) D (e + npages (m_size m) - npages (m_size m')).
Proof.
  intros [H1 H2 H3 H4 H5 H6 H7 H8 H9] Ho Hh. rewrite fmap_app in *. cbn [fmap list_fmap fst] in *.
  assert (n ∉ A.*1 /\ n ∉ B.*1) as [HnA HnB].
  { rewrite <- app_assoc in H6. apply NoDup_app in H6 as (_ & K1 & K2). apply NoDup_cons in K2 as [K2 _]. split; [|set_solver]. intros K. apply (K1 n K). left. }
  split; cbn [set_obj tree objs count pages freed supply]; try done; try (by rewrite fmap_app).
  - apply Forall_app in H2 as [H2 H2']. inversion_clear H2' as [|? ? _ H2''].
    apply Forall_app. split; [by apply objs_others|]. constructor; [by rewrite lookup_insert_eq|by apply objs_others].
  - rewrite H4, !length_app. done.
  - rewrite H5, !total_pages_app. cbn. fold (total_pages B). lia.
  - by apply structs_insert.
  - by apply map_Forall_insert_2.
Qed.
Lemma rep_resize s A n m B D e m' : rep s (A ++ (n, m) :: B) D e -> ordered (A ++ (n, m') :: B) -> m_hand m' = m_hand m ->
  rep (set_obj n m' s) (A ++ (n, m') :: B) D (e + npages (m_size m) - npages (m_size m')).
Proof. intros HR Ho Hh. apply rep_change; [done..|]. rewrite Hh. exact (rep_hands _ _ _ _ HR n m (obj_of _ _ (n, m) _ _ _ HR)). Qed.
(** A structure in the caller's hands is written to. *)
Lemma rep_write s L n D e m : rep s L (n :: D) e -> m_hand m <> MAPS_RESERVATION -> rep (set_obj n m s) L (n :: D) e.
Proof.
  intros [H1 H2 H3 H4 H5 H6 H7 H8 H9] Hh. split; cbn [set_obj tree objs count pages freed supply]; try done; [|by apply structs_insert|by apply map_Forall_insert_2].
  apply objs_others; [|done]. apply NoDup_app in H6 as (_ & H6 & _). intros K. apply (H6 n K). left.
Qed.
Lemma rep_free s L n D e : rep s L (n :: D) e -> exists s', __maps_free s n = Some s' /\ rep s' L D e /\ tree s' = tree s /\ alive_pages s' = alive_pages s /\
  forall L', Forall (fun x => x.1 <> n /\ objs s !! x.1 = Some x.2) L' -> Forall (fun x => objs s' !! x.1 = Some x.2) L'.
Proof.
  intros [H1 H2 H3 H4 H5 H6 H7 H8 H9]. unfold __maps_free. inversion_clear H8 as [|? ? [m Hm] H8']. rewrite Hm. cbn [mbind option_bind].
  eexists. split; [done|]. split; [|split; [done|split; [done|]]].
  - split; cbn [tree objs count pages freed supply alive_pages]; try done.
    + apply objs_others; [|done]. apply NoDup_app in H6 as (_ & H6 & _). intros K. apply (H6 n K). left.
    + assert (L.*1 ++ (n :: D) ++ freed s ++ supply s ≡ₚ L.*1 ++ D ++ (n :: freed s) ++ supply s) as <-; [|done]. solve_Permutation.
    + assert ((n :: D) ++ freed s ++ supply s ≡ₚ D ++ (n :: freed s) ++ supply s) as <-; [|done]. solve_Permutation.
    + assert (n :: (D ++ freed s) ≡ₚ D ++ n :: freed s) as <- by solve_Permutation. constructor; [rewrite lookup_insert_eq; by eexists|]. by apply structs_insert.
    + by apply map_Forall_insert_2.
  - intros L' HL'. cbn [objs]. eapply Forall_impl; [exact HL'|]. intros y [Hy1 Hy2]. by rewrite lookup_insert_ne.
Qed.
Lemma rep_remove s A n m B D e : rep s (A ++ (n, m) :: B) D e ->
  exists t, t_remove n (tree s) = Some t /\ rep (set_count (count s - 1) (set_tree t s)) (A ++ B) (n :: D) (e + npages (m_size m)).
Proof.
  intros [H1 H2 H3 H4 H5 H6 H7 H8 H9]. rewrite fmap_app in H1. cbn [fmap list_fmap fst] in H1. destruct (remove_law _ _ _ _ H1) as (t & Ht & Hn & Hav).
  exists t. split; [done|]. split; cbn [set_count set_tree tree objs count pages freed supply].
  - by rewrite fmap_app.
  - apply Forall_app in H2 as [H2 H2']. inversion_clear H2'. by apply Forall_app.
  - apply ordered_app in H3 as (K1 & K2 & K3). apply ordered_cons in K2 as (_ & K2 & _). apply ordered_app. split_and!; [done|done|]. intros x y Hx Hy. apply K3; [done|by right].
  - rewrite H4, !length_app. cbn [length]. lia.
  - rewrite H5, !total_pages_app. cbn. fold (total_pages B). lia.
  - assert ((A ++ (n, m) :: B).*1 ++ D ++ freed s ++ supply s ≡ₚ (A ++ B).*1 ++ (n :: D) ++ freed s ++ supply s) as <-; [|done]. rewrite !fmap_app. cbn. solve_Permutation.
  - constructor.
    + split; [apply (nodes_nonnull _ _ n H1); set_solver|]. apply Hav, (nodes_avail _ _ n H1). set_solver.
    + eapply Forall_impl; [exact H7|]. intros k [? ?]. split; [done|by apply Hav].
  - constructor; [|done]. rewrite Forall_forall in H2. exists m. apply (H2 (n, m)). set_solver.
  - done.
Qed.
Lemma rep_add s A n m B D e : rep s (A ++ B) (n :: D) e -> objs s !! n = Some m -> ordered (A ++ (n, m) :: B) ->
  exists s', __maps_add s n = Some s' /\ rep s' (A ++ (n, m) :: B) D (e - npages (m_size m)) /\ objs s' = objs s /\ alive_pages s' = alive_pages s.
Proof.
  intros HR Hm Ho. pose proof HR as [H1 H2 H3 H4 H5 H6 H7 H8 H9]. unfold __maps_add. cbn [app] in H7. apply Forall_cons in H7 as [[Hn0 Hav] H7'].
  assert (forall x, x ∈ A ++ (n, m) :: B -> addr_of (objs s) x.1 = m_addr x.2) as Ha.
  { intros x Hx. apply elem_of_app in Hx as [Hx|Hx]; [|apply elem_of_cons in Hx as [->|Hx]]; try (apply (addr_of_rep _ _ _ _ _ HR); set_solver).
    unfold addr_of. cbn. by rewrite Hm. }
  assert (n ∉ (A ++ B).*1) as Hni by (apply NoDup_app in H6 as (_ & H6 & _); intros K; apply (H6 n K); left).
  destruct (insert_law (__maps_compare (objs s)) (tree s) (A ++ B).*1 n) as (t & Ht & Hn & Hk); try done.
  { apply sorted_nodes; [done|]. intros x Hx. apply Ha. set_solver. }
  rewrite Ht. cbn [mbind option_bind]. eexists. split; [done|]. split; [|done].
  apply ordered_app in Ho as (K1 & K2 & K3). pose proof K2 as K2'. apply ordered_cons in K2 as (K4 & K5 & K6). cbn [snd] in *.
  rewrite fmap_app, ins_split in Hn.
  - split; cbn [set_count set_tree tree objs count pages freed supply].
    + by rewrite fmap_app.
    + apply Forall_app in H2 as [H2 H2']. apply Forall_app. split; [done|by constructor].
    + by apply ordered_app.
    + rewrite H4, !length_app. cbn [length]. lia.
    + rewrite H5, !total_pages_app. cbn. fold (total_pages B). lia.
    + assert ((A ++ (n, m) :: B).*1 ++ D ++ freed s ++ supply s ≡ₚ (A ++ B).*1 ++ (n :: D) ++ freed s ++ supply s) as ->; [|done]. rewrite !fmap_app. cbn. solve_Permutation.
    + eapply Forall_impl; [exact H7'|]. intros k [? ?]. split; [done|by apply Hk].
    + by inversion H8.
    + done.
  - apply Forall_fmap. apply Forall_forall. intros x Hx. cbn. unfold __maps_compare. pose proof (Ha (n, m) ltac:(set_solver)) as Hnm. cbn in Hnm. rewrite Hnm, (Ha x) by set_solver. rewrite compare_sgn.
    pose proof (before_addr x (n, m)) as Hb. destruct K1 as [_ K1]. rewrite Forall_forall in K1. specialize (Hb (K1 x Hx) (K3 x (n, m) Hx ltac:(left))). cbn [snd] in Hb. lia.
  - apply Forall_fmap. apply Forall_forall. intros x Hx. cbn. unfold __maps_compare. pose proof (Ha (n, m) ltac:(set_solver)) as Hnm. cbn in Hnm. rewrite Hnm, (Ha x) by set_solver. rewrite compare_sgn.
    pose proof (before_addr (n, m) x K4 (K6 x Hx)) as Hb. cbn [snd] in Hb. lia.
Qed.


(** * Inserting *)

(** [z] stands for the adjacent mappings [x] and [y]. *)
Lemma merged z x y : ok_map x -> ok_map y -> __maps_mergeable x y = true ->
  m_addr z = m_addr x -> m_size z = up (m_size x) + m_size y ->
  (m_prot z, __maps_funge_flags (m_flags z), anonymous z) = (m_prot x, __maps_funge_flags (m_flags x), true) ->
  ok_map z /\ m_end z = m_end y /\ npages (m_size z) = npages (m_size x) + npages (m_size y) /\
  forall p a, covers z p /\ attr z p = a <-> (covers x p /\ attr x p = a) \/ (covers y p /\ attr y p = a).
Proof.
  intros Hx Hy Hm Ha Hs Hz. injection Hz as Hz1 Hz2 Hz3. unfold __maps_mergeable, __maps_fungible, __maps_adjacent in Hm. bool_prop.
  destruct (m_end_ok x Hx) as (Ex & Ex1 & Ex2 & Ex3). destruct (m_end_ok y Hy) as (Ey & Ey1 & Ey2 & Ey3).
  pose proof Hx as (Hx1 & Hx2 & Hx3 & Hx4). pose proof Hy as (Hy1 & Hy2 & Hy3 & Hy4). pose proof (up_bounds (m_size x)) as Ub. pose proof (up_aligned (m_size x)) as Ua.
  assert (up (m_size z) = up (m_size x) + up (m_size y)) as Hup by (rewrite Hs; by apply up_add).
  assert (ok_map z) as Hzk.
  { unfold ok_map. rewrite Ha, Hup, Hs. split; [done|]. split; [done|]. clear Hx2 Hy2 Ua Ex2 Ey2 Hup. split; lia. }
  destruct (m_end_ok z Hzk) as (Ez & _). split; [done|]. assert (m_end z = m_end y) as Hend by (rewrite Ez, Ey, Ha, Hup; clear Hx2 Hy2 Ua Ex2 Ey2; lia). split; [done|]. split.
  { rewrite Hs. rewrite npages_add; [|done|clear Hx2 Hy2 Ua Ex2 Ey2; lia..]. f_equal. pose proof ps_pos as Hps.
    assert (npages (up (m_size x)) * pagesize = npages (m_size x) * pagesize) as Hnp; [|clear -Hnp Hps; nia].
    rewrite !npages_up by (clear Hx2 Hy2 Ua Ex2 Ey2; lia). by apply up_id. }
  intros p a. unfold covers, attr. rewrite Hend, Ha, Hz1, Hz2, Hz3.
  match goal with H : anonymous x = true |- _ => rewrite H end. match goal with H : anonymous y = true |- _ => rewrite H end.
  match goal with H : m_prot x = m_prot y |- _ => rewrite H end. match goal with H : __maps_funge_flags (m_flags x) = _ |- _ => rewrite H end.
  assert (m_addr x <= p < m_end y <-> m_addr x <= p < m_end x \/ m_addr y <= p < m_end y) as -> by (clear Hx2 Hy2 Ua Ex2 Ey2; lia). tauto.
Qed.
Lemma merge_left_size x y : ok_map x -> ok_map y -> m_end x = m_addr y -> u64 (PGUP (m_size x) + m_size y) = up (m_size x) + m_size y.
Proof.
  intros Hx Hy He. destruct (m_end_ok x Hx) as (Ex & _ & _ & Ex3). destruct (m_end_ok y Hy) as (_ & _ & _ & Ey3). destruct Hx as (? & _ & ? & ?), Hy as (? & _ & ? & ?).
  pose proof (up_bounds (m_size x)). pose proof ps_pos. rewrite PGUP_up by lia. apply u64_small. lia.
Qed.
Lemma mergeable_facts x y : __maps_mergeable x y = true -> m_end x = m_addr y /\ anonymous x = true /\ anonymous y = true /\ m_prot x = m_prot y /\
  __maps_funge_flags (m_flags x) = __maps_funge_flags (m_flags y).
Proof. unfold __maps_mergeable, __maps_fungible, __maps_adjacent. intros H. bool_prop. done. Qed.

(** Growing [x] over its neighbour [y] *)
Lemma merge_into_left x y : ok_map x -> ok_map y -> __maps_mergeable x y = true ->
  let z := with_addr x (m_addr x) (u64 (PGUP (m_size x) + m_size y)) in
  ok_map z /\ m_addr z = m_addr x /\ m_end z = m_end y /\ npages (m_size z) = npages (m_size x) + npages (m_size y) /\
  forall p a, covers z p /\ attr z p = a <-> (covers x p /\ attr x p = a) \/ (covers y p /\ attr y p = a).
Proof.
  intros Hx Hy Hm z. destruct (mergeable_facts _ _ Hm) as (He & Hax & _). destruct (merged z x y) as (H1 & H2 & H3 & H4); try done.
  - by apply merge_left_size.
  - change (anonymous z) with (anonymous x). by rewrite Hax.
Qed.
Lemma merge_into_right x y : ok_map x -> ok_map y -> __maps_mergeable x y = true ->
  let z := with_addr y (u64 (m_addr y - PGUP (m_size x))) (u64 (m_size y + PGUP (m_size x))) in
  ok_map z /\ m_addr z = m_addr x /\ m_end z = m_end y /\ npages (m_size z) = npages (m_size x) + npages (m_size y) /\
  forall p a, covers z p /\ attr z p = a <-> (covers x p /\ attr x p = a) \/ (covers y p /\ attr y p = a).
Proof.
  intros Hx Hy Hm z. destruct (mergeable_facts _ _ Hm) as (He & Hax & Hay & Hp & Hf). destruct (m_end_ok x Hx) as (Ex & _ & _ & Ex3).
  assert (m_addr z = m_addr x) as Ha.
  { cbn. destruct Hx as (? & _ & ? & ?). pose proof (up_bounds (m_size x)). rewrite PGUP_up by lia. rewrite u64_small; lia. }
  destruct (merged z x y) as (H1 & H2 & H3 & H4); try done.
  - pose proof (merge_left_size x y Hx Hy He) as Hs. cbn. rewrite Z.add_comm. done.
  - change (anonymous z) with (anonymous y). change (m_prot z) with (m_prot y). change (m_flags z) with (m_flags y). by rewrite Hp, Hf, Hay.
Qed.

Lemma ordered_put A n z B : ordered (A ++ B) -> ok_map z -> (forall a, a ∈ A -> m_end a.2 <= m_addr z) -> (forall b, b ∈ B -> m_end z <= m_addr b.2) ->
  ordered (A ++ (n, z) :: B).
Proof.
  intros Ho Hz HA HB. apply ordered_app in Ho as (H1 & H2 & H3). apply ordered_app. split; [done|]. split; [by apply ordered_cons|].
  intros x y Hx Hy. apply elem_of_cons in Hy as [->|Hy]; [by apply HA|by apply H3].
Qed.
Lemma ordered_take A x B : ordered (A ++ x :: B) -> ordered (A ++ B) /\ ok_map x.2 /\ (forall a, a ∈ A -> m_end a.2 <= m_addr x.2) /\ (forall b, b ∈ B -> m_end x.2 <= m_addr b.2).
Proof.
  intros Ho. apply ordered_app in Ho as (H1 & H2 & H3). apply ordered_cons in H2 as (H4 & H5 & H6). split_and!; try done.
  - apply ordered_app. split_and!; try done. intros a b Ha Hb. apply H3; [done|by right].
  - intros a Ha. apply H3; [done|left].
Qed.

Lemma rep_equal s L D e e' : rep s L D e -> e = e' -> rep s L D e'.
Proof. by intros H <-. Qed.
Lemma rep_perm (s : Maps ST) L D D' e : D ≡ₚ D' -> rep s L D e -> rep s L D' e.
Proof. intros HD [H1 H2 H3 H4 H5 H6 H7 H8 H9]. split; try done; by rewrite <- HD. Qed.
Lemma rep_pages_add s L D e k : rep s L D e -> rep (set_pages (pages s + k) s) L D (e + k).
Proof. intros [H1 H2 H3 H4 H5 H6 H7 H8 H9]. split; cbn; try done. lia. Qed.

Lemma node_at s A n m B D e : rep s (A ++ (n, m) :: B) D e -> (n =? 0) = false /\ objs s !! n = Some m.
Proof. intros HR. split; [apply (nonnull _ _ _ _ (n, m) HR); set_solver|apply (obj_of _ _ (n, m) _ _ _ HR)]. Qed.
Lemma last_fmap (A : list (Z * Map)) x : List.last (A ++ [x]).*1 0 = x.1.
Proof. rewrite fmap_app. cbn. by rewrite last_last. Qed.

(** Merging the new mapping [m] into the mapping [l] on its left *)
Lemma merge_left_ok s A ln l L2 n m D e : rep s (A ++ (ln, l) :: L2) (n :: D) e -> objs s !! n = Some m -> ok_map m ->
  (forall b, b ∈ L2 -> m_end m <= m_addr b.2) -> __maps_mergeable l m = true ->
  exists s' l', merge_left s ln n = Some (s', 0) /\ rep s' (A ++ (ln, l') :: L2) D (e - npages (m_size m)) /\ alive_pages s' = alive_pages s /\
    forall p a, covers l' p /\ attr l' p = a <-> (covers l p /\ attr l p = a) \/ (covers m p /\ attr m p = a).
Proof.
  intros HR Hm Hok HB Hmm. destruct (ordered_take _ _ _ (rep_order _ _ _ _ HR)) as (Ho & Hl & HA & _). cbn [snd] in *.
  destruct (merge_into_left l m Hl Hok Hmm) as (K1 & K2 & K3 & K4 & K5). set (l' := with_addr l _ _) in *.
  unfold merge_left. destruct (node_at _ _ _ _ _ _ _ HR) as [N1 N2]. rewrite N1, N2, Hm. cbn [mbind option_bind]. rewrite Hmm.
  assert (rep (set_obj ln l' s) (A ++ (ln, l') :: L2) (n :: D) (e - npages (m_size m))) as HR1.
  { eapply rep_equal; [apply (rep_resize _ _ _ l); [done| |done]|rewrite K4; lia]. apply ordered_put; [done|done|by rewrite K2|by rewrite K3]. }
  destruct (rep_free _ _ _ _ _ HR1) as (s' & Hs' & HR2 & _ & Hal & _). unfold l' in Hs'. rewrite Hs'. cbn [mbind option_bind]. by exists s', l'.
Qed.
Lemma merge_right_ok s L1 n m rn r B D e : rep s (L1 ++ (rn, r) :: B) (n :: D) e -> objs s !! n = Some m -> ok_map m -> 0 < n ->
  (forall a, a ∈ L1 -> m_end a.2 <= m_addr m) -> __maps_mergeable m r = true ->
  exists s' r', merge_right s n rn = Some (s', 0) /\ rep s' (L1 ++ (rn, r') :: B) D (e - npages (m_size m)) /\ alive_pages s' = alive_pages s /\
    forall p a, covers r' p /\ attr r' p = a <-> (covers m p /\ attr m p = a) \/ (covers r p /\ attr r p = a).
Proof.
  intros HR Hm Hok Hn HA Hmm. destruct (ordered_take _ _ _ (rep_order _ _ _ _ HR)) as (Ho & Hr & _ & HB). cbn [snd] in *.
  destruct (merge_into_right m r Hok Hr Hmm) as (K1 & K2 & K3 & K4 & K5). set (r' := with_addr r _ _) in *.
  unfold merge_right. destruct (node_at _ _ _ _ _ _ _ HR) as [N1 N2]. rewrite (proj2 (Z.eqb_neq n 0)) by lia. rewrite N1, Hm, N2. cbn [orb mbind option_bind]. rewrite Hmm. cbv zeta.
  pose proof (rep_write _ _ _ _ _ (with_addr m (m_addr m) (PGUP (m_size m))) HR (rep_hands _ _ _ _ HR _ _ Hm)) as HR0.
  assert (rep (set_obj rn r' (set_obj n (with_addr m (m_addr m) (PGUP (m_size m))) s)) (L1 ++ (rn, r') :: B) (n :: D) (e - npages (m_size m))) as HR1.
  { eapply rep_equal; [apply (rep_resize _ _ _ r); [done| |done]|rewrite K4; lia]. apply ordered_put; [done|done|by rewrite K2|by rewrite K3]. }
  destruct (rep_free _ _ _ _ _ HR1) as (s' & Hs' & HR2 & _ & Hal & _). unfold r' in Hs'. rewrite Hs'. cbn [mbind option_bind]. by exists s', r'.
Qed.
(** Joining two neighbours *)
Lemma merge_hole_ok s A ln l rn r B D e : rep s (A ++ (ln, l) :: (rn, r) :: B) D e ->
  exists s' L', merge_hole s ln 0 rn = Some s' /\ rep s' L' D e /\ alive_pages s' = alive_pages s /\
    forall p a, tracks L' p a <-> tracks (A ++ (ln, l) :: (rn, r) :: B) p a.
Proof.
  intros HR. pose proof (rep_order _ _ _ _ HR) as Ho. destruct (ordered_take _ _ _ Ho) as (Ho1 & Hl & HA & HlB). destruct (ordered_take _ _ _ Ho1) as (Ho2 & Hr & _ & HB). cbn [snd] in *.
  assert (rep s ((A ++ [(ln, l)]) ++ (rn, r) :: B) D e) as HR' by (by rewrite <- app_assoc).
  unfold merge_hole. destruct (node_at _ _ _ _ _ _ _ HR) as [N1 N2]. destruct (node_at _ _ _ _ _ _ _ HR') as [N3 N4].
  rewrite N1, N2, N3, N4. cbn [negb orb Z.eqb mbind option_bind].
  destruct (__maps_mergeable l r) eqn:Hmm; [|by exists s, (A ++ (ln, l) :: (rn, r) :: B)].
  destruct (merge_into_left l r Hl Hr Hmm) as (K1 & K2 & K3 & K4 & K5). set (l' := with_addr l _ _) in *.
  destruct (rep_remove _ _ _ _ _ _ _ HR') as (t & Ht & HR1). rewrite <- app_assoc in HR1. cbn [app] in HR1.
  assert (rep (set_obj ln l' (set_count (count s - 1) (set_tree t s))) (A ++ (ln, l') :: B) (rn :: D) e) as HR2.
  { eapply rep_equal; [apply (rep_resize _ _ _ l); [done| |done]|rewrite K4; lia]. apply ordered_put; [done|done|by rewrite K2|by rewrite K3]. }
  destruct (rep_free _ _ _ _ _ HR2) as (s' & Hs' & HR3 & _ & Hal & _).
  cbn [set_obj tree]. rewrite Ht. cbn [mbind option_bind].
  exists s', (A ++ (ln, l') :: B). split.
  { unfold __maps_free in *. cbn [set_obj set_tree set_count objs] in *. destruct (<[ln := l']> (objs s) !! rn); [|done]. cbn [mbind option_bind] in *. by injection Hs' as <-. }
  split; [done|]. split; [done|]. intros p a. rewrite !tracks_app, !tracks_cons. cbn [snd]. rewrite K5. tauto.
Qed.


(** The mapping [m] is apart from those tracked. *)
Definition apart (m : Map) (L : list (Z * Map)) : Prop := Forall (fun x => m_end x.2 <= m_addr m \/ m_end m <= m_addr x.2) L.
Lemma split_apart m L : ok_map m -> ordered L -> apart m L ->
  exists L1 L2, L = L1 ++ L2 /\ (forall x, x ∈ L1 -> m_end x.2 <= m_addr m) /\ (forall x, x ∈ L2 -> m_end m <= m_addr x.2).
Proof.
  intros Hm. induction L as [|x L IH]; intros Ho Ha; [exists [], []; set_solver|]. apply ordered_cons in Ho as (Hx & Ho & Hb). apply Forall_cons in Ha as [Hax Ha].
  destruct (Z.le_gt_cases (m_end x.2) (m_addr m)) as [Hle|Hgt].
  - destruct (IH Ho Ha) as (L1 & L2 & -> & H1 & H2). exists (x :: L1), L2. split; [done|]. split; [|done]. intros y Hy. apply elem_of_cons in Hy as [->|Hy]; [done|by apply H1].
  - exists [], (x :: L). split; [done|]. split; [set_solver|]. destruct Hax as [|Hax]; [lia|]. intros y Hy. apply elem_of_cons in Hy as [->|Hy]; [done|].
    specialize (Hb y Hy). unfold before_map in Hb. destruct (m_end_ok _ Hx) as (_ & ? & _). lia.
Qed.

Lemma merge_left_none s L1 n m D e L2 : rep s (L1 ++ L2) (n :: D) e -> objs s !! n = Some m ->
  merge_left s (List.last L1.*1 0) n = Some (s, n) \/
  exists A ln l, L1 = A ++ [(ln, l)] /\ __maps_mergeable l m = true /\ List.last L1.*1 0 = ln.
Proof.
  intros HR Hm. destruct L1 as [|[ln l] A _] using rev_ind; [by left|]. rewrite last_fmap. cbn [fst].
  destruct (__maps_mergeable l m) eqn:E; [right; by exists A, ln, l|left]. rewrite <- app_assoc in HR. destruct (node_at _ _ _ _ _ _ _ HR) as [N1 N2].
  unfold merge_left. rewrite N1, N2, Hm. cbn [mbind option_bind]. by rewrite E.
Qed.
Lemma merge_right_none s L1 n m D e L2 : rep s (L1 ++ L2) (n :: D) e -> objs s !! n = Some m ->
  merge_right s n (hd 0 L2.*1) = Some (s, n) \/
  exists rn r B, L2 = (rn, r) :: B /\ __maps_mergeable m r = true.
Proof.
  intros HR Hm. destruct L2 as [|[rn r] B]; [left; unfold merge_right; by rewrite orb_true_r|]. cbn [fmap list_fmap hd fst].
  destruct (__maps_mergeable m r) eqn:E; [right; by exists rn, r, B|left]. destruct (node_at _ _ _ _ _ _ _ HR) as [N1 N2].
  unfold merge_right. rewrite N1, Hm, N2. destruct (n =? 0); cbn [orb mbind option_bind]; [done|by rewrite E].
Qed.
(** After a merge the neighbours may be joined too. *)
Lemma hole_step s L1 L2 D e : rep s (L1 ++ L2) D e ->
  exists s' L', merge_hole s (List.last L1.*1 0) 0 (hd 0 L2.*1) = Some s' /\ rep s' L' D e /\ alive_pages s' = alive_pages s /\
    forall p a, tracks L' p a <-> tracks (L1 ++ L2) p a.
Proof.
  intros HR. destruct L1 as [|[ln l] A _] using rev_ind; [exists s, L2; by unfold merge_hole|].
  destruct L2 as [|[rn r] B]; [exists s, ((A ++ [(ln, l)]) ++ []); unfold merge_hole; by rewrite !orb_true_r|].
  rewrite last_fmap. cbn [fmap list_fmap hd fst]. rewrite <- app_assoc in HR. destruct (merge_hole_ok _ _ _ _ _ _ _ _ _ HR) as (s' & L' & H1 & H2 & H3 & H4).
  exists s', L'. rewrite <- app_assoc. done.
Qed.

Lemma maps_insert_ok s L n m D e : rep s L (n :: D) e -> objs s !! n = Some m -> ok_map m -> apart m L ->
  exists s' L', __maps_insert s n = Some s' /\ rep s' L' D e /\ alive_pages s' = alive_pages s /\
    forall p a, tracks L' p a <-> tracks L p a \/ (covers m p /\ attr m p = a).
Proof.
  intros HR Hm Hok Hap. destruct (split_apart m L Hok (rep_order _ _ _ _ HR) Hap) as (L1 & L2 & -> & H1 & H2).
  destruct (m_end_ok m Hok) as (_ & Hlt & _). unfold __maps_insert. rewrite Hm. cbn [mbind option_bind].
  pose proof (rep_pages_add _ _ _ _ (npages (m_size m)) HR) as HR1. set (s1 := set_pages _ s) in *.
  assert (0 < n) as Hn0 by (pose proof (rep_avail _ _ _ _ HR) as K; cbn [app] in K; apply Forall_cons in K as [[K _] _]; done).
  assert (forall x, x ∈ L1 -> m_addr x.2 <= m_addr m) as Ha1.
  { intros x Hx. specialize (H1 x Hx). pose proof (rep_order _ _ _ _ HR) as [_ K]. rewrite Forall_forall in K. destruct (m_end_ok x.2 (K x ltac:(set_solver))) as (_ & ? & _). lia. }
  destruct (neighbours s1 L1 L2 _ _ (m_addr m) HR1 Ha1) as [Hfl Hnx]; [intros x Hx; specialize (H2 x Hx); lia|].
  rewrite Hfl. cbn [mbind option_bind]. rewrite Hnx. cbn [mbind option_bind].
  destruct (merge_left_none s1 L1 n m D _ L2 HR1 Hm) as [Hml|(A & ln & l & -> & Hmm & Hln)].
  - rewrite Hml. cbn [mbind option_bind].
    destruct (merge_right_none s1 L1 n m D _ L2 HR1 Hm) as [Hmr|(rn & r & B & -> & Hmm)].
    + rewrite Hmr. cbn [mbind option_bind]. unfold merge_hole at 1. rewrite (proj2 (Z.eqb_neq n 0)) by lia. cbn [negb orb mbind option_bind].
      destruct (rep_add s1 L1 n m L2 D _ HR1 Hm) as (s' & Hs' & HR2 & _ & Hal).
      { apply ordered_put; [apply (rep_order _ _ _ _ HR)|done|done|done]. }
      exists s', (L1 ++ (n, m) :: L2). split; [done|]. split; [eapply rep_equal; [done|lia]|]. split; [done|].
      intros p a. rewrite !tracks_app, tracks_cons. cbn [snd]. tauto.
    + destruct (merge_right_ok s1 L1 n m rn r B D _ HR1 Hm Hok Hn0 H1 Hmm) as (s2 & r' & Hs2 & HR2 & Hal2 & Htr).
      cbn [fmap list_fmap hd fst] in *. rewrite Hs2. cbn [mbind option_bind].
      destruct (hole_step s2 L1 ((rn, r') :: B) D _ HR2) as (s' & L' & Hs' & HR3 & Hal3 & Htr').
      cbn [fmap list_fmap hd fst] in Hs'. rewrite Hs'. cbn [mbind option_bind Z.eqb]. exists s', L'. split; [done|]. split; [eapply rep_equal; [done|lia]|]. split; [by rewrite Hal3, Hal2|].
      intros p a. rewrite Htr', !tracks_app, !tracks_cons. cbn [snd]. rewrite Htr. tauto.
  - rewrite Hln. rewrite <- app_assoc in HR1. destruct (merge_left_ok s1 A ln l L2 n m D _ HR1 Hm Hok H2 Hmm) as (s2 & l' & Hs2 & HR2 & Hal2 & Htr).
    rewrite Hs2. cbn [mbind option_bind]. unfold merge_right at 1. cbn [Z.eqb orb mbind option_bind].
    assert (rep s2 ((A ++ [(ln, l')]) ++ L2) D (e + npages (m_size m) - npages (m_size m))) as HR2' by (by rewrite <- app_assoc).
    destruct (hole_step s2 (A ++ [(ln, l')]) L2 D _ HR2') as (s' & L' & Hs' & HR3 & Hal3 & Htr').
    rewrite last_fmap in Hs'. cbn [fst] in Hs'. rewrite Hs'. cbn [mbind option_bind Z.eqb]. exists s', L'. split; [done|]. split; [eapply rep_equal; [done|lia]|]. split; [by rewrite Hal3, Hal2|].
    intros p a. rewrite Htr', !tracks_app, !tracks_cons, tracks_nil. cbn [snd]. rewrite Htr. tauto.
Qed.

(** * Looking up *)

(** Loops over an interval start at the last mapping that begins at [addr] or before. *)
Lemma split_at addr L : ordered L -> exists L1 L2, L = L1 ++ L2 /\ (forall x, x ∈ L1 -> m_addr x.2 <= addr) /\ (forall x, x ∈ L2 -> addr < m_addr x.2).
Proof.
  induction L as [|x L IH]; intros Ho; [exists [], []; set_solver|]. apply ordered_cons in Ho as (Hx & Ho & Hb). destruct (IH Ho) as (L1 & L2 & -> & H1 & H2).
  destruct (Z.le_gt_cases (m_addr x.2) addr) as [Hle|Hgt].
  - exists (x :: L1), L2. split; [done|]. split; [|done]. intros y Hy. apply elem_of_cons in Hy as [->|Hy]; [done|by apply H1].
  - exists [], (x :: L1 ++ L2). split; [done|]. split; [set_solver|]. intros y Hy. apply elem_of_cons in Hy as [->|Hy]; [lia|]. specialize (Hb y Hy). pose proof (before_addr x y Hx Hb). lia.
Qed.
Lemma start_ok addr s L D e : rep s L D e -> exists A B, L = A ++ B /\ start_at s addr = Some (hd 0 B.*1) /\ forall x, x ∈ A -> m_end x.2 <= addr.
Proof.
  intros HR. pose proof (rep_order _ _ _ _ HR) as Ho. destruct (split_at addr L Ho) as (L1 & L2 & -> & H1 & H2).
  destruct (neighbours s L1 L2 D e addr HR H1 H2) as [Hfl Hnx]. unfold start_at. rewrite Hfl. cbn [mbind option_bind]. destruct L1 as [|[n m] A _] using rev_ind.
  - exists [], L2. split; [done|]. split; [exact Hnx|set_solver].
  - exists A, ((n, m) :: L2). rewrite <- app_assoc in *. split; [done|]. rewrite last_fmap. cbn [fst fmap list_fmap hd]. destruct (node_at _ _ _ _ _ _ _ HR) as [-> _]. split; [done|].
    intros x Hx. apply (ordered_take A (n, m) L2) in Ho as (_ & _ & HA & _). specialize (HA x Hx). specialize (H1 (n, m) ltac:(set_solver)). cbn in *. lia.
Qed.

End Facts.
