(* ===== verification/MapsUntrack.v ===== *)
(** Untracking an interval: [__muntrack] removes the pages of the interval and no others, and
    hands out the pages it removed. *)
From S2P Require Import Prelude NodeTree PageTable PageTableFacts Maps MapsFacts.
From stdpp Require Import list gmap sorting.
#[local] Open Scope Z_scope.

Section Facts.
Context {ST : Type} {Hops : NodeTree ST} {Hlaws : NodeTreeLaws ST} {P : Platform} {GP : GoodPlatform}.


(** Cutting [k] bytes of whole pages off a mapping *)
Lemma cut_size sz k : 0 <= k -> k mod pagesize = 0 -> k < up sz -> 0 < sz <= 2 ^ 58 ->
  k < sz /\ up (sz - k) = up sz - k /\ npages sz = npages k + npages (sz - k).
Proof.
  intros H0 Hk Hlt Hs. pose proof ps_pos as Hps. pose proof (up_bounds sz) as Hu. pose proof (up_aligned sz) as Hua.
  assert (k < sz) as Hks.
  { destruct (Z.le_gt_cases (up sz - pagesize) (k - 1)) as [Hc|Hc]; [|mlia]. exfalso.
    apply Z.mod_divide in Hk as [a ->]; [|mlia]. apply Z.mod_divide in Hua as [b Hb]; [|lia].
    rewrite Hb in Hc, Hlt. clear -Hc Hlt Hps. assert (a < b) by nia. assert (b - 1 < a) by nia. lia. }
  split; [done|]. pose proof (up_add k (sz - k) Hk) as Hadd. replace (k + (sz - k)) with sz in Hadd by (clear; lia). split; [mlia|].
  rewrite <- npages_add; [f_equal; clear; lia|done|done|mlia..].
Qed.
(** A part of a mapping from [a'] on *)
Lemma attr_part m a' sz p :
  let m1 := with_addr m a' sz in
  attr (if anonymous m1 then m1 else with_off m1 (m_off m1 + (a' - m_addr m))) p = attr m p.
Proof.
  cbv zeta. change (anonymous (with_addr m a' sz)) with (anonymous m). unfold attr.
  destruct (anonymous m) eqn:E.
  - change (anonymous (with_addr m a' sz)) with (anonymous m). by rewrite E.
  - change (anonymous (with_off (with_addr m a' sz) _)) with (anonymous m). rewrite E. cbn. do 2 f_equal. lia.
Qed.
Lemma part_extent m a' sz o : let m1 := with_addr m a' sz in let m2 := if anonymous m1 then m1 else with_off m1 o in
  m_addr m2 = a' /\ m_size m2 = sz /\ m_hand m2 = m_hand m.
Proof. cbv zeta. by destruct (anonymous _). Qed.

(** A fresh structure, if there is one *)
Lemma alloc_ok s L D e : rep s L D e ->
  (exists n s' lm, __maps_alloc s = (n, s') /\ (n =? 0) = false /\ rep s' L (n :: D) e /\ objs s' !! n = Some lm /\ tree s' = tree s /\ alive_pages s' = alive_pages s /\
     forall k, k ∈ D -> objs s' !! k = objs s !! k) \/
  (__maps_alloc s = (0, s) /\ freed s = [] /\ supply s = []).
Proof.
  intros [H1 H2 H3 H4 H5 H6 H7 H8 H9]. unfold __maps_alloc. destruct (freed s) as [|n l] eqn:Ef.
  - destruct (supply s) as [|n l] eqn:Es; [by right|]. left. exists n, (mkMaps (tree s) (<[n := map0]> (objs s)) (count s) (pages s) [] l (alive_pages s)), map0.
    assert (L.*1 ++ D ++ [] ++ n :: l ≡ₚ L.*1 ++ (n :: D) ++ [] ++ l) as P6 by solve_Permutation. rewrite P6 in H6.
    assert (D ++ [] ++ n :: l ≡ₚ (n :: D) ++ [] ++ l) as P7 by solve_Permutation. rewrite P7 in H7.
    assert (n ∉ L.*1 /\ n ∉ D) as [N1 N2].
    { apply NoDup_app in H6 as (_ & K1 & K2). apply NoDup_cons in K2 as [K2 _]. split; [|set_solver]. intros K. apply (K1 n K). left. }
    split; [done|]. split; [apply Z.eqb_neq; apply Forall_cons in H7 as [[? _] _]; lia|]. split; [|split; [apply lookup_insert_eq|split; [done|split; [done|]]]].
    + split; cbn [tree objs count pages freed supply]; try done; [by apply objs_others| |by apply map_Forall_insert_2].
      constructor; [rewrite lookup_insert_eq; by eexists|]. by apply structs_insert.
    + intros k Hk. cbn [objs]. apply lookup_insert_ne. by intros ->.
  - left. assert (L.*1 ++ D ++ (n :: l) ++ supply s ≡ₚ L.*1 ++ (n :: D) ++ l ++ supply s) as P6 by solve_Permutation. rewrite P6 in H6.
    assert (D ++ (n :: l) ++ supply s ≡ₚ (n :: D) ++ l ++ supply s) as P7 by solve_Permutation. rewrite P7 in H7.
    assert (D ++ n :: l ≡ₚ (n :: D) ++ l) as P8 by solve_Permutation. rewrite P8 in H8.
    pose proof H8 as H8'. cbn [app] in H8'. apply Forall_cons in H8' as [[lm Hlm] _].
    eexists n, _, lm. split; [done|]. split; [apply Z.eqb_neq; apply Forall_cons in H7 as [[? _] _]; lia|]. split; [|by split_and!]. by split.
Qed.

(** ** Fragments *)

Definition frags (u : @untrack ST) : list (Z * Z) := (fun f => (f_addr f, f_size f)) <$> take (u_ti u) (u_temp u).
Definition piece (f : Z * Z) (p : Z) : Prop := f.1 <= p < f.1 + up f.2.
(** [*untracked] and the links, after [u_ti] fragments *)
Definition linked (u : @untrack ST) : Prop :=
  match u_ti u with O => u_untracked u = None | S _ => u_untracked u = Some O /\ exists f, u_temp u !! 0%nat = Some f /\ f_freed f = None end.
(** The pages [u] holds for the caller to unmap *)
Definition given (u : @untrack ST) (p : Z) : Prop :=
  (exists f, f ∈ frags u /\ piece f p) \/ exists n m, n ∈ u_deleted u /\ objs (u_maps u) !! n = Some m /\ piece (m_addr m, m_size m) p.

Lemma add_frag_ok track a sz u : (track = true -> (u_ti u < length (u_temp u))%nat) ->
  exists u', add_frag track a sz u = Some u' /\ u_maps u' = u_maps u /\ u_rc u' = u_rc u /\ u_deleted u' = u_deleted u /\
    length (u_temp u') = length (u_temp u) /\ (u_ti u' <= S (u_ti u))%nat /\ (linked u -> linked u') /\
    (track = true -> frags u' = frags u ++ [(a, sz)]).
Proof.
  intros Hti. unfold add_frag. destruct track; [|exists u; split_and!; try done; lia]. specialize (Hti eq_refl).
  rewrite (proj2 (Nat.ltb_lt _ _) Hti). eexists. split; [done|]. cbn [u_maps u_rc u_deleted u_temp u_ti]. split_and!; try done.
  - apply length_insert.
  - unfold linked. cbn [u_ti u_untracked u_temp]. destruct (u_ti u) as [|k] eqn:Ek.
    + intros Hu. split; [done|]. rewrite Hu. eexists. rewrite list_lookup_insert_eq by done. done.
    + intros [_ (f & Hf & Hff)]. split; [done|]. exists f. by rewrite list_lookup_insert_ne.
  - intros _. unfold frags. cbn [u_ti u_temp]. rewrite (take_S_r _ _ (mkFrag a sz (u_untracked u))) by (by apply list_lookup_insert_eq).
    rewrite fmap_app. f_equal. by rewrite take_insert_ge by lia.
Qed.
(** What [__munmap] finds on the list: the first fragment only. *)
Lemma linked_list u : linked u -> frag_list 3 (u_temp u) (u_untracked u) = take 1 (frags u).
Proof.
  unfold linked, frags. destruct (u_ti u) as [|k]; [by intros ->|]. intros (-> & f & Hf & Hff). destruct (u_temp u) as [|g l]; [done|]. injection Hf as ->.
  cbn. by rewrite Hff.
Qed.

Section Interval.
Context (addr size : Z) (held : list Z).
Hypothesis Ha : 0 <= addr.
Hypothesis Haa : addr mod pagesize = 0.
Hypothesis Hsz : 0 < size.
Hypothesis Hsa : size mod pagesize = 0.
Hypothesis Hlim : addr + size <= 2 ^ 57.
Definition inside (p : Z) : Prop := addr <= p < addr + size.

Lemma e_small : u64 (addr + size) = addr + size.
Proof. apply u64_small. mlia. Qed.

(** The part of [m] right of the interval, which the code reaches by adding [left] *)
Lemma part_right m left : ok_map m -> m_addr m + left = addr + size -> m_addr m < addr + size < m_end m -> 
  let m1 := with_addr m (m_addr m + left) (m_size m - left) in
  let m2 := if anonymous m1 then m1 else with_off m1 (m_off m1 + left) in
  0 < left < m_size m /\ ok_map m2 /\ m_addr m2 = addr + size /\ m_end m2 = m_end m /\ npages (m_size m) = npages left + npages (m_size m2) /\
  m_size m2 = m_size m - left /\ forall p a, covers m2 p /\ attr m2 p = a <-> (covers m p /\ attr m p = a) /\ addr + size <= p.
Proof.
  intros Hm Hal Hin m1 m2. destruct (m_end_ok m Hm) as (Em & _ & Em2 & Em3). pose proof Hm as (Hm1 & Hm2 & Hm3 & Hm4).
  assert (left mod pagesize = 0) as Hla by (replace left with (addr + size - m_addr m) by mlia; apply mod_sub_0; [by apply mod_add_0|done]).
  destruct (cut_size (m_size m) left) as (K1 & K2 & K3); [mlia|done|mlia|mlia|].
  destruct (part_extent m (m_addr m + left) (m_size m - left) (m_off m1 + left)) as (P1 & P2 & _). fold m1 in P1, P2. fold m2 in P1, P2. rewrite Hal in P1.
  assert (ok_map m2) as Hok.
  { unfold ok_map. rewrite P1, P2, K2. split; [mlia|]. split; [by apply mod_add_0|]. split; mlia. }
  destruct (m_end_ok m2 Hok) as (E2 & _). assert (m_end m2 = m_end m) as Hee by (rewrite E2, Em, P1, P2, K2; mlia).
  split; [mlia|]. split; [done|]. split; [done|]. split; [done|]. split; [by rewrite P2|]. split; [done|].
  intros p a. assert (attr m2 p = attr m p) as ->.
  { pose proof (attr_part m (m_addr m + left) (m_size m - left) p) as Hat. cbv zeta in Hat. replace (m_addr m + left - m_addr m) with left in Hat by mlia. exact Hat. }
  unfold covers. rewrite P1, Hee. clear -Hin. intuition lia.
Qed.
(** The part left of the interval *)
Lemma part_left m h : ok_map m -> m_addr m < addr < m_end m -> 
  let left := addr - m_addr m in let m2 := mkMap (m_addr m) left (m_off m) (m_flags m) (m_prot m) h in

  0 < left < m_size m /\ ok_map m2 /\ m_end m2 = addr /\ npages (m_size m) = npages left + npages (m_size m - left) /\
  forall p a, covers m2 p /\ attr m2 p = a <-> (covers m p /\ attr m p = a) /\ p < addr.
Proof.
  intros Hm Hin left m2. destruct (m_end_ok m Hm) as (Em & _ & Em2 & Em3). pose proof Hm as (Hm1 & Hm2 & Hm3 & Hm4).
  assert (left mod pagesize = 0) as Hla by (by apply mod_sub_0).
  destruct (cut_size (m_size m) left) as (K1 & K2 & K3); [unfold left; mlia|done|unfold left; mlia|mlia|].
  assert (ok_map m2) as Hok.
  { unfold ok_map. cbn [m2 m_addr m_size]. rewrite up_id by done. split; [done|]. split; [done|]. unfold left. split; mlia. }
  destruct (m_end_ok m2 Hok) as (E2 & _). cbn [m2 m_addr m_size] in E2. rewrite up_id in E2 by done.
  assert (m_end m2 = addr) as Hee by (rewrite E2; unfold left; mlia).
  split; [unfold left; mlia|]. split; [done|]. split; [done|]. split; [done|].
  intros p a. change (attr m2 p) with (attr m p). unfold covers. rewrite Hee. cbn [m2 m_addr]. clear -Hin. intuition lia.
Qed.
(** ** One mapping *)

Lemma rep_pages_sub s L D e k : rep s L D e -> rep (set_pages (pages s - k) s) L D (e - k).
Proof. intros [H1 H2 H3 H4 H5 H6 H7 H8 H9]. split; cbn; try done. lia. Qed.
Lemma rep_not_deleted s A n m B D e k : rep s (A ++ (n, m) :: B) D e -> k ∈ D -> k <> n.
Proof. intros HR Hk ->. pose proof (rep_distinct _ _ _ _ HR) as H. apply NoDup_app in H as (_ & H & _). apply (H n); rewrite ?fmap_app; set_solver. Qed.

(** The fate of [m], which the interval meets: [X] takes its place. *)
Record step (track : bool) (A B : list (Z * Map)) (m : Map) (u u' : @untrack ST) (X : list (Z * Map)) : Prop := {
  st_rep : rep (u_maps u') (A ++ X ++ B) (u_deleted u' ++ held) 0;
  st_alive : alive_pages (u_maps u') = alive_pages (u_maps u);
  st_held : forall k, k ∈ held -> objs (u_maps u') !! k = objs (u_maps u) !! k;
  st_rc : u_rc u' = u_rc u;
  st_temp : length (u_temp u') = length (u_temp u);
  st_linked : linked u -> linked u';
  st_tracks : forall p a, tracks X p a <-> (covers m p /\ attr m p = a) /\ ~ inside p;
  st_given : track = true -> forall p, given u' p <-> given u p \/ (covers m p /\ inside p) }.

Lemma given_frag u u' f : u_deleted u' = u_deleted u -> (forall k, k ∈ u_deleted u -> objs (u_maps u') !! k = objs (u_maps u) !! k) ->
  frags u' = frags u ++ [f] -> forall p, given u' p <-> given u p \/ piece f p.
Proof.
  intros Hd Ho Hf p. unfold given. rewrite Hd, Hf. setoid_rewrite elem_of_app. setoid_rewrite list_elem_of_singleton. split.
  - intros [(g & [Hg| ->] & Hp)|(n & m & Hn & Hm & Hc)]; [left; left; by exists g|by right|]. left. right. exists n, m. by rewrite <- Ho.
  - intros [[(g & Hg & Hp)|(n & m & Hn & Hm & Hc)]|Hp]; [left; exists g; by split; [left|]| |left; exists f; by split; [right|]].
    right. exists n, m. by rewrite Ho.
Qed.
Lemma frag_step track A B m u s X a sz : 
  (track = true -> (u_ti u < length (u_temp u))%nat) ->
  rep s (A ++ X ++ B) (u_deleted u ++ held) 0 -> alive_pages s = alive_pages (u_maps u) ->
  (forall k, k ∈ u_deleted u ++ held -> objs s !! k = objs (u_maps u) !! k) ->
  (forall p a, tracks X p a <-> (covers m p /\ attr m p = a) /\ ~ inside p) ->
  (forall p, piece (a, sz) p <-> covers m p /\ inside p) ->
  exists u', add_frag track a sz (set_maps s u) = Some u' /\ step track A B m u u' X /\ (u_ti u' <= S (u_ti u))%nat.
Proof.
  intros Hti HR Hal Ho Ht Hp. destruct (add_frag_ok track a sz (set_maps s u) Hti) as (u' & E & Em & Er & Ed & El & Ei & Ek & Ef).
  exists u'. split; [done|]. split; [|done]. cbn in *. split; try done.
  - by rewrite Em, Ed.
  - by rewrite Em.
  - intros k Hk. rewrite Em. apply Ho, elem_of_app. by right.
  - intros Htr p. rewrite <- Hp. apply given_frag; [done| |by apply Ef]. intros k Hk. rewrite Em. apply Ho, elem_of_app. by left.
Qed.

Section One.
Context (track : bool) (A B : list (Z * Map)) (n : Z) (m : Map) (u : @untrack ST).
Hypothesis HR : rep (u_maps u) (A ++ (n, m) :: B) (u_deleted u ++ held) 0.

Lemma ordered_here : ordered (A ++ B) /\ ok_map m /\ (forall a, a ∈ A -> m_end a.2 <= m_addr m) /\ (forall b, b ∈ B -> m_end m <= m_addr b.2).
Proof. apply (ordered_take A (n, m) B), (rep_order _ _ _ _ HR). Qed.
Lemma one_remove : addr <= m_addr m -> m_end m <= addr + size ->
  exists u', muntrack_one track addr size n m u = Some u' /\ step track A B m u u' [] /\ u_ti u' = u_ti u.
Proof.
  intros H1 H2. pose proof (rep_hands _ _ _ _ HR _ _ (proj2 (node_at _ _ _ _ _ _ _ HR))) as Hh. cbn beta in Hh. unfold muntrack_one. cbv zeta. rewrite e_small. rewrite (proj2 (Z.leb_le _ _) H1), (proj2 (Z.leb_le _ _) H2). cbn [andb].
  rewrite (proj2 (Z.eqb_neq _ _) Hh). destruct (rep_remove _ _ _ _ _ _ _ HR) as (t & Ht & HR1). rewrite Ht. cbn [mbind option_bind].
  eexists. split; [done|]. split; [|done]. split; cbn; try done.
  - eapply rep_equal; [apply (rep_pages_sub _ _ _ _ (npages (m_size m)) HR1)|lia].
  - intros p a. rewrite tracks_nil. unfold covers, inside. split; [done|]. intros [[? _] Hn]. apply Hn. lia.
  - intros _ p. unfold given, frags. cbn. setoid_rewrite elem_of_cons. destruct (node_at _ _ _ _ _ _ _ HR) as [_ Hn].
    destruct ordered_here as (_ & Hok & _). destruct (m_end_ok m Hok) as (He & _). unfold covers, inside, piece. cbn [fst snd]. rewrite He in *. split.
    + intros [?|(k & m' & [->|Hk] & Hm' & Hc)]; [tauto| |naive_solver]. right. replace m' with m in Hc by congruence. split; [done|lia].
    + intros [[?|?]|[Hc _]]; [tauto|naive_solver|]. right. exists n, m. naive_solver.
Qed.

Lemma set_obj_deleted m' k : k ∈ u_deleted u ++ held -> objs (set_obj n m' (u_maps u)) !! k = objs (u_maps u) !! k.
Proof. intros Hk. cbn. apply lookup_insert_ne. intros ->. by apply (rep_not_deleted _ _ _ _ _ _ _ _ HR Hk). Qed.

Hypothesis Hti : track = true -> (u_ti u < length (u_temp u))%nat.

Lemma one_shave_left : addr <= m_addr m < addr + size -> addr + size < m_end m ->
  exists u' X, muntrack_one track addr size n m u = Some u' /\ step track A B m u u' X /\ (u_ti u' <= S (u_ti u))%nat.
Proof.
  intros H1 H2. destruct ordered_here as (Ho & Hok & HA & HB). destruct (m_end_ok m Hok) as (_ & _ & _ & Hs). pose proof Hok as (Hm0 & _).
  destruct (part_right m (addr + size - m_addr m)) as (K1 & K2 & K3 & K4 & K5 & K6 & K7); [done|mlia|mlia|].
  unfold muntrack_one. cbv zeta. rewrite e_small. rewrite (proj2 (Z.leb_le _ _) (proj1 H1)), (proj2 (Z.leb_gt _ _) H2). cbn [andb].
  rewrite (u64_small (addr + size - m_addr m)), (u64_small (m_addr m + _)), (u64_small (m_size m - _)) by mlia.
  set (m2 := if anonymous _ then _ else _) in *.
  destruct (frag_step track A B m u (set_pages (pages (u_maps u) - npages (addr + size - m_addr m)) (set_obj n m2 (u_maps u))) [(n, m2)] (m_addr m) (addr + size - m_addr m)) as (u' & E & St & Ei); try done.
  - eapply rep_equal; [apply (rep_pages_sub (set_obj n m2 (u_maps u))), (rep_resize _ _ _ m); [exact HR| |]|rewrite K5; lia]; [|apply (part_extent m)]. apply ordered_put; [done|done|rewrite K3; intros x Hx; specialize (HA x Hx); mlia|by rewrite K4].
  - intros k Hk. by apply (set_obj_deleted m2).
  - intros p a. rewrite tracks_cons, tracks_nil. cbn [snd]. rewrite K7. unfold covers, inside. clear -H1. intuition lia.
  - intros p. unfold piece, covers, inside. cbn [fst snd]. rewrite up_id; [mlia|]. destruct Hok as (_ & ? & _). apply mod_sub_0; [by apply mod_add_0|done].
  - by exists u', [(n, m2)].
Qed.
Lemma one_shave_right : m_addr m < addr < m_end m -> m_end m <= addr + size ->
  exists u' X, muntrack_one track addr size n m u = Some u' /\ step track A B m u u' X /\ (u_ti u' <= S (u_ti u))%nat.
Proof.
  intros H1 H2. destruct ordered_here as (Ho & Hok & HA & HB). destruct (m_end_ok m Hok) as (He & _ & _ & Hs). pose proof Hok as (Hm0 & _).
  destruct (part_left m (m_hand m)) as (K1 & K2 & K3 & K4 & K5); [done|mlia|].
  unfold muntrack_one. cbv zeta. rewrite e_small. rewrite (proj2 (Z.leb_gt addr _) (proj1 H1)), (proj2 (Z.leb_le _ _) H2). cbn [andb].
  rewrite (u64_small (addr - m_addr m)), (u64_small (m_addr m + _ - addr)) by mlia.
  set (m2 := mkMap _ _ _ _ _ _) in *. change (with_addr m (m_addr m) (addr - m_addr m)) with m2. replace (m_addr m + m_size m - addr) with (m_size m - (addr - m_addr m)) by lia.
  destruct (frag_step track A B m u (set_pages (pages (u_maps u) - npages (m_size m - (addr - m_addr m))) (set_obj n m2 (u_maps u))) [(n, m2)] addr (m_size m - (addr - m_addr m))) as (u' & E & St & Ei); try done.
  - eapply rep_equal; [apply (rep_pages_sub (set_obj n m2 (u_maps u))), (rep_resize _ _ _ m); [exact HR| |]|rewrite K4; cbn [m2 m_size]; lia]; [|done]. apply ordered_put; [done|done|done|rewrite K3; intros x Hx; specialize (HB x Hx); mlia].
  - intros k Hk. by apply (set_obj_deleted m2).
  - intros p a. rewrite tracks_cons, tracks_nil. cbn [snd]. rewrite K5. unfold covers, inside. clear -H1 H2. intuition lia.
  - intros p. unfold piece, covers, inside. cbn [fst snd]. destruct (cut_size (m_size m) (addr - m_addr m)) as (_ & -> & _); [mlia|apply mod_sub_0; [done|by destruct Hok as (_ & ? & _)]|mlia|mlia|mlia].
  - by exists u', [(n, m2)].
Qed.
(** The interval lies within [m]: [m] keeps the right part and a fresh structure the left one. *)
Lemma one_hole : m_addr m < addr -> addr + size < m_end m ->
  (exists u' X, muntrack_one track addr size n m u = Some u' /\ step track A B m u u' X /\ (u_ti u' <= S (u_ti u))%nat) \/
  (muntrack_one track addr size n m u = Some (mkUntrack (u_maps u) (-1) (u_deleted u) (u_untracked u) (u_temp u) (u_ti u)) /\
   freed (u_maps u) = [] /\ supply (u_maps u) = []).
Proof.
  intros H1 H2. destruct ordered_here as (Ho & Hok & HA & HB). destruct (m_end_ok m Hok) as (He & _ & _ & Hs). pose proof Hok as (Hm0 & _).
  unfold muntrack_one. cbv zeta. rewrite e_small. rewrite (proj2 (Z.leb_gt addr _) H1), (proj2 (Z.leb_gt _ _) H2). cbn [andb].
  destruct (alloc_ok _ _ _ _ HR) as [(k & s1 & lm & Ea & Hk & HR1 & Hlm & _ & Hal & Hod)|(-> & Hf & Hsu)]; [|by right]. left. rewrite Ea, Hk. cbn [negb]. rewrite Hlm. cbn [mbind option_bind].
  destruct (part_left m (m_hand lm)) as (K1 & K2 & K3 & K4 & K5); [done|mlia|].
  destruct (part_right m (addr - m_addr m + size)) as (J1 & J2 & J3 & J4 & J5 & J6 & J7); [done|mlia|mlia|].
  rewrite (u64_small (addr - m_addr m)), (u64_small (m_addr m + _)), (u64_small (m_size m - _ - _)) by mlia.
  replace (m_size m - size - (addr - m_addr m)) with (m_size m - (addr - m_addr m + size)) by lia.
  set (m2 := if anonymous _ then _ else _) in *. set (m1 := mkMap (m_addr m) _ _ _ _ _) in *.
  assert (npages (m_size m) = npages (m_size m1) + npages size + npages (m_size m2)) as Hnp.
  { rewrite J5. cbn [m1 m_size]. rewrite npages_add; [done|apply mod_sub_0; [done|by destruct Hok as (_ & ? & _)]|mlia..]. }
  assert (ordered (A ++ (n, m2) :: B)) as Ho2 by (apply ordered_put; [done|done|rewrite J3; intros x Hx; specialize (HA x Hx); mlia|by rewrite J4]).
  pose proof (rep_resize _ _ _ _ _ _ _ m2 (rep_write _ _ _ _ _ m1 HR1 (rep_hands _ _ _ _ HR1 _ _ Hlm)) Ho2 (proj2 (proj2 (part_extent m _ _ _)))) as HR2. set (s2 := set_obj n m2 (set_obj k m1 s1)) in *.
  assert (k <> n) as Hkn by (apply (rep_not_deleted _ _ _ _ _ _ _ _ HR1); left).
  destruct (rep_add s2 A k m1 ((n, m2) :: B) (u_deleted u ++ held) _ HR2) as (s3 & Hadd & HR3 & Ho3 & Hal3).
  { cbn. rewrite lookup_insert_ne by done. apply lookup_insert_eq. }
  { apply ordered_put; [done|done|done|]. rewrite K3. intros x Hx. apply elem_of_cons in Hx as [->|Hx]; [cbn [snd]; rewrite J3; mlia|specialize (HB x Hx); mlia]. }
  unfold __maps_add in Hadd. destruct (t_insert _ k (tree s2)) as [t|]; [|done]. cbn [mbind option_bind] in *. injection Hadd as Hadd.
  destruct (frag_step track A B m u (set_pages (pages s3 - npages size) s3) [(k, m1); (n, m2)] addr size) as (u' & E & St & Ei); try done.
  - eapply rep_equal; [apply rep_pages_sub, HR3|rewrite Hnp; lia].
  - change (alive_pages s3 = alive_pages (u_maps u)). rewrite Hal3. exact Hal.
  - intros j Hj. change (objs s3 !! j = objs (u_maps u) !! j). rewrite Ho3, <- Hod by done. cbn. rewrite !lookup_insert_ne; [done| |].
    + intros ->. pose proof (rep_distinct _ _ _ _ HR1) as K. apply NoDup_app in K as (_ & _ & K). cbn [app] in K. apply NoDup_cons in K as [K _]. set_solver.
    + intros ->. by apply (rep_not_deleted _ _ _ _ _ _ _ _ HR Hj).
  - intros p a. rewrite !tracks_cons, tracks_nil. cbn [snd]. rewrite K5, J7. assert (~ inside p <-> p < addr \/ addr + size <= p) as -> by (unfold inside; mlia). tauto.
  - intros p. unfold piece, covers, inside. cbn [fst snd]. rewrite up_id by done. mlia.
  - exists u', [(k, m1); (n, m2)]. rewrite <- Hadd in E. done.
Qed.
End One.

(** ** The loop *)

(** Mappings the interval cuts *)
Definition meets (m : Map) : Prop := Z.max addr (m_addr m) < Z.min (addr + size) (m_end m).
Definition cut (x : Z * Map) : Prop := meets x.2 /\ (m_addr x.2 < addr \/ addr + size < m_end x.2).
#[global] Instance cut_dec x : Decision (cut x).
Proof. unfold cut, meets. apply _. Defined.
Definition holds (x : Z * Map) : Prop := m_addr x.2 < addr /\ addr + size < m_end x.2.
Definition pages_of (B : list (Z * Map)) (p : Z) : Prop := exists x, x ∈ B /\ covers x.2 p /\ inside p.

(** The interval is removed from the mappings [B], or the structure for a second part of the
    mapping around the interval cannot be had and nothing is changed. *)
Definition removed track A (B : list (Z * Map)) (u u' : @untrack ST) (B' : list (Z * Map)) : Prop :=
  rep (u_maps u') (A ++ B') (u_deleted u' ++ held) 0 /\ alive_pages (u_maps u') = alive_pages (u_maps u) /\
  (forall k, k ∈ held -> objs (u_maps u') !! k = objs (u_maps u) !! k) /\ (linked u -> linked u') /\ (u_ti u' <= u_ti u + length (filter cut B))%nat /\
  ((u_rc u' = u_rc u /\ (forall p a, tracks B' p a <-> tracks B p a /\ ~ inside p) /\
    (track = true -> forall p, given u' p <-> given u p \/ pages_of B p)) \/
   (u' = mkUntrack (u_maps u) (-1) (u_deleted u) (u_untracked u) (u_temp u) (u_ti u) /\ B' = B /\
    freed (u_maps u) = [] /\ supply (u_maps u) = [] /\ exists x, x ∈ B /\ holds x)).

Lemma outside_right (B : list (Z * Map)) : (forall x, x ∈ B -> addr + size <= m_addr x.2) -> 
  (forall p a, tracks B p a <-> tracks B p a /\ ~ inside p) /\ forall p, ~ pages_of B p.
Proof.
  intros H. split.
  - intros p a. split; [|tauto]. intros Ht. split; [done|]. destruct Ht as (x & Hx & Hc & _). specialize (H x Hx). unfold covers, inside in *. lia.
  - intros p (x & Hx & Hc & Hi). specialize (H x Hx). unfold covers, inside in *. lia.
Qed.
(** The rest of the list is beyond the interval. *)
Lemma removed_none track A B u : rep (u_maps u) (A ++ B) (u_deleted u ++ held) 0 -> (forall x, x ∈ B -> addr + size <= m_addr x.2) -> removed track A B u u B.
Proof.
  intros HR H. destruct (outside_right B H) as [H1 H2]. split; [done|]. split; [done|]. split; [done|]. split; [done|]. split; [lia|]. left. split; [done|]. split; [done|].
  intros _ p. specialize (H2 p). tauto.
Qed.
(** A step and the rest *)
Lemma removed_step track A n m B u u1 u' X B' : ordered (A ++ (n, m) :: B) -> meets m -> step track A B m u u1 X -> (u_ti u1 + length (filter cut B) <= u_ti u + length (filter cut ((n, m) :: B)))%nat -> removed track (A ++ X) B u1 u' B' ->
  removed track A ((n, m) :: B) u u' (X ++ B').
Proof.
  intros Ho Hm [S1 S2 Sh S3 S4 S5 S6 S7] Hi (R1 & R2 & Rh & R3 & R0 & R4). split; [by rewrite app_assoc|]. split; [by rewrite R2|].
  split; [intros k Hk; by rewrite Rh, Sh|]. split; [tauto|]. split; [lia|]. left.
  destruct R4 as [(R4 & R5 & R6)|(_ & _ & _ & _ & x & Hx & Hh)].
  - split; [by rewrite R4|]. split.
    + intros p a. rewrite tracks_app, tracks_cons. cbn [snd]. rewrite R5, S6. tauto.
    + intros Ht p. rewrite R6, S7 by done. unfold pages_of. setoid_rewrite elem_of_cons. naive_solver.
  - exfalso. apply (ordered_take A (n, m) B) in Ho as (_ & _ & _ & HB). specialize (HB x Hx). unfold holds, meets in *. cbn [snd] in *. lia.
Qed.
Lemma removed_skip track A n m B u u' B' : rep (u_maps u) (A ++ (n, m) :: B) (u_deleted u ++ held) 0 -> ~ meets m -> removed track (A ++ [(n, m)]) B u u' B' ->
  removed track A ((n, m) :: B) u u' ((n, m) :: B').
Proof.
  intros HR Hm (R1 & R2 & Rh & R3 & R0 & R4). destruct (ordered_take _ _ _ (rep_order _ _ _ _ HR)) as (_ & Hok & _). cbn [snd] in Hok. destruct (m_end_ok m Hok) as (_ & Hlt & _).
  assert (forall p, covers m p -> ~ inside p) as Hc by (unfold meets, covers, inside in *; intros; mlia).
  rewrite <- app_assoc in R1. split; [done|]. split; [done|]. split; [done|]. split; [done|]. split; [rewrite filter_cons; destruct (decide _); cbn [length]; lia|]. destruct R4 as [(R4 & R5 & R6)|(R4 & -> & R5 & R6 & x & Hx & Hh)].
  - left. split; [done|]. split.
    + intros p a. rewrite !tracks_cons. cbn [snd]. rewrite R5. specialize (Hc p). tauto.
    + intros Ht p. rewrite R6 by done. unfold pages_of. setoid_rewrite elem_of_cons. specialize (Hc p). naive_solver.
  - right. split_and!; try done. exists x. split; [by right|done].
Qed.

Definition fits (track : bool) (u : @untrack ST) (B : list (Z * Map)) : Prop :=
  track = true -> (u_ti u + length (filter cut B) <= length (u_temp u))%nat.
Lemma one_ok track A n m B u : rep (u_maps u) (A ++ (n, m) :: B) (u_deleted u ++ held) 0 -> meets m -> fits track u ((n, m) :: B) ->
  (exists u' X, muntrack_one track addr size n m u = Some u' /\ step track A B m u u' X /\
     (u_ti u' + length (filter cut B) <= u_ti u + length (filter cut ((n, m) :: B)))%nat) \/
  (holds (n, m) /\ muntrack_one track addr size n m u = Some (mkUntrack (u_maps u) (-1) (u_deleted u) (u_untracked u) (u_temp u) (u_ti u)) /\
   freed (u_maps u) = [] /\ supply (u_maps u) = []).
Proof.
  intros HR Hm Hf. unfold holds. cbn [snd].
  destruct (decide (cut (n, m))) as [Hc|Hc].
  - assert (track = true -> (u_ti u < length (u_temp u))%nat) as Hti.
    { intros Ht. specialize (Hf Ht). rewrite filter_cons_True in Hf by done. cbn [length] in Hf. lia. }
    rewrite filter_cons_True by done. cbn [length].
    destruct Hc as [_ Hc]. cbn [snd] in Hc. unfold meets in Hm.
    destruct (Z.le_gt_cases addr (m_addr m)) as [H1|H1].
    + destruct (one_shave_left track A B n m u HR Hti) as (u' & X & E & St & Hi); [mlia|mlia|]. left. exists u', X. split_and!; [done..|lia].
    + destruct (Z.le_gt_cases (m_end m) (addr + size)) as [H2|H2].
      * destruct (one_shave_right track A B n m u HR Hti) as (u' & X & E & St & Hi); [mlia|mlia|]. left. exists u', X. split_and!; [done..|lia].
      * destruct (one_hole track A B n m u HR Hti) as [(u' & X & E & St & Hi)|?]; [mlia|mlia| |right; split; [mlia|done]]. left. exists u', X. split_and!; [done..|lia].
  - left. assert (~ (m_addr m < addr \/ addr + size < m_end m)) as Hc' by (intros K; by apply Hc).
    destruct (one_remove track A B n m u HR) as (u' & E & St & Hi); [mlia..|].
    exists u', []. split; [done|]. split; [done|]. rewrite Hi, filter_cons. destruct (decide _); cbn [length]; lia.
Qed.

Lemma untrack_loop_ok track fuel : forall B A u, rep (u_maps u) (A ++ B) (u_deleted u ++ held) 0 -> (length B < fuel)%nat -> fits track u B ->
  exists u' B', muntrack_loop fuel track addr size (hd 0 B.*1) u = Some u' /\ removed track A B u u' B'.
Proof.
  induction fuel as [|fuel IH]; intros B A u HR Hl Hf; [lia|]. destruct B as [|[n m] B]; [exists u, []; split; [done|]; apply removed_none; [done|set_solver]|].
  cbn [fmap list_fmap hd fst muntrack_loop]. destruct (node_at _ _ _ _ _ _ _ HR) as [-> ->]. cbn [mbind option_bind].
  destruct (ordered_take _ _ _ (rep_order _ _ _ _ HR)) as (_ & Hok & _ & HB). cbn [snd] in Hok, HB. destruct (m_end_ok m Hok) as (_ & Hlt & _).
  unfold reaches. rewrite e_small. destruct (Z.leb_spec (m_addr m) (addr + size)) as [Hr|Hr]; cbn [negb].
  2: { exists u, ((n, m) :: B). split; [done|]. apply removed_none; [done|]. intros x Hx. apply elem_of_cons in Hx as [->|Hx]; [cbn; mlia|specialize (HB x Hx); mlia]. }
  pose proof (next_spec _ _ (n, m) _ _ _ HR) as Hnx. cbn [fst] in Hnx. rewrite Hnx. cbn [mbind option_bind]. cbn [length] in Hl.
  destruct (Z.ltb_spec (Z.max addr (m_addr m)) (Z.min (addr + size) (m_end m))) as [Hm|Hm]; cbn [negb].
  - destruct (one_ok track A n m B u HR Hm Hf) as [(u1 & X & E & St & Hi)|(Hho & E & Hfr & Hsu)]; rewrite E; cbn [mbind option_bind].
    + destruct (IH B (A ++ X) u1) as (u' & B' & E' & HX); [rewrite <- app_assoc; apply (st_rep _ _ _ _ _ _ _ St)|lia|intros Ht; specialize (Hf Ht); rewrite (st_temp _ _ _ _ _ _ _ St); lia|].
      rewrite E'. exists u', (X ++ B'). split; [done|]. eapply removed_step; [apply (rep_order _ _ _ _ HR)|done..].
    + set (u1 := mkUntrack _ _ _ _ _ _) in *. exists u1, ((n, m) :: B). split.
      { destruct fuel as [|fuel]; [lia|]. destruct B as [|[n' m'] B]; [done|]. cbn [fmap list_fmap hd fst muntrack_loop u_maps u1].
        rewrite (cons_middle (n, m) A), app_assoc in HR. destruct (node_at _ _ _ _ _ _ _ HR) as [-> ->]. cbn [mbind option_bind]. unfold reaches. rewrite e_small.
        specialize (HB (n', m') ltac:(left)). unfold holds in Hho. cbn [snd] in HB, Hho. rewrite (proj2 (Z.leb_gt _ _)) by mlia. done. }
      split; [done|]. split; [done|]. split; [done|]. split; [done|]. split; [cbn [u1 u_ti]; lia|]. right. split; [done|]. split; [done|]. split; [done|]. split; [done|]. exists (n, m). split; [left|done].
  - cbn [mbind option_bind]. destruct (IH B (A ++ [(n, m)]) u) as (u' & B' & E' & HX); [by rewrite <- app_assoc|lia| |].
    + intros Ht. specialize (Hf Ht). rewrite filter_cons in Hf. destruct (decide _); cbn [length] in Hf; lia.
    + rewrite E'. exists u', ((n, m) :: B'). split; [done|]. apply removed_skip; [done|unfold meets; mlia|done].
Qed.

(** No more than one mapping is cut at either end. *)
Lemma at_most_one (Q : Z * Map -> Prop) `{!forall x, Decision (Q x)} q L : ordered L -> (forall x, Q x -> m_addr x.2 < q < m_end x.2) -> (length (filter Q L) <= 1)%nat.
Proof.
  intros Ho HQ. induction L as [|x L IH]; [cbn; lia|]. apply ordered_cons in Ho as (Hx & Ho & Hb). rewrite filter_cons. destruct (decide (Q x)) as [Hq|Hq]; [|by apply IH].
  rewrite (filter_none Q L); [done|]. intros y Hy Hqy. specialize (Hb y Hy). unfold before_map in Hb. pose proof (HQ x Hq). pose proof (HQ y Hqy). lia.
Qed.
Lemma filter_or {T} (Q1 Q2 Q : T -> Prop) `{!forall x, Decision (Q1 x)} `{!forall x, Decision (Q2 x)} `{!forall x, Decision (Q x)} L :
  (forall x, Q x -> Q1 x \/ Q2 x) -> (length (filter Q L) <= length (filter Q1 L) + length (filter Q2 L))%nat.
Proof. intros Hor. induction L as [|x L IH]; [done|]. rewrite !filter_cons. specialize (Hor x). repeat destruct (decide _); cbn [length]; try lia; naive_solver. Qed.
Lemma cut_two L : ordered L -> (length (filter cut L) <= 2)%nat.
Proof.
  intros Ho. pose proof (filter_or (fun x => m_addr x.2 < addr < m_end x.2) (fun x => m_addr x.2 < addr + size < m_end x.2) cut L) as Hor.
  pose proof (at_most_one (fun x => m_addr x.2 < addr < m_end x.2) addr L Ho (fun _ K => K)). pose proof (at_most_one (fun x => m_addr x.2 < addr + size < m_end x.2) (addr + size) L Ho (fun _ K => K)).
  enough (forall x, cut x -> m_addr x.2 < addr < m_end x.2 \/ m_addr x.2 < addr + size < m_end x.2) as K by (specialize (Hor K); mlia). intros x [Hm Hx]. unfold meets in Hm. destruct Hx; [left|right]; mlia.
Qed.

(** Mappings in front of the interval stay. *)
Lemma removed_front track A B u u' B' : (forall x, x ∈ A -> m_end x.2 <= addr) -> removed track A B u u' B' -> removed track [] (A ++ B) u u' (A ++ B').
Proof.
  intros HA (R1 & R2 & Rh & R3 & R0 & R4). split; [done|]. split; [done|]. split; [done|]. split; [done|]. split; [rewrite filter_app, length_app; lia|].
  assert (forall x p, x ∈ A -> covers x.2 p -> ~ inside p) as Hc by (intros x p Hx; specialize (HA x Hx); unfold covers, inside; mlia).
  destruct R4 as [(R4 & R5 & R6)|(R4 & -> & R5 & R6 & x & Hx & Hh)].
  - left. split; [done|]. split.
    + intros p a. rewrite !tracks_app, R5. split; [|tauto]. intros [Ht|?]; [|tauto]. split; [by left|]. destruct Ht as (x & Hx & Hcx & _). eauto.
    + intros Ht p. rewrite R6 by done. unfold pages_of. setoid_rewrite elem_of_app. naive_solver.
  - right. split_and!; try done. exists x. split; [|done]. apply elem_of_app. by right.
Qed.

End Interval.
(** [__muntrack] from start to end *)
Definition untrack0 (s : Maps ST) : untrack := mkUntrack s 0 [] None [frag0; frag0] 0.
Lemma muntrack_ok track s L held addr size : rep s L held 0 -> 0 <= addr -> addr mod pagesize = 0 -> 0 < size -> addr + up size <= 2 ^ 57 ->
  exists u L', __muntrack track s addr size = Some u /\ removed addr (up size) held track [] L (untrack0 s) u L' /\ (length (filter (cut addr (up size)) L) <= 2)%nat.
Proof.
  intros HR Ha Haa Hs Hlim. pose proof (up_bounds size) as Hu. pose proof (up_aligned size) as Hua.
  unfold __muntrack. rewrite PGUP_up by mlia. destruct (start_ok addr s L _ _ HR) as (A & B & -> & -> & HA). cbn [mbind option_bind].
  assert (length (filter (cut addr (up size)) (A ++ B)) <= 2)%nat as H2 by (apply cut_two; [done|mlia|done|apply (rep_order _ _ _ _ HR)]).
  assert (0 < up size) as Hup by mlia.
  destruct (untrack_loop_ok addr (up size) held Ha Haa Hup Hua Hlim track (maps_fuel s) B A (untrack0 s)) as (u & B' & E & HX); [exact HR| | |].
  - unfold maps_fuel. rewrite (rep_count _ _ _ _ HR), length_app. lia.
  - intros _. rewrite filter_app, length_app in H2. change (length (filter (cut addr (up size)) B) <= 2)%nat. lia.
  - exists u, (A ++ B'). split; [exact E|]. split; [|done]. by apply removed_front.
Qed.
Lemma free_all_ok held D : forall s L e, rep s L (D ++ held) e -> exists s', __maps_free_all s D = Some s' /\ rep s' L held e /\ alive_pages s' = alive_pages s.
Proof.
  induction D as [|n D IH]; intros s L e HR; [by exists s|]. destruct (rep_free _ _ _ _ _ HR) as (s1 & E & HR1 & _ & Hal & _).
  destruct (IH s1 L e HR1) as (s' & E' & HR' & Hal'). exists s'. cbn [__maps_free_all]. rewrite E. cbn [mbind option_bind]. split; [done|]. split; [done|]. by rewrite Hal', Hal.
Qed.

End Facts.
