(* ===== verification/MapsCorrect.v ===== *)
(** The entry points of the memory manager: what is tracked after [__maps_track],
    [__maps_untrack] and [__munmap], what the system is asked to unmap, and that
    [kisdangerous] never calls an address safe that is not tracked. *)
From S2P Require Import Prelude NodeTree Tree TreeInstance PageTable PageTableFacts Maps MapsFacts MapsUntrack.
From stdpp Require Import list gmap sorting.
#[local] Open Scope Z_scope.

Section Facts.
Context {ST : Type} {Hops : NodeTree ST} {Hlaws : NodeTreeLaws ST} {P : Platform} {GP : GoodPlatform}.

(** * Overlap *)

Lemma reaches_up addr size m : 0 <= addr -> addr mod pagesize = 0 -> 0 < size -> addr + up size <= 2 ^ 57 -> m_addr m mod pagesize = 0 ->
  reaches addr size m = false -> addr + up size <= m_addr m.
Proof.
  intros Ha Haa Hs Hl Hm. unfold reaches. pose proof (up_bounds size) as Hu. rewrite u64_small by mlia. intros H%Z.leb_gt.
  pose proof (up_aligned size) as Hua. apply Z.mod_divide in Haa as [a ->], Hua as [b Hb], Hm as [c Hc]; try (pose proof ps_pos; lia). pose proof ps_pos as Hps. rewrite Hb, Hc in *.
  clear -H Hu Hps. assert (b - 1 < c - a) by nia. nia.
Qed.
Lemma overlaps_loop_ok addr size s D e fuel : 0 <= addr -> addr mod pagesize = 0 -> 0 < size -> addr + up size <= 2 ^ 57 ->
  forall B A, rep s (A ++ B) D e -> (length B < fuel)%nat ->
  exists b, overlaps_loop fuel s addr size (hd 0 B.*1) = Some b /\ (b = true <-> exists x, x ∈ B /\ meets addr (up size) x.2).
Proof.
  intros Ha Haa Hs Hl. pose proof (up_bounds size) as Hu. induction fuel as [|fuel IH]; intros B A HR Hf; [lia|].
  destruct B as [|[n m] B]; [exists false; split; [done|]; set_solver|]. cbn [fmap list_fmap hd fst overlaps_loop length] in *.
  destruct (node_at _ _ _ _ _ _ _ HR) as [-> ->]. cbn [mbind option_bind].
  destruct (ordered_take _ _ _ (rep_order _ _ _ _ HR)) as (_ & Hok & _ & HB). cbn [snd] in *. destruct (m_end_ok m Hok) as (_ & Hlt & _). pose proof Hok as (_ & Hma & _).
  destruct (reaches addr size m) eqn:Er; cbn [negb].
  2: { exists false. split; [done|]. split; [done|]. intros (x & Hx & Hm). pose proof (reaches_up _ _ _ Ha Haa Hs Hl Hma Er) as K. unfold meets in Hm.
       apply elem_of_cons in Hx as [->|Hx]; [cbn in Hm; mlia|]. specialize (HB x Hx). mlia. }
  unfold intersects. rewrite PGUP_up, u64_small by mlia.
  destruct (Z.ltb_spec (Z.max addr (m_addr m)) (Z.min (addr + up size) (m_end m))) as [Hm|Hm]; [exists true; split; [done|]; split; [|done]; intros _; exists (n, m); by split; [left|]|].
  pose proof (next_spec _ _ (n, m) _ _ _ HR) as Hnx. cbn [fst] in Hnx. rewrite Hnx. cbn [mbind option_bind].
  rewrite (cons_middle (n, m) A), app_assoc in HR. destruct (IH B (A ++ [(n, m)]) HR ltac:(lia)) as (b & -> & Hb). exists b. split; [done|]. rewrite Hb. unfold meets in *. split.
  - intros (x & Hx & Hmx). exists x. split; [by right|done].
  - intros (x & Hx & Hmx). apply elem_of_cons in Hx as [->|Hx]; [cbn in Hmx; mlia|by exists x].
Qed.
(** [__maps_overlaps] tells whether a page of the interval is tracked. *)
Lemma overlaps_ok s L D e addr size : rep s L D e -> 0 <= addr -> addr mod pagesize = 0 -> 0 < size -> addr + up size <= 2 ^ 57 ->
  exists b, __maps_overlaps s addr size = Some b /\ (b = true <-> exists x, x ∈ L /\ meets addr (up size) x.2).
Proof.
  intros HR Ha Haa Hs Hl. unfold __maps_overlaps. destruct (start_ok addr s L _ _ HR) as (A & B & -> & -> & HA). cbn [mbind option_bind].
  destruct (overlaps_loop_ok addr size s D e (maps_fuel s) Ha Haa Hs Hl B A HR) as (b & -> & Hb); [unfold maps_fuel; rewrite (rep_count _ _ _ _ HR), length_app; lia|].
  exists b. split; [done|]. rewrite Hb. setoid_rewrite elem_of_app. unfold meets. split; [naive_solver|]. intros (x & [Hx|Hx] & Hm); [|eauto]. specialize (HA x Hx). mlia.
Qed.
Lemma meets_tracks L addr n : ordered L -> 0 < n -> (exists x, x ∈ L /\ meets addr n x.2) <-> exists p a, tracks L p a /\ addr <= p < addr + n.
Proof.
  intros [_ Ho] Hn. rewrite Forall_forall in Ho. unfold tracks, meets, covers. split.
  - intros (x & Hx & Hm). destruct (m_end_ok _ (Ho x Hx)) as (_ & ? & _). exists (Z.max addr (m_addr x.2)), (attr x.2 (Z.max addr (m_addr x.2))). split; [|lia]. exists x. split; [done|]. split; [lia|done].
  - intros (p & a & (x & Hx & Hc & _) & Hp). exists x. split; [done|]. lia.
Qed.

(** * Tracked and safe *)

Lemma within_up addr size p : addr mod pagesize = 0 -> within pagesize p addr (addr + size) = true <-> addr <= p < addr + up size.
Proof.
  intros Haa. pose proof ps_pos as Hps. apply Z.mod_divide in Haa as [k ->]; [|lia]. unfold within, page, up.
  assert (pagesize <> 0) as Hp0 by lia.
  pose proof (Z.mod_pos_bound p pagesize (proj1 Hps)). pose proof (Z.div_mod p pagesize Hp0). pose proof (Z.mod_pos_bound (size + pagesize - 1) pagesize (proj1 Hps)). pose proof (Z.div_mod (size + pagesize - 1) pagesize Hp0).
  set (q := p / pagesize) in *. set (c := (size + pagesize - 1) / pagesize) in *. rewrite andb_true_iff, Z.leb_le, Z.ltb_lt.
  assert (forall x, k * pagesize <= x * pagesize <-> k <= x) as K1 by (intros; nia).
  assert (k <= q <-> k * pagesize <= p) as K2 by (split; intros; nia). rewrite K1, K2.
  assert (q * pagesize < k * pagesize + size <-> q < k + c) as -> by (split; intros; nia).
  assert (q < k + c <-> p < k * pagesize + c * pagesize) as -> by (split; intros; nia). done.
Qed.

(** An address that is not dangerous is tracked. *)
Definition sound (s : Maps ST) (L : list (Z * Map)) : Prop :=
  wf (alive_pages s) /\ forall p, 0 <= p < 2 ^ 57 -> kisdangerous pagesize p (alive_pages s) = false -> exists a, tracks L p a.
Lemma alive_mark addr size a : 0 <= addr -> addr mod pagesize = 0 -> 0 < size -> addr + up size <= 2 ^ 57 -> wf a ->
  exists a', __maps_mark pagesize addr size a = Some a' /\ wf a' /\
    (forall p, 0 <= p < 2 ^ 57 -> kisdangerous pagesize p a = false -> kisdangerous pagesize p a' = false) /\
    (forall p, 0 <= p < 2 ^ 57 -> kisdangerous pagesize p a' = false -> kisdangerous pagesize p a = false \/ addr <= p < addr + up size) /\
    ((0 < budget a')%nat -> forall p, addr <= p < addr + up size -> kisdangerous pagesize p a' = false).
Proof.
  intros Ha Haa Hs Hl Hwf. pose proof (fun p => within_up addr size p Haa) as Hw. pose proof (up_bounds size) as Hu. destruct page_bits as (b & Hb & Hp). rewrite Hp in Haa.
  destruct (mark_ok b addr size a) as (a' & H1 & H2 & H3 & H4 & H5); try done; [mlia..|]. rewrite <- Hp in *. exists a'. split_and!; try done.
  - intros p Hp1 Hp2. rewrite <- Hw. by apply H4.
  - intros Hbud p Hp1. rewrite H5 by (done || mlia). by rewrite (proj2 (Hw p) Hp1), andb_false_r.
Qed.
Lemma alive_unmark addr size a : 0 <= addr -> addr mod pagesize = 0 -> 0 < size -> addr + up size <= 2 ^ 57 -> wf a ->
  exists a', __maps_unmark pagesize addr size a = Some a' /\ wf a' /\
    forall p, 0 <= p < 2 ^ 57 -> kisdangerous pagesize p a' = false <-> kisdangerous pagesize p a = false /\ ~ (addr <= p < addr + up size).
Proof.
  intros Ha Haa Hs Hl Hwf. pose proof (fun p => within_up addr size p Haa) as Hw. pose proof (up_bounds size) as Hu. destruct page_bits as (b & Hb & Hp). rewrite Hp in Haa.
  destruct (unmark_ok b addr size a) as (a' & H1 & H2 & H3); try done; [mlia..|]. rewrite <- Hp in *. exists a'. split_and!; try done.
  intros p Hp1. rewrite H3 by done. rewrite <- Hw, orb_false_iff. destruct (within _ _ _ _); naive_solver.
Qed.

(** The mapping that [__maps_track] makes *)
Definition tracked_as (addr size prot flags off p : Z) (a : Z * Z * option Z) : Prop :=
  addr <= p < addr + up size /\
  a = (prot, __maps_funge_flags flags, if Z.land flags MAP_ANONYMOUS =? 0 then Some (off + (p - addr)) else None).

Lemma maps_track_ok s L addr size prot flags : rep s L [] 0 -> sound s L -> 
  0 <= addr -> addr mod pagesize = 0 -> 0 < size -> addr + up size <= 2 ^ 56 -> (forall x, x ∈ L -> ~ meets addr (up size) x.2) ->
  (exists s' L' off, __maps_track s addr size prot flags = Some (true, s') /\ rep s' L' [] 0 /\ sound s' L' /\
     (forall p a, tracks L' p a <-> tracks L p a \/ tracked_as addr size prot flags off p a) /\
     ((0 < budget (alive_pages s'))%nat -> forall p, addr <= p < addr + up size -> kisdangerous pagesize p (alive_pages s') = false)) \/
  (__maps_track s addr size prot flags = Some (false, s) /\ freed s = [] /\ supply s = []).
Proof.
  intros HR [Hwf Hsd] Ha Haa Hs Hl Hap. pose proof (up_bounds size) as Hu. unfold __maps_track.
  destruct (alloc_ok _ _ _ _ HR) as [(n & s1 & lm & Ea & Hn & HR1 & Hlm & _ & Hal & _)|(-> & Hf & Hsu)]; [|by right]. left. rewrite Ea, Hn, Hlm. cbn [mbind option_bind].
  set (m := mkMap addr size (m_off lm) flags prot MAPS_VIRTUAL). assert (ok_map m) as Hok by done. destruct (m_end_ok m Hok) as (He & _). cbn [m m_addr m_size] in He.
  destruct (maps_insert_ok (set_obj n m s1) L n m [] 0) as (s2 & L' & -> & HR2 & Hal2 & Htr); [by apply rep_write|apply lookup_insert_eq|done| |].
  { apply Forall_forall. intros x Hx. specialize (Hap x Hx). destruct (rep_order _ _ _ _ HR) as [_ Ho]. rewrite Forall_forall in Ho. destruct (m_end_ok _ (Ho x Hx)) as (_ & ? & _).
    unfold meets in Hap. rewrite He. cbn [m m_addr]. mlia. }
  cbn [mbind option_bind]. rewrite Hal2. change (alive_pages (set_obj n m s1)) with (alive_pages s1). rewrite Hal.
  destruct (alive_mark addr size (alive_pages s)) as (a' & -> & W1 & W2 & W3 & W4); try done; [mlia|]. cbn [mbind option_bind].
  assert (forall p a, tracks L' p a <-> tracks L p a \/ tracked_as addr size prot flags (m_off lm) p a) as Htr'.
  { intros p a. rewrite Htr. unfold tracked_as, covers, attr, anonymous. rewrite He. cbn [m m_addr m_flags m_prot m_off]. destruct (Z.land flags MAP_ANONYMOUS =? 0); cbn [negb]; naive_solver. }
  exists (set_alive a' s2), L', (m_off lm). split; [done|]. split; [by destruct HR2; split|]. split; [|done]. split; [done|].
  intros p Hp Hd. destruct (W3 p Hp Hd) as [Hd'|Hd'].
  - destruct (Hsd p Hp Hd') as [a Hta]. exists a. apply Htr'. by left.
  - eexists. apply Htr'. right. split; [done|reflexivity].
Qed.

(** The pages of the interval are gone from [L]. *)
Definition cleared (addr size : Z) (L L' : list (Z * Map)) : Prop :=
  forall p a, tracks L' p a <-> tracks L p a /\ ~ (addr <= p < addr + up size).
Lemma rep_alive s L D e a : rep s L D e -> rep (set_alive a s) L D e.
Proof. intros []. by split. Qed.
Lemma sound_cleared addr size s L L' a' : sound s L -> cleared addr size L L' -> wf a' ->
  (forall p, 0 <= p < 2 ^ 57 -> kisdangerous pagesize p a' = false <-> kisdangerous pagesize p (alive_pages s) = false /\ ~ (addr <= p < addr + up size)) ->
  forall s', alive_pages s' = a' -> sound s' L'.
Proof.
  intros [_ Hsd] Hcl Hwf Ha s' <-. split; [done|]. intros p Hp Hd. apply Ha in Hd as [Hd Hn]; [|done]. destruct (Hsd p Hp Hd) as [a Hta]. exists a. apply Hcl. done.
Qed.
Lemma sound_same s L a' : sound s L -> wf a' ->
  (forall p, 0 <= p < 2 ^ 57 -> kisdangerous pagesize p a' = false -> kisdangerous pagesize p (alive_pages s) = false) ->
  forall s', alive_pages s' = a' -> sound s' L.
Proof. intros [_ Hsd] Hwf Ha s' <-. split; [done|]. intros p Hp Hd. by apply Hsd, Ha. Qed.

Lemma maps_untrack_ok s L addr size : rep s L [] 0 -> sound s L -> 0 <= addr -> addr mod pagesize = 0 -> 0 < size -> addr + up size <= 2 ^ 57 ->
  exists rc s' L', __maps_untrack s addr size = Some (rc, s') /\ rep s' L' [] 0 /\ sound s' L' /\
    ((rc = 0 /\ cleared addr size L L') \/ (rc = -1 /\ L' = L /\ freed s = [] /\ supply s = [] /\ exists x, x ∈ L /\ holds addr (up size) x)).
Proof.
  intros HR Hsd Ha Haa Hs Hl. destruct (muntrack_ok false s L [] addr size HR Ha Haa Hs Hl) as (u & L' & E & (R1 & R2 & _ & _ & _ & R3) & _).
  unfold __maps_untrack. rewrite E. cbn [mbind option_bind]. destruct (free_all_ok [] _ _ _ _ R1) as (s1 & -> & HR1 & Hal). cbn [mbind option_bind]. rewrite Hal, R2. cbn [untrack0 u_maps].
  destruct (alive_unmark addr size (alive_pages s)) as (a' & -> & W1 & W2); try done; [apply Hsd|]. cbn [mbind option_bind].
  exists (u_rc u), (set_alive a' s1), L'. split; [done|]. split; [by apply rep_alive|]. destruct R3 as [(R3 & R4 & _)|(-> & -> & R4 & R5 & R6)].
  - split; [by eapply sound_cleared|]. left. split; [exact R3|exact R4].
  - split; [|by right]. eapply (sound_same s); [done|done| |done]. intros p Hp Hd. by apply W2 in Hd as [? _].
Qed.


(** * Unmapping *)

Lemma gran_aligned addr : Z.land addr (gransize - 1) = 0 -> addr mod pagesize = 0.
Proof.
  destruct gran_pages as (Hd & g & Hg0 & Hgg). intros H. pose proof ps_pos. apply Z.mod_divide; [lia|]. transitivity gransize; [done|].
  rewrite Hgg in *. replace (2 ^ g - 1) with (Z.ones g) in H by (rewrite Z.ones_equiv; lia). rewrite Z.land_ones in H by lia. apply Z.mod_divide; [lia|done].
Qed.
(** The intervals of the structures deleted *)
Lemma mapM_deleted (o : gmap Z Map) D : Forall (fun n => is_Some (o !! n)) D ->
  exists l, mapM (fun n => m ← o !! n; Some (m_addr m, m_size m)) D = Some l /\ 
    forall f, f ∈ l <-> exists n m, n ∈ D /\ o !! n = Some m /\ f = (m_addr m, m_size m).
Proof.
  induction D as [|n D IH]; intros H; [exists []; split; [done|]; set_solver|]. apply Forall_cons in H as [[m Hm] H]. destruct (IH H) as (l & Hl & Hf).
  exists ((m_addr m, m_size m) :: l). split; [cbn; rewrite Hm; cbn; by rewrite Hl|]. intros f. rewrite elem_of_cons, Hf. setoid_rewrite elem_of_cons. naive_solver.
Qed.
Lemma destroy_all_ok sys_munmap l : (forall a n, sys_munmap a n = 0) -> destroy_all sys_munmap l = 0.
Proof. intros H. unfold destroy_all. induction l as [|x l IH]; [done|]. cbn. by rewrite H. Qed.

(** [p] is in an interval the system is asked to unmap. *)
Definition asked (told : list (Z * Z)) (p : Z) : Prop := exists f, f ∈ told /\ piece f p.

Lemma munmap_ok sys_munmap s L addr size : rep s L [] 0 -> sound s L -> 0 <= addr -> Z.land addr (gransize - 1) = 0 -> 0 < size -> addr + up size <= 2 ^ 57 ->
  exists rc told s' L', __munmap sys_munmap s addr size = Some (rc, told, s') /\ rep s' L' [] 0 /\ sound s' L' /\
    ((cleared addr size L L' /\ ((forall a n, sys_munmap a n = 0) -> rc = 0) /\
      (forall p, asked told p -> (exists a, tracks L p a) /\ addr <= p < addr + up size) /\
      ((length (filter (cut addr (up size)) L) <= 1)%nat -> forall p, (exists a, tracks L p a) -> addr <= p < addr + up size -> asked told p)) \/
     (rc = -1 /\ told = [] /\ L' = L /\ freed s = [] /\ supply s = [] /\ exists x, x ∈ L /\ holds addr (up size) x)).
Proof.
  intros HR Hsd Ha Hga Hs Hl. pose proof (gran_aligned addr Hga) as Haa. pose proof (up_bounds size) as Hu. unfold __munmap.
  rewrite Hga. cbn [Z.eqb negb orb]. rewrite (proj2 (Z.eqb_neq size 0)) by mlia. rewrite u64_small, (proj2 (Z.ltb_ge _ _)) by mlia. cbn [orb].
  destruct (alive_unmark addr size (alive_pages s)) as (a' & -> & W1 & W2); try done; [apply Hsd|]. cbn [mbind option_bind].
  destruct (muntrack_ok true (set_alive a' s) L [] addr size (rep_alive _ _ _ _ _ HR) Ha Haa Hs Hl) as (u & L' & -> & (R1 & R2 & _ & Rl & Ri & R3) & Hcut). cbn [mbind option_bind].
  rewrite (linked_list u) by (by apply Rl). pose proof (rep_structs _ _ _ _ R1) as Hst. rewrite app_nil_r in Hst. apply Forall_app in Hst as [Hst _].
  destruct (mapM_deleted _ _ Hst) as (l & -> & Hin). cbn [mbind option_bind]. destruct (free_all_ok [] _ _ _ _ R1) as (s1 & -> & HR1 & Hal). cbn [mbind option_bind].
  assert (alive_pages s1 = a') as Hal1 by (by rewrite Hal, R2). eexists _, _, s1, L'. split; [done|]. split; [done|].
  destruct R3 as [(R3 & R4 & R5)|(-> & -> & R4 & R5 & R6)].
  - split; [by eapply sound_cleared|]. left. split; [done|]. split; [intros Hsys; rewrite !destroy_all_ok, R3 by done; done|].
    assert (forall p, asked (frags u ++ l) p <-> pages_of addr (up size) L p) as Hgiven.
    { intros p. transitivity (given u p).
      - unfold asked, given. setoid_rewrite elem_of_app. setoid_rewrite Hin. split; [intros (f & [Hf|(n & m & Hn & Hm & ->)] & Hp); [left; by exists f|right; by exists n, m]|].
        intros [(f & Hf & Hp)|(n & m & Hn & Hm & Hp)]; [exists f; by split; [left|]|eexists; split; [right; by exists n, m|done]].
      - rewrite R5 by done. split; [|by right]. intros [[(f & Hf & _)|(n & m & Hn & _)]|?]; [set_solver..|done]. }
    assert (forall p, pages_of addr (up size) L p <-> (exists a, tracks L p a) /\ addr <= p < addr + up size) as Hpg.
    { intros p. unfold pages_of, tracks, inside. split; [intros (x & Hx & Hc & Hi); split; [|done]; exists (attr x.2 p), x; done|]. intros [(a & x & Hx & Hc & _) Hi]. by exists x. }
    setoid_rewrite Hpg in Hgiven. split.
    + intros p (f & Hf & Hp). apply Hgiven. exists f. split; [|done]. apply elem_of_app. apply elem_of_app in Hf as [Hf|Hf]; [left|by right]. rewrite <- (take_drop 1 (frags u)). apply elem_of_app. by left.
    + intros H1 p Hp1 Hp2. rewrite take_ge; [by apply Hgiven|]. unfold frags. rewrite length_fmap, length_take. cbn [untrack0 u_ti] in Ri. clear -Ri H1. lia.
  - split; [|right; split_and!; try done].
    + eapply (sound_same s); [done|done| |done]. intros p Hp Hd. by apply W2 in Hd as [? _].
    + cbn [u_deleted untrack0] in Hin. assert (l = []) as ->. { destruct l as [|f l]; [done|]. destruct (proj1 (Hin f) ltac:(left)) as (n & _ & Hn & _). set_solver. } done.
    + destruct l as [|f l]; [done|]. destruct (proj1 (Hin f) ltac:(left)) as (n & _ & Hn & _). set_solver.
Qed.


(** * Picking an address *)

Lemma GRUP_ok x : 0 <= x <= 2 ^ 60 -> up x <= GRUP x < x + 2 ^ 20 /\ GRUP x mod pagesize = 0 /\ 0 < gransize <= 2 ^ 20.
Proof.
  intros Hx. destruct gran_pages as (Hd & g & Hg & Hgg). destruct (page_size g Hg) as [Hgs _]. rewrite <- Hgg in Hgs.
  unfold GRUP. rewrite u64_small by lia. rewrite Hgg, page_land, <- Hgg by done. unfold page. set (y := (x + gransize - 1) / gransize * gransize).
  assert (x <= y < x + gransize) as Hy by (pose proof (Z.mod_pos_bound (x + gransize - 1) gransize); pose proof (Z.div_mod (x + gransize - 1) gransize); lia).
  assert (y mod pagesize = 0) as Hya. { apply Z.mod_divide; [pose proof ps_pos; lia|]. by apply Z.divide_mul_r. }
  split; [|done]. split; [|lia]. rewrite <- (up_id y) by done. unfold up. pose proof ps_pos. apply Z.mul_le_mono_nonneg_r; [lia|]. apply Z.div_le_mono; lia.
Qed.
(** The interval is free of mappings. *)
Definition free_at (L : list (Z * Map)) (addr size : Z) : Prop :=
  0 < addr /\ addr mod pagesize = 0 /\ addr + size <= 2 ^ 58 /\ forall x, x ∈ L -> ~ meets addr size x.2.

Lemma grup_end m : ok_map m -> m_end m <= u64 (m_addr m + GRUP (m_size m)) < m_end m + 2 ^ 20 /\ u64 (m_addr m + GRUP (m_size m)) mod pagesize = 0.
Proof.
  intros Hm. destruct (m_end_ok m Hm) as (He & _ & _ & Hs). destruct Hm as (H1 & H2 & H3 & H4). destruct (GRUP_ok (m_size m)) as (G1 & G2 & _); [mlia|].
  pose proof (up_bounds (m_size m)). rewrite u64_small by mlia. split; [mlia|]. by apply mod_add_0.
Qed.
Lemma pickaddr_loop_ok s D e size fuel : 0 < size <= 2 ^ 57 -> size mod pagesize = 0 -> forall A B, rep s (A ++ B) D e -> (length A < fuel)%nat ->
  exists addr, pickaddr_loop fuel s size (List.last A.*1 0) = Some addr /\ (addr = 0 \/ free_at (A ++ B) addr size).
Proof.
  intros Hs Hsa. induction fuel as [|fuel IH]; intros A B HR Hf; [lia|]. destruct A as [|[n m] A _] using rev_ind; [exists 0; split; [done|by left]|].
  rewrite last_fmap. cbn [fst pickaddr_loop]. rewrite <- app_assoc in *. cbn [app] in *. destruct (node_at _ _ _ _ _ _ _ HR) as [-> ->]. cbn [mbind option_bind].
  pose proof (rep_nodes _ _ _ _ HR) as Hn. rewrite fmap_app in Hn. cbn [fmap list_fmap fst] in Hn. unfold __maps_prev. rewrite (prev_law _ _ _ _ Hn). cbn [mbind option_bind].
  destruct (ordered_take _ _ _ (rep_order _ _ _ _ HR)) as (_ & Hok & HA & HB). cbn [snd] in *. destruct (m_end_ok m Hok) as (_ & Hlt & _). pose proof Hok as (Hm0 & Hma & Hm3 & Hm4).
  pose proof (up_bounds (m_size m)) as Hub. destruct (GRUP_ok 0) as (_ & _ & Hgr); [lia|].
  assert (exists lo, (if List.last A.*1 0 =? 0 then Some gransize else p ← objs s !! List.last A.*1 0; Some (u64 (m_addr p + GRUP (m_size p)))) = Some lo /\ 0 < lo /\
    forall x, x ∈ A -> m_end x.2 <= lo) as (lo & -> & Hlo0 & Hlo).
  { clear IH Hf. destruct A as [|[pn pm] A _] using rev_ind; [exists gransize; split; [done|]; split; [mlia|set_solver]|]. rewrite last_fmap. cbn [fst].
    rewrite <- app_assoc in HR. cbn [app] in HR. destruct (node_at _ _ _ _ _ _ _ HR) as [-> ->]. cbn [mbind option_bind]. eexists. split; [done|].
    destruct (ordered_take _ _ _ (rep_order _ _ _ _ HR)) as (_ & Hpk & HA' & _). cbn [snd] in *. destruct (grup_end pm Hpk) as (G1 & _). destruct (m_end_ok pm Hpk) as (_ & ? & _). pose proof Hpk as (? & _).
    split; [mlia|]. intros x Hx. apply elem_of_app in Hx as [Hx|Hx]; [specialize (HA' x Hx); mlia|]. apply list_elem_of_singleton in Hx as ->. cbn [snd]. mlia. }
  cbn [mbind option_bind]. destruct (Z.ltb_spec lo (m_addr m)), (Z.leb_spec size (m_addr m - lo)); cbn [andb].
  2-4: by (destruct (IH A ((n, m) :: B) HR ltac:(rewrite length_app in Hf; cbn in Hf; lia)) as (addr & -> & Hc); exists addr).
  exists (m_addr m - size). split; [done|]. right. split; [mlia|]. split; [by apply mod_sub_0|]. split; [mlia|].
  intros x Hx. unfold meets. apply elem_of_app in Hx as [Hx|Hx]; [specialize (Hlo x Hx); mlia|]. apply elem_of_cons in Hx as [->|Hx]; [cbn [snd]; mlia|specialize (HB x Hx); mlia].
Qed.
Lemma pickaddr_ok s L D e size : rep s L D e -> L <> [] -> 0 < size <= 2 ^ 56 ->
  exists addr, __maps_pickaddr s size = Some addr /\ free_at L addr (GRUP size).
Proof.
  intros HR HL Hs. destruct (GRUP_ok size) as (G1 & G2 & G3); [mlia|]. pose proof (up_bounds size) as Hu. unfold __maps_pickaddr, __maps_last. rewrite (last_law _ _ (rep_nodes _ _ _ _ HR)). cbn [mbind option_bind].
  destruct L as [|[n m] A _] using rev_ind; [done|]. rewrite last_fmap. cbn [fst]. destruct (node_at _ _ _ _ _ _ _ HR) as [-> Hm].
  destruct (pickaddr_loop_ok s D e (GRUP size) (maps_fuel s)) with (A := A ++ [(n, m)]) (B := @nil (Z * Map)) as (addr & E & Hc); [mlia|done|by rewrite app_nil_r|unfold maps_fuel; rewrite (rep_count _ _ _ _ HR); lia|].
  rewrite last_fmap in E. cbn [fst] in E. rewrite E. cbn [mbind option_bind]. rewrite app_nil_r in Hc. destruct (Z.eqb_spec addr 0) as [->|Hne]; [|exists addr; split; [done|]; by destruct Hc].
  rewrite Hm. cbn [mbind option_bind]. destruct (ordered_take _ _ _ (rep_order _ _ _ _ HR)) as (_ & Hok & HA & _). cbn [snd] in *. destruct (grup_end m Hok) as (K1 & K2).
  destruct (m_end_ok m Hok) as (He & Hlt & _). pose proof Hok as (H0 & _ & _ & H4). set (a := u64 (m_addr m + _)) in *.
  assert (s64 a = a) as -> by (apply s64_small; mlia). rewrite (proj2 (Z.leb_gt _ _)) by mlia. exists a. split; [done|]. split; [mlia|]. split; [done|]. split; [mlia|].
  intros x Hx. unfold meets. apply elem_of_app in Hx as [Hx|Hx]; [specialize (HA x Hx); mlia|]. apply list_elem_of_singleton in Hx as ->. cbn [snd]. mlia.
Qed.


(** * Correctness *)

(** Arguments that describe pages of the address space *)
Definition valid_interval (addr size : Z) : Prop :=
  0 <= addr /\ Z.land addr (gransize - 1) = 0 /\ 0 < size /\ addr + up size <= 2 ^ 56.
Lemma overlaps_free s L D e addr size : rep s L D e -> valid_interval addr size -> __maps_overlaps s addr size = Some false ->
  forall x, x ∈ L -> ~ meets addr (up size) x.2.
Proof.
  intros HR (Ha & Haa%gran_aligned & Hs & Hl) E x Hx Hm. destruct (overlaps_ok s L D e addr size) as (b & Hb & Hi); try done; [mlia|].
  rewrite E in Hb. injection Hb as <-. by apply diff_false_true, Hi; exists x.
Qed.

(** C31: [__maps_track] on an interval that [__maps_overlaps] reports free adds the pages of the
    interval, rounded up to pages, with the protection and flags asked for, to what is
    tracked and changes nothing else, whatever it merges with; if there is no memory for a
    structure it fails and changes nothing. It keeps the structures consistent, every address
    that [kisdangerous] calls safe is a tracked one, and the new pages are safe unless the
    allocator of the trie was exhausted. *)
Theorem maps_track_correct s L addr size prot flags :
  rep s L [] 0 -> sound s L -> valid_interval addr size -> __maps_overlaps s addr size = Some false ->
  (exists s' L' off, __maps_track s addr size prot flags = Some (true, s') /\ rep s' L' [] 0 /\ sound s' L' /\
     (forall p a, tracks L' p a <-> tracks L p a \/ tracked_as addr size prot flags off p a) /\
     ((0 < budget (alive_pages s'))%nat -> forall p, addr <= p < addr + up size -> kisdangerous pagesize p (alive_pages s') = false)) \/
  (__maps_track s addr size prot flags = Some (false, s) /\ freed s = [] /\ supply s = []).
Proof.
  intros HR Hsd Hv E. pose proof (overlaps_free _ _ _ _ _ _ HR Hv E). destruct Hv as (Ha & Haa%gran_aligned & Hs & Hl). by apply maps_track_ok.
Qed.

(** C4: [munmap] of an interval forgets the pages of the interval and no others, removing,
    shaving and splitting mappings as needed, and never asks the system to unmap a page that is
    outside the interval or was not tracked; when at most one mapping is cut by the ends of the
    interval it asks for all the tracked pages of the interval. If a mapping has to be split in
    two and there is no memory for it, it fails and asks for nothing. Afterwards the structures
    are consistent and every address that [kisdangerous] calls safe is tracked. *)
Theorem munmap_correct sys_munmap s L addr size :
  rep s L [] 0 -> sound s L -> valid_interval addr size ->
  exists rc told s' L', __munmap sys_munmap s addr size = Some (rc, told, s') /\ rep s' L' [] 0 /\ sound s' L' /\
    ((cleared addr size L L' /\ ((forall a n, sys_munmap a n = 0) -> rc = 0) /\
      (forall p, asked told p -> (exists a, tracks L p a) /\ addr <= p < addr + up size) /\
      ((length (filter (cut addr (up size)) L) <= 1)%nat -> forall p, (exists a, tracks L p a) -> addr <= p < addr + up size -> asked told p)) \/
     (rc = -1 /\ told = [] /\ L' = L /\ freed s = [] /\ supply s = [] /\ exists x, x ∈ L /\ holds addr (up size) x)).
Proof. intros HR Hsd (Ha & Hga & Hs & Hl). apply munmap_ok; try done. mlia. Qed.

(** [__maps_pickaddr] returns, for any state that tracks something and any size up to the
    address space, a page-aligned address above null at which as many bytes as asked, rounded
    up to the allocation granularity, meet no mapping. *)
Theorem maps_pickaddr_correct s L D e size : rep s L D e -> L <> [] -> 0 < size <= 2 ^ 56 ->
  exists addr, __maps_pickaddr s size = Some addr /\ free_at L addr (GRUP size) /\ size <= GRUP size.
Proof.
  intros HR HL Hs. destruct (pickaddr_ok s L D e size HR HL Hs) as (addr & E & Hf). exists addr. split; [done|]. split; [done|].
  destruct (GRUP_ok size) as (G1 & _); [lia|]. pose proof (up_bounds size). lia.
Qed.

End Facts.

(** * Examples *)

(** Linux on x86-64 *)
#[export] Instance linux : Platform := {
  pagesize := 4096; gransize := 4096; IsWindows := false;
  MAP_ANONYMOUS := 32; MAP_FIXED_NOREPLACE := 2 ^ 20; MAP_SHARED_VALIDATE := 3 }.
#[export] Instance linux_good : GoodPlatform.
Proof. split; cbn; [by exists 12|]. split; [by exists 1|by exists 12]. Qed.

(** The red-black tree of the source, empty, with memory for [n] structures *)
Definition blank (n : nat) : Maps TS :=
  let l := (fun k => 16 * Z.of_nat (S k)) <$> seq 0 n in
  mkMaps (mkTS 0 (list_to_map ((fun a => (a, mkTree 0 0 0)) <$> l))) ∅ 0 0 [] l (mkAlive None 100).
Lemma blank_rep n : (n <= 8)%nat -> rep (blank n) [] [] 0.
Proof.
  intros Hn. split; try done.
  - apply tree_empty.
  - apply ordered_nil.
  - do 9 (destruct n as [|n]; [vm_compute; repeat constructor; set_solver|]). lia.
  - do 9 (destruct n as [|n]; [vm_compute; repeat constructor; by eexists|]). lia.
Qed.
Lemma blank_sound n : sound (blank n) [].
Proof. by split. Qed.
(** A state with one mapping of four pages *)
Lemma one_map : exists s L off, __maps_track (blank 4) 65536 16384 3 34 = Some (true, s) /\ rep s L [] 0 /\ sound s L /\
  forall p a, tracks L p a <-> tracks [] p a \/ tracked_as 65536 16384 3 34 off p a.
Proof.
  destruct (maps_track_ok (blank 4) [] 65536 16384 3 34) as [(s & L & off & H1 & H2 & H3 & H4 & _)|(_ & _ & [=])]; try done.
  - apply blank_rep; lia.
  - set_solver.
  - by exists s, L, off.
Qed.

Lemma maps_track_correct_witness : exists s, __maps_track (blank 4) 65536 16384 3 34 = Some (true, s) /\ kisdangerous 4096 70000 (alive_pages s) = false.
Proof.
  destruct (maps_track_correct (blank 4) [] 65536 16384 3 34) as [(s & L & off & H1 & _ & _ & _ & H2)|(_ & _ & [=])].
  - apply blank_rep. lia.
  - apply blank_sound.
  - repeat split; vm_compute; congruence.
  - vm_compute. reflexivity.
  - exists s. split; [exact H1|]. apply H2; [vm_compute in H1; injection H1 as <-; cbn; lia|vm_compute; split; congruence].
Defined.
Lemma munmap_correct_witness : exists s rc told s' L, __maps_track (blank 4) 65536 16384 3 34 = Some (true, s) /\
  __munmap (fun _ _ => 0) s 69632 4096 = Some (rc, told, s') /\ (forall p, asked told p -> (exists a, tracks L p a) /\ 69632 <= p < 69632 + up 4096).
Proof.
  destruct one_map as (s & L & off & H1 & H2 & H3 & _). 
  destruct (munmap_correct (fun _ _ => 0) s L 69632 4096 H2 H3) as (rc & told & s' & L' & E & _ & _ & [(_ & _ & H & _)|(_ & -> & _)]).
  - repeat split; vm_compute; congruence.
  - exists s, rc, told, s', L. split; [exact H1|]. split; [exact E|exact H].
  - exists s, rc, [], s', L. split; [exact H1|]. split; [exact E|]. intros p (f & Hf & _). set_solver.
Defined.
Lemma maps_pickaddr_correct_witness : exists s addr L, __maps_track (blank 4) 65536 16384 3 34 = Some (true, s) /\
  __maps_pickaddr s 5000 = Some addr /\ free_at L addr (GRUP 5000).
Proof.
  destruct one_map as (s & L & off & H1 & H2 & _ & H3).
  destruct (maps_pickaddr_correct s L [] 0 5000 H2) as (addr & E & Hf & _).
  - intros ->. destruct (proj2 (H3 65536 (3, __maps_funge_flags 34, None))) as (x & Hx & _); [right; split; [vm_compute; split; congruence|reflexivity]|set_solver].
  - lia.
  - exists s, addr, L. done.
Defined.
(** With a mapping cut at each end of the interval, [munmap] asks the system for one of
    the two parts only: of two adjacent mappings of four pages with different protections,
    unmapping the last two pages of the first and the first two of the second succeeds and
    forgets all four pages, but asks the system to unmap the first two only. *)
Theorem munmap_loses_fragment :
  (s ← __maps_track (blank 4) 65536 16384 3 34;
   s ← __maps_track s.2 81920 16384 1 34;
   before ← __maps_overlaps s.2 81920 8192;
   '(rc, told, s) ← __munmap (fun _ _ => 0) s.2 73728 16384;
   after ← __maps_overlaps s 81920 8192;
   Some (before, rc, told, after)) = Some (true, 0, [(73728, 8192)], false).
Proof. vm_compute. reflexivity. Qed.
