(* ===== verification/Mmap.v ===== *)
(** [mmap] of [libc/intrin/mmap.c] on systems other than Windows: the checks of its arguments,
    the polyfills of fixed mappings, the choice of an address, and the bookkeeping.

    The system call is a parameter: a function from its arguments to the address it returns or
    an error. So is the file system inside the executable, which serves its own files. *)
From S2P Require Export Maps.

(** Values of [errno]; the others are whatever the system left there. *)
Variant error := EPERM | EINVAL | ENOMEM | EEXIST | EFAULT | errno_of (n : Z).

(** Which system it is, what the allocator of structures leaves in [errno] when it fails, and
    the limit of the address space, [rlimit[RLIMIT_AS].rlim_cur], which is kept complemented. *)
Class System := { IsLinux : bool; IsFreebsd : bool; IsNetbsd : bool; IsXnu : bool; IsOpenbsd : bool; alloc_error : error; rlim_cur : Z }.

Definition MAX_SIZE : Z := 0x0ff800000000.
Definition SPARSE_GROWTH : Z := 8.
Definition SPARSE_MINIMUM : Z := 2097152.
Definition SPARSE_RANDPAD : Z := 2097152.
Definition MAP_EXCL_freebsd : Z := 0x4000.
Definition MAP_FIXED_NOREPLACE_linux : Z := 0x100000.
Definition PROT_READ : Z := 1.
Definition PROT_WRITE : Z := 2.

(** [__maps.rand *= 15750249268501108917]: the number and the new state of 128 bits *)
Definition __maps_rand (rand : Z) : Z * Z :=
  let rand := (rand * 15750249268501108917) mod 2 ^ 128 in (Z.shiftr rand 64, rand).

Section Mmap.
Context {ST : Type} `{!NodeTree ST} `{!Platform} `{!System}.
Definition sys_call : Type := Z -> Z -> Z -> Z -> Z -> Z -> Z + error.

Definition MMAP_IS_SPARSE : bool := IsXnu || IsFreebsd || IsOpenbsd || IsWindows.
Definition __maps_sparse (size rand : Z) : Z * Z :=
  let size := u64 (size * SPARSE_GROWTH) in
  let size := if size <? SPARSE_MINIMUM then SPARSE_MINIMUM else size in
  let '(r, rand) := __maps_rand rand in
  let size := u64 (size + r mod SPARSE_RANDPAD) in
  (Z.land size (- gransize), rand).

Definition has (flags f : Z) : bool := negb (Z.land flags f =? 0).

(** The system call, and the second try when FreeBSD does not give the address asked for *)
Definition try_mmap (sys_mmap : sys_call) (hintmode noreplace : bool) (addr size prot sysflags fd off : Z) : Z + error :=
  match sys_mmap addr size prot sysflags fd off with
  | inl r => inl r
  | inr e =>
      if IsFreebsd && match e with EINVAL | ENOMEM => true | _ => false end then
        if noreplace then inr EEXIST
        else if hintmode then sys_mmap addr size prot (Z.land sysflags (Z.lnot (Z.lor MAP_FIXED MAP_EXCL_freebsd))) fd off
        else inr e
      else inr e
  end.

(** Whether flags call for a fixed mapping, one that replaces nothing, or whether the address
    is a hint to insist on; and the flags passed to the system *)
Definition is_noreplace (flags : Z) : bool := has flags MAP_FIXED_NOREPLACE.
Definition is_fixed (flags : Z) : bool := negb (is_noreplace flags) && has flags MAP_FIXED.
Definition is_hint (flags addr : Z) : bool := negb (is_noreplace flags) && negb (is_fixed flags) && negb (addr =? 0) && IsFreebsd.
Definition sys_flags (flags addr : Z) : Z :=
  if is_noreplace flags then
    let flags := Z.land flags (Z.lnot MAP_FIXED_NOREPLACE) in
    if IsLinux then Z.lor flags MAP_FIXED_NOREPLACE_linux
    else if IsFreebsd then Z.lor flags (Z.lor MAP_FIXED MAP_EXCL_freebsd) else flags
  else if is_hint flags addr then Z.lor flags (Z.lor MAP_FIXED MAP_EXCL_freebsd) else flags.

(** The state of the manager and of its random numbers *)
Notation St := (Maps ST * Z)%type.
(** The result, the intervals passed to [sys_munmap], and the state; the structure [map] is
    tracked as the new mapping. *)
Definition track_mapping (s : Maps ST) (map addr size prot flags off : Z) : option (Maps ST) :=
  let s := set_obj map (mkMap addr size off flags prot (-1)) s in
  '(s, deleted) ← (if is_fixed flags then u ← __muntrack false s addr size; Some (u_maps u, u_deleted u) else Some (s, []));
  s ← __maps_insert s map;
  __maps_free_all s deleted.

Definition __mmap_impl (sys_mmap : sys_call) (addr size prot flags fd off : Z) (st : St) : option ((Z + error) * list (Z * Z) * St) :=
  let '(s, rand) := st in
  let anon := has flags MAP_ANONYMOUS in
  let fd := if anon then -1 else fd in
  let off := if anon then 0 else off in
  if negb anon && has off (gransize - 1) then Some (inr EINVAL, [], st)
  else
    let '(map, s) := __maps_alloc s in
    if map =? 0 then Some (inr alloc_error, [], (s, rand))
    else if is_noreplace flags && has flags MAP_FIXED then s ← __maps_free s map; Some (inr EINVAL, [], (s, rand))
    else
      let sysflags := sys_flags flags addr in
      let hintmode := is_hint flags addr in
      '(addr, rand) ← (if MMAP_IS_SPARSE && negb (is_fixed flags) && (addr =? 0)
                       then let '(sz, rand) := __maps_sparse size rand in addr ← __maps_pickaddr s sz; Some (addr, rand)
                       else Some (addr, rand));
      match try_mmap sys_mmap hintmode (is_noreplace flags) addr size prot sysflags fd off with
      | inr e => s ← __maps_free s map; Some (inr e, [], (s, rand))
      | inl r =>
          if is_noreplace flags && negb (r =? addr) then s ← __maps_free s map; Some (inr EEXIST, [(r, size)], (s, rand))
          else s ← track_mapping s map r size prot flags off; Some (inl r, [], (s, rand))
      end.

(** [__isfdkind(fd, kFdZip)] and [__zipos_mmap] *)
Context (is_zip : Z -> bool) (zipos_mmap : Z -> Z -> Z -> Z -> Z -> Z -> St -> option ((Z + error) * list (Z * Z) * St)).
Definition __mmap (sys_mmap : sys_call) (addr size prot flags fd off : Z) (st : St) : option ((Z + error) * list (Z * Z) * St) :=
  let addr := if has addr (gransize - 1) then 0 else addr in
  if (addr =? 0) && has flags (Z.lor MAP_FIXED MAP_FIXED_NOREPLACE) then Some (inr EPERM, [], st)
  else if s64 addr <? 0 then Some (inr ENOMEM, [], st)
  else if (size =? 0) || (u64 (addr + size) <? size) then Some (inr EINVAL, [], st)
  else if MAX_SIZE <? size then Some (inr ENOMEM, [], st)
  else if u64 (Z.lnot rlim_cur) <? u64 (count st.1 * pagesize + size) then Some (inr ENOMEM, [], st)
  else if is_zip fd then zipos_mmap addr size prot flags fd off st
  else __mmap_impl sys_mmap addr size prot flags fd off st.

Definition mmap (sys_mmap : sys_call) (addr size prot flags fd off : Z) (st : St) : option ((Z + error) * list (Z * Z) * St) :=
  '(res, told, (s, rand)) ← __mmap sys_mmap addr size prot flags fd off st;
  match res with
  | inr _ => Some (res, told, (s, rand))
  | inl r =>
      a ← (if has prot (Z.lor PROT_READ PROT_WRITE) then __maps_mark pagesize r size (alive_pages s)
           else __maps_unmark pagesize r size (alive_pages s));
      Some (res, told, (set_alive a s, rand))
  end.
End Mmap.
