(* ===== verification/Mprotect.v ===== *)
(** Changing the protection of pages: [libc/intrin/mprotect.c] where the system is not Windows. A
    mapping that the interval covers changes as a whole; one that it cuts is split into two or
    three mappings. The structures in front of the changed one are fresh, as the one in the tree
    always keeps the right end, so that the loop can go on from it. *)
From S2P Require Import Prelude NodeTree PageTable Maps Mmap.

Definition PROT_EXEC : Z := 4.

Section Mprotect.
Context {ST : Type} {Hops : NodeTree ST} {P : Platform}.
(** The flag for guard pages, which depends on the system, and the system call, which returns 0,
    or -1 with an error. *)
Context (PROT_GUARD : Z) (sys_mprotect : Z -> Z -> Z -> Z).

(** The variables of [__mprotect], with the intervals passed to the system so far. *)
Record protect := mkProtect { p_maps : Maps ST; p_rc : Z; p_found : bool; p_told : list (Z * Z) }.

(** The result, and the state with the pages marked or unmarked. *)
Definition __mprotect_chunk (addr size prot : Z) (s : Maps ST) : option (Z * Maps ST) :=
  let rc := sys_mprotect addr size prot in
  if negb (rc =? -1) then
    a ← (if has prot (Z.lor PROT_READ PROT_WRITE) then __maps_mark pagesize addr size (alive_pages s)
         else __maps_unmark pagesize addr size (alive_pages s));
    Some (rc, set_alive a s)
  else Some (rc, s).

Definition with_prot (m : Map) (prot : Z) : Map := mkMap (m_addr m) (m_size m) (m_off m) (m_flags m) prot (m_hand m).
Definition with_hand (m : Map) (hand : Z) : Map := mkMap (m_addr m) (m_size m) (m_off m) (m_flags m) (m_prot m) hand.

(** [map->addr += left; map->size = right; map->hand = MAPS_SUBREGION] and the offset into a
    file. *)
Definition advance (m : Map) (left right : Z) : Map :=
  let m := with_hand (with_addr m (u64 (m_addr m + left)) right) MAPS_SUBREGION in
  if anonymous m then m else with_off m (m_off m + left).

(** [rc = -1]; the loop goes on. *)
Definition chunk_failed (s : Maps ST) (told : list (Z * Z)) : protect := mkProtect s (-1) true told.

(** The body of the loop for a mapping [n] that intersects the interval; [size] is rounded. *)
Definition mprotect_one (addr size prot n : Z) (m : Map) (u : protect) : option protect :=
  let s := p_maps u in
  let map_addr := m_addr m in
  let map_size := m_size m in
  let e := u64 (addr + size) in
  let map_end := m_end m in
  if (addr <=? map_addr) && (map_end <=? e) then
    '(rc, s) ← __mprotect_chunk map_addr map_size prot s;
    let told := p_told u ++ [(map_addr, map_size)] in
    if rc =? 0 then Some (mkProtect (set_obj n (with_prot m prot) s) (p_rc u) true told)
    else Some (chunk_failed s told)
  else if addr <=? map_addr then
    let left := u64 (e - map_addr) in
    let right := u64 (map_size - left) in
    let '(leftmap, s) := __maps_alloc s in
    if negb (leftmap =? 0) then
      '(rc, s) ← __mprotect_chunk map_addr left prot s;
      let told := p_told u ++ [(map_addr, left)] in
      if rc =? 0 then
        let s := set_obj leftmap (mkMap map_addr left (m_off m) (m_flags m) prot (m_hand m)) s in
        let s := set_obj n (advance m left right) s in
        s ← __maps_add s leftmap; Some (mkProtect s (p_rc u) true told)
      else s ← __maps_free s leftmap; Some (chunk_failed s told)
    else Some (chunk_failed s (p_told u))
  else if map_end <=? e then
    let left := u64 (addr - map_addr) in
    let right := u64 (map_addr + map_size - addr) in
    let '(leftmap, s) := __maps_alloc s in
    if negb (leftmap =? 0) then
      '(rc, s) ← __mprotect_chunk (u64 (map_addr + left)) right prot s;
      let told := p_told u ++ [(u64 (map_addr + left), right)] in
      if rc =? 0 then
        let s := set_obj leftmap (mkMap map_addr left (m_off m) (m_flags m) (m_prot m) (m_hand m)) s in
        let s := set_obj n (advance (with_prot m prot) left right) s in
        s ← __maps_add s leftmap; Some (mkProtect s (p_rc u) true told)
      else s ← __maps_free s leftmap; Some (chunk_failed s told)
    else Some (chunk_failed s (p_told u))
  else
    let left := u64 (addr - map_addr) in
    let middle := size in
    let right := u64 (map_size - middle - left) in
    let '(leftmap, s) := __maps_alloc s in
    if negb (leftmap =? 0) then
      let '(midlmap, s) := __maps_alloc s in
      if negb (midlmap =? 0) then
        '(rc, s) ← __mprotect_chunk (u64 (map_addr + left)) middle prot s;
        let told := p_told u ++ [(u64 (map_addr + left), middle)] in
        if rc =? 0 then
          let s := set_obj leftmap (mkMap map_addr left (m_off m) (m_flags m) (m_prot m) (m_hand m)) s in
          let off := if anonymous m then 0 else m_off m + left in
          let s := set_obj midlmap (mkMap (u64 (map_addr + left)) middle off (m_flags m) prot MAPS_SUBREGION) s in
          let s := set_obj n (advance m (left + middle) right) s in
          s ← __maps_add s leftmap;
          s ← __maps_add s midlmap; Some (mkProtect s (p_rc u) true told)
        else
          s ← __maps_free s midlmap;
          s ← __maps_free s leftmap; Some (chunk_failed s told)
      else s ← __maps_free s leftmap; Some (chunk_failed s (p_told u))
    else Some (chunk_failed s (p_told u)).

Fixpoint mprotect_loop (fuel : nat) (addr size prot n : Z) (u : protect) : option protect :=
  match fuel with
  | O => None
  | S fuel =>
      if n =? 0 then Some u
      else
        m ← objs (p_maps u) !! n;
        if negb (reaches addr size m) then Some u
        else
          u ← (if negb (Z.max addr (m_addr m) <? Z.min (u64 (addr + size)) (m_end m)) then Some u
               else mprotect_one addr size prot n m u);
          n ← __maps_next (p_maps u) n;
          mprotect_loop fuel addr size prot n u
  end.

(** Also returns the intervals passed to the system, in order. *)
Definition __mprotect (s : Maps ST) (addr size prot : Z) : option (Z * list (Z * Z) * Maps ST) :=
  if negb (Z.land prot (Z.lnot (Z.lor (Z.lor (Z.lor PROT_READ PROT_WRITE) PROT_EXEC) PROT_GUARD)) =? 0) then Some (einval, [], s)
  else if size =? 0 then Some (0, [], s)
  else if negb (Z.land addr (pagesize - 1) =? 0) || (u64 (addr + size) <? size) then Some (einval, [], s)
  else
    let size := PGUP size in
    n ← start_at s addr;
    u ← mprotect_loop (maps_fuel s) addr size prot n (mkProtect s 0 false []);
    if negb (p_found u) then
      '(rc, s) ← __mprotect_chunk addr size prot (p_maps u); Some (rc, p_told u ++ [(addr, size)], s)
    else Some (p_rc u, p_told u, p_maps u).

Definition mprotect (s : Maps ST) (addr size prot : Z) : option (Z * list (Z * Z) * Maps ST) := __mprotect s addr size prot.
End Mprotect.
Arguments mkProtect {ST} _ _ _ _. Arguments p_maps {ST} _. Arguments p_rc {ST} _. Arguments p_found {ST} _. Arguments p_told {ST} _.
