(* ===== verification/MprotectFacts.v ===== *)
(** [mprotect] changes the protection of the tracked pages of the interval and nothing else that is
    tracked, whatever splitting of mappings it takes, and asks the system for exactly these
    pages. *)
From S2P Require Import Prelude NodeTree Tree TreeInstance PageTable PageTableFacts Maps MapsFacts MapsUntrack MapsCorrect Mmap Mprotect.
From stdpp Require Import list gmap sorting.
#[local] Open Scope Z_scope.

Section Facts.
Context {ST : Type} {Hops : NodeTree ST} {Hlaws : NodeTreeLaws ST} {P : Platform} {GP : GoodPlatform}.
Context (PROT_GUARD : Z) (sys_mprotect : Z -> Z -> Z -> Z).

(** * Structures *)

(** How many structures can be had. *)
Definition spare (s : Maps ST) : nat := length (freed s ++ supply s).

(** A structure in the caller's hands is not in the tree. *)
Lemma held_ne s L1 n q L2 k D e : rep s (L1 ++ (n, q) :: L2) (k :: D) e -> k <> n.
Proof.
  intros HR ->. pose proof (rep_distinct _ _ _ _ HR) as Hd. apply NoDup_app in Hd as (_ & Hd & _). apply (Hd n); [|left].
  rewrite fmap_app. apply elem_of_app. right. left.
Qed.

Lemma alloc_spare s n s' : __maps_alloc s = (n, s') -> (n =? 0) = false -> spare s = S (spare s').
Proof.
  unfold __maps_alloc, spare. destruct (freed s) as [|k l]; [destruct (supply s) as [|k l]|].
  - intros [= <- <-]. done.
  - intros [= <- <-] _. done.
  - intros [= <- <-] _. done.
Qed.
Lemma free_spare s n s' : __maps_free s n = Some s' -> spare s' = S (spare s).
Proof. unfold __maps_free, spare. destruct (objs s !! n); [|done]. cbn [mbind option_bind]. intros E. apply Some_inj in E as <-. done. Qed.
Lemma add_spare s n s' : __maps_add s n = Some s' -> spare s' = spare s.
Proof. unfold __maps_add, spare. destruct (t_insert _ n (tree s)); [|done]. cbn [mbind option_bind]. intros E. apply Some_inj in E as <-. done. Qed.

(** The part of [m] from [x] on, with another protection. *)
Lemma part_ok m x sz off pr h :
  ok_map m -> m_addr m <= x -> x mod pagesize = 0 -> 0 < sz -> x + up sz <= m_end m ->
  anonymous m = true \/ off = m_off m + (x - m_addr m) ->
  let q := mkMap x sz off (m_flags m) pr h in
  ok_map q /\ m_end q = x + up sz /\ forall p, attr q p = (pr, (attr m p).1.2, (attr m p).2).
Proof.
  intros Hm Hx Hxa Hs He Hoff q. destruct (m_end_ok m Hm) as (Em & _). pose proof Hm as (H1 & _ & _ & H4).
  assert (Hq : ok_map q) by (split_and!; cbn [q m_addr m_size]; mlia || done).
  destruct (m_end_ok q Hq) as (Eq & _). split_and!; [done|exact Eq|].
  intros p. unfold attr. change (anonymous q) with (anonymous m). cbn [q m_prot m_flags m_off m_addr fst snd].
  destruct (anonymous m); [done|]. destruct Hoff as [|Ho]; [done|]. rewrite Ho. do 2 f_equal. lia.
Qed.

Lemma advance_part m left right :
  advance m left right = mkMap (u64 (m_addr m + left)) right (if anonymous m then m_off m else m_off m + left)
    (m_flags m) (m_prot m) MAPS_SUBREGION.
Proof. unfold advance. cbv zeta. change (anonymous (with_hand _ _)) with (anonymous m). by destruct (anonymous m). Qed.

(** * Protecting a chunk *)

Lemma chunk_ok addr size prot (s : Maps ST) :
  0 <= addr -> addr mod pagesize = 0 -> 0 < size -> addr + up size <= 2 ^ 57 -> wf (alive_pages s) ->
  exists a', __mprotect_chunk sys_mprotect addr size prot s = Some (sys_mprotect addr size prot, set_alive a' s) /\ wf a' /\
    forall p, 0 <= p < 2 ^ 57 -> kisdangerous pagesize p a' = false ->
      kisdangerous pagesize p (alive_pages s) = false \/ addr <= p < addr + up size.
Proof.
  intros Ha Haa Hs Hl Hwf. unfold __mprotect_chunk. cbv zeta. destruct (sys_mprotect addr size prot =? -1); cbn [negb].
  - exists (alive_pages s). split_and!; [by destruct s|done|tauto].
  - destruct (has prot _).
    + destruct (alive_mark addr size (alive_pages s)) as (a' & -> & W1 & _ & W3 & _); try done. by exists a'.
    + destruct (alive_unmark addr size (alive_pages s)) as (a' & -> & W1 & W2); try done. exists a'. split_and!; [done|done|].
      intros p Hp Hd. left. by apply (W2 p Hp).
Qed.

Section Interval.
Context (addr size prot : Z).
Hypothesis Ha : 0 <= addr.
Hypothesis Haa : addr mod pagesize = 0.
Hypothesis Hsz : 0 < size.
Hypothesis Hsa : size mod pagesize = 0.
Hypothesis Hlim : addr + size <= 2 ^ 57.

(** What becomes of the attributes of the byte at [p]. *)
Definition reprot (p : Z) (a : Z * Z * option Z) : Z * Z * option Z :=
  if (addr <=? p) && (p <? addr + size) then (prot, a.1.2, a.2) else a.

(** Why a call can fail: the system refused, or there were no structures to split a mapping
    with; [need] is how many it took. *)
Definition excuse (s : Maps ST) (need : nat) : Prop :=
  (exists x n, sys_mprotect x n prot <> 0) \/ (spare s < need)%nat.

(** How many ends of the interval lie within [m]. *)
Definition ends (m : Map) : nat :=
  (if (m_addr m <? addr) && (addr <? m_end m) then 1 else 0) +
  (if (m_addr m <? addr + size) && (addr + size <? m_end m) then 1 else 0).

(** The fate of [m], which the interval meets: [X] and the structure [n] take its place. *)
Record pstep (A B : list (Z * Map)) (n : Z) (m : Map) (u u' : @protect ST) (X : list (Z * Map)) : Prop := {
  ps_rep : rep (p_maps u') (A ++ X ++ B) [] 0;
  ps_last : exists X0 m', X = X0 ++ [(n, m')];
  ps_wf : wf (alive_pages (p_maps u'));
  ps_alive : forall p, 0 <= p < 2 ^ 57 -> kisdangerous pagesize p (alive_pages (p_maps u')) = false ->
    kisdangerous pagesize p (alive_pages (p_maps u)) = false \/ covers m p;
  ps_found : p_found u' = true;
  ps_told : exists t, p_told u' = p_told u ++ t /\ forall p, asked t p -> covers m p /\ inside addr size p;
  ps_spare : (spare (p_maps u) <= spare (p_maps u') + ends m)%nat;
  ps_result :
    (p_rc u' = p_rc u /\ (forall p a, tracks X p a <-> exists a0, covers m p /\ attr m p = a0 /\ a = reprot p a0) /\
     forall p, covers m p -> inside addr size p -> asked (p_told u') p) \/
    (p_rc u' = -1 /\ X = [(n, m)] /\ excuse (p_maps u) (ends m)) }.

Section One.
Context (A B : list (Z * Map)) (n : Z) (m : Map) (u : @protect ST).
Hypothesis HR : rep (p_maps u) (A ++ (n, m) :: B) [] 0.
Hypothesis Hwf : wf (alive_pages (p_maps u)).

Lemma here : ordered (A ++ B) /\ ok_map m /\ (forall a, a ∈ A -> m_end a.2 <= m_addr m) /\ (forall b, b ∈ B -> m_end m <= m_addr b.2) /\
  m_end m = m_addr m + up (m_size m) /\ m_addr m < m_end m /\ m_end m mod pagesize = 0 /\ m_addr m mod pagesize = 0 /\
  0 <= m_addr m /\ m_end m <= 2 ^ 56 /\ 0 < m_size m <= 2 ^ 56 /\ m_hand m <> MAPS_RESERVATION.
Proof.
  destruct (ordered_take A (n, m) B (rep_order _ _ _ _ HR)) as (H1 & H2 & H3 & H4). cbn [snd] in *.
  destruct (m_end_ok m H2) as (E1 & E2 & E3 & E4). pose proof H2 as (K1 & K2 & K3 & K4).
  split_and!; try done; try mlia. exact (rep_hands _ _ _ _ HR n m (obj_of _ _ (n, m) _ _ _ HR)).
Qed.

(** The call chunk_failed and nothing but the pages marked has changed. *)
Lemma step_failed s t :
  rep s (A ++ (n, m) :: B) [] 0 -> wf (alive_pages s) ->
  (forall p, 0 <= p < 2 ^ 57 -> kisdangerous pagesize p (alive_pages s) = false ->
     kisdangerous pagesize p (alive_pages (p_maps u)) = false \/ covers m p) ->
  spare s = spare (p_maps u) -> (forall p, asked t p -> covers m p /\ inside addr size p) -> excuse (p_maps u) (ends m) ->
  pstep A B n m u (chunk_failed s (p_told u ++ t)) [(n, m)].
Proof.
  intros H1 H2 H3 H4 H5 H6. split; cbn [chunk_failed p_maps p_rc p_found p_told app]; try done.
  - by exists [], m.
  - by exists t.
  - lia.
  - by right.
Qed.

Lemma asked_one x k p : asked [(x, k)] p <-> x <= p < x + up k.
Proof.
  unfold asked, piece. split.
  - intros (f & Hf & Hp). apply list_elem_of_singleton in Hf as ->. done.
  - intros Hp. exists (x, k). split; [by apply list_elem_of_singleton|done].
Qed.
Lemma asked_app t1 t2 p : asked (t1 ++ t2) p <-> asked t1 p \/ asked t2 p.
Proof. unfold asked. setoid_rewrite elem_of_app. naive_solver. Qed.

(** The interval covers [m]. *)
Lemma one_whole : addr <= m_addr m -> m_end m <= addr + size ->
  exists u' X, mprotect_one sys_mprotect addr size prot n m u = Some u' /\ pstep A B n m u u' X.
Proof.
  intros H1 H2. destruct here as (Ho & Hok & HA & HB & He & Hlt & _ & Hma & H0 & H56 & Hs & Hh).
  unfold mprotect_one. cbv zeta. rewrite e_small by done. rewrite (proj2 (Z.leb_le _ _) H1), (proj2 (Z.leb_le _ _) H2). cbn [andb].
  destruct (chunk_ok (m_addr m) (m_size m) prot (p_maps u)) as (a' & -> & W1 & W2); try done; [mlia..|]. cbn [mbind option_bind].
  rewrite <- He in W2. destruct (Z.eqb_spec (sys_mprotect (m_addr m) (m_size m) prot) 0) as [E|E].
  - eexists _, [(n, with_prot m prot)]. split; [done|]. split; cbn [p_maps p_rc p_found p_told app]; try done.
    + eapply rep_equal; [apply (rep_change (set_alive a' (p_maps u)) _ _ m); [by apply rep_alive| |done]|cbn [with_prot m_size]; lia].
      apply ordered_put; try done.
    + by exists [], (with_prot m prot).
    + eexists. split; [done|]. intros p Hp%asked_one. unfold covers, inside. mlia.
    + change (spare (set_obj n (with_prot m prot) (set_alive a' (p_maps u)))) with (spare (p_maps u)). lia.
    + left. split_and!; [done| |].
      * intros p a. rewrite tracks_cons, tracks_nil. cbn [snd]. change (covers (with_prot m prot) p) with (covers m p).
        unfold reprot. split.
        -- intros [[Hc <-]|[]]. eexists. split_and!; [done|done|]. unfold covers in Hc. rewrite if_true; [done|]. lia.
        -- intros (a0 & Hc & <- & ->). left. split; [done|]. unfold covers in Hc. rewrite if_true; [done|]. lia.
      * intros p Hc _. apply asked_app. right. apply asked_one. unfold covers in Hc. mlia.
  - eexists _, [(n, m)]. split; [done|]. apply step_failed; try done.
    + by apply rep_alive.
    + intros p Hp%asked_one. unfold covers, inside. mlia.
    + left. eauto.
Qed.

(** ** Splitting *)

(** [k] takes the left part [q1], and [n] keeps the right part [q2]. *)
Lemma split_two s k D q1 q2 :
  rep s (A ++ (n, m) :: B) (k :: D) 0 -> ok_map q1 -> ok_map q2 -> m_addr q1 = m_addr m -> m_end q1 = m_addr q2 -> m_end q2 = m_end m ->
  npages (m_size m) = npages (m_size q1) + npages (m_size q2) -> m_hand q1 <> MAPS_RESERVATION -> m_hand q2 <> MAPS_RESERVATION ->
  exists s', __maps_add (set_obj n q2 (set_obj k q1 s)) k = Some s' /\ rep s' (A ++ (k, q1) :: (n, q2) :: B) D 0 /\
    alive_pages s' = alive_pages s /\ spare s' = spare s.
Proof.
  intros HR1 Ok1 Ok2 E1 E2 E3 Hnp Hh1 Hh2. destruct here as (Ho & Hok & HA & HB & _).
  destruct (m_end_ok q1 Ok1) as (_ & L1 & _). destruct (m_end_ok q2 Ok2) as (_ & L2 & _).
  assert (Ho2 : ordered (A ++ (n, q2) :: B)).
  { apply ordered_put; try done; [|by rewrite E3]. intros a Hin. specialize (HA a Hin). mlia. }
  pose proof (rep_change _ _ _ _ _ _ _ q2 (rep_write _ _ _ _ _ q1 HR1 Hh1) Ho2 Hh2) as HR2.
  assert (Hkn : k <> n) by exact (held_ne _ _ _ _ _ _ _ _ HR1).
  destruct (rep_add (set_obj n q2 (set_obj k q1 s)) A k q1 ((n, q2) :: B) D _ HR2) as (s' & Hadd & HR3 & _ & Hal).
  { cbn. rewrite lookup_insert_ne by done. apply lookup_insert_eq. }
  { apply ordered_put; [done|done|by rewrite E1|]. intros x Hx. apply elem_of_cons in Hx as [->|Hx]; [by rewrite E2|specialize (HB x Hx); mlia]. }
  exists s'. split_and!; [done|eapply rep_equal; [done|lia]|done|]. by rewrite (add_spare _ _ _ Hadd).
Qed.

(** The attributes of a part whose protection is [pr]. *)
Definition repainted (q : Map) : Prop := forall p, covers q p -> attr q p = reprot p (attr m p).

Lemma repainted_part q pr : (forall p, attr q p = (pr, (attr m p).1.2, (attr m p).2)) ->
  (pr = prot /\ addr <= m_addr q /\ m_end q <= addr + size) \/ (pr = m_prot m /\ (m_end q <= addr \/ addr + size <= m_addr q)) -> repainted q.
Proof.
  intros Hq Hc p Hp. unfold covers in Hp. rewrite Hq. unfold reprot. destruct Hc as [(-> & H1 & H2)|(-> & H)].
  - rewrite if_true by lia. done.
  - rewrite if_false by lia. done.
Qed.

(** The code of the two cases in which an end of the interval lies in [m]. *)
Lemma two_way cx ck q1 q2 :
  0 <= cx -> cx mod pagesize = 0 -> 0 < ck -> cx + up ck <= 2 ^ 57 ->
  (forall p, cx <= p < cx + up ck <-> covers m p /\ inside addr size p) -> (1 <= ends m)%nat ->
  ok_map q1 -> ok_map q2 -> m_addr q1 = m_addr m -> m_end q1 = m_addr q2 -> m_end q2 = m_end m ->
  npages (m_size m) = npages (m_size q1) + npages (m_size q2) -> m_hand q1 <> MAPS_RESERVATION -> m_hand q2 <> MAPS_RESERVATION ->
  repainted q1 -> repainted q2 ->
  exists u' X,
    (let '(k, s) := __maps_alloc (p_maps u) in
     if negb (k =? 0) then
       '(rc, s) ← __mprotect_chunk sys_mprotect cx ck prot s;
       let told := p_told u ++ [(cx, ck)] in
       if rc =? 0 then
         s ← __maps_add (set_obj n q2 (set_obj k q1 s)) k; Some (mkProtect s (p_rc u) true told)
       else s ← __maps_free s k; Some (chunk_failed s told)
     else Some (chunk_failed s (p_told u))) = Some u' /\ pstep A B n m u u' X.
Proof.
  intros C1 C2 C3 C4 Hch Hends Ok1 Ok2 E1 E2 E3 Hnp Hh1 Hh2 R1 R2. destruct here as (_ & _ & _ & _ & He & Hlt & _).
  destruct (m_end_ok q1 Ok1) as (_ & L1 & _). destruct (m_end_ok q2 Ok2) as (_ & L2 & _).
  destruct (alloc_ok _ _ _ _ HR) as [(k & s1 & lm & Ea & Hk & HR1 & Hlm & _ & Hal & Hod)|(Ea & Hf & Hsu)]; rewrite Ea.
  2: { cbn [Z.eqb negb]. exists (chunk_failed (p_maps u) (p_told u)), [(n, m)]. split; [done|]. rewrite <- (app_nil_r (p_told u)).
       apply step_failed; try done; [tauto|intros p (f & Hf' & _); set_solver|]. right. unfold spare. rewrite Hf, Hsu. cbn. lia. }
  pose proof (alloc_spare _ _ _ Ea Hk) as Hsp. rewrite Hk. cbn [negb].
  destruct (chunk_ok cx ck prot s1) as (a' & -> & W1 & W2); try done; [by rewrite Hal|]. cbn [mbind option_bind]. rewrite Hal in W2.
  assert (Hch' : forall p, asked [(cx, ck)] p <-> covers m p /\ inside addr size p) by (intros p; by rewrite asked_one).
  assert (Walive : forall p, 0 <= p < 2 ^ 57 -> kisdangerous pagesize p a' = false -> kisdangerous pagesize p (alive_pages (p_maps u)) = false \/ covers m p).
  { intros p Hp Hd. destruct (W2 p Hp Hd) as [|Hin%Hch]; tauto. }
  destruct (Z.eqb_spec (sys_mprotect cx ck prot) 0) as [E|E].
  - destruct (split_two (set_alive a' s1) k [] q1 q2 (rep_alive _ _ _ _ _ HR1)) as (s' & -> & HR' & Hal' & Hsp'); try done.
    cbn [mbind option_bind]. eexists _, [(k, q1); (n, q2)]. split; [done|]. split; cbn [p_maps p_rc p_found p_told app]; try done.
    + by exists [(k, q1)], q2.
    + by rewrite Hal'.
    + by rewrite Hal'.
    + eexists. split; [done|]. intros p. apply Hch'.
    + rewrite Hsp'. change (spare (set_alive a' s1)) with (spare s1). lia.
    + left. split_and!; [done| |].
      * intros p a. rewrite !tracks_cons, tracks_nil. cbn [snd]. unfold repainted, covers in *. split.
        -- intros [[Hc <-]|[[Hc <-]|[]]]; exists (attr m p); (split; [mlia|]; split; [done|]); auto.
        -- intros (a0 & Hc & <- & ->). destruct (Z.lt_ge_cases p (m_end q1)); [left|right; left]; (split; [mlia|]); [apply R1|apply R2]; mlia.
      * intros p Hc Hi. apply asked_app. right. by apply Hch'.
  - destruct (rep_free (set_alive a' s1) _ _ _ _ (rep_alive _ _ _ _ _ HR1)) as (s' & Ef & HR' & _ & Hal' & _). rewrite Ef. cbn [mbind option_bind].
    pose proof (free_spare _ _ _ Ef) as Hsp'. change (spare (set_alive a' s1)) with (spare s1) in Hsp'.
    eexists _, [(n, m)]. split; [done|]. apply step_failed; try done; [by rewrite Hal'|by rewrite Hal'|lia|apply Hch'|left; eauto].
Qed.

(** The interval ends in [m]. *)
Lemma one_left : addr <= m_addr m < addr + size -> addr + size < m_end m ->
  exists u' X, mprotect_one sys_mprotect addr size prot n m u = Some u' /\ pstep A B n m u u' X.
Proof.
  intros H1 H2. destruct here as (Ho & Hok & HA & HB & He & Hlt & Hea & Hma & H0 & H56 & Hs & Hh).
  set (left := addr + size - m_addr m).
  assert (Hla : left mod pagesize = 0) by (apply mod_sub_0; [by apply mod_add_0|done]).
  destruct (cut_size (m_size m) left) as (K1 & K2 & K3); [unfold left; mlia|done|unfold left; mlia|mlia|].
  unfold mprotect_one. cbv zeta. rewrite e_small by done. rewrite (proj2 (Z.leb_le _ _) (proj1 H1)), (proj2 (Z.leb_gt _ _) H2). cbn [andb].
  rewrite advance_part. fold left. rewrite (u64_small left), (u64_small (m_addr m + left)), (u64_small (m_size m - left)) by (unfold left in *; mlia).
  destruct (part_ok m (m_addr m) left (m_off m) prot (m_hand m)) as (P1 & P2 & P3); [done|mlia|done|unfold left; mlia|rewrite up_id by done; unfold left; mlia|right; lia|].
  destruct (part_ok m (m_addr m + left) (m_size m - left) (if anonymous m then m_off m else m_off m + left) (m_prot m) MAPS_SUBREGION) as (Q1 & Q2 & Q3);
    [done|unfold left; mlia|by apply mod_add_0|mlia|rewrite K2; mlia|destruct (anonymous m); [by left|right; lia]|].
  rewrite up_id in P2 by done. rewrite K2 in Q2. set (q1 := mkMap (m_addr m) left _ _ _ _) in *. set (q2 := mkMap (m_addr m + left) _ _ _ _ _) in *.
  assert (El : m_addr m + left = addr + size) by (unfold left; lia).
  refine (two_way (m_addr m) left q1 q2 H0 Hma _ _ _ _ P1 Q1 eq_refl P2 _ K3 Hh _ _ _); [mlia|rewrite up_id by done; mlia| | |rewrite Q2; mlia|done|..].
  - intros p. rewrite up_id by done. unfold covers, inside. mlia.
  - unfold ends. rewrite (if_true ((m_addr m <? addr + size) && _)); [lia|]. lia.
  - apply (repainted_part _ prot P3). left. rewrite P2. cbn [q1 m_addr]. split_and!; [done|mlia|mlia].
  - apply (repainted_part _ (m_prot m) Q3). right. cbn [q2 m_addr]. split; [done|]. right. mlia.
Qed.

(** The interval begins in [m]. *)
Lemma one_right : m_addr m < addr < m_end m -> m_end m <= addr + size ->
  exists u' X, mprotect_one sys_mprotect addr size prot n m u = Some u' /\ pstep A B n m u u' X.
Proof.
  intros H1 H2. destruct here as (Ho & Hok & HA & HB & He & Hlt & Hea & Hma & H0 & H56 & Hs & Hh).
  set (left := addr - m_addr m).
  assert (Hla : left mod pagesize = 0) by (by apply mod_sub_0).
  destruct (cut_size (m_size m) left) as (K1 & K2 & K3); [unfold left; mlia|done|unfold left; mlia|mlia|].
  unfold mprotect_one. cbv zeta. rewrite e_small by done. rewrite (proj2 (Z.leb_gt addr _) (proj1 H1)), (proj2 (Z.leb_le _ _) H2). cbn [andb].
  rewrite advance_part. fold left. rewrite (u64_small left) by (unfold left in *; mlia).
  replace (m_addr m + m_size m - addr) with (m_size m - left) by (unfold left; lia).
  change (m_addr (with_prot m prot)) with (m_addr m). change (anonymous (with_prot m prot)) with (anonymous m).
  change (m_off (with_prot m prot)) with (m_off m). change (m_flags (with_prot m prot)) with (m_flags m). change (m_prot (with_prot m prot)) with prot.
  rewrite (u64_small (m_addr m + left)), (u64_small (m_size m - left)) by (unfold left in *; mlia).
  destruct (part_ok m (m_addr m) left (m_off m) (m_prot m) (m_hand m)) as (P1 & P2 & P3); [done|mlia|done|unfold left; mlia|rewrite up_id by done; unfold left; mlia|right; lia|].
  destruct (part_ok m (m_addr m + left) (m_size m - left) (if anonymous m then m_off m else m_off m + left) prot MAPS_SUBREGION) as (Q1 & Q2 & Q3);
    [done|unfold left; mlia|by apply mod_add_0|mlia|rewrite K2; mlia|destruct (anonymous m); [by left|right; lia]|].
  rewrite up_id in P2 by done. rewrite K2 in Q2.
  set (q1 := mkMap (m_addr m) left _ _ _ _) in *. set (q2 := mkMap (m_addr m + left) _ _ _ _ _) in *.
  assert (El : m_addr m + left = addr) by (unfold left; lia).
  refine (two_way (m_addr m + left) (m_size m - left) q1 q2 _ _ _ _ _ _ P1 Q1 eq_refl P2 _ K3 Hh _ _ _);
    [mlia|by apply mod_add_0|mlia|rewrite K2; mlia| | |rewrite Q2; mlia|done|..].
  - intros p. rewrite K2. unfold covers, inside. mlia.
  - unfold ends. rewrite (if_true ((m_addr m <? addr) && _)); [lia|]. lia.
  - apply (repainted_part _ (m_prot m) P3). right. rewrite P2. split; [done|]. left. mlia.
  - apply (repainted_part _ prot Q3). left. rewrite Q2. cbn [q2 m_addr]. split_and!; [done|mlia|mlia].
Qed.

(** [k1] takes the left part, [k2] the one in the middle, and [n] keeps the right part. *)
Lemma split_three s k1 k2 q1 q2 q3 :
  rep s (A ++ (n, m) :: B) [k2; k1] 0 -> ok_map q1 -> ok_map q2 -> ok_map q3 ->
  m_addr q1 = m_addr m -> m_end q1 = m_addr q2 -> m_end q2 = m_addr q3 -> m_end q3 = m_end m ->
  npages (m_size m) = npages (m_size q1) + npages (m_size q2) + npages (m_size q3) ->
  m_hand q1 <> MAPS_RESERVATION -> m_hand q2 <> MAPS_RESERVATION -> m_hand q3 <> MAPS_RESERVATION ->
  exists s1 s2, __maps_add (set_obj n q3 (set_obj k2 q2 (set_obj k1 q1 s))) k1 = Some s1 /\ __maps_add s1 k2 = Some s2 /\
    rep s2 (A ++ (k1, q1) :: (k2, q2) :: (n, q3) :: B) [] 0 /\ alive_pages s2 = alive_pages s /\ spare s2 = spare s.
Proof.
  intros HR1 Ok1 Ok2 Ok3 E1 E2 E3 E4 Hnp Hh1 Hh2 Hh3. destruct here as (Ho & Hok & HA & HB & _).
  destruct (m_end_ok q1 Ok1) as (_ & L1 & _). destruct (m_end_ok q2 Ok2) as (_ & L2 & _). destruct (m_end_ok q3 Ok3) as (_ & L3 & _).
  assert (Hk2n : k2 <> n) by exact (held_ne _ _ _ _ _ _ _ _ HR1).
  assert (Hswap : [k2; k1] ≡ₚ [k1; k2]) by apply Permutation_swap.
  pose proof (rep_perm _ _ _ _ _ Hswap HR1) as HR1'. assert (Hk1n : k1 <> n) by exact (held_ne _ _ _ _ _ _ _ _ HR1').
  assert (Hk12 : k1 <> k2).
  { pose proof (rep_distinct _ _ _ _ HR1) as Hd. apply NoDup_app in Hd as (_ & _ & Hd). apply NoDup_cons in Hd as [Hd _]. set_solver. }
  assert (Ho3 : ordered (A ++ (n, q3) :: B)).
  { apply ordered_put; try done; [|by rewrite E4]. intros a Hin. specialize (HA a Hin). mlia. }
  pose proof (rep_write _ _ _ _ _ q1 HR1' Hh1) as HR2. apply (rep_perm _ _ _ [k2; k1] _ (symmetry Hswap)) in HR2.
  pose proof (rep_change _ _ _ _ _ _ _ q3 (rep_write _ _ _ _ _ q2 HR2 Hh2) Ho3 Hh3) as HR3. apply (rep_perm _ _ _ [k1; k2] _ Hswap) in HR3.
  destruct (rep_add (set_obj n q3 (set_obj k2 q2 (set_obj k1 q1 s))) A k1 q1 ((n, q3) :: B) [k2] _ HR3) as (s1 & Hadd1 & HR4 & Hob1 & Hal1).
  { cbn. rewrite !lookup_insert_ne by done. apply lookup_insert_eq. }
  { apply ordered_put; [done|done|by rewrite E1|]. intros x Hx. apply elem_of_cons in Hx as [->|Hx]; [cbn [snd]; mlia|specialize (HB x Hx); mlia]. }
  pose proof (rep_order _ _ _ _ HR4) as Ho4. rewrite (cons_middle (k1, q1) A), app_assoc in HR4, Ho4.
  destruct (rep_add s1 (A ++ [(k1, q1)]) k2 q2 ((n, q3) :: B) [] _ HR4) as (s2 & Hadd2 & HR5 & _ & Hal2).
  { rewrite Hob1. cbn. rewrite lookup_insert_ne by done. apply lookup_insert_eq. }
  { apply ordered_put; [done|done| |].
    - intros x Hx. apply elem_of_app in Hx as [Hx|Hx]; [specialize (HA x Hx); mlia|]. apply list_elem_of_singleton in Hx as ->. cbn [snd]. mlia.
    - intros x Hx. apply elem_of_cons in Hx as [->|Hx]; [cbn [snd]; mlia|specialize (HB x Hx); mlia]. }
  rewrite <- app_assoc in HR5. exists s1, s2. split_and!; [done|done|eapply rep_equal; [exact HR5|lia]|by rewrite Hal2, Hal1|].
  by rewrite (add_spare _ _ _ Hadd2), (add_spare _ _ _ Hadd1).
Qed.

(** The interval lies within [m]. *)
Lemma one_middle : m_addr m < addr -> addr + size < m_end m ->
  exists u' X, mprotect_one sys_mprotect addr size prot n m u = Some u' /\ pstep A B n m u u' X.
Proof.
  intros H1 H2. destruct here as (Ho & Hok & HA & HB & He & Hlt & Hea & Hma & H0 & H56 & Hs & Hh).
  set (left := addr - m_addr m). assert (El : m_addr m + left = addr) by (unfold left; mlia).
  assert (Hla : left mod pagesize = 0) by (by apply mod_sub_0).
  destruct (cut_size (m_size m) left) as (K1 & K2 & K3); [unfold left; mlia|done|unfold left; mlia|mlia|].
  destruct (cut_size (m_size m - left) size) as (J1 & J2 & J3); [mlia|done|mlia|mlia|].
  unfold mprotect_one. cbv zeta. rewrite e_small by done. rewrite (proj2 (Z.leb_gt addr _) H1), (proj2 (Z.leb_gt _ _) H2). cbn [andb].
  rewrite advance_part. fold left. rewrite (u64_small left) by mlia. rewrite El, (u64_small addr) by mlia.
  replace (m_size m - size - left) with (m_size m - left - size) by mlia. rewrite (u64_small (m_size m - left - size)) by mlia.
  replace (m_addr m + (left + size)) with (addr + size) by mlia. rewrite e_small by done.
  destruct (part_ok m (m_addr m) left (m_off m) (m_prot m) (m_hand m)) as (P1 & P2 & P3); [done|mlia|done|mlia|rewrite up_id by done; mlia|right; mlia|].
  destruct (part_ok m addr size (if anonymous m then 0 else m_off m + left) prot MAPS_SUBREGION) as (Q1 & Q2 & Q3);
    [done|mlia|done|done|rewrite up_id by done; mlia|destruct (anonymous m); [by left|right; mlia]|].
  destruct (part_ok m (addr + size) (m_size m - left - size) (if anonymous m then m_off m else m_off m + (left + size)) (m_prot m) MAPS_SUBREGION) as (R1 & R2 & R3);
    [done|mlia|by apply mod_add_0|mlia|rewrite J2, K2; mlia|destruct (anonymous m); [by left|right; mlia]|].
  rewrite up_id in P2, Q2 by done. rewrite El in P2. rewrite J2, K2 in R2.
  set (q1 := mkMap (m_addr m) left _ _ _ _) in *. set (q2 := mkMap addr _ _ _ _ _) in *. set (q3 := mkMap (addr + size) _ _ _ _ _) in *.
  assert (Hends : ends m = 2%nat) by (unfold ends; rewrite !if_true by mlia; done).
  assert (Hnone : forall p, asked [] p -> covers m p /\ inside addr size p) by (intros p (f & Hf & _); set_solver).
  destruct (alloc_ok _ _ _ _ HR) as [(k1 & s1 & lm & Ea & Hk & HR1 & _ & _ & Hal & _)|(Ea & Hf & Hsu)]; rewrite Ea.
  2: { cbn [Z.eqb negb]. exists (chunk_failed (p_maps u) (p_told u)), [(n, m)]. split; [done|]. rewrite <- (app_nil_r (p_told u)).
       apply step_failed; try done; [tauto|]. right. unfold spare. rewrite Hf, Hsu, Hends. cbn. lia. }
  pose proof (alloc_spare _ _ _ Ea Hk) as Hsp. rewrite Hk. cbn [negb].
  destruct (alloc_ok _ _ _ _ HR1) as [(k2 & s2 & lm2 & Ea2 & Hkk & HR2 & _ & _ & Hal2 & _)|(Ea2 & Hf & Hsu)]; rewrite Ea2.
  2: { cbn [Z.eqb negb]. destruct (rep_free _ _ _ _ _ HR1) as (s' & Ef & HR' & _ & Hal' & _). rewrite Ef. cbn [mbind option_bind].
       eexists _, [(n, m)]. split; [done|]. rewrite <- (app_nil_r (p_told u)).
       apply step_failed; try done; [by rewrite Hal', Hal|rewrite Hal', Hal; tauto|by rewrite (free_spare _ _ _ Ef)|]. right. rewrite Hsp, Hends. unfold spare. rewrite Hf, Hsu. cbn. lia. }
  pose proof (alloc_spare _ _ _ Ea2 Hkk) as Hsp2. rewrite Hkk. cbn [negb].
  destruct (chunk_ok addr size prot s2) as (a' & -> & W1 & W2); try done; [rewrite up_id by done; mlia|by rewrite Hal2, Hal|]. cbn [mbind option_bind]. rewrite Hal2, Hal, up_id in W2 by done.
  assert (Hch' : forall p, asked [(addr, size)] p <-> covers m p /\ inside addr size p).
  { intros p. rewrite asked_one, up_id by done. unfold covers, inside. mlia. }
  assert (Walive : forall p, 0 <= p < 2 ^ 57 -> kisdangerous pagesize p a' = false -> kisdangerous pagesize p (alive_pages (p_maps u)) = false \/ covers m p).
  { intros p Hp Hd. destruct (W2 p Hp Hd) as [|Hin]; [by left|right]. unfold covers. mlia. }
  destruct (Z.eqb_spec (sys_mprotect addr size prot) 0) as [E|E].
  - destruct (split_three (set_alive a' s2) k1 k2 q1 q2 q3 (rep_alive _ _ _ _ _ HR2) P1 Q1 R1 eq_refl) as (s3 & s4 & -> & Hadd & HR' & Hal' & Hsp');
      [by rewrite P2|exact Q2|rewrite R2; mlia|cbn [q1 q2 q3 m_size]; mlia|done|done|done|].
    cbn [mbind option_bind]. rewrite Hadd. cbn [mbind option_bind]. eexists _, [(k1, q1); (k2, q2); (n, q3)]. split; [done|]. split; cbn [p_maps p_rc p_found p_told app]; try done.
    + by exists [(k1, q1); (k2, q2)], q3.
    + by rewrite Hal'.
    + by rewrite Hal'.
    + eexists. split; [done|]. intros p. apply Hch'.
    + rewrite Hsp'. change (spare (set_alive a' s2)) with (spare s2). mlia.
    + left. assert (N1 : repainted q1) by (apply (repainted_part _ (m_prot m) P3); right; rewrite P2; split; [done|]; left; mlia).
      assert (N2 : repainted q2) by (apply (repainted_part _ prot Q3); left; rewrite Q2; cbn [q2 m_addr]; split_and!; [done|mlia|mlia]).
      assert (N3 : repainted q3) by (apply (repainted_part _ (m_prot m) R3); right; cbn [q3 m_addr]; split; [done|]; right; mlia).
      split_and!; [done| |].
      * intros p a. rewrite !tracks_cons, tracks_nil. cbn [snd]. unfold repainted, covers in *. rewrite P2, Q2, R2 in *. cbn [q1 q2 q3 m_addr] in *. split.
        -- intros [[Hc <-]|[[Hc <-]|[[Hc <-]|[]]]]; exists (attr m p); (split; [mlia|]; split; [done|]); auto.
        -- intros (a0 & Hc & <- & ->). destruct (Z.lt_ge_cases p addr); [left|destruct (Z.lt_ge_cases p (addr + size)); [right; left|right; right; left]];
             (split; [mlia|]); [apply N1|apply N2|apply N3]; mlia.
      * intros p Hc Hi. apply asked_app. right. by apply Hch'.
  - destruct (rep_free (set_alive a' s2) _ _ _ _ (rep_alive _ _ _ _ _ HR2)) as (s3 & Ef & HR' & _ & Hal' & _). rewrite Ef. cbn [mbind option_bind].
    destruct (rep_free s3 _ _ _ _ HR') as (s4 & Ef2 & HR'' & _ & Hal'' & _). rewrite Ef2. cbn [mbind option_bind].
    pose proof (free_spare _ _ _ Ef) as Hsp'. pose proof (free_spare _ _ _ Ef2) as Hsp''. change (spare (set_alive a' s2)) with (spare s2) in Hsp'.
    eexists _, [(n, m)]. split; [done|]. apply step_failed; try done; [by rewrite Hal'', Hal'|by rewrite Hal'', Hal'|clear -Hsp Hsp2 Hsp' Hsp''; lia|apply Hch'|left; eauto].
Qed.
End One.

(** ** The loop *)

Lemma one_protect_ok A n m B u : rep (p_maps u) (A ++ (n, m) :: B) [] 0 -> wf (alive_pages (p_maps u)) -> meets addr size m ->
  exists u' X, mprotect_one sys_mprotect addr size prot n m u = Some u' /\ pstep A B n m u u' X.
Proof.
  intros HR Hwf Hm. unfold meets in Hm.
  destruct (Z.le_gt_cases addr (m_addr m)) as [H1|H1], (Z.le_gt_cases (m_end m) (addr + size)) as [H2|H2].
  - by apply one_whole.
  - apply one_left; [done|done|mlia|mlia].
  - apply one_right; [done|done|mlia|mlia].
  - by apply one_middle.
Qed.

Definition all_ends (B : list (Z * Map)) : nat := foldr (fun x k => (ends x.2 + k)%nat) 0%nat B.

Lemma all_ends_cons n m B : all_ends ((n, m) :: B) = (ends m + all_ends B)%nat.
Proof. done. Qed.

(** Every attribute is the old one or has the new protection. *)
Definition half_painted (L L' : list (Z * Map)) : Prop :=
  (forall p a, tracks L' p a -> exists a0, tracks L p a0 /\ (a = a0 \/ a = reprot p a0)) /\
  (forall p a0, tracks L p a0 -> exists a, tracks L' p a /\ (a = a0 \/ a = reprot p a0)).
Definition painted (L L' : list (Z * Map)) : Prop :=
  forall p a, tracks L' p a <-> exists a0, tracks L p a0 /\ a = reprot p a0.

Lemma painted_half L L' : painted L L' -> half_painted L L'.
Proof. intros H. split; intros p a Ht; [apply H in Ht as (a0 & ? & ->); eauto|]. exists (reprot p a). split; [apply H; eauto|by right]. Qed.
Lemma half_painted_refl L : half_painted L L.
Proof. split; eauto. Qed.
Lemma half_painted_app L1 L1' L2 L2' : half_painted L1 L1' -> half_painted L2 L2' -> half_painted (L1 ++ L2) (L1' ++ L2').
Proof. intros [H1 H2] [K1 K2]. split; intros p a; setoid_rewrite tracks_app; naive_solver. Qed.
Lemma painted_app L1 L1' L2 L2' : painted L1 L1' -> painted L2 L2' -> painted (L1 ++ L2) (L1' ++ L2').
Proof. intros H1 H2 p a. setoid_rewrite tracks_app. rewrite (H1 p a), (H2 p a). naive_solver. Qed.
(** Mappings that the interval does not meet keep their protection. *)
Lemma painted_apart L : (forall x p, x ∈ L -> covers x.2 p -> ~ inside addr size p) -> painted L L.
Proof.
  intros H p a.
  assert (Hk : forall a0, tracks L p a0 -> reprot p a0 = a0).
  { intros a0 (x & Hx & Hc & _). specialize (H x p Hx Hc). unfold inside in H. unfold reprot. by rewrite if_false by lia. }
  split; [|by intros (a0 & Ht & ->); rewrite Hk]. intros Ht. exists a. split; [done|]. by rewrite Hk.
Qed.

(** What the loop does to the mappings [B]. *)
Record protected (A B : list (Z * Map)) (u u' : @protect ST) (B' : list (Z * Map)) : Prop := {
  pr_rep : rep (p_maps u') (A ++ B') [] 0;
  pr_wf : wf (alive_pages (p_maps u'));
  pr_alive : forall p, 0 <= p < 2 ^ 57 -> kisdangerous pagesize p (alive_pages (p_maps u')) = false ->
    kisdangerous pagesize p (alive_pages (p_maps u)) = false \/ exists x, x ∈ B /\ covers x.2 p;
  pr_found : p_found u' = true <-> p_found u = true \/ exists x, x ∈ B /\ meets addr size x.2;
  pr_told : exists t, p_told u' = p_told u ++ t /\ forall p, asked t p -> pages_of addr size B p;
  pr_same : (forall x, x ∈ B -> ~ meets addr size x.2) -> u' = u /\ B' = B;
  pr_result :
    (p_rc u' = p_rc u /\ painted B B' /\ forall p, pages_of addr size B p -> asked (p_told u') p) \/
    (p_rc u' = -1 /\ half_painted B B' /\ excuse (p_maps u) (all_ends B)) }.

Lemma protected_none A B u : rep (p_maps u) (A ++ B) [] 0 -> wf (alive_pages (p_maps u)) -> (forall x, x ∈ B -> addr + size <= m_addr x.2) -> protected A B u u B.
Proof.
  intros HR Hwf H. split; try done.
  - tauto.
  - split; [tauto|]. intros [?|(x & Hx & Hm)]; [done|]. specialize (H x Hx). unfold meets in Hm. mlia.
  - exists []. rewrite app_nil_r. split; [done|]. intros p (f & Hf & _). set_solver.
  - left. split; [done|]. split; [|intros p (x & Hx & Hc & Hi); specialize (H x Hx); unfold covers, inside in *; mlia].
    apply painted_apart. intros x p Hx Hc. specialize (H x Hx). unfold covers, inside in *. mlia.
Qed.

Lemma protected_skip A n m B u u' B' :
  rep (p_maps u) (A ++ (n, m) :: B) [] 0 -> ~ meets addr size m -> protected (A ++ [(n, m)]) B u u' B' -> protected A ((n, m) :: B) u u' ((n, m) :: B').
Proof.
  intros HR Hm [R1 R2 R3 R4 (t & R5 & R6) Rs R7]. destruct (ordered_take _ _ _ (rep_order _ _ _ _ HR)) as (_ & Hok & _). cbn [snd] in Hok.
  destruct (m_end_ok m Hok) as (_ & Hlt & _).
  assert (Hc : forall p, covers m p -> ~ inside addr size p) by (unfold meets, covers, inside in *; intros; mlia).
  assert (Hpm : painted [(n, m)] [(n, m)]).
  { apply painted_apart. intros x p Hx. apply list_elem_of_singleton in Hx as ->. apply Hc. }
  assert (Hpg : forall p, pages_of addr size ((n, m) :: B) p <-> pages_of addr size B p).
  { intros p. unfold pages_of. setoid_rewrite elem_of_cons. specialize (Hc p). naive_solver. }
  rewrite <- app_assoc in R1. split; try done.
  - intros p Hp Hd. destruct (R3 p Hp Hd) as [|(x & Hx & Hcx)]; [by left|right]. exists x. split; [by right|done].
  - rewrite R4. setoid_rewrite elem_of_cons. naive_solver.
  - exists t. split; [done|]. intros p. rewrite Hpg. apply R6.
  - intros Hno. destruct Rs as [-> ->]; [|done]. intros x Hx. apply Hno. by right.
  - destruct R7 as [(R7 & R8 & R9)|(R7 & R8 & R9)].
    + left. split; [done|]. split; [exact (painted_app _ _ _ _ Hpm R8)|]. intros p. rewrite Hpg. apply R9.
    + right. split; [done|]. split; [exact (half_painted_app _ _ _ _ (painted_half _ _ Hpm) R8)|].
      destruct R9 as [R9|R9]; [by left|right]. rewrite all_ends_cons. mlia.
Qed.

Lemma protected_step A n m B u u1 u' X B' :
  meets addr size m -> pstep A B n m u u1 X -> protected (A ++ X) B u1 u' B' -> protected A ((n, m) :: B) u u' (X ++ B').
Proof.
  intros Hm [S1 S2 S3 S4 S5 (t1 & S6 & S7) S8 S9] [R1 R2 R3 R4 (t & R5 & R6) Rs R7]. rewrite <- app_assoc in R1.
  assert (Hpg : forall p, pages_of addr size ((n, m) :: B) p <-> (covers m p /\ inside addr size p) \/ pages_of addr size B p).
  { intros p. unfold pages_of. setoid_rewrite elem_of_cons. naive_solver. }
  split; try done.
  - intros p Hp Hd. destruct (R3 p Hp Hd) as [Hd1|(x & Hx & Hcx)]; [|right; exists x; split; [by right|done]].
    destruct (S4 p Hp Hd1) as [|Hc]; [by left|right]. exists (n, m). split; [left|done].
  - rewrite R4, S5. split; [intros _|by left]. right. exists (n, m). split; [left|done].
  - exists (t1 ++ t). rewrite R5, S6, app_assoc. split; [done|]. intros p Hp. apply Hpg. apply asked_app in Hp as [Hp|Hp]; [left; by apply S7|right; by apply R6].
  - intros Hno. by destruct (Hno (n, m) ltac:(left)).
  - assert (Hhx : half_painted [(n, m)] X).
    { destruct S9 as [(_ & S9 & _)|(_ & -> & _)]; [|apply half_painted_refl]. apply painted_half. intros p a. rewrite S9. setoid_rewrite tracks_cons. setoid_rewrite tracks_nil. cbn [snd]. naive_solver. }
    destruct S9 as [(S9 & S10 & S11)|(S9 & SX & S10)], R7 as [(R7 & R8 & R9)|(R7 & R8 & R9)].
    + left. split; [by rewrite R7|]. split.
      * apply (painted_app [(n, m)] X B B'); [|done]. intros p a. rewrite S10. setoid_rewrite tracks_cons. setoid_rewrite tracks_nil. cbn [snd]. naive_solver.
      * intros p [[Hc Hi]|Hp]%Hpg; [|by apply R9]. rewrite R5. apply asked_app. left. by apply S11.
    + right. split; [done|]. split; [exact (half_painted_app [(n, m)] X _ _ Hhx R8)|]. destruct R9 as [R9|R9]; [by left|right]. rewrite all_ends_cons. mlia.
    + right. split; [by rewrite R7|]. split; [exact (half_painted_app [(n, m)] X _ _ Hhx (painted_half _ _ R8))|]. destruct S10 as [S10|S10]; [by left|right]. rewrite all_ends_cons. mlia.
    + right. split; [done|]. split; [exact (half_painted_app [(n, m)] X _ _ Hhx R8)|]. destruct S10 as [S10|S10]; [by left|right]. rewrite all_ends_cons. mlia.
Qed.

Lemma protect_loop_ok fuel : forall B A u, rep (p_maps u) (A ++ B) [] 0 -> wf (alive_pages (p_maps u)) -> (length B < fuel)%nat ->
  exists u' B', mprotect_loop sys_mprotect fuel addr size prot (hd 0 B.*1) u = Some u' /\ protected A B u u' B'.
Proof.
  induction fuel as [|fuel IH]; intros B A u HR Hwf Hl; [lia|].
  destruct B as [|[n m] B]; [exists u, []; split; [done|]; apply protected_none; [done|done|set_solver]|].
  cbn [fmap list_fmap hd fst mprotect_loop]. destruct (node_at _ _ _ _ _ _ _ HR) as [-> ->]. cbn [mbind option_bind].
  destruct (ordered_take _ _ _ (rep_order _ _ _ _ HR)) as (_ & Hok & _ & HB). cbn [snd] in Hok, HB. destruct (m_end_ok m Hok) as (_ & Hlt & _).
  unfold reaches. rewrite e_small by done. destruct (Z.leb_spec (m_addr m) (addr + size)) as [Hr|Hr]; cbn [negb].
  2: { exists u, ((n, m) :: B). split; [done|]. apply protected_none; [done|done|]. intros x Hx. apply elem_of_cons in Hx as [->|Hx]; [cbn; mlia|specialize (HB x Hx); mlia]. }
  cbn [length] in Hl.
  destruct (Z.ltb_spec (Z.max addr (m_addr m)) (Z.min (addr + size) (m_end m))) as [Hm|Hm]; cbn [negb].
  - destruct (one_protect_ok A n m B u HR Hwf Hm) as (u1 & X & -> & St). cbn [mbind option_bind].
    pose proof (ps_rep _ _ _ _ _ _ _ St) as HR1. destruct (ps_last _ _ _ _ _ _ _ St) as (X0 & m' & HX). rewrite HX in HR1.
    rewrite <- app_assoc in HR1. cbn [app] in HR1. rewrite app_assoc in HR1.
    pose proof (next_spec _ _ (n, m') _ _ _ HR1) as Hnx. cbn [fst] in Hnx. rewrite Hnx. cbn [mbind option_bind].
    destruct (IH B (A ++ X) u1) as (u' & B' & -> & HP).
    { rewrite HX. rewrite <- !app_assoc. rewrite <- app_assoc in HR1. exact HR1. }
    { apply (ps_wf _ _ _ _ _ _ _ St). }
    { lia. }
    exists u', (X ++ B'). split; [done|]. by eapply protected_step.
  - cbn [mbind option_bind]. pose proof (next_spec _ _ (n, m) _ _ _ HR) as Hnx. cbn [fst] in Hnx. rewrite Hnx. cbn [mbind option_bind].
    destruct (IH B (A ++ [(n, m)]) u) as (u' & B' & -> & HP); [by rewrite <- app_assoc|done|lia|].
    exists u', ((n, m) :: B'). split; [done|]. apply protected_skip; [done|unfold meets; mlia|done].
Qed.

(** The ends of the interval lie in at most one mapping each. *)
Lemma all_ends_two L : ordered L -> (all_ends L <= 2)%nat.
Proof.
  intros Ho. pose proof (at_most_one addr size Haa Hsz Hsa (fun x => m_addr x.2 < addr < m_end x.2) addr L Ho (fun _ K => K)) as H1.
  pose proof (at_most_one addr size Haa Hsz Hsa (fun x => m_addr x.2 < addr + size < m_end x.2) (addr + size) L Ho (fun _ K => K)) as H2.
  enough (all_ends L = Nat.add (length (filter (fun x : Z * Map => m_addr x.2 < addr < m_end x.2) L))
    (length (filter (fun x : Z * Map => m_addr x.2 < addr + size < m_end x.2) L))) as E by mlia.
  clear. induction L as [|[k m] L IH]; [done|]. rewrite all_ends_cons, IH, !filter_cons. cbn [snd]. unfold ends.
  repeat case_decide; cbn [length]; repeat match goal with |- context [if ?b then _ else _] => destruct b eqn:? end; cbn [length]; lia.
Qed.

(** The whole loop of [__mprotect] *)
Lemma protect_all_ok s L n : rep s L [] 0 -> wf (alive_pages s) -> start_at s addr = Some n ->
  exists u' L', mprotect_loop sys_mprotect (maps_fuel s) addr size prot n (mkProtect s 0 false []) = Some u' /\ protected [] L (mkProtect s 0 false []) u' L'.
Proof.
  intros HR Hwf Hst. destruct (start_ok addr s L _ _ HR) as (A & B & -> & Hst' & HA). rewrite Hst in Hst'. apply Some_inj in Hst' as ->.
  destruct (protect_loop_ok (maps_fuel s) B A (mkProtect s 0 false [])) as (u' & B' & -> & HP); [done|done|unfold maps_fuel; rewrite (rep_count _ _ _ _ HR), length_app; lia|].
  exists u', (A ++ B'). split; [done|].
  assert (Hc : forall x p, x ∈ A -> covers x.2 p -> ~ inside addr size p) by (intros x p Hx; specialize (HA x Hx); unfold covers, inside; mlia).
  pose proof (painted_apart A Hc) as Hpa.
  assert (Hpg : forall p, pages_of addr size (A ++ B) p <-> pages_of addr size B p).
  { intros p. unfold pages_of. setoid_rewrite elem_of_app. naive_solver. }
  destruct HP as [R1 R2 R3 R4 (t & R5 & R6) Rs R7]. split; try done.
  - intros p Hp Hd. destruct (R3 p Hp Hd) as [|(x & Hx & Hcx)]; [by left|right]. exists x. split; [apply elem_of_app; by right|done].
  - rewrite R4. setoid_rewrite elem_of_app. split; [naive_solver|]. intros [?|(x & [Hx|Hx] & Hm)]; [by left| |right; eauto].
    specialize (HA x Hx). unfold meets in Hm. mlia.
  - exists t. split; [done|]. intros p. rewrite Hpg. apply R6.
  - intros Hno. destruct Rs as [-> ->]; [|done]. intros x Hx. apply Hno, elem_of_app. by right.
  - destruct R7 as [(R7 & R8 & R9)|(R7 & R8 & R9)].
    + left. split; [done|]. split; [by apply painted_app|]. intros p. rewrite Hpg. apply R9.
    + right. split; [done|]. split; [apply half_painted_app; [by apply painted_half|done]|]. destruct R9 as [R9|R9]; [by left|right].
      enough (all_ends B <= all_ends (A ++ B))%nat by lia. clear. induction A as [|[k x] A IH]; [done|]. cbn [app]. rewrite all_ends_cons. lia.
Qed.
End Interval.

(** * The entry point *)

(** Arguments that describe pages of the address space *)
Definition page_interval (addr size : Z) : Prop :=
  0 <= addr /\ Z.land addr (pagesize - 1) = 0 /\ 0 < size /\ addr + up size <= 2 ^ 56.
Definition good_prot (prot : Z) : Prop :=
  Z.land prot (Z.lnot (Z.lor (Z.lor (Z.lor PROT_READ PROT_WRITE) PROT_EXEC) PROT_GUARD)) = 0.
#[export] Instance good_prot_dec prot : Decision (good_prot prot).
Proof. unfold good_prot. apply _. Defined.

Lemma page_aligned addr : Z.land addr (pagesize - 1) = 0 -> addr mod pagesize = 0.
Proof.
  clear sys_mprotect. destruct page_bits as (b & Hb & ->). intros H. rewrite <- (land_mask addr b) by lia. exact H.
Qed.

(** A page of the interval is tracked. *)
Definition touches (L : list (Z * Map)) (addr size : Z) : Prop := exists p a, tracks L p a /\ addr <= p < addr + up size.

Lemma half_painted_domain addr size prot L L' : half_painted addr size prot L L' -> forall p, (exists a, tracks L' p a) <-> (exists a, tracks L p a).
Proof. intros [H1 H2] p. split; intros [a Ht]; [apply H1 in Ht as (a0 & ? & _)|apply H2 in Ht as (a1 & ? & _)]; eauto. Qed.

Lemma mprotect_ok s L addr size prot :
  rep s L [] 0 -> sound s L -> page_interval addr size -> good_prot prot ->
  exists rc told s' L', mprotect PROT_GUARD sys_mprotect s addr size prot = Some (rc, told, s') /\ rep s' L' [] 0 /\
    ((touches L addr size /\ sound s' L' /\ (forall p, asked told p -> (exists a, tracks L p a) /\ addr <= p < addr + up size) /\
      ((rc = 0 /\ painted addr (up size) prot L L' /\
        forall p, (exists a, tracks L p a) -> addr <= p < addr + up size -> asked told p) \/
       (rc = -1 /\ half_painted addr (up size) prot L L' /\ ((exists x n, sys_mprotect x n prot <> 0) \/ (spare s < 2)%nat)))) \/
     (~ touches L addr size /\ rc = sys_mprotect addr (up size) prot /\ told = [(addr, up size)] /\ L' = L)).
Proof.
  intros HR Hsd (Ha & Haa & Hs & Hl) Hpr. pose proof (up_bounds size) as Hu. pose proof (up_aligned size) as Hua.
  unfold mprotect, __mprotect. rewrite Hpr. cbn [Z.eqb negb]. rewrite (proj2 (Z.eqb_neq size 0)) by mlia. rewrite Haa. cbn [Z.eqb negb orb].
  apply page_aligned in Haa. rewrite u64_small, (proj2 (Z.ltb_ge _ _)) by mlia. rewrite PGUP_up by mlia.
  assert (Hup : 0 < up size) by mlia. assert (Hlim : addr + up size <= 2 ^ 57) by mlia.
  destruct (start_ok addr s L _ _ HR) as (A & B & HL & Hst & _). rewrite Hst. cbn [mbind option_bind].
  destruct (protect_all_ok addr (up size) prot Ha Haa Hup Hua Hlim s L _ HR (proj1 Hsd) Hst) as (u & L' & -> & [R1 R2 R3 R4 (t & R5 & R6) Rs R7]).
  cbn [mbind option_bind p_told p_found p_rc p_maps app] in *. clear A B HL Hst.
  pose proof (meets_tracks L addr (up size) (rep_order _ _ _ _ HR) Hup) as Hmt.
  assert (Hpg : forall p, pages_of addr (up size) L p <-> (exists a, tracks L p a) /\ addr <= p < addr + up size).
  { intros p. unfold pages_of, tracks, inside. split; [intros (x & Hx & Hc & Hi); split; [|done]; exists (attr x.2 p), x; done|]. intros [(a & x & Hx & Hc & _) Hi]. by exists x. }
  destruct (p_found u) eqn:Hf; cbn [negb].
  - destruct (proj1 R4 eq_refl) as [|Ht]; [done|]. rewrite Hmt in Ht. rewrite R5 in *.
    assert (Hhalf : half_painted addr (up size) prot L L') by (destruct R7 as [(_ & R7 & _)|(_ & R7 & _)]; [by apply painted_half|done]).
    exists (p_rc u), t, (p_maps u), L'. split; [done|]. split; [done|]. left. split; [done|]. split; [|split].
    + split; [done|]. intros p Hp Hd. apply (half_painted_domain _ _ _ _ _ Hhalf). destruct (R3 p Hp Hd) as [Hd'|(x & Hx & Hc)]; [by apply Hsd|].
      exists (attr x.2 p), x. done.
    + intros p Hp. apply Hpg. by apply R6.
    + destruct R7 as [(R7 & R8 & R9)|(R7 & R8 & R9)].
      * left. split; [done|]. split; [done|]. intros p Hp Hi. apply R9, Hpg. done.
      * right. split; [done|]. split; [done|]. destruct R9 as [R9|R9]; [by left|right].
        pose proof (all_ends_two addr (up size) prot Haa Hup Hua L (rep_order _ _ _ _ HR)). mlia.
  - assert (Hnt : ~ touches L addr size).
    { unfold touches. rewrite <- Hmt. intros Ht. assert (false = true) by (apply R4; by right). done. }
    destruct Rs as [-> ->]. { intros x Hx Hm. apply Hnt, Hmt. eauto. }
    destruct (chunk_ok addr (up size) prot s) as (a' & E & _ & _); [done|done|done|rewrite up_id by done; mlia|done|]. cbn [p_maps p_told app]. rewrite E. cbn [mbind option_bind].
    eexists _, _, _, L. split; [done|]. split; [by apply rep_alive|]. by right.
Qed.

End Facts.

(** * Examples *)

Definition ok_mprotect (addr size prot : Z) : Z := 0.


(** The protections of the pages of a mapping of four pages after [mprotect] of the second one. *)
Example mprotect_splits :
  (s ← __maps_track (blank 4) 65536 16384 3 34;
   '(rc, told, s) ← mprotect 0 ok_mprotect s.2 69632 4096 1;
   prots ← mapM (fun p => n ← __maps_floor s p; m ← objs s !! n; Some (m_addr m, m_size m, m_prot m)) [65536; 69632; 73728; 77824];
   Some (rc, told, count s, prots)) =
  Some (0, [(69632, 4096)], 3, [(65536, 4096, 3); (69632, 4096, 1); (73728, 8192, 3); (73728, 8192, 3)]).
Proof. vm_compute. reflexivity. Qed.

(** An empty interval is no error. *)
Theorem mprotect_empty_succeeds s addr : mprotect 0 ok_mprotect (s : Maps TS) addr 0 PROT_READ = Some (0, [], s).
Proof. done. Qed.
