(* ===== verification/MmapFacts.v ===== *)
(** [mmap] is a map update: where the system gives pages, they are tracked with the protection
    and flags asked for, a fixed mapping replaces what was there, and nothing else changes. *)
From S2P Require Import Prelude NodeTree Tree TreeInstance PageTable PageTableFacts Maps MapsFacts MapsUntrack MapsCorrect Mmap Mprotect MprotectFacts.
From stdpp Require Import list gmap sorting.
#[local] Open Scope Z_scope.

Section Facts.
Context {ST : Type} {Hops : NodeTree ST} {Hlaws : NodeTreeLaws ST} {P : Platform} {GP : GoodPlatform} {Sy : System}.

(** Mappings that track no page of the interval do not meet it. *)
Lemma cleared_free addr size L L' : ordered L' -> 0 < size -> cleared addr size L L' -> forall x, x ∈ L' -> ~ meets addr (up size) x.2.
Proof.
  intros Ho Hs Hc x Hx Hm. pose proof (up_bounds size). assert (0 < up size) as Hu by lia. destruct (proj1 (meets_tracks L' addr (up size) Ho Hu)) as (p & a & Ht & Hp); [by exists x|].
  by apply Hc in Ht as [_ ?].
Qed.
Lemma free_apart m L : ok_map m -> ordered L -> (forall x, x ∈ L -> ~ meets (m_addr m) (up (m_size m)) x.2) -> apart m L.
Proof.
  intros Hm [_ Ho] H. destruct (m_end_ok m Hm) as (He & ? & _). apply Forall_forall. intros x Hx. specialize (H x Hx). rewrite Forall_forall in Ho.
  destruct (m_end_ok _ (Ho x Hx)) as (_ & ? & _). unfold meets in H. rewrite He. lia.
Qed.

Lemma track_mapping_ok s L n r size prot flags off : rep s L [n] 0 -> 0 <= r -> r mod pagesize = 0 -> 0 < size -> r + up size <= 2 ^ 56 ->
  (if is_fixed flags then freed s ++ supply s <> [] else forall x, x ∈ L -> ~ meets r (up size) x.2) ->
  exists s' L', track_mapping s n r size prot flags off = Some s' /\ rep s' L' [] 0 /\ alive_pages s' = alive_pages s /\
    forall p a, tracks L' p a <-> (tracks L p a /\ (is_fixed flags = true -> ~ (r <= p < r + up size))) \/ tracked_as r size prot flags off p a.
Proof.
  intros HR Hr Hra Hs Hl Hcase. unfold track_mapping. set (m := mkMap r size off flags prot (-1)).
  assert (ok_map m) as Hok by done. destruct (m_end_ok m Hok) as (He & _). cbn [m m_addr m_size] in He.
  pose proof (rep_write _ _ _ _ _ m HR ltac:(done)) as HR1. set (s1 := set_obj n m s) in *.
  assert (objs s1 !! n = Some m) as Hn by apply lookup_insert_eq.
  assert (exists s2 D L2, (if is_fixed flags then u ← __muntrack false s1 r size; Some (u_maps u, u_deleted u) else Some (s1, [])) = Some (s2, D) /\
    rep s2 L2 (n :: D) 0 /\ objs s2 !! n = Some m /\ alive_pages s2 = alive_pages s /\ (forall x, x ∈ L2 -> ~ meets r (up size) x.2) /\
    forall p a, tracks L2 p a <-> tracks L p a /\ (is_fixed flags = true -> ~ (r <= p < r + up size))) as (s2 & D & L2 & -> & HR2 & Hn2 & Hal2 & Hfree & Htr).
  { destruct (is_fixed flags) eqn:Ef; [|exists s1, [], L; split_and!; try done; naive_solver].
    assert (r + up size <= 2 ^ 57) as Hl' by mlia. destruct (muntrack_ok false s1 L [n] r size HR1 Hr Hra Hs Hl') as (u & L2 & -> & (R1 & R2 & Rh & _ & _ & R3) & _). cbn [mbind option_bind].
    destruct R3 as [(_ & R3 & _)|(_ & _ & Hfr & Hsu & _)]; [|exfalso; apply Hcase; cbn in Hfr, Hsu; by rewrite Hfr, Hsu].
    exists (u_maps u), (u_deleted u), L2. split; [done|]. split; [eapply rep_perm; [|exact R1]; solve_Permutation|].
    split; [rewrite Rh by set_solver; exact Hn|]. split; [exact R2|]. split; [|unfold inside in R3; naive_solver].
    eapply cleared_free; [apply (rep_order _ _ _ _ R1)|done|exact R3]. }
  cbn [mbind option_bind]. destruct (maps_insert_ok s2 L2 n m D 0 HR2 Hn2 Hok) as (s3 & L3 & -> & HR3 & Hal3 & Htr3); [by apply free_apart; [|apply (rep_order _ _ _ _ HR2)|]|].
  cbn [mbind option_bind]. destruct (free_all_ok [] D s3 L3 0) as (s4 & -> & HR4 & Hal4); [by rewrite app_nil_r|].
  exists s4, L3. split; [done|]. split; [done|]. split; [by rewrite Hal4, Hal3|].
  intros p a. rewrite Htr3, Htr. unfold tracked_as, covers, attr, anonymous. rewrite He. cbn [m m_addr m_flags m_prot m_off]. destruct (Z.land flags MAP_ANONYMOUS =? 0); cbn [negb]; naive_solver.
Qed.

(** What is known of the system call: it gives whole pages of the address space; with
    [MAP_FIXED] at the address asked for, and otherwise where nothing is mapped. *)
Definition os_ok (L : list (Z * Map)) (flags size : Z) (sys_mmap : sys_call) : Prop :=
  forall addr prot sysflags fd off r, sys_mmap addr size prot sysflags fd off = inl r ->
    0 <= r /\ r mod pagesize = 0 /\ r + up size <= 2 ^ 56 /\
    if is_fixed flags then r = addr else forall x, x ∈ L -> ~ meets r (up size) x.2.
Lemma try_mmap_ok L flags size sys_mmap hint noreplace addr prot sysflags fd off r : os_ok L flags size sys_mmap ->
  try_mmap sys_mmap hint noreplace addr size prot sysflags fd off = inl r ->
  0 <= r /\ r mod pagesize = 0 /\ r + up size <= 2 ^ 56 /\ if is_fixed flags then r = addr else forall x, x ∈ L -> ~ meets r (up size) x.2.
Proof.
  intros Hos. unfold try_mmap. destruct (sys_mmap addr size prot sysflags fd off) as [r'|e] eqn:E; [intros [= ->]; by eapply Hos|].
  destruct (_ && _); [|done]. destruct noreplace; [done|]. destruct hint; [|done]. intros E'. by eapply Hos.
Qed.

Lemma sparse_size size rand : 0 < size <= MAX_SIZE -> 0 < (__maps_sparse size rand).1 <= 2 ^ 56.
Proof.
  intros Hs. unfold MAX_SIZE in Hs. unfold __maps_sparse. destruct (__maps_rand rand) as [r rand'] eqn:Er. cbn [fst].
  destruct gran_pages as (_ & g & Hg & Hgg). destruct (page_size g Hg) as [Hgs _]. rewrite Hgg, page_land by done. unfold page.
  pose proof (Z.mod_pos_bound r SPARSE_RANDPAD ltac:(done)) as Hr. unfold SPARSE_RANDPAD, SPARSE_GROWTH, SPARSE_MINIMUM in *. rewrite (u64_small (size * 8)) by lia.
  set (z := if size * 8 <? 2097152 then _ else _). assert (2097152 <= z <= 2 ^ 48) as Hz by (unfold z; destruct (Z.ltb_spec (size * 8) 2097152); lia). rewrite u64_small by lia.
  set (x := z + r mod 2097152) in *. assert (2 ^ 20 < x <= 2 ^ 49) as Hx by (unfold x; lia). clearbody x. clear -Hx Hgs. set (G := 2 ^ g) in *.
  assert (G <> 0) as HG by lia. pose proof (Z.mod_pos_bound x G (proj1 Hgs)). pose proof (Z.div_mod x G HG). lia.
Qed.

(** The offset that is recorded *)
Definition file_off (flags off : Z) : Z := if has flags MAP_ANONYMOUS then 0 else off.
(** What [mmap] makes of the mappings [L]: the new mapping is added, replacing what a fixed one
    is put on; or nothing is changed, and only pages the system has just given are unmapped. *)
Definition outcome (L : list (Z * Map)) (addr size prot flags off : Z) (res : Z + error) (told : list (Z * Z)) (L' : list (Z * Map)) : Prop :=
  match res with
  | inl r => told = [] /\ 0 <= r /\ r mod pagesize = 0 /\ r + up size <= 2 ^ 56 /\
      (addr <> 0 -> is_fixed flags || is_noreplace flags = true -> r = addr) /\
      forall p a, tracks L' p a <->
        (tracks L p a /\ (is_fixed flags = true -> ~ (r <= p < r + up size))) \/ tracked_as r size prot flags (file_off flags off) p a
  | inr _ => L' = L /\ forall p, asked told p -> ~ exists a, tracks L p a
  end.

Lemma none_asked p : asked [] p -> False.
Proof. intros (f & Hf & _). set_solver. Qed.
Lemma outcome_fail L addr size prot flags off e : outcome L addr size prot flags off (inr e) [] L.
Proof. split; [done|]. by intros p ?%none_asked. Qed.

Section Call.
Context (sys_mmap : sys_call) (s : Maps ST) (L : list (Z * Map)) (size flags : Z).
Hypothesis HR : rep s L [] 0.
Hypothesis Hsz : 0 < size <= MAX_SIZE.
Hypothesis Hos : os_ok L flags size sys_mmap.
(** Systems that want sparse addresses need a mapping to start from, and a fixed mapping may
    need a second structure. *)
Hypothesis Hsp : MMAP_IS_SPARSE = true -> L <> [].
Hypothesis Hfx : is_fixed flags = true -> (2 <= length (freed s ++ supply s))%nat.

Lemma one_asked r p : (forall x, x ∈ L -> ~ meets r (up size) x.2) -> asked [(r, size)] p -> ~ exists a, tracks L p a.
Proof.
  intros Hfree (f & ->%list_elem_of_singleton & Hp) [a (x & Hx & Hc & _)]. apply (Hfree x Hx). unfold piece, covers, meets in *. cbn [fst snd] in Hp. lia.
Qed.
(** The address the system is asked for *)
Lemma pick_ok (s1 : Maps ST) D rand addr : rep s1 L D 0 -> exists addr' rand', (if MMAP_IS_SPARSE && negb (is_fixed flags) && (addr =? 0)
     then let '(sz, rand) := __maps_sparse size rand in addr ← __maps_pickaddr s1 sz; Some (addr, rand) else Some (addr, rand)) = Some (addr', rand') /\
     (is_fixed flags = true \/ addr <> 0 -> addr' = addr).
Proof.
  intros HR1. destruct MMAP_IS_SPARSE eqn:E1; [|by exists addr, rand]. destruct (is_fixed flags); [by exists addr, rand|]. destruct (Z.eqb_spec addr 0) as [->|]; [|by exists addr, rand].
  cbn [andb negb]. pose proof (sparse_size size rand Hsz) as Hsp'. destruct (__maps_sparse size rand) as [sz rand']. cbn [fst] in Hsp'.
  destruct (pickaddr_ok s1 L D 0 sz HR1 (Hsp eq_refl) Hsp') as (a & -> & _). exists a, rand'. split; [done|]. by intros [?|?].
Qed.

Lemma mmap_impl_ok rand addr prot fd off :
  exists res told s' rand' L', __mmap_impl sys_mmap addr size prot flags fd off (s, rand) = Some (res, told, (s', rand')) /\
    rep s' L' [] 0 /\ alive_pages s' = alive_pages s /\ outcome L addr size prot flags off res told L'.
Proof.
  unfold __mmap_impl. cbv zeta. destruct (negb _ && _); [exists (inr EINVAL), [], s, rand, L; split_and!; try done; apply outcome_fail|].
  destruct (alloc_ok _ _ _ _ HR) as [(n & s1 & lm & Ea & Hn & HR1 & Hlm & _ & Hal & _)|(-> & _)]; [|exists (inr alloc_error), [], s, rand, L; split_and!; try done; apply outcome_fail].
  assert (is_fixed flags = true -> freed s1 ++ supply s1 <> []) as Hfx1.
  { intros Hf. specialize (Hfx Hf). unfold __maps_alloc in Ea. destruct (freed s) as [|k l] eqn:Efr; [destruct (supply s) as [|k l]; [cbn in Hfx; lia|]|]; injection Ea as <- <-; cbn.
    - cbn in Hfx. intros ->. cbn in Hfx. lia.
    - cbn in Hfx. intros E. rewrite E in Hfx. cbn in Hfx. lia. }
  rewrite Ea, Hn. destruct (rep_free _ _ _ _ _ HR1) as (s2 & Hs2 & HR2 & _ & Hal2 & _). rewrite Hs2. cbn [mbind option_bind]. assert (alive_pages s2 = alive_pages s) as Hal2' by (by rewrite Hal2, Hal).
  destruct (is_noreplace flags && has flags MAP_FIXED); [exists (inr EINVAL), [], s2, rand, L; split_and!; try done; apply outcome_fail|].
  destruct (pick_ok s1 [n] rand addr HR1) as (addr' & rand' & -> & Had). cbn [mbind option_bind].
  destruct (try_mmap _ _ _ _ _ _ _ _ _) as [r|e] eqn:Et; [|exists (inr e), [], s2, rand', L; split_and!; try done; apply outcome_fail].
  destruct (try_mmap_ok _ _ _ _ _ _ _ _ _ _ _ _ Hos Et) as (Hr & Hra & Hrl & Hcase).
  destruct (is_noreplace flags && negb (r =? addr')) eqn:Enr.
  - exists (inr EEXIST), [(r, size)], s2, rand', L. split_and!; try done. split; [done|]. intros p. apply one_asked. unfold is_fixed in Hcase. apply andb_true_iff in Enr as [Enr _]. by rewrite Enr in Hcase.
  - destruct (track_mapping_ok s1 L n r size prot flags (file_off flags off) HR1 Hr Hra (proj1 Hsz) Hrl) as (s3 & L3 & E3 & HR3 & Hal3 & Htr); [destruct (is_fixed flags); [by apply Hfx1|done]|].
    unfold file_off in E3 at 1. rewrite E3. cbn [mbind option_bind]. exists (inl r), [], s3, rand', L3. split; [done|]. split; [done|]. split; [by rewrite Hal3, Hal|].
    split; [done|]. split; [done|]. split; [done|]. split; [done|]. split; [|done]. intros Hne Hor. destruct (is_fixed flags) eqn:Ef; [rewrite Hcase; apply Had; by left|].
    cbn [orb] in Hor. rewrite Hor in Enr. cbn [andb] in Enr. apply negb_false_iff, Z.eqb_eq in Enr. rewrite Enr. apply Had. by right.
Qed.
End Call.

(** * Correctness *)

(** What the program relies on the system for: it gives whole pages of the address space; with
    [MAP_FIXED] at the address asked for, and otherwise where nothing is mapped. *)
Definition os_contract (s : Maps ST) (flags size : Z) (sys_mmap : sys_call) : Prop :=
  forall addr prot sysflags fd off r, sys_mmap addr size prot sysflags fd off = inl r ->
    0 <= r /\ Z.land r (gransize - 1) = 0 /\ r + up size <= 2 ^ 56 /\ if is_fixed flags then r = addr else __maps_overlaps s r size = Some false.
Lemma contract_ok s L D e flags size sys_mmap : rep s L D e -> 0 < size -> os_contract s flags size sys_mmap -> os_ok L flags size sys_mmap.
Proof.
  intros HR Hs H addr prot sysflags fd off r E. destruct (H _ _ _ _ _ _ E) as (H1 & H2 & H3 & H4). split_and!; try done; [by apply gran_aligned|].
  destruct (is_fixed flags); [done|]. by eapply overlaps_free.
Qed.
(** What a call of [mmap] needs: systems that want sparse addresses need a mapping to start
    from, and a fixed mapping may need two structures. *)
Definition can_map (s : Maps ST) (flags : Z) : Prop :=
  (MMAP_IS_SPARSE = true -> 0 < count s) /\ (is_fixed flags = true -> (2 <= length (freed s ++ supply s))%nat).

Lemma has_lor flags f g : has flags (Z.lor f g) = has flags f || has flags g.
Proof.
  unfold has. rewrite Z.land_lor_distr_r. destruct (Z.eqb_spec (Z.land flags f) 0) as [->|Hf]; [by rewrite Z.lor_0_l|].
  destruct (Z.eqb_spec (Z.lor (Z.land flags f) (Z.land flags g)) 0) as [E|]; [|done]. by apply Z.lor_eq_0_iff in E as [? _].
Qed.
Lemma outcome_addr L addr addr' size prot flags off res told L' : (res <> inr EPERM -> is_fixed flags || is_noreplace flags = true -> addr' = addr /\ addr' <> 0) ->
  outcome L addr' size prot flags off res told L' -> outcome L addr size prot flags off res told L'.
Proof.
  intros H. destruct res as [r|e]; [|done]. intros (H1 & H2 & H3 & H4 & H5 & H6). split_and!; try done. intros Hne Ho. destruct (H ltac:(done) Ho) as [<- Hne']. by apply H5.
Qed.

Section Mmap.
Context (is_zip : Z -> bool) (zipos_mmap : Z -> Z -> Z -> Z -> Z -> Z -> Maps ST * Z -> option ((Z + error) * list (Z * Z) * (Maps ST * Z))).

Lemma mmap2_ok sys_mmap s L rand addr size prot flags fd off :
  rep s L [] 0 -> 0 <= size -> is_zip fd = false -> can_map s flags -> os_contract s flags size sys_mmap ->
  exists res told s' rand' L', __mmap is_zip zipos_mmap sys_mmap addr size prot flags fd off (s, rand) = Some (res, told, (s', rand')) /\
    rep s' L' [] 0 /\ alive_pages s' = alive_pages s /\ outcome L addr size prot flags off res told L' /\ (forall r, res = inl r -> 0 < size).
Proof.
  intros HR Hs Hz [Hsp Hfx] Hos. unfold __mmap. set (addr' := if has addr _ then 0 else addr).
  assert (forall e, exists res told s' rand' L', Some (inr e, [], (s, rand)) = Some (res, told, (s', rand')) /\
    rep s' L' [] 0 /\ alive_pages s' = alive_pages s /\ outcome L addr size prot flags off res told L' /\ (forall r, res = inl r -> 0 < size)) as Hfail.
  { intros e. exists (inr e), [], s, rand, L. split_and!; try done. apply outcome_fail. }
  destruct ((addr' =? 0) && _) eqn:E1; [apply Hfail|]. destruct (s64 addr' <? 0); [apply Hfail|]. destruct (Z.eqb_spec size 0) as [|Hs0]; [apply Hfail|]. cbn [orb].
  destruct (u64 (addr' + size) <? size); [apply Hfail|]. destruct (Z.ltb_spec MAX_SIZE size) as [|Hm]; [apply Hfail|]. destruct (_ <? _); [apply Hfail|]. rewrite Hz.
  destruct (mmap_impl_ok sys_mmap s L size flags HR ltac:(lia)) with (rand := rand) (addr := addr') (prot := prot) (fd := fd) (off := off)
    as (res & told & s' & rand' & L' & E & HR' & Hal & Ho).
  - eapply contract_ok; [done|lia|done].
  - intros Hsp'. specialize (Hsp Hsp'). rewrite (rep_count _ _ _ _ HR) in Hsp. by destruct L.
  - done.
  - exists res, told, s', rand', L'. split_and!; try done; [|intros; lia]. eapply outcome_addr; [|done]. intros _ Hor.
    assert (has flags (Z.lor MAP_FIXED MAP_FIXED_NOREPLACE) = true) as Hh.
    { rewrite has_lor. unfold is_fixed, is_noreplace in Hor. destruct (has flags MAP_FIXED_NOREPLACE), (has flags MAP_FIXED); done. }
    rewrite Hh, andb_true_r in E1. apply Z.eqb_neq in E1. split; [|done]. unfold addr' in *. by destruct (has addr _).
Qed.
Lemma mmap_ok sys_mmap s L rand addr size prot flags fd off :
  rep s L [] 0 -> sound s L -> 0 <= size -> is_zip fd = false -> can_map s flags -> os_contract s flags size sys_mmap ->
  exists res told s' rand' L', mmap is_zip zipos_mmap sys_mmap addr size prot flags fd off (s, rand) = Some (res, told, (s', rand')) /\
    rep s' L' [] 0 /\ sound s' L' /\ outcome L addr size prot flags off res told L'.
Proof.
  intros HR [Hwf Hsd] Hs Hz Hc Hos. destruct (mmap2_ok sys_mmap s L rand addr size prot flags fd off HR Hs Hz Hc Hos) as (res & told & s' & rand' & L' & E & HR' & Hal & Ho & Hs0).
  unfold mmap. rewrite E. cbn [mbind option_bind]. destruct res as [r|e].
  - specialize (Hs0 r eq_refl). destruct Ho as (H1 & Hr & Hra & Hrl & H5 & H6). rewrite Hal.
    assert (exists a', (if has prot (Z.lor PROT_READ PROT_WRITE) then __maps_mark pagesize r size (alive_pages s) else __maps_unmark pagesize r size (alive_pages s)) = Some a' /\ wf a' /\
      forall p, 0 <= p < 2 ^ 57 -> kisdangerous pagesize p a' = false -> kisdangerous pagesize p (alive_pages s) = false \/ r <= p < r + up size) as (a' & -> & Hwf' & Ha').
    { destruct (has prot _).
      - destruct (alive_mark r size (alive_pages s)) as (a' & E1 & W1 & _ & W2 & _); try done; [mlia|]. by exists a'.
      - destruct (alive_unmark r size (alive_pages s)) as (a' & E1 & W1 & W2); try done; [mlia|]. exists a'. split_and!; try done. intros p Hp Hd. left. by apply W2 in Hd as [? _]. }
    cbn [mbind option_bind]. exists (inl r), told, (set_alive a' s'), rand', L'. split; [done|]. split; [by apply rep_alive|]. split; [|done]. split; [done|].
    intros p Hp Hd. destruct (decide (r <= p < r + up size)) as [Hin|Hin]; [eexists; apply H6; right; split; [done|reflexivity]|].
    destruct (Ha' p Hp Hd) as [Hd'|]; [|done]. destruct (Hsd p Hp Hd') as [a Hta]. exists a. apply H6. by left.
  - exists (inr e), told, s', rand', L'. split_and!; try done. destruct Ho as [-> _]. split; [by rewrite Hal|]. rewrite Hal. apply Hsd.
Qed.


(** The states the entry points lead to *)
Inductive reachable : Maps ST * Z -> Prop :=
| reach_init s rand n : rep s [] [] 0 -> alive_pages s = mkAlive None n -> reachable (s, rand)
| reach_track s rand addr size prot flags r s' : reachable (s, rand) -> valid_interval addr size -> __maps_overlaps s addr size = Some false ->
    __maps_track s addr size prot flags = Some (r, s') -> reachable (s', rand)
| reach_untrack s rand addr size rc s' : reachable (s, rand) -> valid_interval addr size -> __maps_untrack s addr size = Some (rc, s') -> reachable (s', rand)
| reach_mmap s rand sys_mmap addr size prot flags fd off res told s' rand' : reachable (s, rand) -> 0 <= size -> is_zip fd = false ->
    can_map s flags -> os_contract s flags size sys_mmap ->
    mmap is_zip zipos_mmap sys_mmap addr size prot flags fd off (s, rand) = Some (res, told, (s', rand')) -> reachable (s', rand')
| reach_munmap s rand sys_munmap addr size rc told s' : reachable (s, rand) -> valid_interval addr size ->
    __munmap sys_munmap s addr size = Some (rc, told, s') -> reachable (s', rand)
| reach_mprotect s rand PROT_GUARD sys_mprotect addr size prot rc told s' : reachable (s, rand) -> page_interval addr size -> good_prot PROT_GUARD prot ->
    __maps_overlaps s addr size = Some true -> mprotect PROT_GUARD sys_mprotect s addr size prot = Some (rc, told, s') -> reachable (s', rand).

Lemma overlaps_touches s L addr size : rep s L [] 0 -> page_interval addr size -> __maps_overlaps s addr size = Some true -> touches L addr size.
Proof.
  intros HR (Ha & Haa%page_aligned & Hs & Hl) Hov. pose proof (up_bounds size) as Hu.
  destruct (overlaps_ok s L [] 0 addr size HR Ha Haa Hs) as (b & E & Hb); [mlia|]. rewrite Hov in E. injection E as <-.
  assert (Hup : 0 < up size) by mlia. apply (proj1 (meets_tracks L addr (up size) (rep_order _ _ _ _ HR) Hup)). by apply Hb.
Qed.

Lemma reachable_inv st : reachable st -> exists L, rep st.1 L [] 0 /\ sound st.1 L.
Proof.
  induction 1 as [s rand n HR Ha|s rand addr size prot flags r s' _ (L & HR & Hsd) Hv E Et|s rand addr size rc s' _ (L & HR & Hsd) Hv Et
    |s rand sys addr size prot flags fd off res told s' rand' _ (L & HR & Hsd) Hs Hz Hc Hos Et|s rand sys addr size rc told s' _ (L & HR & Hsd) Hv Et
    |s rand guard sys addr size prot rc told s' _ (L & HR & Hsd) Hv Hg Hov Et]; cbn [fst] in *.
  - exists []. split; [done|]. split; [by rewrite Ha|]. by rewrite Ha.
  - pose proof (overlaps_free _ _ _ _ _ _ HR Hv E). destruct Hv as (Ha & Haa%gran_aligned & Hs & Hl).
    destruct (maps_track_ok s L addr size prot flags) as [(s2 & L' & off & E2 & HR' & Hsd' & _)|(E2 & _)]; try done; rewrite Et in E2; injection E2 as -> ->; eauto.
  - destruct Hv as (Ha & Haa%gran_aligned & Hs & Hl). destruct (maps_untrack_ok s L addr size) as (rc2 & s2 & L' & E2 & HR' & Hsd' & _); try done; [mlia|].
    rewrite Et in E2. injection E2 as -> ->. eauto.
  - destruct (mmap_ok sys s L rand addr size prot flags fd off HR Hsd Hs Hz Hc Hos) as (res2 & told2 & s2 & rand2 & L' & E2 & HR' & Hsd' & _).
    rewrite Et in E2. injection E2 as -> -> -> ->. eauto.
  - destruct Hv as (Ha & Hga & Hs & Hl). destruct (munmap_ok sys s L addr size) as (rc2 & told2 & s2 & L' & E2 & HR' & Hsd' & _); try done; [mlia|].
    rewrite Et in E2. injection E2 as -> -> ->. eauto.
  - destruct (mprotect_ok guard sys s L addr size prot HR Hsd Hv Hg) as (rc2 & told2 & s2 & L' & E2 & HR' & [(_ & Hsd' & _)|(Hn & _)]).
    + rewrite Et in E2. injection E2 as -> -> ->. eauto.
    + exfalso. apply Hn. by apply (overlaps_touches s L).
Qed.

End Mmap.

End Facts.

(** * Examples *)

#[export] Instance linux_system : System := {
  IsLinux := true; IsFreebsd := false; IsNetbsd := false; IsXnu := false; IsOpenbsd := false; alloc_error := ENOMEM; rlim_cur := 0 }.
Definition no_zip (fd : Z) : bool := false.
Definition zip0 (addr size prot flags fd off : Z) (st : Maps TS * Z) : option ((Z + error) * list (Z * Z) * (Maps TS * Z)) := None.
(** A system that maps at 65536 *)
Definition give (addr size prot flags fd off : Z) : Z + error := inl 65536.
Lemma give_ok : os_contract (blank 4) 34 16384 give.
Proof. intros addr prot sysflags fd off r [= <-]. repeat split; vm_compute; congruence. Qed.
Lemma blank_can_map : can_map (blank 4) 34.
Proof. split; [done|]. vm_compute. congruence. Qed.

