(* ===== verification/Mremap.v ===== *)
(** [mremap] of [libc/intrin/mmap.c] on systems other than Windows: through the system call of
    Linux and NetBSD, and the polyfill elsewhere, which grows a mapping in place by mapping the
    pages behind it.

    As in [Mmap], system calls are parameters, and a result comes with the intervals passed
    to [sys_munmap] and the state of the manager and of its random numbers. *)
From S2P Require Export Mmap.

Definition MREMAP_MAYMOVE : Z := 1.
Definition MREMAP_FIXED : Z := 2.

Section Mremap.
Context {ST : Type} `{!NodeTree ST} `{!Platform} `{!System}.
Notation St := (Maps ST * Z)%type.
Notation Result := (option ((Z + error) * list (Z * Z) * St)).

(** [__maps_isalloc] *)
Definition __maps_isalloc (m : Map) : bool := negb (m_hand m =? MAPS_SUBREGION).

(** The loop of [__mremap_polyfill_check]: the mappings from [n] on are contiguous and the last
    one ends at [e]; gives its flags and protection in one word. *)
Fixpoint polyfill_check_loop (fuel : nat) (s : Maps ST) (e n : Z) : option (Z + error) :=
  match fuel with
  | O => None
  | S fuel =>
      m ← objs s !! n;
      let prot := m_prot m in
      let flags := Z.land (m_flags m) MAP_TYPE in
      let m_end := u64 (m_addr m + m_size m) in
      if m_end =? e then Some (inl (Z.lor (Z.shiftl flags 32) prot))
      else if e <? m_end then Some (inr ENOMEM)
      else
        next ← __maps_next s n;
        if next =? 0 then Some (inr EFAULT)
        else
          m' ← objs s !! next;
          if negb (m_end =? m_addr m') then Some (inr EFAULT) else polyfill_check_loop fuel s e next
  end.
Definition __mremap_polyfill_check (s : Maps ST) (addr old_size : Z) : option (Z + error) :=
  base ← __maps_floor s addr;
  if base =? 0 then Some (inr EFAULT)
  else
    m ← objs s !! base;
    if negb ((m_addr m <=? addr) && (addr <? u64 (m_addr m + m_size m))) then Some (inr EFAULT)
    else if negb (anonymous m) || (Z.land (m_flags m) MAP_TYPE =? MAP_SHARED) then Some (inr EINVAL)
    else if negb (__maps_isalloc m) then Some (inr EFAULT)
    else polyfill_check_loop (maps_fuel s) s (u64 (addr + old_size)) base.

Definition __mremap_polyfill_impl (sys_mmap : sys_call) (addr old_size new_size : Z) (st : St) : Result :=
  rc ← __mremap_polyfill_check st.1 addr old_size;
  match rc with
  | inr e => Some (inr e, [], st)
  | inl rc =>
      let flags := Z.shiftr rc 32 in
      let prot := s32 rc in
      '(res, told, st) ← __mmap_impl sys_mmap (u64 (addr + old_size)) (u64 (new_size - old_size)) prot
                           (Z.lor (Z.lor flags MAP_ANONYMOUS) MAP_FIXED_NOREPLACE) (-1) 0 st;
      match res with
      | inr _ => Some (inr ENOMEM, told, st)
      | inl _ => Some (inl addr, told, st)
      end
  end.

(** [__munmap] in the middle of an operation; the error it leaves in [errno] is not told apart. *)
Definition unmap_part (sys_munmap : Z -> Z -> Z) (addr size : Z) (st : St) : option (Z * list (Z * Z) * St) :=
  '(rc, told, s) ← __munmap sys_munmap st.1 addr size; Some (rc, told, (s, st.2)).

Definition __mremap_polyfill (sys_mmap : sys_call) (sys_munmap : Z -> Z -> Z) (addr old_size new_size flags : Z) (st : St) : Result :=
  let new_size := PGUP new_size in
  if has flags (Z.lnot MREMAP_MAYMOVE) then Some (inr EINVAL, [], st)
  else if has old_size (gransize - 1) then Some (inr EINVAL, [], st)
  else if has new_size (gransize - 1) then Some (inr EINVAL, [], st)
  else if new_size <? old_size then
    '(rc, told, st) ← unmap_part sys_munmap (u64 (addr + new_size)) (old_size - new_size) st;
    Some (if rc =? 0 then inl addr else inr (errno_of rc), told, st)
  else __mremap_polyfill_impl sys_mmap addr old_size new_size st.

(** Tracking of a mapping that was moved or resized; [map] is the structure for it. *)
Definition retrack (s : Maps ST) (map old_addr old_size res new_size off prot flags : Z) : option (Maps ST) :=
  u ← __muntrack false s old_addr old_size;
  s ← __maps_free_all (u_maps u) (u_deleted u);
  __maps_insert (set_obj map (mkMap res new_size off flags prot (-1)) s) map.

Definition __mremap_impl (sys_mremap : Z -> Z -> Z -> Z -> Z -> Z + error) (sys_munmap : Z -> Z -> Z)
    (old_addr old_size new_size flags new_addr : Z) (st : St) : Result :=
  let '(s, rand) := st in
  let '(map, s) := __maps_alloc s in
  if map =? 0 then Some (inr ENOMEM, [], (s, rand))
  else
    n ← __maps_floor s old_addr;
    m ← (if n =? 0 then Some None else m ← objs s !! n; Some (Some m));
    match m with
    | Some m =>
        if (m_end m <? u64 (old_addr + PGUP old_size)) || (old_addr <? m_addr m)
        then s ← __maps_free s map; Some (inr EFAULT, [], (s, rand))
        else
          (* the offset is kept in an int *)
          let old_off := s32 (m_off m) in
          let old_prot := m_prot m in
          let old_flags := m_flags m in
          '(rc, told, (s, rand)) ← (if IsNetbsd && has flags MREMAP_FIXED then unmap_part sys_munmap new_addr new_size (s, rand) else Some (0, [], (s, rand)));
          if negb (rc =? 0) then s ← __maps_free s map; Some (inr (errno_of rc), told, (s, rand))
          else
            let res := if IsNetbsd
                       then sys_mremap old_addr old_size new_addr new_size (if has flags MREMAP_FIXED then MAP_FIXED else 0)
                       else sys_mremap old_addr old_size new_size flags new_addr in
            match res with
            | inr e => s ← __maps_free s map; Some (inr e, told, (s, rand))
            | inl r => s ← retrack s map old_addr old_size r new_size old_off old_prot old_flags; Some (inl r, told, (s, rand))
            end
    | None => s ← __maps_free s map; Some (inr EFAULT, [], (s, rand))
    end.

Definition __mremap (sys_mmap : sys_call) (sys_mremap : Z -> Z -> Z -> Z -> Z -> Z + error) (sys_munmap : Z -> Z -> Z)
    (old_addr old_size new_size flags new_addr : Z) (st : St) : Result :=
  if old_size =? 0 then Some (inr EINVAL, [], st)
  else if new_size =? 0 then Some (inr EINVAL, [], st)
  else if MAX_SIZE <? old_size then Some (inr ENOMEM, [], st)
  else if MAX_SIZE <? new_size then Some (inr ENOMEM, [], st)
  else
    let old_size := PGUP old_size in
    let flags := if (new_size <=? old_size) && negb (has flags MREMAP_FIXED) && has flags MREMAP_MAYMOVE
                 then Z.land flags (Z.lnot MREMAP_MAYMOVE) else flags in
    let fixed := has flags MREMAP_FIXED in
    if has flags (Z.lnot (Z.lor MREMAP_MAYMOVE MREMAP_FIXED)) then Some (inr EINVAL, [], st)
    else if fixed && negb (has flags MREMAP_MAYMOVE) then Some (inr EINVAL, [], st)
    else if has old_addr (gransize - 1) then Some (inr EINVAL, [], st)
    else if fixed && has new_addr (gransize - 1) then Some (inr EINVAL, [], st)
    else if u64 (old_addr + old_size) <? old_size then Some (inr ENOMEM, [], st)
    else if fixed && (u64 (new_addr + new_size) <? new_size) then Some (inr ENOMEM, [], st)
    else if fixed && (Z.max old_addr new_addr <? Z.min (u64 (old_addr + old_size)) (u64 (new_addr + PGUP new_size))) then Some (inr EINVAL, [], st)
    else if PGUP new_size =? old_size then Some (inl old_addr, [], st)
    else if (old_size <? PGUP new_size) && (u64 (Z.lnot rlim_cur) <? u64 (count st.1 * pagesize - old_size + PGUP new_size)) then Some (inr ENOMEM, [], st)
    else if (IsNetbsd && negb (has flags MREMAP_MAYMOVE) && (old_size <? PGUP new_size)) || (negb IsLinux && negb IsNetbsd)
    then __mremap_polyfill sys_mmap sys_munmap old_addr old_size new_size flags st
    else __mremap_impl sys_mremap sys_munmap old_addr old_size new_size flags new_addr st.

Definition cosmo_mremap (sys_mmap : sys_call) (sys_mremap : Z -> Z -> Z -> Z -> Z -> Z + error) (sys_munmap : Z -> Z -> Z)
    (old_addr old_size new_size flags new_addr : Z) (st : St) : Result :=
  let new_addr := if has flags MREMAP_FIXED then new_addr else 0 in
  '(res, told, (s, rand)) ← __mremap sys_mmap sys_mremap sys_munmap old_addr old_size new_size flags new_addr st;
  match res with
  | inr _ => Some (res, told, (s, rand))
  | inl r =>
      a ← (if negb (old_addr =? r) then __maps_unmark pagesize old_addr old_size (alive_pages s) else Some (alive_pages s));
      a ← __maps_mark pagesize r new_size a;
      Some (res, told, (set_alive a s, rand))
  end.
End Mremap.
