(* ===== verification/MremapFacts.v ===== *)
(** [mremap] moves and resizes what is tracked: the old interval is forgotten and the new one
    tracked, where the system moves pages; the polyfill adds or removes pages at the end. *)
From S2P Require Import Prelude NodeTree Tree TreeInstance PageTable PageTableFacts Maps MapsFacts MapsUntrack MapsCorrect Mmap MmapFacts Mremap.
From stdpp Require Import list gmap sorting.
#[local] Open Scope Z_scope.

Section Facts.
Context {ST : Type} {Hops : NodeTree ST} {Hlaws : NodeTreeLaws ST} {P : Platform} {GP : GoodPlatform} {Sy : System}.

(** * Moving *)

(** What [tracks] says after the interval [a..a + up n] was replaced by a mapping at [r] *)
Definition moved (L : list (Z * Map)) (a n r size prot flags off : Z) (L' : list (Z * Map)) : Prop :=
  forall p t, tracks L' p t <-> (tracks L p t /\ ~ (a <= p < a + up n)) \/ tracked_as r size prot flags off p t.

Lemma retrack_ok s L n old_addr old_size r new_size off prot flags : rep s L [n] 0 ->
  0 <= old_addr -> old_addr mod pagesize = 0 -> 0 < old_size -> old_addr + up old_size <= 2 ^ 57 -> freed s ++ supply s <> [] ->
  0 <= r -> r mod pagesize = 0 -> 0 < new_size -> r + up new_size <= 2 ^ 56 ->
  (forall p a, tracks L p a -> r <= p < r + up new_size -> old_addr <= p < old_addr + up old_size) ->
  exists s' L', retrack s n old_addr old_size r new_size off prot flags = Some s' /\ rep s' L' [] 0 /\ alive_pages s' = alive_pages s /\
    moved L old_addr old_size r new_size prot flags off L'.
Proof.
  intros HR Ha Haa Hs Hl Hpool Hr Hra Hns Hrl Hfree. unfold retrack. set (m := mkMap r new_size off flags prot (-1)).
  assert (ok_map m) as Hok by done. destruct (m_end_ok m Hok) as (He & _). cbn [m m_addr m_size] in He.
  destruct (muntrack_ok false s L [n] old_addr old_size HR Ha Haa Hs Hl) as (u & L2 & -> & (R1 & R2 & _ & _ & _ & R3) & _). cbn [mbind option_bind].
  destruct R3 as [(_ & R3 & _)|(_ & _ & Hfr & Hsu & _)]; [|exfalso; apply Hpool; cbn in Hfr, Hsu; by rewrite Hfr, Hsu].
  destruct (free_all_ok [n] _ _ _ _ R1) as (s2 & -> & HR2 & Hal2). cbn [mbind option_bind].
  destruct (maps_insert_ok (set_obj n m s2) L2 n m [] 0) as (s3 & L3 & -> & HR3 & Hal3 & Htr3); [by apply rep_write|apply lookup_insert_eq|done| |].
  - apply free_apart; [done|apply (rep_order _ _ _ _ R1)|]. intros x Hx Hm. pose proof (up_bounds new_size) as Hu. assert (0 < up new_size) as Hu' by lia.
    destruct (proj1 (meets_tracks L2 r (up new_size) (rep_order _ _ _ _ R1) Hu')) as (p & a & Ht & Hp); [by exists x|].
    apply R3 in Ht as [Ht Hn]. apply Hn. by eapply Hfree.
  - exists s3, L3. split; [done|]. split; [done|]. split; [rewrite Hal3; cbn; by rewrite Hal2, R2|].
    intros p a. rewrite Htr3, R3. unfold inside, tracked_as, covers, attr, anonymous. rewrite He. cbn [m m_addr m_flags m_prot m_off]. destruct (Z.land flags MAP_ANONYMOUS =? 0); cbn [negb]; naive_solver.
Qed.

(** The mapping [__maps_floor] finds *)
Lemma floor_cases s L D e addr : rep s L D e -> __maps_floor s addr = Some 0 \/
  exists A n m B, L = A ++ (n, m) :: B /\ __maps_floor s addr = Some n /\ (n =? 0) = false /\ objs s !! n = Some m /\ m_addr m <= addr.
Proof.
  intros HR. destruct (split_at addr L (rep_order _ _ _ _ HR)) as (L1 & L2 & -> & H1 & H2). destruct (neighbours s L1 L2 D e addr HR H1 H2) as [Hf _].
  destruct L1 as [|[n m] A _] using rev_ind; [by left|]. right. rewrite <- app_assoc in *. cbn [app] in *. exists A, n, m, L2. rewrite last_fmap in Hf. split; [done|]. split; [done|].
  destruct (node_at _ _ _ _ _ _ _ HR) as [? ?]. split; [done|]. split; [done|]. apply (H1 (n, m)). set_solver.
Qed.

(** What is known of the system call, given that the old interval is mapped: it gives whole
    pages of the address space, at which nothing is mapped but pages of the old interval. *)
Definition remap_contract (L : list (Z * Map)) (old_addr old_size new_size : Z) (sys_mremap : Z -> Z -> Z -> Z -> Z -> Z + error) : Prop :=
  forall sz flags new_addr r, sys_mremap old_addr sz new_size flags new_addr = inl r ->
    0 <= r /\ r mod pagesize = 0 /\ r + up new_size <= 2 ^ 56 /\
    forall p a, tracks L p a -> r <= p < r + up new_size -> old_addr <= p < old_addr + up old_size.

(** The mapping that held the old interval lends its attributes. *)
Definition remapped (L : list (Z * Map)) (old_addr old_size new_size : Z) (res : Z + error) (L' : list (Z * Map)) : Prop :=
  match res with
  | inr _ => L' = L
  | inl r => exists x, x ∈ L /\ m_addr x.2 <= old_addr /\ old_addr + up old_size <= m_end x.2 /\
      moved L old_addr old_size r new_size (m_prot x.2) (m_flags x.2) (s32 (m_off x.2)) L'
  end.

Lemma mremap_impl_ok sys_mremap sys_munmap s L rand old_addr old_size new_size flags new_addr : IsNetbsd = false ->
  rep s L [] 0 -> (2 <= length (freed s ++ supply s))%nat ->
  0 <= old_addr -> old_addr mod pagesize = 0 -> 0 < old_size -> old_addr + up old_size <= 2 ^ 57 -> 0 < new_size ->
  remap_contract L old_addr old_size new_size sys_mremap ->
  exists res s' L', __mremap_impl sys_mremap sys_munmap old_addr old_size new_size flags new_addr (s, rand) = Some (res, [], (s', rand)) /\
    rep s' L' [] 0 /\ alive_pages s' = alive_pages s /\ remapped L old_addr old_size new_size res L'.
Proof.
  intros Hnb HR Hpool Ha Haa Hs Hl Hns Hc. pose proof (up_bounds old_size) as Hu. unfold __mremap_impl.
  destruct (alloc_ok _ _ _ _ HR) as [(n & s1 & lm & Ea & Hn & HR1 & Hlm & _ & Hal & _)|(_ & Hfr & Hsu)]; [|rewrite Hfr, Hsu in Hpool; cbn in Hpool; lia].
  assert (freed s1 ++ supply s1 <> []) as Hpool1.
  { unfold __maps_alloc in Ea. destruct (freed s) as [|k l]; [destruct (supply s) as [|k l]; [cbn in Hpool; lia|]|]; injection Ea as <- <-; cbn in *; intros E; rewrite E in Hpool; cbn in Hpool; lia. }
  rewrite Ea, Hn. destruct (rep_free _ _ _ _ _ HR1) as (s2 & Hs2 & HR2 & _ & Hal2 & _). assert (alive_pages s2 = alive_pages s) as Hal2' by (by rewrite Hal2, Hal).
  destruct (floor_cases s1 L [n] 0 old_addr HR1) as [->|(A & k & m & B & -> & -> & Hk & Hm & Hma)]; cbn [mbind option_bind Z.eqb].
  { rewrite Hs2. cbn [mbind option_bind]. by exists (inr EFAULT), s2, L. }
  rewrite Hk, Hm. cbn [mbind option_bind]. rewrite PGUP_up, u64_small by mlia. rewrite (proj2 (Z.ltb_ge old_addr _)), orb_false_r by done.
  destruct (Z.ltb_spec (m_end m) (old_addr + up old_size)) as [Hlt|Hge]; [rewrite Hs2; cbn [mbind option_bind]; by exists (inr EFAULT), s2, (A ++ (k, m) :: B)|].
  rewrite Hnb. cbn [andb mbind option_bind negb Z.eqb]. destruct (sys_mremap _ _ _ _ _) as [r|e] eqn:Er; [|rewrite Hs2; cbn [mbind option_bind]; by exists (inr e), s2, (A ++ (k, m) :: B)].
  destruct (Hc _ _ _ _ Er) as (Hr & Hra & Hrl & Hfree).
  destruct (retrack_ok s1 _ n old_addr old_size r new_size (s32 (m_off m)) (m_prot m) (m_flags m) HR1 Ha Haa Hs Hl Hpool1 Hr Hra Hns Hrl Hfree) as (s3 & L3 & -> & HR3 & Hal3 & Hmv).
  cbn [mbind option_bind]. exists (inl r), s3, L3. split; [done|]. split; [done|]. split; [by rewrite Hal3|]. exists (k, m). split; [set_solver|]. done.
Qed.

Lemma up_up x : up (up x) = up x.
Proof. apply up_id, up_aligned. Qed.



(** * The polyfill *)

(** Flags and protection in one word *)
Lemma word_parts flags prot : 0 <= prot < 2 ^ 15 ->
  let rc := Z.lor (Z.shiftl (Z.land flags MAP_TYPE) 32) prot in Z.shiftr rc 32 = Z.land flags MAP_TYPE /\ s32 rc = prot.
Proof.
  intros Hp rc. assert (0 <= Z.land flags MAP_TYPE < 16) as Hf by (change MAP_TYPE with (Z.ones 4); rewrite Z.land_ones by lia; apply Z.mod_pos_bound; lia).
  set (f := Z.land flags MAP_TYPE) in *. clearbody f.
  assert (rc = prot + f * 2 ^ 32) as -> by (unfold rc; rewrite Z.lor_comm, lor_shiftl_add, ?shiftl_mul; lia).
  rewrite shiftr_div by lia. unfold s32. split; [|]; lia.
Qed.

Lemma check_loop_ok s D e fuel n end_ : forall B A m, rep s (A ++ (n, m) :: B) D e -> (length B < fuel)%nat ->
  exists res, polyfill_check_loop fuel s end_ n = Some res /\
    forall rc, res = inl rc -> exists x, x ∈ (n, m) :: B /\ rc = Z.lor (Z.shiftl (Z.land (m_flags x.2) MAP_TYPE) 32) (m_prot x.2) /\ u64 (m_addr x.2 + m_size x.2) = end_.
Proof.
  revert n. induction fuel as [|fuel IH]; intros n B A m HR Hf; [lia|]. cbn [polyfill_check_loop]. destruct (node_at _ _ _ _ _ _ _ HR) as [_ ->]. cbn [mbind option_bind].
  destruct (Z.eqb_spec (u64 (m_addr m + m_size m)) end_) as [He|He]; [eexists; split; [done|]; intros rc [= <-]; exists (n, m); split; [left|done]|].
  destruct (end_ <? _); [eexists; by split|]. pose proof (next_spec _ _ (n, m) _ _ _ HR) as Hnx. cbn [fst] in Hnx. rewrite Hnx. cbn [mbind option_bind].
  destruct B as [|[n' m'] B]; [eexists; by split|]. cbn [fmap list_fmap fst hd]. rewrite (cons_middle (n, m) A), app_assoc in HR. destruct (node_at _ _ _ _ _ _ _ HR) as [-> ->]. cbn [mbind option_bind].
  destruct (negb _); [eexists; by split|]. cbn [length] in Hf. destruct (IH n' B (A ++ [(n, m)]) m' HR ltac:(lia)) as (res & -> & Hres). exists res. split; [done|].
  intros rc Hrc. destruct (Hres rc Hrc) as (x & Hx & ?). exists x. split; [by right|done].
Qed.
Lemma polyfill_check_ok s L D e addr old_size : rep s L D e -> exists res, __mremap_polyfill_check s addr old_size = Some res /\
  forall rc, res = inl rc -> exists x, x ∈ L /\ rc = Z.lor (Z.shiftl (Z.land (m_flags x.2) MAP_TYPE) 32) (m_prot x.2) /\ u64 (m_addr x.2 + m_size x.2) = u64 (addr + old_size).
Proof.
  intros HR. unfold __mremap_polyfill_check. destruct (floor_cases s L D e addr HR) as [->|(A & k & m & B & -> & -> & Hk & Hm & Hma)]; cbn [mbind option_bind Z.eqb]; [eexists; by split|].
  rewrite Hk, Hm. cbn [mbind option_bind]. destruct (negb (_ && _)); [eexists; by split|]. destruct (_ || _); [eexists; by split|]. destruct (negb _); [eexists; by split|].
  destruct (check_loop_ok s D e (maps_fuel s) k (u64 (addr + old_size)) B A m HR) as (res & -> & Hres); [unfold maps_fuel; rewrite (rep_count _ _ _ _ HR), length_app; cbn [length]; lia|].
  exists res. split; [done|]. intros rc Hrc. destruct (Hres rc Hrc) as (x & Hx & ?). exists x. split; [set_solver|done].
Qed.

(** The system gives whole pages at which nothing is mapped. *)
Definition fresh_pages (L : list (Z * Map)) (size : Z) (sys_mmap : sys_call) : Prop :=
  forall addr prot sysflags fd off r, sys_mmap addr size prot sysflags fd off = inl r ->
    0 <= r /\ r mod pagesize = 0 /\ r + up size <= 2 ^ 56 /\ forall x, x ∈ L -> ~ meets r (up size) x.2.

Lemma has_self x f : f <> 0 -> has (Z.lor x f) f = true.
Proof. intros Hf. unfold has. rewrite Z.land_lor_distr_l, Z.land_diag. destruct (Z.eqb_spec (Z.lor (Z.land x f) f) 0) as [E|]; [|done]. by apply Z.lor_eq_0_iff in E as [_ ?]. Qed.

(** Growing in place: the pages behind the interval, with the protection and the type of the
    mapping that ends there *)
Definition grown (L : list (Z * Map)) (addr old_size new_size : Z) (L' : list (Z * Map)) : Prop :=
  exists x, x ∈ L /\ u64 (m_addr x.2 + m_size x.2) = u64 (addr + old_size) /\
    forall p a, tracks L' p a <-> tracks L p a \/
      tracked_as (addr + old_size) (new_size - old_size) (m_prot x.2) (Z.lor (Z.lor (Z.land (m_flags x.2) MAP_TYPE) MAP_ANONYMOUS) MAP_FIXED_NOREPLACE) 0 p a.

Lemma polyfill_impl_ok sys_mmap s L rand addr old_size new_size : MAP_FIXED_NOREPLACE <> 0 -> MAP_ANONYMOUS <> 0 -> rep s L [] 0 -> Forall (fun x => 0 <= m_prot x.2 < 2 ^ 15) L ->
  0 < addr + old_size <= 2 ^ 57 -> 0 < new_size - old_size <= MAX_SIZE -> fresh_pages L (new_size - old_size) sys_mmap ->
  exists res told s' rand' L', __mremap_polyfill_impl sys_mmap addr old_size new_size (s, rand) = Some (res, told, (s', rand')) /\
    rep s' L' [] 0 /\ alive_pages s' = alive_pages s /\ (forall p, asked told p -> ~ exists a, tracks L p a) /\
    match res with inl r => r = addr /\ told = [] /\ grown L addr old_size new_size L' | inr _ => L' = L end.
Proof.
  intros Hnr Han HR Hpr Ha Hsz Hfresh. unfold __mremap_polyfill_impl. cbn [fst]. destruct (polyfill_check_ok s L [] 0 addr old_size HR) as (res & -> & Hres). cbn [mbind option_bind].
  destruct res as [rc|e]; [|exists (inr e), [], s, rand, L; split_and!; try done; by intros p ?%none_asked].
  destruct (Hres rc eq_refl) as (x & Hx & -> & Hend). rewrite Forall_forall in Hpr. destruct (word_parts (m_flags x.2) (m_prot x.2) (Hpr x Hx)) as [-> ->]. set (fl := Z.lor (Z.lor _ _) _).
  assert (has fl MAP_FIXED_NOREPLACE = true) as Hn by (unfold fl; by apply has_self). assert (is_fixed fl = false) as Hf by (unfold is_fixed, is_noreplace; by rewrite Hn).
  assert (has fl MAP_ANONYMOUS = true) as Hanon. { unfold fl. rewrite (Z.lor_comm _ MAP_FIXED_NOREPLACE), Z.lor_assoc. by apply has_self. }
  unfold MAX_SIZE in Hsz. rewrite (u64_small (addr + old_size)), (u64_small (new_size - old_size)) by lia.
  destruct (mmap_impl_ok sys_mmap s L (new_size - old_size) fl HR) with (rand := rand) (addr := addr + old_size) (prot := m_prot x.2) (fd := -1) (off := 0)
    as (res & told & s' & rand' & L' & -> & HR' & Hal & Ho).
  - unfold MAX_SIZE. lia.
  - intros a pr f fd off r E. rewrite Hf. by eapply Hfresh.
  - intros _ ->. set_solver.
  - by rewrite Hf.
  - cbn [mbind option_bind]. destruct res as [r|e].
    + destruct Ho as (-> & _ & _ & _ & Hr & Htr). exists (inl addr), [], s', rand', L'. split_and!; try done; [by intros p ?%none_asked|]. exists x. split; [done|]. split; [done|].
      assert (r = addr + old_size) as -> by (apply Hr; [lia|]; unfold is_noreplace; by rewrite Hn, orb_true_r). intros p a. rewrite Htr, Hf. unfold file_off. rewrite Hanon. naive_solver.
    + destruct Ho as (-> & Hask). by exists (inr ENOMEM), told, s', rand', L.
Qed.


Lemma gran_mod x : Z.land x (gransize - 1) = x mod gransize.
Proof. destruct gran_pages as (_ & g & Hg & ->). replace (2 ^ g - 1) with (Z.ones g) by (rewrite Z.ones_equiv; lia). apply Z.land_ones. lia. Qed.
Lemma gran_add x y : Z.land x (gransize - 1) = 0 -> Z.land y (gransize - 1) = 0 -> Z.land (x + y) (gransize - 1) = 0.
Proof. rewrite !gran_mod. intros Hx Hy. destruct (GRUP_ok 0) as (_ & _ & Hg); [lia|]. rewrite Z.add_mod, Hx, Hy by lia. done. Qed.

(** Shrinking and growing in place *)
Definition resized (L : list (Z * Map)) (addr old_size new_size : Z) (res : Z + error) (told : list (Z * Z)) (L' : list (Z * Map)) : Prop :=
  match res with
  | inr _ => L' = L
  | inl r => r = addr /\
      if up new_size <? old_size
      then cleared (addr + up new_size) (old_size - up new_size) L L' /\ forall p, asked told p -> addr + up new_size <= p < addr + old_size
      else told = [] /\ grown L addr old_size (up new_size) L'
  end.

(** The polyfill of [mremap], where the system has none, never moves a mapping: it fails and
    leaves what is tracked as it was, or returns the old address, having forgotten the pages
    past the new size, or having tracked the pages behind the old interval, anonymous and with
    the protection and type of the mapping that ended there. Nothing else changes, and no
    tracked page is unmapped but those. *)
Theorem mremap_polyfill_correct sys_mmap sys_munmap s L rand addr old_size new_size flags :
  MAP_FIXED_NOREPLACE <> 0 -> MAP_ANONYMOUS <> 0 -> (forall a n, sys_munmap a n = 0) ->
  rep s L [] 0 -> sound s L -> Forall (fun x => 0 <= m_prot x.2 < 2 ^ 15) L ->
  0 <= addr -> Z.land addr (gransize - 1) = 0 -> 0 < old_size -> old_size mod pagesize = 0 -> addr + old_size <= 2 ^ 56 ->
  0 < new_size <= 2 ^ 43 -> up new_size <> old_size -> fresh_pages L (up new_size - old_size) sys_mmap ->
  exists res told s' rand' L', __mremap_polyfill sys_mmap sys_munmap addr old_size new_size flags (s, rand) = Some (res, told, (s', rand')) /\
    rep s' L' [] 0 /\
    resized L addr old_size new_size res told L'.
Proof.
  intros Hnr Han Hsys HR Hsd Hpr Ha Hga Hs Hsa Hl Hns Hne Hfresh. pose proof (up_bounds new_size) as Hu. pose proof (up_aligned new_size) as Hua. pose proof ps_pos as Hps. unfold __mremap_polyfill. rewrite PGUP_up by mlia.
  assert (forall e : error, exists res told s' rand' L', Some (inr e, @nil (Z * Z), (s, rand)) = Some (res, told, (s', rand')) /\ rep s' L' [] 0 /\
    resized L addr old_size new_size res told L') as Hfail by (intros e; by exists (inr e), [], s, rand, L).
  destruct (has flags _); [apply Hfail|]. destruct (has old_size _); [apply Hfail|]. destruct (has (up new_size) _) eqn:Eg; [apply Hfail|]. unfold has in Eg. apply negb_false_iff, Z.eqb_eq in Eg.
  unfold resized. destruct (Z.ltb_spec (up new_size) old_size) as [Hlt|Hge].
  - assert (up (old_size - up new_size) = old_size - up new_size) as Hup by (apply up_id; by apply mod_sub_0).
    rewrite u64_small by mlia. destruct (munmap_ok sys_munmap s L (addr + up new_size) (old_size - up new_size) HR Hsd) as (rc & told & s' & L' & E & HR' & _ & Hcase); [mlia|by apply gran_add|mlia|rewrite Hup; mlia|].
    unfold unmap_part. cbn [fst snd]. rewrite E. cbn [mbind option_bind]. destruct Hcase as [(Hcl & Hrc & Hask & _)|(-> & -> & -> & _)].
    + rewrite Hrc by done. eexists _, told, s', rand, L'. split; [done|]. split; [done|]. cbn [Z.eqb]. split; [done|]. split; [done|]. intros p Hp. destruct (Hask p Hp) as [_ Hin]. rewrite Hup in Hin. mlia.
    + by eexists _, [], s', rand, L.
  - destruct (polyfill_impl_ok sys_mmap s L rand addr old_size (up new_size)) as (res & told & s' & rand' & L' & -> & HR' & _ & _ & Hres); try done; [mlia|unfold MAX_SIZE; mlia|].
    exists res, told, s', rand', L'. split; [done|]. split; [done|]. destruct res; [|done]. tauto.
Qed.

End Facts.

(** * Examples *)

(** A system that moves or keeps everything at [r] *)
Definition move_to (r : Z) (a b c d e : Z) : Z + error := inl r.
Definition ok_munmap (addr size : Z) : Z := 0.

Lemma mremap_polyfill_correct_witness : exists s res told s' rand, __maps_track (blank 4) 65536 16384 3 34 = Some (true, s) /\
  __mremap_polyfill give ok_munmap 65536 16384 4096 0 (s, 1) = Some (res, told, (s', rand)).
Proof.
  destruct one_map as (s & L & off & H1 & H2 & H3 & H4).
  destruct (mremap_polyfill_correct give ok_munmap s L 1 65536 16384 4096 0) as (res & told & s' & rand & L' & E & _).
  - discriminate.
  - discriminate.
  - done.
  - exact H2.
  - exact H3.
  - apply Forall_forall. intros x Hx. destruct (rep_order _ _ _ _ H2) as [_ Ho]. rewrite Forall_forall in Ho. destruct (m_end_ok _ (Ho x Hx)) as (_ & Hlt & _).
    destruct (proj1 (H4 (m_addr x.2) (attr x.2 (m_addr x.2)))) as [Ht|[_ Ht]]; [exists x; split; [done|]; split; [unfold covers; lia|done]|by apply tracks_nil in Ht|].
    unfold attr in Ht. injection Ht as -> _ _. lia.
  - lia.
  - reflexivity.
  - lia.
  - reflexivity.
  - lia.
  - lia.
  - vm_compute. discriminate.
  - intros a pr fl fd o r [= <-]. split; [lia|]. split; [reflexivity|]. split; [vm_compute; congruence|]. intros x Hx. unfold meets. change (up (up 4096 - 16384)) with (-12288). lia.
  - exists s, res, told, s', rand. done.
Defined.

(** What the manager knows of the mapping at or below [addr]: address, size and offset *)
Definition mapping_at (s : Maps TS) (addr : Z) : option (Z * Z * Z) :=
  n ← __maps_floor s addr; m ← objs s !! n; Some (m_addr m, m_size m, m_off m).

(** Shrinking a mapping on Linux forgets the pages cut off, but leaves them marked as live. *)
Example mremap_shrink_keeps_live :
  ('(_, _, st) ← mmap no_zip zip0 give 0 16384 3 34 (-1) 0 (blank 4, 1);
   '(res, _, st) ← cosmo_mremap give (move_to 65536) ok_munmap 65536 16384 4096 0 0 st;
   tracked ← __maps_overlaps st.1 69632 4096;
   Some (res, tracked, kisdangerous 4096 69632 (alive_pages st.1))) = Some (inl 65536, false, false).
Proof. vm_compute. reflexivity. Qed.
(** A call that changes no page count succeeds on memory that is not mapped and marks it as
    live. *)
Example mremap_noop_marks_unmapped :
  ('(res, _, st) ← cosmo_mremap give (move_to 0) ok_munmap 65536 4096 4096 0 0 (blank 4, 1);
   tracked ← __maps_overlaps st.1 65536 4096;
   Some (res, tracked, kisdangerous 4096 65536 (alive_pages st.1))) = Some (inl 65536, false, false).
Proof. vm_compute. reflexivity. Qed.
(** The offset of a file mapping is kept modulo 2^32, and not advanced to the old address. *)
Example mremap_loses_offset :
  ('(_, _, st) ← mmap no_zip zip0 give 0 16384 3 2 3 (2 ^ 33) (blank 4, 1);
   '(_, _, st) ← cosmo_mremap give (move_to 131072) ok_munmap 65536 16384 32768 1 0 st; mapping_at st.1 131072) = Some (131072, 32768, 0) /\
  ('(_, _, st) ← mmap no_zip zip0 give 0 16384 3 2 3 8192 (blank 4, 1);
   '(_, _, st) ← cosmo_mremap give (move_to 131072) ok_munmap 69632 12288 32768 1 0 st; mapping_at st.1 131072) = Some (131072, 32768, 8192).
Proof. vm_compute. split; reflexivity. Qed.
(** Moving a mapping onto another one with [MREMAP_FIXED] on Linux leaves both in the tree, one
    inside the other. *)
Example mremap_fixed_overlaps :
  (s ← __maps_track (blank 4) 65536 16384 3 34;
   s ← __maps_track s.2 131072 16384 1 34;
   '(res, _, st) ← cosmo_mremap give (move_to 135168) ok_munmap 65536 16384 4096 3 135168 (s.2, 1);
   a ← mapping_at st.1 131072; b ← mapping_at st.1 135168; Some (res, a, b)) = Some (inl 135168, (131072, 16384, 0), (135168, 4096, 0)).
Proof. vm_compute. reflexivity. Qed.
