(* ===== verification/Critbit.v ===== *)
(** Crit-bit trees of C strings: [libc/mem/critbit0.h] and the operations of
    [libc/mem/critbit0_contains.c], [critbit0_emplace.c], [critbit0_insert.c],
    [critbit0_delete.c], [critbit0_get.c], [critbit0_allprefixed.c] and
    [critbit0_clear.c]. A string is the list of its bytes without the terminator; the low
    bit that tags an internal pointer is the constructor of [critbit]. *)
From S2P Require Import Prelude.

(** * C strings *)

(** [s[i]] for an index at most [strlen(s)]; [None] is a read past the terminator. *)
Definition peek (s : list Z) (i : Z) : option Z :=
  if i <? Z.of_nat (length s) then s !! Z.to_nat i
  else if i =? Z.of_nat (length s) then Some 0 else None.

(** The unsigned difference at the first mismatch or terminator. *)
Fixpoint strcmp (a b : list Z) : Z :=
  match a, b with
  | [], [] => 0
  | [], y :: _ => 0 - y
  | x :: _, [] => x - 0
  | x :: a', y :: b' => if (x =? y) && negb (x =? 0) then strcmp a' b' else x - y
  end.

Fixpoint strncmp (a b : list Z) (n : nat) : Z :=
  match n with
  | O => 0
  | S n' =>
    match a, b with
    | [], [] => 0
    | [], y :: _ => 0 - y
    | x :: _, [] => x - 0
    | x :: a', y :: b' => if (x =? y) && negb (x =? 0) then strncmp a' b' n' else x - y
    end
  end.

(** * The tree *)

(** A child pointer: an external string, or a tagged [struct CritbitNode]. *)
Inductive critbit :=
| Leaf (s : list Z)
| Node (byte otherbits : Z) (child0 child1 : critbit).

(** [struct critbit0]. *)
Record critbit0 := Critbit0 { root : option critbit; count : Z }.

Definition critbit0_empty : critbit0 := Critbit0 None 0.

(** The byte a node inspects: zero past the end of the key. *)
Definition char_at (u : list Z) (byte : Z) : Z :=
  if byte <? Z.of_nat (length u) then u !!! Z.to_nat byte else 0.

Definition direction (otherbits c : Z) : Z := Z.shiftr (1 + Z.lor otherbits c) 8.

(** [q->child[direction]]. *)
Definition child (child0 child1 : critbit) (d : Z) : critbit :=
  if d =? 0 then child0 else child1.

(** The descent every operation starts with. *)
Fixpoint walk (u : list Z) (p : critbit) : list Z :=
  match p with
  | Leaf s => s
  | Node byte otherbits child0 child1 =>
    if direction otherbits (char_at u byte) =? 0 then walk u child0 else walk u child1
  end.

Definition critbit0_contains (t : critbit0) (u : list Z) : bool :=
  match root t with
  | None => false
  | Some p => 0 =? strcmp u (walk u p)
  end.

(** * Insertion *)

(** The outcome of the loop that compares the key with its best match. *)
Inductive mismatch :=
| Same
| Differ (newbyte newotherbits : Z).

Fixpoint find_mismatch (fuel : nat) (p u : list Z) (newbyte : Z) : option mismatch :=
  match fuel with
  | O => None
  | S fuel' =>
    if newbyte <? Z.of_nat (length u) then
      c ← peek p newbyte;
      if negb (c =? char_at u newbyte)
      then Some (Differ newbyte (Z.lxor c (char_at u newbyte)))
      else find_mismatch fuel' p u (u32 (newbyte + 1))
    else
      c ← peek p newbyte;
      if negb (c =? 0) then Some (Differ newbyte c) else Some Same
  end.

(** Clears all but the highest set bit and complements the byte. *)
Definition other_bits (newotherbits : Z) : Z :=
  let x1 := Z.lor newotherbits (Z.shiftr newotherbits 1) in
  let x2 := Z.lor x1 (Z.shiftr x1 2) in
  let x3 := Z.lor x2 (Z.shiftr x2 4) in
  Z.lxor (Z.land x3 (u32 (Z.lnot (Z.shiftr x3 1)))) 255.

(** The new node with the key at [child[1 - newdirection]] and [old] at the other side. *)
Definition new_node (newbyte newotherbits newdirection : Z) (u : list Z) (old : critbit) :
    critbit :=
  if newdirection =? 0 then Node newbyte newotherbits old (Leaf u)
  else Node newbyte newotherbits (Leaf u) old.

(** The second descent, which stops at the link [*wherep] to replace. *)
Fixpoint place (newbyte newotherbits newdirection : Z) (u : list Z) (wp : critbit) : critbit :=
  match wp with
  | Leaf _ => new_node newbyte newotherbits newdirection u wp
  | Node byte otherbits child0 child1 =>
    if byte >? newbyte then new_node newbyte newotherbits newdirection u wp
    else if (byte =? newbyte) && (otherbits >? newotherbits)
    then new_node newbyte newotherbits newdirection u wp
    else if direction otherbits (char_at u byte) =? 0
    then Node byte otherbits (place newbyte newotherbits newdirection u child0) child1
    else Node byte otherbits child0 (place newbyte newotherbits newdirection u child1)
  end.

(** [malloc_node] and [malloc_dup] tell whether the two allocations succeed; [None] is a
    read past the end of a stored string. *)
Definition critbit0_emplace (malloc_node malloc_dup : bool) (t : critbit0) (u : list Z) :
    option (Z * critbit0) :=
  match root t with
  | None => Some (if malloc_dup then (1, Critbit0 (Some (Leaf u)) 1) else (-1, t))
  | Some r =>
    let p := walk u r in
    d ← find_mismatch (S (length u)) p u 0;
    match d with
    | Same => Some (0, t)
    | Differ newbyte x =>
      let newotherbits := other_bits x in
      c ← peek p newbyte;
      let newdirection := direction newotherbits c in
      if malloc_node && malloc_dup
      then Some (1, Critbit0 (Some (place newbyte newotherbits newdirection u r))
                             (u64 (count t + 1)))
      else Some (-1, t)
    end
  end.

(** [strlen(u)] is the length of the list. *)
Definition critbit0_insert (malloc_node malloc_dup : bool) (t : critbit0) (u : list Z) :
    option (Z * critbit0) :=
  critbit0_emplace malloc_node malloc_dup t u.

(** * Deletion *)

(** The tree with the last node of the descent replaced by its other child; [None] when
    the descent met no node ([whereq] is null). *)
Fixpoint splice (u : list Z) (p : critbit) : option critbit :=
  match p with
  | Leaf _ => None
  | Node byte otherbits child0 child1 =>
    if direction otherbits (char_at u byte) =? 0 then
      match splice u child0 with
      | None => Some child1
      | Some child0' => Some (Node byte otherbits child0' child1)
      end
    else
      match splice u child1 with
      | None => Some child0
      | Some child1' => Some (Node byte otherbits child0 child1')
      end
  end.

Definition critbit0_delete (t : critbit0) (u : list Z) : bool * critbit0 :=
  match root t with
  | None => (false, t)
  | Some r =>
    if negb (strcmp u (walk u r) =? 0) then (false, t)
    else match splice u r with
         | None => (true, Critbit0 None 0)
         | Some r' => (true, Critbit0 (Some r') (u64 (count t - 1)))
         end
  end.

(** * Prefix search *)

Definition critbit0_get (t : critbit0) (u : list Z) : option (list Z) :=
  match root t with
  | None => None
  | Some r =>
    let p := walk u r in
    if strncmp u p (length u) =? 0 then Some p else None
  end.

(** The callback takes the element and the state behind its [arg] and returns its code. *)
Fixpoint allprefixed_traverse {A} (callback : list Z -> A -> Z * A) (top : critbit) (arg : A) :
    Z * A :=
  match top with
  | Node _ _ child0 child1 =>
    let '(rc, arg) := allprefixed_traverse callback child0 arg in
    if negb (rc =? 0) then (rc, arg)
    else
      let '(rc, arg) := allprefixed_traverse callback child1 arg in
      if negb (rc =? 0) then (rc, arg) else (0, arg)
  | Leaf s => callback s arg
  end.

(** The descent that also keeps [top], the last child whose node looked inside the prefix. *)
Fixpoint walk_top (u : list Z) (p top : critbit) : list Z * critbit :=
  match p with
  | Leaf s => (s, top)
  | Node byte otherbits child0 child1 =>
    let inside := byte <? Z.of_nat (length u) in
    if direction otherbits (char_at u byte) =? 0
    then walk_top u child0 (if inside then child0 else top)
    else walk_top u child1 (if inside then child1 else top)
  end.

(** The loop [for (i = 0; i < ulen; ++i)] on [p[i] != ubytes[i]]. *)
Fixpoint same_prefix (p u : list Z) (i : Z) (n : nat) : option bool :=
  match n with
  | O => Some true
  | S n' =>
    c ← peek p i;
    if negb (c =? char_at u i) then Some false else same_prefix p u (i + 1) n'
  end.

Definition critbit0_allprefixed {A} (t : critbit0) (prefix : list Z)
    (callback : list Z -> A -> Z * A) (arg : A) : option (Z * A) :=
  match root t with
  | None => Some (0, arg)
  | Some r =>
    let '(p, top) := walk_top prefix r r in
    same ← same_prefix p prefix 0 (length prefix);
    if (same : bool) then Some (allprefixed_traverse callback top arg) else Some (0, arg)
  end.

(** * Clearing *)

(** The heap blocks of a tree. *)
Inductive block :=
| BString (s : list Z)
| BNode (byte otherbits : Z).

(** The blocks in the order they are freed. *)
Fixpoint critbit0_clear_traverse (top : critbit) : list block :=
  match top with
  | Node byte otherbits child0 child1 =>
    critbit0_clear_traverse child0 ++ critbit0_clear_traverse child1
      ++ [BNode byte otherbits]
  | Leaf s => [BString s]
  end.

Definition critbit0_clear (t : critbit0) : list block * critbit0 :=
  (match root t with Some r => critbit0_clear_traverse r | None => [] end,
   Critbit0 None 0).

(** * Examples *)

Definition sample_keys : list (list Z) :=
  ascii_codes <$> ["tool"; "to"; "tea"; ""; "ten"; "inn"]%string.

Definition sample_tree : critbit0 :=
  fold_left (fun t u => from_option snd t (critbit0_insert true true t u)) sample_keys
    critbit0_empty.

Example sample_order :
  critbit0_allprefixed sample_tree [] (fun s l => (0, l ++ [s])) []
  = Some (0, ascii_codes <$> [""; "inn"; "tea"; "ten"; "to"; "tool"]%string).
Proof. vm_compute. reflexivity. Qed.

Example sample_get :
  critbit0_get sample_tree (ascii_codes "te"%string) = Some (ascii_codes "tea"%string).
Proof. vm_compute. reflexivity. Qed.

(** A key with a NUL inside makes [critbit0_emplace] read past its best match. *)
Example emplace_nul_overreads :
  critbit0_emplace true true (Critbit0 (Some (Leaf [])) 1) [0; 97] = None.
Proof. reflexivity. Qed.
