(* ===== verification/CritbitFacts.v ===== *)
(** Correctness of the crit-bit trees of [Critbit.v]: a well-formed tree lists its strings
    in [strcmp] order, every operation refines the operation on that sorted list, and every
    tree built from the empty one is well formed. *)
From stdpp Require Import sets sorting.
From S2P Require Import Prelude Critbit.

(** * Bits of a C string *)

Definition is_cstr (s : list Z) : Prop := Forall (fun c => 0 < c < 256) s.

#[export] Instance is_cstr_dec s : Decision (is_cstr s).
Proof. unfold is_cstr. apply _. Defined.

(** Bit [n] of a string, most significant first, with zeros past the end. *)
Definition bit (s : list Z) (n : Z) : bool := Z.testbit (char_at s (n / 8)) (7 - n mod 8).

Definition agree (n : Z) (s s' : list Z) : Prop := forall m, 0 <= m < n -> bit s m = bit s' m.

#[export] Instance agree_equiv n : Equivalence (agree n).
Proof.
  split; unfold agree; [by intros s m|intros s s' H m ?; symmetry; auto|].
  intros s s' s'' H1 H2 m Hm. rewrite H1 by done. auto.
Qed.

Lemma agree_le n n' s s' : n <= n' -> agree n' s s' -> agree n s s'.
Proof. intros Hn H m Hm. apply H. lia. Qed.

Lemma agree_next n s s' : 0 <= n -> agree n s s' -> bit s n = bit s' n -> agree (n + 1) s s'.
Proof. intros Hn H Hb m Hm. destruct (decide (m = n)) as [->|]; [done|apply H; lia]. Qed.

Lemma char_at_alt s i : 0 <= i -> char_at s i = default 0 (s !! Z.to_nat i).
Proof.
  intros Hi. unfold char_at. case_if; bool_prop.
  - destruct (lookup_lt_is_Some_2 s (Z.to_nat i)) as [c Hc]; [lia|].
    by rewrite Hc, (list_lookup_total_correct _ _ _ Hc).
  - by rewrite lookup_ge_None_2 by lia.
Qed.

Lemma char_at_byte s i : is_cstr s -> 0 <= i -> is_byte (char_at s i).
Proof.
  intros Hs Hi. rewrite char_at_alt by done. unfold is_byte.
  destruct (s !! _) as [c|] eqn:E; simpl; [|lia].
  pose proof (Forall_lookup_1 _ _ _ _ Hs E). simpl in *. lia.
Qed.

Lemma char_at_pos s i : is_cstr s -> 0 <= i < Z.of_nat (length s) -> 0 < char_at s i.
Proof.
  intros Hs Hi. rewrite char_at_alt by lia.
  destruct (lookup_lt_is_Some_2 s (Z.to_nat i)) as [c E]; [lia|].
  pose proof (Forall_lookup_1 _ _ _ _ Hs E). simpl in *. rewrite E. simpl. lia.
Qed.

Lemma char_at_end s i : Z.of_nat (length s) <= i -> char_at s i = 0.
Proof. intros. unfold char_at. by rewrite (proj2 (Z.ltb_ge _ _)). Qed.

Lemma peek_char_at s i : 0 <= i <= Z.of_nat (length s) -> peek s i = Some (char_at s i).
Proof.
  intros Hi. unfold peek. case_if; bool_prop.
  - destruct (lookup_lt_is_Some_2 s (Z.to_nat i)) as [c Hc]; [lia|].
    rewrite char_at_alt, Hc by lia. done.
  - rewrite (proj2 (Z.eqb_eq _ _)) by lia. by rewrite char_at_end by lia.
Qed.

(** Equal bytes up to an index are equal bits. *)
Lemma agree_bytes n s s' :
  is_cstr s -> is_cstr s' -> 0 <= n ->
  agree (8 * n) s s' <-> (forall i, 0 <= i < n -> char_at s i = char_at s' i).
Proof.
  intros Hs Hs' Hn. split.
  - intros H i Hi. apply Z.bits_inj'. intros k Hk.
    destruct (decide (k < 8)).
    + specialize (H (8 * i + (7 - k)) ltac:(lia)). unfold bit in H.
      replace ((8 * i + (7 - k)) / 8) with i in H by lia.
      by replace (7 - (8 * i + (7 - k)) mod 8) with k in H by lia.
    + pose proof (char_at_byte s i Hs ltac:(lia)) as B. pose proof (char_at_byte s' i Hs' ltac:(lia)) as B'.
      by rewrite !byte_high_bit by (done || lia).
  - intros H m Hm. unfold bit. by rewrite H by lia.
Qed.

Lemma cstr_ext s s' :
  is_cstr s -> is_cstr s' -> (forall i, 0 <= i -> char_at s i = char_at s' i) -> s = s'.
Proof.
  intros Hs Hs' H. apply list_eq. intros i.
  specialize (H (Z.of_nat i) ltac:(lia)). rewrite !char_at_alt, Nat2Z.id in H by lia.
  destruct (s !! i) as [c|] eqn:E; destruct (s' !! i) as [c'|] eqn:E'; simpl in H; subst; try done.
  - pose proof (Forall_lookup_1 _ _ _ _ Hs E). simpl in *. lia.
  - pose proof (Forall_lookup_1 _ _ _ _ Hs' E'). simpl in *. lia.
Qed.

Lemma agree_all s s' : is_cstr s -> is_cstr s' -> (forall n, agree n s s') -> s = s'.
Proof.
  intros Hs Hs' H. apply cstr_ext; [done..|]. intros i Hi.
  by apply (proj1 (agree_bytes (i + 1) s s' Hs Hs' ltac:(lia)) (H _)); lia.
Qed.

(** ** Prefixes *)

Lemma prefix_agree u s :
  is_cstr u -> is_cstr s ->
  u `prefix_of` s <-> agree (8 * Z.of_nat (length u)) s u.
Proof.
  intros Hu Hs. rewrite agree_bytes by (done || lia). split.
  - intros [k ->] i Hi. rewrite !char_at_alt by lia. by rewrite lookup_app_l by lia.
  - intros H. exists (drop (length u) s). apply list_eq. intros i.
    destruct (decide (i < length u)%nat) as [Hi|Hi].
    + specialize (H (Z.of_nat i) ltac:(lia)). rewrite lookup_app_l by done.
      rewrite !char_at_alt, Nat2Z.id in H by lia.
      destruct (lookup_lt_is_Some_2 u i Hi) as [c E]. rewrite E in *. simpl in H.
      pose proof (Forall_lookup_1 _ _ _ _ Hu E). simpl in *.
      destruct (s !! i); simpl in H; [by subst|lia].
    + rewrite lookup_app_r, lookup_drop by lia. f_equal. lia.
Qed.

Lemma strncmp_prefix u s :
  is_cstr u -> (strncmp u s (length u) =? 0) = bool_decide (u `prefix_of` s).
Proof.
  intros Hu. revert s. induction Hu as [|c u Hc Hu IH]; intros s.
  - rewrite bool_decide_true; [done|apply prefix_nil].
  - destruct s as [|c' s].
    + rewrite bool_decide_false; [simpl; lia|apply prefix_nil_not].
    + cbn -[Z.eqb]. destruct (Z.eqb_spec c c') as [->|Hne]; simpl.
      * rewrite (proj2 (Z.eqb_neq c' 0)) by lia. simpl. rewrite IH.
        apply bool_decide_ext. split; [apply prefix_cons|apply prefix_cons_inv_2].
      * rewrite bool_decide_false; [lia|]. intros ?%prefix_cons_inv_1. done.
Qed.

(** ** String order *)

Definition slt (a b : list Z) : Prop := strcmp a b < 0.

Lemma strcmp_refl a : strcmp a a = 0.
Proof. induction a as [|c a IH]; [done|]. cbn -[Z.eqb]. rewrite Z.eqb_refl, IH. case_if; lia. Qed.

Lemma strcmp_opp a b : strcmp a b = - strcmp b a.
Proof.
  revert b. induction a as [|c a IH]; intros [|c' b]; cbn -[Z.eqb]; try lia.
  rewrite (Z.eqb_sym c' c). destruct (Z.eqb_spec c c') as [->|]; simpl; [|lia].
  case_if; [apply IH|lia].
Qed.

Lemma strcmp_eq a b : is_cstr a -> is_cstr b -> strcmp a b = 0 <-> a = b.
Proof.
  intros Ha Hb. split; [|intros ->; apply strcmp_refl]. revert b Hb.
  induction Ha as [|c a Hc Ha IH]; intros [|c' b] Hb; cbn -[Z.eqb]; try done;
    try (apply Forall_cons_1 in Hb as [? Hb]); try lia.
  destruct (Z.eqb_spec c c') as [->|]; simpl; [|lia].
  rewrite (proj2 (Z.eqb_neq c' 0)) by lia. simpl. intros ?. f_equal. auto.
Qed.

#[export] Instance slt_asymm : AntiSymm (=) slt.
Proof. intros a b. unfold slt. rewrite (strcmp_opp b a). lia. Qed.

Lemma slt_irrefl a : ~ slt a a.
Proof. unfold slt. rewrite strcmp_refl. lia. Qed.

Lemma slt_first_byte a b i :
  is_cstr a -> is_cstr b ->
  (forall j, (j < i)%nat -> default 0 (a !! j) = default 0 (b !! j)) ->
  default 0 (a !! i) < default 0 (b !! i) -> slt a b.
Proof.
  intros Ha. revert b i. unfold slt.
  induction Ha as [|c a Hc Ha IH]; intros b i Hb Hj Hi; destruct Hb as [|c' b Hc' Hb];
    cbn -[Z.eqb]; try lia.
  - destruct i as [|i]; [simpl in Hi; lia|]. specialize (Hj O ltac:(lia)). simpl in Hj. lia.
  - destruct i as [|i]; simpl in Hi.
    + rewrite (proj2 (Z.eqb_neq c c')) by lia. simpl. lia.
    + pose proof (Hj O ltac:(lia)) as H0. simpl in H0. subst.
      rewrite Z.eqb_refl, (proj2 (Z.eqb_neq c' 0)) by lia. simpl.
      apply (IH b i); [done| |done]. intros j Hlt. apply (Hj (S j)). lia.
Qed.

(** The first differing bit decides between bytes. *)
Lemma byte_lt_first_bit c c' k :
  is_byte c -> is_byte c' -> 0 <= k ->
  (forall j, k < j < 8 -> Z.testbit c j = Z.testbit c' j) ->
  Z.testbit c k = false -> Z.testbit c' k = true -> c < c'.
Proof.
  intros Hc Hc' Hk Hj H0 H1. unfold is_byte in *.
  assert (Hq : c / 2 ^ (k + 1) = c' / 2 ^ (k + 1)).
  { rewrite <- !shiftr_div by lia. apply Z.bits_inj'. intros n Hn.
    rewrite !Z.shiftr_spec by lia. destruct (decide (n + (k + 1) < 8)).
    - apply Hj. lia.
    - by rewrite !byte_high_bit by (done || lia). }
  rewrite Z.testbit_odd, shiftr_div in H0, H1 by lia.
  assert (Hp : 0 < 2 ^ k) by lia.
  replace (2 ^ (k + 1)) with (2 ^ k * 2) in Hq by (rewrite Z.pow_add_r; lia).
  rewrite <- !Z.div_div in Hq by lia.
  assert (c / 2 ^ k < c' / 2 ^ k).
  { pose proof (Zmod_odd (c / 2 ^ k)) as M0. rewrite H0 in M0.
    pose proof (Zmod_odd (c' / 2 ^ k)) as M1. rewrite H1 in M1.
    cbv iota in M0, M1. clear - M0 M1 Hq.
    generalize dependent (c / 2 ^ k). generalize dependent (c' / 2 ^ k). intros. lia. }
  destruct (Z_lt_le_dec c c') as [|Hle]; [done|].
  pose proof (Z.div_le_mono c' c (2 ^ k) Hp Hle). lia.
Qed.

Lemma slt_first_bit a b n :
  is_cstr a -> is_cstr b -> 0 <= n ->
  agree n a b -> bit a n = false -> bit b n = true -> slt a b.
Proof.
  intros Ha Hb Hn Hag H0 H1. apply (slt_first_byte a b (Z.to_nat (n / 8))); [done..| |].
  - intros j Hj.
    pose proof (proj1 (agree_bytes (n / 8) a b Ha Hb ltac:(lia)) (agree_le (8 * (n / 8)) n a b ltac:(lia) Hag)
                  (Z.of_nat j) ltac:(lia)) as E.
    by rewrite !char_at_alt, Nat2Z.id in E by lia.
  - rewrite <- !char_at_alt by lia.
    apply (byte_lt_first_bit _ _ (7 - n mod 8)); try done; try (apply char_at_byte; done || lia); [lia|].
    intros j Hj. specialize (Hag (8 * (n / 8) + (7 - j)) ltac:(lia)). unfold bit in Hag.
    replace ((8 * (n / 8) + (7 - j)) / 8) with (n / 8) in Hag by lia.
    by replace (7 - (8 * (n / 8) + (7 - j)) mod 8) with j in Hag by lia.
Qed.

(** * Well-formed trees *)

(** The strings of a tree from left to right. *)
Fixpoint elements (t : critbit) : list (list Z) :=
  match t with
  | Leaf s => [s]
  | Node _ _ l r => elements l ++ elements r
  end.

(** The node that inspects bit [K]. *)
Abbreviation BitNode K := (Node (K / 8) (255 - 2 ^ (7 - K mod 8))).

(** A node splits strings that agree before its bit. *)
Inductive wf : critbit -> Prop :=
| wf_leaf s : is_cstr s -> wf (Leaf s)
| wf_node K l r :
    0 <= K -> wf l -> wf r ->
    (forall s, s ∈ elements l -> bit s K = false) ->
    (forall s, s ∈ elements r -> bit s K = true) ->
    (forall s s', s ∈ elements l -> s' ∈ elements r -> agree K s s') ->
    wf (BitNode K l r).

Create HintDb critbit.

Lemma elements_inhabited t : exists s, s ∈ elements t.
Proof.
  induction t as [s|b o l [s Hs] r _]; [exists s|exists s]; simpl;
    rewrite ?elem_of_app; set_solver.
Qed.

Lemma wf_cstr t s : wf t -> s ∈ elements t -> is_cstr s.
Proof. induction 1; simpl; set_solver. Qed.
#[export] Hint Resolve wf_cstr : critbit.

(** All the strings below a node agree before its bit. *)
Lemma node_agree K l r s s' :
  wf (BitNode K l r) -> 0 <= K ->
  s ∈ elements l ++ elements r -> s' ∈ elements l ++ elements r ->
  (forall s s', s ∈ elements l -> s' ∈ elements r -> agree K s s') -> agree K s s'.
Proof.
  intros _ _ Hs Hs' H.
  destruct (elements_inhabited l) as [x Hx], (elements_inhabited r) as [y Hy].
  apply elem_of_app in Hs as [Hs|Hs], Hs' as [Hs'|Hs'].
  - transitivity y; [|symmetry]; auto.
  - auto.
  - symmetry; auto.
  - transitivity x; [symmetry|]; auto.
Qed.

Lemma direction_bit K u :
  is_cstr u -> 0 <= K ->
  direction (255 - 2 ^ (7 - K mod 8)) (char_at u (K / 8)) = if bit u K then 1 else 0.
Proof.
  intros Hu HK. unfold bit. pose proof (char_at_byte u (K / 8) Hu ltac:(lia)) as Hc.
  pose proof (byte_enum (fun c => forallb (fun k =>
    direction (255 - 2 ^ k) c =? (if Z.testbit c k then 1 else 0)) (seqZ 0 8)) eq_refl _ Hc) as H.
  rewrite forallb_forall in H. specialize (H (7 - K mod 8)).
  apply Z.eqb_eq, H, list_elem_of_In, elem_of_seqZ. lia.
Qed.

(** Descending by the key's bits. *)
Lemma walk_node K l r u :
  is_cstr u -> 0 <= K -> walk u (BitNode K l r) = if bit u K then walk u r else walk u l.
Proof. intros Hu HK. cbn -[direction]. rewrite direction_bit by done. by destruct (bit u K). Qed.

Lemma walk_elem u t : walk u t ∈ elements t.
Proof.
  induction t as [s|b o l IHl r IHr]; simpl; [set_solver|].
  rewrite elem_of_app. case_if; auto.
Qed.

(** The descent ends at a best match: no string of the tree agrees with the key longer. *)
Lemma walk_best u t n s :
  wf t -> is_cstr u -> 0 <= n -> s ∈ elements t -> agree n s u -> agree n (walk u t) u.
Proof.
  intros Hwf Hu Hn. revert s. induction Hwf as [s' Hs'|K l r HK Hl IHl Hr IHr H0 H1 Hag]; intros s Hs Ha.
  - simpl in *. by apply list_elem_of_singleton in Hs as ->.
  - rewrite walk_node by done.
    destruct (decide (K < n)) as [HKn|HKn].
    + pose proof (Ha K ltac:(lia)) as Hb. apply elem_of_app in Hs as [Hs|Hs].
      * rewrite <- Hb, (H0 _ Hs). eauto.
      * rewrite <- Hb, (H1 _ Hs). eauto.
    + assert (Hall : forall x, x ∈ elements l ++ elements r -> agree n x u).
      { intros x Hx. transitivity s; [|done]. apply (agree_le _ K); [lia|].
        eapply node_agree; eauto using wf_node. }
      destruct (bit u K).
      * destruct (elements_inhabited r) as [x Hx]. eapply IHr; [done|]. apply Hall. set_solver.
      * destruct (elements_inhabited l) as [x Hx]. eapply IHl; [done|]. apply Hall. set_solver.
Qed.

Lemma walk_mem u t : wf t -> is_cstr u -> walk u t = u <-> u ∈ elements t.
Proof.
  intros Hwf Hu. split; [intros <-; apply walk_elem|]. intros Hin.
  apply agree_all; eauto using walk_elem with critbit. intros n.
  destruct (decide (0 <= n)); [|intros m; lia].
  by apply (walk_best u t n u).
Qed.

(** ** The elements are strictly sorted *)

Lemma elements_sorted t : wf t -> StronglySorted slt (elements t).
Proof.
  induction 1 as [s Hs|K l r HK Hl IHl Hr IHr H0 H1 Hag]; simpl; [by repeat constructor|].
  apply StronglySorted_app_2; [|done..].
  intros x y Hx Hy. apply (slt_first_bit x y K); eauto with critbit.
Qed.

Lemma sorted_nodup (l : list (list Z)) : StronglySorted slt l -> NoDup l.
Proof.
  induction 1 as [|x l Hs IH Hx]; constructor; [|done]. intros Hin.
  exact (slt_irrefl x (proj1 (Forall_forall _ _) Hx x (proj1 (list_elem_of_In _ _) Hin))).
Qed.

Lemma sorted_ext (l l' : list (list Z)) :
  StronglySorted slt l -> StronglySorted slt l' -> (forall s, s ∈ l <-> s ∈ l') -> l = l'.
Proof.
  intros Hl Hl' H. apply (StronglySorted_unique slt); [done..|].
  apply NoDup_Permutation; auto using sorted_nodup.
Qed.

(** * Insertion *)

(** The first bit at which [p] and [u] differ, as the loop finds it. *)
Definition differs_at (p u : list Z) (K : Z) : Prop :=
  0 <= K /\ agree K p u /\ bit p K = negb (bit u K).

Lemma find_mismatch_spec fuel p u i :
  is_cstr p -> is_cstr u -> Z.of_nat (length u) < 2 ^ 32 ->
  0 <= i <= Z.of_nat (length u) -> i <= Z.of_nat (length p) ->
  Z.of_nat fuel = Z.of_nat (length u) - i + 1 ->
  (forall j, 0 <= j < i -> char_at p j = char_at u j) ->
  (find_mismatch fuel p u i = Some Same /\ p = u) \/
  (exists b, find_mismatch fuel p u i = Some (Differ b (Z.lxor (char_at p b) (char_at u b))) /\
     0 <= b <= Z.of_nat (length p) /\ char_at p b <> char_at u b /\
     forall j, 0 <= j < b -> char_at p j = char_at u j).
Proof.
  intros Hp Hu Hlen. revert i. induction fuel as [|fuel IH]; intros i Hi Hip Hf Hag; [lia|].
  cbn -[u32]. rewrite !peek_char_at by lia. simpl.
  destruct (Z.ltb_spec i (Z.of_nat (length u))) as [Hlt|Hge].
  - destruct (Z.eqb_spec (char_at p i) (char_at u i)) as [E|E]; cbn -[u32].
    + rewrite u32_small by lia. apply IH; try lia.
      * assert (Z.of_nat (length p) <> i); [|lia]. intros <-.
        rewrite char_at_end in E by lia. pose proof (char_at_pos u _ Hu (conj (proj1 Hi) Hlt)). lia.
      * intros j Hj. destruct (decide (j = i)) as [->|]; [done|]. apply Hag. lia.
    + right. exists i. split_and!; auto; lia.
  - assert (i = Z.of_nat (length u)) as -> by lia.
    pose proof (char_at_end u (Z.of_nat (length u)) ltac:(lia)) as Hend.
    destruct (Z.eqb_spec (char_at p (Z.of_nat (length u))) 0) as [E|E]; simpl.
    + left. split; [done|]. apply cstr_ext; [done..|]. intros j Hj.
      destruct (decide (j < Z.of_nat (length u))); [apply Hag; lia|].
      rewrite (char_at_end u) by lia.
      destruct (decide (Z.of_nat (length p) <= Z.of_nat (length u))); [by apply char_at_end; lia|].
      pose proof (char_at_pos p (Z.of_nat (length u)) Hp ltac:(lia)). lia.
    + right. exists (Z.of_nat (length u)). rewrite Hend, Z.lxor_0_r. split_and!; auto; lia.
Qed.

(** The mask isolates the highest differing bit. *)
Lemma other_bits_log2 x : 0 < x < 256 -> other_bits x = 255 - 2 ^ Z.log2 x.
Proof.
  intros Hx.
  pose proof (byte_enum (fun x => (x =? 0) || (other_bits x =? 255 - 2 ^ Z.log2 x)) eq_refl x
                ltac:(unfold is_byte; lia)) as H.
  cbv beta in H. apply orb_true_iff in H as [H|H]; bool_prop; lia.
Qed.

Lemma lxor_mismatch a b : is_byte a -> is_byte b -> a <> b -> 0 < Z.lxor a b < 256.
Proof.
  intros Ha Hb Hne. pose proof (lxor_byte a b Ha Hb) as H. unfold is_byte in H.
  assert (Z.lxor a b <> 0) by (intros E%Z.lxor_eq; lia). lia.
Qed.

Lemma mismatch_key p u b :
  is_cstr p -> is_cstr u -> 0 <= b -> char_at p b <> char_at u b ->
  (forall j, 0 <= j < b -> char_at p j = char_at u j) ->
  exists K, differs_at p u K /\ b = K / 8 /\
    other_bits (Z.lxor (char_at p b) (char_at u b)) = 255 - 2 ^ (7 - K mod 8).
Proof.
  intros Hp Hu Hb Hne Hag. set (x := Z.lxor _ _).
  pose proof (lxor_mismatch _ _ (char_at_byte p b Hp Hb) (char_at_byte u b Hu Hb) Hne) as Hx.
  fold x in Hx. set (k := Z.log2 x).
  assert (Hk : 0 <= k < 8).
  { split; [apply Z.log2_nonneg|]. apply Z.log2_lt_pow2; [lia|]. lia. }
  exists (8 * b + (7 - k)).
  assert (Hdiv : (8 * b + (7 - k)) / 8 = b) by lia.
  assert (Hmod : 7 - (8 * b + (7 - k)) mod 8 = k) by lia.
  unfold differs_at. split_and!; [lia| | |by rewrite Hdiv|].
  - intros m Hm. destruct (decide (m / 8 < b)).
    + unfold bit. by rewrite Hag by lia.
    + assert (m / 8 = b) as E by lia. unfold bit. rewrite E.
      pose proof (Z.bits_above_log2 x (7 - m mod 8) ltac:(lia) ltac:(lia)) as Hz.
      unfold x in Hz. rewrite Z.lxor_spec in Hz. by apply xorb_eq.
  - unfold bit. rewrite Hdiv, Hmod.
    pose proof (Z.bit_log2 x ltac:(lia)) as Hz. fold k in Hz. unfold x in Hz.
    rewrite Z.lxor_spec in Hz. by destruct (Z.testbit _ k), (Z.testbit _ k).
  - rewrite Hmod. apply other_bits_log2. lia.
Qed.

(** The comparison that stops the second descent is the order of the bit positions. *)
Lemma key_compare K K' :
  0 <= K -> 0 <= K' ->
  ((K' / 8 >? K / 8) || ((K' / 8 =? K / 8) && (255 - 2 ^ (7 - K' mod 8) >? 255 - 2 ^ (7 - K mod 8))))
  = (K <? K').
Proof.
  intros HK HK'. apply eq_true_iff_eq.
  rewrite orb_true_iff, andb_true_iff, !Z.gtb_gt, Z.eqb_eq, Z.ltb_lt.
  assert (Hp : 2 ^ (7 - K' mod 8) < 2 ^ (7 - K mod 8) <-> K mod 8 < K' mod 8).
  { rewrite <- Z.pow_lt_mono_r_iff by lia. lia. }
  revert Hp. generalize (2 ^ (7 - K' mod 8)), (2 ^ (7 - K mod 8)). intros; split; lia.
Qed.

Lemma place_node K d u K' l r :
  is_cstr u -> 0 <= K -> 0 <= K' ->
  place (K / 8) (255 - 2 ^ (7 - K mod 8)) d u (BitNode K' l r) =
  if K <? K' then new_node (K / 8) (255 - 2 ^ (7 - K mod 8)) d u (BitNode K' l r)
  else if bit u K' then BitNode K' l (place (K / 8) (255 - 2 ^ (7 - K mod 8)) d u r)
  else BitNode K' (place (K / 8) (255 - 2 ^ (7 - K mod 8)) d u l) r.
Proof.
  intros Hu HK HK'. cbn [place]. rewrite direction_bit by done.
  rewrite <- (key_compare K K') by done.
  destruct (K' / 8 >? K / 8); simpl; [done|].
  destruct ((K' / 8 =? K / 8) && _); [done|]. by destruct (bit u K').
Qed.

Lemma elements_new_node b o d u t s :
  s ∈ elements (new_node b o d u t) <-> s = u \/ s ∈ elements t.
Proof. unfold new_node. case_if; simpl; set_solver. Qed.

Lemma elements_place b o d u t s : s ∈ elements (place b o d u t) <-> s = u \/ s ∈ elements t.
Proof.
  induction t as [s'|b' o' l IHl r IHr]; cbn [place]; [apply elements_new_node|].
  repeat case_if; try apply elements_new_node; simpl; rewrite ?elem_of_app, ?IHl, ?IHr; tauto.
Qed.

Lemma new_node_wf K u t :
  wf t -> is_cstr u -> 0 <= K ->
  (forall s, s ∈ elements t -> agree K s u /\ bit s K = negb (bit u K)) ->
  wf (new_node (K / 8) (255 - 2 ^ (7 - K mod 8)) (if bit u K then 0 else 1) u t).
Proof.
  intros Ht Hu HK H. unfold new_node.
  destruct (bit u K) eqn:Hb; simpl; constructor; auto using wf_leaf; cbn [elements].
  - intros s Hs. by apply H.
  - by intros s ->%list_elem_of_singleton.
  - intros s s' Hs ->%list_elem_of_singleton. by apply H.
  - by intros s ->%list_elem_of_singleton.
  - intros s Hs. by apply H.
  - intros s s' ->%list_elem_of_singleton Hs. symmetry. by apply H.
Qed.

Lemma place_wf K u t p :
  wf t -> is_cstr u -> 0 <= K -> p ∈ elements t -> agree K p u ->
  (forall s, s ∈ elements t -> agree K s u -> bit s K = negb (bit u K)) ->
  wf (place (K / 8) (255 - 2 ^ (7 - K mod 8)) (if bit u K then 0 else 1) u t).
Proof.
  intros Hwf Hu HK. revert p.
  induction Hwf as [s Hs|K' l r HK' Hl IHl Hr IHr H0 H1 Hag]; intros p Hp Ha Hmax.
  { apply new_node_wf; auto using wf_leaf. simpl in *.
    apply list_elem_of_singleton in Hp as ->.
    intros s' ->%list_elem_of_singleton. split; [done|]. apply Hmax; set_solver. }
  assert (Hnode : wf (BitNode K' l r)) by eauto using wf_node.
  rewrite place_node by done. destruct (Z.ltb_spec K K') as [HKK|HKK].
  { apply new_node_wf; try done. intros s Hs.
    assert (agree K s u).
    { transitivity p; [|done]. apply (agree_le _ K'); [lia|]. eapply node_agree; eauto. }
    auto. }
  assert (Hall : forall s, s ∈ elements l ++ elements r -> agree K' s u).
  { intros s Hs. transitivity p; [eapply node_agree; eauto|]. by apply (agree_le _ K). }
  assert (Hlt : K' < K).
  { destruct (decide (K' = K)) as [->|]; [exfalso|lia].
    destruct (elements_inhabited l) as [x Hx], (elements_inhabited r) as [y Hy].
    pose proof (Hmax x ltac:(set_solver) ltac:(apply Hall; set_solver)) as Ex.
    pose proof (Hmax y ltac:(set_solver) ltac:(apply Hall; set_solver)) as Ey.
    rewrite (H0 x Hx) in Ex. rewrite (H1 y Hy) in Ey. by destruct (bit u K). }
  pose proof (Ha K' ltac:(lia)) as Hpu. simpl in Hp, Hmax.
  apply elem_of_app in Hp as [Hp|Hp].
  - rewrite (H0 p Hp) in Hpu. rewrite <- Hpu.
    assert (wf (place (K / 8) (255 - 2 ^ (7 - K mod 8)) (if bit u K then 0 else 1) u l))
      by (eapply IHl; eauto; set_solver).
    constructor; try done.
    + intros s [->|?]%elements_place; auto.
    + intros s s' [->|?]%elements_place Hs'; [symmetry; apply Hall; set_solver|auto].
  - rewrite (H1 p Hp) in Hpu. rewrite <- Hpu.
    assert (wf (place (K / 8) (255 - 2 ^ (7 - K mod 8)) (if bit u K then 0 else 1) u r))
      by (eapply IHr; eauto; set_solver).
    constructor; try done.
    + intros s [->|?]%elements_place; auto.
    + intros s s' Hs [->|?]%elements_place; [apply Hall; set_solver|auto].
Qed.
