(* ===== verification/CritbitCorrect.v ===== *)
(** The operations of [Critbit.v] refine a strictly sorted list of strings: membership,
    ordered insertion, removal, the least element with a prefix and the ordered visit of all
    the elements with a prefix. *)
From stdpp Require Import sets sorting.
From S2P Require Import Prelude Critbit CritbitFacts.

(** * The abstract set of strings *)

Fixpoint sinsert (u : list Z) (l : list (list Z)) : list (list Z) :=
  match l with
  | [] => [u]
  | s :: l' =>
    if strcmp u s <? 0 then u :: l else if strcmp u s =? 0 then l else s :: sinsert u l'
  end.

(** Calls a callback on the elements in order until it returns a nonzero code. *)
Fixpoint visit {A} (callback : list Z -> A -> Z * A) (l : list (list Z)) (arg : A) : Z * A :=
  match l with
  | [] => (0, arg)
  | s :: l' =>
    let '(rc, arg) := callback s arg in
    if negb (rc =? 0) then (rc, arg) else visit callback l' arg
  end.

Definition prefixed (u : list Z) (l : list (list Z)) : list (list Z) :=
  filter (fun s => u `prefix_of` s) l.

(** A call: the booleans of [Insert] are the outcomes of its two allocations, [stop] is the
    code the callback returns for an element. *)
Inductive op :=
| Contains (u : list Z)
| Insert (malloc_node malloc_dup : bool) (u : list Z)
| Delete (u : list Z)
| Get (u : list Z)
| AllPrefixed (u : list Z) (stop : list Z -> Z)
| Clear.

Inductive result :=
| RBool (b : bool)
| RInt (z : Z)
| RString (s : option (list Z))
| RVisit (rc : Z) (visited : list (list Z))
| RVoid.

Definition recorder (stop : list Z -> Z) (s : list Z) (seen : list (list Z)) :
    Z * list (list Z) :=
  (stop s, seen ++ [s]).

Definition spec_step (l : list (list Z)) (o : op) : result * list (list Z) :=
  match o with
  | Contains u => (RBool (bool_decide (u ∈ l)), l)
  | Insert malloc_node malloc_dup u =>
    if bool_decide (u ∈ l) then (RInt 0, l)
    else if (malloc_node || bool_decide (l = [])) && malloc_dup
    then (RInt 1, sinsert u l) else (RInt (-1), l)
  | Delete u => (RBool (bool_decide (u ∈ l)), filter (fun s => s <> u) l)
  | Get u => (RString (head (prefixed u l)), l)
  | AllPrefixed u stop =>
    let '(rc, seen) := visit (recorder stop) (prefixed u l) [] in (RVisit rc seen, l)
  | Clear => (RVoid, [])
  end.

Definition impl_step (t : critbit0) (o : op) : option (result * critbit0) :=
  match o with
  | Contains u => Some (RBool (critbit0_contains t u), t)
  | Insert malloc_node malloc_dup u =>
    '(rc, t') ← critbit0_insert malloc_node malloc_dup t u; Some (RInt rc, t')
  | Delete u => let '(b, t') := critbit0_delete t u in Some (RBool b, t')
  | Get u => Some (RString (critbit0_get t u), t)
  | AllPrefixed u stop =>
    '(rc, seen) ← critbit0_allprefixed t u (recorder stop) []; Some (RVisit rc seen, t)
  | Clear => Some (RVoid, snd (critbit0_clear t))
  end.

Fixpoint spec_run (l : list (list Z)) (os : list op) : list result * list (list Z) :=
  match os with
  | [] => ([], l)
  | o :: os' =>
    let '(r, l') := spec_step l o in
    let '(rs, l'') := spec_run l' os' in (r :: rs, l'')
  end.

Fixpoint impl_run (t : critbit0) (os : list op) : option (list result * critbit0) :=
  match os with
  | [] => Some ([], t)
  | o :: os' =>
    '(r, t') ← impl_step t o;
    '(rs, t'') ← impl_run t' os'; Some (r :: rs, t'')
  end.

(** A key a C caller can pass: nonzero bytes, shorter than the [uint32_t] of a node. *)
Definition is_key (u : list Z) : Prop := is_cstr u /\ Z.of_nat (length u) < 2 ^ 32.

Definition op_ok (o : op) : Prop :=
  match o with
  | Contains u | Insert _ _ u | Delete u | Get u | AllPrefixed u _ => is_key u
  | Clear => True
  end.

(** The strings of a whole set. *)
Definition strings (t : critbit0) : list (list Z) :=
  match root t with None => [] | Some r => elements r end.

(** The type invariant of [struct critbit0]. *)
Definition critbit0_ok (t : critbit0) : Prop :=
  (forall r, root t = Some r -> wf r) /\ count t = u64 (Z.of_nat (length (strings t))).

(** * The string order is a strict total order *)

Lemma slt_trans a b c : is_cstr a -> is_cstr b -> is_cstr c -> slt a b -> slt b c -> slt a c.
Proof.
  unfold slt. intros Ha. revert b c.
  induction Ha as [|x a Hx Ha IH]; intros b c Hb Hc; destruct Hb as [|y b Hy Hb];
    destruct Hc as [|z c Hz Hc]; cbn -[Z.eqb]; try lia.
  destruct (Z.eqb_spec x y) as [->|]; destruct (Z.eqb_spec y z) as [->|]; cbn -[Z.eqb];
    rewrite ?(proj2 (Z.eqb_neq _ 0)) by lia; simpl;
    first [lia | by eauto | destruct (Z.eqb_spec x z) as [->|]; simpl; lia].
Qed.

Section SortedInsert.
Context (u : list Z) (Hu : is_cstr u).

Lemma sinsert_elem l s :
  Forall is_cstr l -> s ∈ sinsert u l <-> s = u \/ s ∈ l.
Proof using Hu.
  induction 1 as [|x l Hx Hl IH]; simpl; [set_solver|].
  repeat case_if; bool_prop.
  - set_solver.
  - apply strcmp_eq in E0 as ->; [|done..]. set_solver.
  - rewrite !elem_of_cons, IH. tauto.
Qed.

Lemma sinsert_sorted l :
  Forall is_cstr l -> StronglySorted slt l -> StronglySorted slt (sinsert u l).
Proof using Hu.
  intros Hl Hs. induction Hs as [|x l Hs IH Hx]; simpl; [by repeat constructor|].
  apply Forall_cons_1 in Hl as [Hcx Hl].
  repeat case_if; bool_prop; [|by constructor|].
  - constructor; [by constructor|]. constructor; [done|].
    rewrite Forall_forall in *. intros y Hy. apply (slt_trans u x y); auto.
  - constructor; [auto|]. rewrite Forall_forall in *. intros y Hy.
    apply list_elem_of_In, sinsert_elem in Hy as [->|Hy]; [| |by rewrite Forall_forall].
    + unfold slt. rewrite strcmp_opp. lia.
    + apply Hx. by apply list_elem_of_In.
Qed.
End SortedInsert.

Lemma wf_elements_cstr t : wf t -> Forall is_cstr (elements t).
Proof. intros H. apply Forall_forall. intros s Hs%list_elem_of_In. eauto with critbit. Qed.

(** * Contains *)

Lemma strcmp_walk t u : wf t -> is_cstr u -> strcmp u (walk u t) = 0 <-> u ∈ elements t.
Proof.
  intros Ht Hu. rewrite strcmp_eq by eauto using walk_elem with critbit.
  rewrite <- walk_mem by done. split; congruence.
Qed.

Lemma contains_spec t u : critbit0_ok t -> is_cstr u ->
  critbit0_contains t u = bool_decide (u ∈ strings t).
Proof.
  intros [Hwf _] Hu. unfold critbit0_contains, strings. destruct (root t) as [r|]; [|done].
  specialize (Hwf r eq_refl). rewrite Z.eqb_sym. apply eq_true_iff_eq.
  by rewrite Z.eqb_eq, bool_decide_eq_true, strcmp_walk.
Qed.

(** * Insert *)

Lemma place_elements K u t p :
  wf t -> is_cstr u -> p = walk u t -> differs_at p u K ->
  let t' := place (K / 8) (255 - 2 ^ (7 - K mod 8)) (if bit u K then 0 else 1) u t in
  wf t' /\ elements t' = sinsert u (elements t).
Proof.
  intros Ht Hu -> (HK & Ha & Hd) t'.
  assert (Hwf : wf t').
  { apply (place_wf K u t (walk u t)); auto using walk_elem. intros s Hs Hag.
    destruct (bool_eq_dec (bit s K) (bit u K)) as [E|E]; [|by destruct (bit s K), (bit u K)].
    pose proof (walk_best u t (K + 1) s Ht Hu ltac:(lia) Hs (agree_next _ _ _ HK Hag E) K ltac:(lia)) as H.
    rewrite Hd in H. by destruct (bit u K). }
  split; [done|]. pose proof (wf_elements_cstr t Ht).
  apply sorted_ext; auto using elements_sorted, sinsert_sorted. intros s.
  unfold t'. by rewrite sinsert_elem, elements_place.
Qed.

Lemma length_sinsert u l :
  is_cstr u -> Forall is_cstr l -> u ∉ l -> length (sinsert u l) = S (length l).
Proof.
  intros Hu Hl. induction Hl as [|x l Hx Hl IH]; intros Hn; simpl; [done|].
  repeat case_if; bool_prop; [done| |].
  - apply strcmp_eq in E0 as ->; [|done..]. set_solver.
  - simpl. rewrite IH; [done|set_solver].
Qed.

Lemma insert_spec mn md t u :
  critbit0_ok t -> is_key u ->
  exists rc t', critbit0_insert mn md t u = Some (rc, t') /\ critbit0_ok t' /\
    spec_step (strings t) (Insert mn md u) = (RInt rc, strings t').
Proof.
  intros Hok [Hu Hlen]. pose proof Hok as [Hwf Hcount].
  unfold critbit0_insert, critbit0_emplace, strings, spec_step.
  destruct (root t) as [r|] eqn:Hr; cbn [orb].
  2:{ rewrite orb_true_r. destruct md; eexists _, _; split_and!; try done.
      - split; [intros r [= <-]; by constructor|done].
      - by rewrite Hr. }
  specialize (Hwf r eq_refl). unfold strings in Hcount. rewrite Hr in Hcount.
  assert (Hp : is_cstr (walk u r)) by eauto using walk_elem with critbit.
  assert (Hne : bool_decide (elements r = []) = false).
  { apply bool_decide_eq_false. destruct (elements_inhabited r) as [s Hs]. intros E. rewrite E in Hs. by apply not_elem_of_nil in Hs. }
  destruct (find_mismatch_spec (S (length u)) (walk u r) u 0 Hp Hu Hlen)
    as [[-> Hsame]|(b & -> & Hb & Hdiff & Hag)]; try lia; simpl.
  - rewrite bool_decide_true by (by apply walk_mem).
    exists 0, t. split_and!; [done..|by rewrite Hr].
  - assert (Hn : u ∉ elements r) by (intros E%walk_mem; [|done..]; rewrite E in Hdiff; done).
    rewrite bool_decide_false by done.
    rewrite Hne, orb_false_r, peek_char_at by lia. simpl.
    destruct (mn && md); [|exists (-1), t; split_and!; [done..|by rewrite Hr]].
    destruct (mismatch_key (walk u r) u b Hp Hu ltac:(lia) Hdiff Hag) as (K & HK & -> & ->).
    assert (Hdir : direction (255 - 2 ^ (7 - K mod 8)) (char_at (walk u r) (K / 8))
                   = if bit u K then 0 else 1).
    { destruct HK as (HK & _ & Hd). rewrite direction_bit, Hd by done. by destruct (bit u K). }
    destruct (place_elements K u r _ Hwf Hu eq_refl HK) as [Hwf' Hel].
    eexists _, _. split_and!; [done| |].
    + split; [by intros ? [= <-]; rewrite Hdir|]. unfold strings. simpl. rewrite Hdir, Hel.
      rewrite length_sinsert by eauto using wf_elements_cstr.
      rewrite Hcount. unfold u64. lia.
    + simpl. by rewrite Hdir, Hel.
Qed.

(** * Delete *)

Lemma splice_spec u t :
  wf t -> is_cstr u -> u ∈ elements t ->
  match splice u t with
  | None => elements t = [u]
  | Some t' => wf t' /\ forall s, s ∈ elements t' <-> s ∈ elements t /\ s <> u
  end.
Proof.
  intros Hwf Hu. induction Hwf as [s Hs|K l r HK Hl IHl Hr IHr H0 H1 Hag]; intros Hin.
  { simpl in *. by apply list_elem_of_singleton in Hin as ->. }
  cbn [splice elements] in *. rewrite direction_bit by done.
  apply elem_of_app in Hin as [Hin|Hin].
  - rewrite (H0 u Hin). simpl. specialize (IHl Hin).
    assert (Hnr : u ∉ elements r) by (intros H%H1; rewrite (H0 u Hin) in H; done).
    destruct (splice u l) as [l'|]; [destruct IHl as [Hl' E]; split; [constructor|]|split]; auto.
    + intros s [? _]%E. auto.
    + intros s s' [? _]%E. auto.
    + simpl. intros s. rewrite !elem_of_app, E. set_solver.
    + intros s. rewrite IHl. set_solver.
  - rewrite (H1 u Hin). simpl. specialize (IHr Hin).
    assert (Hnl : u ∉ elements l) by (intros H%H0; rewrite (H1 u Hin) in H; done).
    destruct (splice u r) as [r'|]; [destruct IHr as [Hr' E]; split; [constructor|]|split]; auto.
    + intros s [? _]%E. auto.
    + intros s s' ? [? _]%E. auto.
    + simpl. intros s. rewrite !elem_of_app, E. set_solver.
    + intros s. rewrite IHr. set_solver.
Qed.

Lemma sorted_filter (P : list Z -> Prop) `{!forall s, Decision (P s)} l :
  StronglySorted slt l -> StronglySorted slt (filter P l).
Proof.
  induction 1 as [|x l Hs IH Hx]; [constructor|]. rewrite filter_cons.
  destruct (decide (P x)); [|done]. constructor; [done|].
  rewrite Forall_forall in *. intros y Hy%list_elem_of_In.
  apply list_elem_of_filter in Hy as [_ Hy]. by apply Hx, list_elem_of_In.
Qed.

Lemma length_remove u (l : list (list Z)) :
  NoDup l -> u ∈ l -> length l = S (length (filter (fun s => s <> u) l)).
Proof.
  induction 1 as [|x l Hx Hl IH]; intros Hin; [by apply not_elem_of_nil in Hin|].
  rewrite filter_cons. apply elem_of_cons in Hin as [->|Hin].
  - rewrite decide_False by auto. simpl. f_equal. f_equal. symmetry. apply filter_all.
    intros s Hs ->. done.
  - rewrite decide_True by (intros ->; done). simpl. by rewrite <- IH.
Qed.

Lemma delete_spec t u :
  critbit0_ok t -> is_cstr u ->
  critbit0_ok (snd (critbit0_delete t u)) /\
  fst (critbit0_delete t u) = bool_decide (u ∈ strings t) /\
  strings (snd (critbit0_delete t u)) = filter (fun s => s <> u) (strings t).
Proof.
  intros Hok Hu. pose proof Hok as [Hwf Hcount].
  unfold critbit0_delete, strings in *. destruct (root t) as [r|] eqn:Hr.
  2:{ simpl. rewrite Hr. done. }
  specialize (Hwf r eq_refl). destruct (Z.eqb_spec (strcmp u (walk u r)) 0) as [E|E]; simpl.
  - apply strcmp_walk in E; [|done..]. pose proof (splice_spec u r Hwf Hu E) as Hs.
    pose proof (length_remove u _ (sorted_nodup _ (elements_sorted r Hwf)) E) as Hlen.
    rewrite bool_decide_true by done. destruct (splice u r) as [r'|]; simpl.
    + destruct Hs as [Hwf' Hs].
      assert (Hel : elements r' = filter (fun s => s <> u) (elements r)).
      { apply sorted_ext; auto using elements_sorted, sorted_filter. intros s.
        rewrite Hs, list_elem_of_filter. tauto. }
      split_and!; [|done..]. split; [by intros ? [= <-]|].
      unfold strings. simpl. rewrite Hel, Hcount, Hlen. unfold u64. lia.
    + rewrite Hs. split_and!; [done..|]. by rewrite filter_cons, decide_False by auto.
  - rewrite Hr. rewrite strcmp_walk in E by done. rewrite bool_decide_false by done.
    split_and!; [done..|]. symmetry. apply filter_all. intros s Hs ->. done.
Qed.

(** * Prefix search *)

Lemma traverse_visit {A} (callback : list Z -> A -> Z * A) t arg :
  allprefixed_traverse callback t arg = visit callback (elements t) arg.
Proof.
  assert (Happ : forall l1 l2 arg, visit callback (l1 ++ l2) arg =
    let '(rc, arg) := visit callback l1 arg in
    if negb (rc =? 0) then (rc, arg) else visit callback l2 arg).
  { induction l1 as [|s l1 IH]; intros l2 a; simpl; [done|].
    destruct (callback s a) as [rc a']. destruct (rc =? 0) eqn:E; simpl; [apply IH|by rewrite E]. }
  revert arg. induction t as [s|b o l IHl r IHr]; intros arg; simpl.
  - destruct (callback s arg) as [rc a]. destruct (Z.eqb_spec rc 0) as [->|]; done.
  - rewrite Happ, IHl. destruct (visit callback (elements l) arg) as [rc a].
    case_if; [done|]. rewrite IHr. destruct (visit callback (elements r) a) as [rc' a'].
    destruct (Z.eqb_spec rc' 0) as [->|]; done.
Qed.

Lemma same_prefix_spec p u :
  is_cstr p -> is_cstr u ->
  same_prefix p u 0 (length u) = Some (bool_decide (u `prefix_of` p)).
Proof.
  intros Hp Hu.
  assert (forall n i, 0 <= i -> Z.of_nat n + i = Z.of_nat (length u) -> i <= Z.of_nat (length p) ->
    (forall j, 0 <= j < i -> char_at p j = char_at u j) ->
    same_prefix p u i n = Some (bool_decide (u `prefix_of` p))) as H.
  { intros n. induction n as [|n IH]; intros i Hi Hn Hip Hag; cbn [same_prefix].
    - rewrite bool_decide_true; [done|]. apply prefix_agree, agree_bytes; try done; [lia|].
      intros j Hj. apply Hag. lia.
    - rewrite peek_char_at by lia. simpl.
      destruct (Z.eqb_spec (char_at p i) (char_at u i)) as [E|E]; simpl.
      + apply IH; try lia.
        * assert (Z.of_nat (length p) <> i); [|lia]. intros <-. rewrite char_at_end in E by lia.
          pose proof (char_at_pos u (Z.of_nat (length p)) Hu ltac:(lia)). lia.
        * intros j Hj. destruct (decide (j = i)) as [->|]; [done|]. apply Hag. lia.
      + rewrite bool_decide_false; [done|].
        intros H%prefix_agree; [|done..]. rewrite agree_bytes in H by (done || lia).
        apply E, H. lia. }
  apply H; lia.
Qed.

Section Prefix.
Context (u : list Z) (Hu : is_cstr u).
Local Abbreviation N := (8 * Z.of_nat (length u)).

(** A tree whose strings agree on the prefix has no node inside it. *)
Lemma node_outside K l r s :
  0 <= K ->
  (forall s, s ∈ elements l -> bit s K = false) ->
  (forall s, s ∈ elements r -> bit s K = true) ->
  (forall s', s' ∈ elements l ++ elements r -> agree N s' s) -> N <= K.
Proof using Hu.
  intros HK H0 H1 H. destruct (decide (N <= K)) as [|Hlt]; [done|exfalso].
  destruct (elements_inhabited l) as [x Hx], (elements_inhabited r) as [y Hy].
  pose proof (H x ltac:(set_solver) K ltac:(lia)) as Ex.
  pose proof (H y ltac:(set_solver) K ltac:(lia)) as Ey.
  rewrite (H0 x Hx) in Ex. rewrite (H1 y Hy) in Ey. congruence.
Qed.

Lemma bit_outside K : N <= K -> bit u K = false.
Proof using. intros HK. unfold bit. rewrite char_at_end by lia. apply Z.bits_0. Qed.

(** There the descent goes left, and [top] no longer moves. *)
Lemma walk_outside t top s :
  wf t -> (forall s', s' ∈ elements t -> agree N s' s) ->
  walk_top u t top = (walk u t, top) /\ head (elements t) = Some (walk u t).
Proof using Hu.
  intros Hwf. induction Hwf as [s' Hs'|K l r HK Hl IHl Hr IHr H0 H1 Hag]; intros H; [done|].
  pose proof (node_outside K l r s HK H0 H1 H) as HN.
  rewrite walk_node, bit_outside by done. cbn -[direction]. rewrite direction_bit, bit_outside by done.
  rewrite (proj2 (Z.ltb_ge _ _)) by lia. cbn -[direction].
  destruct IHl as [-> Hh]; [intros; apply H; set_solver|]. split; [done|].
  by destruct (elements l).
Qed.

Lemma walk_top_spec t :
  wf t -> u `prefix_of` walk u t ->
  let top := snd (walk_top u t t) in
  fst (walk_top u t t) = walk u t /\ wf top /\ elements top = prefixed u (elements t) /\
  head (elements top) = Some (walk u t).
Proof using Hu.
  intros Hwf. induction Hwf as [s' Hs'|K l r HK Hl IHl Hr IHr H0 H1 Hag]; intros Hpre.
  { simpl in *. split_and!; [done|by constructor| |done]. unfold prefixed.
    by rewrite filter_cons, decide_True. }
  assert (Hnode : wf (BitNode K l r)) by eauto using wf_node.
  assert (Hw : agree N (walk u (BitNode K l r)) u).
  { apply prefix_agree; eauto using walk_elem with critbit. }
  destruct (decide (N <= K)) as [HN|HN].
  - assert (Hall : forall s', s' ∈ elements (BitNode K l r) -> agree N s' u).
    { intros s' Hs'. etransitivity; [|exact Hw]. apply (agree_le _ K); [done|].
      eapply node_agree; eauto. apply (walk_elem u (BitNode K l r)). }
    destruct (walk_outside _ (BitNode K l r) u Hnode Hall) as [-> Hh].
    split_and!; [done..| |done]. unfold prefixed. symmetry. apply filter_all.
    intros s Hs. apply prefix_agree; eauto with critbit.
  - rewrite walk_node in Hpre |- * by done. cbn -[direction] in *. rewrite direction_bit by done.
    rewrite (proj2 (Z.ltb_lt _ _)) by lia. cbn -[direction] in *.
    unfold prefixed in *. rewrite list.filter_app.
    assert (Hnone : forall t', (forall s, s ∈ elements t' -> is_cstr s /\ bit s K = negb (bit u K)) ->
      filter (fun s => u `prefix_of` s) (elements t') = []).
    { intros t' Ht'. apply filter_none. intros s [Hcs Hs]%Ht' Hp.
      apply prefix_agree in Hp; [|done..]. rewrite (Hp K ltac:(lia)) in Hs. by destruct (bit u K). }
    destruct (bit u K) eqn:Eb.
    + rewrite (Hnone l), app_nil_l by eauto with critbit. by apply IHr.
    + rewrite (Hnone r), app_nil_r by eauto with critbit. by apply IHl.
Qed.

(** Without a match at the end of the descent no string has the prefix. *)
Lemma walk_no_prefix t : wf t -> ~ u `prefix_of` walk u t -> prefixed u (elements t) = [].
Proof using Hu.
  intros Hwf Hn. apply filter_none. intros s Hs Hp. apply Hn.
  apply prefix_agree; eauto using walk_elem with critbit.
  apply (walk_best u t _ s); [done..|lia|done|]. apply prefix_agree; eauto with critbit.
Qed.

Lemma critbit0_get_spec t : critbit0_ok t -> critbit0_get t u = head (prefixed u (strings t)).
Proof using Hu.
  intros [Hwf _]. unfold critbit0_get, strings. destruct (root t) as [r|]; [|done].
  specialize (Hwf r eq_refl). rewrite strncmp_prefix by done. case_bool_decide as Hp.
  - destruct (walk_top_spec r Hwf Hp) as (_ & _ & <- & ->). done.
  - by rewrite walk_no_prefix.
Qed.

Lemma walk_top_fst t top : fst (walk_top u t top) = walk u t.
Proof using.
  revert top. induction t as [s|b o l IHl r IHr]; intros top; [done|].
  cbn -[direction]. case_if; auto.
Qed.
End Prefix.

(** The callback sees exactly the strings of the set that start with the prefix, in
    [strcmp] order, until it returns a nonzero code. *)
Lemma allprefixed_spec {A} (t : critbit0) (u : list Z)
    (callback : list Z -> A -> Z * A) (arg : A) :
  critbit0_ok t -> is_cstr u ->
  critbit0_allprefixed t u callback arg = Some (visit callback (prefixed u (strings t)) arg).
Proof.
  intros [Hwf _] Hu. unfold critbit0_allprefixed, strings.
  destruct (root t) as [r|]; [|done]. specialize (Hwf r eq_refl).
  pose proof (walk_top_fst u r r) as Hw. destruct (walk_top u r r) as [p top] eqn:E. simpl in Hw.
  subst p. rewrite same_prefix_spec by eauto using walk_elem with critbit. simpl.
  case_bool_decide as Hp.
  - destruct (walk_top_spec u Hu r Hwf Hp) as (_ & _ & <- & _). rewrite E. by rewrite traverse_visit.
  - by rewrite walk_no_prefix.
Qed.

(** * Whole runs *)

Lemma empty_ok : critbit0_ok critbit0_empty.
Proof. split; [by intros r|done]. Qed.

Lemma ok_sorted t : critbit0_ok t -> StronglySorted slt (strings t).
Proof.
  intros [Hwf _]. unfold strings. destruct (root t); [|constructor]. by apply elements_sorted, Hwf.
Qed.

Lemma step_refines t o :
  critbit0_ok t -> op_ok o ->
  exists r t', impl_step t o = Some (r, t') /\ critbit0_ok t' /\
    spec_step (strings t) o = (r, strings t').
Proof.
  intros Hok Ho. destruct o as [u|mn md u|u|u|u stop|]; cbn [impl_step spec_step op_ok] in *.
  - destruct Ho as [Hu _]. eexists _, _. rewrite contains_spec by done. done.
  - destruct (insert_spec mn md t u Hok Ho) as (rc & t' & -> & Hok' & Hs). by eexists _, _.
  - destruct Ho as [Hu _]. destruct (delete_spec t u Hok Hu) as (Hok' & E & Es).
    destruct (critbit0_delete t u) as [b t']. simpl in *. eexists _, _.
    split_and!; [done..|]. by rewrite E, Es.
  - destruct Ho as [Hu _]. eexists _, _. rewrite critbit0_get_spec by done. done.
  - destruct Ho as [Hu _].
    assert (E : critbit0_allprefixed t u (recorder stop) []
                = Some (visit (recorder stop) (prefixed u (strings t)) []))
      by (by apply allprefixed_spec).
    rewrite E. simpl. destruct (visit _ _ _) as [rc seen]. by eexists _, _.
  - eexists _, _. split_and!; [done|exact empty_ok|done].
Qed.

(** C9: starting from the empty set, any sequence of calls with C strings, whatever its
    allocations do, reads no string past its terminator and returns call by call what the
    same calls return on a list of strings kept in [strcmp] order, the tree's own order. *)
Theorem critbit0_refines (os : list op) :
  Forall op_ok os ->
  exists t, impl_run critbit0_empty os = Some (fst (spec_run [] os), t) /\
    strings t = snd (spec_run [] os) /\ StronglySorted slt (strings t).
Proof.
  assert (H : forall os t, critbit0_ok t -> Forall op_ok os ->
    exists t', impl_run t os = Some (fst (spec_run (strings t) os), t') /\
      strings t' = snd (spec_run (strings t) os) /\ StronglySorted slt (strings t')).
  { clear os. induction os as [|o os IH]; intros t Hok Hos; [by exists t; auto using ok_sorted|].
    apply Forall_cons_1 in Hos as [Ho Hos].
    destruct (step_refines t o Hok Ho) as (r & t1 & E & Hok1 & Es).
    destruct (IH t1 Hok1 Hos) as (t2 & Er & Et & Hs). exists t2. cbn [impl_run spec_run].
    rewrite E, Es. simpl. rewrite Er. simpl. by destruct (spec_run (strings t1) os). }
  intros Hos. exact (H os critbit0_empty empty_ok Hos).
Qed.

Definition sample_ops : list op :=
  (Insert true true <$> sample_keys) ++
  [Insert false true (ascii_codes "tent"%string); Insert false false (ascii_codes "to"%string);
   Delete (ascii_codes "tea"%string); Get (ascii_codes "te"%string);
   AllPrefixed (ascii_codes "t"%string) (fun _ => 0); Clear; Contains []].

Lemma sample_ops_ok : Forall op_ok sample_ops.
Proof. repeat constructor; vm_compute; repeat constructor; done. Defined.

(** The run of the sample: six insertions, a failed one, one already present, a deletion. *)
Lemma critbit0_refines_witness :
  exists t, impl_run critbit0_empty sample_ops = Some (fst (spec_run [] sample_ops), t) /\
    strings t = snd (spec_run [] sample_ops) /\ StronglySorted slt (strings t).
Proof. exact (critbit0_refines sample_ops sample_ops_ok). Defined.

Example sample_results :
  fst (spec_run [] sample_ops) =
  [RInt 1; RInt 1; RInt 1; RInt 1; RInt 1; RInt 1; RInt (-1); RInt 0; RBool true;
   RString (Some (ascii_codes "ten"%string));
   RVisit 0 (ascii_codes <$> ["ten"; "to"; "tool"]%string); RVoid; RBool false].
Proof. vm_compute. reflexivity. Qed.

(** C33: every call keeps the type invariant of [struct critbit0]: each node tests a bit at
    which its strings first differ, its left strings have that bit clear and its right ones
    have it set, every leaf is a C string, and [count] is the number of leaves. *)
Theorem critbit0_typed t o r t' :
  critbit0_ok t -> op_ok o -> impl_step t o = Some (r, t') -> critbit0_ok t'.
Proof.
  intros Hok Ho E. destruct (step_refines t o Hok Ho) as (r1 & t1 & E1 & Hok1 & _). congruence.
Qed.

Lemma critbit0_typed_witness :
  impl_step critbit0_empty (Insert true true [97]) = Some (RInt 1, Critbit0 (Some (Leaf [97])) 1)
  /\ critbit0_ok (Critbit0 (Some (Leaf [97])) 1).
Proof.
  split; [reflexivity|].
  apply (critbit0_typed critbit0_empty (Insert true true [97]) (RInt 1));
    [exact empty_ok|split; [repeat constructor|]; done|reflexivity].
Defined.

(** ** Clearing frees every block once *)

Fixpoint blocks (t : critbit) : list block :=
  match t with
  | Leaf s => [BString s]
  | Node b o l r => BNode b o :: blocks l ++ blocks r
  end.

Lemma clear_frees t : critbit0_clear_traverse t ≡ₚ blocks t.
Proof.
  induction t as [s|b o l IHl r IHr]; simpl; [done|].
  rewrite IHl, IHr, (assoc_L (++)). symmetry. apply Permutation_cons_append.
Qed.

(** Allocations are conserved: a successful insertion adds one string and one node, and a
    crit-bit tree of n strings has n - 1 nodes. *)
Lemma blocks_count t : length (blocks t) = (2 * length (elements t) - 1)%nat.
Proof.
  induction t as [s|b o l IHl r IHr]; simpl; [done|].
  rewrite !length_app, IHl, IHr.
  assert (forall t, (0 < length (elements t))%nat) as H.
  { intros t. destruct (elements_inhabited t) as [s Hs]. destruct (elements t); simpl; [by apply not_elem_of_nil in Hs|lia]. }
  pose proof (H l). pose proof (H r). lia.
Qed.
