(* ===== verification/Sort.v ===== *)
(** Sorting of integer arrays: the quicksort with an insertion sort below 33 elements of
    [libc/str/intsort.c] and [libc/str/longsort.c], the dispatch of [libc/str/djbsort.c] and
    the least-significant-digit radix sorts of [libc/mem/radix_sort_int32.c] and
    [libc/mem/radix_sort_int64.c]. An array is a list; an access outside it is [None]. The
    two quicksorts differ only in the width of the elements they compare, which are never
    computed with. *)
From S2P Require Import Prelude.

(** * Arrays *)

Definition get (A : list Z) (i : Z) : option Z := if 0 <=? i then A !! Z.to_nat i else None.

(** [A[i] = v]. *)
Definition put (A : list Z) (i v : Z) : option (list Z) :=
  if (0 <=? i) && (i <? Z.of_nat (length A)) then Some (<[Z.to_nat i := v]> A) else None.

(** * Insertion sort *)

(** The loop [while (j >= 0 && A[j] > t)] and the store after it; the counter is [j + 1]. *)
Fixpoint insertion_shift (A : list Z) (t : Z) (j1 : nat) : option (list Z) :=
  match j1 with
  | O => put A 0 t
  | S j =>
    a ← get A (Z.of_nat j);
    if a >? t then
      A' ← put A (Z.of_nat j + 1) a;
      insertion_shift A' t j
    else put A (Z.of_nat j + 1) t
  end.

(** The outer loop with [n - i] iterations left. *)
Fixpoint insertion_loop (left : nat) (A : list Z) (i : nat) : option (list Z) :=
  match left with
  | O => Some A
  | S left' =>
    t ← get A (Z.of_nat i);
    A' ← insertion_shift A t i;
    insertion_loop left' A' (S i)
  end.

Definition InsertionSort (A : list Z) : option (list Z) :=
  insertion_loop (length A - 1) A 1.

(** * Quicksort *)

(** [while (A[i] < p) i++]. *)
Fixpoint scan_up (fuel : nat) (A : list Z) (p i : Z) : option Z :=
  match fuel with
  | O => None
  | S fuel' => a ← get A i; if a <? p then scan_up fuel' A p (i + 1) else Some i
  end.

(** [while (A[j] > p) j--]. *)
Fixpoint scan_down (fuel : nat) (A : list Z) (p j : Z) : option Z :=
  match fuel with
  | O => None
  | S fuel' => a ← get A j; if a >? p then scan_down fuel' A p (j - 1) else Some j
  end.

(** The loop that partitions the array around [p]; it returns the array and [i]. *)
Fixpoint partition (fuel : nat) (A : list Z) (p i j : Z) : option (list Z * Z) :=
  match fuel with
  | O => None
  | S fuel' =>
    i ← scan_up (S (length A)) A p i;
    j ← scan_down (S (length A)) A p j;
    if i >=? j then Some (A, i)
    else
      t ← get A i;
      aj ← get A j;
      A ← put A i aj;
      A ← put A j t;
      partition fuel' A p (i + 1) (j - 1)
  end.

(** The fuel bounds the depth of the recursion. *)
Fixpoint _intsort (fuel : nat) (A : list Z) : option (list Z) :=
  match fuel with
  | O => None
  | S fuel' =>
    let n := Z.of_nat (length A) in
    if n <=? 32 then InsertionSort A
    else
      p ← get A (Z.shiftr n 1);
      '(A, i) ← partition (S (length A)) A p 0 (n - 1);
      lo ← _intsort fuel' (take (Z.to_nat i) A);
      hi ← _intsort fuel' (drop (Z.to_nat i) A);
      Some (lo ++ hi)
  end.

(** The same code on [long]. *)
Definition _longsort : nat -> list Z -> option (list Z) := _intsort.

(** [djbsort]: [djbsort_avx2] is the assembly routine a processor with AVX2 takes. *)
Definition djbsort (avx2 : option (list Z -> option (list Z))) (A : list Z) : option (list Z) :=
  if Z.of_nat (length A) >? 1 then
    match avx2 with
    | Some djbsort_avx2 => djbsort_avx2 A
    | None => _intsort (S (length A)) A
    end
  else Some A.

(** * Radix sort *)

Definition HIST_SIZE : Z := 2048.

Definition get_byte_0 (v : Z) : Z := Z.land v 0x7FF.
Definition get_byte_1 (v : Z) : Z := Z.land (Z.shiftr v 11) 0x7FF.
Definition get_byte_2_flip_sign (v : Z) : Z := Z.lxor (Z.shiftr (u32 v) 22) 0x200.
Definition get_byte_2 (v : Z) : Z := Z.land (Z.shiftr v 22) 0x7FF.
Definition get_byte_3 (v : Z) : Z := Z.land (Z.shiftr v 33) 0x7FF.
Definition get_byte_4 (v : Z) : Z := Z.land (Z.shiftr v 44) 0x7FF.
Definition get_byte_5_flip_sign (v : Z) : Z := Z.lxor (Z.land (Z.shiftr v 55) 0x7FF) 0x400.

(** [b[pos]++]. *)
Definition bump (b : list Z) (pos : Z) : option (list Z) :=
  c ← get b pos; put b pos (u64 (c + 1)).

(** The counting loop, one histogram for each digit of [digits]. *)
Fixpoint bump_all (digits : list (Z -> Z)) (bs : list (list Z)) (v : Z) :
    option (list (list Z)) :=
  match digits, bs with
  | digit :: digits', b :: bs' =>
    b' ← bump b (digit v);
    bs'' ← bump_all digits' bs' v;
    Some (b' :: bs'')
  | _, _ => Some []
  end.

Fixpoint count_digits (digits : list (Z -> Z)) (A : list Z) (bs : list (list Z)) :
    option (list (list Z)) :=
  match A with
  | [] => Some bs
  | v :: A' => bs' ← bump_all digits bs v; count_digits digits A' bs'
  end.

(** [tsum = b[i] + sum; b[i] = sum - 1; sum = tsum] for every [i]. *)
Fixpoint prefix_sums (b : list Z) (sum : Z) : list Z :=
  match b with
  | [] => []
  | c :: b' => u64 (sum - 1) :: prefix_sums b' (u64 (c + sum))
  end.

(** [for (...) { pos = digit(reader[i]); writer[++b[pos]] = reader[i]; }]. *)
Fixpoint scatter (digit : Z -> Z) (reader b writer : list Z) : option (list Z) :=
  match reader with
  | [] => Some writer
  | v :: reader' =>
    b' ← bump b (digit v);
    at_ ← get b' (digit v);
    writer' ← put writer at_ v;
    scatter digit reader' b' writer'
  end.

Definition zeros : list Z := replicate (Z.to_nat HIST_SIZE) 0.

(** The result and the array after the call. [T] is the block [malloc] returns, [calloc]
    tells whether the histograms are allocated. *)
Definition radix_sort_int32 (A : list Z) (T : option (list Z)) (calloc : bool) :
    option (Z * list Z) :=
  if Z.of_nat (length A) <? HIST_SIZE then A' ← _intsort (S (length A)) A; Some (0, A')
  else
    match T, calloc with
    | None, _ | _, false => Some (-1, A)
    | Some T, true =>
      bs ← count_digits [get_byte_0; get_byte_1; get_byte_2_flip_sign] A [zeros; zeros; zeros];
      match bs with
      | [b0; b1; b2] =>
        T ← scatter get_byte_0 A (prefix_sums b0 0) T;
        A ← scatter get_byte_1 T (prefix_sums b1 0) A;
        T ← scatter get_byte_2_flip_sign A (prefix_sums b2 0) T;
        Some (0, T)
      | _ => None
      end
    end.

Definition radix_sort_int64 (A : list Z) (T : option (list Z)) (calloc : bool) :
    option (Z * list Z) :=
  if Z.of_nat (length A) <? HIST_SIZE then A' ← _longsort (S (length A)) A; Some (0, A')
  else
    match T, calloc with
    | None, _ | _, false => Some (-1, A)
    | Some T, true =>
      bs ← count_digits
             [get_byte_0; get_byte_1; get_byte_2; get_byte_3; get_byte_4; get_byte_5_flip_sign]
             A (replicate 6 zeros);
      match bs with
      | [b0; b1; b2; b3; b4; b5] =>
        T ← scatter get_byte_0 A (prefix_sums b0 0) T;
        A ← scatter get_byte_1 T (prefix_sums b1 0) A;
        T ← scatter get_byte_2 A (prefix_sums b2 0) T;
        A ← scatter get_byte_3 T (prefix_sums b3 0) A;
        T ← scatter get_byte_4 A (prefix_sums b4 0) T;
        A ← scatter get_byte_5_flip_sign T (prefix_sums b5 0) A;
        Some (0, A)
      | _ => None
      end
    end.

(** * Examples *)

Definition sample_ints : list Z := (fun i => (i * 7919 + 3) mod 101 - 50) <$> seqZ 0 40.

Example intsort_sample :
  _intsort 41 sample_ints = Some
    [-48; -47; -45; -44; -41; -38; -35; -32; -29; -26; -25; -22; -19; -16; -13; -10; -7; -6;
     -4; -3; 0; 3; 6; 9; 12; 15; 16; 19; 22; 25; 28; 31; 34; 35; 37; 38; 41; 44; 47; 50].
Proof. vm_compute. reflexivity. Qed.
