(* ===== verification/SortFacts.v ===== *)
(** Correctness of the quicksort of [Sort.v]: no access leaves the array, the recursion ends
    and the result is the sorted permutation of the input. *)
From stdpp Require Import sets sorting.
From S2P Require Import Prelude Sort.

(** * Arrays *)

Lemma get_spec A i : 0 <= i -> get A i = A !! Z.to_nat i.
Proof. intros. unfold get. by rewrite (proj2 (Z.leb_le _ _)). Qed.

Lemma get_is_Some A i : 0 <= i < Z.of_nat (length A) -> is_Some (get A i).
Proof. intros. rewrite get_spec by lia. apply lookup_lt_is_Some. lia. Qed.

Lemma put_spec A i v :
  0 <= i < Z.of_nat (length A) -> put A i v = Some (<[Z.to_nat i := v]> A).
Proof. intros. unfold put. by rewrite (proj2 (Z.leb_le _ _)), (proj2 (Z.ltb_lt _ _)) by lia. Qed.

Definition sorted (A : list Z) : Prop := StronglySorted Z.le A.

(** * Insertion sort *)

Lemma app_insert_mid {A} (l r : list A) (x y : A) i :
  i = length l -> <[i := y]> (l ++ x :: r) = l ++ y :: r.
Proof. intros ->. by rewrite insert_app_r_alt, Nat.sub_diag by lia. Qed.

Lemma app_lookup_mid {A} (l r : list A) (x : A) i : i = length l -> (l ++ x :: r) !! i = Some x.
Proof. intros ->. by rewrite lookup_app_r, Nat.sub_diag by lia. Qed.

(** The hole at the end of the prefix moves down to where the new element belongs. *)
Lemma insertion_shift_spec t pre x suf :
  exists L R, pre = L ++ R /\
    insertion_shift (pre ++ x :: suf) t (length pre) = Some (L ++ t :: R ++ suf) /\
    Forall (fun a => t < a) R /\ (sorted pre -> Forall (fun a => a <= t) L).
Proof.
  revert x suf. induction pre as [|a pre IH] using rev_ind; intros x suf.
  { exists [], []. simpl. rewrite put_spec by (simpl; lia). done. }
  rewrite length_app. simpl. rewrite Nat.add_1_r. cbn [insertion_shift].
  assert (Hget : get ((pre ++ [a]) ++ x :: suf) (Z.of_nat (length pre)) = Some a).
  { rewrite get_spec, <- app_assoc by lia. apply app_lookup_mid. lia. }
  assert (Hput : forall v, put ((pre ++ [a]) ++ x :: suf) (Z.of_nat (length pre) + 1) v
                           = Some ((pre ++ [a]) ++ v :: suf)).
  { intros v. rewrite put_spec by (rewrite !length_app; simpl; lia). f_equal.
    apply app_insert_mid. rewrite length_app. simpl. lia. }
  rewrite Hget. cbn [mbind option_bind]. rewrite !Hput. cbn [mbind option_bind]. destruct (Z.gtb_spec a t) as [Hat|Hat].
  - destruct (IH a (a :: suf)) as (L & R & -> & E & HR & HL).
    exists L, (R ++ [a]). split_and!.
    + by rewrite app_assoc.
    + by rewrite <- !app_assoc in *.
    + apply Forall_app. auto.
    + intros Hs. apply HL. by apply StronglySorted_app_1_l in Hs.
  - exists (pre ++ [a]), []. rewrite app_nil_r. split_and!; [done..|].
    intros Hs. apply Forall_app. split; [|auto].
    apply Forall_forall. intros y Hy%list_elem_of_In.
    apply (StronglySorted_app_1_elem_of _ _ _ y a) in Hs; [lia|done|set_solver].
Qed.

Lemma sorted_insert_mid t L R :
  sorted (L ++ R) -> Forall (fun a => a <= t) L -> Forall (fun a => t < a) R -> sorted (L ++ t :: R).
Proof.
  intros Hs HL HR. unfold sorted in *. rewrite !StronglySorted_app in *.
  destruct Hs as (H1 & H2 & H3). rewrite Forall_forall in HL, HR. split_and!; [|done|].
  - intros x y Hx [->|Hy]%elem_of_cons; [apply HL; by apply list_elem_of_In|auto].
  - constructor; [done|]. apply Forall_forall. intros y Hy. specialize (HR y Hy). lia.
Qed.

Lemma insertion_loop_spec left pre suf :
  left = length suf -> sorted pre ->
  exists A', insertion_loop left (pre ++ suf) (length pre) = Some A' /\ sorted A' /\
    A' ≡ₚ pre ++ suf.
Proof.
  revert pre suf. induction left as [|left IH]; intros pre suf Hl Hs.
  { destruct suf; [|done]. exists (pre ++ []). rewrite app_nil_r. done. }
  destruct suf as [|t suf]; [done|]. cbn [insertion_loop].
  rewrite get_spec, app_lookup_mid by lia. cbn [mbind option_bind].
  destruct (insertion_shift_spec t pre t suf) as (L & R & -> & -> & HR & HL). cbn [mbind option_bind].
  destruct (IH (L ++ t :: R) suf) as (A' & E & HA & Hp); [simpl in Hl; lia|by apply sorted_insert_mid; auto|].
  exists A'. rewrite !length_app in E |- *. simpl in E. rewrite <- app_assoc in E. simpl in E.
  replace (S (length L + length R)) with (length L + S (length R))%nat by lia.
  split_and!; [done..|]. rewrite Hp, <- !app_assoc. simpl. apply Permutation_app_head.
  apply Permutation_middle.
Qed.

Lemma InsertionSort_spec A : exists A', InsertionSort A = Some A' /\ sorted A' /\ A' ≡ₚ A.
Proof.
  unfold InsertionSort. destruct A as [|a A]; [by exists []; repeat constructor|].
  apply (insertion_loop_spec _ [a] A); [simpl; lia|by repeat constructor].
Qed.

(** * Partition *)

(** The element at an index of the array. *)
Definition el (A : list Z) (k : Z) : Z := default 0 (get A k).

Lemma get_el A k : 0 <= k < Z.of_nat (length A) -> get A k = Some (el A k).
Proof. intros H. destruct (get_is_Some A k H) as [a Ha]. unfold el. by rewrite Ha. Qed.

Lemma el_put A i v k :
  0 <= i < Z.of_nat (length A) -> 0 <= k ->
  el (<[Z.to_nat i := v]> A) k = if decide (k = i) then v else el A k.
Proof.
  intros Hi Hk. unfold el. rewrite !get_spec by lia. case_decide as E.
  - subst. by rewrite list_lookup_insert_eq by lia.
  - by rewrite list_lookup_insert_ne by lia.
Qed.

Lemma scan_up_spec A p k fuel i :
  0 <= i <= k -> k < Z.of_nat (length A) -> p <= el A k -> k - i < Z.of_nat fuel ->
  exists i', scan_up fuel A p i = Some i' /\ i <= i' <= k /\ p <= el A i' /\
    forall m, i <= m < i' -> el A m <= p.
Proof.
  intros Hi Hk Hp. revert i Hi. induction fuel as [|fuel IH]; intros i Hi Hf; [lia|].
  cbn [scan_up]. rewrite get_el by lia. cbn [mbind option_bind].
  destruct (Z.ltb_spec (el A i) p) as [Hlt|Hge].
  - assert (i <> k) by (intros ->; lia).
    destruct (IH (i + 1) ltac:(lia) ltac:(lia)) as (i' & E & Hr & Hpi & Hm).
    exists i'. split_and!; try done; try lia. intros m Hm'.
    destruct (decide (m = i)) as [->|]; [lia|]. apply Hm. lia.
  - exists i. split_and!; try done; lia.
Qed.

Lemma scan_down_spec A p k fuel j :
  0 <= k <= j -> j < Z.of_nat (length A) -> el A k <= p -> j - k < Z.of_nat fuel ->
  exists j', scan_down fuel A p j = Some j' /\ k <= j' <= j /\ el A j' <= p /\
    forall m, j' < m <= j -> p <= el A m.
Proof.
  intros Hk Hj Hp. revert j Hj Hk. induction fuel as [|fuel IH]; intros j Hj Hk Hf; [lia|].
  cbn [scan_down]. rewrite get_el by lia. cbn [mbind option_bind].
  destruct (Z.gtb_spec (el A j) p) as [Hgt|Hle].
  - assert (j <> k) by (intros ->; lia).
    destruct (IH (j - 1) ltac:(lia) ltac:(lia) ltac:(lia)) as (j' & E & Hr & Hpj & Hm).
    exists j'. split_and!; try done; try lia. intros m Hm'.
    destruct (decide (m = j)) as [->|]; [lia|]. apply Hm. lia.
  - exists j. split_and!; try done; lia.
Qed.

Lemma swap_perm A i j :
  0 <= i < Z.of_nat (length A) -> 0 <= j < Z.of_nat (length A) -> i <> j ->
  <[Z.to_nat j := el A i]> (<[Z.to_nat i := el A j]> A) ≡ₚ A.
Proof.
  intros Hi Hj Hne. pose proof (get_el A i Hi) as Ei. pose proof (get_el A j Hj) as Ej.
  rewrite get_spec in Ei, Ej by lia.
  assert (Hn : Z.to_nat i <> Z.to_nat j) by lia.
  revert Ei Ej. generalize (el A i), (el A j). intros x y Ei Ej.
  apply (inj (cons x)). rewrite <- (list_insert_insert_ne A) by done.
  assert (Hd : forall (l : list Z) n a b, l !! n = Some a -> a :: <[n := b]> l ≡ₚ b :: l).
  { intros l n a b Hl. rewrite <- (take_drop_middle l n a Hl) at 2.
    rewrite insert_take_drop by (by eapply lookup_lt_Some).
    rewrite <- !Permutation_middle. apply perm_swap. }
  rewrite (Hd (<[Z.to_nat j := x]> A) (Z.to_nat i) x y); [|by rewrite list_lookup_insert_ne by done].
  by rewrite (Hd A (Z.to_nat j) y x).
Qed.

(** What the loop has established: small elements before [i], large ones after [j], and a
    sentinel that stops each scan. *)
Record part_inv (A : list Z) (p i j k1 k2 : Z) : Prop := PartInv {
  inv_i : 0 <= i; inv_j : j < Z.of_nat (length A);
  inv_lo : forall m, 0 <= m < i -> el A m <= p;
  inv_hi : forall m, j < m < Z.of_nat (length A) -> p <= el A m;
  inv_down : 0 <= k1 <= j /\ el A k1 <= p;
  inv_up : i <= k2 < Z.of_nat (length A) /\ p <= el A k2;
  inv_pos : 0 < i \/ 0 < k1 }.

Lemma partition_spec fuel A p i j k1 k2 :
  part_inv A p i j k1 k2 -> Z.max 0 (j - i + 1) < Z.of_nat fuel ->
  exists A' i', partition fuel A p i j = Some (A', i') /\ A' ≡ₚ A /\
    0 < i' < Z.of_nat (length A) /\
    (forall m, 0 <= m < i' -> el A' m <= p) /\
    (forall m, i' <= m < Z.of_nat (length A) -> p <= el A' m).
Proof.
  revert A i j k1 k2. induction fuel as [|fuel IH];
    intros A i j k1 k2 [Hi Hj Hlo Hhi Hdn Hup Hpos] Hf; [lia|].
  cbn [partition].
  destruct (scan_up_spec A p k2 (S (length A)) i) as (i' & -> & Hi' & Hpi & Hmi); try lia.
  destruct (scan_down_spec A p k1 (S (length A)) j) as (j' & E & Hj' & Hpj & Hmj); try lia.
  cbn [mbind option_bind]. rewrite E. cbn [mbind option_bind].
  destruct (Z.geb_spec i' j') as [Hge|Hlt].
  - exists A, i'. split_and!; try done; try lia.
    + intros m Hm. destruct (decide (m < i)); [apply Hlo; lia|apply Hmi; lia].
    + intros m Hm. destruct (decide (m = i')) as [->|]; [lia|].
      destruct (decide (j < m)); [apply Hhi; lia|apply Hmj; lia].
  - rewrite !get_el by lia. cbn [mbind option_bind]. rewrite put_spec by lia.
    cbn [mbind option_bind]. rewrite put_spec by (rewrite length_insert; lia). cbn [mbind option_bind].
    set (A1 := <[Z.to_nat j' := el A i']> (<[Z.to_nat i' := el A j']> A)).
    assert (Hlen : length A1 = length A) by (unfold A1; by rewrite !length_insert).
    assert (Hel : forall m, 0 <= m -> el A1 m = if decide (m = j') then el A i'
                            else if decide (m = i') then el A j' else el A m).
    { intros m Hm. unfold A1. rewrite !el_put; rewrite ?length_insert; lia || done. }
    destruct (IH A1 (i' + 1) (j' - 1) i' j') as (A' & i1 & -> & Hp & Hr & H1 & H2); [|lia|].
    + split; rewrite ?Hlen; try lia.
      * intros m Hm. rewrite Hel by lia. repeat case_decide; try lia.
        destruct (decide (m < i)); [apply Hlo; lia|apply Hmi; lia].
      * intros m Hm. rewrite Hel by lia. repeat case_decide; try lia.
        destruct (decide (j < m)); [apply Hhi; lia|apply Hmj; lia].
      * rewrite Hel by lia. repeat case_decide; lia.
      * rewrite Hel by lia. repeat case_decide; lia.
    + exists A', i1. rewrite Hlen in *. split_and!; try done; try lia.
      rewrite Hp. apply swap_perm; lia.
Qed.

(** * Quicksort *)

Lemma el_elem A k : 0 <= k < Z.of_nat (length A) -> el A k ∈ A.
Proof.
  intros H. pose proof (get_el A k H) as E. rewrite get_spec in E by lia.
  by eapply list_elem_of_lookup_2.
Qed.

Lemma sorted_app_bound p lo hi :
  sorted lo -> sorted hi -> (forall x, x ∈ lo -> x <= p) -> (forall y, y ∈ hi -> p <= y) ->
  sorted (lo ++ hi).
Proof.
  intros. apply StronglySorted_app_2; [|done..]. intros x y Hx Hy.
  transitivity p; auto.
Qed.

Lemma elem_of_el (P : Z -> Prop) A lo hi :
  (forall m, lo <= m < hi -> P (el A m)) -> 0 <= lo <= hi -> hi <= Z.of_nat (length A) ->
  forall x, x ∈ take (Z.to_nat (hi - lo)) (drop (Z.to_nat lo) A) -> P x.
Proof.
  intros H Hr Hlen x [k Hk]%list_elem_of_lookup.
  pose proof (lookup_lt_Some _ _ _ Hk) as Hlt. rewrite length_take, length_drop in Hlt.
  rewrite lookup_take_lt, lookup_drop in Hk by lia.
  specialize (H (lo + Z.of_nat k) ltac:(lia)). unfold el in H. rewrite get_spec in H by lia.
  replace (Z.to_nat (lo + Z.of_nat k)) with (Z.to_nat lo + k)%nat in H by lia.
  by rewrite Hk in H.
Qed.

Lemma intsort_spec fuel A :
  (length A < fuel)%nat -> exists A', _intsort fuel A = Some A' /\ sorted A' /\ A' ≡ₚ A.
Proof.
  revert A. induction fuel as [|fuel IH]; intros A Hf; [lia|]. cbn [_intsort].
  set (n := Z.of_nat (length A)). destruct (Z.leb_spec n 32) as [Hs|Hs]; [apply InsertionSort_spec|].
  rewrite shiftr_div, (get_el A (n / 2 ^ 1)) by lia. cbn [mbind option_bind].
  destruct (partition_spec (S (length A)) A (el A (n / 2 ^ 1)) 0 (n - 1) (n / 2 ^ 1) (n / 2 ^ 1))
    as (A1 & i & -> & Hp & Hi & H1 & H2); [split; lia|lia|]. cbn [mbind option_bind].
  set (p := el A (n / 2 ^ 1)) in *. pose proof (Permutation_length Hp) as Hlen.
  destruct (IH (take (Z.to_nat i) A1)) as (lo & -> & Hlo & Plo); [rewrite length_take; lia|].
  destruct (IH (drop (Z.to_nat i) A1)) as (hi & -> & Hhi & Phi); [rewrite length_drop; lia|].
  cbn [mbind option_bind]. exists (lo ++ hi). split_and!; [done| |].
  - apply (sorted_app_bound p); [done..| |].
    + intros x Hx. rewrite Plo in Hx.
      apply (elem_of_el (fun x => x <= p) A1 0 i); [done|lia..|]. by rewrite drop_0, Z.sub_0_r.
    + intros x Hx. rewrite Phi in Hx.
      apply (elem_of_el (fun x => p <= x) A1 i n); [done|lia..|].
      by rewrite take_ge by (rewrite length_drop; lia).
  - by rewrite Plo, Phi, take_drop.
Qed.
