(* ===== verification/RadixFacts.v ===== *)
(** Correctness of the radix sorts of [Sort.v]: a pass moves every element to the bucket of
    its digit without changing the order inside a bucket, so the passes from the lowest to
    the highest digit sort by value, negative numbers included. *)
From stdpp Require Import sets sorting.
From S2P Require Import Prelude Sort SortFacts.

(** * Buckets *)

Section Pass.
(** The number of buckets. *)
Context (H : nat).

Definition bucket (g : Z -> Z) (A : list Z) (d : nat) : list Z :=
  filter (fun v => g v = Z.of_nat d) A.

Definition buckets (g : Z -> Z) (A : list Z) : list (list Z) := bucket g A <$> seq 0 H.

Definition in_range (g : Z -> Z) (A : list Z) : Prop :=
  forall v, v ∈ A -> 0 <= g v < Z.of_nat H.

(** The counts the code keeps. *)
Definition hist (g : Z -> Z) (A : list Z) : list Z := (Z.of_nat ∘ length) <$> buckets g A.

Lemma bucket_app g A B d : bucket g (A ++ B) d = bucket g A d ++ bucket g B d.
Proof. apply list.filter_app. Qed.

Lemma bucket_cons g v A d :
  bucket g (v :: A) d = if decide (g v = Z.of_nat d) then v :: bucket g A d else bucket g A d.
Proof. unfold bucket. rewrite filter_cons. by case_decide. Qed.

Lemma buckets_lookup g A d : (d < H)%nat -> buckets g A !! d = Some (bucket g A d).
Proof. intros. unfold buckets. rewrite list_lookup_fmap, lookup_seq_lt by done. done. Qed.

Lemma length_buckets g A : length (buckets g A) = H.
Proof. unfold buckets. by rewrite length_fmap, length_seq. Qed.

Lemma length_hist g A : length (hist g A) = H.
Proof. unfold hist. by rewrite length_fmap, length_buckets. Qed.

Lemma hist_lookup g A d : (d < H)%nat -> hist g A !! d = Some (Z.of_nat (length (bucket g A d))).
Proof. intros. unfold hist. by rewrite list_lookup_fmap, buckets_lookup. Qed.

Lemma length_bucket_perm g A B d : A ≡ₚ B -> length (bucket g A d) = length (bucket g B d).
Proof. intros HP. unfold bucket. by rewrite HP. Qed.

Lemma hist_perm g A B : A ≡ₚ B -> hist g A = hist g B.
Proof.
  intros HP. apply list_eq. intros d. destruct (decide (d < H)%nat).
  - by rewrite !hist_lookup, (length_bucket_perm g A B) by done.
  - by rewrite !lookup_ge_None_2 by (rewrite length_hist; lia).
Qed.

Lemma length_bucket g A d : (length (bucket g A d) <= length A)%nat.
Proof. apply length_filter. Qed.

Lemma in_range_app g A B : in_range g (A ++ B) <-> in_range g A /\ in_range g B.
Proof. unfold in_range. set_solver. Qed.

Lemma in_range_perm g A B : A ≡ₚ B -> in_range g A -> in_range g B.
Proof. intros HP HA v Hv. apply HA. by rewrite HP. Qed.

(** The buckets partition the elements. *)
Lemma buckets_perm g A : in_range g A -> mjoin (buckets g A) ≡ₚ A.
Proof.
  intros HA.
  assert (Hh : forall h, mjoin (bucket g A <$> seq 0 h) ≡ₚ filter (fun v => 0 <= g v < Z.of_nat h) A).
  { induction h as [|h IH].
    - simpl. rewrite filter_none; [done|]. intros v _. lia.
    - rewrite seq_S, fmap_app, join_app, IH. simpl. rewrite app_nil_r. unfold bucket.
      clear. induction A as [|v A IH]; [done|]. rewrite !filter_cons.
      repeat case_decide; try lia; simpl; rewrite <- IH; [done| |done].
      symmetry. apply Permutation_middle. }
  unfold buckets. by rewrite Hh, filter_all.
Qed.

(** Lexicographic order: by the digit, then as before. *)
Definition by_digit (g : Z -> Z) (R : relation Z) : relation Z :=
  fun x y => g x < g y \/ g x = g y /\ R x y.

Lemma buckets_sorted g R A :
  StronglySorted R A -> StronglySorted (by_digit g R) (mjoin (buckets g A)).
Proof.
  intros HR. unfold buckets. generalize 0%nat as s.
  induction H as [|h IH]; intros s; simpl; [constructor|].
  apply StronglySorted_app_2; [| |apply IH].
  - intros x y Hx Hy. unfold bucket in Hx. apply list_elem_of_filter in Hx as [Ex _].
    apply list_elem_of_join in Hy as (l & Hy & Hl). apply list_elem_of_fmap in Hl as (d & -> & Hd).
    apply elem_of_seq in Hd. unfold bucket in Hy. apply list_elem_of_filter in Hy as [Ey _].
    left. lia.
  - clear IH. unfold bucket. induction HR as [|v A HA IH Hv]; [constructor|].
    rewrite filter_cons. case_decide as E; [|done]. constructor; [done|].
    rewrite Forall_forall in *. intros w Hw%list_elem_of_In.
    apply list_elem_of_filter in Hw as [Ew Hw]. right. split; [lia|].
    by apply Hv, list_elem_of_In.
Qed.

(** * Counting *)

Lemma bump_hist g P v :
  0 <= g v < Z.of_nat H -> Z.of_nat (length P) < 2 ^ 63 ->
  bump (hist g P) (g v) = Some (hist g (P ++ [v])).
Proof.
  intros Hv HP. unfold bump. rewrite get_spec, hist_lookup by lia. cbn [mbind option_bind].
  pose proof (length_bucket g P (Z.to_nat (g v))).
  rewrite put_spec by (rewrite length_hist; lia). rewrite u64_small by lia. f_equal.
  apply list_eq. intros d. destruct (decide (d < H)%nat) as [Hd|Hd].
  2:{ by rewrite !lookup_ge_None_2 by (rewrite ?length_insert, length_hist; lia). }
  rewrite hist_lookup, bucket_app, length_app, bucket_cons by done.
  destruct (decide (d = Z.to_nat (g v))) as [->|Hne].
  - rewrite list_lookup_insert_eq by (rewrite length_hist; lia).
    rewrite decide_True by lia. simpl. f_equal. lia.
  - rewrite list_lookup_insert_ne, hist_lookup by done.
    rewrite decide_False by lia. simpl. f_equal. lia.
Qed.

Lemma bump_all_hist gs P v :
  Forall (fun g => 0 <= g v < Z.of_nat H) gs -> Z.of_nat (length P) < 2 ^ 63 ->
  bump_all gs ((fun g => hist g P) <$> gs) v = Some ((fun g => hist g (P ++ [v])) <$> gs).
Proof.
  intros Hg HP. induction Hg as [|g gs Hv Hg IH]; [done|]. rewrite !fmap_cons. cbn [bump_all].
  rewrite bump_hist by done. cbn [mbind option_bind]. by rewrite IH.
Qed.

Lemma count_digits_hist gs A P :
  Forall (fun g => in_range g A) gs -> Z.of_nat (length P + length A) < 2 ^ 63 ->
  count_digits gs A ((fun g => hist g P) <$> gs) = Some ((fun g => hist g (P ++ A)) <$> gs).
Proof.
  revert P. induction A as [|v A IH]; intros P Hg Hlen; cbn [count_digits].
  - f_equal. apply list_fmap_ext. intros i g Hi. by rewrite app_nil_r.
  - simpl in Hlen. rewrite bump_all_hist; [|eapply Forall_impl; [|exact Hg]; intros g HG; apply HG; set_solver|lia].
    cbn [mbind option_bind]. rewrite IH.
    + f_equal. apply list_fmap_ext. intros i g Hi. by rewrite <- app_assoc.
    + eapply Forall_impl; [|exact Hg]. intros g HG w Hw. apply HG. set_solver.
    + rewrite length_app. simpl. lia.
Qed.

Lemma hist_nil g : hist g [] = replicate H 0.
Proof.
  apply list_eq. intros d. destruct (decide (d < H)%nat).
  - by rewrite hist_lookup, lookup_replicate_2 by done.
  - by rewrite !lookup_ge_None_2 by (rewrite ?length_hist, ?length_replicate; lia).
Qed.

(** ** Prefix sums *)

Lemma prefix_sums_lookup (Bs : list (list Z)) sum d :
  (d < length Bs)%nat -> 0 <= sum -> sum + Z.of_nat (length (mjoin Bs)) < 2 ^ 64 ->
  prefix_sums ((Z.of_nat ∘ length) <$> Bs) sum !! d
  = Some (u64 (sum + Z.of_nat (length (mjoin (take d Bs))) - 1)).
Proof.
  revert sum d. induction Bs as [|B Bs IH]; intros sum d Hd Hs Hlen; simpl in *; [lia|].
  rewrite length_app in Hlen. destruct d as [|d]; simpl.
  - f_equal. f_equal. lia.
  - rewrite u64_small by lia. change (list_fmap _ _ (Z.of_nat ∘ length) Bs) with ((Z.of_nat ∘ length) <$> Bs).
    rewrite IH by lia. rewrite length_app. f_equal. f_equal. lia.
Qed.

(** * Scattering *)

Lemma join_insert (Bs : list (list Z)) d f x j v :
  Bs !! d = Some (f ++ x :: j) ->
  <[(length (mjoin (take d Bs)) + length f)%nat := v]> (mjoin Bs)
  = mjoin (<[d := f ++ v :: j]> Bs).
Proof.
  revert d. induction Bs as [|B Bs IH]; intros d Hd; [done|]. destruct d as [|d]; simpl in *.
  - injection Hd as ->. rewrite <- !app_assoc. simpl. apply app_insert_mid. done.
  - rewrite length_app, insert_app_r_alt by lia. f_equal. rewrite <- (IH d Hd). f_equal. lia.
Qed.

Lemma length_join_lens (Bs Cs : list (list Z)) d :
  length <$> Bs = length <$> Cs -> length (mjoin (take d Bs)) = length (mjoin (take d Cs)).
Proof. intros E. by rewrite !length_join, !fmap_take, E. Qed.

(** Where the pass stands: the prefix [P] of the reader is in place. *)
Record scattered (g : Z -> Z) (P Q : list Z) (b : list Z) (Bs : list (list Z)) : Prop := {
  sc_lens : length <$> Bs = length <$> buckets g (P ++ Q);
  sc_blocks : forall d, (d < H)%nat -> exists junk, Bs !! d = Some (bucket g P d ++ junk);
  sc_b : forall d, (d < H)%nat ->
    b !! d = Some (u64 (Z.of_nat (length (mjoin (take d (buckets g (P ++ Q))))
                                  + length (bucket g P d)) - 1));
  sc_len_b : length b = H }.

Lemma scattered_block g P Q b Bs d :
  scattered g P Q b Bs -> (d < H)%nat ->
  exists junk, Bs !! d = Some (bucket g P d ++ junk) /\ length junk = length (bucket g Q d).
Proof.
  intros [Hl Hb _ _] Hd. destruct (Hb d Hd) as [junk E]. exists junk. split; [done|].
  assert (E2 : (length <$> Bs) !! d = (length <$> buckets g (P ++ Q)) !! d) by by rewrite Hl.
  rewrite !list_lookup_fmap, E, buckets_lookup in E2 by done. simpl in E2.
  rewrite bucket_app, !length_app in E2. injection E2. lia.
Qed.

Lemma take_buckets_length g A d : in_range g A -> (d < H)%nat ->
  (length (mjoin (take d (buckets g A))) + length (bucket g A d) <= length A)%nat.
Proof.
  intros HA Hd. rewrite <- (Permutation_length (buckets_perm g A HA)).
  rewrite <- (take_drop_middle (buckets g A) d (bucket g A d)) at 2 by by apply buckets_lookup.
  rewrite join_app, length_app. simpl. rewrite length_app. lia.
Qed.

Lemma scatter_step g P v Q b Bs :
  scattered g P (v :: Q) b Bs -> in_range g (P ++ v :: Q) ->
  Z.of_nat (length (P ++ v :: Q)) < 2 ^ 63 ->
  exists b' at_ Bs', bump b (g v) = Some b' /\ get b' (g v) = Some at_ /\
    put (mjoin Bs) at_ v = Some (mjoin Bs') /\ scattered g (P ++ [v]) Q b' Bs'.
Proof.
  intros Hsc HA Hlen. pose proof (HA v ltac:(set_solver)) as Hv.
  set (d := Z.to_nat (g v)). assert (Hd : (d < H)%nat) by lia.
  assert (Edv : g v = Z.of_nat d) by lia.
  destruct (scattered_block _ _ _ _ _ d Hsc Hd) as (junk & EB & Hj).
  destruct Hsc as [Hl Hblk Hb Hlb].
  rewrite bucket_cons, decide_True in Hj by done. destruct junk as [|x junk]; [done|].
  pose proof (take_buckets_length g _ d HA Hd) as Hpos.
  rewrite bucket_app, bucket_cons, decide_True, length_app in Hpos by done. simpl in Hpos.
  set (pos := (length (mjoin (take d (buckets g (P ++ v :: Q)))) + length (bucket g P d))%nat) in *.
  assert (Hu : u64 (u64 (Z.of_nat pos - 1) + 1) = Z.of_nat pos) by (unfold u64; lia).
  exists (<[d := Z.of_nat pos]> b), (Z.of_nat pos), (<[d := bucket g P d ++ v :: junk]> Bs).
  split_and!.
  - unfold bump. rewrite get_spec by lia. fold d. rewrite (Hb d Hd). cbn [mbind option_bind].
    fold pos. by rewrite put_spec, Hu by lia.
  - rewrite get_spec by lia. fold d. by rewrite list_lookup_insert_eq by lia.
  - rewrite put_spec, Nat2Z.id.
    + f_equal. unfold pos. rewrite <- (length_join_lens Bs) by done. by eapply join_insert.
    + split; [lia|].
      pose proof (length_join_lens Bs _ (length Bs) Hl) as E. rewrite take_ge in E by done.
      rewrite E, take_ge, (Permutation_length (buckets_perm g _ HA)); [lia|].
      rewrite <- (length_fmap length Bs), Hl, length_fmap. done.
  - assert (EQ : (P ++ [v]) ++ Q = P ++ v :: Q) by by rewrite <- app_assoc.
    split; rewrite ?EQ, ?length_insert; try done.
    + rewrite <- Hl. apply list_eq. intros d'. rewrite !list_lookup_fmap.
      destruct (decide (d' = d)) as [->|]; [|by rewrite list_lookup_insert_ne by done].
      rewrite list_lookup_insert_eq by (by eapply lookup_lt_Some). rewrite EB. simpl.
      by rewrite !length_app.
    + intros d' Hd'. rewrite bucket_app, bucket_cons. destruct (decide (d' = d)) as [->|Hne].
      * rewrite decide_True by done. exists junk.
        rewrite list_lookup_insert_eq by (by eapply lookup_lt_Some). by rewrite <- app_assoc.
      * rewrite decide_False by lia. rewrite app_nil_r, list_lookup_insert_ne by done. auto.
    + intros d' Hd'. rewrite bucket_app, bucket_cons, length_app. destruct (decide (d' = d)) as [->|Hne].
      * rewrite decide_True by done. rewrite list_lookup_insert_eq by lia. simpl. f_equal.
        rewrite u64_small; lia.
      * rewrite decide_False by lia. rewrite list_lookup_insert_ne, Hb by done. simpl.
        by rewrite Nat.add_0_r.
Qed.

Lemma scatter_spec g P Q b Bs :
  scattered g P Q b Bs -> in_range g (P ++ Q) -> Z.of_nat (length (P ++ Q)) < 2 ^ 63 ->
  scatter g Q b (mjoin Bs) = Some (mjoin (buckets g (P ++ Q))).
Proof.
  revert P b Bs. induction Q as [|v Q IH]; intros P b Bs Hsc HA Hlen.
  - rewrite app_nil_r in *. cbn [scatter]. do 2 f_equal. pose proof (sc_lens _ _ _ _ _ Hsc) as Hl.
    rewrite app_nil_r in Hl. apply list_eq. intros d. destruct (decide (d < H)%nat) as [Hd|Hd].
    + destruct (scattered_block _ _ _ _ _ d Hsc Hd) as (junk & -> & Hj).
      apply nil_length_inv in Hj. by rewrite Hj, app_nil_r, buckets_lookup.
    + rewrite !lookup_ge_None_2; [done|rewrite length_buckets; lia|].
      rewrite <- (length_fmap length Bs), Hl, length_fmap, length_buckets. lia.
  - destruct (scatter_step g P v Q b Bs Hsc HA Hlen) as (b' & at_ & Bs' & E1 & E2 & E3 & Hsc').
    cbn [scatter]. rewrite E1. cbn [mbind option_bind]. rewrite E2. cbn [mbind option_bind].
    rewrite E3. cbn [mbind option_bind].
    assert (EQ : P ++ v :: Q = (P ++ [v]) ++ Q) by by rewrite <- app_assoc.
    rewrite EQ in HA, Hlen |- *. by apply IH.
Qed.

Lemma split_lens (lens : list nat) (W : list Z) :
  sum_list lens = length W -> exists Bs, mjoin Bs = W /\ length <$> Bs = lens.
Proof.
  revert W. induction lens as [|n lens IH]; intros W E; simpl in E.
  - exists []. by destruct W.
  - destruct (IH (drop n W)) as (Bs & EW & El); [rewrite length_drop; lia|].
    exists (take n W :: Bs). simpl. rewrite EW, take_drop. split; [done|]. f_equal; [|done].
    rewrite length_take. lia.
Qed.

(** One pass over an array with the counts of any permutation of it. *)
Lemma pass_spec g A0 A W :
  A ≡ₚ A0 -> in_range g A0 -> length W = length A0 -> Z.of_nat (length A0) < 2 ^ 63 ->
  exists A', scatter g A (prefix_sums (hist g A0) 0) W = Some A' /\ A' ≡ₚ A0 /\
    forall R, StronglySorted R A -> StronglySorted (by_digit g R) A'.
Proof.
  intros HP HA0 HW Hlen. pose proof (in_range_perm g A0 A (symmetry HP) HA0) as HA.
  rewrite <- (hist_perm g A A0 HP). pose proof (Permutation_length HP) as HlA.
  pose proof (Permutation_length (buckets_perm g A HA)) as Hlb.
  destruct (split_lens (length <$> buckets g A) W) as (Bs & <- & Hl).
  { rewrite <- length_join. lia. }
  exists (mjoin (buckets g A)). split_and!.
  - apply (scatter_spec g [] A); [|done|simpl; lia]. split; [done| | |].
    + intros d Hd. exists (Bs !!! d). unfold bucket. simpl.
      apply list_lookup_lookup_total_lt. rewrite <- (length_fmap length Bs), Hl, length_fmap, length_buckets. done.
    + intros d Hd. unfold hist. rewrite prefix_sums_lookup by (rewrite ?length_buckets; lia).
      simpl. by rewrite Nat.add_0_r.
    + rewrite <- (length_hist g A). clear. unfold hist. generalize 0, ((Z.of_nat ∘ length) <$> buckets g A).
      intros z l. revert z. induction l; intros z; simpl; congruence.
  - by rewrite buckets_perm.
  - intros R. apply buckets_sorted.
Qed.
End Pass.

(** * Digits of the two widths *)

Definition is_int32 (v : Z) : Prop := - 2 ^ 31 <= v < 2 ^ 31.
Definition is_int64 (v : Z) : Prop := - 2 ^ 63 <= v < 2 ^ 63.

#[export] Instance is_int32_dec v : Decision (is_int32 v).
Proof. unfold is_int32. apply _. Defined.
#[export] Instance is_int64_dec v : Decision (is_int64 v).
Proof. unfold is_int64. apply _. Defined.

Lemma land_7FF v k : 0 <= k -> Z.land (Z.shiftr v k) 0x7FF = v / 2 ^ k mod 2048.
Proof.
  intros. change 0x7FF with (2 ^ 11 - 1). rewrite land_mask, shiftr_div by lia. done.
Qed.

(** Flipping the top bit of a digit adds half of its range. *)
Lemma lxor_top k t : k = 9 \/ k = 10 -> 0 <= t < 2 ^ (k + 1) ->
  Z.lxor t (2 ^ k) = (t + 2 ^ k) mod 2 ^ (k + 1).
Proof.
  intros Hk Ht.
  assert (Hc : forallb (fun k => forallb (fun t => Z.lxor t (2 ^ k) =? (t + 2 ^ k) mod 2 ^ (k + 1))
                         (seqZ 0 (2 ^ (k + 1)))) [9; 10] = true) by (vm_compute; done).
  rewrite forallb_forall in Hc. specialize (Hc k). rewrite forallb_forall in Hc.
  apply Z.eqb_eq, Hc; [simpl; lia|]. apply list_elem_of_In, elem_of_seqZ. lia.
Qed.

Lemma get_byte_0_eq v : get_byte_0 v = v mod 2048.
Proof. unfold get_byte_0. rewrite <- (Z.shiftr_0_r v) at 1. rewrite land_7FF, Z.div_1_r by lia. done. Qed.
Lemma get_byte_1_eq v : get_byte_1 v = v / 2 ^ 11 mod 2048.
Proof. by apply land_7FF. Qed.
Lemma get_byte_2_eq v : get_byte_2 v = v / 2 ^ 22 mod 2048.
Proof. by apply land_7FF. Qed.
Lemma get_byte_3_eq v : get_byte_3 v = v / 2 ^ 33 mod 2048.
Proof. by apply land_7FF. Qed.
Lemma get_byte_4_eq v : get_byte_4 v = v / 2 ^ 44 mod 2048.
Proof. by apply land_7FF. Qed.

Lemma get_byte_2_flip_sign_eq v : is_int32 v -> get_byte_2_flip_sign v = v / 2 ^ 22 + 512.
Proof.
  unfold is_int32. intros Hv. unfold get_byte_2_flip_sign. rewrite shiftr_div by lia.
  change 0x200 with (2 ^ 9). unfold u32. rewrite lxor_top; [lia|by left|lia].
Qed.

Lemma get_byte_5_flip_sign_eq v : is_int64 v -> get_byte_5_flip_sign v = v / 2 ^ 55 + 1024.
Proof.
  unfold is_int64. intros Hv. unfold get_byte_5_flip_sign. rewrite land_7FF by lia.
  change 0x400 with (2 ^ 10). rewrite lxor_top; [lia|by right|lia].
Qed.

Definition no_order : relation Z := fun _ _ => True.

Lemma no_order_sorted A : StronglySorted no_order A.
Proof. induction A; constructor; [done|]. by apply Forall_forall. Qed.

Lemma sorted_impl (R R' : relation Z) A :
  StronglySorted R A -> (forall x y, x ∈ A -> y ∈ A -> R x y -> R' x y) -> StronglySorted R' A.
Proof.
  induction 1 as [|x A HA IH Hx]; intros HR; constructor.
  - apply IH. set_solver.
  - rewrite Forall_forall in *. intros y Hy. apply HR; [set_solver|..|auto].
    apply list_elem_of_In in Hy. set_solver.
Qed.

(** Comparing all the digits is comparing the values. *)
Lemma digits_int32 x y :
  is_int32 x -> is_int32 y ->
  by_digit get_byte_2_flip_sign (by_digit get_byte_1 (by_digit get_byte_0 no_order)) x y -> x <= y.
Proof.
  intros Hx Hy. unfold by_digit.
  rewrite !get_byte_2_flip_sign_eq, !get_byte_1_eq, !get_byte_0_eq by done. lia.
Qed.

Lemma digits_int64 x y :
  is_int64 x -> is_int64 y ->
  by_digit get_byte_5_flip_sign (by_digit get_byte_4 (by_digit get_byte_3 (by_digit get_byte_2
    (by_digit get_byte_1 (by_digit get_byte_0 no_order))))) x y -> x <= y.
Proof.
  intros Hx Hy. unfold by_digit.
  rewrite !get_byte_5_flip_sign_eq, !get_byte_4_eq, !get_byte_3_eq, !get_byte_2_eq, !get_byte_1_eq,
    !get_byte_0_eq by done. lia.
Qed.

(** * The sorts *)

Local Abbreviation HN := (Z.to_nat HIST_SIZE).

Lemma HN_eq : Z.of_nat HN = 2048.
Proof. done. Qed.

Lemma land_in_range g k A :
  (forall v, g v = v / 2 ^ k mod 2048) -> in_range HN g A.
Proof. intros Hg v _. rewrite Hg, HN_eq. lia. Qed.

Lemma byte_0_in_range A : in_range HN get_byte_0 A.
Proof. intros v _. rewrite get_byte_0_eq, HN_eq. lia. Qed.

Create HintDb radix.
#[local] Hint Resolve byte_0_in_range : radix.
#[local] Hint Extern 1 (in_range _ get_byte_1 _) => apply (land_in_range _ 11), get_byte_1_eq : radix.
#[local] Hint Extern 1 (in_range _ get_byte_2 _) => apply (land_in_range _ 22), get_byte_2_eq : radix.
#[local] Hint Extern 1 (in_range _ get_byte_3 _) => apply (land_in_range _ 33), get_byte_3_eq : radix.
#[local] Hint Extern 1 (in_range _ get_byte_4 _) => apply (land_in_range _ 44), get_byte_4_eq : radix.

Lemma flip32_in_range A : Forall is_int32 A -> in_range HN get_byte_2_flip_sign A.
Proof.
  intros HA v Hv%list_elem_of_In. rewrite Forall_forall in HA. specialize (HA v Hv).
  rewrite get_byte_2_flip_sign_eq, HN_eq by done. unfold is_int32 in HA. lia.
Qed.

Lemma flip64_in_range A : Forall is_int64 A -> in_range HN get_byte_5_flip_sign A.
Proof.
  intros HA v Hv%list_elem_of_In. rewrite Forall_forall in HA. specialize (HA v Hv).
  rewrite get_byte_5_flip_sign_eq, HN_eq by done. unfold is_int64 in HA. lia.
Qed.
#[local] Hint Resolve flip32_in_range flip64_in_range : radix.

Lemma count_from_zeros gs A :
  Forall (fun g => in_range HN g A) gs -> Z.of_nat (length A) < 2 ^ 63 ->
  count_digits gs A (replicate (length gs) zeros) = Some ((fun g => hist HN g A) <$> gs).
Proof.
  intros Hg Hlen.
  replace (replicate (length gs) zeros) with ((fun g => hist HN g []) <$> gs).
  - rewrite (count_digits_hist HN gs A []); [done|done|simpl; lia].
  - clear Hg. induction gs as [|g gs IH]; [done|]. rewrite fmap_cons, IH, hist_nil. done.
Qed.

(** Runs one more pass: names the array it leaves and what is known of it. *)
Ltac run_pass g A0 A W :=
  let A' := fresh "A'" in let E := fresh "E" in let HP := fresh "HP" in let HS := fresh "HS" in
  destruct (pass_spec HN g A0 A W) as (A' & E & HP & HS);
  [done|auto with radix|
   rewrite ?(Permutation_length (l := W) (l' := A0)) by done; done|done|];
  rewrite E; cbn [mbind option_bind].

Lemma radix_core_32 A T :
  Forall is_int32 A -> length T = length A -> Z.of_nat (length A) < 2 ^ 62 ->
  HIST_SIZE <= Z.of_nat (length A) ->
  exists A', radix_sort_int32 A (Some T) true = Some (0, A') /\ sorted A' /\ A' ≡ₚ A.
Proof.
  intros HA HT Hlen Hbig. unfold radix_sort_int32. rewrite (proj2 (Z.ltb_ge _ _)) by done.
  assert (Hlen' : Z.of_nat (length A) < 2 ^ 63) by lia.
  pose proof (count_from_zeros [get_byte_0; get_byte_1; get_byte_2_flip_sign] A) as Hc.
  cbn [length replicate] in Hc. rewrite Hc; [|by repeat (constructor; [by auto with radix|])|done].
  cbn [mbind option_bind fmap list_fmap].
  run_pass get_byte_0 A A T. run_pass get_byte_1 A A' A. run_pass get_byte_2_flip_sign A A'0 A'.
  exists A'1. split_and!; [done| |done].
  apply (sorted_impl _ _ _ (HS1 _ (HS0 _ (HS _ (no_order_sorted A))))).
  intros x y Hx Hy. rewrite HP1 in Hx, Hy. rewrite Forall_forall in HA.
  apply digits_int32; apply HA; by apply list_elem_of_In.
Qed.

Lemma radix_core_64 A T :
  Forall is_int64 A -> length T = length A -> Z.of_nat (length A) < 2 ^ 62 ->
  HIST_SIZE <= Z.of_nat (length A) ->
  exists A', radix_sort_int64 A (Some T) true = Some (0, A') /\ sorted A' /\ A' ≡ₚ A.
Proof.
  intros HA HT Hlen Hbig. unfold radix_sort_int64. rewrite (proj2 (Z.ltb_ge _ _)) by done.
  assert (Hlen' : Z.of_nat (length A) < 2 ^ 63) by lia.
  pose proof (count_from_zeros [get_byte_0; get_byte_1; get_byte_2; get_byte_3; get_byte_4;
                                get_byte_5_flip_sign] A) as Hc.
  cbn [length] in Hc. rewrite Hc; [|by repeat (constructor; [by auto with radix|])|done].
  cbn [mbind option_bind fmap list_fmap].
  run_pass get_byte_0 A A T. run_pass get_byte_1 A A' A. run_pass get_byte_2 A A'0 A'.
  run_pass get_byte_3 A A'1 A'0. run_pass get_byte_4 A A'2 A'1.
  run_pass get_byte_5_flip_sign A A'3 A'2.
  exists A'4. split_and!; [done| |done].
  apply (sorted_impl _ _ _ (HS4 _ (HS3 _ (HS2 _ (HS1 _ (HS0 _ (HS _ (no_order_sorted A)))))))).
  intros x y Hx Hy. rewrite HP4 in Hx, Hy. rewrite Forall_forall in HA.
  apply digits_int64; apply HA; by apply list_elem_of_In.
Qed.

(** What a radix sort promises of its result. *)
Definition radix_result (A : list Z) (T : option (list Z)) (calloc : bool) (r : option (Z * list Z)) :
    Prop :=
  exists rc A', r = Some (rc, A') /\ A' ≡ₚ A /\
    (rc = 0 /\ sorted A' \/
     rc = -1 /\ A' = A /\ HIST_SIZE <= Z.of_nat (length A) /\ (T = None \/ calloc = false)).

(** [radix_sort_int32] returns 0 and leaves the sorted permutation of the array, negative
    numbers before positive ones, or returns -1 and leaves the array as it was, which needs
    2048 elements or more and a failed allocation; every index it computes is in bounds. *)
Theorem radix_sort_int32_sorts A T calloc :
  Forall is_int32 A -> Z.of_nat (length A) < 2 ^ 62 ->
  (forall t, T = Some t -> length t = length A) ->
  radix_result A T calloc (radix_sort_int32 A T calloc).
Proof.
  intros HA Hlen HT. destruct (Z.ltb_spec (Z.of_nat (length A)) HIST_SIZE) as [Hs|Hs].
  - destruct (intsort_spec (S (length A)) A) as (A' & E & HA' & HP); [lia|].
    exists 0, A'. unfold radix_sort_int32. rewrite (proj2 (Z.ltb_lt _ _)), E by done. auto.
  - destruct T as [t|], calloc.
    1: destruct (radix_core_32 A t HA (HT t eq_refl) Hlen Hs) as (A' & -> & ? & ?); by exists 0, A'; auto.
    all: unfold radix_sort_int32; rewrite (proj2 (Z.ltb_ge _ _)) by done; exists (-1), A; auto 8.
Qed.

(** The same for [radix_sort_int64], whose six passes end in the caller's array. *)
Theorem radix_sort_int64_sorts A T calloc :
  Forall is_int64 A -> Z.of_nat (length A) < 2 ^ 61 ->
  (forall t, T = Some t -> length t = length A) ->
  radix_result A T calloc (radix_sort_int64 A T calloc).
Proof.
  intros HA Hlen HT. destruct (Z.ltb_spec (Z.of_nat (length A)) HIST_SIZE) as [Hs|Hs].
  - destruct (intsort_spec (S (length A)) A) as (A' & E & HA' & HP); [lia|].
    exists 0, A'. unfold radix_sort_int64, _longsort. rewrite (proj2 (Z.ltb_lt _ _)), E by done. auto.
  - destruct T as [t|], calloc.
    1: destruct (radix_core_64 A t HA (HT t eq_refl) ltac:(lia) Hs) as (A' & -> & ? & ?);
         by exists 0, A'; auto.
    all: unfold radix_sort_int64; rewrite (proj2 (Z.ltb_ge _ _)) by done; exists (-1), A; auto 8.
Qed.

Definition many_ints : list Z := (fun i => 1000 - i) <$> seqZ 0 2048.

(** [djbsort] without AVX2 terminates and sorts any array. *)
Theorem djbsort_sorts A : exists A', djbsort None A = Some A' /\ sorted A' /\ A' ≡ₚ A.
Proof.
  unfold djbsort. destruct (Z.gtb_spec (Z.of_nat (length A)) 1) as [H|H].
  - apply intsort_spec. lia.
  - exists A. split_and!; [done| |done]. destruct A as [|a [|b A]]; simpl in H; [constructor..|lia].
    all: repeat constructor.
Qed.

(** C30: the sorting routines sort: on 32-bit and on 64-bit integers [radix_sort_int32] and
    [radix_sort_int64] either return 0 with the sorted permutation of their input or return -1
    with the input as it was, and that only when memory could not be had; [djbsort] without
    AVX2 always sorts. All of them end. *)
Theorem integer_sorts A T calloc :
  Z.of_nat (length A) < 2 ^ 61 -> (forall t, T = Some t -> length t = length A) ->
  (Forall is_int32 A -> radix_result A T calloc (radix_sort_int32 A T calloc)) /\
  (Forall is_int64 A -> radix_result A T calloc (radix_sort_int64 A T calloc)) /\
  exists A', djbsort None A = Some A' /\ sorted A' /\ A' ≡ₚ A.
Proof.
  intros Hl HT. split_and!; intros; [apply radix_sort_int32_sorts|apply radix_sort_int64_sorts|apply djbsort_sorts];
    done || lia.
Qed.

Lemma integer_sorts_witness :
  radix_result many_ints (Some many_ints) true (radix_sort_int32 many_ints (Some many_ints) true) /\
  radix_result many_ints (Some many_ints) true (radix_sort_int64 many_ints (Some many_ints) true).
Proof.
  destruct (integer_sorts many_ints (Some many_ints) true) as (H1 & H2 & _);
    [vm_compute; done|by intros t [= <-]|].
  split; [apply H1|apply H2]; apply (bool_decide_unpack _); vm_compute; exact I.
Defined.
