(* ===== verification/Levenshtein.v ===== *)
(** String similarity: [libc/mem/levenshtein.c]. The two rows of the dynamic program are the
    two [malloc] blocks, which start with arbitrary contents; a string is the list of its
    bytes. The lengths fit an [int], so the arithmetic is exact. The [double] the function
    returns, [1 - dist / (max(n0, n1) - 1.)], is kept as its two operands. *)
From S2P Require Import Prelude Sort SortFacts.

Definition MIN3 (a b c : Z) : Z :=
  if a <? b then (if a <? c then a else c) else (if b <? c then b else c).

(** [i > 0 && s0[i - 1] == s1[j - 1]]. *)
Definition same_char (s0 s1 : list Z) (i j : Z) : option bool :=
  if i >? 0 then
    x ← get s0 (i - 1);
    y ← get s1 (j - 1);
    Some (x =? y)
  else Some false.

(** The inner loop with [n1 - j] iterations left. *)
Fixpoint fill_column (left : nat) (s0 s1 : list Z) (i j : Z) (pol col : list Z) :
    option (list Z) :=
  match left with
  | O => Some col
  | S left' =>
    a ← get col (j - 1);
    b ← get pol j;
    c ← get pol (j - 1);
    same ← same_char s0 s1 i j;
    col ← put col j (MIN3 (1 + a) (1 + b) (c + if (same : bool) then 0 else 1));
    fill_column left' s0 s1 i (j + 1) pol col
  end.

(** The outer loop with [n0 - i] iterations left; the two arrays swap roles. *)
Fixpoint columns (left : nat) (s0 s1 : list Z) (i : Z) (pol col : list Z) : option (list Z) :=
  match left with
  | O => Some pol
  | S left' =>
    col ← put col 0 i;
    col ← fill_column (length s1) s0 s1 i 1 pol col;
    columns left' s0 s1 (i + 1) col pol
  end.

(** [dist] and the divisor; [col] is what the first block holds. *)
Definition levenshtein (col s0 s1 : list Z) : option (Z * Z) :=
  let n0 := Z.of_nat (length s0) + 1 in
  let n1 := Z.of_nat (length s1) + 1 in
  pol ← columns (Z.to_nat n0) s0 s1 0 (seqZ 0 n1) col;
  dist ← get pol (n1 - 1);
  Some (dist, (if n0 >? n1 then n0 else n1) - 1).

(** * Reference: the least number of edits *)

(** [align n a b]: [n] insertions, deletions and replacements turn [a] into [b]. *)
Inductive align : Z -> list Z -> list Z -> Prop :=
| align_nil : align 0 [] []
| align_delete n x a b : align n a b -> align (n + 1) (x :: a) b
| align_insert n y a b : align n a b -> align (n + 1) a (y :: b)
| align_replace n x y a b :
    align n a b -> align (n + if x =? y then 0 else 1) (x :: a) (y :: b).

Lemma align_app n a b n' a' b' :
  align n a b -> align n' a' b' -> align (n + n') (a ++ a') (b ++ b').
Proof.
  intros H H'. induction H; simpl.
  - done.
  - replace (n + 1 + n') with (n + n' + 1) by lia. by constructor.
  - replace (n + 1 + n') with (n + n' + 1) by lia. by constructor.
  - replace (n + (if x =? y then 0 else 1) + n') with (n + n' + if x =? y then 0 else 1) by lia.
    by constructor.
Qed.

Lemma align_rev n a b : align n a b -> align n (rev a) (rev b).
Proof.
  induction 1; simpl.
  - constructor.
  - replace (rev b) with (rev b ++ []) by apply app_nil_r. apply align_app; [done|].
    apply (align_delete 0). constructor.
  - replace (rev a) with (rev a ++ []) by apply app_nil_r. apply align_app; [done|].
    apply (align_insert 0). constructor.
  - apply align_app; [done|]. apply (align_replace 0). constructor.
Qed.

(** The recursion of the dynamic program. *)
Fixpoint lev (a b : list Z) : Z :=
  match a with
  | [] => Z.of_nat (length b)
  | x :: a' =>
    (fix go (b : list Z) : Z :=
       match b with
       | [] => Z.of_nat (length a)
       | y :: b' => MIN3 (1 + go b') (1 + lev a' b) (lev a' b' + if x =? y then 0 else 1)
       end) b
  end.

Lemma lev_nil_r a : lev a [] = Z.of_nat (length a).
Proof. by destruct a. Qed.

Lemma lev_cons x a y b :
  lev (x :: a) (y :: b)
  = MIN3 (1 + lev (x :: a) b) (1 + lev a (y :: b)) (lev a b + if x =? y then 0 else 1).
Proof. done. Qed.

Lemma MIN3_le a b c : MIN3 a b c <= a /\ MIN3 a b c <= b /\ MIN3 a b c <= c.
Proof. unfold MIN3. case_ifs. Qed.

Lemma MIN3_cases a b c : MIN3 a b c = a \/ MIN3 a b c = b \/ MIN3 a b c = c.
Proof. unfold MIN3. case_ifs; auto. Qed.

(** Removing a character changes the distance by at most one. *)
Lemma lev_step a b :
  (forall x, lev (x :: a) b <= lev a b + 1) /\ (forall y, lev a (y :: b) <= lev a b + 1).
Proof.
  revert b. induction a as [|x a IH]; intros b.
  - split; [|intros; simpl; lia]. intros x. induction b as [|y b IHb]; [simpl; lia|].
    rewrite lev_cons. pose proof (MIN3_le (1 + lev [x] b) (1 + lev [] (y :: b)) (lev [] b + if x =? y then 0 else 1)).
    simpl in *. lia.
  - induction b as [|y b [IHb1 IHb2]].
    + split; [intros; rewrite !lev_nil_r; simpl; lia|].
      intros y. rewrite lev_cons. pose proof (MIN3_le (1 + lev (x :: a) []) (1 + lev a [y]) (lev a [] + if x =? y then 0 else 1)). lia.
    + split.
      * intros x'. rewrite lev_cons.
        pose proof (MIN3_le (1 + lev (x' :: x :: a) b) (1 + lev (x :: a) (y :: b)) (lev (x :: a) b + if x' =? y then 0 else 1)). lia.
      * intros y'. rewrite lev_cons.
        pose proof (MIN3_le (1 + lev (x :: a) (y :: b)) (1 + lev a (y' :: y :: b)) (lev a (y :: b) + if x =? y' then 0 else 1)). lia.
Qed.

Lemma align_lev n a b : align n a b -> lev a b <= n.
Proof.
  induction 1.
  - done.
  - pose proof (proj1 (lev_step a b) x). lia.
  - pose proof (proj2 (lev_step a b) y). lia.
  - rewrite lev_cons.
    pose proof (MIN3_le (1 + lev (x :: a) b) (1 + lev a (y :: b)) (lev a b + if x =? y then 0 else 1)). lia.
Qed.

Lemma lev_align a b : align (lev a b) a b.
Proof.
  revert b. induction a as [|x a IH]; intros b.
  - induction b as [|y b IHb]; [constructor|].
    replace (lev [] (y :: b)) with (lev [] b + 1) by (simpl; lia). by constructor.
  - induction b as [|y b IHb].
    + rewrite lev_nil_r. simpl length. replace (Z.of_nat (S (length a))) with (lev a [] + 1)
        by (rewrite lev_nil_r; lia). by constructor.
    + rewrite lev_cons. destruct (MIN3_cases (1 + lev (x :: a) b) (1 + lev a (y :: b)) (lev a b + if x =? y then 0 else 1)) as [->|[->| ->]].
      * rewrite Z.add_comm. by constructor.
      * rewrite Z.add_comm. by constructor.
      * by constructor.
Qed.

(** * The dynamic program *)

Section Table.
Context (s0 s1 : list Z).

(** The distance of two prefixes. *)
Definition D (i j : Z) : Z := lev (rev (take (Z.to_nat i) s0)) (rev (take (Z.to_nat j) s1)).

Lemma rev_take_S (s : list Z) i x :
  0 < i -> get s (i - 1) = Some x ->
  rev (take (Z.to_nat i) s) = x :: rev (take (Z.to_nat (i - 1)) s).
Proof using.
  intros Hi Hx. rewrite get_spec in Hx by lia.
  replace (Z.to_nat i) with (S (Z.to_nat (i - 1))) by lia.
  erewrite take_S_r by exact Hx. by rewrite rev_app_distr.
Qed.

Lemma D_i_0 i : 0 <= i <= Z.of_nat (length s0) -> D i 0 = i.
Proof using. intros. unfold D. simpl. rewrite lev_nil_r, length_rev, length_take. lia. Qed.

Lemma D_0_j j : 0 <= j <= Z.of_nat (length s1) -> D 0 j = j.
Proof using. intros. unfold D. simpl. rewrite length_rev, length_take. lia. Qed.

(** The cell the inner loop computes, from the column before it ([i - 1], or the first
    column again for [i = 0]). *)
Lemma cell i j :
  0 <= i <= Z.of_nat (length s0) -> 0 < j <= Z.of_nat (length s1) ->
  exists same, same_char s0 s1 i j = Some same /\
    MIN3 (1 + D i (j - 1)) (1 + D (Z.max 0 (i - 1)) j)
         (D (Z.max 0 (i - 1)) (j - 1) + if same then 0 else 1) = D i j.
Proof using.
  intros Hi Hj. unfold same_char. destruct (Z.gtb_spec i 0) as [H|H].
  - destruct (get_is_Some s0 (i - 1) ltac:(lia)) as [x Hx].
    destruct (get_is_Some s1 (j - 1) ltac:(lia)) as [y Hy].
    rewrite Hx, Hy. cbn [mbind option_bind]. exists (x =? y). split; [done|].
    rewrite Z.max_r by lia. unfold D.
    rewrite (rev_take_S s0 i x), (rev_take_S s1 j y) by (done || lia). done.
  - assert (i = 0) as -> by lia. exists false. split; [done|].
    rewrite Z.max_l by lia. rewrite !D_0_j by lia. unfold MIN3. case_ifs.
Qed.

Definition column (i : Z) (c : list Z) (n : Z) : Prop :=
  length c = S (length s1) /\ forall m, 0 <= m < n -> get c m = Some (D i m).

Lemma fill_column_spec left i j pol col :
  0 <= i <= Z.of_nat (length s0) -> 0 < j ->
  Z.of_nat left = Z.of_nat (length s1) + 1 - j ->
  column (Z.max 0 (i - 1)) pol (Z.of_nat (length s1) + 1) -> column i col j ->
  exists col', fill_column left s0 s1 i j pol col = Some col' /\
    column i col' (Z.of_nat (length s1) + 1).
Proof using.
  intros Hi. revert j col. induction left as [|left IH]; intros j col Hj Hl [Hpl Hp] [Hcl Hc].
  { exists col. split; [done|]. split; [done|]. intros m Hm. apply Hc. lia. }
  cbn [fill_column]. destruct (cell i j Hi ltac:(lia)) as (same & Hs & Hcell).
  rewrite Hc by lia. cbn [mbind option_bind]. rewrite !Hp by lia. cbn [mbind option_bind].
  rewrite Hs. cbn [mbind option_bind]. rewrite Hcell, put_spec by lia. cbn [mbind option_bind].
  apply IH; try lia; split; try done; [by rewrite length_insert|].
  intros m Hm. rewrite get_spec by lia. destruct (decide (m = j)) as [->|].
  - by rewrite list_lookup_insert_eq by lia.
  - rewrite list_lookup_insert_ne, <- get_spec by lia. apply Hc. lia.
Qed.

Lemma columns_spec left i pol col :
  0 <= i -> Z.of_nat left = Z.of_nat (length s0) + 1 - i -> length col = S (length s1) ->
  column (Z.max 0 (i - 1)) pol (Z.of_nat (length s1) + 1) ->
  exists pol', columns left s0 s1 i pol col = Some pol' /\
    column (Z.of_nat (length s0)) pol' (Z.of_nat (length s1) + 1).
Proof using.
  revert i pol col. induction left as [|left IH]; intros i pol col Hi Hl Hcol Hp.
  { exists pol. split; [done|]. by replace (Z.max 0 (i - 1)) with (Z.of_nat (length s0)) in Hp by lia. }
  cbn [columns]. rewrite put_spec by lia. cbn [mbind option_bind].
  destruct (fill_column_spec (length s1) i 1 pol (<[Z.to_nat 0 := i]> col)) as (col' & -> & Hc');
    try lia; [done| |].
  { split; [by rewrite length_insert|]. intros m Hm. assert (m = 0) as -> by lia.
    rewrite get_spec, list_lookup_insert_eq by lia. f_equal. symmetry. apply D_i_0. lia. }
  cbn [mbind option_bind]. apply IH; try lia; [apply Hp|].
  replace (Z.max 0 (i + 1 - 1)) with i by lia. done.
Qed.
End Table.

(** C34: [levenshtein] divides the least number of insertions, deletions and replacements that
    turn the first string into the second by the longer length; it never leaves its arrays,
    whatever the uninitialised one holds. *)
Theorem levenshtein_minimal col s0 s1 :
  length col = S (length s1) ->
  exists dist, levenshtein col s0 s1
    = Some (dist, Z.max (Z.of_nat (length s0)) (Z.of_nat (length s1))) /\
    align dist s0 s1 /\ forall n, align n s0 s1 -> dist <= n.
Proof.
  intros Hcol. unfold levenshtein.
  destruct (columns_spec s0 s1 (Z.to_nat (Z.of_nat (length s0) + 1)) 0
              (seqZ 0 (Z.of_nat (length s1) + 1)) col) as (pol & -> & _ & Hp); try lia.
  { split; [rewrite length_seqZ; lia|]. intros m Hm. rewrite get_spec by lia.
    rewrite (lookup_seqZ_lt 0 _ (Z.to_nat m)) by lia. f_equal. rewrite D_0_j; lia. }
  cbn [mbind option_bind]. rewrite Hp by lia. cbn [mbind option_bind].
  eexists. split; [f_equal; f_equal; case_ifs|]. unfold D.
  rewrite !take_ge by lia. split.
  - rewrite <- (rev_involutive s0) at 2. rewrite <- (rev_involutive s1) at 2.
    apply align_rev, lev_align.
  - intros n Hn. by apply align_lev, align_rev.
Qed.

Lemma levenshtein_witness :
  exists dist, levenshtein (replicate 8 (-1)) (ascii_codes "kitten"%string) (ascii_codes "sitting"%string)
    = Some (dist, 7) /\
    align dist (ascii_codes "kitten"%string) (ascii_codes "sitting"%string) /\
    forall n, align n (ascii_codes "kitten"%string) (ascii_codes "sitting"%string) -> dist <= n.
Proof. exact (levenshtein_minimal (replicate 8 (-1)) (ascii_codes "kitten"%string) (ascii_codes "sitting"%string) eq_refl). Defined.

Example levenshtein_kitten :
  levenshtein (replicate 8 (-1)) (ascii_codes "kitten"%string) (ascii_codes "sitting"%string)
  = Some (3, 7).
Proof. reflexivity. Qed.

(** Two empty strings divide zero by zero: their similarity is not a number. *)
Theorem levenshtein_empty_divides_by_zero : levenshtein [0] [] [] = Some (0, 0).
Proof. reflexivity. Qed.
