(* ===== verification/TokenBucket.v ===== *)
(** Rate limiting by token buckets: [net/http/tokenbucket.c]. A bucket is a signed byte of an
    array that one thread also reads as little-endian 64-bit words, eight buckets at a time.
    The memory is the list of its bytes. Each atomic access is a step of its own, so that
    the threads that acquire tokens and the one that replenishes them interleave. *)
From S2P Require Import Prelude.

(** * Memory *)

(** A little-endian word. *)
Fixpoint word (bs : list Z) : Z :=
  match bs with [] => 0 | b :: bs' => b + 256 * word bs' end.

Fixpoint unword (n : nat) (w : Z) : list Z :=
  match n with O => [] | S n' => w mod 256 :: unword n' (w / 256) end.

(** [atomic_load_explicit(w + i)] on words. *)
Definition load_word (mem : list Z) (i : nat) : Z := word (take 8 (drop (8 * i) mem)).

(** [atomic_fetch_add_explicit(w + i, d)] on words. *)
Definition add_word (mem : list Z) (i : nat) (d : Z) : list Z :=
  take (8 * i) mem ++ unword 8 (u64 (load_word mem i + d)) ++ drop (8 * i + 8) mem.

(** [atomic_load_explicit(b + i)] on signed bytes. *)
Definition load_byte (mem : list Z) (i : nat) : Z := schar (default 0 (mem !! i)).

(** [atomic_fetch_add_explicit(b + i, -1)] on signed bytes. *)
Definition dec_byte (mem : list Z) (i : nat) : list Z :=
  alter (fun b => u8 (b - 1)) i mem.

(** * Operations *)

(** What a replenishing round adds to a word; [None] skips a word of full buckets. *)
Definition replenish_delta (a : Z) : option Z :=
  if a =? 0x7f7f7f7f7f7f7f7f then None
  else
    let b := 0x8080808080808080 in
    let c := Z.lxor 0x7f7f7f7f7f7f7f7f a in
    let d := Z.shiftr (Z.lxor (Z.land (u64 (Z.lor (Z.shiftr c 1) b - c)) b) b) 7 in
    Some d.

(** The loop of [ReplenishTokens] run without interference. *)
Fixpoint replenish_loop (left : nat) (i : nat) (mem : list Z) : list Z :=
  match left with
  | O => mem
  | S left' =>
    replenish_loop left' (S i)
      match replenish_delta (load_word mem i) with
      | None => mem
      | Some d => add_word mem i d
      end
  end.

Definition ReplenishTokens (mem : list Z) (n : nat) : list Z := replenish_loop n 0 mem.

(** [x >> (32 - c)] on [uint32_t]; the network has between 1 and 32 bits. *)
Definition bucket_index (x c : Z) : nat := Z.to_nat (Z.shiftr x (32 - c)).

(** [AcquireToken] run without interference: its result and the memory. *)
Definition AcquireToken (mem : list Z) (x c : Z) : Z * list Z :=
  let i := bucket_index x c in
  let t := load_byte mem i in
  if t <=? 0 then (t, mem) else (load_byte mem i, dec_byte mem i).

Definition CountTokens (mem : list Z) (x c : Z) : Z := load_byte mem (bucket_index x c).

(** * Interleavings *)

(** Where a thread inside [AcquireToken] stands: before its load, or after a load that found
    a token in the bucket. *)
Inductive phase :=
| Idle
| Loaded (i : nat).

(** Where the replenisher stands: before the load of word [i], or before adding [d]. *)
Inductive rphase :=
| RLoad (i : nat)
| RAdd (i : nat) (d : Z).

Record system := System { mem : list Z; threads : list phase; replenisher : rphase }.

(** The number of words. *)
Definition words (s : system) : nat := (length (mem s) / 8)%nat.

(** One atomic step. A round that ends starts the next one at word 0. *)
Inductive step : system -> system -> Prop :=
| step_denied s k i :
    threads s !! k = Some Idle -> (i < length (mem s))%nat ->
    load_byte (mem s) i <= 0 ->
    step s s
| step_load s k i :
    threads s !! k = Some Idle -> (i < length (mem s))%nat ->
    0 < load_byte (mem s) i ->
    step s (System (mem s) (<[k := Loaded i]> (threads s)) (replenisher s))
| step_acquire s k i :
    threads s !! k = Some (Loaded i) ->
    step s (System (dec_byte (mem s) i) (<[k := Idle]> (threads s)) (replenisher s))
| step_round s i :
    replenisher s = RLoad i -> (words s <= i)%nat ->
    step s (System (mem s) (threads s) (RLoad 0))
| step_skip s i :
    replenisher s = RLoad i -> (i < words s)%nat ->
    replenish_delta (load_word (mem s) i) = None ->
    step s (System (mem s) (threads s) (RLoad (S i)))
| step_read s i d :
    replenisher s = RLoad i -> (i < words s)%nat ->
    replenish_delta (load_word (mem s) i) = Some d ->
    step s (System (mem s) (threads s) (RAdd i d))
| step_add s i d :
    replenisher s = RAdd i d ->
    step s (System (add_word (mem s) i d) (threads s) (RLoad (S i))).

(** No two threads are between the load and the decrement of the same bucket. *)
Definition exclusive (s : system) : Prop :=
  forall k k' i, threads s !! k = Some (Loaded i) -> threads s !! k' = Some (Loaded i) -> k = k'.

(** Executions all of whose states are exclusive. *)
Inductive reachable (s0 : system) : system -> Prop :=
| reach_refl : exclusive s0 -> reachable s0 s0
| reach_step s s' : reachable s0 s -> step s s' -> exclusive s' -> reachable s0 s'.

(** Executions without that discipline. *)
Inductive reachable_racy (s0 : system) : system -> Prop :=
| racy_refl : reachable_racy s0 s0
| racy_step s s' : reachable_racy s0 s -> step s s' -> reachable_racy s0 s'.

(** * Examples *)

Example replenish_sample :
  ReplenishTokens [0; 1; 127; 126; 0; 0; 0; 127; 127; 127; 127; 127; 127; 127; 127; 127] 2
  = [1; 2; 127; 127; 1; 1; 1; 127; 127; 127; 127; 127; 127; 127; 127; 127].
Proof. reflexivity. Qed.
