(* ===== verification/TokenBucketFacts.v ===== *)
(** Correctness of the token buckets of [TokenBucket.v]: the word-parallel increment adds one
    to every bucket that is not full; without interference a round is a saturating increment
    of every byte and every bucket fills up; when no two threads race for one bucket, every
    interleaving keeps the buckets within 0 and 127; a race on one bucket can ruin its
    neighbour. *)
From stdpp Require Import sets relations.
From S2P Require Import Prelude TokenBucket.

(** * Words and bytes *)

Lemma word_range bs : Forall is_byte bs -> 0 <= word bs < 256 ^ Z.of_nat (length bs).
Proof.
  induction 1 as [|b bs Hb Hbs IH]; simpl length; [simpl; lia|].
  rewrite Nat2Z.inj_succ, Z.pow_succ_r by lia. cbn [word]. unfold is_byte in Hb. lia.
Qed.

Lemma unword_word bs : Forall is_byte bs -> unword (length bs) (word bs) = bs.
Proof.
  induction 1 as [|b bs Hb Hbs IH]; [done|]. cbn [length unword word]. unfold is_byte in Hb.
  replace ((b + 256 * word bs) mod 256) with b by lia.
  replace ((b + 256 * word bs) / 256) with (word bs) by lia. by rewrite IH.
Qed.

Lemma word_add xs ds :
  length xs = length ds -> word xs + word ds = word (zip_with Z.add xs ds).
Proof.
  revert ds. induction xs as [|x xs IH]; intros [|d ds] Hl; try done. cbn [word zip_with].
  rewrite <- IH by (simpl in Hl; lia). lia.
Qed.

Lemma word_sub xs ds :
  length xs = length ds -> word xs - word ds = word (zip_with Z.sub xs ds).
Proof.
  revert ds. induction xs as [|x xs IH]; intros [|d ds] Hl; try done. cbn [word zip_with].
  rewrite <- IH by (simpl in Hl; lia). lia.
Qed.

(** Bit [n] of a low byte joined with the rest. *)
Lemma testbit_join x X n :
  is_byte x -> 0 <= n ->
  Z.testbit (x + 256 * X) n = if n <? 8 then Z.testbit x n else Z.testbit X (n - 8).
Proof.
  unfold is_byte. intros Hx Hn. replace (x + 256 * X) with (x + X * 2 ^ 8) by lia.
  rewrite <- lor_add_disjoint, Z.lor_spec by lia. rewrite <- shiftl_mul by lia.
  case_if; bool_prop.
  - by rewrite (Z.shiftl_spec_low X 8 n), orb_false_r by lia.
  - rewrite Z.shiftl_spec by lia.
    rewrite <- (Z.mod_small x (2 ^ 8)), Z.mod_pow2_bits_high by lia. done.
Qed.

Section Bytewise.
Context (op : Z -> Z -> Z) (f : bool -> bool -> bool).
Context (op_spec : forall a b n, 0 <= n -> Z.testbit (op a b) n = f (Z.testbit a n) (Z.testbit b n)).
Context (op_byte : forall a b, is_byte a -> is_byte b -> is_byte (op a b)).
Context (op_0 : op 0 0 = 0).

(** A bitwise operation on words works byte by byte. *)
Lemma word_bitwise xs ys :
  Forall is_byte xs -> Forall is_byte ys -> length xs = length ys ->
  op (word xs) (word ys) = word (zip_with op xs ys).
Proof using op_spec op_byte op_0.
  intros Hx. revert ys. induction Hx as [|x xs Hx Hxs IH]; intros ys Hy Hl; destruct Hy as [|y ys Hy Hys];
    try done. cbn [word zip_with]. rewrite <- IH by (done || (simpl in Hl; lia)).
  apply Z.bits_inj'. intros n Hn. rewrite op_spec, !testbit_join by auto.
  case_if; bool_prop; rewrite op_spec by lia; done.
Qed.
End Bytewise.

Lemma word_land xs ys :
  Forall is_byte xs -> Forall is_byte ys -> length xs = length ys ->
  Z.land (word xs) (word ys) = word (zip_with Z.land xs ys).
Proof. apply (word_bitwise Z.land andb); auto using Z.land_spec, land_byte. Qed.

Lemma word_lxor xs ys :
  Forall is_byte xs -> Forall is_byte ys -> length xs = length ys ->
  Z.lxor (word xs) (word ys) = word (zip_with Z.lxor xs ys).
Proof. apply (word_bitwise Z.lxor xorb); auto using Z.lxor_spec, lxor_byte. Qed.

(** [c >> 1 | 0x80...80] halves every byte and sets its top bit, whatever its neighbour
    shifts into it. *)
Lemma word_half cs :
  Forall is_byte cs ->
  Z.lor (Z.shiftr (word cs) 1) (word (replicate (length cs) 128))
  = word ((fun c => 128 + c / 2) <$> cs).
Proof.
  induction 1 as [|c cs Hc Hcs IH]; [done|]. cbn [length replicate word]. rewrite fmap_cons.
  cbn [word]. rewrite <- IH. clear IH. apply Z.bits_inj'. intros n Hn.
  assert (Hh : is_byte (128 + c / 2)) by (unfold is_byte in *; lia).
  rewrite Z.lor_spec, Z.shiftr_spec by lia. rewrite !testbit_join by (done || lia).
  rewrite Z.lor_spec.
  pose proof (byte_enum (fun c => forallb (fun n =>
    Bool.eqb (Z.testbit (128 + c / 2) n)
      (if n =? 7 then true else Z.testbit c (n + 1) || Z.testbit 128 n)) (seqZ 0 8)) eq_refl c Hc) as Ht.
  rewrite forallb_forall in Ht. specialize (Ht n).
  destruct (Z.ltb_spec n 8) as [H8|H8].
  - specialize (Ht (proj1 (list_elem_of_In _ _) (proj2 (elem_of_seqZ 0 8 n) ltac:(lia)))).
    apply eqb_prop in Ht. rewrite Ht. destruct (Z.eqb_spec n 7) as [->|Hne].
    + apply orb_true_r.
    + by rewrite (proj2 (Z.ltb_lt _ _)) by lia.
  - rewrite (proj2 (Z.ltb_ge _ _)), Z.shiftr_spec by lia. by replace (n + 1 - 8) with (n - 8 + 1) by lia.
Qed.

(** * The increment of a word *)

Definition inc_of (a : Z) : Z := if a =? 127 then 0 else 1.

Lemma word_const b : word (replicate 8 b) = b * 0x0101010101010101.
Proof. simpl. lia. Qed.

Lemma word_scale k es : word ((fun e => k * e) <$> es) = k * word es.
Proof. induction es as [|e es IH]; [simpl; lia|]. rewrite fmap_cons. cbn [word]. rewrite IH. lia. Qed.

Lemma word_inj xs ys :
  Forall is_byte xs -> Forall is_byte ys -> length xs = length ys -> word xs = word ys -> xs = ys.
Proof. intros Hx Hy Hl E. rewrite <- (unword_word xs Hx), <- (unword_word ys Hy). congruence. Qed.

Lemma byte_replicate n b : is_byte b -> Forall is_byte (replicate n b).
Proof. intros. by apply Forall_replicate. Qed.

(** The three masks of the source on one byte. *)
Lemma mask_byte a :
  is_byte a ->
  Z.lxor (Z.land (128 + Z.lxor 127 a / 2 - Z.lxor 127 a) 128) 128 = 128 * inc_of a /\
  0 <= 128 + Z.lxor 127 a / 2 - Z.lxor 127 a < 256.
Proof.
  intros Ha.
  pose proof (byte_enum (fun a => let y := 128 + Z.lxor 127 a / 2 - Z.lxor 127 a in
    (Z.lxor (Z.land y 128) 128 =? 128 * inc_of a) && ((0 <=? y) && (y <? 256))) eq_refl a Ha) as H.
  cbv zeta beta in H. bool_prop. lia.
Qed.

Lemma replenish_delta_spec bs :
  Forall is_byte bs -> length bs = 8%nat ->
  replenish_delta (word bs) =
    if decide (bs = replicate 8 127) then None else Some (word (inc_of <$> bs)).
Proof.
  intros Hb Hl. unfold replenish_delta.
  assert (Hb7 : Forall is_byte (replicate 8 127)) by (apply byte_replicate; done).
  assert (Hb8 : Forall is_byte (replicate 8 128)) by (apply byte_replicate; done).
  change 0x7f7f7f7f7f7f7f7f with (word (replicate 8 127)).
  change 0x8080808080808080 with (word (replicate 8 128)).
  destruct (decide (bs = replicate 8 127)) as [->|Hne]; [by rewrite Z.eqb_refl|].
  rewrite (proj2 (Z.eqb_neq _ _)) by (intros E%word_inj; rewrite ?length_replicate; done). f_equal.
  rewrite word_lxor by (rewrite ?length_replicate; done). rewrite zip_with_replicate_l by lia.
  set (cs := Z.lxor 127 <$> bs).
  assert (Hcl : length cs = 8%nat) by (unfold cs; by rewrite length_fmap).
  assert (Hc : Forall is_byte cs).
  { unfold cs. apply Forall_fmap. eapply Forall_impl; [|exact Hb]. intros a Ha. by apply lxor_byte. }
  pose proof (word_half cs Hc) as Hh. rewrite Hcl in Hh. rewrite Hh. clear Hh.
  rewrite word_sub by (by rewrite length_fmap). set (ys := zip_with Z.sub _ cs).
  assert (Ey : ys = (fun a => 128 + Z.lxor 127 a / 2 - Z.lxor 127 a) <$> bs).
  { unfold ys, cs. clear. induction bs as [|a bs IH]; [done|]. rewrite !fmap_cons. cbn [zip_with]. by rewrite IH. }
  assert (Hyl : length ys = 8%nat) by (rewrite Ey; by rewrite length_fmap).
  assert (Hy : Forall is_byte ys).
  { rewrite Ey. apply Forall_fmap. eapply Forall_impl; [|exact Hb]. intros a Ha. by apply mask_byte. }
  pose proof (word_range ys Hy) as Hr. rewrite Hyl in Hr. rewrite u64_small by (change (2 ^ 64) with (256 ^ Z.of_nat 8); done).
  rewrite word_land by (rewrite ?length_replicate; done). rewrite zip_with_replicate_r by lia.
  rewrite word_lxor.
  - rewrite zip_with_replicate_r by (rewrite length_fmap; lia).
    replace (flip Z.lxor 128 <$> (flip Z.land 128 <$> ys)) with ((fun e => 128 * e) <$> (inc_of <$> bs)).
    + rewrite word_scale, shiftr_div by lia. change (2 ^ 7) with 128. rewrite Z.mul_comm. by apply Z.div_mul.
    + rewrite Ey, <- !list_fmap_compose. apply list_fmap_ext. intros i a Ha. simpl. symmetry.
      apply mask_byte. exact (Forall_lookup_1 _ _ _ _ Hb Ha).
  - apply Forall_fmap. eapply Forall_impl; [|exact Hy]. intros y Hyb. by apply land_byte.
  - done.
  - by rewrite length_fmap, length_replicate.
Qed.

(** * A round without interference *)

(** A bucket that was never overdrawn. *)
Definition token (b : Z) : Prop := 0 <= b <= 127.

#[export] Instance token_dec b : Decision (token b).
Proof. unfold token. apply _. Defined.

(** The reference: one more token, up to 127. *)
Definition replenished (b : Z) : Z := Z.min 127 (b + 1).

Lemma token_byte b : token b -> is_byte b.
Proof. unfold token, is_byte. lia. Qed.

Lemma tokens_bytes bs : Forall token bs -> Forall is_byte bs.
Proof. intros H. eapply Forall_impl; [|exact H]. apply token_byte. Qed.

Lemma replenished_token b : token b -> token (replenished b).
Proof. unfold token, replenished. lia. Qed.

Definition block (mem : list Z) (i : nat) : list Z := take 8 (drop (8 * i) mem).

Lemma block_length mem i : (8 * i + 8 <= length mem)%nat -> length (block mem i) = 8%nat.
Proof. intros. unfold block. rewrite length_take, length_drop. lia. Qed.

Lemma block_lookup mem i k : (k < 8)%nat -> block mem i !! k = mem !! (8 * i + k)%nat.
Proof. intros. unfold block. by rewrite lookup_take_lt, lookup_drop. Qed.

Lemma block_tokens mem i : Forall token mem -> Forall token (block mem i).
Proof. intros. by apply Forall_take, Forall_drop. Qed.

(** The addition carries out of no byte. *)
Lemma add_word_spec mem i ds :
  (8 * i + 8 <= length mem)%nat -> length ds = 8%nat ->
  Forall is_byte (zip_with Z.add (block mem i) ds) ->
  add_word mem i (word ds)
  = take (8 * i) mem ++ zip_with Z.add (block mem i) ds ++ drop (8 * i + 8) mem.
Proof.
  intros Hlen Hd Hb. unfold add_word, load_word. fold (block mem i). do 2 f_equal.
  assert (Hl : length (zip_with Z.add (block mem i) ds) = 8%nat).
  { rewrite length_zip_with, block_length, Hd by done. done. }
  rewrite word_add by (by rewrite block_length, Hd).
  pose proof (word_range _ Hb) as Hr. rewrite Hl in Hr.
  rewrite u64_small by (change (2 ^ 64) with (256 ^ Z.of_nat 8); done).
  rewrite <- Hl at 1. by rewrite unword_word.
Qed.

Lemma mem_split mem i :
  mem = take (8 * i) mem ++ block mem i ++ drop (8 * i + 8) mem.
Proof. unfold block. by rewrite <- drop_drop, take_drop, take_drop. Qed.

Definition replenish_word (mem : list Z) (i : nat) : list Z :=
  match replenish_delta (load_word mem i) with
  | None => mem
  | Some d => add_word mem i d
  end.

Lemma replenish_word_spec mem i :
  Forall token mem -> (8 * i + 8 <= length mem)%nat ->
  replenish_word mem i
  = take (8 * i) mem ++ (replenished <$> block mem i) ++ drop (8 * i + 8) mem.
Proof.
  intros Ht Hlen. unfold replenish_word, load_word. fold (block mem i).
  pose proof (block_tokens mem i Ht) as Hb.
  rewrite replenish_delta_spec by (auto using tokens_bytes, block_length).
  assert (Hz : zip_with Z.add (block mem i) (inc_of <$> block mem i) = replenished <$> block mem i).
  { clear Hlen. induction Hb as [|b bs Hb Hbs IH]; [done|]. rewrite !fmap_cons. cbn [zip_with].
    rewrite IH. f_equal. unfold inc_of, replenished, token in *. case_ifs. }
  case_decide as Hf.
  - rewrite (mem_split mem i) at 1. do 2 f_equal. by rewrite Hf.
  - rewrite add_word_spec; rewrite ?length_fmap, ?Hz; auto using block_length.
    apply Forall_fmap. eapply Forall_impl; [|exact Hb]. intros b Hb'. by apply token_byte, replenished_token.
Qed.

Lemma replenish_loop_spec left i M :
  Forall token M -> length M = (8 * (i + left))%nat ->
  replenish_loop left i ((replenished <$> take (8 * i) M) ++ drop (8 * i) M) = replenished <$> M.
Proof.
  intros Ht. revert i. induction left as [|left IH]; intros i Hlen; cbn [replenish_loop].
  - rewrite take_ge, drop_ge by lia. apply app_nil_r.
  - set (m := (replenished <$> take (8 * i) M) ++ drop (8 * i) M).
    assert (Hp : length (replenished <$> take (8 * i) M) = (8 * i)%nat)
      by (rewrite length_fmap, length_take; lia).
    assert (Hm : Forall token m).
    { apply Forall_app. split; [|by apply Forall_drop]. apply Forall_fmap.
      eapply Forall_impl; [|by apply Forall_take]. apply replenished_token. }
    fold (replenish_word m i). rewrite replenish_word_spec; [|done|].
    2:{ unfold m. rewrite length_app, Hp, length_drop. lia. }
    rewrite <- (IH (S i)) by lia. f_equal. unfold m, block.
    rewrite (take_app_length' _ _ _ (eq_sym Hp)), (drop_app_length' _ _ _ (eq_sym Hp)).
    rewrite drop_app_ge, Hp, drop_drop by lia. rewrite app_assoc, <- fmap_app. f_equal.
    + f_equal. rewrite take_take_drop. f_equal. lia.
    + f_equal. lia.
Qed.

Lemma ReplenishTokens_spec M n :
  Forall token M -> length M = (8 * n)%nat -> ReplenishTokens M n = replenished <$> M.
Proof. intros Ht Hl. apply (replenish_loop_spec n 0 M); [done|lia]. Qed.

(** While no bucket is overdrawn, a round of [ReplenishTokens] adds one token to every
    bucket of the array and stops at 127: the word-parallel arithmetic is the bytewise
    saturating increment. *)
Theorem ReplenishTokens_saturates M n :
  Forall token M -> length M = (8 * n)%nat ->
  ReplenishTokens M n = replenished <$> M /\ Forall token (ReplenishTokens M n).
Proof.
  intros Ht Hl. rewrite ReplenishTokens_spec by done. split; [done|]. apply Forall_fmap.
  eapply Forall_impl; [|exact Ht]. apply replenished_token.
Qed.

Lemma ReplenishTokens_witness :
  ReplenishTokens [0; 1; 127; 126; 0; 0; 0; 127] 1 = replenished <$> [0; 1; 127; 126; 0; 0; 0; 127]
  /\ Forall token (ReplenishTokens [0; 1; 127; 126; 0; 0; 0; 127] 1).
Proof.
  apply ReplenishTokens_saturates; [|reflexivity]. apply (bool_decide_unpack _). exact I.
Defined.

(** * Interleavings *)

Lemma load_byte_token m i b : m !! i = Some b -> token b -> load_byte m i = b.
Proof.
  intros E Hb. unfold load_byte, schar. rewrite E. simpl. unfold token in Hb.
  by rewrite (proj2 (Z.ltb_lt _ _)) by lia.
Qed.

Lemma tokens_lookup m i : Forall token m -> (i < length m)%nat ->
  exists b, m !! i = Some b /\ token b /\ load_byte m i = b.
Proof.
  intros Ht Hi. destruct (lookup_lt_is_Some_2 m i Hi) as [b Hb].
  pose proof (Forall_lookup_1 _ _ _ _ Ht Hb) as Hk. exists b. auto using load_byte_token.
Qed.

(** The increments the replenisher is about to add still fit. *)
Definition pending_ok (m : list Z) (i : nat) (d : Z) : Prop :=
  exists ds, d = word ds /\ length ds = 8%nat /\
    Forall2 (fun b e => e = 0 \/ e = 1 /\ b < 127) (block m i) ds.

Record sys_ok (n : nat) (s : system) : Prop := {
  ok_len : length (mem s) = (8 * n)%nat;
  ok_tokens : Forall token (mem s);
  ok_threads : forall k i, threads s !! k = Some (Loaded i) ->
    (i < length (mem s))%nat /\ 0 < load_byte (mem s) i;
  ok_pending : forall i d, replenisher s = RAdd i d -> (i < n)%nat /\ pending_ok (mem s) i d }.

Lemma pending_add m i d :
  Forall token m -> (8 * i + 8 <= length m)%nat -> pending_ok m i d ->
  exists bs, add_word m i d = take (8 * i) m ++ bs ++ drop (8 * i + 8) m /\ length bs = 8%nat /\
    Forall2 (fun b b' => b <= b') (block m i) bs /\ Forall token bs.
Proof.
  intros Ht Hlen (ds & -> & Hd & HF). pose proof (block_tokens m i Ht) as Hb.
  exists (zip_with Z.add (block m i) ds).
  assert (Hbs : Forall token (zip_with Z.add (block m i) ds) /\
                Forall2 (fun b b' => b <= b') (block m i) (zip_with Z.add (block m i) ds)).
  { clear Hd Hlen. induction HF as [|b e bs es He HF IH]; [split; constructor|].
    apply Forall_cons_1 in Hb as [Hb Hbs]. destruct (IH Hbs). cbn [zip_with].
    unfold token in *. split; constructor; try done; lia. }
  destruct Hbs as [Htk Hle]. split_and!; auto.
  - apply add_word_spec; auto using tokens_bytes.
  - rewrite length_zip_with, block_length, Hd by done. done.
Qed.

Lemma lookup_splice (m bs : list Z) i j :
  (8 * i + 8 <= length m)%nat -> length bs = 8%nat ->
  (take (8 * i) m ++ bs ++ drop (8 * i + 8) m) !! j
  = if decide (8 * i <= j < 8 * i + 8)%nat then bs !! (j - 8 * i)%nat else m !! j.
Proof.
  intros Hm Hb. assert (Hl : length (take (8 * i) m) = (8 * i)%nat) by (rewrite length_take; lia).
  case_decide as Hj.
  - rewrite lookup_app_r, Hl, lookup_app_l by lia. done.
  - destruct (decide (j < 8 * i)%nat).
    + by rewrite lookup_app_l, lookup_take_lt by lia.
    + rewrite lookup_app_r, Hl, lookup_app_r, lookup_drop by lia. f_equal. lia.
Qed.

Lemma add_word_ok m i d :
  Forall token m -> (8 * i + 8 <= length m)%nat -> pending_ok m i d ->
  let m' := add_word m i d in
  Forall token m' /\ length m' = length m /\ forall j, load_byte m j <= load_byte m' j.
Proof.
  intros Ht Hlen Hp m'. destruct (pending_add m i d Ht Hlen Hp) as (bs & E & Hl & Hle & Hbs).
  assert (Ht' : Forall token m').
  { unfold m'. rewrite E. repeat (apply Forall_app; split); auto using Forall_take, Forall_drop. }
  assert (Hl' : length m' = length m).
  { unfold m'. rewrite E, !length_app, length_take, length_drop. lia. }
  split_and!; [done..|]. intros j. destruct (decide (j < length m)%nat) as [Hj|Hj].
  2:{ unfold load_byte. by rewrite !lookup_ge_None_2 by lia. }
  destruct (tokens_lookup m j Ht Hj) as (b & Eb & _ & ->).
  destruct (tokens_lookup m' j Ht' ltac:(lia)) as (b' & Eb' & _ & ->).
  unfold m' in Eb'. rewrite E, lookup_splice in Eb' by done. case_decide as Hb; [|naive_solver].
  rewrite Forall2_lookup in Hle. specialize (Hle (j - 8 * i)%nat). rewrite block_lookup in Hle by lia.
  replace (8 * i + (j - 8 * i))%nat with j in Hle by lia. rewrite Eb, Eb' in Hle. by inversion Hle.
Qed.

Lemma dec_byte_lookup m i j :
  dec_byte m i !! j = (if decide (j = i) then fun b => u8 (b - 1) else fun b => b) <$> m !! j.
Proof.
  unfold dec_byte. case_decide as E; [subst; by rewrite list_lookup_alter_eq|].
  rewrite list_lookup_alter_ne by done. by destruct (m !! j).
Qed.

(** Decrementing a bucket that holds a token. *)
Lemma dec_byte_ok m i :
  Forall token m -> (i < length m)%nat -> 0 < load_byte m i ->
  Forall token (dec_byte m i) /\
  (forall j, j <> i -> load_byte (dec_byte m i) j = load_byte m j) /\
  load_byte (dec_byte m i) i = load_byte m i - 1.
Proof.
  intros Ht Hi Hpos. destruct (tokens_lookup m i Ht Hi) as (b & Eb & Hb & E). rewrite E in *.
  assert (Hd : u8 (b - 1) = b - 1) by (unfold token in Hb; apply u8_small; lia).
  assert (Et : Forall token (dec_byte m i)).
  { apply Forall_lookup_2. intros j c. rewrite dec_byte_lookup. case_decide as Ej.
    - subst. rewrite Eb. simpl. intros [= <-]. rewrite Hd. unfold token in *. lia.
    - destruct (m !! j) eqn:Em; simpl; [|done]. intros [= <-]. exact (Forall_lookup_1 _ _ _ _ Ht Em). }
  split_and!; [done| |].
  - intros j Hj. unfold load_byte. rewrite dec_byte_lookup, decide_False by done.
    by destruct (m !! j).
  - apply load_byte_token; [|unfold token in *; lia].
    rewrite dec_byte_lookup, decide_True, Eb by done. simpl. by rewrite Hd.
Qed.

(** A decrement leaves room for what the replenisher adds. *)
Lemma pending_mono m m' i d :
  length m = length m' -> (forall j b b', m !! j = Some b -> m' !! j = Some b' -> b' <= b) ->
  (8 * i + 8 <= length m)%nat -> pending_ok m i d -> pending_ok m' i d.
Proof.
  intros Hl Hle Hlen (ds & -> & Hd & HF). exists ds. split_and!; [done..|].
  apply Forall2_same_length_lookup_2; [rewrite block_length; lia|].
  intros k b' e Hb' He. pose proof (lookup_lt_Some _ _ _ He) as Hk.
  rewrite block_lookup in Hb' by lia.
  destruct (lookup_lt_is_Some_2 m (8 * i + k)%nat) as [b Hb]; [lia|].
  rewrite Forall2_lookup in HF. specialize (HF k). rewrite block_lookup, Hb, He in HF by lia.
  inversion HF as [? ? HR|]; subst. pose proof (Hle _ _ _ Hb Hb'). lia.
Qed.

(** What the replenisher reads fits when it is added at once. *)
Lemma pending_read m i d :
  Forall token m -> (8 * i + 8 <= length m)%nat ->
  replenish_delta (load_word m i) = Some d -> pending_ok m i d.
Proof.
  intros Ht Hlen. unfold load_word. fold (block m i).
  pose proof (block_tokens m i Ht) as Hb.
  rewrite replenish_delta_spec by auto using tokens_bytes, block_length.
  case_decide; intros [= <-]. exists (inc_of <$> block m i).
  split_and!; [done|by rewrite length_fmap, block_length|].
  apply Forall2_fmap_r, Forall_Forall2_diag. eapply Forall_impl; [|exact Hb].
  intros b Hb'. unfold token in Hb'. unfold inc_of. simpl. destruct (Z.eqb_spec b 127); lia.
Qed.

Lemma words_ok n s : length (mem s) = (8 * n)%nat -> words s = n.
Proof. intros E. unfold words. rewrite E, Nat.mul_comm. by apply Nat.div_mul. Qed.

Lemma step_ok n s s' : sys_ok n s -> exclusive s -> step s s' -> sys_ok n s'.
Proof.
  intros [Hl Ht Hth Hp] Hex Hs. destruct Hs as [s k i Hk Hi Hle|s k i Hk Hi Hlt|s k i Hk|s i Hr Hi|
    s i Hr Hi Hd|s i d Hr Hi Hd|s i d Hr]; try (rewrite (words_ok n) in Hi by done).
  - by split.
  - split; simpl; try done. intros k' i'. destruct (decide (k' = k)) as [->|].
    + rewrite list_lookup_insert_eq by (by eapply lookup_lt_Some). by intros [= <-].
    + rewrite list_lookup_insert_ne by done. apply Hth.
  - destruct (Hth k i Hk) as [Hi Hpos].
    destruct (dec_byte_ok (mem s) i Ht Hi Hpos) as (Ht' & Hne & Heq).
    assert (Hlen : length (dec_byte (mem s) i) = length (mem s)) by apply length_alter.
    split; simpl; rewrite ?Hlen; try done.
    + intros k' i'. destruct (decide (k' = k)) as [->|Hkk].
      * by rewrite list_lookup_insert_eq by (by eapply lookup_lt_Some).
      * rewrite list_lookup_insert_ne by done. intros Hk'. rewrite Hne; [by apply (Hth k')|].
        intros ->. by apply Hkk, (Hex k' k i).
    + intros j d Hd. destruct (Hp j d Hd) as [Hj HP]. split; [done|].
      apply (pending_mono (mem s)); [done| |lia|done]. intros m b b' Hb.
      rewrite dec_byte_lookup, Hb. pose proof (Forall_lookup_1 _ _ _ _ Ht Hb) as Hb'.
      simpl. intros [= <-]. case_decide; [|lia]. subst. rewrite (load_byte_token _ _ b) in Hpos by done.
      unfold token in Hb'. rewrite u8_small; lia.
  - split; simpl; try done.
  - split; simpl; try done.
  - split; simpl; try done. intros i' d' [= <- <-]. split; [done|]. apply pending_read; [done|lia|done].
  - destruct (Hp i d Hr) as [Hi HP].
    destruct (add_word_ok (mem s) i d Ht ltac:(lia) HP) as (Ht' & Hl' & Hmono).
    split; simpl; rewrite ?Hl'; try done. intros k j Hk. destruct (Hth k j Hk) as [Hj Hpos].
    split; [done|]. specialize (Hmono j). lia.
Qed.

Definition start (m : list Z) (threads : nat) : system :=
  System m (replicate threads Idle) (RLoad 0).

Lemma start_sys_ok n m t : Forall token m -> length m = (8 * n)%nat -> sys_ok n (start m t).
Proof.
  intros Ht Hl. split; try done. simpl. intros k i Hk. by apply lookup_replicate in Hk as [? _].
Qed.

Lemma reachable_ok n s s' : sys_ok n s -> reachable s s' -> sys_ok n s' /\ exclusive s'.
Proof.
  intros Hok. induction 1 as [|s1 s2 _ [IH Hex] Hs Hex']; [done|]. split; [|done]. by eapply step_ok.
Qed.


Lemma exclusive_idle m t : exclusive (start m t).
Proof. intros k k' i Hk. by apply lookup_replicate in Hk as [? _]. Qed.


(** * Progress of the replenisher *)

Lemma replenish_word_ok n m i :
  Forall token m -> length m = (8 * n)%nat -> (i < n)%nat ->
  Forall token (replenish_word m i) /\ length (replenish_word m i) = (8 * n)%nat.
Proof.
  intros Ht Hl Hi. rewrite replenish_word_spec by (done || lia). split.
  - repeat (apply Forall_app; split); auto using Forall_take, Forall_drop.
    apply Forall_fmap. eapply Forall_impl; [|by apply block_tokens]. apply replenished_token.
  - rewrite !length_app, length_fmap, block_length, length_take, length_drop by lia. lia.
Qed.

(** The steps of the replenisher alone are the sequential loop. *)
Lemma replenisher_run n left i m ths :
  Forall token m -> length m = (8 * n)%nat -> (i + left)%nat = n ->
  let m' := replenish_loop left i m in
  rtc step (System m ths (RLoad i)) (System m' ths (RLoad n)) /\
  Forall token m' /\ length m' = (8 * n)%nat.
Proof.
  revert i m. induction left as [|left IH]; intros i m Ht Hl Hn; cbn [replenish_loop].
  { assert (i = n) as -> by lia. done. }
  destruct (replenish_word_ok n m i Ht Hl ltac:(lia)) as [Ht' Hl'].
  destruct (IH (S i) _ Ht' Hl' ltac:(lia)) as [Hrun Hrest]. split; [|exact Hrest].
  etransitivity; [|exact Hrun]. unfold replenish_word.
  assert (Hw : (i < words (System m ths (RLoad i)))%nat) by (rewrite (words_ok n); [lia|done]).
  destruct (replenish_delta (load_word m i)) as [d|] eqn:Hd.
  - eapply rtc_l; [by eapply (step_read _ i d)|]. eapply rtc_l; [by eapply (step_add _ i d)|]. done.
  - eapply rtc_l; [by eapply (step_skip _ i)|]. done.
Qed.

Lemma round_ends n m ths i :
  length m = (8 * n)%nat -> (n <= i)%nat ->
  step (System m ths (RLoad i)) (System m ths (RLoad 0)).
Proof.
  intros Hl Hi. apply (step_round (System m ths (RLoad i)) i); [done|]. by rewrite (words_ok n).
Qed.

Lemma finish_round n s :
  sys_ok n s -> exists m, rtc step s (System m (threads s) (RLoad 0)) /\
    Forall token m /\ length m = (8 * n)%nat.
Proof.
  intros [Hl Ht Hth Hp].
  assert (Hround : forall m i, Forall token m -> length m = (8 * n)%nat ->
    exists m', rtc step (System m (threads s) (RLoad i)) (System m' (threads s) (RLoad 0)) /\
      Forall token m' /\ length m' = (8 * n)%nat).
  { intros m i Htm Hlm. destruct (decide (i <= n)%nat) as [Hi|Hi].
    - destruct (replenisher_run n (n - i) i m (threads s) Htm Hlm ltac:(lia)) as (Hrun & Ht' & Hl').
      eexists. split; [|split; [exact Ht'|exact Hl']]. etransitivity; [exact Hrun|].
      eapply rtc_once, (round_ends n); [done|lia].
    - exists m. split; [|done]. eapply rtc_once, (round_ends n); [done|lia]. }
  destruct s as [m ths [i|i d]]; simpl in *; [by apply Hround|].
  destruct (Hp i d eq_refl) as [Hi HP].
  destruct (add_word_ok m i d Ht ltac:(lia) HP) as (Ht' & Hl' & _).
  destruct (Hround (add_word m i d) (S i) Ht' ltac:(lia)) as (m' & Hrun & Hrest).
  exists m'. split; [|done]. eapply rtc_l; [by apply (step_add (System m ths (RAdd i d)) i d)|done].
Qed.

(** From every state of such an execution, steps of the replenisher alone lead to a state
    where every bucket holds a token, so no client is locked out for good. *)
Theorem buckets_refill n m t s :
  Forall token m -> length m = (8 * n)%nat -> reachable (start m t) s ->
  exists s', rtc step s s' /\ threads s' = threads s /\
    forall i, (i < 8 * n)%nat -> 0 < load_byte (mem s') i.
Proof.
  intros Ht Hl Hr. destruct (reachable_ok n _ _ (start_sys_ok n m t Ht Hl) Hr) as [Hok _].
  destruct (finish_round n s Hok) as (m1 & Hrun1 & Ht1 & Hl1).
  destruct (replenisher_run n n 0 m1 (threads s) Ht1 Hl1 eq_refl) as (Hrun2 & Ht2 & Hl2).
  eexists. split; [etransitivity; [exact Hrun1|exact Hrun2]|]. split; [done|]. simpl. intros i Hi.
  change (replenish_loop n 0 m1) with (ReplenishTokens m1 n). rewrite ReplenishTokens_spec by done.
  destruct (tokens_lookup m1 i Ht1 ltac:(lia)) as (b & Eb & Hb & _).
  rewrite (load_byte_token _ _ (replenished b)); [|by rewrite list_lookup_fmap, Eb|by apply replenished_token].
  unfold token, replenished in *. lia.
Qed.

Lemma buckets_refill_witness :
  exists s', rtc step (start (replicate 8 0) 1) s' /\ threads s' = threads (start (replicate 8 0) 1) /\
    forall i, (i < 8 * 1)%nat -> 0 < load_byte (mem s') i.
Proof.
  apply (buckets_refill 1 (replicate 8 0) 1).
  - apply (bool_decide_unpack _). exact I.
  - reflexivity.
  - apply reach_refl, exclusive_idle.
Defined.

(** * A race *)

(** Two threads that race for the last token of a bucket overdraw it, and the next round
    carries out of its byte: a neighbour that held 127 tokens holds -128. *)
Theorem tokens_race :
  exists s, reachable_racy (start [1; 127; 0; 0; 0; 0; 0; 0] 2) s /\ load_byte (mem s) 1 = -128.
Proof.
  exists (System [0; 128; 1; 1; 1; 1; 1; 1] [Idle; Idle] (RLoad 1)). split; [|reflexivity].
  set (W := word [1; 0; 1; 1; 1; 1; 1; 1]).
  set (s5 := System [255; 127; 0; 0; 0; 0; 0; 0] [Idle; Idle] (RAdd 0 W)).
  set (s4 := System [255; 127; 0; 0; 0; 0; 0; 0] [Idle; Idle] (RLoad 0)).
  set (s3 := System [0; 127; 0; 0; 0; 0; 0; 0] [Idle; Loaded 0] (RLoad 0)).
  set (s2 := System [1; 127; 0; 0; 0; 0; 0; 0] [Loaded 0; Loaded 0] (RLoad 0)).
  set (s1 := System [1; 127; 0; 0; 0; 0; 0; 0] [Loaded 0; Idle] (RLoad 0)).
  set (s0 := start _ _).
  assert (H1 : step s0 s1) by (apply (step_load s0 0 0); [reflexivity|vm_compute; lia|vm_compute; done]).
  assert (H2 : step s1 s2) by (apply (step_load s1 1 0); [reflexivity|vm_compute; lia|vm_compute; done]).
  assert (H3 : step s2 s3) by exact (step_acquire s2 0 0 eq_refl).
  assert (H4 : step s3 s4) by exact (step_acquire s3 1 0 eq_refl).
  assert (H5 : step s4 s5) by (apply (step_read s4 0 W); [reflexivity|vm_compute; lia|reflexivity]).
  pose proof (step_add s5 0 W eq_refl) as H6.
  exact (racy_step _ _ _ (racy_step _ _ _ (racy_step _ _ _ (racy_step _ _ _ (racy_step _ _ _
           (racy_step _ _ _ (racy_refl s0) H1) H2) H3) H4) H5) H6).
Qed.
