(* ===== verification/Dll.v ===== *)
(** Doubly linked lists: [libc/intrin/dll.c] and the accessors of [libc/intrin/dll.h].

    Memory maps addresses to the [struct Dll]s that live there and an access to any other
    address, NULL included, stops the run with [None]. A list is the address of its last
    element, or NULL; a function that takes [struct Dll **list] takes that address and
    returns the new one with the memory. *)
From stdpp Require Export gmap.
From S2P Require Import Prelude.

Record Dll := mkDll { next : Z; prev : Z }.
Abbreviation heap := (gmap Z Dll).

Definition set_next (h : heap) (p v : Z) : option heap := n ← h !! p; Some (<[p := mkDll v (prev n)]> h).
Definition set_prev (h : heap) (p v : Z) : option heap := n ← h !! p; Some (<[p := mkDll (next n) v]> h).

(** * Operations *)

Definition dll_init (h : heap) (e : Z) : option heap := h ← set_next h e e; set_prev h e e.

Definition dll_splice_after (h : heap) (elem succ : Z) : option heap :=
  tmp1 ← next <$> h !! elem;
  tmp2 ← prev <$> h !! succ;
  h ← set_next h elem succ;
  h ← set_prev h succ elem;
  h ← set_next h tmp2 tmp1;
  set_prev h tmp1 tmp2.

Definition dll_remove (h : heap) (list elem : Z) : option (heap * Z) :=
  list ← (if list =? elem then
            l ← h !! list;
            if prev l =? list then Some 0 else Some (prev l)
          else Some list);
  e ← h !! elem; h ← set_prev h (next e) (prev e);
  e ← h !! elem; h ← set_next h (prev e) (next e);
  h ← set_next h elem elem;
  h ← set_prev h elem elem;
  Some (h, list).

Definition dll_make_first (h : heap) (list elem : Z) : option (heap * Z) :=
  if elem =? 0 then Some (h, list)
  else if list =? 0 then e ← h !! elem; Some (h, prev e)
  else h ← dll_splice_after h list elem; Some (h, list).

Definition dll_make_last (h : heap) (list elem : Z) : option (heap * Z) :=
  if elem =? 0 then Some (h, list)
  else e ← h !! elem;
       '(h, _) ← dll_make_first h list (next e);
       Some (h, elem).

(** * Accessors *)

Definition dll_is_alone (h : heap) (e : Z) : option bool :=
  n ← h !! e; Some ((next n =? e) && (prev n =? e)).

Definition dll_is_empty (list : Z) : bool := list =? 0.
Definition dll_last (list : Z) : Z := list.

Definition dll_first (h : heap) (list : Z) : option Z :=
  if list =? 0 then Some 0 else next <$> h !! list.

Definition dll_next (h : heap) (list e : Z) : option Z :=
  if e =? list then Some 0 else next <$> h !! e.

Definition dll_prev (h : heap) (list e : Z) : option Z :=
  l ← h !! list; if e =? next l then Some 0 else prev <$> h !! e.

(** [for (e = dll_first(list); e; e = dll_next(list, e))] and its mirror image, the loops of
    the clients; [None] is also fuel run out. *)
Fixpoint dll_forward (fuel : nat) (h : heap) (lst e : Z) : option (list Z) :=
  match fuel with
  | O => None
  | S fuel' =>
    if e =? 0 then Some []
    else e' ← dll_next h lst e; rest ← dll_forward fuel' h lst e'; Some (e :: rest)
  end.

Fixpoint dll_backward (fuel : nat) (h : heap) (lst e : Z) : option (list Z) :=
  match fuel with
  | O => None
  | S fuel' =>
    if e =? 0 then Some []
    else e' ← dll_prev h lst e; rest ← dll_backward fuel' h lst e'; Some (e :: rest)
  end.

(** * Example *)

Example dll_sample :
  (h ← dll_init (<[8 := mkDll 0 0]> (<[16 := mkDll 0 0]> (<[24 := mkDll 0 0]> ∅))) 8;
   h ← dll_init h 16; h ← dll_init h 24;
   '(h, l) ← dll_make_last h 0 8;
   '(h, l) ← dll_make_last h l 16;
   '(h, l) ← dll_make_first h l 24;
   f ← dll_first h l;
   xs ← dll_forward 4 h l f;
   '(h, l) ← dll_remove h l 16;
   f ← dll_first h l;
   ys ← dll_forward 4 h l f;
   Some (xs, ys)) = Some ([24; 8; 16], [24; 8]).
Proof. reflexivity. Qed.
