(* ===== verification/DllFacts.v ===== *)
(** Correctness of the doubly linked lists of [Dll.v]: the rings in memory are lists, and
    every operation does to them what its documentation says, within memory and touching
    nothing else. *)
From stdpp Require Import sets.
From S2P Require Import Prelude Dll.
#[local] Open Scope Z_scope.

(** * Fields *)

Definition nx (h : heap) (p : Z) : option Z := next <$> h !! p.
Definition pv (h : heap) (p : Z) : option Z := prev <$> h !! p.

(** The memory [h'] is [h] with the [next]s of [N] and the [prev]s of [P] replaced. *)
Definition update (f : Z -> option Z) (N : list (Z * Z)) (q : Z) : option Z :=
  foldr (fun '(p, v) r => if decide (q = p) then Some v else r) (f q) N.

Lemma update_cons f p v N q :
  update f ((p, v) :: N) q = if decide (q = p) then Some v else update f N q.
Proof. done. Qed.

Definition updated (h h' : heap) (N P : list (Z * Z)) : Prop :=
  (forall q, nx h' q = update (nx h) N q) /\ (forall q, pv h' q = update (pv h) P q).

Lemma nx_allocated h p v : nx h p = Some v -> is_Some (h !! p).
Proof. unfold nx. by destruct (h !! p). Qed.
Lemma pv_allocated h p v : pv h p = Some v -> is_Some (h !! p).
Proof. unfold pv. by destruct (h !! p). Qed.

Lemma nx_pv_lookup h p a b : nx h p = Some a -> pv h p = Some b -> h !! p = Some (mkDll a b).
Proof. unfold nx, pv. destruct (h !! p) as [[]|]; by intros [= ->] [= ->]. Qed.

Lemma updated_refl h : updated h h [] [].
Proof. by split. Qed.

(** Memory is known by its two fields. *)
Lemma same_fields h h' q : nx h' q = nx h q -> pv h' q = pv h q -> h' !! q = h !! q.
Proof. unfold nx, pv. destruct (h !! q) as [[]|], (h' !! q) as [[]|]; intros; by simplify_eq/=. Qed.

Lemma updated_allocated h h' N P q : updated h h' N P -> is_Some (h !! q) -> is_Some (h' !! q).
Proof.
  intros [HN _] [n Hn]. apply (not_eq_None_Some (h' !! q)). intros E. specialize (HN q).
  unfold nx at 1 in HN. rewrite E in HN. revert HN. unfold update, nx. rewrite Hn. simpl.
  induction N as [|[p v] N IH]; simpl; [done|]. by case_decide.
Qed.

Lemma set_next_updated h0 h N P p v :
  updated h0 h N P -> is_Some (h0 !! p) ->
  exists h', set_next h p v = Some h' /\ updated h0 h' ((p, v) :: N) P.
Proof.
  intros Hu Hp. destruct (updated_allocated _ _ _ _ _ Hu Hp) as [n Hn]. destruct Hu as [HN HP].
  unfold set_next. rewrite Hn. eexists. split; [reflexivity|]. split; intros q; rewrite ?update_cons.
  - rewrite <- HN. unfold nx. case_decide as E; [subst; by rewrite lookup_insert_eq|].
    by rewrite lookup_insert_ne.
  - rewrite <- HP. unfold pv. destruct (decide (q = p)) as [->|E]; [by rewrite lookup_insert_eq, Hn|].
    by rewrite lookup_insert_ne.
Qed.

Lemma set_prev_updated h0 h N P p v :
  updated h0 h N P -> is_Some (h0 !! p) ->
  exists h', set_prev h p v = Some h' /\ updated h0 h' N ((p, v) :: P).
Proof.
  intros Hu Hp. destruct (updated_allocated _ _ _ _ _ Hu Hp) as [n Hn]. destruct Hu as [HN HP].
  unfold set_prev. rewrite Hn. eexists. split; [reflexivity|]. split; intros q; rewrite ?update_cons.
  - rewrite <- HN. unfold nx. destruct (decide (q = p)) as [->|E]; [by rewrite lookup_insert_eq, Hn|].
    by rewrite lookup_insert_ne.
  - rewrite <- HP. unfold pv. case_decide as E; [subst; by rewrite lookup_insert_eq|].
    by rewrite lookup_insert_ne.
Qed.

(** * Chains and rings *)

Definition linked (h : heap) (a b : Z) : Prop := nx h a = Some b /\ pv h b = Some a.

Fixpoint chain (h : heap) (a : Z) (l : list Z) : Prop :=
  match l with
  | [] => True
  | b :: l' => linked h a b /\ chain h b l'
  end.

(** The nodes of [a :: l] follow each other and the last is followed by [a]. *)
Record ring (h : heap) (a : Z) (l : list Z) : Prop := {
  ring_chain : chain h a (l ++ [a]);
  ring_nodup : NoDup (a :: l);
  ring_nonnull : 0 ∉ a :: l }.

Lemma chain_app h a l b m : chain h a (l ++ b :: m) <-> chain h a (l ++ [b]) /\ chain h b m.
Proof. revert a. induction l as [|c l IH]; intros a; cbn; [tauto|]. rewrite IH. tauto. Qed.

Lemma chain_frame h h' a l :
  chain h a l -> (forall x, x ∈ removelast (a :: l) -> nx h' x = nx h x) ->
  (forall x, x ∈ l -> pv h' x = pv h x) -> chain h' a l.
Proof.
  revert a. induction l as [|b l IH]; intros a; [done|]. cbn [chain]. intros [[H1 H2] H3] HN HP.
  change (removelast (a :: b :: l)) with (a :: removelast (b :: l)) in HN. split.
  - split; [rewrite HN by left|rewrite HP by left]; done.
  - apply IH; [done| |]; intros x Hx; [apply HN|apply HP]; by right.
Qed.

Lemma ring_rotate h a l b m : ring h a (l ++ b :: m) -> ring h b (m ++ a :: l).
Proof.
  intros [Hc Hd H0]. rewrite <- app_assoc in Hc. cbn [app] in Hc. apply chain_app in Hc as [Hl Hm].
  assert (Hp : b :: m ++ a :: l ≡ₚ a :: l ++ b :: m).
  { change (b :: m ++ a :: l) with ((b :: m) ++ (a :: l)). by rewrite Permutation_app_comm. }
  split; [rewrite <- app_assoc; cbn [app]; apply chain_app; by split|by rewrite Hp|by rewrite Hp].
Qed.

Lemma last_cons_any (l : list Z) b c d : List.last (b :: l) c = List.last (b :: l) d.
Proof. revert b. induction l as [|a l IH]; intros b; [done|]. exact (IH a). Qed.

Lemma chain_snoc h a l b : chain h a (l ++ [b]) <-> chain h a l /\ linked h (List.last l a) b.
Proof.
  revert a. induction l as [|c l IH]; intros a; cbn [chain app]; [cbn; tauto|].
  rewrite IH. destruct l as [|d l]; [cbn; tauto|].
  change (List.last (c :: d :: l) a) with (List.last (d :: l) a). rewrite (last_cons_any l d a c). tauto.
Qed.

Lemma update_other f N q : q ∉ N.*1 -> update f N q = f q.
Proof.
  induction N as [|[p v] N IH]; [done|]. cbn [fmap list_fmap]. intros [Hp HN]%not_elem_of_cons.
  rewrite update_cons, decide_False by done. auto.
Qed.

Lemma ring_alone h e : e <> 0 -> linked h e e -> ring h e [].
Proof. intros He H. split; [by split|apply NoDup_singleton|set_solver]. Qed.

Lemma ring_next h a l : ring h a l -> nx h a = Some (hd a l).
Proof. intros [H _ _]. destruct l; by destruct H as [[H _] _]. Qed.
Lemma ring_prev h a l : ring h a l -> pv h a = Some (List.last l a).
Proof. intros [[_ [_ H]]%chain_snoc _ _]. done. Qed.

Lemma ring_allocated h a l x : ring h a l -> x ∈ a :: l -> is_Some (h !! x).
Proof.
  intros Hr Hx. apply list_elem_of_split in Hx as (l1 & l2 & E). destruct l1 as [|b l1]; injection E as -> ->.
  - eapply nx_allocated, ring_next, Hr.
  - eapply nx_allocated, ring_next, ring_rotate, Hr.
Qed.

Lemma last_elem (l : list Z) a : List.last l a ∈ a :: l.
Proof.
  destruct l as [|b l] using rev_ind; [left|]. rewrite last_last. right. apply elem_of_app. right. left.
Qed.

Lemma last_not_before (l : list Z) a : NoDup (a :: l) -> List.last l a ∉ removelast (a :: l).
Proof.
  intros Hd Hin. destruct l as [|b l] using rev_ind; [cbn in Hin; by apply not_elem_of_nil in Hin|].
  rewrite last_last in Hin. rewrite app_comm_cons, removelast_last in Hin.
  rewrite app_comm_cons in Hd. apply NoDup_app in Hd as (_ & Hd & _). apply (Hd b Hin). left.
Qed.

Lemma removelast_sub (l : list Z) x : x ∈ removelast l -> x ∈ l.
Proof.
  destruct l as [|b l] using rev_ind; [done|]. rewrite removelast_last. intros. apply elem_of_app. by left.
Qed.

(** * Splicing and unlinking rings *)

Lemma splice_ring h h' elem succ A B :
  ring h elem A -> ring h succ B -> (forall x, x ∈ elem :: A -> x ∉ succ :: B) ->
  updated h h' [(List.last B succ, hd elem A); (elem, succ)] [(hd elem A, List.last B succ); (succ, elem)] ->
  ring h' elem (succ :: B ++ A).
Proof.
  intros HA HB Hdis [HN HP]. set (t2 := List.last B succ) in *. set (t1 := hd elem A) in *.
  assert (Ht2 : t2 ∈ succ :: B) by apply last_elem.
  assert (Ht1 : t1 ∈ elem :: A) by (unfold t1; destruct A; set_solver).
  pose proof (Hdis _ Ht1) as Ht1B. destruct HA as [CA DA ZA], HB as [CB DB ZB].
  assert (Helem : elem ∉ succ :: B) by (apply Hdis; left).
  assert (H2 : linked h' t2 t1).
  { split; [rewrite HN|rewrite HP]; rewrite update_cons, decide_True; done. }
  assert (He : linked h' elem succ).
  { split; [rewrite HN|rewrite HP]; rewrite !update_cons, decide_False, decide_True; set_solver. }
  assert (CB' : chain h' succ B).
  { apply chain_snoc in CB as [CB _]. eapply chain_frame; [exact CB| |].
    - intros x Hx. rewrite HN. apply update_other. pose proof (last_not_before _ _ DB) as Hl.
      fold t2 in Hl. apply removelast_sub in Hx as Hx'. set_solver.
    - intros x Hx. rewrite HP. apply update_other. apply NoDup_cons in DB as [DB _]. set_solver. }
  split.
  - cbn [app chain]. split; [done|]. rewrite <- app_assoc.
    assert (exists C, A ++ [elem] = t1 :: C /\ chain h' t1 C) as (C & -> & HC).
    { unfold t1 in *. destruct A as [|a A]; [by exists []|]. exists (A ++ [elem]). split; [done|].
      cbn [hd app chain] in *. eapply chain_frame; [apply CA| |].
      - intros x Hx. rewrite HN. apply update_other. rewrite app_comm_cons, removelast_last in Hx.
        apply NoDup_cons in DA as [DA _]. set_solver.
      - intros x Hx. rewrite HP. apply update_other. apply NoDup_cons in DA as [DA DA'].
        apply NoDup_cons in DA' as [DA' _]. set_solver. }
    rewrite chain_app. split; [|done]. apply chain_snoc. by split.
  - assert (Hp : elem :: succ :: B ++ A ≡ₚ (elem :: A) ++ (succ :: B)).
    { change (elem :: succ :: B ++ A) with (elem :: (succ :: B) ++ A). cbn [app]. f_equiv.
      by rewrite (Permutation_app_comm A (succ :: B)). }
    rewrite Hp. apply NoDup_app. split_and!; [done|exact Hdis|done].
  - set_solver.
Qed.

Lemma unlink_ring h h' elem r R :
  ring h elem (r :: R) ->
  updated h h' [(elem, elem); (List.last R r, r)] [(elem, elem); (r, List.last R r)] ->
  ring h' elem [] /\ ring h' r R.
Proof.
  intros [C D Z0] [HN HP]. apply NoDup_cons in D as [D1 D2].
  assert (Hl : List.last R r ∈ r :: R) by apply last_elem.
  split.
  - apply ring_alone; [set_solver|]. split; [rewrite HN|rewrite HP]; by rewrite update_cons, decide_True.
  - cbn [app chain] in C. destruct C as [_ [C _]%chain_snoc]. split; [|done|set_solver].
    apply chain_snoc. split; [eapply chain_frame; [exact C| |]|].
    + intros x Hx. rewrite HN. apply update_other. pose proof (last_not_before _ _ D2) as Hl'.
      apply removelast_sub in Hx as Hx'. set_solver.
    + intros x Hx. rewrite HP. apply update_other. apply NoDup_cons in D2 as [D2 _]. set_solver.
    + split; [rewrite HN|rewrite HP]; rewrite !update_cons, decide_False, decide_True; set_solver.
Qed.

(** * Lists *)

Definition ring_of (h : heap) (xs : list Z) : Prop :=
  match xs with [] => True | x :: xs' => ring h x xs' end.

(** A list is the address of the last element of its ring. *)
Definition is_list (h : heap) (l : Z) (xs : list Z) : Prop := l = List.last xs 0 /\ ring_of h xs.

Lemma ring_of_rotate h xs ys : ring_of h (xs ++ ys) -> ring_of h (ys ++ xs).
Proof.
  destruct xs as [|x xs], ys as [|y ys]; cbn [app ring_of]; rewrite ?app_nil_r; try done.
  apply ring_rotate.
Qed.

Lemma ring_of_at h A e B : ring_of h (A ++ e :: B) -> ring h e (B ++ A).
Proof. intros H%ring_of_rotate. exact H. Qed.

(** Outside [xs] two memories agree. *)
Definition outside (xs : list Z) (h h' : heap) : Prop := forall q, q ∉ xs -> h' !! q = h !! q.

Lemma updated_outside h h' N P xs :
  updated h h' N P -> (forall q, q ∈ N.*1 ++ P.*1 -> q ∈ xs) -> outside xs h h'.
Proof.
  intros [HN HP] Hsub q Hq. apply same_fields; [rewrite HN|rewrite HP]; apply update_other; set_solver.
Qed.

Lemma ring_outside h h' xs zs : ring_of h zs -> outside xs h h' -> (forall x, x ∈ zs -> x ∉ xs) -> ring_of h' zs.
Proof.
  destruct zs as [|z zs]; [done|]. cbn [ring_of]. intros [C D Z0] Ho Hdis. split; [|done..].
  eapply chain_frame; [exact C| |]; intros x Hx; unfold nx, pv; rewrite Ho; try done; apply Hdis.
  - rewrite app_comm_cons, removelast_last in Hx. done.
  - set_solver.
Qed.

Lemma last_snoc_any (l : list Z) x d : List.last (l ++ [x]) d = x.
Proof. apply last_last. Qed.

Lemma last_at_cons (l m : list Z) x d : List.last (l ++ x :: m) d = List.last m x.
Proof.
  destruct m as [|y m] using rev_ind; [by rewrite last_last|].
  by rewrite app_comm_cons, app_assoc, !last_last.
Qed.

Lemma is_list_nonnull h l xs : is_list h l xs -> xs <> [] -> l <> 0 /\ l ∈ xs.
Proof.
  intros [-> Hr] Hne. destruct xs as [|x xs]; [done|]. destruct Hr as [_ _ Z0].
  change (x :: xs) with ([] ++ x :: xs). rewrite last_at_cons. pose proof (last_elem xs x) as Hl.
  split; [|done]. intros E. rewrite E in Hl. done.
Qed.

Lemma splice_runs h elem succ A B :
  ring h elem A -> ring h succ B -> (forall x, x ∈ elem :: A -> x ∉ succ :: B) ->
  exists h', dll_splice_after h elem succ = Some h' /\ ring h' elem (succ :: B ++ A) /\
    outside (succ :: B ++ elem :: A) h h'.
Proof.
  intros HA HB Hdis. pose proof (ring_next _ _ _ HA) as En. pose proof (ring_prev _ _ _ HB) as Ep.
  unfold nx in En. unfold pv in Ep. unfold dll_splice_after. rewrite En, Ep. cbn [mbind option_bind].
  assert (Ht2 : List.last B succ ∈ succ :: B) by apply last_elem.
  assert (Ht1 : hd elem A ∈ elem :: A) by (destruct A; set_solver).
  assert (alloc1 : forall x, x ∈ elem :: A -> is_Some (h !! x)) by (intros x; exact (ring_allocated _ _ _ x HA)).
  assert (alloc2 : forall x, x ∈ succ :: B -> is_Some (h !! x)) by (intros x; exact (ring_allocated _ _ _ x HB)).
  destruct (set_next_updated _ _ _ _ elem succ (updated_refl h)) as (h1 & -> & U1); [apply alloc1; left|].
  cbn [mbind option_bind].
  destruct (set_prev_updated _ _ _ _ succ elem U1) as (h2 & -> & U2); [apply alloc2; left|].
  cbn [mbind option_bind].
  destruct (set_next_updated _ _ _ _ (List.last B succ) (hd elem A) U2) as (h3 & -> & U3); [auto|].
  cbn [mbind option_bind].
  destruct (set_prev_updated _ _ _ _ (hd elem A) (List.last B succ) U3) as (h4 & -> & U4); [auto|].
  exists h4. split_and!; [done|by eapply splice_ring|]. eapply updated_outside; [exact U4|]. set_solver.
Qed.

(** [dll_make_first] puts the whole ring of [e] before the list. *)
Lemma make_first_spec h l xs e es :
  is_list h l xs -> ring h e es -> (forall x, x ∈ xs -> x ∉ e :: es) ->
  exists h' l', dll_make_first h l e = Some (h', l') /\ is_list h' l' (e :: es ++ xs) /\
    outside (e :: es ++ xs) h h'.
Proof.
  intros Hl He Hdis. assert (e <> 0) by (destruct He as [_ _ Z0]; set_solver).
  unfold dll_make_first. rewrite (proj2 (Z.eqb_neq e 0)) by done.
  destruct xs as [|x xs] using rev_ind; [|clear IHxs].
  - destruct Hl as [-> _]. cbn [List.last]. rewrite Z.eqb_refl. pose proof (ring_prev _ _ _ He) as Ep.
    pose proof (ring_allocated _ _ _ e He) as [n Hn]; [left|]. unfold pv in Ep. rewrite Hn in *.
    injection Ep as Ep. eexists _, _. split; [reflexivity|]. rewrite app_nil_r, Ep. split; [|done].
    split; [|done]. by rewrite <- (last_at_cons [] es e 0).
  - destruct (is_list_nonnull _ _ _ Hl) as [Hl0 _]; [by destruct xs|].
    rewrite (proj2 (Z.eqb_neq l 0)) by done. destruct Hl as [-> Hr]. rewrite last_last in *.
    apply ring_of_rotate in Hr. cbn in Hr.
    destruct (splice_runs h x e xs es Hr He) as (h' & -> & Hring & Hout); [set_solver|].
    eexists _, _. split; [reflexivity|]. split.
    + pose proof (ring_of_rotate h' [x] (e :: es ++ xs) Hring) as Hr'. rewrite app_comm_cons, app_assoc.
      split; [by rewrite last_last|done].
    + intros q Hq. apply Hout. set_solver.
Qed.

(** [dll_make_last] puts the whole ring that ends in [e] after the list. *)
Lemma make_last_spec h l xs e es :
  is_list h l xs -> ring_of h (es ++ [e]) -> (forall x, x ∈ xs -> x ∉ es ++ [e]) ->
  exists h', dll_make_last h l e = Some (h', e) /\ is_list h' e (xs ++ es ++ [e]) /\
    outside (xs ++ es ++ [e]) h h'.
Proof.
  intros Hl He Hdis. pose proof (ring_of_at _ _ _ _ He) as Hre. cbn in Hre.
  assert (e <> 0) by (destruct Hre as [_ _ Z0]; set_solver).
  unfold dll_make_last. rewrite (proj2 (Z.eqb_neq e 0)) by done.
  rewrite (nx_pv_lookup h e _ _ (ring_next _ _ _ Hre) (ring_prev _ _ _ Hre)). cbn [mbind option_bind next].
  assert (exists fs, es ++ [e] = hd e es :: fs) as [fs E] by (destruct es; eexists; reflexivity).
  rewrite E in He, Hdis |- *.
  destruct (make_first_spec h l xs (hd e es) fs Hl He Hdis) as (h' & l' & -> & [_ Hr] & Ho).
  exists h'. split_and!; [done| |].
  - split; [by rewrite <- E, app_assoc, last_last|]. apply ring_of_rotate. exact Hr.
  - intros q Hq. apply Ho. set_solver.
Qed.

Lemma remove_alone h e :
  ring h e [] ->
  exists h', dll_remove h e e = Some (h', 0) /\ ring h' e [] /\ outside [e] h h'.
Proof.
  intros Hr. pose proof (nx_pv_lookup h e _ _ (ring_next _ _ _ Hr) (ring_prev _ _ _ Hr)) as Hn. cbn in Hn.
  assert (Ha : is_Some (h !! e)) by by rewrite Hn.
  unfold dll_remove. rewrite Hn. cbn [mbind option_bind prev next]. rewrite !Z.eqb_refl.
  cbn [mbind option_bind].
  destruct (set_prev_updated _ _ _ _ e e (updated_refl h) Ha) as (h1 & -> & U1). cbn [mbind option_bind].
  rewrite (nx_pv_lookup h1 e e e).
  2,3: destruct U1 as [UN UP]; rewrite ?UN, ?UP; cbn; rewrite ?decide_True by done; by unfold nx, pv; rewrite ?Hn.
  cbn [mbind option_bind prev next].
  destruct (set_next_updated _ _ _ _ e e U1 Ha) as (h2 & -> & U2). cbn [mbind option_bind].
  destruct (set_next_updated _ _ _ _ e e U2 Ha) as (h3 & -> & U3). cbn [mbind option_bind].
  destruct (set_prev_updated _ _ _ _ e e U3 Ha) as (h4 & -> & U4). cbn [mbind option_bind].
  exists h4. split_and!; [done| |].
  - apply ring_alone; [destruct Hr; set_solver|]. destruct U4 as [UN UP].
    split; [rewrite UN|rewrite UP]; by rewrite update_cons, decide_True.
  - eapply updated_outside; [exact U4|set_solver].
Qed.

Lemma remove_linked h l e r R :
  ring h e (r :: R) ->
  exists h', dll_remove h l e = Some (h', if l =? e then List.last R r else l) /\
    ring h' e [] /\ ring h' r R /\ outside (e :: r :: R) h h'.
Proof.
  intros Hr. assert (Hin : List.last R r ∈ r :: R) by apply last_elem.
  pose proof (fun x => ring_allocated h e (r :: R) x Hr) as Ha.
  pose proof (ring_nodup _ _ _ Hr) as [He _]%NoDup_cons.
  assert (Hp : List.last (r :: R) e = List.last R r) by exact (last_at_cons [] R r e).
  pose proof (nx_pv_lookup h e _ _ (ring_next _ _ _ Hr) (ring_prev _ _ _ Hr)) as Hn. rewrite Hp in Hn. cbn [hd] in Hn.
  set (p := List.last R r) in *.
  unfold dll_remove.
  assert (Hl : (if l =? e then l0 ← h !! l; if prev l0 =? l then Some 0 else Some (prev l0) else Some l)
               = Some (if l =? e then p else l)).
  { destruct (Z.eqb_spec l e) as [->|]; [|done]. rewrite Hn. cbn [mbind option_bind prev].
    rewrite (proj2 (Z.eqb_neq p e)); [done|]. set_solver. }
  rewrite Hl, Hn. cbn [mbind option_bind prev next].
  destruct (set_prev_updated _ _ _ _ r p (updated_refl h)) as (h1 & -> & U1); [apply Ha; set_solver|].
  cbn [mbind option_bind]. rewrite (nx_pv_lookup h1 e r p).
  2,3: destruct U1 as [UN UP]; rewrite ?UN, ?UP; cbn; rewrite ?decide_False by set_solver;
    by unfold nx, pv; rewrite ?Hn.
  cbn [mbind option_bind prev next].
  destruct (set_next_updated _ _ _ _ p r U1) as (h2 & -> & U2); [apply Ha; set_solver|]. cbn [mbind option_bind].
  destruct (set_next_updated _ _ _ _ e e U2) as (h3 & -> & U3); [apply Ha; left|]. cbn [mbind option_bind].
  destruct (set_prev_updated _ _ _ _ e e U3) as (h4 & -> & U4); [apply Ha; left|]. cbn [mbind option_bind].
  exists h4. split; [done|]. destruct (unlink_ring _ _ _ _ _ Hr U4) as [H1 H2]. split_and!; [done..|].
  eapply updated_outside; [exact U4|set_solver].
Qed.

Lemma remove_spec h l A e B :
  is_list h l (A ++ e :: B) ->
  exists h' l', dll_remove h l e = Some (h', l') /\ is_list h' l' (A ++ B) /\ ring h' e [] /\
    outside (A ++ e :: B) h h'.
Proof.
  intros [Hl Hr]. rewrite last_at_cons in Hl. apply ring_of_at in Hr.
  destruct (B ++ A) as [|r R] eqn:ER.
  - apply app_nil in ER as [-> ->]. cbn in Hl. subst l.
    destruct (remove_alone h e Hr) as (h' & -> & H1 & H2). by exists h', 0.
  - pose proof (ring_nodup _ _ _ Hr) as [He _]%NoDup_cons.
    destruct (remove_linked h l e r R Hr) as (h' & -> & H1 & H2 & H3). eexists _, _. split; [reflexivity|].
    split_and!; [|done|].
    + split; [|apply ring_of_rotate; rewrite ER; exact H2].
      destruct B as [|b B] using rev_ind.
      * cbn in Hl, ER. rewrite Hl, Z.eqb_refl, app_nil_r, ER. by rewrite <- (last_at_cons [] R r 0).
      * rewrite last_last in Hl. rewrite Hl, (proj2 (Z.eqb_neq b e)) by (intros ->; rewrite <- ER in He; set_solver).
        by rewrite app_assoc, last_last.
    + intros q Hq. apply H3. rewrite <- ER. set_solver.
Qed.

(** * Walking a list *)

Lemma forward_chain h l x ys fuel :
  chain h x ys -> List.last ys x = l -> NoDup (x :: ys) -> 0 ∉ x :: ys -> (S (length ys) < fuel)%nat ->
  dll_forward fuel h l x = Some (x :: ys).
Proof.
  revert x fuel. induction ys as [|y ys IH]; intros x fuel Hc Hl Hd H0 Hf;
    (destruct fuel as [|fuel]; [lia|]); cbn [dll_forward]; rewrite (proj2 (Z.eqb_neq x 0)) by set_solver;
    unfold dll_next.
  - cbn in Hl. subst l. rewrite Z.eqb_refl. cbn [mbind option_bind]. by destruct fuel; [cbn in Hf; lia|].
  - destruct Hc as [[Hn _] Hc]. apply NoDup_cons in Hd as [Hx Hd].
    assert (Hl' : List.last ys y = l) by (rewrite <- Hl; symmetry; exact (last_at_cons [] ys y x)).
    pose proof (last_elem ys y) as Hin. rewrite Hl' in Hin.
    rewrite (proj2 (Z.eqb_neq x l)) by (intros ->; done). unfold nx in Hn. rewrite Hn. cbn [mbind option_bind].
    rewrite IH; [done|done|done|done|set_solver|simpl in Hf; lia].
Qed.

Lemma backward_chain h l f ys fuel :
  chain h f ys -> nx h l = Some f -> NoDup (f :: ys) -> 0 ∉ f :: ys -> (S (length ys) < fuel)%nat ->
  dll_backward fuel h l (List.last ys f) = Some (reverse (f :: ys)).
Proof.
  intros Hc Hn. revert fuel Hc. unfold nx in Hn. destruct (h !! l) as [n|] eqn:Hl; [|done]. injection Hn as Hn.
  induction ys as [|y ys IH] using rev_ind; intros fuel Hc Hd H0 Hf;
    (destruct fuel as [|fuel]; [lia|]); cbn [dll_backward].
  - cbn [List.last]. rewrite (proj2 (Z.eqb_neq f 0)) by set_solver. unfold dll_prev. rewrite Hl. cbn [mbind option_bind].
    rewrite Hn, Z.eqb_refl. cbn [mbind option_bind]. by destruct fuel; [cbn in Hf; lia|].
  - rewrite last_last, (proj2 (Z.eqb_neq y 0)) by set_solver. unfold dll_prev. rewrite Hl. cbn [mbind option_bind].
    apply chain_snoc in Hc as [Hc [_ Hp]]. rewrite length_app in Hf. simpl in Hf.
    rewrite app_comm_cons in Hd. apply NoDup_app in Hd as (Hd & Hdis & _).
    rewrite Hn, (proj2 (Z.eqb_neq y f)) by (intros ->; apply (Hdis f); left).
    unfold pv in Hp. rewrite Hp. cbn [mbind option_bind].
    rewrite IH; [|done..|set_solver|lia]. cbn [mbind option_bind]. by rewrite app_comm_cons, reverse_app.
Qed.

Lemma walks h l xs :
  is_list h l xs ->
  (f ← dll_first h l; dll_forward (2 + length xs) h l f) = Some xs /\
  dll_backward (2 + length xs) h l (dll_last l) = Some (reverse xs).
Proof.
  intros [-> Hr]. unfold dll_first, dll_last. destruct xs as [|x xs]; [done|].
  change (List.last (x :: xs) 0) with (List.last ([] ++ x :: xs) 0). rewrite last_at_cons.
  pose proof (last_elem xs x) as Hin. destruct Hr as [[Hc [Hn _]]%chain_snoc Hd H0].
  rewrite (proj2 (Z.eqb_neq (List.last xs x) 0)) by (intros E; rewrite E in Hin; done).
  pose proof Hn as Hn'. unfold nx in Hn'. rewrite Hn'. cbn [mbind option_bind length]. split.
  - apply forward_chain; done || lia.
  - apply backward_chain; done || lia.
Qed.

(** * Sequences of operations *)

Inductive dll_op := Init (e : Z) | MakeFirst (e : Z) | MakeLast (e : Z) | Remove (e : Z).

Definition run_op (h : heap) (l : Z) (o : dll_op) : option (heap * Z) :=
  match o with
  | Init e => h ← dll_init h e; Some (h, l)
  | MakeFirst e => dll_make_first h l e
  | MakeLast e => dll_make_last h l e
  | Remove e => dll_remove h l e
  end.

Fixpoint run_ops (h : heap) (l : Z) (os : list dll_op) : option (heap * Z) :=
  match os with
  | [] => Some (h, l)
  | o :: os' => '(h, l) ← run_op h l o; run_ops h l os'
  end.

(** The abstract list, with the elements that were initialized; [None] when the caller breaks
    the contract of an operation. [A] are the addresses of nodes. *)
Definition abs_op (A ready xs : list Z) (o : dll_op) : option (list Z * list Z) :=
  match o with
  | Init e => if decide (e ∈ A /\ e ∉ xs) then Some (e :: ready, xs) else None
  | MakeFirst e => if decide (e ∈ ready /\ e ∉ xs) then Some (ready, e :: xs) else None
  | MakeLast e => if decide (e ∈ ready /\ e ∉ xs) then Some (ready, xs ++ [e]) else None
  | Remove e => if decide (e ∈ xs) then Some (ready, filter (fun x => x <> e) xs) else None
  end.

Fixpoint abs_ops (A ready xs : list Z) (os : list dll_op) : option (list Z * list Z) :=
  match os with
  | [] => Some (ready, xs)
  | o :: os' => '(ready, xs) ← abs_op A ready xs o; abs_ops A ready xs os'
  end.

Record dll_state (A : list Z) (h : heap) (l : Z) (ready xs : list Z) : Prop := {
  st_list : is_list h l xs;
  st_alone : forall e, e ∈ ready -> e ∉ xs -> ring h e [];
  st_ready : forall e, e ∈ xs -> e ∈ ready;
  st_alloc : forall e, e ∈ A -> e <> 0 /\ is_Some (h !! e);
  st_nodes : forall e, e ∈ ready -> e ∈ A }.

Lemma init_spec h e :
  e <> 0 -> is_Some (h !! e) -> exists h', dll_init h e = Some h' /\ ring h' e [] /\ outside [e] h h'.
Proof.
  intros He Ha. unfold dll_init.
  destruct (set_next_updated _ _ _ _ e e (updated_refl h) Ha) as (h1 & -> & U1). cbn [mbind option_bind].
  destruct (set_prev_updated _ _ _ _ e e U1 Ha) as (h2 & -> & U2).
  exists h2. split_and!; [done| |eapply updated_outside; [exact U2|set_solver]].
  apply ring_alone; [done|]. destruct U2 as [UN UP]. split; [rewrite UN|rewrite UP]; by rewrite update_cons, decide_True.
Qed.

(** An operation that touches only nodes and leaves [xs'] and the loose ones in place. *)
Lemma state_after A h l ready xs h' l' ready' xs' touched :
  dll_state A h l ready xs -> is_list h' l' xs' -> outside touched h h' ->
  (forall e, e ∈ xs' -> e ∈ ready') -> (forall e, e ∈ ready' -> e ∈ A) ->
  (forall e, e ∈ ready' -> e ∉ xs' -> ring h' e [] \/ e ∉ touched /\ e ∉ xs /\ e ∈ ready) ->
  (forall e, e ∈ touched -> is_Some (h' !! e)) ->
  dll_state A h' l' ready' xs'.
Proof.
  intros [_ Halone _ Halloc _] Hl Hout Hr HA Hloose Ht. split; [done| |done| |done].
  - intros e He Hx. destruct (Hloose e He Hx) as [|(H1 & H2 & H3)]; [done|].
    apply (ring_outside h h' touched [e] (Halone e H3 H2) Hout). set_solver.
  - intros e He. destruct (Halloc e He) as [H0 Hs]. split; [done|].
    destruct (decide (e ∈ touched)) as [Hin|Hin]; [auto|]. by rewrite (Hout e Hin).
Qed.

Lemma list_allocated h l xs e : is_list h l xs -> e ∈ xs -> is_Some (h !! e).
Proof. intros [_ Hr] He. destruct xs as [|x xs]; [by apply not_elem_of_nil in He|]. by eapply ring_allocated. Qed.

Lemma filter_other (A B : list Z) e :
  NoDup (A ++ e :: B) -> filter (fun x => x <> e) (A ++ e :: B) = A ++ B.
Proof.
  intros (_ & Hdis & Hd)%NoDup_app. apply NoDup_cons in Hd as [Hd _].
  rewrite list.filter_app, filter_cons, decide_False by tauto.
  rewrite !filter_all; [done|intros x Hx ->; done|].
  intros x Hx ->. apply (Hdis e Hx). left.
Qed.

Lemma is_list_nodup h l xs : is_list h l xs -> NoDup xs.
Proof. intros [_ Hr]. destruct xs; [constructor|]. by destruct Hr. Qed.

Lemma run_op_spec A h l ready xs o ready' xs' :
  dll_state A h l ready xs -> abs_op A ready xs o = Some (ready', xs') ->
  exists h' l', run_op h l o = Some (h', l') /\ dll_state A h' l' ready' xs' /\ outside ready' h h' /\
    (forall e, e ∈ ready -> e ∈ ready').
Proof.
  intros Hs. pose proof Hs as [Hl Halone Hsub Halloc Hnodes].
  destruct o as [e|e|e|e]; cbn [abs_op run_op]; case_decide as Hc; try done; intros [= <- <-].
  - destruct Hc as [HA Hx]. destruct (Halloc e HA) as [H0 Ha].
    destruct (init_spec h e H0 Ha) as (h' & -> & Hr & Ho). exists h', l.
    split_and!; [done| |intros q Hq; apply Ho; set_solver|set_solver].
    assert (Hl' : is_list h' l xs).
    { destruct Hl as [? Hr']. split; [done|]. eapply ring_outside; [done|exact Ho|set_solver]. }
    eapply state_after; [done..|set_solver|set_solver| |].
    + intros x Hx' Hx''. destruct (decide (x = e)) as [->|]; [by left|right; set_solver].
    + intros x [->|[]%not_elem_of_nil]%elem_of_cons. by eapply ring_allocated; [|left].
  - destruct Hc as [HA Hx].
    destruct (make_first_spec h l xs e [] Hl (Halone e HA Hx)) as (h' & l' & -> & Hl' & Ho); [set_solver|].
    exists h', l'. split_and!; [done| |intros q Hq; apply Ho; set_solver|done].
    eapply state_after; [done..|set_solver|done|set_solver|]. intros x. by apply (list_allocated _ _ _ _ Hl').
  - destruct Hc as [HA Hx].
    destruct (make_last_spec h l xs e [] Hl (Halone e HA Hx)) as (h' & -> & Hl' & Ho); [set_solver|].
    exists h', e. split_and!; [done| |intros q Hq; apply Ho; set_solver|done].
    eapply state_after; [done..|set_solver|done|set_solver|]. intros x. by apply (list_allocated _ _ _ _ Hl').
  - apply list_elem_of_split in Hc as (P & Q & ->). rewrite filter_other by by eapply is_list_nodup.
    destruct (remove_spec h l P e Q Hl) as (h' & l' & -> & Hl' & Hr & Ho).
    exists h', l'. split_and!; [done| |intros q Hq; apply Ho; set_solver|done].
    eapply state_after; [done..|set_solver|done| |].
    + intros x Hx Hx'. destruct (decide (x = e)) as [->|]; [by left|right; set_solver].
    + intros x Hx. destruct (decide (x = e)) as [->|]; [by eapply ring_allocated; [|left]|].
      apply (list_allocated _ _ _ _ Hl'). set_solver.
Qed.

Lemma run_ops_spec A h l ready xs os ready' xs' :
  dll_state A h l ready xs -> abs_ops A ready xs os = Some (ready', xs') ->
  exists h' l', run_ops h l os = Some (h', l') /\ dll_state A h' l' ready' xs' /\ outside ready' h h' /\
    (forall e, e ∈ ready -> e ∈ ready').
Proof.
  revert h l ready xs. induction os as [|o os IH]; intros h l ready xs Hs; cbn [abs_ops run_ops].
  { intros [= <- <-]. by exists h, l. }
  destruct (abs_op A ready xs o) as [[ready1 xs1]|] eqn:Eo; [|done]. cbn [mbind option_bind]. intros Ha.
  destruct (run_op_spec _ _ _ _ _ _ _ _ Hs Eo) as (h1 & l1 & -> & Hs1 & Ho1 & Hm1). cbn [mbind option_bind].
  destruct (IH _ _ _ _ Hs1 Ha) as (h2 & l2 & -> & Hs2 & Ho2 & Hm2).
  exists h2, l2. split_and!; [done..| |auto]. intros q Hq. rewrite Ho2, Ho1 by auto. done.
Qed.

(** C28: the linked lists implement sequences: any run of [dll_init], [dll_make_first],
    [dll_make_last] and [dll_remove] that respects their contracts dereferences only nodes,
    changes only the nodes it was given, and leaves a list that [dll_first] and [dll_next]
    walk in the order of the abstract sequence, and [dll_last] and [dll_prev] in the opposite
    one; the walks end, and an element outside the list is alone. *)
Theorem dll_refines A h os ready xs :
  (forall e, e ∈ A -> e <> 0 /\ is_Some (h !! e)) -> abs_ops A [] [] os = Some (ready, xs) ->
  exists h' l, run_ops h 0 os = Some (h', l) /\
    (f ← dll_first h' l; dll_forward (2 + length xs) h' l f) = Some xs /\
    dll_backward (2 + length xs) h' l (dll_last l) = Some (reverse xs) /\
    dll_is_empty l = bool_decide (xs = []) /\
    (forall e, e ∈ ready -> e ∉ xs -> dll_is_alone h' e = Some true) /\
    (forall q, q ∉ ready -> h' !! q = h !! q).
Proof.
  intros HA Ha. assert (Hs : dll_state A h 0 [] []) by (split; [done| | |done|]; set_solver).
  destruct (run_ops_spec A h 0 [] [] os ready xs Hs Ha) as (h' & l & -> & [Hl Halone _ _ _] & Ho & _).
  exists h', l. destruct (walks h' l xs Hl) as [H1 H2]. split_and!; [done..| | |done].
  - unfold dll_is_empty. destruct xs as [|x xs]; [by destruct Hl as [-> _]|].
    destruct (is_list_nonnull _ _ _ Hl) as [Hn _]; [done|]. by rewrite (proj2 (Z.eqb_neq l 0)).
  - intros e He Hx. pose proof (Halone e He Hx) as Hr. unfold dll_is_alone.
    rewrite (nx_pv_lookup h' e _ _ (ring_next _ _ _ Hr) (ring_prev _ _ _ Hr)). cbn. by rewrite Z.eqb_refl.
Qed.

Definition two_nodes : heap := <[8 := mkDll 0 0]> (<[16 := mkDll 0 0]> ∅).

Lemma dll_refines_witness :
  exists h' l, run_ops two_nodes 0 [Init 8; Init 16; MakeLast 8; MakeFirst 16; Remove 8] = Some (h', l) /\
    (f ← dll_first h' l; dll_forward 3 h' l f) = Some [16] /\
    dll_backward 3 h' l (dll_last l) = Some [16] /\
    dll_is_empty l = false /\
    (forall e, e ∈ [16; 8] -> e ∉ [16] -> dll_is_alone h' e = Some true) /\
    (forall q, q ∉ [16; 8] -> h' !! q = two_nodes !! q).
Proof.
  apply (dll_refines [8; 16] two_nodes [Init 8; Init 16; MakeLast 8; MakeFirst 16; Remove 8] [16; 8] [16]);
    [|reflexivity].
  intros e [->|[->|[]%not_elem_of_nil]%elem_of_cons]%elem_of_cons; by split.
Defined.
