(* ===== verification/Threads.v ===== *)
(** Threads of a concurrent component as a list of program counters: counting the threads at
    a place, and what a step of one thread does to the counts. Shared by [FutexMutex.v],
    [RecursiveMutex.v], [Once.v], [SpinLock.v], [Semaphore.v], [Barrier.v], [FreeList.v] and [Slab.v], where every atomic
    access of the sources is a step of its own and memory is sequentially consistent. *)
From stdpp Require Export relations.
From S2P Require Import Prelude.

Section Tally.
Context {A : Type}.
Implicit Types (P : A -> bool) (l : list A).

(** How many threads are at a place that satisfies [P]. *)
Definition tally P l : nat := length (List.filter P l).
#[local] Arguments tally : simpl never.

Definition one (b : bool) : nat := if b then 1 else 0.

Lemma tally_cons P x l : tally P (x :: l) = (one (P x) + tally P l)%nat.
Proof. unfold tally. simpl. by destruct (P x). Qed.

(** A thread moves from [x] to [y]. *)
Lemma tally_insert P l k x y :
  l !! k = Some x -> (tally P (<[k := y]> l) + one (P x) = tally P l + one (P y))%nat.
Proof.
  revert k. induction l as [|z l IH]; intros [|k] Hk; simpl in Hk |- *; [done..| |].
  - injection Hk as ->. rewrite !tally_cons. lia.
  - rewrite !tally_cons. specialize (IH k Hk). lia.
Qed.

Lemma tally_at P l k x : l !! k = Some x -> P x = true -> (1 <= tally P l)%nat.
Proof.
  revert k. induction l as [|z l IH]; intros [|k] Hk HP; [done..| |]; rewrite tally_cons.
  - injection Hk as ->. rewrite HP. simpl. lia.
  - specialize (IH k Hk HP). lia.
Qed.

Lemma tally_find P l : (0 < tally P l)%nat -> exists k x, l !! k = Some x /\ P x = true.
Proof.
  induction l as [|z l IH]; [unfold tally; simpl; lia|]. rewrite tally_cons. intros H.
  destruct (P z) eqn:E; [by exists 0%nat, z|]. destruct IH as (k & x & Hk & Hx); [simpl in H; lia|].
  by exists (S k), x.
Qed.

Lemma tally_two P l j k x y :
  l !! j = Some x -> l !! k = Some y -> P x = true -> P y = true -> (tally P l <= 1)%nat -> j = k.
Proof.
  intros Hj Hk Hx Hy H1. destruct (decide (j = k)) as [|Hne]; [done|]. exfalso.
  revert j k Hj Hk Hne H1. induction l as [|z l IH]; intros [|j] [|k] Hj Hk Hne; try done;
    rewrite tally_cons.
  - injection Hj as ->. rewrite Hx. simpl. pose proof (tally_at P l k y Hk Hy). lia.
  - injection Hk as ->. rewrite Hy. simpl. pose proof (tally_at P l j x Hj Hx). lia.
  - intros H1. apply (IH j k); [done..|congruence|lia].
Qed.

Lemma tally_replicate P n x : P x = false -> tally P (replicate n x) = 0%nat.
Proof. intros Hx. induction n as [|n IH]; [done|]. cbn [replicate]. by rewrite tally_cons, Hx. Qed.

Lemma tally_length P l : (tally P l <= length l)%nat.
Proof. induction l as [|x l IH]; [done|]. rewrite tally_cons. destruct (P x); simpl; lia. Qed.
End Tally.
Arguments tally : simpl never.

(** What the threads hold, when one of them moves: [f] is what a thread holds. *)
Lemma holders_insert {A B} (f : A -> option B) (l : list A) k x :
  l !! k = Some x -> exists X, omap f l ≡ₚ option_list (f x) ++ X /\
    forall y, omap f (<[k := y]> l) ≡ₚ option_list (f y) ++ X.
Proof.
  intros Hk. exists (omap f (take k l) ++ omap f (drop (S k) l)).
  assert (T : forall y, omap f (take k l ++ y :: drop (S k) l) ≡ₚ
            option_list (f y) ++ omap f (take k l) ++ omap f (drop (S k) l)).
  { intros y. rewrite omap_app. simpl. destruct (f y); simpl; [|done]. symmetry. apply Permutation_middle. }
  split; [rewrite <- (T x); by rewrite take_drop_middle|]. intros y. rewrite <- T.
  by rewrite insert_take_drop by (by apply lookup_lt_Some in Hk).
Qed.

(** A thread that moves and holds what it held. *)
Lemma holders_goto {A B} (f : A -> option B) (l : list A) k x y :
  l !! k = Some x -> f y = f x -> omap f (<[k := y]> l) ≡ₚ omap f l.
Proof. intros Hk E. destruct (holders_insert f l k x Hk) as (X & -> & HX). by rewrite HX, E. Qed.

(** A property of all threads, when one of them moves. *)
Lemma insert_all {A} (P : A -> Prop) (l : list A) k y :
  P y -> (forall i x, l !! i = Some x -> P x) -> forall j x, <[k := y]> l !! j = Some x -> P x.
Proof.
  intros Hy H j x Hj. destruct (decide (j = k)) as [->|Hne].
  - by apply list_lookup_insert_Some in Hj as [(_ & <- & _)|[? _]].
  - rewrite list_lookup_insert_ne in Hj by done. eauto.
Qed.

(** Runs with the events their steps show; what a step may do can depend on the events so far. *)
Section Runs.
Context {M E X : Type} (step : list E -> M -> option E -> M -> Prop).

Inductive runs (m : M) : list E -> M -> Prop :=
| runs_nil : runs m [] m
| runs_step ls m1 e m2 : runs m ls m1 -> step ls m1 e m2 -> runs m (ls ++ option_list e) m2.

(** A schedule that is executed: [act] does a step. *)
Context (act : list E -> M -> X -> option (option E * M)).

Fixpoint play (ls : list E) (m : M) (xs : list X) : option (list E * M) :=
  match xs with
  | [] => Some (ls, m)
  | x :: xs' => r ← act ls m x; play (ls ++ option_list r.1) r.2 xs'
  end.

Lemma play_runs m0 ls m xs ls' m' :
  (forall ls m x r, act ls m x = Some r -> step ls m r.1 r.2) ->
  runs m0 ls m -> play ls m xs = Some (ls', m') -> runs m0 ls' m'.
Proof.
  intros A. revert ls m. induction xs as [|x xs IH]; intros ls m R; simpl; [by intros [= <- <-]|].
  destruct (act ls m x) as [r|] eqn:Er; [|done]. simpl. apply IH. constructor 2 with m; [done|by apply A in Er].
Qed.
End Runs.

(** Records what the step of the thread at [H] does to every count that is mentioned. *)
Ltac tally_note P k y l H :=
  lazymatch goal with
  | _ : (tally P (<[k := y]> l) + _ = _)%nat |- _ => fail
  | _ => let T := fresh "T" in pose proof (tally_insert P l k _ y H) as T; cbn in T
  end.

Ltac tally_step H :=
  lazymatch type of H with
  | ?l !! ?k = Some _ =>
    repeat match goal with
    | |- context [tally ?P (<[k := ?y]> l)] => tally_note P k y l H
    | _ : context [tally ?P (<[k := ?y]> l)] |- _ => tally_note P k y l H
    end
  end.
