(* ===== verification/FutexMutex.v ===== *)
(** Normal mutexes over a futex: [pthread_mutex_lock_drepper] of
    [libc/intrin/pthread_mutex_lock.c] and [pthread_mutex_unlock_drepper] of
    [libc/intrin/pthread_mutex_unlock.c].

    The word is 0 when the mutex is free, 1 when it is held and 2 when it is held and threads
    may sleep. Every atomic access is a step. [cosmo_futex_wait] sleeps when the word is 2 and
    else returns at once; [cosmo_futex_wake] with a count of one wakes one sleeper, any of them;
    a sleeper may also wake up for no reason, as the wrapper returns on signals and, on systems
    without futexes, after a delay. *)
From S2P Require Import Prelude Threads.
#[local] Open Scope Z_scope.

(** * Program counters *)

Inductive pc :=
| Outside                   (** in neither function *)
| Cas (is_trylock : bool)   (** before the compare-exchange of 0 by 1 *)
| Mark                      (** before the exchange after [val == 1] *)
| Wait                      (** at the head of the loop, before [cosmo_futex_wait] *)
| Asleep                    (** in the system, asleep *)
| Retry                     (** before the exchange in the loop *)
| Inside                    (** holds the mutex *)
| Store                     (** after [word == 2], before the store of 0 *)
| Wake.                     (** before [cosmo_futex_wake] *)

#[export] Instance pc_eq_dec : EqDecision pc.
Proof. solve_decision. Defined.

(** The mutex and the threads. *)
Record mutex := Mutex { futex : Z; pcs : list pc }.

(** * Accesses *)

(** [while (val > 0)] and what follows the loop. *)
Definition after_val (val : Z) : pc := if val >? 0 then Wait else Inside.

(** The compare-exchange of [pthread_mutex_lock_drepper] and the tests up to the next access:
    the word and where the thread goes. *)
Definition lock_cas (is_trylock : bool) (f : Z) : Z * pc :=
  if f =? 0 then (1, Inside)
  else (f, if is_trylock then Outside else if f =? 1 then Mark else after_val f).

(** [val = atomic_exchange_explicit(&mutex->_futex, 2)]. *)
Definition lock_exchange (f : Z) : Z * pc := (2, after_val f).

(** The decrement of [pthread_mutex_unlock_drepper]. *)
Definition unlock_sub (f : Z) : Z * pc := (s32 (f - 1), if f =? 2 then Store else Outside).

(** * Steps *)

Definition move (m : mutex) (k : nat) (fp : Z * pc) : mutex := Mutex fp.1 (<[k := fp.2]> (pcs m)).

(** A step of a thread; [spurious] tells whether it is a wakeup for no reason. *)
Inductive step (spurious : bool) (m : mutex) : mutex -> Prop :=
| call_lock k is_trylock :
    spurious = false -> pcs m !! k = Some Outside -> step spurious m (move m k (futex m, Cas is_trylock))
| do_cas k is_trylock :
    spurious = false -> pcs m !! k = Some (Cas is_trylock) ->
    step spurious m (move m k (lock_cas is_trylock (futex m)))
| do_mark k :
    spurious = false -> pcs m !! k = Some Mark -> step spurious m (move m k (lock_exchange (futex m)))
| do_wait k :
    spurious = false -> pcs m !! k = Some Wait ->
    step spurious m (move m k (futex m, if futex m =? 2 then Asleep else Retry))
| do_retry k :
    spurious = false -> pcs m !! k = Some Retry -> step spurious m (move m k (lock_exchange (futex m)))
| do_unlock k :
    spurious = false -> pcs m !! k = Some Inside -> step spurious m (move m k (unlock_sub (futex m)))
| do_store k :
    spurious = false -> pcs m !! k = Some Store -> step spurious m (move m k (0, Wake))
| do_wake k j :
    spurious = false -> pcs m !! k = Some Wake -> pcs m !! j = Some Asleep ->
    step spurious m (move (move m k (futex m, Outside)) j (futex m, Retry))
| do_wake_none k :
    spurious = false -> pcs m !! k = Some Wake -> Forall (fun p => p <> Asleep) (pcs m) ->
    step spurious m (move m k (futex m, Outside))
| wake_up k :
    spurious = true -> pcs m !! k = Some Asleep -> step spurious m (move m k (futex m, Retry)).

Definition any_step (m m' : mutex) : Prop := exists b, step b m m'.

(** [n] threads outside a free mutex. *)
Definition initial (n : nat) : mutex := Mutex 0 (replicate n Outside).

(** * The invariant *)

(** Threads that own the mutex: from taking it to the store of 0. *)
Definition owns (p : pc) : bool := match p with Inside | Store => true | _ => false end.
Definition sleeps (p : pc) : bool := match p with Asleep => true | _ => false end.
(** Threads that will mark the word or wake a sleeper before they sleep or leave. *)
Definition helps (p : pc) : bool := match p with Store | Wake | Retry => true | _ => false end.

Record mutex_ok (m : mutex) : Prop := {
  ok_word : 0 <= futex m <= 2;
  ok_owner : tally owns (pcs m) = if futex m =? 0 then 0%nat else 1%nat;
  ok_sleep : (0 < tally sleeps (pcs m))%nat -> futex m = 2 \/ (0 < tally helps (pcs m))%nat }.

Lemma initial_ok n : mutex_ok (initial n).
Proof. split; cbn; rewrite ?tally_replicate by done; lia. Qed.

Lemma not_asleep l : Forall (fun p => p <> Asleep) l -> tally sleeps l = 0%nat.
Proof. induction 1 as [|p l Hp _ IH]; [done|]. rewrite tally_cons, IH. by destruct p. Qed.

Lemma step_mutex_ok b m m' : mutex_ok m -> step b m m' -> mutex_ok m'.
Proof.
  intros [Hw Ho Hs] Hstep. destruct m as [f l]. cbn [futex pcs] in *.
  assert (Hf : f = 0 \/ f = 1 \/ f = 2) by lia.
  destruct Hstep as [k t _ Hk|k t _ Hk|k _ Hk|k _ Hk|k _ Hk|k _ Hk|k _ Hk|k j _ Hk Hj|k _ Hk Hn|k _ Hk];
    cbn [futex pcs move fst snd] in *.
  8: { assert (Hjk : (<[k := Outside]> l) !! j = Some Asleep).
       { rewrite list_lookup_insert_ne; [done|]. intros ->. congruence. }
       split; cbn [futex pcs move fst snd]; [lia| |]; tally_step Hjk; tally_step Hk; lia. }
  all: try (pose proof (tally_at owns l k _ Hk eq_refl)); try (pose proof (tally_at helps l k _ Hk eq_refl));
    try (pose proof (not_asleep l Hn));
    unfold lock_cas, lock_exchange, unlock_sub, after_val, s32;
    destruct Hf as [-> | [-> | ->]]; try destruct t; simpl in Ho |- *;
    split; simpl; tally_step Hk; lia.
Qed.

Lemma reachable_mutex_ok n m : rtc any_step (initial n) m -> mutex_ok m.
Proof.
  assert (H : forall m m', rtc any_step m m' -> mutex_ok m -> mutex_ok m').
  { clear. induction 1 as [|m m1 m' [b Hs] _ IH]; [done|]. intros Hm. by eapply IH, step_mutex_ok. }
  intros Hr. exact (H _ _ Hr (initial_ok n)).
Qed.

(** C21: in every interleaving of any number of threads, at most one thread owns the mutex,
    the word is 0 exactly when none does, and no wakeup is lost: while a thread sleeps, the
    word is 2 and an owner exists, who will see it when it unlocks, or some thread is about
    to wake a sleeper or to set the word to 2 again. *)
Theorem mutex_exclusion n m :
  rtc any_step (initial n) m ->
  (forall j k p q, pcs m !! j = Some p -> pcs m !! k = Some q -> owns p = true -> owns q = true -> j = k) /\
  (futex m = 0 <-> forall k p, pcs m !! k = Some p -> owns p = false) /\
  (forall k, pcs m !! k = Some Asleep ->
     exists j p, pcs m !! j = Some p /\ (futex m = 2 /\ owns p = true \/ helps p = true)).
Proof.
  intros Hr. destruct (reachable_mutex_ok n m Hr) as [Hw Ho Hs].
  assert (Hown : futex m <> 0 -> exists j p, pcs m !! j = Some p /\ owns p = true).
  { intros Hf. apply tally_find. rewrite Ho, (proj2 (Z.eqb_neq _ _)) by done. lia. }
  split_and!.
  - intros j k p q Hj Hk Hp Hq. apply (tally_two owns (pcs m) j k p q); try done.
    rewrite Ho. destruct (futex m =? 0); lia.
  - split.
    + intros Hf k p Hk. destruct (owns p) eqn:Hp; [|done].
      pose proof (tally_at owns _ _ _ Hk Hp) as H. rewrite Ho, Hf in H. cbn in H. lia.
    + intros Hn. destruct (Z.eq_dec (futex m) 0) as [|Hf]; [done|].
      destruct (Hown Hf) as (j & p & Hj & Hp). rewrite (Hn j p Hj) in Hp. done.
  - intros k Hk. destruct Hs as [Hf|Hh]; [by eapply tally_at| |].
    + destruct Hown as (j & p & Hj & Hp); [lia|]. exists j, p. auto.
    + apply tally_find in Hh as (j & p & Hj & Hp). exists j, p. auto.
Qed.

(** * Progress *)

(** Steps without wakeups for no reason. *)
Abbreviation steps := (rtc (step false)).

Lemma steps_ok m m' : steps m m' -> mutex_ok m -> mutex_ok m'.
Proof. induction 1 as [|m m1 m' Hs _ IH]; [done|]. intros Hm. by eapply IH, step_mutex_ok. Qed.

(** A thread waits in [pthread_mutex_lock]. *)
Definition waits (p : pc) : bool :=
  match p with Cas false | Mark | Wait | Asleep | Retry => true | _ => false end.

Lemma mutex_move_at m k fp : (k < length (pcs m))%nat -> pcs (move m k fp) !! k = Some fp.2.
Proof. intros Hk. by apply list_lookup_insert_eq. Qed.
Lemma mutex_move_ne m k j fp : j <> k -> pcs (move m k fp) !! j = pcs m !! j.
Proof. intros Hk. cbn. apply list_lookup_insert_ne. congruence. Qed.

(** An owner that sees 2 comes to the call that wakes. *)
Lemma owner_wakes m j p k q :
  pcs m !! j = Some p -> owns p = true -> (p = Inside -> futex m = 2) ->
  pcs m !! k = Some q -> j <> k ->
  exists m', steps m m' /\ pcs m' !! j = Some Wake /\ pcs m' !! k = Some q /\ futex m' = 0.
Proof.
  intros Hj Hp Hf Hk Hne. pose proof (lookup_lt_Some _ _ _ Hj) as Hl.
  assert (Hstore : forall m, pcs m !! j = Some Store -> pcs m !! k = Some q ->
    exists m', steps m m' /\ pcs m' !! j = Some Wake /\ pcs m' !! k = Some q /\ futex m' = 0).
  { intros m0 Hj0 Hk0. exists (move m0 j (0, Wake)). split_and!; [|by apply mutex_move_at, (lookup_lt_Some _ _ _ Hj0)| |done].
    - by apply rtc_once, do_store.
    - by rewrite mutex_move_ne. }
  destruct p; try done; [|by apply Hstore].
  destruct (Hstore (move m j (unlock_sub (futex m)))) as (m' & Hs & H1 & H2 & H3).
  - rewrite mutex_move_at by done. by rewrite (Hf eq_refl).
  - by rewrite mutex_move_ne.
  - exists m'. split_and!; [|done..]. eapply rtc_l; [by apply do_unlock|done].
Qed.

(** The owner, if there is one, lets go of the mutex. *)
Lemma owner_releases m k q :
  mutex_ok m -> pcs m !! k = Some q -> owns q = false ->
  exists m', steps m m' /\ pcs m' !! k = Some q /\ futex m' = 0.
Proof.
  intros [Hw Ho _] Hk Hq. destruct (Z.eqb_spec (futex m) 0) as [Hf|Hf]; [by exists m|].
  destruct (tally_find owns (pcs m)) as (j & p & Hj & Hp); [lia|].
  assert (Hne : j <> k) by (intros ->; congruence).
  destruct (decide (p = Inside /\ futex m = 1)) as [[-> H1]|Hn].
  - exists (move m j (unlock_sub (futex m))). split_and!; [by apply rtc_once, do_unlock|by rewrite mutex_move_ne|].
    by rewrite H1.
  - destruct (owner_wakes m j p k q) as (m' & Hs & _ & H1 & H2); try done; [|by exists m'].
    intros ->. assert (futex m <> 1) by naive_solver. lia.
Qed.

(** A waiting thread that is awake takes a free mutex. *)
Lemma waiter_enters m k q :
  pcs m !! k = Some q -> waits q = true -> q <> Asleep -> futex m = 0 ->
  exists m', steps m m' /\ pcs m' !! k = Some Inside.
Proof.
  intros Hk Hq Hna Hf. pose proof (lookup_lt_Some _ _ _ Hk) as Hl.
  assert (Hretry : forall m, pcs m !! k = Some Retry -> futex m = 0 ->
    exists m', steps m m' /\ pcs m' !! k = Some Inside).
  { intros m0 Hk0 Hf0. exists (move m0 k (lock_exchange (futex m0))). rewrite Hf0 at 2.
    split; [by apply rtc_once, do_retry|by apply mutex_move_at, (lookup_lt_Some _ _ _ Hk0)]. }
  destruct q as [|[]| | | | | | |]; try done.
  - exists (move m k (lock_cas false (futex m))). rewrite Hf at 2. split; [by apply rtc_once, do_cas|by apply mutex_move_at].
  - exists (move m k (lock_exchange (futex m))). rewrite Hf at 2. split; [by apply rtc_once, do_mark|by apply mutex_move_at].
  - destruct (Hretry (move m k (futex m, if futex m =? 2 then Asleep else Retry))) as (m' & Hs & H); [| done|].
    + rewrite mutex_move_at by done. by rewrite Hf.
    + exists m'. split; [|done]. eapply rtc_l; [by apply do_wait|done].
  - by apply Hretry.
Qed.

(** A sleeping thread is woken. *)
Lemma sleeper_wakes m k :
  mutex_ok m -> pcs m !! k = Some Asleep -> exists m', steps m m' /\ pcs m' !! k = Some Retry.
Proof.
  intros Hm Hk.
  assert (Hwake : forall m j, pcs m !! j = Some Wake -> pcs m !! k = Some Asleep ->
    exists m', steps m m' /\ pcs m' !! k = Some Retry).
  { clear. intros m j Hj Hk. eexists. split; [by eapply rtc_once, do_wake|]. apply mutex_move_at.
    cbn. rewrite length_insert. by eapply lookup_lt_Some. }
  assert (Hmarked : forall m, mutex_ok m -> futex m = 2 -> pcs m !! k = Some Asleep ->
    exists m', steps m m' /\ pcs m' !! k = Some Retry).
  { clear - Hwake. intros m [_ Ho _] Hf Hk. rewrite Hf in Ho. cbn in Ho.
    destruct (tally_find owns (pcs m)) as (j & p & Hj & Hp); [lia|].
    destruct (owner_wakes m j p k Asleep) as (m1 & Hs1 & H1 & H2 & _); try done; [intros ->; by rewrite Hk in Hj; injection Hj as <-|].
    destruct (Hwake m1 j H1 H2) as (m2 & Hs2 & H3). exists m2. split; [by etransitivity|done]. }
  destruct (ok_sleep m Hm) as [Hf|Hh]; [by eapply tally_at|by apply Hmarked|].
  apply tally_find in Hh as (j & p & Hj & Hp).
  assert (Hne : j <> k) by (intros ->; by rewrite Hk in Hj; injection Hj as <-). pose proof (lookup_lt_Some _ _ _ Hj) as Hl.
  destruct p; try done; [|destruct (owner_wakes m j Store k Asleep) as (m1 & Hs1 & H1 & H2 & _); try done|by eapply Hwake].
  - assert (Hs : step false m (move m j (lock_exchange (futex m)))) by by apply do_retry.
    destruct (Hmarked (move m j (lock_exchange (futex m)))) as (m2 & Hs2 & H2); [by eapply step_mutex_ok|done| |].
    + by rewrite mutex_move_ne.
    + exists m2. split; [by eapply rtc_l|done].
  - destruct (Hwake m1 j H1 H2) as (m2 & Hs2 & H3). exists m2. split; [by etransitivity|done].
Qed.

(** C22: no interleaving deadlocks: from every reachable state, each thread that waits in
    [pthread_mutex_lock], asleep or not, can still get the mutex, without relying on wakeups
    for no reason. *)
Theorem mutex_progress n m k q :
  rtc any_step (initial n) m -> pcs m !! k = Some q -> waits q = true ->
  exists m', steps m m' /\ pcs m' !! k = Some Inside.
Proof.
  intros Hr Hk Hq. pose proof (reachable_mutex_ok n m Hr) as Hm.
  assert (Hawake : forall m q, mutex_ok m -> pcs m !! k = Some q -> waits q = true -> q <> Asleep ->
    exists m', steps m m' /\ pcs m' !! k = Some Inside).
  { clear. intros m q Hm Hk Hq Hna. destruct (owner_releases m k q) as (m1 & Hs1 & H1 & Hf); [done..|by destruct q|].
    destruct (waiter_enters m1 k q) as (m2 & Hs2 & H2); [done..|]. exists m2. split; [by etransitivity|done]. }
  destruct (decide (q = Asleep)) as [->|]; [|by apply (Hawake m q)].
  destruct (sleeper_wakes m k Hm Hk) as (m1 & Hs1 & H1).
  destruct (Hawake m1 Retry) as (m2 & Hs2 & H2); [by eapply steps_ok|done..|].
  exists m2. split; [by etransitivity|done].
Qed.

(** Two threads, the second asleep while the first holds the mutex. *)
Definition contended : mutex := Mutex 2 [Inside; Asleep].

Lemma contended_reachable : rtc any_step (initial 2) contended.
Proof.
  assert (H : forall m m', step false m m' -> any_step m m') by (intros; by exists false).
  eapply rtc_l; [by apply H, (call_lock false _ 0 false)|].
  eapply rtc_l; [by apply H, (do_cas false _ 0 false)|].
  eapply rtc_l; [by apply H, (call_lock false _ 1 false)|].
  eapply rtc_l; [by apply H, (do_cas false _ 1 false)|].
  eapply rtc_l; [by apply H, (do_mark false _ 1)|].
  eapply rtc_l; [by apply H, (do_wait false _ 1)|]. apply rtc_refl.
Qed.

Lemma mutex_exclusion_witness :
  exists j p, pcs contended !! j = Some p /\ (futex contended = 2 /\ owns p = true \/ helps p = true).
Proof. exact (proj2 (proj2 (mutex_exclusion 2 contended contended_reachable)) 1%nat eq_refl). Defined.

Lemma mutex_progress_witness :
  exists m', steps contended m' /\ pcs m' !! 1%nat = Some Inside.
Proof. exact (mutex_progress 2 contended 1 Asleep contended_reachable eq_refl eq_refl). Defined.
