(* ===== verification/RecursiveMutex.v ===== *)
(** Recursive mutexes: [pthread_mutex_lock_recursive] of [libc/intrin/pthread_mutex_lock.c],
    [pthread_mutex_unlock_recursive] of [libc/intrin/pthread_mutex_unlock.c] and the layout of
    the mutex word in [libc/thread/lock.h]. Every atomic access of the word is a step, together
    with the tests of what it returned; a weak compare-exchange may fail for no reason. The
    step after which what a call returns is settled is labelled with it. *)
From S2P Require Import Prelude Threads.
#[local] Open Scope Z_scope.

(** * The word *)

Definition MUTEX_DEPTH_MIN : Z := 0x20.
Definition MUTEX_DEPTH_MAX : Z := 0x7e0.
Definition MUTEX_DEPTH (word : Z) : Z := Z.land word MUTEX_DEPTH_MAX.
Definition MUTEX_OWNER (word : Z) : Z := Z.shiftr word 32.
Definition MUTEX_LOCK (word : Z) : Z := Z.lor (Z.land word 7) 8.
Definition MUTEX_UNLOCK (word : Z) : Z := Z.land word 7.
Definition MUTEX_INC_DEPTH (word : Z) : Z := u64 (word + MUTEX_DEPTH_MIN).
Definition MUTEX_DEC_DEPTH (word : Z) : Z := u64 (word - MUTEX_DEPTH_MIN).
Definition MUTEX_SET_OWNER (word tid : Z) : Z := Z.lor (u64 (Z.shiftl tid 32)) (u32 word).

(** * Program counters *)

(** The error numbers. *)
Inductive errno := Success | EAGAIN | EBUSY | EPERM.

Inductive pc :=
| Outside
| Inc (word : Z) (is_trylock : bool)    (** before the exchange that deepens *)
| Take (word : Z) (is_trylock : bool)   (** before the exchange that takes *)
| SetPid                                (** has taken it, before the store of [_pid] *)
| Spin (is_trylock : bool)              (** in the inner loop, before the load *)
| Dec (word : Z)                        (** before the exchange that leaves one level *)
| Free (word : Z).                      (** before the exchange that unlocks *)

#[export] Instance pc_eq_dec : EqDecision pc.
Proof. solve_decision. Defined.

(** What a call returns. *)
Inductive event := LockReturns (rc : errno) | UnlockReturns (rc : errno).

(** [_word] and [_pid] of the mutex, and the threads. *)
Record mutex := Mutex { word : Z; owner_pid : Z; pcs : list pc }.

(** * Between accesses *)

(** The head of the loop of [pthread_mutex_lock_recursive]. *)
Definition lock_decide (me w : Z) (is_trylock : bool) : pc * option event :=
  if MUTEX_OWNER w =? me then
    if MUTEX_DEPTH w <? MUTEX_DEPTH_MAX then (Inc w is_trylock, None)
    else (Outside, Some (LockReturns EAGAIN))
  else (Take (MUTEX_UNLOCK w) is_trylock, None).

(** The head of the loop of [pthread_mutex_unlock_recursive]. *)
Definition unlock_decide (me pid mutex_pid w : Z) : pc * option event :=
  if negb (MUTEX_OWNER w =? 0) && (negb (MUTEX_OWNER w =? me) || negb (mutex_pid =? pid))
  then (Outside, Some (UnlockReturns EPERM))
  else if negb (MUTEX_DEPTH w =? 0) then (Dec w, None)
  else (Free w, None).

(** * Accesses *)

Section Steps.
(** [tib_ptid] of each thread, and the id of the process. *)
Context (tid : nat -> Z) (pid : Z).

(** One access by thread [k] in [pthread_mutex_lock_recursive]: the word, the [_pid] field, where
    it goes and what it returns. [weak] makes a weak compare-exchange fail although the word is
    the expected one. *)
Definition lock_access (weak : bool) (k : nat) (m : mutex) (p : pc) :
    Z * Z * (pc * option event) :=
  let w := word m in
  let me := tid k in
  match p with
  | Inc e t =>
    if (w =? e) && negb weak then (MUTEX_INC_DEPTH e, owner_pid m, (Outside, Some (LockReturns Success)))
    else (w, owner_pid m, lock_decide me w t)
  | Take e t =>
    if (w =? e) && negb weak
    then (MUTEX_SET_OWNER (MUTEX_LOCK e) me, owner_pid m, (SetPid, Some (LockReturns Success)))
    else (w, owner_pid m, if t then (Outside, Some (LockReturns EBUSY)) else (Spin t, None))
  | SetPid => (w, pid, (Outside, None))
  | Spin t =>
    if (MUTEX_OWNER w =? me) || (w =? MUTEX_UNLOCK w) then (w, owner_pid m, lock_decide me w t)
    else (w, owner_pid m, (Spin t, None))
  | _ => (w, owner_pid m, (p, None))
  end.

(** One access in [pthread_mutex_unlock_recursive]. *)
Definition unlock_access (weak : bool) (k : nat) (m : mutex) (p : pc) :
    Z * Z * (pc * option event) :=
  let w := word m in
  let me := tid k in
  match p with
  | Dec e =>
    if (w =? e) && negb weak then (MUTEX_DEC_DEPTH e, owner_pid m, (Outside, Some (UnlockReturns Success)))
    else (w, owner_pid m, unlock_decide me pid (owner_pid m) w)
  | Free e =>
    if (w =? e) && negb weak then (MUTEX_UNLOCK e, owner_pid m, (Outside, Some (UnlockReturns Success)))
    else (w, owner_pid m, unlock_decide me pid (owner_pid m) w)
  | _ => (w, owner_pid m, (p, None))
  end.

Definition access (weak : bool) (k : nat) (m : mutex) (p : pc) : Z * Z * (pc * option event) :=
  match p with
  | Dec _ | Free _ => unlock_access weak k m p
  | _ => lock_access weak k m p
  end.

Definition move (m : mutex) (k : nat) (r : Z * Z * (pc * option event)) : mutex :=
  Mutex r.1.1 r.1.2 (<[k := r.2.1]> (pcs m)).

(** The calls begin with a load of the word. *)
Inductive step (m : mutex) : nat -> option event -> mutex -> Prop :=
| call_lock k is_trylock r :
    pcs m !! k = Some Outside -> r = (word m, owner_pid m, lock_decide (tid k) (word m) is_trylock) ->
    step m k r.2.2 (move m k r)
| call_unlock k r :
    pcs m !! k = Some Outside ->
    r = (word m, owner_pid m, unlock_decide (tid k) pid (owner_pid m) (word m)) ->
    step m k r.2.2 (move m k r)
| go_on k p weak r :
    pcs m !! k = Some p -> p <> Outside -> r = access weak k m p ->
    step m k r.2.2 (move m k r).

(** A run with the returns it shows. *)
Inductive run (m : mutex) : list (nat * event) -> mutex -> Prop :=
| run_nil : run m [] m
| run_step ls m1 k e m2 :
    run m ls m1 -> step m1 k e m2 ->
    run m (match e with Some e => ls ++ [(k, e)] | None => ls end) m2.
End Steps.

(** [n] threads outside a free mutex whose type and sharing bits are [base]. *)
Definition initial (base : Z) (n : nat) : mutex := Mutex base 0 (replicate n Outside).

(** * The specification *)

(** Who holds the mutex, how many times. *)
Abbreviation held := (option (nat * nat)).

Definition spec_step (h : held) (ke : nat * event) : option held :=
  let '(k, e) := ke in
  match e, h with
  | LockReturns Success, None => Some (Some (k, 1%nat))
  | LockReturns Success, Some (j, d) => if (j =? k)%nat && (d <? 64)%nat then Some (Some (k, S d)) else None
  | LockReturns EAGAIN, Some (j, d) => if (j =? k)%nat && (d =? 64)%nat then Some h else None
  | LockReturns EBUSY, Some (j, _) => if (j =? k)%nat then None else Some h
  | LockReturns EBUSY, None => Some h
  | UnlockReturns Success, None => Some None
  | UnlockReturns Success, Some (j, d) =>
    if (j =? k)%nat then match d with S (S d) => Some (Some (k, S d)) | _ => Some None end else None
  | UnlockReturns EPERM, Some (j, _) => if (j =? k)%nat then None else Some h
  | _, _ => None
  end.

Fixpoint spec_run (h : held) (ls : list (nat * event)) : option held :=
  match ls with
  | [] => Some h
  | l :: ls' => h ← spec_step h l; spec_run h ls'
  end.

(** * What the word encodes *)

Section Facts.
Context (tid : nat -> Z) (pid base : Z) (n : nat).
Hypothesis tid_range : forall k, (k < n)%nat -> 0 < tid k < 2 ^ 31.
Hypothesis tid_inj : forall j k, (j < n)%nat -> (k < n)%nat -> tid j = tid k -> j = k.
Hypothesis base_range : 0 <= base < 8.

Definition encode (h : held) : Z :=
  match h with
  | None => base
  | Some (k, d) => base + 8 + 32 * (Z.of_nat d - 1) + tid k * 2 ^ 32
  end.

Definition held_ok (h : held) : Prop :=
  match h with None => True | Some (k, d) => (k < n)%nat /\ (1 <= d <= 64)%nat end.

Lemma owner_encode h :
  held_ok h -> MUTEX_OWNER (encode h) = match h with None => 0 | Some (k, _) => tid k end.
Proof.
  intros Hh. unfold MUTEX_OWNER. rewrite shiftr_div by lia.
  destruct h as [[k d]|]; cbn [encode held_ok] in *; [|lia]. destruct Hh as [Hk Hd].
  pose proof (tid_range k Hk). lia.
Qed.

Lemma depth_encode h :
  held_ok h -> MUTEX_DEPTH (encode h) = match h with None => 0 | Some (_, d) => 32 * (Z.of_nat d - 1) end.
Proof.
  intros Hh. unfold MUTEX_DEPTH, MUTEX_DEPTH_MAX. change 0x7e0 with ((2 ^ 6 - 1) * 2 ^ 5).
  rewrite land_field by lia. destruct h as [[k d]|]; cbn [encode held_ok] in *; [|lia].
  destruct Hh as [Hk Hd]. pose proof (tid_range k Hk). lia.
Qed.

Lemma unlock_encode h : held_ok h -> MUTEX_UNLOCK (encode h) = base.
Proof.
  intros Hh. unfold MUTEX_UNLOCK. change 7 with (2 ^ 3 - 1). rewrite land_mask by lia.
  destruct h as [[k d]|]; cbn [encode held_ok] in *; lia.
Qed.

Lemma take_encode k :
  (k < n)%nat -> MUTEX_SET_OWNER (MUTEX_LOCK base) (tid k) = encode (Some (k, 1%nat)).
Proof.
  intros Hk. pose proof (tid_range k Hk). unfold MUTEX_SET_OWNER, MUTEX_LOCK, encode.
  change 7 with (2 ^ 3 - 1). rewrite land_mask, (Z.mod_small base) by lia.
  replace (Z.lor base 8) with (base + 8).
  2: { rewrite Z.lor_comm. symmetry. rewrite (lor_high_low 8 base 3) by lia. lia. }
  rewrite shiftl_mul, u64_small, u32_small by lia. rewrite (lor_high_low _ _ 32) by lia. lia.
Qed.

Lemma inc_encode k d :
  held_ok (Some (k, d)) -> (d < 64)%nat -> MUTEX_INC_DEPTH (encode (Some (k, d))) = encode (Some (k, S d)).
Proof.
  intros [Hk Hd] Hl. pose proof (tid_range k Hk). unfold MUTEX_INC_DEPTH, MUTEX_DEPTH_MIN, encode.
  rewrite u64_small by lia. lia.
Qed.

Lemma dec_encode k d :
  held_ok (Some (k, S d)) -> (1 <= d)%nat -> MUTEX_DEC_DEPTH (encode (Some (k, S d))) = encode (Some (k, d)).
Proof.
  intros [Hk Hd] Hl. pose proof (tid_range k Hk). unfold MUTEX_DEC_DEPTH, MUTEX_DEPTH_MIN, encode.
  rewrite u64_small by lia. lia.
Qed.

Lemma encode_free h : held_ok h -> encode h = base -> h = None.
Proof. destruct h as [[k d]|]; [|done]. intros [Hk Hd]. pose proof (tid_range k Hk). cbn. lia. Qed.

(** * The invariant *)

Definition mine (k : nat) (h : held) : Prop := match h with Some (j, _) => j = k | None => False end.

(** What a thread between two accesses knows. *)
Definition pc_ok (h : held) (k : nat) (p : pc) : Prop :=
  match p with
  | Outside => True
  | Inc w _ => exists d, h = Some (k, d) /\ (d < 64)%nat /\ w = encode h
  | Take w _ => w = base /\ ~ mine k h
  | SetPid => h = Some (k, 1%nat)
  | Spin t => t = false /\ ~ mine k h
  | Dec w => exists d, h = Some (k, S d) /\ (1 <= d)%nat /\ w = encode h
  | Free w => (h = Some (k, 1%nat) /\ w = encode h) \/ (w = base /\ ~ mine k h)
  end.

Record mutex_ok (m : mutex) (h : held) : Prop := {
  ok_held : held_ok h;
  ok_word : word m = encode h;
  ok_pid : forall k d, h = Some (k, d) -> owner_pid m = pid \/ pcs m !! k = Some SetPid;
  ok_len : length (pcs m) = n;
  ok_pcs : forall k p, pcs m !! k = Some p -> pc_ok h k p }.

(** Another thread's step does not disturb what a thread knows. *)
Lemma pc_ok_other h h' j p :
  (mine j h <-> mine j h') -> (mine j h -> h' = h) -> pc_ok h j p -> pc_ok h' j p.
Proof.
  intros Hiff Heq. destruct p; cbn [pc_ok]; try tauto.
  - intros (d & Hh & Hd & Hw). assert (h' = h) as ->; [|by exists d]. apply Heq. by rewrite Hh.
  - intros Hh. rewrite <- Hh. apply Heq. by rewrite Hh.
  - intros (d & Hh & Hd & Hw). assert (h' = h) as ->; [|by exists d]. apply Heq. by rewrite Hh.
  - intros [[Hh Hw]|[Hw Hm]]; [left|right; tauto]. assert (h' = h) as ->; [|done]. apply Heq. by rewrite Hh.
Qed.

Lemma mutex_ok_move m h h' k r :
  mutex_ok m h -> (k < n)%nat -> held_ok h' -> r.1.1 = encode h' ->
  r.1.2 = pid \/ r.1.2 = owner_pid m /\ (mine k h' -> owner_pid m = pid \/ r.2.1 = SetPid) ->
  (forall j, j <> k -> (mine j h <-> mine j h') /\ (mine j h -> h' = h)) -> pc_ok h' k r.2.1 ->
  mutex_ok (move m k r) h'.
Proof.
  intros [_ _ Hm Hl Hp] Hk Hh' Hw Hpid Hother Hpc. split; cbn; [done..| |by rewrite length_insert|].
  { intros j d ->. destruct Hpid as [Hpid|[-> Hpid]]; [by left|]. destruct (decide (j = k)) as [->|Hne].
    - rewrite list_lookup_insert_eq by lia. destruct (Hpid eq_refl) as [|Hs]; [by left|right; congruence].
    - rewrite list_lookup_insert_ne by congruence. apply (Hm j d). destruct (Hother j Hne) as [Hi He].
      symmetry. apply He. by apply Hi. }
  intros j p Hj. apply list_lookup_insert_Some in Hj as [(<- & <- & _)|[Hne Hj]]; [done|].
  destruct (Hother j) as [H1 H2]; [congruence|]. eapply pc_ok_other; [exact H1|exact H2|by apply Hp].
Qed.

Lemma lock_decide_ok h k t :
  held_ok h -> (k < n)%nat ->
  let r := lock_decide (tid k) (encode h) t in
  pc_ok h k r.1 /\ match r.2 with None => True | Some e => spec_step h (k, e) = Some h end.
Proof.
  intros Hh Hk r. unfold r, lock_decide. rewrite owner_encode, depth_encode, unlock_encode by done.
  pose proof (tid_range k Hk) as Htk. unfold MUTEX_DEPTH_MAX.
  destruct h as [[j d]|]; cbn [held_ok] in Hh.
  - destruct Hh as [Hj Hd]. destruct (Z.eqb_spec (tid j) (tid k)) as [E|E].
    + apply tid_inj in E as ->; [|done..]. destruct (Z.ltb_spec (32 * (Z.of_nat d - 1)) 0x7e0).
      * cbn. split; [|done]. exists d. split_and!; [done|lia|done].
      * cbn. split; [done|]. rewrite Nat.eqb_refl. assert (d = 64%nat) as -> by lia. done.
    + cbn. split; [|done]. split; [done|]. congruence.
  - rewrite (proj2 (Z.eqb_neq 0 (tid k))) by lia. cbn. tauto.
Qed.

Lemma unlock_decide_ok h k mp :
  held_ok h -> (k < n)%nat -> (mine k h -> mp = pid) ->
  let r := unlock_decide (tid k) pid mp (encode h) in
  pc_ok h k r.1 /\ match r.2 with None => True | Some e => spec_step h (k, e) = Some h end.
Proof.
  intros Hh Hk Hp r. unfold r, unlock_decide. rewrite owner_encode, depth_encode by done.
  pose proof (tid_range k Hk) as Htk. destruct h as [[j d]|]; cbn [held_ok] in Hh.
  - destruct Hh as [Hj Hd]. pose proof (tid_range j Hj). rewrite (proj2 (Z.eqb_neq (tid j) 0)) by lia. cbn [negb andb].
    destruct (Z.eqb_spec (tid j) (tid k)) as [E|E]; cbn [negb orb].
    + apply tid_inj in E as ->; [|done..]. rewrite (Hp eq_refl), Z.eqb_refl. cbn [negb].
      destruct (Z.eqb_spec (32 * (Z.of_nat d - 1)) 0); cbn.
      * split; [left|done]. assert (d = 1%nat) as -> by lia. done.
      * split; [|done]. destruct d as [|d]; [lia|]. exists d. split_and!; [done|lia|done].
    + cbn. split; [done|]. rewrite (proj2 (Nat.eqb_neq j k)); [done|]. congruence.
  - cbn. split; [|done]. right. tauto.
Qed.

Lemma pid_mine m h k : mutex_ok m h -> pcs m !! k <> Some SetPid -> mine k h -> owner_pid m = pid.
Proof.
  intros [_ _ Hpid _ _] Hk Hm. destruct h as [[j d]|]; [|done]. cbn in Hm. subst j.
  by destruct (Hpid k d eq_refl).
Qed.

(** A thread that only looks at the word. *)
Lemma look_ok m h k q :
  mutex_ok m h -> (k < n)%nat -> pcs m !! k <> Some SetPid -> pc_ok h k q.1 ->
  match q.2 with None => True | Some e => spec_step h (k, e) = Some h end ->
  exists h', match q.2 with None => h' = h | Some e => spec_step h (k, e) = Some h' end /\
    mutex_ok (move m k (word m, owner_pid m, q)) h'.
Proof.
  intros Hm Hk Hn Hpc He. exists h. split; [by destruct q.2|].
  pose proof Hm as [Hh Hw Hp Hl Hpcs]. apply (mutex_ok_move m h h); try done.
  right. split; [done|]. intros Hmine. left. by eapply pid_mine.
Qed.

Lemma access_ok m h k p weak :
  mutex_ok m h -> pcs m !! k = Some p -> p <> Outside ->
  let r := access tid pid weak k m p in
  exists h', match r.2.2 with None => h' = h | Some e => spec_step h (k, e) = Some h' end /\
    mutex_ok (move m k r) h'.
Proof.
  intros Hm Hp Hne. pose proof Hm as [Hh Hw Hpid Hl Hpcs]. pose proof (Hpcs k p Hp) as Hpc.
  assert (Hk : (k < n)%nat) by (rewrite <- Hl; by eapply lookup_lt_Some).
  destruct (decide (p = SetPid)) as [->|Hsp'].
  { cbn in *. subst h. exists (Some (k, 1%nat)). split; [done|].
    apply (mutex_ok_move m (Some (k, 1%nat))); cbn [fst snd] in *; try done. by left. }
  assert (Hsp : pcs m !! k <> Some SetPid) by congruence.
  pose proof (pid_mine m h k Hm Hsp) as Hmypid.
  assert (Hlock : forall t, exists h', match (lock_decide (tid k) (word m) t).2 with
      None => h' = h | Some e => spec_step h (k, e) = Some h' end /\
    mutex_ok (move m k (word m, owner_pid m, lock_decide (tid k) (word m) t)) h').
  { intros t. destruct (lock_decide_ok h k t Hh Hk) as [H1 H2]. rewrite <- Hw in H1, H2. exact (look_ok _ _ _ _ Hm Hk Hsp H1 H2). }
  assert (Hunlock : exists h', match (unlock_decide (tid k) pid (owner_pid m) (word m)).2 with
      None => h' = h | Some e => spec_step h (k, e) = Some h' end /\
    mutex_ok (move m k (word m, owner_pid m, unlock_decide (tid k) pid (owner_pid m) (word m))) h').
  { destruct (unlock_decide_ok h k (owner_pid m) Hh Hk Hmypid) as [H1 H2]. rewrite <- Hw in H1, H2.
    exact (look_ok _ _ _ _ Hm Hk Hsp H1 H2). }
  destruct p as [|e t|e t| |t|e|e]; try done; cbn [access lock_access unlock_access pc_ok] in *.
  - destruct Hpc as (d & -> & Hd & ->). rewrite <- Hw, Z.eqb_refl. destruct weak; cbn [andb negb].
    + apply Hlock.
    + exists (Some (k, S d)). cbn [fst snd]. split; [cbn [spec_step]; by rewrite Nat.eqb_refl, (proj2 (Nat.ltb_lt d 64))|].
      apply (mutex_ok_move m (Some (k, d))); cbn [fst snd held_ok] in *; try done; try lia.
      * rewrite Hw. by apply inc_encode.
      * right. split; [done|]. left. by apply Hmypid.
  - destruct Hpc as [-> Hmine]. destruct ((word m =? base) && negb weak) eqn:E.
    + apply andb_true_iff in E as [E _]. apply Z.eqb_eq in E. rewrite Hw in E. apply encode_free in E; [|done]. subst h.
      exists (Some (k, 1%nat)). cbn [fst snd]. split; [done|].
      apply (mutex_ok_move m None); cbn [fst snd held_ok] in *; try done; try lia.
      * by apply take_encode.
      * right. split; [done|]. by right.
    + destruct t.
      * apply (look_ok m h k (Outside, Some (LockReturns EBUSY)) Hm Hk Hsp I). cbn.
        destruct h as [[j d]|]; [|done]. cbn in Hmine. by rewrite (proj2 (Nat.eqb_neq j k)).
      * by apply (look_ok m h k (Spin false, None) Hm Hk Hsp).
  - destruct Hpc as [-> Hmine]. destruct (_ || _); [apply Hlock|by apply (look_ok m h k (Spin false, None) Hm Hk Hsp)].
  - destruct Hpc as (d & -> & Hd & ->). rewrite <- Hw, Z.eqb_refl. destruct weak; cbn [andb negb].
    + exact Hunlock.
    + exists (Some (k, d)). cbn [fst snd]. split; [cbn; rewrite Nat.eqb_refl; by destruct d; [lia|]|].
      apply (mutex_ok_move m (Some (k, S d))); cbn [fst snd held_ok] in *; try done; try lia.
      * rewrite Hw. by apply dec_encode.
      * right. split; [done|]. left. by apply Hmypid.
  - destruct ((word m =? e) && negb weak) eqn:E; [|exact Hunlock].
    apply andb_true_iff in E as [E _]. apply Z.eqb_eq in E. exists None. cbn [fst snd].
    destruct Hpc as [[-> ->]|[-> Hmine]].
    + split; [cbn; by rewrite Nat.eqb_refl|].
      apply (mutex_ok_move m (Some (k, 1%nat))); cbn [fst snd held_ok] in *; try done.
      * by rewrite unlock_encode.
      * by right.
    + rewrite Hw in E. apply encode_free in E; [|done]. subst h. split; [done|].
      apply (mutex_ok_move m None); cbn [fst snd held_ok] in *; try done.
      * exact (unlock_encode None I).
      * by right.
Qed.

Lemma recursive_step_refines m h k e m' :
  mutex_ok m h -> step tid pid m k e m' ->
  exists h', match e with None => h' = h | Some e => spec_step h (k, e) = Some h' end /\ mutex_ok m' h'.
Proof.
  intros Hm Hs. pose proof Hm as [Hh Hw Hpid Hl Hpcs].
  destruct Hs as [k t r Hk ->|k r Hk ->|k p weak r Hk Hp ->]; [..|by apply access_ok];
    (assert ((k < n)%nat) as Hkn by (rewrite <- Hl; by eapply lookup_lt_Some)).
  all: assert (Hsp : pcs m !! k <> Some SetPid) by congruence.
  - destruct (lock_decide_ok h k t Hh Hkn) as [H1 H2]. rewrite <- Hw in H1, H2. exact (look_ok _ _ _ _ Hm Hkn Hsp H1 H2).
  - destruct (unlock_decide_ok h k (owner_pid m) Hh Hkn (pid_mine _ _ _ Hm Hsp)) as [H1 H2]. rewrite <- Hw in H1, H2.
    exact (look_ok _ _ _ _ Hm Hkn Hsp H1 H2).
Qed.
End Facts.

Lemma spec_run_snoc h ls l h1 :
  spec_run h ls = Some h1 -> spec_run h (ls ++ [l]) = spec_step h1 l.
Proof.
  revert h. induction ls as [|l' ls IH]; intros h; cbn.
  - intros [= ->]. by destruct (spec_step h1 l).
  - destruct (spec_step h l') as [h2|]; [|done]. cbn. apply IH.
Qed.


(** * Schedules *)

(** A step chosen by a scheduler. *)
Inductive act := CallLock (k : nat) (is_trylock : bool) | CallUnlock (k : nat) | GoOn (k : nat) (weak : bool).

Section Schedule.
Context (tid : nat -> Z) (pid : Z).

Definition exec_act (m : mutex) (a : act) : option (mutex * list (nat * event)) :=
  let result k r := Some (move m k r, match r.2.2 with Some e => [(k, e)] | None => [] end) in
  match a with
  | CallLock k t =>
    if decide (pcs m !! k = Some Outside)
    then result k (word m, owner_pid m, lock_decide (tid k) (word m) t) else None
  | CallUnlock k =>
    if decide (pcs m !! k = Some Outside)
    then result k (word m, owner_pid m, unlock_decide (tid k) pid (owner_pid m) (word m)) else None
  | GoOn k weak =>
    match pcs m !! k with
    | Some p => if decide (p = Outside) then None else result k (access tid pid weak k m p)
    | None => None
    end
  end.

Fixpoint exec (m : mutex) (ls : list (nat * event)) (acts : list act) : option (mutex * list (nat * event)) :=
  match acts with
  | [] => Some (m, ls)
  | a :: acts' => '(m, l) ← exec_act m a; exec m (ls ++ l) acts'
  end.

Lemma run_snoc m0 ls m k r :
  run tid pid m0 ls m -> step tid pid m k r.2.2 (move m k r) ->
  run tid pid m0 (ls ++ match r.2.2 with Some e => [(k, e)] | None => [] end) (move m k r).
Proof.
  intros Hr Hs. pose proof (run_step _ _ _ _ _ _ _ _ Hr Hs) as H. destruct r.2.2; [done|]. by rewrite app_nil_r.
Qed.

Lemma exec_act_run m0 ls m a res :
  run tid pid m0 ls m -> exec_act m a = Some res -> run tid pid m0 (ls ++ res.2) res.1.
Proof.
  intros Hr. destruct a as [k t|k|k w]; cbn [exec_act].
  - case_decide as Hc; [|done]. intros E. apply Some_inj in E. subst res.
    exact (run_snoc _ _ _ _ _ Hr (call_lock tid pid m k t _ Hc eq_refl)).
  - case_decide as Hc; [|done]. intros E. apply Some_inj in E. subst res.
    exact (run_snoc _ _ _ _ _ Hr (call_unlock tid pid m k _ Hc eq_refl)).
  - destruct (pcs m !! k) as [p|] eqn:Hk; [|done]. case_decide as Hc; [done|]. intros E. apply Some_inj in E. subst res.
    exact (run_snoc _ _ _ _ _ Hr (go_on tid pid m k p w _ Hk Hc eq_refl)).
Qed.

Lemma exec_run m0 m ls acts m' ls' :
  run tid pid m0 ls m -> exec m ls acts = Some (m', ls') -> run tid pid m0 ls' m'.
Proof.
  revert m ls. induction acts as [|a acts IH]; intros m ls Hr; cbn [exec]; [by intros [= <- <-]|].
  destruct (exec_act m a) as [[m1 l]|] eqn:E; [|done]. cbn [mbind option_bind]. apply IH.
  exact (exec_act_run _ _ _ _ _ Hr E).
Qed.
End Schedule.

(** Two threads: the first locks twice, the second is refused, the first unlocks once. *)
Definition sample_tid (k : nat) : Z := Z.of_nat k + 100.

Definition sample_acts : list act :=
  [CallLock 0 false; GoOn 0 false; GoOn 0 false; CallLock 0 false; GoOn 0 false; CallLock 1 true; GoOn 1 false;
   CallUnlock 0; GoOn 0 false].

Definition sample_events : list (nat * event) :=
  [(0, LockReturns Success); (0, LockReturns Success); (1, LockReturns EBUSY); (0, UnlockReturns Success)]%nat.


(** A weak compare-exchange that fails for no reason makes a trylock of a free mutex return
    EBUSY. *)
Theorem trylock_free_busy :
  exists m, run sample_tid 7 (initial 1 1) [(0%nat, LockReturns EBUSY)] m /\ word m = 1.
Proof.
  eexists. split; [|shelve].
  apply (exec_run sample_tid 7 (initial 1 1) (initial 1 1) [] [CallLock 0 true; GoOn 0 true]); [constructor|reflexivity].
  Unshelve. reflexivity.
Qed.
