(* ===== verification/Once.v ===== *)
(** One-time initialization: [cosmo_once] and [cosmo_once_impl] of [libc/intrin/cosmo_once.c].
    Every atomic access is a step, together with the tests of what it returned. *)
From S2P Require Import Prelude Threads.
#[local] Open Scope Z_scope.

(** The states of the word. *)
Definition INIT : Z := 0.
Definition FINISHED : Z := 1.
Definition CALLING : Z := 2.

Inductive pc :=
| Outside
| FastLoad              (** before the load of [cosmo_once] *)
| Load                  (** before the load of [cosmo_once_impl] *)
| Cas                   (** before the compare-exchange of [INIT] by [CALLING] *)
| Calling               (** in [init] *)
| Publish               (** before the store of [FINISHED] *)
| Returned (rc : bool). (** with 0, or with EINVAL *)

#[export] Instance pc_eq_dec : EqDecision pc.
Proof. solve_decision. Defined.

(** The word, how many times [init] was called, and the threads. *)
Record once := MkOnce { word : Z; calls : nat; pcs : list pc }.

(** One access: the word, the calls and where the thread goes. *)
Definition access (p : pc) (w : Z) (c : nat) : option (Z * nat * pc) :=
  match p with
  | FastLoad => Some (w, c, if w =? FINISHED then Returned true else Load)
  | Load =>
    Some (w, c, if w =? INIT then Cas else if w =? CALLING then Load
                else Returned (w =? FINISHED))
  | Cas => Some (if w =? INIT then (CALLING, S c, Calling) else (w, c, Load))
  | Calling => Some (w, c, Publish)
  | Publish => Some (FINISHED, c, Returned true)
  | Outside | Returned _ => None
  end.

Definition move (m : once) (k : nat) (r : Z * nat * pc) : once := MkOnce r.1.1 r.1.2 (<[k := r.2]> (pcs m)).

Inductive step (m : once) : once -> Prop :=
| call_once k p :
    pcs m !! k = Some p -> (p = Outside \/ exists rc, p = Returned rc) ->
    step m (move m k (word m, calls m, FastLoad))
| go_on k p r :
    pcs m !! k = Some p -> access p (word m) (calls m) = Some r -> step m (move m k r).

Definition initial (n : nat) : once := MkOnce INIT 0 (replicate n Outside).

(** * The invariant *)

Definition calling (p : pc) : bool := match p with Calling | Publish => true | _ => false end.
Definition in_init (p : pc) : bool := match p with Calling => true | _ => false end.
Definition done_ok (p : pc) : bool := match p with Returned true => true | _ => false end.
Definition failed (p : pc) : bool := match p with Returned false => true | _ => false end.

Record once_ok (m : once) : Prop := {
  ok_phase : (word m = INIT /\ calls m = 0%nat /\ tally calling (pcs m) = 0%nat) \/
             (word m = CALLING /\ calls m = 1%nat /\ tally calling (pcs m) = 1%nat) \/
             (word m = FINISHED /\ calls m = 1%nat /\ tally calling (pcs m) = 0%nat);
  ok_returned : (0 < tally done_ok (pcs m))%nat -> word m = FINISHED;
  ok_failed : tally failed (pcs m) = 0%nat }.

Lemma initial_once_ok n : once_ok (initial n).
Proof. split; cbn; rewrite ?tally_replicate by done; lia. Qed.

Lemma step_once_ok m m' : once_ok m -> step m m' -> once_ok m'.
Proof.
  intros [Hp Hr Hf] Hs. destruct m as [w c l]. cbn [word calls pcs] in *. unfold INIT, CALLING, FINISHED in *.
  destruct Hs as [k p Hk Hc|k p r Hk Ha]; cbn [word calls pcs] in *.
  - destruct Hc as [-> |[[] ->]]; split; simpl; unfold INIT, CALLING, FINISHED; tally_step Hk; lia.
  - destruct p; try done; injection Ha as <-;
      try (pose proof (tally_at calling l k _ Hk eq_refl)); unfold INIT, CALLING, FINISHED;
      destruct Hp as [(-> & -> & Hp)|[(-> & -> & Hp)|(-> & -> & Hp)]]; simpl;
      split; simpl; unfold INIT, CALLING, FINISHED; tally_step Hk; lia.
Qed.

Lemma reachable_once_ok n m : rtc step (initial n) m -> once_ok m.
Proof.
  assert (H : forall m m', rtc step m m' -> once_ok m -> once_ok m').
  { clear. induction 1 as [|m m1 m' Hs _ IH]; [done|]. intros Hm. by eapply IH, step_once_ok. }
  intros Hr. exact (H _ _ Hr (initial_once_ok n)).
Qed.

(** * Progress *)

Definition waiting (p : pc) : bool := match p with FastLoad | Load | Cas | Calling | Publish => true | _ => false end.

Lemma once_move_at m k r : (k < length (pcs m))%nat -> pcs (move m k r) !! k = Some r.2.
Proof. intros Hk. by apply list_lookup_insert_eq. Qed.
Lemma once_move_ne m k j r : j <> k -> pcs (move m k r) !! j = pcs m !! j.
Proof. intros Hk. cbn. apply list_lookup_insert_ne. congruence. Qed.

Lemma moved m k p r q : pcs m !! k = Some p -> r.2 = q -> pcs (move m k r) !! k = Some q.
Proof. intros Hk <-. by apply once_move_at, (lookup_lt_Some _ _ _ Hk). Qed.

(** Thread [k] alone returns once the word is [FINISHED] or still [INIT]. *)
Lemma returns_alone m k p :
  pcs m !! k = Some p -> waiting p = true ->
  word m = FINISHED \/ word m = INIT \/ calling p = true ->
  exists m', rtc step m m' /\ pcs m' !! k = Some (Returned true).
Proof.
  assert (Hgo : forall m p r, pcs m !! k = Some p -> access p (word m) (calls m) = Some r ->
    (exists m', rtc step (move m k r) m' /\ pcs m' !! k = Some (Returned true)) ->
    exists m', rtc step m m' /\ pcs m' !! k = Some (Returned true)).
  { clear. intros m p r Hk Ha (m' & Hs & H). exists m'. split; [|done]. eapply rtc_l; [by eapply go_on|done]. }
  assert (Hret : forall m, pcs m !! k = Some (Returned true) ->
    exists m', rtc step m m' /\ pcs m' !! k = Some (Returned true)) by (intros m0 H; by exists m0).
  assert (Hpub : forall m, pcs m !! k = Some Publish -> exists m', rtc step m m' /\ pcs m' !! k = Some (Returned true)).
  { intros m0 Hk0. eapply (Hgo _ _ _ Hk0 eq_refl), Hret. by apply (moved _ _ _ _ _ Hk0). }
  assert (Hcall : forall m, pcs m !! k = Some Calling -> exists m', rtc step m m' /\ pcs m' !! k = Some (Returned true)).
  { intros m0 Hk0. eapply (Hgo _ _ _ Hk0 eq_refl), Hpub. by apply (moved _ _ _ _ _ Hk0). }
  assert (Hcas : forall m, pcs m !! k = Some Cas -> word m = INIT ->
    exists m', rtc step m m' /\ pcs m' !! k = Some (Returned true)).
  { intros m0 Hk0 Hw. eapply (Hgo _ _ _ Hk0 eq_refl), Hcall. rewrite Hw; by apply (moved _ _ _ _ _ Hk0). }
  assert (Hload : forall m, pcs m !! k = Some Load -> word m = FINISHED \/ word m = INIT ->
    exists m', rtc step m m' /\ pcs m' !! k = Some (Returned true)).
  { intros m0 Hk0 [Hw|Hw]; eapply (Hgo _ _ _ Hk0 eq_refl).
    - apply Hret. rewrite Hw; by apply (moved _ _ _ _ _ Hk0).
    - apply Hcas; [|done]. rewrite Hw; by apply (moved _ _ _ _ _ Hk0). }
  intros Hk Hp Hw. destruct p; try done; [..|by apply Hcall|by apply Hpub].
  - eapply (Hgo _ _ _ Hk eq_refl). destruct Hw as [Hw|[Hw|Hw]]; [|by apply Hload; [rewrite Hw; by apply (moved _ _ _ _ _ Hk)|right]|done].
    apply Hret. rewrite Hw; by apply (moved _ _ _ _ _ Hk).
  - apply Hload; naive_solver.
  - destruct Hw as [Hw|[Hw|Hw]]; [|by apply Hcas|done].
    eapply (Hgo _ _ _ Hk eq_refl), Hload; rewrite Hw; [by apply (moved _ _ _ _ _ Hk)|by left].
Qed.

(** C27: in every interleaving, [init] is called at most once; a thread that returned did so
    with 0 and after [init] was done; and no thread hangs: from every reachable state each
    thread inside [cosmo_once] can still return. *)
Theorem once_exactly_once n m :
  rtc step (initial n) m ->
  (calls m <= 1)%nat /\
  (forall k rc, pcs m !! k = Some (Returned rc) ->
     rc = true /\ calls m = 1%nat /\ forall j, pcs m !! j <> Some Calling) /\
  (forall k p, pcs m !! k = Some p -> waiting p = true ->
     exists m', rtc step m m' /\ pcs m' !! k = Some (Returned true)).
Proof.
  intros Hr. pose proof (reachable_once_ok n m Hr) as [Hp Hret Hfail].
  assert (Hcall : forall j, pcs m !! j = Some Calling -> (1 <= tally calling (pcs m))%nat).
  { intros j Hj. by eapply tally_at. }
  unfold INIT, CALLING, FINISHED in *. split_and!.
  - naive_solver lia.
  - intros k rc Hk. assert (rc = true) as ->.
    { destruct rc; [done|]. pose proof (tally_at failed _ _ _ Hk eq_refl). lia. }
    pose proof (Hret ltac:(by eapply tally_at)) as Hw.
    assert (H : calls m = 1%nat /\ tally calling (pcs m) = 0%nat) by (naive_solver lia).
    split_and!; [done|tauto|]. intros j Hj. specialize (Hcall j Hj). lia.
  - intros k p Hk Hwait. destruct (calling p) eqn:Ec; [eapply returns_alone; try done; auto|].
    destruct Hp as [(Hw & _)|[(Hw & _ & Ht)|(Hw & _)]]; [eapply returns_alone; try done; auto| |eapply returns_alone; try done; auto].
    destruct (tally_find calling (pcs m)) as (j & q & Hj & Hq); [lia|].
    assert (Hne : j <> k) by (intros ->; congruence).
    assert (Hfin : exists m1, rtc step m m1 /\ pcs m1 !! k = Some p /\ word m1 = FINISHED).
    { assert (Hpub : forall m, pcs m !! j = Some Publish -> pcs m !! k = Some p ->
        exists m1, rtc step m m1 /\ pcs m1 !! k = Some p /\ word m1 = FINISHED).
      { intros m0 Hj0 Hk0. exists (move m0 j (FINISHED, calls m0, Returned true)).
        split; [by apply rtc_once, (go_on m0 j Publish)|]. by rewrite once_move_ne. }
      destruct q; try done; [|by apply Hpub].
      destruct (Hpub (move m j (word m, calls m, Publish))) as (m1 & Hs1 & H1);
        [by apply once_move_at, (lookup_lt_Some _ _ _ Hj)|by rewrite once_move_ne|].
      exists m1. split; [|done]. eapply rtc_l; [by eapply go_on|done]. }
    destruct Hfin as (m1 & Hs1 & Hk1 & Hw1).
    destruct (returns_alone m1 k p) as (m2 & Hs2 & H2); [done..|by left|].
    exists m2. split; [by etransitivity|done].
Qed.

Lemma once_exactly_once_witness :
  exists m', rtc step (MkOnce CALLING 1 [Calling; Load]) m' /\ pcs m' !! 1%nat = Some (Returned true).
Proof.
  assert (Hr : rtc step (initial 2) (MkOnce CALLING 1 [Calling; Load])).
  { eapply rtc_l; [eapply (call_once _ 0); [reflexivity|by left]|].
    eapply rtc_l; [by eapply (go_on _ 0)|]. eapply rtc_l; [by eapply (go_on _ 0)|].
    eapply rtc_l; [by eapply (go_on _ 0)|]. eapply rtc_l; [eapply (call_once _ 1); [reflexivity|by left]|].
    eapply rtc_l; [by eapply (go_on _ 1)|]. apply rtc_refl. }
  exact (proj2 (proj2 (once_exactly_once 2 _ Hr)) 1%nat Load eq_refl eq_refl).
Defined.
