(* ===== verification/SpinLock.v ===== *)
(** Spin locks: [libc/thread/pthread_spin_lock.c], [pthread_spin_trylock.c] and
    [pthread_spin_unlock.c]. Every atomic access is a step, together with the tests of what it
    returned. *)
From S2P Require Import Prelude Threads.
#[local] Open Scope Z_scope.

Inductive pc :=
| Outside
| Exchange          (** before the first exchange of [pthread_spin_lock] *)
| Look              (** in the inner loop, before the load *)
| Again             (** before the exchange after the loop *)
| TryExchange       (** before the exchange of [pthread_spin_trylock] *)
| Inside.

(** [_lock] and the threads. *)
Record spinlock := MkSpin { lock : Z; pcs : list pc }.

(** The exchange of [pthread_spin_trylock]: the word and where the thread goes. *)
Definition pthread_spin_trylock (v : Z) : Z * pc := (1, if v =? 0 then Inside else Outside).

(** The store of [pthread_spin_unlock]. *)
Definition pthread_spin_unlock : Z * pc := (0, Outside).

(** One access; the first three places are those of [pthread_spin_lock]. *)
Definition access (p : pc) (v : Z) : option (Z * pc) :=
  match p with
  | Outside => None
  | Exchange => Some (1, if v =? 0 then Inside else Look)
  | Look => Some (v, if v =? 0 then Again else Look)
  | Again => Some (1, if v =? 0 then Inside else Look)
  | TryExchange => Some (pthread_spin_trylock v)
  | Inside => Some pthread_spin_unlock
  end.

Definition move (m : spinlock) (k : nat) (r : Z * pc) : spinlock := MkSpin r.1 (<[k := r.2]> (pcs m)).

Inductive step (m : spinlock) : spinlock -> Prop :=
| call_lock k p :
    pcs m !! k = Some Outside -> p = Exchange \/ p = TryExchange -> step m (move m k (lock m, p))
| go_on k p r :
    pcs m !! k = Some p -> access p (lock m) = Some r -> step m (move m k r).

Definition initial (n : nat) : spinlock := MkSpin 0 (replicate n Outside).

Definition inside (p : pc) : bool := match p with Inside => true | _ => false end.

Record spin_ok (m : spinlock) : Prop := {
  ok_lock : 0 <= lock m <= 1;
  ok_inside : tally inside (pcs m) = Z.to_nat (lock m) }.

Lemma step_spin_ok m m' : spin_ok m -> step m m' -> spin_ok m'.
Proof.
  intros [Hl Hi] Hs. destruct m as [v l]. cbn [lock pcs] in *.
  destruct Hs as [k p Hk Hp|k p r Hk Ha]; cbn [lock pcs] in *.
  - destruct Hp as [-> | ->]; split; simpl; tally_step Hk; lia.
  - unfold access, pthread_spin_trylock, pthread_spin_unlock in Ha. destruct p; try done; injection Ha as <-; try (pose proof (tally_at inside l k _ Hk eq_refl));
      destruct (Z.eqb_spec v 0); split; simpl; tally_step Hk; lia.
Qed.

(** In every interleaving of lockers and try-lockers the word of a spin lock is 1 exactly
    when a thread is inside, and at most one is. *)
Theorem spin_exclusion n m :
  rtc step (initial n) m ->
  (forall j k, pcs m !! j = Some Inside -> pcs m !! k = Some Inside -> j = k) /\
  (lock m = 0 <-> forall k, pcs m !! k <> Some Inside).
Proof.
  intros Hr. assert (Hm : spin_ok m).
  { assert (H : forall m m', rtc step m m' -> spin_ok m -> spin_ok m').
    { clear. induction 1 as [|m m1 m' Hs _ IH]; [done|]. intros Hm. by eapply IH, step_spin_ok. }
    apply (H _ _ Hr). split; cbn; [lia|]. by rewrite tally_replicate. }
  destruct Hm as [Hl Hi]. split_and!.
  - intros j k Hj Hk. apply (tally_two inside (pcs m) j k Inside Inside); try done. lia.
  - split.
    + intros H0 k Hk. pose proof (tally_at inside _ _ _ Hk eq_refl). lia.
    + intros Hn. destruct (Z.eq_dec (lock m) 0) as [|H1]; [done|].
      destruct (tally_find inside (pcs m)) as (k & p & Hk & Hp); [lia|]. destruct p; try done. by destruct (Hn k).
Qed.
