(* ===== verification/Semaphore.v ===== *)
(** Semaphores: [libc/thread/sem_init.c], [sem_trywait.c], [sem_timedwait.c], [sem_wait.c],
    [sem_post.c] and [sem_getvalue.c]. Every atomic access is a step, together with the tests of
    what it returned; a weak compare-exchange may fail for no reason. [cosmo_futex_wait] sleeps
    when the value is 0 and else returns at once; a sleeper is woken by a post, gives up on a
    signal, a cancellation or its deadline, or returns early and looks again. *)
From S2P Require Import Prelude Threads.
#[local] Open Scope Z_scope.

Definition SEM_VALUE_MAX : Z := 2 ^ 31 - 1.

(** * Program counters *)

Inductive pc :=
| Outside
| TryLoad (wait : bool)           (** before the load of [sem_trywait]; [wait] in [sem_timedwait] *)
| TryCas (v : Z) (wait : bool)    (** before its compare-exchange *)
| Enter                           (** before the increment of [sem_waiters] *)
| Load                            (** at the head of the loop of [sem_timedwait] *)
| Wait                            (** before [cosmo_futex_wait] *)
| Asleep
| Cas (v : Z)                     (** before the compare-exchange of the loop *)
| Leave (ok : bool)               (** before the decrement of [sem_waiters] *)
| PostWake.                       (** in [sem_post], before [cosmo_futex_wake] *)

(** What a caller sees: a token taken, no token ([EAGAIN]), a wait given up, a negative value
    ([EINVAL]), a token put back. *)
Inductive event := Acquired | Refused | GaveUp | Invalid | Posted.

(** [sem_value] and [sem_waiters], and the threads. *)
Record sem := Sem { sem_value : Z; sem_waiters : Z; pcs : list pc }.

(** * Accesses *)

(** The loop of [sem_trywait] with [v] loaded. *)
Definition trywait_test (v : Z) (wait : bool) : pc * option event :=
  if v =? 0 then if wait then (Enter, None) else (Outside, Some Refused)
  else if v <? 0 then (Outside, Some Invalid)
  else (TryCas v wait, None).

(** One access: the value, the waiters, where the thread goes and what the caller sees. *)
Definition access (weak : bool) (p : pc) (v w : Z) : option (Z * Z * (pc * option event)) :=
  match p with
  | TryLoad wait => Some (v, w, trywait_test v wait)
  | TryCas e wait =>
    Some (if (v =? e) && negb weak then (s32 (e - 1), w, (Outside, Some Acquired))
          else (v, w, trywait_test v wait))
  | Enter => Some (v, s32 (w + 1), (Load, None))
  | Load =>
    Some (v, w, (if v =? 0 then Wait else if v >? 0 then Cas v else Leave false, None))
  | Wait => Some (v, w, (if v =? 0 then Asleep else Load, None))
  | Cas e =>
    Some (if (v =? e) && negb weak then (s32 (e - 1), w, (Leave true, Some Acquired))
          else (v, w, (Load, None)))
  | Leave ok => Some (v, s32 (w - 1), (Outside, if ok then None else Some GaveUp))
  | Outside | Asleep | PostWake => None
  end.

Definition move (m : sem) (k : nat) (r : Z * Z * (pc * option event)) : sem :=
  Sem r.1.1 r.1.2 (<[k := r.2.1]> (pcs m)).

(** Steps that change nothing but the thread. *)
Definition goto (m : sem) (k : nat) (p : pc) : sem := Sem (sem_value m) (sem_waiters m) (<[k := p]> (pcs m)).

Inductive step (m : sem) : option event -> sem -> Prop :=
| call_wait k wait : pcs m !! k = Some Outside -> step m None (goto m k (TryLoad wait))
| go_on k p weak r :
    pcs m !! k = Some p -> access weak p (sem_value m) (sem_waiters m) = Some r ->
    step m r.2.2 (move m k r)
| wait_fails k p :
    pcs m !! k = Some p -> p = Wait \/ p = Asleep -> step m None (goto m k (Leave false))
| wake_early k : pcs m !! k = Some Asleep -> step m None (goto m k Load)
| do_post k :
    pcs m !! k = Some Outside ->
    step m (Some Posted) (Sem (s32 (sem_value m + 1)) (sem_waiters m) (<[k := PostWake]> (pcs m)))
| post_wakes k j :
    pcs m !! k = Some PostWake -> pcs m !! j = Some Asleep ->
    step m None (goto (goto m k Outside) j Load)
| post_wakes_none k :
    pcs m !! k = Some PostWake -> Forall (fun p => p <> Asleep) (pcs m) ->
    step m None (goto m k Outside).

(** A run with what its callers see. *)
Inductive run (m : sem) : list event -> sem -> Prop :=
| run_nil : run m [] m
| run_step ls m1 e m2 :
    run m ls m1 -> step m1 e m2 -> run m (match e with Some e => ls ++ [e] | None => ls end) m2.

(** [sem_init]: [None] is [EINVAL]. *)
Definition sem_init (value : Z) (n : nat) : option sem :=
  if value >? SEM_VALUE_MAX then None else Some (Sem value 0 (replicate n Outside)).

Definition sem_getvalue (m : sem) : Z := sem_value m.

(** * Counting tokens *)

Definition delta (e : event) : Z := match e with Posted => 1 | Acquired => -1 | _ => 0 end.
Definition posts (ls : list event) : Z :=
  Z.of_nat (tally (fun e => match e with Posted => true | _ => false end) ls).
Definition balance (ls : list event) : Z := foldr Z.add 0 (delta <$> ls).

Lemma balance_snoc ls e : balance (ls ++ [e]) = balance ls + delta e.
Proof. unfold balance. induction ls as [|l ls IH]; cbn; [lia|]. cbn in IH. rewrite IH. lia. Qed.

Lemma posts_snoc ls e : posts (ls ++ [e]) = posts ls + Z.max 0 (delta e).
Proof.
  unfold posts. induction ls as [|l ls IH]; cbn [app]; rewrite !tally_cons; [by destruct e|].
  rewrite !Nat2Z.inj_add, IH. lia.
Qed.

Lemma balance_posts ls : balance ls <= posts ls.
Proof.
  unfold balance, posts. induction ls as [|l ls IH]; [done|]. cbn [fmap list_fmap foldr]. rewrite tally_cons.
  destruct l; cbn in *; lia.
Qed.

(** * The invariant *)

Definition sleeps (p : pc) : bool := match p with Asleep => true | _ => false end.
(** About to look at the value in the loop of [sem_timedwait], or to wake a sleeper. *)
Definition helps (p : pc) : bool := match p with Load | Cas _ | PostWake => true | _ => false end.
Definition counted (p : pc) : bool :=
  match p with Load | Wait | Asleep | Cas _ | Leave _ => true | _ => false end.
(** An exchange that would take a token from a value that is not positive. *)
Definition wrong (p : pc) : bool := match p with TryCas v _ | Cas v => v <=? 0 | _ => false end.

Record sem_ok (m : sem) (net : Z) : Prop := {
  ok_value : sem_value m = net;
  ok_nonneg : 0 <= net;
  ok_waiters : sem_waiters m = Z.of_nat (tally counted (pcs m));
  ok_small : Z.of_nat (length (pcs m)) < 2 ^ 31;
  ok_right : tally wrong (pcs m) = 0%nat;
  ok_sleep : (0 < tally sleeps (pcs m))%nat -> net <= Z.of_nat (tally helps (pcs m)) }.

Lemma none_asleep l : Forall (fun p => p <> Asleep) l -> tally sleeps l = 0%nat.
Proof. induction 1 as [|p l Hp _ IH]; [done|]. rewrite tally_cons, IH. by destruct p. Qed.

Abbreviation change e := (from_option delta 0 e).

(** A step that moves one thread, from what it does to the counts. *)
Lemma sem_ok_move m net k p q v w net' :
  sem_ok m net -> pcs m !! k = Some p -> v = net' -> 0 <= net' -> wrong q = false ->
  w = sem_waiters m + Z.of_nat (one (counted q)) - Z.of_nat (one (counted p)) ->
  (sleeps q = true -> sleeps p = false -> net' = 0) ->
  net' - Z.of_nat (one (helps q)) <= net - Z.of_nat (one (helps p)) \/ net' = 0 ->
  sem_ok (Sem v w (<[k := q]> (pcs m))) net'.
Proof.
  intros [Hv H0 Hw Hl Hr Hs] Hk -> Hn Hq Hw' Hsq Hh. destruct m as [v0 w0 l]. cbn [sem_value sem_waiters pcs] in *.
  pose proof (tally_insert counted l k p q Hk). pose proof (tally_insert wrong l k p q Hk).
  pose proof (tally_insert sleeps l k p q Hk). pose proof (tally_insert helps l k p q Hk). rewrite Hq in *.
  split; cbn [sem_value sem_waiters pcs]; [done|done|lia|by rewrite length_insert|cbn in *; lia|].
  intros Hsl. destruct (sleeps q), (sleeps p); cbn [one] in *; try lia.
Qed.

Lemma step_sem_ok m net e m' :
  sem_ok m net -> step m e m' -> net + change e <= SEM_VALUE_MAX -> sem_ok m' (net + change e).
Proof.
  intros Hm Hs Hmax. pose proof Hm as [Hv H0 Hw Hl Hr Hsl]. unfold SEM_VALUE_MAX in Hmax.
  pose proof (tally_length counted (pcs m)) as Hc.
  assert (Hpos : forall k v b, pcs m !! k = Some (TryCas v b) \/ pcs m !! k = Some (Cas v) -> 0 < v).
  { intros k v b Hk. destruct (Z.leb_spec v 0) as [Hle|]; [|lia].
    assert (Hone : (1 <= tally wrong (pcs m))%nat); [|lia].
    apply Z.leb_le in Hle. destruct Hk as [Hk|Hk]; by eapply tally_at. }
  destruct Hs as [k wt Hk|k p weak r Hk Ha|k p Hk Hp|k Hk|k Hk|k j Hk Hj|k Hk Hn]; cbn [from_option] in *; rewrite ?Z.add_0_r in *.
  - by eapply sem_ok_move; try done; cbn; try lia.
  - assert (Htest : forall wt q, trywait_test (sem_value m) wt = q -> change q.2 = 0 /\ wrong q.1 = false /\
       counted q.1 = false /\ sleeps q.1 = false /\ helps q.1 = false).
    { intros wt q <-. unfold trywait_test. destruct (Z.eqb_spec (sem_value m) 0); [by destruct wt|].
      destruct (Z.ltb_spec (sem_value m) 0); [done|]. cbn. split_and!; try done. apply Z.leb_gt. lia. }
    destruct p as [|wt|v wt| | | | |v|ok|]; try done; injection Ha as <-; unfold move.
    + destruct (Htest wt _ eq_refl) as (E1 & E2 & E3 & E4 & E5). cbn [fst snd]. rewrite E1, Z.add_0_r.
      eapply sem_ok_move; try done; rewrite ?E3, ?E4, ?E5; cbn; lia || done.
    + destruct ((sem_value m =? v) && negb weak) eqn:E.
      * apply andb_true_iff in E as [E%Z.eqb_eq _]. specialize (Hpos k v wt (or_introl Hk)). cbn in *.
        eapply sem_ok_move; try done; cbn; rewrite ?s32_small by lia; lia || done.
      * destruct (Htest wt _ eq_refl) as (E1 & E2 & E3 & E4 & E5). cbn [fst snd]. rewrite E1, Z.add_0_r.
        eapply sem_ok_move; try done; rewrite ?E3, ?E4, ?E5; cbn; lia || done.
    + cbn. rewrite Z.add_0_r. eapply sem_ok_move; try done; cbn; try lia.
      pose proof (tally_insert counted (pcs m) k Enter Load Hk) as T.
      pose proof (tally_length counted (<[k := Load]> (pcs m))) as T'. rewrite length_insert in T'. cbn in T.
      rewrite s32_small; lia.
    + cbn. rewrite Z.add_0_r. destruct (Z.eqb_spec (sem_value m) 0) as [E|E];
        [|destruct (Z.gtb_spec (sem_value m) 0)]; eapply sem_ok_move; try done; cbn; try lia.
    + cbn. rewrite Z.add_0_r. destruct (Z.eqb_spec (sem_value m) 0) as [E|E];
        eapply sem_ok_move; try done; cbn; try lia.
    + pose proof (Hpos k v true (or_intror Hk)) as Hv0. destruct ((sem_value m =? v) && negb weak) eqn:E; cbn in *.
      * apply andb_true_iff in E as [E%Z.eqb_eq _].
        eapply sem_ok_move; try done; cbn; rewrite ?s32_small by lia; lia || done.
      * rewrite Z.add_0_r. eapply sem_ok_move; try done; cbn; lia || done.
    + pose proof (tally_at counted _ _ _ Hk eq_refl) as T.
      assert (E : change (if ok then None else Some GaveUp) = 0) by by destruct ok. cbn [fst snd]. rewrite E, Z.add_0_r.
      eapply sem_ok_move; try done; cbn; try lia. rewrite s32_small; lia.
  - destruct Hp as [->| ->]; by eapply sem_ok_move; try done; cbn; try lia.
  - by eapply sem_ok_move; try done; cbn; try lia.
  - cbn in *. rewrite Hv, s32_small by lia. eapply sem_ok_move; try done; cbn; try lia.
  - unfold goto. cbn [sem_value sem_waiters pcs].
    destruct m as [v w l]. cbn [sem_value sem_waiters pcs] in *.
    assert (Hjk : (<[k := Outside]> l) !! j = Some Asleep).
    { rewrite list_lookup_insert_ne; [done|]. intros ->. congruence. }
    split; cbn [sem_value sem_waiters pcs]; [done|done| |by rewrite !length_insert|..];
      tally_step Hjk; tally_step Hk; lia.
  - pose proof (none_asleep _ Hn) as Hz. destruct m as [v w l]. cbn [sem_value sem_waiters pcs goto] in *.
    split; cbn [sem_value sem_waiters pcs goto]; [done|done| |by rewrite length_insert|..];
      tally_step Hk; lia.
Qed.

(** No caller is told that the semaphore is invalid. *)
Lemma step_valid m net e m' : sem_ok m net -> step m e m' -> e <> Some Invalid.
Proof.
  intros [Hv H0 _ _ _ _] Hs.
  assert (Htest : forall wt, (trywait_test (sem_value m) wt).2 <> Some Invalid).
  { intros wt. unfold trywait_test. destruct (Z.eqb_spec (sem_value m) 0); [by destruct wt|].
    destruct (Z.ltb_spec (sem_value m) 0); [lia|done]. }
  destruct Hs as [| k p weak r Hk Ha | | | | |]; try done.
  destruct p as [|wt|v wt| | | | |v|ok|]; try done; injection Ha as <-; cbn [fst snd]; try done; try apply Htest.
  - by destruct ((sem_value m =? v) && negb weak); [|apply Htest].
  - by destruct ((sem_value m =? v) && negb weak).
  - by destruct ok.
Qed.

Lemma sem_init_ok value n m :
  0 <= value -> Z.of_nat n < 2 ^ 31 -> sem_init value n = Some m -> value <= SEM_VALUE_MAX /\ sem_ok m value.
Proof.
  intros H0 Hn. unfold sem_init. destruct (Z.gtb_spec value SEM_VALUE_MAX); [done|]. intros Hm. injection Hm as <-.
  split; [lia|]. split; cbn [sem_value sem_waiters pcs]; rewrite ?tally_replicate by done; try done; try lia.
  by rewrite length_replicate.
Qed.

Lemma run_sem_ok value m0 ls m :
  sem_ok m0 value -> run m0 ls m -> value + posts ls <= SEM_VALUE_MAX ->
  sem_ok m (value + balance ls) /\ Invalid ∉ ls.
Proof.
  intros H0 Hr. induction Hr as [|ls m1 e m2 Hr IH Hs]; intros Hmax.
  - cbn. rewrite Z.add_0_r. split; [done|set_solver].
  - pose proof (balance_posts ls) as Hb. destruct e as [e|]; cbn in *.
    + rewrite posts_snoc in Hmax. destruct IH as [IH Hni]; [lia|]. pose proof (step_valid _ _ _ _ IH Hs) as Hne.
      rewrite balance_snoc, Z.add_assoc. split; [|set_solver].
      apply (step_sem_ok _ _ _ _ IH Hs). cbn. lia.
    + destruct IH as [IH Hni]; [done|]. split; [|done]. rewrite <- (Z.add_0_r (_ + _)).
      apply (step_sem_ok _ _ _ _ IH Hs). cbn. lia.
Qed.

(** * Main results *)


(** An access of a thread, as a step. *)
Lemma go k weak m p r m' :
  pcs m !! k = Some p -> access weak p (sem_value m) (sem_waiters m) = Some r -> move m k r = m' ->
  step m r.2.2 m'.
Proof. intros Hk Ha <-. by eapply go_on. Qed.


(** [sem_post] has no check: at [SEM_VALUE_MAX] the value becomes negative, and [sem_trywait] then
    fails with [EINVAL]. *)
Lemma sem_post_overflows :
  exists m m', sem_init SEM_VALUE_MAX 1 = Some m /\ step m (Some Posted) m' /\
    sem_getvalue m' = - 2 ^ 31 /\ forall wait, trywait_test (sem_getvalue m') wait = (Outside, Some Invalid).
Proof.
  eexists _, _. split; [reflexivity|]. split; [by apply (do_post _ 0%nat)|]. split; [reflexivity|]. by intros [].
Qed.
