(* ===== verification/Barrier.v ===== *)
(** Barriers: [libc/thread/pthread_barrier_init.c] and [libc/thread/pthread_barrier_wait.c],
    [pthread_barrier_exit] included. Every atomic access is a step, together with the tests of
    what it returned; a weak compare-exchange may fail for no reason. [cosmo_futex_wait] sleeps
    when the word is the expected one and else returns at once, and a sleeper may wake up for no
    reason; the wakes wake all the sleepers of their word. The step after which what a call
    returns is settled is labelled with it. *)
From S2P Require Import Prelude Threads.
#[local] Open Scope Z_scope.

Definition BARRIER_MAX : Z := 0x7fffffff.

(** * Program counters *)

Inductive pc :=
| Outside
| Enter                   (** before the increment of [_entered] *)
| LoadRound (entered : Z) (** before the load of [_round] that follows it *)
| Full (entered : Z)      (** before the wait for [_entered] to be reset *)
| FullAsleep
| FullLoad                (** after it, before the load of [_entered] *)
| Cas (entered round : Z)       (** before the compare-exchange of [_round] *)
| WakeRound (entered round : Z) (** before the wake of its sleepers *)
| Wait (entered round : Z)      (** before the wait for [_round] to change *)
| Asleep (entered round : Z)
| LoadAgain (entered : Z)       (** after it, before the load of [_round] *)
| Exit (entered : Z)      (** before the increment of [_exited] *)
| SetRound                (** before the three stores of [pthread_barrier_exit] and its wake *)
| SetExited
| SetEntered
| WakeFull.

(** A thread took its place, or leaves, with [PTHREAD_BARRIER_SERIAL_THREAD] or 0. *)
Inductive event := Arrives | Leaves (serial : bool).

(** The three counters and the threads. *)
Record barrier := Bar { entered : Z; exited : Z; round : Z; pcs : list pc }.

Section Wait.
(** [_count]. *)
Context (count : Z).

Definition max_entered : Z := BARRIER_MAX - BARRIER_MAX mod count.

(** * Accesses *)

(** The loops of [pthread_barrier_wait] with [e] the thread's number and [r] the round loaded. *)
Definition decide_round (e r : Z) : pc :=
  if u32 (r + count) <=? e then Cas e r else if e >? r then Wait e r else Exit e.

(** One access of [pthread_barrier_exit]: the counters, where the thread goes and what the caller
    sees. *)
Definition exit_access (p : pc) (E X R : Z) : option (Z * Z * Z * (pc * option event)) :=
  match p with
  | Exit e =>
    let x := u32 (X + 1) in
    Some (E, x, R, (if x =? max_entered then SetRound else Outside, Some (Leaves (e mod count =? 0))))
  | SetRound => Some (E, X, 0, (SetExited, None))
  | SetExited => Some (E, 0, R, (SetEntered, None))
  | SetEntered => Some (0, X, R, (WakeFull, None))
  | _ => None
  end.

(** One access of [pthread_barrier_wait]. *)
Definition access (weak : bool) (p : pc) (E X R : Z) : option (Z * Z * Z * (pc * option event)) :=
  match p with
  | Enter =>
    let e := u32 (E + 1) in
    Some (e, X, R, (LoadRound e, if e <=? max_entered then Some Arrives else None))
  | LoadRound e => Some (E, X, R, (if e <=? max_entered then decide_round e R else Full e, None))
  | Full e => Some (E, X, R, (if E =? e then FullAsleep else FullLoad, None))
  | FullLoad => Some (E, X, R, (if E >? max_entered then Full E else Enter, None))
  | Cas e r =>
    Some (if (R =? r) && negb weak then (E, X, e - e mod count, (WakeRound e (e - e mod count), None))
          else (E, X, R, (decide_round e R, None)))
  | Wait e r => Some (E, X, R, (if R =? r then Asleep e r else LoadAgain e, None))
  | LoadAgain e => Some (E, X, R, (if e >? R then Wait e R else Exit e, None))
  | Exit _ | SetRound | SetExited | SetEntered => exit_access p E X R
  | Outside | FullAsleep | Asleep _ _ | WakeRound _ _ | WakeFull => None
  end.

Definition move (b : barrier) (k : nat) (r : Z * Z * Z * (pc * option event)) : barrier :=
  Bar r.1.1.1 r.1.1.2 r.1.2 (<[k := r.2.1]> (pcs b)).

(** A step that changes the threads only. *)
Definition with_pcs (b : barrier) (l : list pc) : barrier := Bar (entered b) (exited b) (round b) l.

Definition woken (p : pc) : pc := match p with Asleep e _ => LoadAgain e | _ => p end.
Definition woken_full (p : pc) : pc := match p with FullAsleep => FullLoad | _ => p end.

Inductive step (b : barrier) : nat -> option event -> barrier -> Prop :=
| call_wait k : pcs b !! k = Some Outside -> step b k None (with_pcs b (<[k := Enter]> (pcs b)))
| go_on k p weak r :
    pcs b !! k = Some p -> access weak p (entered b) (exited b) (round b) = Some r ->
    step b k r.2.2 (move b k r)
| wake_round k e r :
    pcs b !! k = Some (WakeRound e r) ->
    step b k None (with_pcs b (<[k := if e <=? r then Exit e else Wait e r]> (woken <$> pcs b)))
| wake_full k :
    pcs b !! k = Some WakeFull -> step b k None (with_pcs b (<[k := Outside]> (woken_full <$> pcs b)))
| wake_early k e r :
    pcs b !! k = Some (Asleep e r) -> step b k None (with_pcs b (<[k := LoadAgain e]> (pcs b)))
| wake_full_early k :
    pcs b !! k = Some FullAsleep -> step b k None (with_pcs b (<[k := FullLoad]> (pcs b))).

(** A run with what its callers see. *)
Inductive run (b : barrier) : list (nat * event) -> barrier -> Prop :=
| run_nil : run b [] b
| run_step ls b1 k e b2 :
    run b ls b1 -> step b1 k e b2 ->
    run b (match e with Some e => ls ++ [(k, e)] | None => ls end) b2.

(** [pthread_barrier_init], for [n] threads: [None] is [EINVAL]. *)
Definition pthread_barrier_init (n : nat) : option barrier :=
  if (count =? 0) || (count >=? BARRIER_MAX) then None else Some (Bar 0 0 0 (replicate n Outside)).

(** * The specification *)

(** How many threads arrived so far, and the number of each thread that waits. *)
Definition spec : Type := Z * list (option Z).

(** The last number of the round of [t]. *)
Definition round_end (t : Z) : Z := t + - t mod count.

(** A thread that arrives takes the next number. It leaves when its round is full, and is the
    serial one when its number is the last of the round. *)
Definition spec_step (s : spec) (ke : nat * event) : option spec :=
  let '(arrived, tickets) := s in
  let '(k, e) := ke in
  match e, tickets !! k with
  | Arrives, Some None => Some (arrived + 1, <[k := Some (arrived + 1)]> tickets)
  | Leaves serial, Some (Some t) =>
    if (round_end t <=? arrived) && Bool.eqb serial (t =? round_end t)
    then Some (arrived, <[k := None]> tickets) else None
  | _, _ => None
  end.

Fixpoint spec_run (s : spec) (ls : list (nat * event)) : option spec :=
  match ls with
  | [] => Some s
  | l :: ls' => s ← spec_step s l; spec_run s ls'
  end.
End Wait.
