(* ===== verification/BarrierFacts.v ===== *)
(** Facts on [Barrier.v]: a barrier implements the specification that hands out numbers and lets a
    thread go when its round is full, across the resets of the counters; and it does not
    deadlock. *)
From S2P Require Import Prelude Threads Barrier.
#[local] Open Scope Z_scope.

Section Facts.
Context (count : Z) (n : nat).
Hypothesis count_range : 0 < count < BARRIER_MAX.
Hypothesis few_threads : Z.of_nat n < 2 ^ 31.
Abbreviation M := (max_entered count).

(** * Multiples of the count *)

Lemma max_bounds : count <= M <= BARRIER_MAX.
Proof.
  unfold max_entered. pose proof (Z.mod_pos_bound BARRIER_MAX count ltac:(lia)).
  pose proof (Z.div_mod BARRIER_MAX count ltac:(lia)) as Hd.
  pose proof (Z.div_str_pos BARRIER_MAX count ltac:(lia)). split; [nia|lia].
Qed.

Lemma max_divide : (count | M).
Proof. exists (BARRIER_MAX / count). unfold max_entered. rewrite Z.mod_eq by lia. ring. Qed.

(** Multiples are [count] apart. *)
Lemma divide_gap a b : (count | a) -> (count | b) -> a < b -> a + count <= b.
Proof. intros [x ->] [y ->] H. assert (x + 1 <= y) by nia. nia. Qed.

Lemma next_divide e : (count | e - e mod count).
Proof. exists (e / count). rewrite Z.mod_eq by lia. ring. Qed.

Lemma round_end_divide t : (count | round_end count t).
Proof.
  unfold round_end. exists (- (- t / count)). rewrite Z.mod_eq by lia. ring.
Qed.

Lemma round_end_bounds t : t <= round_end count t < t + count.
Proof. unfold round_end. pose proof (Z.mod_pos_bound (- t) count ltac:(lia)). lia. Qed.

(** The end of the round of [t] is the least multiple from [t] on. *)
Lemma round_end_least t q : (count | q) -> t <= q -> round_end count t <= q.
Proof.
  intros Hq Hle. destruct (Z.le_gt_cases (round_end count t) q) as [|Hgt]; [done|].
  pose proof (divide_gap _ _ Hq (round_end_divide t) Hgt). pose proof (round_end_bounds t). lia.
Qed.

Lemma round_end_shift base t : (count | base) -> round_end count (base + t) = base + round_end count t.
Proof.
  intros [x ->]. unfold round_end. replace (- (x * count + t)) with (- t + - x * count) by ring.
  rewrite Z.mod_add by lia. ring.
Qed.

Lemma mod_round_end t : (t mod count =? 0) = (t =? round_end count t).
Proof.
  apply Bool.eq_iff_eq_true. rewrite !Z.eqb_eq. split.
  - intros H. apply Z.mod_divide in H; [|lia]. pose proof (round_end_bounds t).
    pose proof (round_end_least t t H ltac:(lia)). lia.
  - intros H. apply Z.mod_divide; [lia|]. rewrite H. apply round_end_divide.
Qed.

(** * The invariant *)

(** The number of a thread that took its place and did not leave. *)
Definition ticket (p : pc) : option Z :=
  match p with
  | LoadRound e => if e <=? M then Some e else None
  | Cas e _ | WakeRound e _ | Wait e _ | Asleep e _ | LoadAgain e | Exit e => Some e
  | _ => None
  end.

Definition active (p : pc) : bool := if ticket p then true else false.
Definition resets (p : pc) : bool := match p with SetRound | SetExited | SetEntered => true | _ => false end.
(** Found the counter past its maximum. *)
Definition overflows (p : pc) : bool :=
  match p with LoadRound e => M <? e | Full _ | FullAsleep | FullLoad => true | _ => false end.
Definition wakes (p : pc) : bool := match p with WakeRound _ _ => true | _ => false end.
Definition wakes_full (p : pc) : bool := match p with WakeFull => true | _ => false end.
(** Will move the round up to [q]. *)
Definition pushes (q : Z) (p : pc) : bool :=
  match p with LoadRound e | Cas e _ => e =? q | _ => false end.

(** What a thread knows of the counters; [w] and [f] count the threads about to wake others. *)
Definition thread_ok (E X R : Z) (w f : nat) (p : pc) : Prop :=
  match p with
  | LoadRound e => 1 <= e /\ (e <= M -> e <= E)
  | Full e => M < e
  | FullAsleep => M < E \/ (0 < f)%nat
  | Cas e r => (count | r) /\ 0 <= r <= R /\ r + count <= e <= M /\ e <= E
  | WakeRound e r => (count | r) /\ r <= R /\ 1 <= e <= M /\ e <= E
  | Wait e r => (count | r) /\ r <= R /\ r < e /\ 1 <= e <= M /\ e <= E
  | Asleep e r => r < e /\ 1 <= e <= M /\ e <= E /\ (r = R \/ (0 < w)%nat)
  | LoadAgain e => 1 <= e <= M /\ e <= E
  | Exit e => e <= R /\ 1 <= e <= M
  | SetExited => R = 0
  | SetEntered => R = 0 /\ X = 0
  | _ => True
  end.

Record counts_ok (E X R : Z) (l : list pc) : Prop := {
  ok_entered : 0 <= E <= M + Z.of_nat (tally overflows l);
  ok_length : length l = n;
  ok_resets : (tally resets l <= 1)%nat;
  ok_reset : tally resets l = 1%nat -> tally active l = 0%nat /\ M <= E;
  ok_normal : tally resets l = 0%nat ->
    0 <= X < M /\ X + Z.of_nat (tally active l) = Z.min E M /\ (count | R) /\ 0 <= R <= Z.min E M;
  ok_cover : tally resets l = 0%nat -> forall q, (count | q) -> R < q <= Z.min E M ->
    (0 < tally (pushes q) l)%nat }.

Definition threads_ok (E X R : Z) (l : list pc) : Prop :=
  forall k p, l !! k = Some p -> thread_ok E X R (tally wakes l) (tally wakes_full l) p.

Definition bar_ok (b : barrier) : Prop :=
  counts_ok (entered b) (exited b) (round b) (pcs b) /\ threads_ok (entered b) (exited b) (round b) (pcs b).

(** What the specification knows, when [base] numbers were given out before the last reset. *)
Definition tickets (base : Z) (l : list pc) : list (option Z) := (fun p => Z.add base <$> ticket p) <$> l.
Definition abs (base : Z) (b : barrier) : spec := (base + Z.min (entered b) M, tickets base (pcs b)).

(** No wrap-around. *)
Lemma entered_small E X R l : counts_ok E X R l -> 0 <= E < 2 ^ 32 - 1.
Proof.
  intros [HE Hl _ _ _ _]. pose proof (tally_length overflows l). pose proof max_bounds. unfold BARRIER_MAX in *. lia.
Qed.

Definition sleeps (p : pc) : bool := match p with Asleep _ _ => true | _ => false end.
Definition sleeps_full (p : pc) : bool := match p with FullAsleep => true | _ => false end.

(** What another thread's step leaves true. *)
Lemma thread_ok_next E X R w f E' X' R' w' f' p :
  thread_ok E X R w f p ->
  (active p = true -> E <= E' /\ R <= R') -> (resets p = true -> X = X' /\ R = R') ->
  (sleeps p = true -> R = R' /\ (0 < w -> 0 < w')%nat \/ (0 < w')%nat) ->
  (sleeps_full p = true -> M < E \/ (0 < f)%nat -> M < E' \/ (0 < f')%nat) ->
  thread_ok E' X' R' w' f' p.
Proof.
  unfold active.
  destruct p as [| |e|e| | |e r|e r|e r|e r|e|e| | | |]; cbn [thread_ok ticket resets sleeps sleeps_full];
    intros H Ha Hr Hs Hf; try done; try (destruct (Ha eq_refl); intuition lia);
    try (destruct (Hr eq_refl); intuition lia); [|by apply Hf].
  destruct (Z.leb_spec e M) as [Hle|Hgt]; [destruct (Ha eq_refl)|]; intuition lia.
Qed.

(** * Steps *)

Lemma tickets_lookup base l k p : l !! k = Some p -> tickets base l !! k = Some (Z.add base <$> ticket p).
Proof. intros Hk. unfold tickets. by rewrite list_lookup_fmap, Hk. Qed.

Lemma tickets_insert base l k q :
  tickets base (<[k := q]> l) = <[k := Z.add base <$> ticket q]> (tickets base l).
Proof. exact (list_fmap_insert (fun p => Z.add base <$> ticket p) l k q). Qed.

Lemma tickets_same base l k p q :
  l !! k = Some p -> ticket q = ticket p -> tickets base (<[k := q]> l) = tickets base l.
Proof.
  intros Hk Hq. rewrite tickets_insert, Hq. apply list_insert_id. by apply tickets_lookup.
Qed.

(** The other threads when thread [k] moves. *)
Lemma threads_move E X R l k p q E' X' R' :
  threads_ok E X R l -> l !! k = Some p ->
  let l' := <[k := q]> l in
  thread_ok E' X' R' 0 0 q ->
  (forall j p', j <> k -> l !! j = Some p' ->
     (active p' = true -> E <= E' /\ R <= R') /\ (resets p' = true -> X = X' /\ R = R') /\
     (sleeps p' = true -> R = R' /\ (0 < tally wakes l -> 0 < tally wakes l')%nat \/ (0 < tally wakes l')%nat) /\
     (sleeps_full p' = true -> M < E \/ (0 < tally wakes_full l)%nat -> M < E' \/ (0 < tally wakes_full l')%nat)) ->
  threads_ok E' X' R' l'.
Proof.
  intros Ht Hk l' Hq Ho j p' Hj.
  apply list_lookup_insert_Some in Hj as [(<- & <- & _)|[Hne Hj]].
  - eapply thread_ok_next; [exact Hq|..]; intros; intuition lia.
  - destruct (Ho j p') as (H1 & H2 & H3 & H4); [congruence|done|]. exact (thread_ok_next _ _ _ _ _ _ _ _ _ _ _ (Ht j p' Hj) H1 H2 H3 H4).
Qed.

(** What the step of the thread at [Hk] to [q] does to every count. *)
Ltac note_counts Hk q :=
  lazymatch type of Hk with
  | ?l !! ?k = Some _ =>
    pose proof (tally_insert active l k _ q Hk) as Ta; pose proof (tally_insert resets l k _ q Hk) as Tr;
    pose proof (tally_insert overflows l k _ q Hk) as To; pose proof (tally_insert wakes l k _ q Hk) as Tw;
    pose proof (tally_insert wakes_full l k _ q Hk) as Tf
  end.

Lemma cover_move q0 l k p q :
  l !! k = Some p -> (pushes q0 p = true -> pushes q0 q = true) ->
  (0 < tally (pushes q0) l)%nat -> (0 < tally (pushes q0) (<[k := q]> l))%nat.
Proof.
  intros Hk Hpq H. pose proof (tally_insert (pushes q0) l k p q Hk) as T.
  destruct (pushes q0 p); [rewrite (Hpq eq_refl) in T|]; cbn in T; lia.
Qed.

(** A thread that changes no counter and does not reset. *)
Lemma bar_ok_look b k p q :
  bar_ok b -> pcs b !! k = Some p -> active q = active p -> resets p = false -> resets q = false ->
  wakes q = wakes p \/ tally sleeps (pcs b) = 0%nat ->
  wakes_full q = wakes_full p \/ tally sleeps_full (pcs b) = 0%nat ->
  overflows q = overflows p \/ overflows q = true \/ entered b <= M ->
  (forall q0, (count | q0) -> round b < q0 <= Z.min (entered b) M -> (count | round b) -> pushes q0 p = true -> pushes q0 q = true) ->
  thread_ok (entered b) (exited b) (round b) 0 0 q ->
  bar_ok (with_pcs b (<[k := q]> (pcs b))).
Proof.
  destruct b as [E X R l]. intros [[HE Hl Hr1 Hr Hn Hc] Ht] Hk Ea E1 E2 Ew Ef Ho Hpush Hq.
  cbn [entered exited round pcs] in *. note_counts Hk q. rewrite Ea, E1, E2 in *. cbn [one] in *.
  assert (Tr' : tally resets (<[k := q]> l) = tally resets l) by lia.
  assert (Ta' : tally active (<[k := q]> l) = tally active l) by lia.
  split; [split|]; cbn [entered exited round pcs with_pcs]; rewrite ?Tr', ?Ta'; try done.
  - destruct Ho as [Ho|[Ho|Ho]]; [rewrite Ho in To|rewrite Ho in To|]; destruct (overflows p); cbn [one] in To; lia.
  - by rewrite length_insert.
  - intros H0 q0 Hq0 Hlt. specialize (Hc H0 q0 Hq0 Hlt). destruct (Hn H0) as (_ & _ & Hd & _).
    eapply cover_move; [done| |done]. apply Hpush; [done|lia|done].
  - apply (threads_move E X R l k p q); [done..|]. intros j p' _ Hj. split_and!; try done; intros Hs.
    + left. split; [done|]. destruct Ew as [Ew|Ew]; [rewrite Ew in Tw; lia|].
      pose proof (tally_at _ _ _ _ Hj Hs). lia.
    + destruct Ef as [Ef|Ef]; [rewrite Ef in Tf; lia|]. pose proof (tally_at _ _ _ _ Hj Hs). lia.
Qed.

(** Nobody resets while a thread is active, and only one thread resets. *)
Lemma active_normal E X R l k p :
  counts_ok E X R l -> l !! k = Some p -> active p = true -> tally resets l = 0%nat.
Proof.
  intros [_ _ Hr1 Hr _ _] Hk Ha. pose proof (tally_at active l k p Hk Ha).
  destruct (tally resets l) as [|[|m]] eqn:E0; [done| |lia]. destruct (Hr eq_refl). lia.
Qed.

Lemma tally_none {A} (P : A -> bool) (l : list A) k p :
  tally P l = 0%nat -> l !! k = Some p -> P p = false.
Proof. intros H0 Hk. destruct (P p) eqn:E; [|done]. pose proof (tally_at P l k p Hk E). lia. Qed.

Lemma enter_ok b k :
  bar_ok b -> pcs b !! k = Some Enter ->
  bar_ok (Bar (entered b + 1) (exited b) (round b) (<[k := LoadRound (entered b + 1)]> (pcs b))).
Proof.
  destruct b as [E X R l]. intros [[HE Hl Hr1 Hr Hn Hc] Ht] Hk. cbn [entered exited round pcs] in *.
  note_counts Hk (LoadRound (E + 1)). unfold active at 2 4 in Ta.
  cbn [ticket resets overflows wakes wakes_full one] in *.
  assert (Tr' : tally resets (<[k := LoadRound (E + 1)]> l) = tally resets l) by lia.
  split; [split|]; cbn [entered exited round pcs]; rewrite ?Tr'; try done.
  - destruct (Z.ltb_spec M (E + 1)); cbn [one] in To; lia.
  - by rewrite length_insert.
  - intros H1. destruct (Hr H1). split; [|lia]. destruct (Z.leb_spec (E + 1) M); cbn [one] in Ta; lia.
  - intros H0. destruct (Hn H0) as (HX & Hsum & Hd & HR). split_and!; try done; try lia.
    destruct (Z.leb_spec (E + 1) M); cbn [one] in Ta; lia.
  - intros H0 q0 Hq0 Hlt. destruct (Z.eq_dec q0 (E + 1)) as [->|Hne].
    + apply (tally_at _ _ k (LoadRound (E + 1))); [|cbn; lia].
      apply list_lookup_insert_eq. by eapply lookup_lt_Some.
    + eapply cover_move; [done|done|]. apply Hc; [done..|lia].
  - apply (threads_move E X R l k Enter); try done; cbn [thread_ok]; [lia|].
    intros; split_and!; intros; try done; lia.
Qed.

(** The exchange of [_round]. *)
Lemma push_ok b k e :
  bar_ok b -> pcs b !! k = Some (Cas e (round b)) ->
  bar_ok (Bar (entered b) (exited b) (e - e mod count)
    (<[k := WakeRound e (e - e mod count)]> (pcs b))).
Proof.
  destruct b as [E X R l]. intros [Hcs Ht] Hk. cbn [entered exited round pcs] in *.
  pose proof (active_normal _ _ _ _ _ _ Hcs Hk eq_refl) as H0. destruct Hcs as [HE Hl Hr1 Hr Hn Hc].
  destruct (Hn H0) as (HX & Hsum & Hd & HR). pose proof (Ht k _ Hk) as (_ & HR0 & He & HeE).
  pose proof (Z.mod_pos_bound e count ltac:(lia)) as Hmod. pose proof (next_divide e) as Hnext.
  set (q := WakeRound e (e - e mod count)). note_counts Hk q. cbn in Ta, Tr, To, Tw, Tf.
  assert (Hup : R <= e - e mod count).
  { destruct (Z.le_gt_cases R (e - e mod count)) as [|Hgt]; [done|].
    pose proof (divide_gap _ _ Hnext Hd Hgt). lia. }
  split; [split|]; cbn [entered exited round pcs]; try lia.
  - by rewrite length_insert.
  - intros _. split_and!; try done; lia.
  - intros _ q0 Hq0 Hlt. eapply cover_move; [done| |apply Hc; [done..|lia]].
    cbn. intros ->%Z.eqb_eq. exfalso. apply Z.mod_divide in Hq0; lia.
  - apply (threads_move E X R l k (Cas e R)); try done.
    + cbn. split_and!; try done; lia.
    + intros j p' _ Hj. pose proof (tally_none _ _ _ _ H0 Hj). split_and!; intros; try congruence; lia.
Qed.

(** The increment of [_exited]. *)
Lemma exit_ok b k e :
  bar_ok b -> pcs b !! k = Some (Exit e) ->
  bar_ok (Bar (entered b) (exited b + 1) (round b)
    (<[k := if exited b + 1 =? M then SetRound else Outside]> (pcs b))).
Proof.
  destruct b as [E X R l]. intros [Hcs Ht] Hk. cbn [entered exited round pcs] in *.
  pose proof (active_normal _ _ _ _ _ _ Hcs Hk eq_refl) as H0. destruct Hcs as [HE Hl Hr1 Hr Hn Hc].
  destruct (Hn H0) as (HX & Hsum & Hd & HR). set (q := if X + 1 =? M then SetRound else Outside).
  pose proof (tally_at active l k _ Hk eq_refl) as Hact.
  note_counts Hk q. cbn in Ta, Tr, To, Tw, Tf.
  assert (Hq : active q = false /\ overflows q = false /\ wakes q = false /\ wakes_full q = false /\
    resets q = (X + 1 =? M) /\ forall q0, pushes q0 q = false).
  { unfold q. by destruct (X + 1 =? M). }
  destruct Hq as (Q1 & Q2 & Q3 & Q4 & Q5 & Q6). rewrite Q1, Q2, Q3, Q4, Q5 in *. cbn [one] in *.
  split; [split|]; cbn [entered exited round pcs]; try (destruct (Z.eqb_spec (X + 1) M); cbn [one] in *; lia).
  - by rewrite length_insert.
  - intros H1. destruct (Z.eqb_spec (X + 1) M); cbn [one] in *; [lia|]. split_and!; try done; lia.
  - intros H1 q0 Hq0 Hlt. eapply cover_move; [done|done|]. by apply Hc.
  - apply (threads_move E X R l k (Exit e)); try done.
    + unfold q. by destruct (X + 1 =? M).
    + intros j p' _ Hj. pose proof (tally_none _ _ _ _ H0 Hj). split_and!; intros; try congruence; lia.
Qed.

(** The stores of 0 to [_round] and [_exited]. *)
Lemma reset_ok b k p q X' R' :
  bar_ok b -> pcs b !! k = Some p -> resets p = true -> resets q = true ->
  thread_ok (entered b) X' R' 0 0 q -> bar_ok (Bar (entered b) X' R' (<[k := q]> (pcs b))).
Proof.
  destruct b as [E X R l]. intros [[HE Hl Hr1 Hr Hn Hc] Ht] Hk Hp Hq Hok. cbn [entered exited round pcs] in *.
  pose proof (tally_at resets l k _ Hk Hp) as H1. destruct (Hr ltac:(lia)) as [Ha HM]. note_counts Hk q.
  assert (Hz : forall p, resets p = true -> active p = false /\ overflows p = false /\ wakes p = false /\ wakes_full p = false).
  { by intros []. }
  destruct (Hz p Hp) as (P1 & P2 & P3 & P4). destruct (Hz q Hq) as (Q1 & Q2 & Q3 & Q4).
  rewrite P1, P2, P3, P4, Q1, Q2, Q3, Q4, Hp, Hq in *. cbn [one] in *.
  split; [split|]; cbn [entered exited round pcs]; try lia; [by rewrite length_insert|].
  apply (threads_move E X R l k p); try done. intros j p' Hne Hj.
  assert (resets p' = false).
  { destruct (resets p') eqn:E1; [|done]. by destruct (Hne (tally_two resets l j k p' p Hj Hk E1 Hp Hr1)). }
  pose proof (tally_none _ _ _ _ Ha Hj) as Hp'. split_and!; intros Hs; try congruence; [|lia].
  by destruct p'.
Qed.

(** The store of 0 to [_entered]. *)
Lemma restart_ok b k :
  bar_ok b -> pcs b !! k = Some SetEntered ->
  exited b = 0 /\ round b = 0 /\ M <= entered b /\ tally active (pcs b) = 0%nat /\
  bar_ok (Bar 0 (exited b) (round b) (<[k := WakeFull]> (pcs b))).
Proof.
  destruct b as [E X R l]. intros [[HE Hl Hr1 Hr Hn Hc] Ht] Hk. cbn [entered exited round pcs] in *.
  pose proof (tally_at resets l k _ Hk eq_refl) as H1. destruct (Hr ltac:(lia)) as [Ha HM].
  destruct (Ht k _ Hk) as [-> ->]. note_counts Hk WakeFull. cbn in Ta, Tr, To, Tw, Tf. pose proof max_bounds.
  split_and!; try done. split; [split|]; cbn [entered exited round pcs]; try lia.
  - by rewrite length_insert.
  - intros _. split_and!; try lia. apply Z.divide_0_r.
  - apply (threads_move E 0 0 l k SetEntered); try done. intros j p' Hne Hj.
    pose proof (tally_none _ _ _ _ Ha Hj) as Hp'. split_and!; intros Hs; try congruence; try done; [by destruct p'|lia].
Qed.

(** * Wakes *)

Lemma tally_fmap {A} (P : A -> bool) (f : A -> A) (l : list A) :
  (forall p, P (f p) = P p) -> tally P (f <$> l) = tally P l.
Proof. intros Hf. induction l as [|p l IH]; [done|]. cbn [fmap list_fmap]. by rewrite !tally_cons, IH, Hf. Qed.

Lemma tally_fmap_none {A} (P : A -> bool) (f : A -> A) (l : list A) :
  (forall p, P (f p) = false) -> tally P (f <$> l) = 0%nat.
Proof. intros Hf. induction l as [|p l IH]; [done|]. cbn [fmap list_fmap]. by rewrite tally_cons, IH, Hf. Qed.

(** Sleepers that wake up all at once. *)
Lemma wake_all_ok b f :
  bar_ok b -> f = woken \/ f = woken_full -> bar_ok (with_pcs b (f <$> pcs b)).
Proof.
  destruct b as [E X R l]. intros [[HE Hl Hr1 Hr Hn Hc] Ht] Hf. cbn [entered exited round pcs] in *.
  assert (Hsame : forall p, active (f p) = active p /\ resets (f p) = resets p /\ overflows (f p) = overflows p /\
    wakes (f p) = wakes p /\ wakes_full (f p) = wakes_full p /\ forall q, pushes q (f p) = pushes q p).
  { destruct Hf as [-> | ->]; by intros []. }
  split; [split|]; cbn [entered exited round pcs with_pcs]; rewrite ?tally_fmap by apply Hsame; try done.
  - by rewrite length_fmap.
  - intros H0 q Hq Hlt. rewrite tally_fmap by (intros p; apply Hsame). by apply Hc.
  - intros k p Hk. rewrite !tally_fmap by apply Hsame. apply list_lookup_fmap_Some in Hk as (p0 & -> & Hk).
    specialize (Ht k p0 Hk). destruct Hf as [-> | ->]; destruct p0; cbn in *; tauto.
Qed.

(** * Refinement *)

(** The state after a step stands for the specification's, with the numbers of before [base']. *)
Definition simulated (base : Z) (b : barrier) (k : nat) (e : option event) (b' : barrier) : Prop :=
  exists base', (count | base') /\ bar_ok b' /\
    match e with
    | None => abs base' b' = abs base b
    | Some e => spec_step count (abs base b) (k, e) = Some (abs base' b')
    end.

(** A thread that changes no counter keeps its number. *)
Lemma look_simulated base b k p q :
  bar_ok b -> (count | base) -> pcs b !! k = Some p -> ticket q = ticket p -> resets p = false -> resets q = false ->
  wakes q = wakes p \/ tally sleeps (pcs b) = 0%nat ->
  wakes_full q = wakes_full p \/ tally sleeps_full (pcs b) = 0%nat ->
  overflows q = overflows p \/ overflows q = true \/ entered b <= M ->
  (forall q0, (count | q0) -> round b < q0 <= Z.min (entered b) M -> (count | round b) -> pushes q0 p = true -> pushes q0 q = true) ->
  thread_ok (entered b) (exited b) (round b) 0 0 q ->
  simulated base b k None (with_pcs b (<[k := q]> (pcs b))).
Proof.
  intros Hb Hbase Hk Hq. intros. exists base. split_and!; [done| |].
  - eapply bar_ok_look; eauto. unfold active. by rewrite Hq.
  - unfold abs, with_pcs. cbn [entered pcs]. by rewrite (tickets_same _ _ _ _ _ Hk Hq).
Qed.

(** The loops of [pthread_barrier_wait]. *)
Lemma decide_simulated base b k p e :
  bar_ok b -> (count | base) -> pcs b !! k = Some p -> p = LoadRound e \/ (exists r, p = Cas e r) ->
  1 <= e <= M -> e <= entered b ->
  simulated base b k None (with_pcs b (<[k := decide_round count e (round b)]> (pcs b))).
Proof.
  intros Hb Hbase Hk Hp He HeE.
  assert (Htick : ticket p = Some e).
  { destruct Hp as [-> |[r ->]]; cbn; [|done]. by rewrite (proj2 (Z.leb_le _ _)) by lia. }
  assert (Hn : tally resets (pcs b) = 0%nat).
  { destruct Hb as [Hcs _]. eapply (active_normal _ _ _ _ k p); [done..|]. unfold active. by rewrite Htick. }
  pose proof Hb as [[_ _ _ _ Hnorm _] _]. destruct (Hnorm Hn) as (_ & _ & Hd & HR).
  pose proof max_bounds as HM. unfold BARRIER_MAX in HM. unfold decide_round. rewrite u32_small by (unfold BARRIER_MAX in *; lia).
  assert (Hsame : resets p = false /\ wakes p = false /\ wakes_full p = false /\ overflows p = false).
  { destruct Hp as [-> |[r ->]]; cbn; [|done]. by rewrite (proj2 (Z.ltb_ge _ _)) by lia. }
  destruct Hsame as (S1 & S2 & S3 & S4).
  assert (Hpush : forall q0, pushes q0 p = true -> e = q0).
  { intros q0. destruct Hp as [-> |[r ->]]; cbn; apply Z.eqb_eq. }
  destruct (Z.leb_spec (round b + count) e); [|destruct (Z.gtb_spec e (round b))];
    (eapply look_simulated; [done..|by rewrite Htick|done|done|by left; rewrite S2|by left; rewrite S3|by left; rewrite S4| |]);
    try (intros q0 Hq0 Hlt _ Hp0%Hpush; subst q0; cbn; try lia; pose proof (divide_gap _ _ Hd Hq0 (proj1 Hlt)); lia);
    cbn; split_and!; try done; lia.
Qed.

Lemma enter_simulated base b k :
  bar_ok b -> (count | base) -> pcs b !! k = Some Enter ->
  simulated base b k (if entered b + 1 <=? M then Some Arrives else None)
    (Bar (entered b + 1) (exited b) (round b) (<[k := LoadRound (entered b + 1)]> (pcs b))).
Proof.
  intros Hb Hbase Hk. exists base. split_and!; [done|by apply enter_ok|].
  destruct (Z.leb_spec (entered b + 1) M) as [Hle|Hgt]; unfold abs; cbn [entered pcs spec_step].
  - rewrite (tickets_lookup _ _ _ _ Hk). cbn [ticket fmap option_fmap option_map]. rewrite tickets_insert.
    cbn [ticket]. rewrite (proj2 (Z.leb_le _ _) Hle). cbn [fmap option_fmap option_map].
    rewrite !Z.min_l by lia. by rewrite Z.add_assoc.
  - rewrite (tickets_same _ _ _ _ _ Hk); [by rewrite !Z.min_r by lia|]. cbn [ticket].
    by rewrite (proj2 (Z.leb_gt _ _) Hgt).
Qed.

Lemma exit_simulated base b k e :
  bar_ok b -> (count | base) -> pcs b !! k = Some (Exit e) ->
  simulated base b k (Some (Leaves (e mod count =? 0)))
    (Bar (entered b) (exited b + 1) (round b) (<[k := if exited b + 1 =? M then SetRound else Outside]> (pcs b))).
Proof.
  intros Hb Hbase Hk. exists base. split_and!; [done|by eapply exit_ok|].
  destruct Hb as [Hcs Ht]. pose proof (active_normal _ _ _ _ _ _ Hcs Hk eq_refl) as H0.
  destruct Hcs as [_ _ _ _ Hn _]. destruct (Hn H0) as (_ & _ & Hd & HR). destruct (Ht k _ Hk) as [HeR He].
  pose proof (round_end_least e _ Hd HeR).
  unfold abs. cbn [entered pcs spec_step]. rewrite (tickets_lookup _ _ _ _ Hk), tickets_insert.
  cbn [ticket fmap option_fmap option_map]. rewrite round_end_shift, (proj2 (Z.leb_le _ _)) by (done || lia).
  replace (base + e =? base + round_end count e) with (e =? round_end count e) by lia.
  rewrite mod_round_end, Bool.eqb_reflx. cbn [andb]. by destruct (exited b + 1 =? M).
Qed.

Lemma tickets_none base base' l : tally active l = 0%nat -> tickets base' l = tickets base l.
Proof.
  intros H0. apply list_eq. intros k. unfold tickets. rewrite !list_lookup_fmap.
  destruct (l !! k) as [p|] eqn:Hk; [|done]. cbn. pose proof (tally_none _ _ _ _ H0 Hk) as Hp.
  unfold active in Hp. by destruct (ticket p).
Qed.

Lemma restart_simulated base b k :
  bar_ok b -> (count | base) -> pcs b !! k = Some SetEntered ->
  simulated base b k None (Bar 0 (exited b) (round b) (<[k := WakeFull]> (pcs b))).
Proof.
  intros Hb Hbase Hk. destruct (restart_ok b k Hb Hk) as (_ & _ & HM & Ha & Hok). exists (base + M).
  pose proof max_bounds. split_and!; [by apply Z.divide_add_r, max_divide|done|].
  unfold abs. cbn [entered pcs]. rewrite (tickets_same _ _ _ _ _ Hk) by done.
  rewrite (tickets_none base), Z.min_l, Z.min_r by (done || lia). by rewrite Z.add_0_r.
Qed.

(** The two wakes. *)
Lemma wake_simulated base b k p q f :
  bar_ok b -> (count | base) -> pcs b !! k = Some p ->
  (f = woken /\ (exists e r, p = WakeRound e r /\ q = if e <=? r then Exit e else Wait e r)) \/
  (f = woken_full /\ p = WakeFull /\ q = Outside) ->
  simulated base b k None (with_pcs b (<[k := q]> (f <$> pcs b))).
Proof.
  intros Hb Hbase Hk Hf. pose proof Hb as [_ Ht].
  assert (Hf' : f = woken \/ f = woken_full) by tauto. pose proof (wake_all_ok b f Hb Hf') as Hb1.
  assert (Hpq : f p = p /\ ticket q = ticket p /\ resets p = false /\ resets q = false /\ overflows q = overflows p /\
    (forall q0, pushes q0 p = false)).
  { destruct Hf as [(-> & e & r & -> & ->)|(-> & -> & ->)]; [|done]. by destruct (e <=? r). }
  destruct Hpq as (P1 & P2 & P3 & P4 & P5 & P6).
  assert (Hk1 : (f <$> pcs b) !! k = Some p) by (rewrite list_lookup_fmap, Hk; cbn; by rewrite P1).
  assert (Habs : abs base (with_pcs b (f <$> pcs b)) = abs base b).
  { unfold abs, with_pcs. cbn [entered pcs]. f_equal. unfold tickets. rewrite <- list_fmap_compose.
    apply list_fmap_ext. intros i p0 _. cbn. destruct Hf' as [-> | ->]; by destruct p0. }
  set (b1 := with_pcs b (f <$> pcs b)) in *. change (f <$> pcs b) with (pcs b1).
  change (with_pcs b (<[k := q]> (pcs b1))) with (with_pcs b1 (<[k := q]> (pcs b1))).
  cut (simulated base b1 k None (with_pcs b1 (<[k := q]> (pcs b1)))).
  { unfold simulated. by rewrite Habs. }
  apply (look_simulated base b1 k p q); try done.
  - destruct Hf as [(-> & _)|(-> & -> & ->)]; [right|by left]. apply tally_fmap_none. by intros [].
  - destruct Hf as [(-> & e & r & -> & ->)|(-> & _)]; [left; by destruct (e <=? r)|right]. apply tally_fmap_none. by intros [].
  - by left.
  - intros q0 _ _ _. by rewrite P6.
  - destruct Hf as [(_ & e & r & -> & ->)|(_ & _ & ->)]; [|done]. destruct (Ht k _ Hk) as (Hd & Hr & He & HE).
    cbn [entered exited round with_pcs]. destruct (Z.leb_spec e r); cbn; split_and!; try done; lia.
Qed.

Lemma step_simulated base b k e b' :
  bar_ok b -> (count | base) -> step count b k e b' -> simulated base b k e b'.
Proof.
  intros Hb Hbase Hs. pose proof Hb as [Hcs Ht]. pose proof (entered_small _ _ _ _ Hcs) as HE.
  destruct Hs as [k Hk|k p weak r Hk Ha|k e r Hk|k Hk|k e r Hk|k Hk].
  - by eapply look_simulated; try done; left.
  - pose proof (Ht k p Hk) as Hp. destruct p as [| |e|e| | |e r0|e r0|e r0|e r0|e|e| | | |]; try done; apply Some_inj in Ha; subst r;
      cbn [thread_ok] in Hp; unfold move; cbn [fst snd].
    + rewrite u32_small by lia. by apply enter_simulated.
    + destruct (Z.leb_spec e M) as [Hle|Hgt]; [eapply decide_simulated; eauto; lia|].
      apply (look_simulated base b k (LoadRound e)); try done; cbn; try (by left).
      * by rewrite (proj2 (Z.leb_gt _ _) Hgt).
      * by right; left.
      * intros q0 _ Hq0 _ ->%Z.eqb_eq. lia.
    + destruct (Z.eqb_spec (entered b) e) as [E0|]; apply (look_simulated base b k (Full e)); try done; try (by left).
      left. lia.
    + destruct (Z.gtb_spec (entered b) M); by apply (look_simulated base b k FullLoad); try done; cbn; auto.
    + destruct Hp as (Hd & Hr & He & HeE). destruct (Z.eqb_spec (round b) r0) as [E0|]; [destruct weak|]; cbn [andb negb fst snd].
      * eapply decide_simulated; eauto; lia.
      * exists base. split_and!; [done|rewrite <- E0 in Hk; by apply push_ok|]. unfold abs. cbn [entered pcs].
        by rewrite (tickets_same _ _ _ _ _ Hk).
      * eapply decide_simulated; eauto; lia.
    + destruct (Z.eqb_spec (round b) r0) as [E0|]; apply (look_simulated base b k (Wait e r0)); try done; try (by left);
        cbn; intuition lia.
    + assert (Hd : (count | round b)).
      { pose proof (active_normal _ _ _ _ _ _ Hcs Hk eq_refl) as H0. destruct Hcs as [_ _ _ _ Hn _]. apply (Hn H0). }
      destruct (Z.gtb_spec e (round b)); apply (look_simulated base b k (LoadAgain e)); try done; try (by left);
        cbn; intuition lia.
    + pose proof (active_normal _ _ _ _ _ _ Hcs Hk eq_refl) as H0. pose proof max_bounds as HM. unfold BARRIER_MAX in HM.
      destruct Hcs as [_ _ _ _ Hn _]. rewrite u32_small by (destruct (Hn H0); lia). by apply exit_simulated.
    + exists base. split_and!; [done|by eapply reset_ok|]. unfold abs. cbn [entered pcs].
      by rewrite (tickets_same _ _ _ _ _ Hk).
    + exists base. split_and!; [done|by eapply reset_ok|]. unfold abs. cbn [entered pcs].
      by rewrite (tickets_same _ _ _ _ _ Hk).
    + by apply restart_simulated.
  - eapply wake_simulated; eauto. left. eauto.
  - eapply wake_simulated; eauto.
  - eapply (look_simulated base b k (Asleep e r)); try done; try (by left). destruct (Ht k _ Hk) as (_ & H1 & H2 & _). done.
  - by eapply look_simulated; try done; left.
Qed.

Lemma init_ok : bar_ok (Bar 0 0 0 (replicate n Outside)) /\ abs 0 (Bar 0 0 0 (replicate n Outside)) = (0, replicate n None).
Proof.
  pose proof max_bounds. split; [split; [split|]|]; cbn [entered exited round pcs]; rewrite ?tally_replicate by done; try lia.
  - by rewrite length_replicate.
  - intros _. split_and!; try lia. apply Z.divide_0_r.
  - intros k p Hk. by apply lookup_replicate in Hk as [-> _].
  - unfold abs, tickets. cbn [entered pcs]. rewrite fmap_replicate. cbn. f_equal. lia.
Qed.

(** * Deadlock *)

Definition dormant (p : pc) : Prop := p = Outside \/ sleeps p = true \/ sleeps_full p = true.

Lemma dormant_none b (P : pc -> bool) :
  (forall k p, pcs b !! k = Some p -> dormant p) -> (forall p, dormant p -> P p = false) -> tally P (pcs b) = 0%nat.
Proof.
  intros Hd HP. destruct (tally P (pcs b)) eqn:E; [done|].
  destruct (tally_find P (pcs b)) as (k & p & Hk & Hp); [lia|]. specialize (HP p (Hd k p Hk)). congruence.
Qed.

Lemma dormant_cases p : dormant p -> p = Outside \/ (exists e r, p = Asleep e r) \/ p = FullAsleep.
Proof. intros [->|[H|H]]; [auto|destruct p; try done; eauto|destruct p; try done; auto]. Qed.

(** With every thread dormant, a sleeper's round is not full. *)
Lemma asleep_not_full b k e r :
  bar_ok b -> (forall k p, pcs b !! k = Some p -> dormant p) -> pcs b !! k = Some (Asleep e r) ->
  Z.min (entered b) M < round_end count e.
Proof.
  intros [[_ _ _ _ _ Hc] Ht] Hd Hk.
  assert (Hno : forall P : pc -> bool, (forall p, dormant p -> P p = false) -> tally P (pcs b) = 0%nat)
    by (intros; by apply dormant_none).
  assert (Hw : tally wakes (pcs b) = 0%nat) by (apply Hno; by intros p [->|[(? & ? & ->)| ->]]%dormant_cases).
  assert (Hr : tally resets (pcs b) = 0%nat) by (apply Hno; by intros p [->|[(? & ? & ->)| ->]]%dormant_cases).
  destruct (Ht k _ Hk) as (Hlt & He & HE & Hs). rewrite Hw in Hs.
  destruct (Z.lt_ge_cases (Z.min (entered b) M) (round_end count e)) as [|Hge]; [done|].
  pose proof (round_end_bounds e). specialize (Hc Hr _ (round_end_divide e) ltac:(lia)).
  rewrite (Hno (pushes (round_end count e))) in Hc; [lia|]. by intros p [->|[(? & ? & ->)| ->]]%dormant_cases.
Qed.

Lemma no_full_sleeper b k :
  bar_ok b -> (forall k p, pcs b !! k = Some p -> dormant p) -> pcs b !! k <> Some FullAsleep.
Proof.
  intros Hb Hd Hk. pose proof Hb as [[_ _ _ _ Hn _] Ht].
  assert (Hf : tally wakes_full (pcs b) = 0%nat) by (apply dormant_none; [done|]; by intros p [->|[(? & ? & ->)| ->]]%dormant_cases).
  assert (Hr : tally resets (pcs b) = 0%nat) by (apply dormant_none; [done|]; by intros p [->|[(? & ? & ->)| ->]]%dormant_cases).
  destruct (Hn Hr) as (HX & Hsum & _ & _). pose proof (Ht k _ Hk) as HM. cbn in HM. rewrite Hf in HM.
  destruct (tally_find active (pcs b)) as (j & p & Hj & Hp); [lia|].
  destruct (dormant_cases p (Hd j p Hj)) as [->|[(e & r & ->)| ->]]; try done.
  pose proof (asleep_not_full b j e r Hb Hd Hj). destruct (Ht j _ Hj) as (_ & He & _ & _).
  pose proof (round_end_least e M max_divide ltac:(lia)). lia.
Qed.
End Facts.

Lemma spec_run_app count s ls l s1 :
  spec_run count s ls = Some s1 -> spec_run count s (ls ++ [l]) = spec_step count s1 l.
Proof.
  revert s. induction ls as [|l' ls IH]; intros s; cbn [spec_run app].
  - intros E. apply Some_inj in E as ->. by destruct (spec_step count s1 l).
  - destruct (spec_step count s l') as [s2|]; [|done]. cbn. apply IH.
Qed.

Lemma init_range count n b :
  0 <= count -> pthread_barrier_init count n = Some b ->
  0 < count < BARRIER_MAX /\ b = Bar 0 0 0 (replicate n Outside).
Proof.
  intros H0. unfold pthread_barrier_init. destruct (Z.eqb_spec count 0); [done|]. destruct (Z.geb_spec count BARRIER_MAX); [done|].
  intros E. apply Some_inj in E as <-. split; [lia|done].
Qed.

Lemma run_simulated count n ls b b0 :
  0 <= count -> Z.of_nat n < 2 ^ 31 -> pthread_barrier_init count n = Some b0 -> run count b0 ls b ->
  exists base, (count | base) /\ bar_ok count n b /\ spec_run count (0, replicate n None) ls = Some (abs count base b).
Proof.
  intros H0 Hn Hi Hr. destruct (init_range _ _ _ H0 Hi) as [Hc ->]. destruct (init_ok count n Hc) as [Hok Habs].
  induction Hr as [|ls b1 k e b2 _ IH Hs].
  - exists 0. split_and!; [apply Z.divide_0_r|done|]. by rewrite Habs.
  - destruct IH as (base & Hbase & Hb & Hrun).
    destruct (step_simulated count n Hc Hn base b1 k e b2 Hb Hbase Hs) as (base' & Hbase' & Hb' & He).
    exists base'. split_and!; [done..|]. destruct e as [e|]; [|by rewrite He].
    by rewrite (spec_run_app _ _ _ _ _ Hrun).
Qed.

(** * Main results *)


(** C26: a barrier does not deadlock: when every thread is outside or asleep, the threads inside
    have their numbers and wait for rounds that are not full; none waits for the counters to be
    reset. *)
Theorem barrier_progress count n b0 ls b :
  0 <= count -> Z.of_nat n < 2 ^ 31 -> pthread_barrier_init count n = Some b0 -> run count b0 ls b ->
  (forall k p, pcs b !! k = Some p -> dormant p) ->
  exists s, spec_run count (0, replicate n None) ls = Some s /\
    forall k p, pcs b !! k = Some p -> p <> Outside ->
      exists t, s.2 !! k = Some (Some t) /\ s.1 < round_end count t.
Proof.
  intros H0 Hn Hi Hr Hd. destruct (run_simulated count n ls b b0 H0 Hn Hi Hr) as (base & Hbase & Hb & Hs).
  destruct (init_range _ _ _ H0 Hi) as [Hc _]. eexists. split; [exact Hs|]. intros k p Hk Hp.
  destruct (dormant_cases p (Hd k p Hk)) as [->|[(e & r & ->)| ->]]; [done| |].
  - exists (base + e). unfold abs. cbn [fst snd]. rewrite (tickets_lookup _ _ _ _ _ Hk). split; [done|].
    rewrite (round_end_shift count n Hc base e Hbase). pose proof (asleep_not_full count n Hc b k e r Hb Hd Hk). lia.
  - by destruct (no_full_sleeper count n Hc b k Hb Hd).
Qed.

(** * Schedules *)

Section Schedule.
Context (count : Z).

(** Thread [k] goes on, or wakes up for no reason. *)
Definition exec_step (b : barrier) (k : nat) : option (barrier * list (nat * event)) :=
  p ← pcs b !! k;
  match p with
  | Outside => Some (with_pcs b (<[k := Enter]> (pcs b)), [])
  | WakeRound e r => Some (with_pcs b (<[k := if e <=? r then Exit e else Wait e r]> (woken <$> pcs b)), [])
  | WakeFull => Some (with_pcs b (<[k := Outside]> (woken_full <$> pcs b)), [])
  | Asleep e _ => Some (with_pcs b (<[k := LoadAgain e]> (pcs b)), [])
  | FullAsleep => Some (with_pcs b (<[k := FullLoad]> (pcs b)), [])
  | _ => r ← access count false p (entered b) (exited b) (round b);
         Some (move b k r, match r.2.2 with Some e => [(k, e)] | None => [] end)
  end.

Fixpoint exec (b : barrier) (ls : list (nat * event)) (ks : list nat) : option (barrier * list (nat * event)) :=
  match ks with
  | [] => Some (b, ls)
  | k :: ks' => '(b, l) ← exec_step b k; exec b (ls ++ l) ks'
  end.

Lemma exec_step_run b0 ls b k res :
  run count b0 ls b -> exec_step b k = Some res -> run count b0 (ls ++ res.2) res.1.
Proof.
  intros Hr. unfold exec_step. destruct (pcs b !! k) as [p|] eqn:Hk; [|done]. cbn [mbind option_bind].
  assert (Hsilent : forall b', step count b k None b' -> run count b0 (ls ++ []) b').
  { intros b' Hs. rewrite app_nil_r. exact (run_step _ _ _ _ _ _ _ Hr Hs). }
  assert (Hgo : forall r, access count false p (entered b) (exited b) (round b) = Some r ->
    run count b0 (ls ++ match r.2.2 with Some e => [(k, e)] | None => [] end) (move b k r)).
  { intros r Ha. pose proof (run_step _ _ _ _ _ _ _ Hr (go_on _ _ _ _ _ _ Hk Ha)) as H.
    destruct r.2.2; [done|]. by rewrite app_nil_r. }
  destruct p; intros E; try (apply Some_inj in E; subst res; apply Hsilent; by econstructor);
    destruct (access count false _ _ _ _) as [r'|] eqn:Ha; try done; apply Some_inj in E; subst res; by apply Hgo.
Qed.

Lemma exec_run_barrier b0 ls b ks res : run count b0 ls b -> exec b ls ks = Some res -> run count b0 res.2 res.1.
Proof.
  revert ls b. induction ks as [|k ks IH]; intros ls b Hr; cbn [exec].
  - intros E. apply Some_inj in E. by subst res.
  - destruct (exec_step b k) as [[b1 l]|] eqn:E; [|done]. cbn [mbind option_bind]. apply IH.
    exact (exec_step_run _ _ _ _ _ Hr E).
Qed.
End Schedule.

(** Two threads: the first sleeps until the second arrives and wakes it. *)
Definition sample_run : list nat := [0; 0; 0; 0; 1; 1; 1; 1; 1; 0; 0; 1]%nat.
Definition sample_seen : list (nat * event) := [(0, Arrives); (1, Arrives); (0, Leaves false); (1, Leaves true)]%nat.


Lemma barrier_progress_witness :
  exists s, spec_run 2 (0, replicate 2 None) [(0%nat, Arrives)] = Some s /\
    exists t, s.2 !! 0%nat = Some (Some t) /\ s.1 < round_end 2 t.
Proof.
  destruct (barrier_progress 2 2 (Bar 0 0 0 [Outside; Outside]) [(0%nat, Arrives)] (Bar 1 0 0 [Asleep 1 0; Outside]))
    as (s & Hs & H); [lia|lia|reflexivity| | |].
  - apply (exec_run_barrier 2 (Bar 0 0 0 [Outside; Outside]) [] (Bar 0 0 0 [Outside; Outside])
      [0; 0; 0; 0]%nat (Bar 1 0 0 [Asleep 1 0; Outside], [(0%nat, Arrives)]));
      [constructor|vm_compute; reflexivity].
  - intros [|[|k]] p Hp; cbn in Hp; apply Some_inj in Hp || done; subst p; [by right; left|by left].
  - exists s. split; [done|]. by apply (H 0%nat (Asleep 1 0)).
Defined.
