(* ===== verification/FreeList.v ===== *)
(** The lock-free list of free structures of the memory manager: [__maps_alloc] and [__maps_free] of
    [libc/intrin/maps.c], with the tagged pointers they exchange.

    Every access of [__maps.freed] and of the link of a structure is a step. Structures in use are
    written to by their users, the word of the link included, as it shares memory with the tree
    node. [version] counts the exchanges that succeeded; the sources keep its last eleven bits in
    the spare bits of the pointer, and a thread remembers the version of the word it loaded. *)
From S2P Require Import Prelude Threads.
From stdpp Require Import gmap.
#[local] Open Scope Z_scope.

(** * Tagged pointers *)

Definition MASQUE : Z := 0x00fffffffffffff8.
Definition UNMASQUE : Z := 2 ^ 64 - 1 - MASQUE.
Definition ROL (x n : Z) : Z := Z.lor (u64 (Z.shiftl x n)) (Z.shiftr x (64 - n)).
Definition ROR (x n : Z) : Z := Z.lor (Z.shiftr x n) (u64 (Z.shiftl x (64 - n))).
Definition PTR (x : Z) : Z := Z.land x MASQUE.
Definition TAG (x : Z) : Z := ROL (Z.land x UNMASQUE) 8.
Definition ABA (p t : Z) : Z := Z.lor p (Z.land (ROR t 8) UNMASQUE).

(** * Program counters *)

Inductive pc :=
| Outside
| AllocLoad                        (** in [__maps_alloc], before the load of [__maps.freed] *)
| AllocRead (tip : Z) (v : Z)      (** before the load of [map->freed] *)
| AllocCas (tip next : Z) (v : Z)  (** before the exchange *)
| AllocBump                        (** before [__maps_balloc] *)
| FreeLoad (map : Z)               (** in [__maps_free], before the load of [__maps.freed] *)
| FreeStore (map tip : Z) (v : Z)  (** before the store to [map->freed] *)
| FreeCas (map tip : Z) (v : Z).   (** before the exchange *)

(** What a caller sees: a structure from the list, a new one, none, a structure given back. *)
Inductive event := Popped (a : Z) | Bumped (a : Z) | NoMemory | Pushed (a : Z).

(** [__maps.freed] with its version, the links, the structures in use and the threads. *)
Record freelist := MkFree { tip : Z; version : Z; links : gmap Z Z; in_use : list Z; pcs : list pc }.

Definition link (l : gmap Z Z) (a : Z) : Z := default 0 (l !! a).

(** * Accesses *)

(** The head of the loop of [__maps_alloc]. *)
Definition alloc_test (w v : Z) : pc := if PTR w =? 0 then AllocBump else AllocRead w v.

(** One access of thread [k]; [weak] makes a weak compare-exchange fail although the word is
    the expected one. *)
Definition access (weak : bool) (m : freelist) (k : nat) (p : pc) : option (option event * freelist) :=
  let goto p := MkFree (tip m) (version m) (links m) (in_use m) (<[k := p]> (pcs m)) in
  match p with
  | AllocLoad => Some (None, goto (alloc_test (tip m) (version m)))
  | AllocRead w v => Some (None, goto (AllocCas w (link (links m) (PTR w)) v))
  | AllocCas w next v =>
    if (tip m =? w) && negb weak
    then Some (Some (Popped (PTR w)),
           MkFree (ABA next (u64 (TAG w + 1))) (version m + 1) (links m) (PTR w :: in_use m) (<[k := Outside]> (pcs m)))
    else Some (None, goto (alloc_test (tip m) (version m)))
  | FreeLoad map => Some (None, goto (FreeStore map (tip m) (version m)))
  | FreeStore map w v =>
    Some (None, MkFree (tip m) (version m) (<[map := PTR w]> (links m)) (in_use m) (<[k := FreeCas map w v]> (pcs m)))
  | FreeCas map w v =>
    if (tip m =? w) && negb weak
    then Some (Some (Pushed map),
           MkFree (ABA map (u64 (TAG w + 1))) (version m + 1) (links m) (in_use m) (<[k := Outside]> (pcs m)))
    else Some (None, goto (FreeStore map (tip m) (version m)))
  | Outside | AllocBump => None
  end.

(** The structures that are being given back. *)
Definition giving (p : pc) : option Z :=
  match p with FreeLoad a | FreeStore a _ _ | FreeCas a _ _ => Some a | _ => None end.

(** A thread is timely when fewer than 2^11 exchanges succeeded since it loaded the word. *)
Definition timely (m : freelist) (p : pc) : Prop :=
  match p with AllocCas _ _ v | FreeCas _ _ v => version m - v < 2 ^ 11 | _ => True end.

(** Addresses of structures: multiples of 8 below 2^56. *)
Definition good_ptr (a : Z) : Prop := 0 < a < 2 ^ 56 /\ a mod 8 = 0.

(** [strict] asks that the threads be timely. [__maps_balloc] hands out addresses that were not
    handed out before, [known]. *)
Inductive step (strict : bool) (known : list Z) (m : freelist) : option event -> freelist -> Prop :=
| call_alloc k :
    pcs m !! k = Some Outside ->
    step strict known m None (MkFree (tip m) (version m) (links m) (in_use m) (<[k := AllocLoad]> (pcs m)))
| call_free k l1 a l2 :
    pcs m !! k = Some Outside -> in_use m = l1 ++ a :: l2 ->
    step strict known m None (MkFree (tip m) (version m) (links m) (l1 ++ l2) (<[k := FreeLoad a]> (pcs m)))
| go_on k p weak r :
    pcs m !! k = Some p -> (strict = true -> timely m p) -> access weak m k p = Some r ->
    step strict known m r.1 r.2
| bump k a :
    pcs m !! k = Some AllocBump -> good_ptr a -> a ∉ known ->
    step strict known m (Some (Bumped a)) (MkFree (tip m) (version m) (links m) (a :: in_use m) (<[k := Outside]> (pcs m)))
| bump_fails k :
    pcs m !! k = Some AllocBump ->
    step strict known m (Some NoMemory) (MkFree (tip m) (version m) (links m) (in_use m) (<[k := Outside]> (pcs m)))
| scribble a x :
    a ∈ in_use m -> step strict known m None (MkFree (tip m) (version m) (<[a := x]> (links m)) (in_use m) (pcs m)).

(** The addresses handed out by [__maps_balloc] in a trace. *)
Definition bumped (ls : list event) : list Z := omap (fun e => match e with Bumped a => Some a | _ => None end) ls.

Definition run (strict : bool) : freelist -> list event -> freelist -> Prop := runs (fun ls => step strict (bumped ls)).

Definition initial (n : nat) : freelist := MkFree 0 0 ∅ [] (replicate n Outside).

(** * The specification *)

(** A stack of free structures and the set of the others, in use or being given back. *)
Definition spec_step (s : list Z * gset Z) (e : event) : option (list Z * gset Z) :=
  let '(stack, used) := s in
  match e with
  | Popped a =>
    match stack with
    | b :: rest => if bool_decide (a = b /\ a ∉ used) then Some (rest, {[a]} ∪ used) else None
    | [] => None
    end
  | Bumped a => if bool_decide (a ∉ stack /\ a ∉ used) then Some (stack, {[a]} ∪ used) else None
  | NoMemory => Some s
  | Pushed a => if bool_decide (a ∈ used /\ a ∉ stack) then Some (a :: stack, used ∖ {[a]}) else None
  end.

Fixpoint spec_run (s : list Z * gset Z) (ls : list event) : option (list Z * gset Z) :=
  match ls with
  | [] => Some s
  | e :: ls' => s ← spec_step s e; spec_run s ls'
  end.
