(* ===== verification/FreeListFacts.v ===== *)
(** The lock-free list of free structures is a stack as long as no thread sleeps through 2^11
    exchanges between its load of [__maps.freed] and its compare-exchange; a schedule in which a
    thread does hands out one structure twice. *)
From S2P Require Import Prelude Threads FreeList.
From stdpp Require Import gmap.
#[local] Open Scope Z_scope.

(** * Tagged pointers *)

(** The null pointer and the addresses of structures. *)
Definition aligned (a : Z) : Prop := 0 <= a < 2 ^ 56 /\ a mod 8 = 0.

Lemma good_aligned a : good_ptr a -> aligned a.
Proof. unfold good_ptr, aligned. lia. Qed.

Lemma land_unmasque x : Z.land x UNMASQUE = (x / 2 ^ 56 mod 256) * 2 ^ 56 + x mod 8.
Proof.
  change UNMASQUE with (Z.lor ((2 ^ 8 - 1) * 2 ^ 56) (2 ^ 3 - 1)). rewrite Z.land_lor_distr_r.
  rewrite land_field, land_mask by lia. apply (lor_high_low _ _ 56); [lia..|]. by apply Z.mod_mul.
Qed.

Lemma ROR_fields t : 0 <= t < 2 ^ 64 -> ROR t 8 = (t mod 256) * 2 ^ 56 + t / 256.
Proof.
  intros Ht. unfold ROR, u64. rewrite shiftr_div, shiftl_mul by lia. change (64 - 8) with 56.
  rewrite Z.lor_comm, (lor_high_low _ (t / 2 ^ 8) 56); lia.
Qed.

Lemma ABA_fields p t :
  aligned p -> 0 <= t < 2 ^ 64 -> ABA p t = (t mod 256) * 2 ^ 56 + (p + (t / 256) mod 8).
Proof.
  intros [Hp H8] Ht. unfold ABA. rewrite land_unmasque, ROR_fields by done.
  replace (_ / 2 ^ 56 mod 256) with (t mod 256) by lia.
  replace (_ mod 8) with ((t / 256) mod 8) by lia.
  rewrite <- (lor_high_low (t mod 256 * 2 ^ 56) ((t / 256) mod 8) 56) by lia.
  rewrite Z.lor_assoc, (Z.lor_comm p), <- Z.lor_assoc.
  rewrite (lor_high_low p _ 3) by lia. apply (lor_high_low _ _ 56); lia.
Qed.

Lemma PTR_fields x : PTR x = ((x / 8) mod 2 ^ 53) * 8.
Proof. unfold PTR. change MASQUE with ((2 ^ 53 - 1) * 2 ^ 3). by rewrite land_field by lia. Qed.

Lemma TAG_fields x : 0 <= x < 2 ^ 64 -> TAG x = (x mod 8) * 256 + x / 2 ^ 56.
Proof.
  intros Hx. unfold TAG, ROL, u64. rewrite land_unmasque, shiftr_div, shiftl_mul by lia.
  change (64 - 8) with 56. rewrite (lor_high_low _ _ 8); lia.
Qed.

Lemma PTR_ABA p t : aligned p -> 0 <= t < 2 ^ 64 -> PTR (ABA p t) = p.
Proof. intros Hp Ht. rewrite ABA_fields, PTR_fields by done. destruct Hp. lia. Qed.

Lemma TAG_ABA p t : aligned p -> 0 <= t < 2 ^ 64 -> TAG (ABA p t) = t mod 2 ^ 11.
Proof.
  intros Hp Ht. rewrite ABA_fields by done. destruct Hp. rewrite TAG_fields; lia.
Qed.

(** What [__maps.freed] holds when the list starts at [a] and [v] exchanges have succeeded. *)
Definition word (a v : Z) : Z := ABA a (v mod 2 ^ 11).

Lemma PTR_word a v : aligned a -> PTR (word a v) = a.
Proof. intros. apply PTR_ABA; [done|lia]. Qed.

Lemma TAG_word a v : aligned a -> TAG (word a v) = v mod 2 ^ 11.
Proof. intros. unfold word. rewrite TAG_ABA by (done || lia). by rewrite Z.mod_mod. Qed.

(** The new word of an exchange, from the tag of the old one. *)
Lemma ABA_next a w v : aligned a -> TAG w = v mod 2 ^ 11 -> ABA a (u64 (TAG w + 1)) = word a (v + 1).
Proof.
  intros Ha ->. unfold word, u64. rewrite !ABA_fields by (done || lia). lia.
Qed.

(** * The invariant *)

(** The links of the structures of the list. *)
Fixpoint chain (l : gmap Z Z) (stk : list Z) : Prop :=
  match stk with [] => True | a :: rest => link l a = hd 0 rest /\ chain l rest end.

(** Every structure there is: free, in use, or being given back. *)
Definition owned (stk : list Z) (m : freelist) : list Z := stk ++ in_use m ++ omap giving (pcs m).

(** A thread that loaded [w] when [v] exchanges had succeeded. *)
Definition seen (m : freelist) (w v : Z) : Prop :=
  v <= version m /\ TAG w = v mod 2 ^ 11 /\ (v = version m -> w = tip m).

Definition pc_ok (m : freelist) (p : pc) : Prop :=
  match p with
  | AllocRead w v => seen m w v /\ PTR w ≠ 0
  | AllocCas w next v => seen m w v /\ PTR w ≠ 0 /\ (v = version m -> next = link (links m) (PTR w))
  | FreeStore _ w v => seen m w v
  | FreeCas a w v => seen m w v /\ link (links m) a = PTR w
  | _ => True
  end.

Record good (known stk : list Z) (m : freelist) : Prop := {
  good_tip : tip m = word (hd 0 stk) (version m);
  good_chain : chain (links m) stk;
  good_owned : NoDup (owned stk m);
  good_addrs : forall a, a ∈ owned stk m -> good_ptr a /\ a ∈ known;
  good_pcs : forall k p, pcs m !! k = Some p -> pc_ok m p }.

Lemma hd_aligned stk : (forall a, a ∈ stk -> good_ptr a) -> aligned (hd 0 stk).
Proof. intros H. destruct stk as [|a stk]; [done|]. apply good_aligned, H. set_solver. Qed.

Lemma chain_insert l a x stk : a ∉ stk -> chain l stk -> chain (<[a := x]> l) stk.
Proof.
  induction stk as [|b stk IH]; [done|]. intros Hn [Hb Hc]. split; [|apply IH; set_solver].
  unfold link. rewrite lookup_insert_ne by set_solver. exact Hb.
Qed.

Lemma link_insert l a x b : link (<[a := x]> l) b = if decide (a = b) then x else link l b.
Proof.
  unfold link. case_decide as E; [subst; by rewrite lookup_insert_eq|by rewrite lookup_insert_ne].
Qed.

(** * Preservation *)

(** The structures that are not free, as the specification has them. *)
Definition used (m : freelist) : gset Z := list_to_set (in_use m ++ omap giving (pcs m)).

Definition moved (m : freelist) (k : nat) (q : pc) : freelist :=
  MkFree (tip m) (version m) (links m) (in_use m) (<[k := q]> (pcs m)).

Lemma elem_of_used m a : a ∈ used m <-> a ∈ in_use m \/ a ∈ omap giving (pcs m).
Proof. unfold used. by rewrite elem_of_list_to_set, elem_of_app. Qed.

Lemma used_perm m m' :
  in_use m' ++ omap giving (pcs m') ≡ₚ in_use m ++ omap giving (pcs m) -> used m' = used m.
Proof. intros H. unfold used. apply leibniz_equiv. by rewrite H. Qed.

Lemma good_moved known stk m k p q :
  good known stk m -> pcs m !! k = Some p -> giving q = giving p -> pc_ok m q ->
  good known stk (moved m k q) /\ used (moved m k q) = used m.
Proof.
  intros [Ht Hc Hn Ha Hp] Hk E Hq. pose proof (holders_goto giving _ _ _ _ Hk E) as G.
  assert (O : owned stk (moved m k q) ≡ₚ owned stk m) by (unfold owned; simpl; by rewrite G).
  split; [|apply used_perm; simpl; by rewrite G]. split; simpl; [done..|by rewrite O| |].
  - intros a. rewrite O. apply Ha.
  - intros j r Hj. exact (insert_all _ _ _ _ Hq Hp j r Hj).
Qed.

Definition written (m : freelist) (a x : Z) : freelist :=
  MkFree (tip m) (version m) (<[a := x]> (links m)) (in_use m) (pcs m).

(** A word that is loaded at the present version starts the list. *)
Lemma seen_head known stk m w v :
  good known stk m -> seen m w v -> v = version m -> PTR w = hd 0 stk.
Proof.
  intros G (_ & _ & S) E. rewrite (S E), (good_tip _ _ _ G). apply PTR_word, hd_aligned.
  intros a Ha. apply (good_addrs _ _ _ G). set_solver.
Qed.

Lemma hd_in stk : hd 0 stk ≠ 0 -> exists a rest, stk = a :: rest.
Proof. destruct stk as [|a rest]; [done|]. eauto. Qed.

(** A store to the link of a structure that is not free. *)
Lemma good_written known stk m a x :
  good known stk m -> a ∉ stk -> (forall j b w v, pcs m !! j = Some (FreeCas b w v) -> b ≠ a) ->
  good known stk (written m a x).
Proof.
  intros G Hs Hb. pose proof G as [Ht Hc Hn Ha Hp].
  split; simpl; [done|by apply chain_insert|done|done|]. intros j p Hj. specialize (Hp j p Hj).
  destruct p as [| |w v|w next v| |b|b w v|b w v]; simpl in *; try done.
  - destruct Hp as (S & P & N). split; [done|]. split; [done|]. intros E. rewrite link_insert.
    rewrite decide_False; [auto|]. rewrite (seen_head _ _ _ _ _ G S E) in P |- *.
    apply hd_in in P as (c & rest & ->). set_solver.
  - destruct Hp as [S L]. split; [done|]. rewrite link_insert, decide_False; [done|].
    intros ->. by apply (Hb _ _ _ _ Hj).
Qed.

(** No structure is given back by two threads. *)
Lemma giving_distinct known stk m j k p q a :
  good known stk m -> pcs m !! j = Some p -> pcs m !! k = Some q ->
  giving p = Some a -> giving q = Some a -> j = k.
Proof.
  intros G Hj Hk Ep Eq. destruct (decide (j = k)) as [|Hne]; [done|]. exfalso.
  destruct (holders_insert giving (pcs m) k q Hk) as (X & P1 & P2). specialize (P2 Outside).
  assert (Hin : a ∈ omap giving (<[k := Outside]> (pcs m))).
  { apply list_elem_of_omap. exists p. split; [|done]. apply (list_elem_of_lookup_2 _ j).
    by rewrite list_lookup_insert_ne. }
  rewrite P2 in Hin. simpl in Hin. pose proof (good_owned _ _ _ G) as N. unfold owned in N.
  apply NoDup_app in N as (_ & _ & N). apply NoDup_app in N as (_ & _ & N).
  rewrite P1, Eq in N. simpl in N. by apply NoDup_cons in N as [N _].
Qed.

Lemma in_giving (l : list pc) k p a : l !! k = Some p -> giving p = Some a -> a ∈ omap giving l.
Proof. intros Hk E. apply list_elem_of_omap. exists p. split; [by apply (list_elem_of_lookup_2 _ k)|done]. Qed.

(** A structure that is in use or being given back is not free. *)
Lemma used_not_free known stk m a : good known stk m -> a ∈ used m -> a ∉ stk.
Proof.
  intros G Hu Hs. pose proof (good_owned _ _ _ G) as N. unfold owned in N.
  apply NoDup_app in N as (_ & N & _). apply (N a Hs). rewrite elem_of_app. by apply elem_of_used.
Qed.

(** A timely exchange that succeeds finds the word of its own version. *)
Lemma exchange_current known stk m w v :
  good known stk m -> seen m w v -> tip m = w -> version m - v < 2 ^ 11 -> v = version m.
Proof.
  intros G (Hle & T & _) E H. rewrite <- E, (good_tip _ _ _ G), TAG_word in T; [lia|].
  apply hd_aligned. intros a Ha. apply (good_addrs _ _ _ G). set_solver.
Qed.

(** What an exchange leaves of the knowledge of the other threads. *)
Lemma pc_ok_exchanged m p t u l : pc_ok m p -> pc_ok (MkFree t (version m + 1) (links m) u l) p.
Proof.
  assert (S : forall w v, seen m w v -> seen (MkFree t (version m + 1) (links m) u l) w v).
  { intros w v (H1 & H2 & _). split; simpl; [lia|]. split; [done|lia]. }
  destruct p as [| |w v|w next v| |b|b w v|b w v]; simpl; try done.
  - naive_solver.
  - intros ([H ?] & ? & _). split; [by apply S|]. split; [done|lia].
  - apply S.
  - naive_solver.
Qed.

Definition exchanged (m : freelist) (k : nat) (stk u : list Z) : freelist :=
  MkFree (word (hd 0 stk) (version m + 1)) (version m + 1) (links m) u (<[k := Outside]> (pcs m)).

Lemma good_exchanged known stk stk' m k u :
  good known stk m -> chain (links m) stk' -> owned stk' (exchanged m k stk' u) ≡ₚ owned stk m ->
  good known stk' (exchanged m k stk' u).
Proof.
  intros [Ht Hc Hn Ha Hp] C O. split; simpl; [done..|by rewrite O| |].
  - intros a. rewrite O. apply Ha.
  - apply insert_all; [done|]. intros j p Hj. eapply pc_ok_exchanged, Hp, Hj.
Qed.

(** What a step does to the state of the specification. *)
Definition follows (stk stk' : list Z) (m m' : freelist) (e : option event) : Prop :=
  match e with
  | Some e => spec_step (stk, used m) e = Some (stk', used m')
  | None => stk' = stk /\ used m' = used m
  end.

Lemma pop_follows known stk m k w next v :
  good known stk m -> pcs m !! k = Some (AllocCas w next v) -> tip m = w -> version m - v < 2 ^ 11 ->
  exists stk', let m' := MkFree (ABA next (u64 (TAG w + 1))) (version m + 1) (links m) (PTR w :: in_use m) (<[k := Outside]> (pcs m)) in
  good known stk' m' /\ follows stk stk' m m' (Some (Popped (PTR w))).
Proof.
  intros G Hk E T. destruct (good_pcs _ _ _ G _ _ Hk) as (S & P & N).
  pose proof (exchange_current _ _ _ _ _ G S E T) as V. pose proof (seen_head _ _ _ _ _ G S V) as Hd.
  rewrite (N V), Hd in *. destruct (hd_in stk P) as (a & rest & ->). simpl in *.
  destruct (good_chain _ _ _ G) as [L C]. rewrite L. destruct S as (_ & Tg & _).
  rewrite (ABA_next _ w v), V by
    (apply hd_aligned || done; intros b Hb; apply (good_addrs _ _ _ G); set_solver).
  exists rest. pose proof (holders_goto giving _ _ _ Outside Hk eq_refl) as GG.
  split; [apply (good_exchanged known (a :: rest) rest m k); [done..|]|].
  - unfold owned. simpl. rewrite GG. symmetry. apply Permutation_middle.
  - simpl. rewrite bool_decide_true; [do 2 f_equal|].
    + unfold used. simpl. apply leibniz_equiv. by rewrite GG.
    + split; [done|]. intros Hu. apply (used_not_free _ _ _ _ G Hu). set_solver.
Qed.

Lemma push_follows known stk m k a w v :
  good known stk m -> pcs m !! k = Some (FreeCas a w v) -> tip m = w -> version m - v < 2 ^ 11 ->
  exists stk', let m' := MkFree (ABA a (u64 (TAG w + 1))) (version m + 1) (links m) (in_use m) (<[k := Outside]> (pcs m)) in
  good known stk' m' /\ follows stk stk' m m' (Some (Pushed a)).
Proof.
  intros G Hk E T. destruct (good_pcs _ _ _ G _ _ Hk) as (S & L).
  pose proof (exchange_current _ _ _ _ _ G S E T) as V. pose proof (seen_head _ _ _ _ _ G S V) as Hd.
  destruct S as (_ & Tg & _). pose proof (in_giving _ _ _ a Hk eq_refl) as Ha.
  assert (Hu : a ∈ used m) by (apply elem_of_used; by right).
  pose proof (used_not_free _ _ _ _ G Hu) as Hs.
  destruct (good_addrs _ _ _ G a) as [Hg _]; [unfold owned; set_solver|].
  rewrite (ABA_next _ w v), V by (done || by apply good_aligned).
  exists (a :: stk). destruct (holders_insert giving _ _ _ Hk) as (X & P1 & P2). specialize (P2 Outside). simpl in P1, P2.
  split; [apply (good_exchanged known stk (a :: stk) m k); [done|split; [congruence|apply G]|]|].
  - unfold owned. simpl. rewrite P1, P2. rewrite <- (Permutation_middle (in_use m)). apply Permutation_middle.
  - simpl. rewrite bool_decide_true by done. do 2 f_equal. pose proof (good_owned _ _ _ G) as N.
    unfold owned in N. rewrite P1, <- (Permutation_middle (in_use m)) in N.
    apply NoDup_app in N as (_ & _ & N). apply NoDup_cons in N as [N _].
    apply leibniz_equiv. unfold used. simpl. rewrite P1, P2. set_solver.
Qed.

Lemma good_known known known' stk m : known ⊆ known' -> good known stk m -> good known' stk m.
Proof. intros Hk [Ht Hc Hn Ha Hp]. split; try done. intros a H. destruct (Ha a H). auto. Qed.

Lemma seen_now known stk m : good known stk m -> seen m (tip m) (version m).
Proof.
  intros G. split; [lia|]. split; [|done]. rewrite (good_tip _ _ _ G). apply TAG_word, hd_aligned.
  intros a Ha. apply (good_addrs _ _ _ G). set_solver.
Qed.

Lemma alloc_test_ok known stk m : good known stk m -> pc_ok m (alloc_test (tip m) (version m)).
Proof. intros G. unfold alloc_test. case_match eqn:E; simpl; [done|]. split; [by apply (seen_now known stk)|lia]. Qed.

Lemma giving_alloc_test w v : giving (alloc_test w v) = None.
Proof. unfold alloc_test. by case_match. Qed.

(** A thread that only moves. *)
Lemma moved_follows known stk m k p q :
  good known stk m -> pcs m !! k = Some p -> giving q = giving p -> pc_ok m q ->
  exists stk', good known stk' (moved m k q) /\ follows stk stk' m (moved m k q) None.
Proof. intros G Hk E Hq. exists stk. destruct (good_moved known stk m k p q); done. Qed.

Lemma access_follows known stk m k p weak e m' :
  good known stk m -> pcs m !! k = Some p -> timely m p -> access weak m k p = Some (e, m') ->
  exists stk', good known stk' m' /\ follows stk stk' m m' e.
Proof.
  intros G Hk T A. pose proof (good_pcs _ _ _ G _ _ Hk) as Hp. pose proof (seen_now _ _ _ G) as S.
  pose proof (alloc_test_ok _ _ _ G) as AT. pose proof (giving_alloc_test (tip m) (version m)) as GA.
  destruct p as [| |w v|w next v| |b|b w v|b w v]; simpl in A; try done.
  - injection A as <- <-. by eapply moved_follows.
  - injection A as <- <-. destruct Hp as [? ?]. by eapply moved_follows.
  - destruct ((tip m =? w) && negb weak) eqn:E; injection A as <- <-; [|by eapply moved_follows].
    eapply pop_follows; [done..|lia|done].
  - injection A as <- <-. by eapply moved_follows.
  - injection A as <- <-. assert (Hb : b ∉ stk).
    { apply (used_not_free _ _ _ _ G), elem_of_used. right. by eapply in_giving. }
    assert (G' : good known stk (written m b (PTR w))).
    { apply good_written; [done..|]. intros j c w' v' Hj ->.
      assert (j = k) as -> by (by eapply giving_distinct). congruence. }
    destruct (good_moved known stk (written m b (PTR w)) k (FreeStore b w v) (FreeCas b w v) G') as [G2 U2];
      [done..|split; [done|]; simpl; by rewrite link_insert, decide_True|].
    exists stk. split; [exact G2|]. split; [done|exact U2].
  - destruct ((tip m =? w) && negb weak) eqn:E; injection A as <- <-; [|by eapply moved_follows].
    eapply push_follows; [done..|lia|done].
Qed.

Lemma step_follows known stk m e m' :
  good known stk m -> step true known m e m' ->
  exists stk', good (known ++ bumped (option_list e)) stk' m' /\ follows stk stk' m m' e.
Proof.
  intros G St. destruct St as [k Hk|k l1 a l2 Hk Hu|k p weak [e m'] Hk T A|k a Hk Hg Hn|k Hk|a x Hu]; simpl.
  - rewrite app_nil_r. by eapply moved_follows.
  - rewrite app_nil_r. exists stk. destruct (holders_insert giving _ _ _ Hk) as (X & P1 & P2). specialize (P2 (FreeLoad a)).
    assert (P : (l1 ++ l2) ++ omap giving (<[k := FreeLoad a]> (pcs m)) ≡ₚ in_use m ++ omap giving (pcs m)).
    { simpl in P1, P2. rewrite P1, P2, Hu. rewrite <- !Permutation_middle. simpl. by rewrite Permutation_middle. }
    split; [|split; [done|by apply used_perm]]. destruct G as [Ht Hc Hno Ha Hp].
    split; simpl; [done..|unfold owned; simpl; by rewrite P|unfold owned; simpl; setoid_rewrite P; apply Ha|].
    intros j r Hj. exact (insert_all (pc_ok m) _ k (FreeLoad a) I Hp j r Hj).
  - destruct (access_follows known stk m k p weak e m') as (stk' & G' & F); [auto..|].
    exists stk'. split; [|done]. eapply good_known, G'. set_solver.
  - exists stk. pose proof (holders_goto giving _ _ _ Outside Hk eq_refl) as GG.
    assert (Hf : a ∉ owned stk m) by (intros Hi; by destruct (good_addrs _ _ _ G a Hi)).
    assert (O : stk ++ (a :: in_use m) ++ omap giving (<[k := Outside]> (pcs m)) ≡ₚ a :: owned stk m).
    { rewrite GG. symmetry. apply Permutation_middle. }
    pose proof G as [Ht Hc Hno Ha Hp]. split.
    + split; simpl; [done..|unfold owned; rewrite O; by constructor|unfold owned; setoid_rewrite O|].
      * intros b [->|Hb]%elem_of_cons; [set_solver|]. destruct (Ha b Hb). set_solver.
      * intros j r Hj. exact (insert_all (pc_ok m) _ k Outside I Hp j r Hj).
    + rewrite bool_decide_true; [do 2 f_equal|].
      * unfold used. simpl. apply leibniz_equiv. by rewrite GG.
      * unfold owned in Hf. rewrite elem_of_used. set_solver.
  - rewrite app_nil_r. destruct (good_moved known stk m k AllocBump Outside G Hk eq_refl I) as [G' U].
    exists stk. split; [exact G'|]. do 2 f_equal. by rewrite <- U.
  - rewrite app_nil_r. exists stk. split; [|split; [done|by apply used_perm]].
    apply good_written; [done|apply (used_not_free _ _ _ _ G), elem_of_used; by left|].
    intros j b w v Hj ->. pose proof (good_owned _ _ _ G) as N. unfold owned in N.
    apply NoDup_app in N as (_ & _ & N). apply NoDup_app in N as (_ & N & _).
    apply (N a Hu). by eapply in_giving.
Qed.

(** * Refinement *)

Lemma giving_initial n : omap giving (replicate n Outside) = [].
Proof. by induction n. Qed.

Lemma good_initial n : good [] [] (initial n).
Proof.
  split; unfold owned; simpl; rewrite ?giving_initial; [done|done|constructor|by intros a Ha; apply elem_of_nil in Ha|].
  intros k p Hk. apply lookup_replicate in Hk as [-> _]. done.
Qed.

Lemma stack_run_app s ls ls' : spec_run s (ls ++ ls') = (s ← spec_run s ls; spec_run s ls').
Proof. revert s. induction ls as [|e ls IH]; intros s; [done|]. simpl. destruct (spec_step s e); simpl; [apply IH|done]. Qed.

(** A run of the executable steps below: what a thread does next. *)
Inductive action := Alloc (k : nat) | Free (k i : nat) | Go (k : nat) | Spurious (k : nat) | Bump (k : nat) (a : Z) | Scribble (a x : Z).

#[local] Instance timely_dec m p : Decision (timely m p).
Proof. destruct p; simpl; apply _. Defined.
#[local] Instance good_ptr_dec a : Decision (good_ptr a).
Proof. unfold good_ptr. apply _. Defined.

Definition go (strict weak : bool) (m : freelist) (k : nat) : option (option event * freelist) :=
  p ← pcs m !! k; if strict && negb (bool_decide (timely m p)) then None else access weak m k p.

Definition act (strict : bool) (known : list Z) (m : freelist) (x : action) : option (option event * freelist) :=
  match x with
  | Alloc k => p ← pcs m !! k; match p with Outside => Some (None, moved m k AllocLoad) | _ => None end
  | Free k i =>
    p ← pcs m !! k; a ← in_use m !! i;
    match p with
    | Outside => Some (None, MkFree (tip m) (version m) (links m) (delete i (in_use m)) (<[k := FreeLoad a]> (pcs m)))
    | _ => None
    end
  | Go k => go strict false m k
  | Spurious k => go strict true m k
  | Bump k a =>
    p ← pcs m !! k;
    match p with
    | AllocBump =>
      if bool_decide (good_ptr a /\ a ∉ known)
      then Some (Some (Bumped a), MkFree (tip m) (version m) (links m) (a :: in_use m) (<[k := Outside]> (pcs m))) else None
    | _ => None
    end
  | Scribble a x => if bool_decide (a ∈ in_use m) then Some (None, written m a x) else None
  end.

Lemma go_step strict known weak m k r : go strict weak m k = Some r -> step strict known m r.1 r.2.
Proof.
  unfold go. destruct (pcs m !! k) as [p|] eqn:Hk; [|done]. simpl. case_match eqn:E; [done|]. intros A.
  apply (go_on _ _ _ k p weak); [done| |done]. intros ->. simpl in E. by case_bool_decide.
Qed.

Lemma act_step strict known m x r : act strict known m x = Some r -> step strict known m r.1 r.2.
Proof.
  destruct x as [k|k i|k|k|k a|a y]; simpl; [| |apply go_step|apply go_step| |].
  - destruct (pcs m !! k) as [[]|] eqn:Hk; simpl; try done. intros [= <-]. by apply call_alloc.
  - destruct (pcs m !! k) as [p|] eqn:Hk; simpl; [|done]. destruct (in_use m !! i) as [a|] eqn:Hi; simpl; [|done].
    destruct p; try done. intros [= <-]. simpl. rewrite delete_take_drop. apply call_free; [done|].
    by rewrite take_drop_middle.
  - destruct (pcs m !! k) as [[]|] eqn:Hk; simpl; try done. case_bool_decide as H; [|done]. intros [= <-].
    destruct H. by apply bump.
  - case_bool_decide as H; [|done]. intros [= <-]. by apply scribble.
Qed.

Definition schedule (strict : bool) := play (fun ls => act strict (bumped ls)) [].

Lemma schedule_run strict m xs ls m' : schedule strict m xs = Some (ls, m') -> run strict m ls m'.
Proof. apply play_runs; [intros *; apply act_step|constructor]. Qed.

(** C6: the structures of the memory manager that are not in use form a stack. In every run of any
    number of threads through [__maps_alloc] and [__maps_free], weak exchanges failing at will and
    users overwriting the links of the structures they hold, in which a thread completes its
    exchange before 2^11 others succeed, the structures handed out and given back are those of an
    atomic stack: a structure that is handed out is the last one given back and is held by no one
    else, and one that is given back was held. At the end [__maps.freed] points to the top of
    that stack, the links to the rest, and the structures in use are as the specification says. *)
Theorem freelist_refines n ls m :
  run true (initial n) ls m ->
  exists stack, spec_run ([], ∅) ls = Some (stack, used m) /\
    PTR (tip m) = hd 0 stack /\ chain (links m) stack /\ NoDup (owned stack m).
Proof.
  intros R. assert (exists stk, good (bumped ls) stk m /\ spec_run ([], ∅) ls = Some (stk, used m)) as (stk & G & Hs).
  { induction R as [|ls m1 e m2 R (stk & G & IH) St].
    - exists []. split; [apply good_initial|]. unfold used. simpl.
      by rewrite giving_initial.
    - destruct (step_follows _ _ _ _ _ G St) as (stk' & G' & F). exists stk'. destruct e as [e|]; simpl in *.
      + split; [unfold bumped in *; by rewrite omap_app|]. rewrite stack_run_app, IH. simpl. by rewrite F.
      + rewrite !app_nil_r in *. destruct F as [-> ->]. done. }
  exists stk. split; [done|]. split; [|split; apply G]. rewrite (good_tip _ _ _ G). apply PTR_word, hd_aligned.
  intros a Ha. apply (good_addrs _ _ _ G). unfold owned. set_solver.
Qed.

(** Two threads: one is about to exchange when the other takes the same structure; its exchange
    fails, it tries again and takes the next one. *)
Definition contention : list action :=
  [Alloc 0; Go 0; Bump 0 64; Alloc 0; Go 0; Bump 0 128; Scribble 64 5;
   Free 0 0; Go 0; Go 0; Go 0; Free 0 0; Go 0; Go 0; Spurious 0; Go 0; Go 0;
   Alloc 0; Go 0; Go 0; Alloc 1; Go 1; Go 1; Go 1; Go 0; Go 0; Go 0].

Lemma freelist_refines_witness :
  exists ls m, run true (initial 2) ls m /\ ls = [Bumped 64; Bumped 128; Pushed 128; Pushed 64; Popped 64; Popped 128] /\
    exists stack, spec_run ([], ∅) ls = Some (stack, used m) /\
    PTR (tip m) = hd 0 stack /\ chain (links m) stack /\ NoDup (owned stack m).
Proof.
  destruct (schedule true (initial 2) contention) as [[ls m]|] eqn:E; [|vm_compute in E; discriminate].
  assert (R : run true (initial 2) ls m) by (by eapply schedule_run).
  exists ls, m. split; [exact R|]. split; [vm_compute in E; congruence|]. exact (freelist_refines 2 ls m R).
Defined.

(** * The bound on the tag *)

(** Thread 0 has loaded the word and the link of 64, then thread 1 takes 64 and 128, gives back
    192 and 64, and takes and gives back 64 until the tag is what thread 0 remembers. *)
Definition push (k i : nat) : list action := [Free k i; Go k; Go k; Go k].
Definition pop (k : nat) : list action := [Alloc k; Go k; Go k; Go k].
Definition new (k : nat) (a : Z) : list action := [Alloc k; Go k; Bump k a].

Definition wrap_around : list action :=
  new 1 64 ++ new 1 128 ++ new 1 192 ++ push 1 1 ++ push 1 1 ++ [Alloc 0; Go 0; Go 0] ++
  pop 1 ++ pop 1 ++ push 1 2 ++ push 1 1 ++ mjoin (replicate 1022 (pop 1 ++ push 1 0)) ++ [Go 0] ++ pop 1.

#[local] Instance event_eq_dec : EqDecision event.
Proof. solve_decision. Defined.

(** Whether a schedule runs and ends as the theorem below says. *)
Definition hands_out_twice (a : Z) (r : option (list event * freelist)) : bool :=
  match r with
  | Some (ls, m) =>
    bool_decide (last ls = Some (Popped a)) && bool_decide (a ∈ tail (in_use m)) &&
    match spec_run ([], ∅) ls with None => true | Some _ => false end
  | None => false
  end.

(** Without the bound the list is not a stack: after 2^11 exchanges the tag comes back, the
    compare-exchange of a thread that slept meanwhile succeeds, and a structure that is in use is
    handed out a second time. *)
Theorem freelist_wraps_around :
  exists ls m, run false (initial 2) ls m /\ last ls = Some (Popped 128) /\ 128 ∈ tail (in_use m) /\
    spec_run ([], ∅) ls = None.
Proof.
  assert (E : hands_out_twice 128 (schedule false (initial 2) wrap_around) = true) by (vm_compute; reflexivity).
  destruct (schedule false (initial 2) wrap_around) as [[ls m]|] eqn:P; [|done].
  exists ls, m. split; [by eapply schedule_run|]. unfold hands_out_twice in E.
  apply andb_true_iff in E as [[E1 E2]%andb_true_iff E3]. split; [by apply bool_decide_eq_true in E1|].
  split; [by apply bool_decide_eq_true in E2|]. by destruct (spec_run ([], ∅) ls).
Qed.
