(* ===== verification/Slab.v ===== *)
(** The bump allocator of the memory manager: [__maps_balloc] and [__maps_newslab] of
    [libc/intrin/maps.c], and [cosmo_permalloc] of [libc/intrin/permalloc.c].

    Every atomic access is a step. [__maps_newslab] marks the pages of the new slab before it
    returns, and [__maps_mark] may call [__maps_balloc] in turn for the page tables: a thread has a
    stack of the calls that wait for their marking to end. [__maps_valloc] asks the system for
    memory, which is zero and is in no slab yet. *)
From S2P Require Import Prelude Threads FreeList.
From stdpp Require Import gmap.
#[local] Open Scope Z_scope.

Definition MAPS_SLAB_SIZE : Z := 65536.
(** [sizeof(struct MapSlab)]: the link and the counter. *)
Definition sizeof_MapSlab : Z := 16.

(** * State *)

Inductive pc :=
| Outside
| LoadSlabs (need : Z)               (** in [__maps_balloc], before the load of [__maps.slabs] *)
| LoadUsed (slab need : Z)           (** before the load of [slab->used] *)
| CasUsed (slab used need : Z)       (** before the exchange of [slab->used] *)
| FetchSub (need : Z)                (** in [__maps_newslab], before the subtraction *)
| Valloc (addr need : Z)             (** before [__maps_valloc] *)
| Publish (slab need : Z)            (** before the exchange of [__maps.slabs] *)
| Marking (slab need : Z).           (** in [__maps_mark] of the new slab *)

Record thread := MkThread { at_ : pc; waiting : list (Z * Z) }.

(** [useds] and [nexts] have the fields of the slabs that the system gave. *)
Record slab_state := MkSlabs { slabs : Z; bolloc : Z; useds : gmap Z Z; nexts : gmap Z Z; threads : list thread }.

(** A block of [need] bytes at [a] is returned, or null. *)
Inductive event := Block (a need : Z) | NoMemory.

Definition set_thread (m : slab_state) (k : nat) (t : thread) : slab_state :=
  MkSlabs (slabs m) (bolloc m) (useds m) (nexts m) (<[k := t]> (threads m)).
Definition set_used (m : slab_state) (slab u : Z) : slab_state :=
  MkSlabs (slabs m) (bolloc m) (<[slab := u]> (useds m)) (nexts m) (threads m).
Definition set_next (m : slab_state) (slab x : Z) : slab_state :=
  MkSlabs (slabs m) (bolloc m) (useds m) (<[slab := x]> (nexts m)) (threads m).
Definition set_slabs (m : slab_state) (slab : Z) : slab_state :=
  MkSlabs slab (bolloc m) (useds m) (nexts m) (threads m).
Definition set_bolloc (m : slab_state) (x : Z) : slab_state :=
  MkSlabs (slabs m) x (useds m) (nexts m) (threads m).

(** * Accesses *)

(** Where a thread goes on when [__maps_balloc] returns. *)
Definition return_ (ws : list (Z * Z)) : thread :=
  match ws with [] => MkThread Outside [] | (slab, need) :: ws => MkThread (Marking slab need) ws end.

Definition __maps_newslab (m : slab_state) (need : Z) : pc * slab_state :=
  (Valloc (u64 (bolloc m - MAPS_SLAB_SIZE)) need, set_bolloc m (u64 (bolloc m - MAPS_SLAB_SIZE))).

(** The test of the loop of [__maps_balloc]. *)
Definition used_test (slab used need : Z) : pc :=
  if MAPS_SLAB_SIZE - sizeof_MapSlab <? u64 (used + need) then FetchSub need else CasUsed slab used need.

Definition access (weak : bool) (m : slab_state) (k : nat) (t : thread) : option (option event * slab_state) :=
  let goto m p := Some (None, set_thread m k (MkThread p (waiting t))) in
  match at_ t with
  | LoadSlabs need => goto m (if slabs m =? 0 then FetchSub need else LoadUsed (slabs m) need)
  | LoadUsed slab need => goto m (used_test slab (link (useds m) slab) need)
  | CasUsed slab used need =>
    if (link (useds m) slab =? used) && negb weak
    then Some (Some (Block (u64 (slab + sizeof_MapSlab + used)) need),
           set_thread (set_used m slab (u64 (used + need))) k (return_ (waiting t)))
    else goto m (LoadUsed slab need)
  | FetchSub need => let '(p, m) := __maps_newslab m need in goto m p
  | Publish slab need =>
    if (slabs m =? link (nexts m) slab) && negb weak
    then goto (set_slabs m slab) (Marking slab need)
    else goto (set_next m slab (slabs m)) (Publish slab need)
  | Marking slab need => goto m (LoadUsed slab need)
  | Outside | Valloc _ _ => None
  end.

(** * Steps *)

(** Memory of the system that is in no slab. *)
Definition fresh_region (m : slab_state) (a : Z) : Prop :=
  good_ptr a /\ a + MAPS_SLAB_SIZE <= 2 ^ 56 /\
  forall s, is_Some (useds m !! s) -> a + MAPS_SLAB_SIZE <= s \/ s + MAPS_SLAB_SIZE <= a.

(** The sizes that are asked for. *)
Definition good_need (need : Z) : Prop := 0 < need <= 2 ^ 63 /\ need mod 8 = 0.

Inductive step (m : slab_state) : option event -> slab_state -> Prop :=
| call_balloc k need :
    threads m !! k = Some (MkThread Outside []) -> good_need need ->
    step m None (set_thread m k (MkThread (LoadSlabs need) []))
| call_nested k slab need ws need' :
    threads m !! k = Some (MkThread (Marking slab need) ws) -> good_need need' ->
    step m None (set_thread m k (MkThread (LoadSlabs need') ((slab, need) :: ws)))
| go_on k t weak r :
    threads m !! k = Some t -> access weak m k t = Some r -> step m r.1 r.2
| valloc k addr need ws a :
    threads m !! k = Some (MkThread (Valloc addr need) ws) -> fresh_region m a ->
    step m None (set_thread (set_next (set_used m a 0) a 0) k (MkThread (Publish a need) ws))
| valloc_fails k addr need ws :
    threads m !! k = Some (MkThread (Valloc addr need) ws) ->
    step m (Some NoMemory) (set_thread m k (return_ ws)).

Definition run : slab_state -> list event -> slab_state -> Prop := runs (fun _ => step).

(** After [__maps_init]: the first slab is part of [__maps]. *)
Definition initial (slab1 balloc : Z) (n : nat) : slab_state :=
  MkSlabs slab1 balloc {[slab1 := 0]} {[slab1 := 0]} (replicate n (MkThread Outside [])).

(** The blocks of a trace, the last one first. *)
Definition blocks (ls : list event) : list (Z * Z) :=
  rev (omap (fun e => match e with Block a need => Some (a, need) | NoMemory => None end) ls).

(** * [cosmo_permalloc] *)

(** What [cosmo_permalloc] asks for: a block of the bump allocator or pages of its own. *)
Inductive permalloc_request := Balloc (need : Z) | Mapanon (size : Z).

Definition cosmo_permalloc (pagesize size : Z) : permalloc_request :=
  if size <? pagesize
  then let size := if size =? 0 then size + 1 else size in
       Balloc (Z.land (u64 (size + 7)) (u64 (-8)))
  else Mapanon size.
