(* ===== verification/SlabFacts.v ===== *)
(** The blocks of [__maps_balloc] never overlap, in any interleaving, and the slabs that are
    published form a list that reaches all of them. *)
From S2P Require Import Prelude Threads FreeList FreeListFacts Slab.
From stdpp Require Import gmap.
#[local] Open Scope Z_scope.

(** * The invariant *)

Definition in_slab (s a : Z) : bool := (s <=? a) && (a <? s + MAPS_SLAB_SIZE).

(** The bytes of the blocks of a slab. *)
Definition filled (s : Z) (bs : list (Z * Z)) : Z :=
  foldr (fun b acc => (if in_slab s b.1 then b.2 else 0) + acc) 0 bs.

Definition separate (b c : Z * Z) : Prop := b.1 + b.2 <= c.1 \/ c.1 + c.2 <= b.1.

(** A block is in the used part of a slab, after the header. *)
Definition block_ok (m : slab_state) (b : Z * Z) : Prop :=
  0 < b.2 /\ b.1 mod 8 = 0 /\
  exists s u, useds m !! s = Some u /\ s + sizeof_MapSlab <= b.1 /\ b.1 + b.2 <= s + sizeof_MapSlab + u.

Definition slab_ok (bs : list (Z * Z)) (s u : Z) : Prop :=
  good_ptr s /\ s + MAPS_SLAB_SIZE <= 2 ^ 56 /\ 0 <= u <= MAPS_SLAB_SIZE - sizeof_MapSlab /\
  u mod 8 = 0 /\ u = filled s bs.

(** The slab a thread has not published yet. *)
Definition publishing (t : thread) : option Z := match at_ t with Publish s _ => Some s | _ => None end.

Definition known (m : slab_state) (s : Z) : Prop := is_Some (useds m !! s).

Definition pc_ok (m : slab_state) (p : pc) : Prop :=
  match p with
  | Outside => True
  | LoadSlabs need | FetchSub need | Valloc _ need => good_need need
  | LoadUsed s need | Publish s need | Marking s need => known m s /\ good_need need
  | CasUsed s u need => known m s /\ good_need need /\ 0 <= u /\ u + need <= MAPS_SLAB_SIZE - sizeof_MapSlab
  end.

Definition thread_ok (m : slab_state) (t : thread) : Prop :=
  pc_ok m (at_ t) /\ Forall (fun w => known m w.1 /\ good_need w.2) (waiting t).

Record good (bs : list (Z * Z)) (lst : list Z) (m : slab_state) : Prop := {
  good_head : slabs m = hd 0 lst;
  good_chain : chain (nexts m) lst;
  good_nodup : NoDup (lst ++ omap publishing (threads m));
  good_known : forall s, known m s <-> s ∈ lst ++ omap publishing (threads m);
  good_slabs : map_Forall (slab_ok bs) (useds m);
  good_apart : forall s s', known m s -> known m s' ->
    s = s' \/ s + MAPS_SLAB_SIZE <= s' \/ s' + MAPS_SLAB_SIZE <= s;
  good_blocks : Forall (block_ok m) bs;
  good_disjoint : ForallOrdPairs separate bs;
  good_threads : forall k t, threads m !! k = Some t -> thread_ok m t }.

(** * Preservation *)

Lemma thread_ok_mono m m' t :
  (forall s, known m s -> known m' s) -> thread_ok m t -> thread_ok m' t.
Proof.
  intros H [Hp Hw]. split; [|eapply Forall_impl; [done|]; naive_solver].
  destruct (at_ t); simpl in *; naive_solver.
Qed.

(** A thread moves and publishes what it published. *)
Lemma slabs_good_moved bs lst m k t t' :
  good bs lst m -> threads m !! k = Some t -> publishing t' = publishing t -> thread_ok m t' ->
  good bs lst (set_thread m k t').
Proof.
  intros [H1 H2 H3 H4 H5 H6 H7 H8 H9] Hk E Ht. pose proof (holders_goto publishing _ _ _ _ Hk E) as P.
  split; simpl; [done..|by rewrite P| |done|done|done|done|by apply insert_all].
  intros s. rewrite P. apply H4.
Qed.

Lemma good_bolloc bs lst m x : good bs lst m -> good bs lst (set_bolloc m x).
Proof. by intros []. Qed.

Lemma return_ok m ws : Forall (fun w => known m w.1 /\ good_need w.2) ws -> thread_ok m (return_ ws).
Proof. destruct ws as [|[s n] ws]; [done|]. by intros [? ?]%Forall_cons. Qed.

Lemma publishing_return ws : publishing (return_ ws) = None.
Proof. by destruct ws as [|[s n] ws]. Qed.

(** The blocks that are not in a slab do not fill it. *)
Lemma filled_none s bs : Forall (fun b => in_slab s b.1 = false) bs -> filled s bs = 0.
Proof. induction 1 as [|b bs Hb _ IH]; [done|]. simpl. rewrite Hb. fold (filled s bs). lia. Qed.

Lemma filled_cons s b bs : filled s (b :: bs) = (if in_slab s b.1 then b.2 else 0) + filled s bs.
Proof. done. Qed.

(** A block is in the slab it was taken from and in no other. *)
Lemma in_slab_iff bs lst m s s' a :
  good bs lst m -> known m s -> known m s' -> s <= a < s + MAPS_SLAB_SIZE -> in_slab s' a = bool_decide (s' = s).
Proof.
  intros G Hs Hs' Ha. unfold in_slab. case_bool_decide as E; [subst; lia|].
  destruct (good_apart _ _ _ G s s' Hs Hs') as [->|[H|H]]; [done|lia|lia].
Qed.

(** The exchange of [slab->used] takes the bytes after those in use. *)
Lemma good_take bs lst m s u need :
  good bs lst m -> useds m !! s = Some u -> good_need need -> u + need <= MAPS_SLAB_SIZE - sizeof_MapSlab ->
  good ((s + sizeof_MapSlab + u, need) :: bs) lst (set_used m s (u + need)).
Proof.
  intros G Hs [Hn H8] Hfit. pose proof G as [H1 H2 H3 H4 H5 H6 H7 H8' H9].
  assert (K : forall s', known (set_used m s (u + need)) s' <-> known m s').
  { intros s'. unfold known. simpl. destruct (decide (s = s')) as [<-|]; simplify_map_eq; naive_solver. }
  destruct (H5 s u Hs) as (P1 & P2 & P3 & P4 & P5). pose proof P1 as [_ P6].
  unfold MAPS_SLAB_SIZE, sizeof_MapSlab in *.
  split; simpl; [done..|by setoid_rewrite K| | | | |].
  - intros s' u' Hs'. destruct (decide (s = s')) as [<-|Hne]; simplify_map_eq; rewrite ?filled_cons;
      unfold slab_ok; rewrite ?filled_cons; cbn [fst snd];
      rewrite (in_slab_iff bs lst m s _ _ G) by (unfold known, MAPS_SLAB_SIZE; try done; lia).
    + rewrite bool_decide_true by done. unfold MAPS_SLAB_SIZE, sizeof_MapSlab. split_and!; try done; lia.
    + rewrite bool_decide_false by done. exact (H5 s' u' Hs').
  - intros s1 s2. rewrite !K. apply H6.
  - constructor.
    + unfold block_ok, sizeof_MapSlab. simpl. split; [lia|]. split; [lia|]. exists s, (u + need).
      rewrite lookup_insert_eq. split; [done|lia].
    + eapply Forall_impl; [done|]. intros b (B1 & B2 & s' & u' & B3 & B4). split; [done|]. split; [done|].
      simpl. destruct (decide (s = s')) as [<-|Hne]; [|exists s', u'; by rewrite lookup_insert_ne].
      exists s, (u + need). rewrite lookup_insert_eq. simplify_eq. split; [done|lia].
  - constructor; [|done]. eapply Forall_impl; [done|]. intros b (B1 & B2 & s' & u' & B3 & B4).
    unfold separate, sizeof_MapSlab in *. simpl. destruct (H5 s' u' B3) as (_ & _ & Q & _).
    unfold MAPS_SLAB_SIZE, sizeof_MapSlab in Q.
    destruct (H6 s s') as [<-|[?|?]]; [by eexists..|simplify_eq; lia|lia|lia].
  - intros k t Hk. eapply thread_ok_mono, H9, Hk. intros s'. by rewrite K.
Qed.

(** A new slab of the system. *)
Lemma good_valloc bs lst m k t a need ws :
  good bs lst m -> threads m !! k = Some t -> publishing t = None -> fresh_region m a -> good_need need ->
  Forall (fun w => known m w.1 /\ good_need w.2) ws ->
  good bs lst (set_thread (set_next (set_used m a 0) a 0) k (MkThread (Publish a need) ws)).
Proof.
  intros G Hk Hp (Ha & Hr & Hf) Hn Hw. pose proof G as [H1 H2 H3 H4 H5 H6 H7 H8 H9].
  assert (Hnew : ~ known m a) by (intros K; specialize (Hf a K); unfold MAPS_SLAB_SIZE in Hf; lia).
  destruct (holders_insert publishing _ _ _ Hk) as (X & P1 & P2). specialize (P2 (MkThread (Publish a need) ws)).
  rewrite Hp in P1. simpl in P1, P2. rewrite <- P1 in P2.
  set (m' := set_thread _ _ _). assert (K : forall s, known m' s <-> s = a \/ known m s).
  { intros s. unfold known. simpl. destruct (decide (a = s)) as [<-|]; simplify_map_eq; naive_solver. }
  assert (P : lst ++ omap publishing (threads m') ≡ₚ a :: (lst ++ omap publishing (threads m))).
  { simpl. rewrite P2. symmetry. apply Permutation_middle. }
  assert (Kt : forall t, thread_ok m t -> thread_ok m' t).
  { intros t'. apply thread_ok_mono. intros s. rewrite K. by right. }
  split; [done| | | | | | |done|].
  - simpl. apply chain_insert; [|done]. intros Hi. apply Hnew, H4. set_solver.
  - rewrite P. constructor; [by rewrite <- H4|done].
  - intros s. rewrite K, P, elem_of_cons. by rewrite H4.
  - intros s u. simpl. destruct (decide (a = s)) as [<-|]; intros Hs; simplify_map_eq; [|by apply H5].
    split; [done|]. split; [done|]. unfold MAPS_SLAB_SIZE, sizeof_MapSlab. split; [lia|]. split; [done|].
    symmetry. apply filled_none. eapply Forall_impl; [exact H7|]. intros b (B1 & _ & s' & u' & B3 & B4).
    destruct (H5 s' u' B3) as (_ & _ & Q & _). destruct (Hf s') as [?|?]; [by eexists|..];
      unfold in_slab, MAPS_SLAB_SIZE, sizeof_MapSlab in *; lia.
  - intros s s'. rewrite !K. intros [->|Hs] [->|Hs']; [by left|specialize (Hf s' Hs'); lia|specialize (Hf s Hs); lia|by apply H6].
  - eapply Forall_impl; [exact H7|]. intros b (B1 & B2 & s' & u' & B3 & B4). split; [done|]. split; [done|].
    exists s', u'. split; [|done]. simpl. rewrite lookup_insert_ne; [done|]. intros ->. apply Hnew. by eexists.
  - apply insert_all; [|intros i r Hi; by apply Kt, (H9 i)].
    split; [split; [rewrite K; by left|done]|]. eapply Forall_impl; [exact Hw|].
    intros w [? ?]. rewrite K. naive_solver.
Qed.

(** The exchange of [__maps.slabs] fails: the link is the list of the moment. *)
Lemma good_relink bs lst m s x : good bs lst m -> s ∈ omap publishing (threads m) -> good bs lst (set_next m s x).
Proof.
  intros [H1 H2 H3 H4 H5 H6 H7 H8 H9] Hs. split; try done. simpl. apply chain_insert; [|done].
  intros Hi. apply NoDup_app in H3 as (_ & H3 & _). by apply (H3 s).
Qed.

(** It succeeds: the slab is the first of the list. *)
Lemma good_publish bs lst m k t s t' :
  good bs lst m -> threads m !! k = Some t -> publishing t = Some s -> publishing t' = None ->
  link (nexts m) s = slabs m -> thread_ok m t' ->
  good bs (s :: lst) (set_thread (set_slabs m s) k t').
Proof.
  intros [H1 H2 H3 H4 H5 H6 H7 H8 H9] Hk Hp Hp' Hl Ht.
  destruct (holders_insert publishing _ _ _ Hk) as (X & P1 & P2). specialize (P2 t').
  rewrite Hp in P1. rewrite Hp' in P2. simpl in P1, P2.
  assert (P : (s :: lst) ++ omap publishing (<[k := t']> (threads m)) ≡ₚ lst ++ omap publishing (threads m)).
  { rewrite P1, P2. simpl. apply Permutation_middle. }
  split; simpl; [done|by rewrite Hl|by rewrite P| |done|done|done|done|by apply insert_all].
  intros s'. unfold known. simpl. rewrite P. apply H4.
Qed.

Lemma publishing_in m k t s : threads m !! k = Some t -> publishing t = Some s -> s ∈ omap publishing (threads m).
Proof. intros Hk E. apply list_elem_of_omap. exists t. split; [by apply (list_elem_of_lookup_2 _ k)|done]. Qed.

(** The blocks after a step. *)
Definition grown (bs : list (Z * Z)) (e : option event) : list (Z * Z) :=
  match e with Some (Block a need) => (a, need) :: bs | _ => bs end.

Lemma link_known m s : known m s -> useds m !! s = Some (link (useds m) s).
Proof. intros [u Hu]. unfold link. by rewrite Hu. Qed.

Lemma used_test_ok bs lst m s need :
  good bs lst m -> known m s -> good_need need -> pc_ok m (used_test s (link (useds m) s) need).
Proof.
  intros G Hs Hn. pose proof (good_slabs _ _ _ G s _ (link_known m s Hs)) as (_ & _ & Hu & _).
  pose proof Hn as [Hn' _]. unfold used_test, MAPS_SLAB_SIZE, sizeof_MapSlab in *. case_match eqn:E; simpl; [done|].
  unfold u64, MAPS_SLAB_SIZE, sizeof_MapSlab in *. split_and!; [done..|lia|]. rewrite Z.mod_small in E; lia.
Qed.

Lemma access_good bs lst m k t weak e m' :
  good bs lst m -> threads m !! k = Some t -> access weak m k t = Some (e, m') ->
  exists lst', good (grown bs e) lst' m'.
Proof.
  intros G Hk A. pose proof (good_threads _ _ _ G k t Hk) as [Hp Hw]. unfold access in A.
  destruct t as [p ws]. cbn [at_ waiting] in *. destruct p as [|need|s need|s u need|need|a need|s need|s need]; try done.
  - exists lst. injection A as <- <-. eapply slabs_good_moved; [done..|by case_match|]. split; [|done]. simpl.
    case_match; simpl; [done|]. split; [|done]. rewrite (good_known _ _ _ G), (good_head _ _ _ G) in *.
    destruct lst as [|s lst]; [simpl in *; lia|]. simpl. set_solver.
  - exists lst. injection A as <- <-. destruct Hp. eapply slabs_good_moved; [done..| |].
    + unfold used_test. simpl. by case_match.
    + split; [by eapply used_test_ok|done].
  - destruct Hp as (Hs & Hn & Hu & Hfit). exists lst.
    destruct ((link (useds m) s =? u) && negb weak) eqn:E; injection A as <- <-;
      [|eapply slabs_good_moved; [done..|]; by split].
    pose proof (link_known m s Hs) as Hl. replace (link (useds m) s) with u in Hl by lia.
    pose proof (good_take _ _ _ _ _ _ G Hl Hn Hfit) as G'. destruct (good_slabs _ _ _ G s u Hl) as (Q1 & Q2 & _).
    destruct Q1 as [Q1 _]. pose proof Hn as [Hn' _]. unfold grown. unfold u64. unfold MAPS_SLAB_SIZE, sizeof_MapSlab in *.
    rewrite !Z.mod_small by lia. eapply slabs_good_moved; [exact G'|exact Hk|by rewrite publishing_return|].
    apply return_ok. eapply Forall_impl; [exact Hw|]. intros w [Hw1 Hw2]. split; [|done].
    unfold known. simpl. destruct (decide (s = w.1)) as [<-|]; simplify_map_eq; [by eexists|done].
  - exists lst. injection A as <- <-. apply (slabs_good_moved _ _ (set_bolloc m _) k (MkThread (FetchSub need) ws)); [by apply good_bolloc|done..].
  - destruct Hp as [Hs Hn]. destruct ((slabs m =? link (nexts m) s) && negb weak) eqn:E; injection A as <- <-.
    + exists (s :: lst). eapply good_publish; [done..|lia|done].
    + exists lst. apply (slabs_good_moved _ _ (set_next m s (slabs m)) k (MkThread (Publish s need) ws)); [|done..].
      apply good_relink; [done|]. by eapply publishing_in.
  - exists lst. injection A as <- <-. by eapply slabs_good_moved.
Qed.

Lemma step_good bs lst m e m' : good bs lst m -> step m e m' -> exists lst', good (grown bs e) lst' m'.
Proof.
  intros G St. pose proof (good_threads _ _ _ G) as T.
  destruct St as [k need Hk Hn|k s need ws need' Hk Hn|k t weak [e m'] Hk A|k addr need ws a Hk Hf|k addr need ws Hk].
  - exists lst. by eapply slabs_good_moved.
  - exists lst. destruct (T _ _ Hk) as [[? ?] ?]. eapply slabs_good_moved; [done..|]. split; [done|]. by constructor.
  - by eapply access_good.
  - exists lst. destruct (T _ _ Hk) as [? ?]. by eapply good_valloc.
  - exists lst. destruct (T _ _ Hk) as [? ?]. eapply slabs_good_moved; [done..|by rewrite publishing_return|by apply return_ok].
Qed.

(** * Correctness *)

Lemma slabs_good_initial slab1 b n :
  good_ptr slab1 -> slab1 + MAPS_SLAB_SIZE <= 2 ^ 56 -> good [] [slab1] (initial slab1 b n).
Proof.
  intros Hs Hr. assert (P : omap publishing (replicate n (MkThread Outside [])) = []) by (by induction n).
  assert (K : forall s, known (initial slab1 b n) s <-> s = slab1).
  { intros s. unfold known. simpl. rewrite lookup_singleton. case_decide; naive_solver. }
  split; simpl; rewrite ?P; [done| | | | | |done|constructor|].
  - split; [|done]. unfold link. by rewrite lookup_singleton_eq.
  - apply NoDup_singleton.
  - intros s. rewrite K. set_solver.
  - apply map_Forall_singleton. split; [done|]. split; [done|]. by unfold MAPS_SLAB_SIZE, sizeof_MapSlab.
  - intros s s'. rewrite !K. naive_solver.
  - intros k t Hk. apply lookup_replicate in Hk as [-> _]. by split.
Qed.

Lemma blocks_app ls e : blocks (ls ++ option_list e) = grown (blocks ls) e.
Proof. unfold blocks. rewrite omap_app, rev_app_distr. by destruct e as [[]|]. Qed.

Lemma run_good slab1 b n ls m :
  good_ptr slab1 -> slab1 + MAPS_SLAB_SIZE <= 2 ^ 56 -> run (initial slab1 b n) ls m ->
  exists lst, good (blocks ls) lst m.
Proof.
  intros Hs Hr R. induction R as [|ls m1 e m2 R (lst & G) St]; [exists [slab1]; by apply slabs_good_initial|].
  rewrite blocks_app. by eapply step_good.
Qed.

Lemma block_good bs lst m b : good bs lst m -> block_ok m b -> good_ptr b.1 /\
  exists s u, useds m !! s = Some u /\ s + sizeof_MapSlab <= b.1 /\ b.1 + b.2 <= s + sizeof_MapSlab + u <= s + MAPS_SLAB_SIZE.
Proof.
  intros G (B1 & B2 & s & u & B3 & B4 & B5). destruct (good_slabs _ _ _ G s u B3) as (Q1 & Q2 & Q3 & _).
  destruct Q1. unfold good_ptr, MAPS_SLAB_SIZE, sizeof_MapSlab in *. split; [lia|]. exists s, u. split; [done|lia].
Qed.

(** Steps that are executed. *)
Inductive action := Call (k : nat) (need : Z) | Nested (k : nat) (need : Z) | Go (k : nat) | Spurious (k : nat) | Give (k : nat) (a : Z).

#[local] Instance good_need_dec need : Decision (good_need need).
Proof. unfold good_need. apply _. Defined.

(** [fresh_region] as a test. *)
Definition is_fresh (m : slab_state) (a : Z) : bool :=
  bool_decide (0 < a < 2 ^ 56 /\ a mod 8 = 0 /\ a + MAPS_SLAB_SIZE <= 2 ^ 56) &&
  forallb (fun s => (a + MAPS_SLAB_SIZE <=? s.1) || (s.1 + MAPS_SLAB_SIZE <=? a)) (map_to_list (useds m)).

Lemma is_fresh_sound m a : is_fresh m a = true -> fresh_region m a.
Proof.
  unfold is_fresh. intros [E F]%andb_true_iff. apply bool_decide_eq_true in E as (E1 & E2 & E3).
  split; [done|]. split; [done|]. intros s [u Hs]. rewrite forallb_forall in F.
  apply elem_of_map_to_list, list_elem_of_In in Hs. specialize (F _ Hs). simpl in F. lia.
Qed.

Definition act (m : slab_state) (x : action) : option (option event * slab_state) :=
  match x with
  | Call k need =>
    t ← threads m !! k;
    match t with
    | MkThread Outside [] => if bool_decide (good_need need) then Some (None, set_thread m k (MkThread (LoadSlabs need) [])) else None
    | _ => None
    end
  | Nested k need' =>
    t ← threads m !! k;
    match t with
    | MkThread (Marking slab need) ws =>
      if bool_decide (good_need need') then Some (None, set_thread m k (MkThread (LoadSlabs need') ((slab, need) :: ws))) else None
    | _ => None
    end
  | Go k => t ← threads m !! k; access false m k t
  | Spurious k => t ← threads m !! k; access true m k t
  | Give k a =>
    t ← threads m !! k;
    match t with
    | MkThread (Valloc _ need) ws =>
      if is_fresh m a then Some (None, set_thread (set_next (set_used m a 0) a 0) k (MkThread (Publish a need) ws)) else None
    | _ => None
    end
  end.

Lemma slab_act_step m x r : act m x = Some r -> step m r.1 r.2.
Proof.
  destruct x as [k need|k need'|k|k|k a]; simpl; destruct (threads m !! k) as [[p ws]|] eqn:Hk; simpl; try done.
  - destruct p, ws; try done. case_bool_decide; [|done]. intros [= <-]. by apply call_balloc.
  - destruct p; try done. case_bool_decide; [|done]. intros [= <-]. by apply call_nested.
  - by apply go_on.
  - by apply go_on.
  - destruct p; try done. case_match eqn:F; [|done]. intros [= <-]. eapply valloc; [done|by apply is_fresh_sound].
Qed.

Definition schedule (m : slab_state) := play (fun _ => act) [] m.

Lemma slabs_schedule_run m xs ls m' : schedule m xs = Some (ls, m') -> run m ls m'.
Proof. apply (play_runs (fun _ => step) (fun _ => act)); [intros ? *; apply slab_act_step|constructor]. Qed.

(** C24: the blocks that [__maps_balloc] hands out never overlap. In every interleaving of any number
    of threads, the calls that [__maps_mark] nests in [__maps_newslab] included, with exchanges that
    fail spuriously and with slabs that several threads add at once: any two blocks are separate,
    each is 8-byte aligned, below 2^56 and inside one slab of the system after its header, the
    counter of a slab is the number of bytes of its blocks, and the list from [__maps.slabs] has
    every slab, once, but those about to be put into it. *)
Theorem balloc_correct slab1 b n ls m :
  good_ptr slab1 -> slab1 + MAPS_SLAB_SIZE <= 2 ^ 56 -> run (initial slab1 b n) ls m ->
  ForallOrdPairs separate (blocks ls) /\
  Forall (fun b => good_ptr b.1 /\ exists s u, useds m !! s = Some u /\ s + sizeof_MapSlab <= b.1 /\
    b.1 + b.2 <= s + sizeof_MapSlab + u <= s + MAPS_SLAB_SIZE) (blocks ls) /\
  (forall s u, useds m !! s = Some u -> u = filled s (blocks ls)) /\
  exists lst, slabs m = hd 0 lst /\ chain (nexts m) lst /\ NoDup (lst ++ omap publishing (threads m)) /\
    forall s, known m s <-> s ∈ lst ++ omap publishing (threads m).
Proof.
  intros Hs Hr R. destruct (run_good _ _ _ _ _ Hs Hr R) as (lst & G).
  split; [apply G|]. split; [eapply Forall_impl; [apply G|]; intros c; by eapply block_good|].
  split; [intros s u Hu; by apply (good_slabs _ _ _ G s u Hu)|]. exists lst. split_and!; apply G.
Qed.

(** Two threads race for the first slab, then both find it full and each adds one; the marking of
    one of the new slabs takes a block for a page table. *)
Definition race : list action :=
  [Call 0 40000; Go 0; Go 0; Call 1 72; Go 1; Go 1; Go 1; Go 0; Go 0; Spurious 0; Go 0; Go 0;
   Call 0 30000; Go 0; Go 0; Go 0; Call 1 30000; Go 1; Go 1; Go 1; Give 0 131072; Give 1 262144;
   Go 0; Go 1; Go 0; Go 1; Go 1; Nested 1 4096; Go 1; Go 1; Go 1; Go 1; Go 1; Go 1; Go 0; Go 0; Go 0].

Lemma balloc_correct_witness :
  exists ls m, run (initial 8 0 2) ls m /\ blocks ls = [(131088, 30000); (266256, 30000); (262160, 4096); (96, 40000); (24, 72)] /\
  ForallOrdPairs separate (blocks ls) /\
  Forall (fun b => good_ptr b.1 /\ exists s u, useds m !! s = Some u /\ s + sizeof_MapSlab <= b.1 /\
    b.1 + b.2 <= s + sizeof_MapSlab + u <= s + MAPS_SLAB_SIZE) (blocks ls) /\
  (forall s u, useds m !! s = Some u -> u = filled s (blocks ls)) /\
  exists lst, slabs m = hd 0 lst /\ chain (nexts m) lst /\ NoDup (lst ++ omap publishing (threads m)) /\
    forall s, known m s <-> s ∈ lst ++ omap publishing (threads m).
Proof.
  destruct (schedule (initial 8 0 2) race) as [[ls m]|] eqn:E; [|vm_compute in E; discriminate].
  assert (R : run (initial 8 0 2) ls m) by (by eapply slabs_schedule_run).
  exists ls, m. split; [exact R|]. split; [vm_compute in E; injection E as <- _; vm_compute; reflexivity|].
  apply (balloc_correct 8 0 2 ls m); [split; [lia|reflexivity]|vm_compute; discriminate|exact R].
Defined.

(** What [__maps_alloc] relies on: the address of a block is a pointer whose spare bits are zero
    and was not handed out before. *)
Lemma balloc_fresh slab1 b n ls a need m :
  good_ptr slab1 -> slab1 + MAPS_SLAB_SIZE <= 2 ^ 56 -> run (initial slab1 b n) (ls ++ [Block a need]) m ->
  good_ptr a /\ a ∉ (blocks ls).*1.
Proof.
  intros Hs Hr R. destruct (run_good _ _ _ _ _ Hs Hr R) as (lst & G).
  pose proof (blocks_app ls (Some (Block a need))) as Eb. simpl in Eb. rewrite Eb in G. pose proof (good_blocks _ _ _ G) as B.
  apply Forall_cons in B as [B Bs]. split; [by apply (block_good _ _ _ _ G B)|].
  rewrite list_elem_of_fmap. intros (c & E & Hc). pose proof (good_disjoint _ _ _ G) as D. inversion_clear D as [|? ? D1 D2].
  rewrite Forall_forall in D1, Bs. specialize (D1 c Hc). destruct (Bs c Hc) as [? _]. destruct B as [? _].
  unfold separate in D1. simpl in *. lia.
Qed.

(** * Progress *)

(** Thread [k] alone, with strong exchanges; the system gives [a] when it is asked. *)
Definition solo_step (a : Z) (m : slab_state) (k : nat) : option (option event * slab_state) :=
  t ← threads m !! k;
  match at_ t with
  | Valloc _ need => Some (None, set_thread (set_next (set_used m a 0) a 0) k (MkThread (Publish a need) (waiting t)))
  | _ => access false m k t
  end.

Fixpoint solo (fuel : nat) (a : Z) (m : slab_state) (k : nat) : option (event * slab_state) :=
  match fuel with
  | O => None
  | S fuel' =>
    r ← solo_step a m k;
    match r.1 with Some e => Some (e, r.2) | None => solo fuel' a r.2 k end
  end.

Lemma solo_S fuel a m k e m' :
  solo_step a m k = Some (e, m') ->
  solo (S fuel) a m k = match e with Some e => Some (e, m') | None => solo fuel a m' k end.
Proof. intros H. cbn [solo]. rewrite H. done. Qed.

Lemma at_moved m k p ws t : threads m !! k = Some t -> threads (set_thread m k (MkThread p ws)) !! k = Some (MkThread p ws).
Proof. intros Hk. simpl. apply list_lookup_insert_eq. by eapply lookup_lt_Some. Qed.

Lemma solo_access fuel a m k p ws e m' :
  threads m !! k = Some (MkThread p ws) -> (match p with Valloc _ _ => False | _ => True end) ->
  access false m k (MkThread p ws) = Some (e, m') ->
  solo (S fuel) a m k = match e with Some e => Some (e, m') | None => solo fuel a m' k end.
Proof. intros Hk Hp A. apply solo_S. unfold solo_step. rewrite Hk. simpl. by destruct p. Qed.

(** A slab with room. *)
Lemma solo_take fuel a m k s need ws u :
  threads m !! k = Some (MkThread (LoadUsed s need) ws) -> useds m !! s = Some u -> 0 <= u -> good_need need ->
  u + need <= MAPS_SLAB_SIZE - sizeof_MapSlab ->
  exists b m', solo (S (S fuel)) a m k = Some (Block b need, m').
Proof.
  intros Hk Hs Hu [Hn _] Hfit. assert (Hl : link (useds m) s = u) by (unfold link; by rewrite Hs).
  unfold MAPS_SLAB_SIZE, sizeof_MapSlab in *.
  assert (Ht : used_test s u need = CasUsed s u need).
  { unfold used_test, u64, MAPS_SLAB_SIZE, sizeof_MapSlab. rewrite Z.mod_small by lia. case_match; [lia|done]. }
  erewrite solo_access; [|done|done|unfold access; cbn [at_ waiting]; rewrite Hl, Ht; reflexivity].
  erewrite solo_access; [|by eapply at_moved|done|unfold access; cbn; rewrite Hl, Z.eqb_refl; reflexivity].
  eauto.
Qed.

(** Once a slab is the first of the list its counter is read. *)
Lemma solo_published fuel a m k need ws :
  threads m !! k = Some (MkThread (Publish a need) ws) -> slabs m = link (nexts m) a -> useds m !! a = Some 0 ->
  exists m', solo (2 + fuel) a m k = solo fuel a m' k /\
    threads m' !! k = Some (MkThread (LoadUsed a need) ws) /\ useds m' !! a = Some 0.
Proof.
  intros Hk E Hu. cbn [Nat.add].
  erewrite solo_access; [|done|done|unfold access; cbn; rewrite E, Z.eqb_refl; reflexivity]. cbn iota.
  erewrite solo_access; [|eapply at_moved; exact Hk|done|reflexivity]. cbn iota.
  eexists. split; [done|]. split; [eapply at_moved, (at_moved (set_slabs m a)); exact Hk|done].
Qed.

Lemma solo_publish m fuel a k need ws :
  threads m !! k = Some (MkThread (Publish a need) ws) -> useds m !! a = Some 0 ->
  exists f m', solo (5 + fuel) a m k = solo (S (S f)) a m' k /\
    threads m' !! k = Some (MkThread (LoadUsed a need) ws) /\ useds m' !! a = Some 0.
Proof.
  intros Hk Hu. destruct (Z.eq_dec (slabs m) (link (nexts m) a)) as [E|E].
  - exists (S fuel). by apply (solo_published (3 + fuel)).
  - exists fuel. change (5 + fuel)%nat with (S (2 + (2 + fuel))).
    erewrite solo_access; [|done|done|unfold access; cbn; apply Z.eqb_neq in E; rewrite E; reflexivity]. cbn iota.
    apply solo_published; [by eapply (at_moved (set_next m a (slabs m)))| |done].
    simpl. by rewrite link_insert, decide_True.
Qed.

(** A new slab: the exchange of [__maps.slabs] fails once at most. *)
Lemma solo_new fuel a m k need ws :
  threads m !! k = Some (MkThread (FetchSub need) ws) -> good_need need -> need <= MAPS_SLAB_SIZE - sizeof_MapSlab ->
  exists b m', solo (7 + fuel) a m k = Some (Block b need, m').
Proof.
  intros Hk Hn Hfit. cbn [Nat.add].
  erewrite solo_access; [|done|done|reflexivity]. cbn iota.
  set (m1 := set_thread _ _ _). assert (H1 : threads m1 !! k = Some (MkThread (Valloc (u64 (bolloc m - MAPS_SLAB_SIZE)) need) ws)) by (by eapply at_moved).
  erewrite solo_S; [|unfold solo_step; rewrite H1; reflexivity]. cbn [waiting].
  set (m2 := set_thread _ k (MkThread (Publish a need) ws)).
  assert (H2 : threads m2 !! k = Some (MkThread (Publish a need) ws)) by (eapply at_moved; exact H1).
  assert (U : useds m2 !! a = Some 0) by apply lookup_insert_eq.
  destruct (solo_publish m2 fuel a k need ws H2 U) as (f & m3 & E & H3 & Hu). cbn [Nat.add] in E. rewrite E.
  eapply solo_take; [done|exact Hu|lia|done|lia].
Qed.



(** * [cosmo_permalloc] *)

(** Below the page size the bump allocator is asked for the size rounded up to 8 bytes. *)
Lemma permalloc_asks pagesize size :
  0 <= size < pagesize -> pagesize <= 2 ^ 62 ->
  exists need, cosmo_permalloc pagesize size = Balloc need /\ good_need need /\ size <= need <= size + 8.
Proof.
  intros Hs Hp. unfold cosmo_permalloc. case_match; [|lia]. eexists. split; [done|].
  set (x := if size =? 0 then size + 1 else size). assert (Hx : 1 <= x /\ size <= x <= size + 1 /\ (size = 0 \/ x = size)).
  { unfold x. case_match; lia. }
  change (u64 (-8)) with ((2 ^ 61 - 1) * 2 ^ 3). rewrite land_field by lia. unfold good_need, u64. lia.
Qed.

(** On a system with pages of 64 kilobytes, requests of the sizes just below are sent to the bump
    allocator although no slab has room for them: the call never returns a block, it adds slabs
    until the system refuses one. *)
Theorem permalloc_too_large slab1 b n ls m size :
  good_ptr slab1 -> slab1 + MAPS_SLAB_SIZE <= 2 ^ 56 -> run (initial slab1 b n) ls m -> 65520 < size < 65536 ->
  exists need, cosmo_permalloc 65536 size = Balloc need /\ forall a, (a, need) ∉ blocks ls.
Proof.
  intros Hs Hr R Hz. destruct (permalloc_asks 65536 size) as (need & E & Hn & Hle); [lia..|].
  exists need. split; [done|]. intros a Ha. destruct (run_good _ _ _ _ _ Hs Hr R) as (lst & G).
  pose proof (good_blocks _ _ _ G) as B. rewrite Forall_forall in B.
  destruct (block_good _ _ _ _ G (B _ Ha)) as (_ & s & u & _ & H1 & H2). unfold sizeof_MapSlab, MAPS_SLAB_SIZE in *. simpl in *. lia.
Qed.
