(* ===== verification/Qsort.v ===== *)
(** [qsort_r] of [libc/str/qsort.c]: quicksort with a three-way partition, insertion sort below
    seven elements, and smoothsort when the recursion gets deep. An array is a list of elements and
    a pointer an index of one; an access outside of the array is [None]. How elements are
    swapped, by words or by bytes, makes no difference to the array. *)
From Stdlib Require Import Sorted Permutation.
From S2P Require Import Prelude.
From stdpp Require Import list.
#[local] Open Scope Z_scope.

(** * Sorting routines *)

(** What a comparison has to be on the elements of an array: results for arguments the other way
    around have the opposite sign, and not being above is transitive. *)
Record ordering {A} (cmp : A -> A -> Z) (P : A -> Prop) : Prop := {
  ordering_flip x y : P x -> P y -> Z.sgn (cmp y x) = - Z.sgn (cmp x y);
  ordering_trans x y z : P x -> P y -> P z -> cmp x y <= 0 -> cmp y z <= 0 -> cmp x z <= 0 }.

Definition sorted_by {A} (cmp : A -> A -> Z) (l : list A) : Prop := StronglySorted (fun x y => cmp x y <= 0) l.

(** A routine that sorts, which [qsort_r] falls back to. *)
Class Sorter (A : Type) := cosmo_smoothsort_r : (A -> A -> Z) -> list A -> list A.
Class SorterLaws (A : Type) (S : Sorter A) : Prop := {
  smoothsort_permutes cmp l : Permutation (cosmo_smoothsort_r cmp l) l;
  smoothsort_sorts cmp l : ordering cmp (fun x => x ∈ l) -> sorted_by cmp (cosmo_smoothsort_r cmp l) }.

Section Qsort.
Context {A : Type} {smooth : Sorter A} (cmp : A -> A -> Z).
Implicit Types (a : list A).

(** * Swaps *)

Definition swap a (i j : nat) : option (list A) :=
  x ← a !! i; y ← a !! j; Some (<[j := x]> (<[i := y]> a)).

(** [r] elements from [i] and from [j] on. *)
Fixpoint vecswap a (i j r : nat) : option (list A) :=
  match r with
  | O => Some a
  | S r => a ← swap a i j; vecswap a (S i) (S j) r
  end.

Definition compare a (i j : nat) : option Z := x ← a !! i; y ← a !! j; Some (cmp x y).

Definition med3 a (i j k : nat) : option nat :=
  ij ← compare a i j; jk ← compare a j k; ik ← compare a i k;
  Some (if ij <? 0 then (if jk <? 0 then j else if ik <? 0 then k else i)
        else (if jk >? 0 then j else if ik <? 0 then i else k)).

(** * Insertion sort *)

Fixpoint sink a (pl : nat) : option (list A) :=
  match pl with
  | O => Some a
  | S k => c ← compare a k (S k); if c >? 0 then a ← swap a (S k) k; sink a k else Some a
  end.

(** The outer loop with [todo] iterations to go. *)
Fixpoint insertion (todo : nat) a (pm : nat) : option (list A) :=
  match todo with
  | O => Some a
  | S todo => a ← sink a pm; insertion todo a (S pm)
  end.

(** * Partition *)

(** The first inner loop: [pa] and [pb] afterwards. *)
Fixpoint part_up (fuel : nat) a (pa pb pc : nat) : option (list A * nat * nat) :=
  if negb (pb <=? pc)%nat then Some (a, pa, pb)
  else
    match fuel with
    | O => None
    | S fuel =>
      c ← compare a pb 0;
      if c >? 0 then Some (a, pa, pb)
      else if c =? 0 then a ← swap a pa pb; part_up fuel a (pa + 1) (pb + 1) pc
      else part_up fuel a pa (pb + 1) pc
    end.

(** The second: [pc] and [pd]. *)
Fixpoint part_down (fuel : nat) a (pb pc pd : nat) : option (list A * nat * nat) :=
  if negb (pb <=? pc)%nat then Some (a, pc, pd)
  else
    match fuel with
    | O => None
    | S fuel =>
      c ← compare a pc 0;
      if c <? 0 then Some (a, pc, pd)
      else if c =? 0 then a ← swap a pc pd; part_down fuel a pb (pc - 1) (pd - 1)
      else part_down fuel a pb (pc - 1) pd
    end.

Fixpoint part (fuel : nat) a (pa pb pc pd : nat) : option (list A * (nat * nat * nat * nat)) :=
  match fuel with
  | O => None
  | S fuel =>
    '(a, pa, pb) ← part_up (length a) a pa pb pc;
    '(a, pc, pd) ← part_down (length a) a pb pc pd;
    if (pc <? pb)%nat then Some (a, (pa, pb, pc, pd))
    else a ← swap a pb pc; part fuel a pa (pb + 1) (pc - 1) pd
  end.

(** * [introsort] *)

(** The element that is put in front. *)
Definition pivot a : option nat :=
  let n := length a in
  let pm := (n / 2)%nat in
  if (7 <? n)%nat then
    let pl := 0%nat in
    let pn := (n - 1)%nat in
    '(pl, pm, pn) ←
      (if (40 <? n)%nat then
         let s := (n / 8)%nat in
         pl ← med3 a pl (pl + s) (pl + 2 * s); pm ← med3 a (pm - s) pm (pm + s); pn ← med3 a (pn - 2 * s) (pn - s) pn;
         Some (pl, pm, pn)
       else Some (pl, pm, pn));
    med3 a pl pm pn
  else Some pm.

(** The array with what is below the pivot, what is equal and what is above, and the sizes of the
    first and the last part. *)
Definition split_around a : option (list A * nat * nat) :=
  pm ← pivot a;
  a ← swap a 0 pm;
  '(a, (pa, pb, pc, pd)) ← part (length a) a 1 1 (length a - 1) (length a - 1);
  let pn := length a in
  let r := Nat.min pa (pb - pa) in
  a ← vecswap a 0 (pb - r) r;
  let r := Nat.min (pd - pc) (pn - pd - 1) in
  a ← vecswap a pb (pn - r) r;
  Some (a, (pb - pa)%nat, (pd - pc)%nat).

Fixpoint introsort (maxdepth : nat) a : option (list A) :=
  if (length a <? 7)%nat then insertion (length a - 1) a 1
  else
    match maxdepth with
    | O => Some (cosmo_smoothsort_r cmp a)
    | S maxdepth =>
      '(a, r, s) ← split_around a;
      let lo := take r a in
      let mid := take (length a - s - r) (drop r a) in
      let hi := drop (length a - s) a in
      if (r <? s)%nat then
        if (1 <? s)%nat then
          lo ← (if (1 <? r)%nat then introsort maxdepth lo else Some lo);
          hi ← introsort maxdepth hi;
          Some (lo ++ mid ++ hi)
        else Some a
      else
        if (1 <? r)%nat then
          hi ← (if (1 <? s)%nat then introsort maxdepth hi else Some hi);
          lo ← introsort maxdepth lo;
          Some (lo ++ mid ++ hi)
        else Some a
    end.

(** [for (i = n; i > 0; i >>= 1) maxdepth++], for [i] of 64 bits. *)
Fixpoint depth_loop (bits : nat) (i : Z) (maxdepth : nat) : nat :=
  match bits with
  | O => maxdepth
  | S bits => if i >? 0 then depth_loop bits (Z.shiftr i 1) (S maxdepth) else maxdepth
  end.

Definition qsort_r a : option (list A) := introsort (depth_loop 64 (Z.of_nat (length a)) 0 * 2) a.
End Qsort.
