(* ===== verification/QsortFacts.v ===== *)
(** [qsort_r] stays within the array, ends, and sorts it, whatever routine it falls back to when
    the recursion gets deep, as long as that one sorts. *)
From Stdlib Require Import Sorted Permutation.
From S2P Require Import Prelude Qsort.
From stdpp Require Import list.
#[local] Open Scope Z_scope.

Section QsortFacts.
Context {A : Type} {smooth : Sorter A} (cmp : A -> A -> Z).
Implicit Types (a l p s m : list A) (x y v : A).

(** * Swaps *)

Lemma lookup_at l x s i : i = length l -> (l ++ x :: s) !! i = Some x.
Proof. intros ->. by apply list_lookup_middle. Qed.

Lemma insert_at l x y s i : i = length l -> <[i := y]> (l ++ x :: s) = l ++ y :: s.
Proof. intros ->. by rewrite insert_app_r_alt, Nat.sub_diag by lia. Qed.

(** Two elements with others between them. *)
Lemma swap_apart p x m y s i j :
  i = length p -> j = (length p + S (length m))%nat ->
  swap (p ++ x :: m ++ y :: s) i j = Some (p ++ y :: m ++ x :: s).
Proof.
  intros Hi Hj. unfold swap. rewrite (lookup_at p x _ i) by done. simpl.
  assert (E : forall z, p ++ z :: m ++ y :: s = (p ++ z :: m) ++ y :: s) by (intros z; by rewrite <- app_assoc).
  rewrite E, lookup_at by (rewrite length_app; simpl; lia). simpl. rewrite <- E, (insert_at p) by done.
  rewrite E, insert_at by (rewrite length_app; simpl; lia). by rewrite <- app_assoc.
Qed.

Lemma swap_sym a i j : swap a i j = swap a j i.
Proof.
  unfold swap. destruct (a !! i) as [x|] eqn:Ei, (a !! j) as [y|] eqn:Ej; simpl; try done.
  destruct (decide (i = j)) as [->|Hne]; [by simplify_eq|]. f_equal. by apply list_insert_insert_ne.
Qed.

Lemma swap_self a i x : a !! i = Some x -> swap a i i = Some a.
Proof. intros H. unfold swap. rewrite H. simpl. by rewrite list_insert_insert_eq, list_insert_id. Qed.

(** Any two elements. *)
Lemma swap_ok a i j : (i < length a)%nat -> (j < length a)%nat -> exists a', swap a i j = Some a' /\ a' ≡ₚ a.
Proof.
  assert (W : forall i j, (i < j)%nat -> (j < length a)%nat -> exists a', swap a i j = Some a' /\ a' ≡ₚ a).
  { clear i j. intros i j Hij Hj. destruct (lookup_lt_is_Some_2 a i) as [x Hx]; [lia|]. destruct (lookup_lt_is_Some_2 a j Hj) as [y Hy].
    apply list_elem_of_split_length in Hx as (p & t & -> & ->). rewrite lookup_app_r in Hy by lia.
    destruct (j - length p)%nat as [|k] eqn:Ek; [lia|]. simpl in Hy. apply list_elem_of_split_length in Hy as (m & s & -> & ->).
    rewrite swap_apart by lia. eexists. split; [done|]. apply Permutation_app_head. rewrite <- !Permutation_middle. apply perm_swap. }
  intros Hi Hj. destruct (lt_eq_lt_dec i j) as [[H| ->]|H]; [by apply W| |rewrite swap_sym; by apply W].
  destruct (lookup_lt_is_Some_2 a j Hj) as [x Hx]. exists a. by rewrite (swap_self a j x).
Qed.

Lemma vecswap_blocks l l' p m s i j :
  length l = length l' -> i = length p -> j = (length p + length l + length m)%nat ->
  vecswap (p ++ l ++ m ++ l' ++ s) i j (length l) = Some (p ++ l' ++ m ++ l ++ s).
Proof.
  revert l' p m i j. induction l as [|x l IH]; intros [|y l'] p m i j Hl Hi Hj; simpl in *; try done.
  assert (E : x :: l ++ m ++ y :: l' ++ s = x :: (l ++ m) ++ y :: l' ++ s) by (by rewrite <- app_assoc).
  rewrite E, (swap_apart p x (l ++ m) y) by (rewrite ?length_app; lia). simpl.
  replace (p ++ y :: (l ++ m) ++ x :: l' ++ s) with ((p ++ [y]) ++ l ++ (m ++ [x]) ++ l' ++ s) by (rewrite <- !app_assoc; done).
  rewrite IH by (rewrite ?length_app; simpl; lia). by rewrite <- !app_assoc.
Qed.

(** * Order *)

#[local] Abbreviation sorted := (sorted_by cmp).

Lemma sorted_app l l' :
  sorted l -> sorted l' -> (forall x y, x ∈ l -> y ∈ l' -> cmp x y <= 0) -> sorted (l ++ l').
Proof.
  intros Hl Hl' Hc. unfold sorted_by in *. induction Hl as [|x l Hl IH Hx]; [done|]. simpl. constructor.
  - apply IH. intros y z Hy Hz. apply Hc; [apply elem_of_cons; by right|done].
  - apply Forall_app. split; [done|]. apply Forall_forall. intros y Hy. apply Hc; [apply elem_of_cons; by left|done].
Qed.

Lemma sorted_snoc_inv l x : sorted (l ++ [x]) -> sorted l /\ forall y, y ∈ l -> cmp y x <= 0.
Proof.
  unfold sorted_by. induction l as [|z l IH]; intros H; [split; [constructor|intros y Hy; by apply elem_of_nil in Hy]|].
  simpl in H. apply StronglySorted_inv in H as [H Hz]. destruct (IH H) as [H1 H2]. apply Forall_app in Hz as [Hz Hx].
  split; [by constructor|]. intros y [->|Hy]%elem_of_cons; [by apply Forall_cons_1 in Hx as [? _]|by apply H2].
Qed.

Context (P : A -> Prop) (O : ordering cmp P).

Lemma flip_gt x y : P x -> P y -> 0 < cmp x y -> cmp y x <= 0.
Proof. intros Hx Hy H. pose proof (ordering_flip _ _ O x y Hx Hy). lia. Qed.

Lemma flip_eq x y : P x -> P y -> cmp x y = 0 -> cmp y x = 0.
Proof. intros Hx Hy H. pose proof (ordering_flip _ _ O x y Hx Hy). lia. Qed.

Lemma cmp_self x : P x -> cmp x x = 0.
Proof. intros Hx. pose proof (ordering_flip _ _ O x x Hx Hx). lia. Qed.

(** * Insertion sort *)

Lemma compare_at p x m y s i j :
  i = length p -> j = (length p + S (length m))%nat -> compare cmp (p ++ x :: m ++ y :: s) i j = Some (cmp x y).
Proof.
  intros Hi Hj. unfold compare. rewrite (lookup_at p x _ i) by done. simpl.
  replace (p ++ x :: m ++ y :: s) with ((p ++ x :: m) ++ y :: s) by (by rewrite <- app_assoc).
  by rewrite lookup_at by (rewrite length_app; simpl; lia).
Qed.

Lemma sink_ok p x s :
  Forall P p -> P x -> sorted p ->
  exists p', sink cmp (p ++ x :: s) (length p) = Some (p' ++ s) /\ sorted p' /\ p' ≡ₚ x :: p.
Proof.
  revert s. induction p as [|y p IH] using rev_ind; intros s Hp Hx Hs.
  { exists [x]. split; [done|]. split; [repeat constructor|done]. }
  apply Forall_app in Hp as [Hp Hy]. apply Forall_cons_1 in Hy as [Hy _]. destruct (sorted_snoc_inv _ _ Hs) as [Hs' Hle].
  rewrite length_app, Nat.add_1_r, <- app_assoc. simpl. rewrite (compare_at p y [] x s) by (simpl; lia). simpl.
  destruct (Z.gtb_spec (cmp y x) 0) as [Hgt|Hngt].
  - rewrite swap_sym, (swap_apart p y [] x s) by (simpl; lia). simpl.
    destruct (IH (y :: s) Hp Hx Hs') as (p' & -> & Hp' & E). exists (p' ++ [y]). rewrite <- app_assoc. split; [done|]. split.
    + apply sorted_app; [done|repeat constructor|]. intros w z Hw ->%list_elem_of_singleton. rewrite E in Hw.
      apply elem_of_cons in Hw as [->|Hw]; [by apply flip_gt|by apply Hle].
    + by rewrite E.
  - exists ((p ++ [y]) ++ [x]). rewrite <- !app_assoc. split; [done|]. split.
    + rewrite app_assoc. apply sorted_app; [done|repeat constructor|]. intros w z Hw ->%list_elem_of_singleton.
      apply elem_of_app in Hw as [Hw| ->%list_elem_of_singleton]; [|done]. rewrite Forall_forall in Hp.
      apply (ordering_trans _ _ O w y x); auto.
    + rewrite app_assoc. by rewrite <- (Permutation_cons_append (p ++ [y])).

Qed.

Lemma insertion_ok k p s :
  Forall P (p ++ s) -> sorted p -> k = length s ->
  exists a', insertion cmp k (p ++ s) (length p) = Some a' /\ sorted a' /\ a' ≡ₚ p ++ s.
Proof.
  revert p s. induction k as [|k IH]; intros p [|x s] Hp Hs Hk; try done; simpl.
  { exists p. rewrite app_nil_r. done. }
  apply Forall_app in Hp as [Hp [Hx Hr]%Forall_cons_1]. destruct (sink_ok p x s Hp Hx Hs) as (p' & -> & Hs' & E). simpl.
  replace (S (length p)) with (length p') by (by rewrite E).
  destruct (IH p' s) as (a' & -> & Ha & Ea); [|done|by injection Hk|].
  - apply Forall_app. split; [|done]. rewrite E. by constructor.
  - exists a'. split; [done|]. split; [done|]. rewrite Ea, E. by rewrite <- Permutation_middle.
Qed.

(** * Partition *)

Section Around.
Context (v : A).
#[local] Abbreviation below := (fun x => cmp x v < 0).
#[local] Abbreviation same := (fun x => cmp x v = 0).
#[local] Abbreviation above := (fun x => 0 < cmp x v).

Lemma compare_front t x s i : i = S (length t) -> compare cmp (v :: t ++ x :: s) i 0 = Some (cmp x v).
Proof. intros ->. unfold compare. simpl. rewrite lookup_at by done. done. Qed.

(** From the left: equal elements are gathered in front, smaller ones after them, up to one that
    is above the pivot. *)
Lemma part_up_ok fuel (e l u t : list A) pa pb pc :
  (length u <= fuel)%nat -> Forall same e -> Forall below l ->
  pa = S (length e) -> pb = (pa + length l)%nat -> S pc = (pb + length u)%nat ->
  exists e' l' u', part_up cmp fuel (v :: e ++ l ++ u ++ t) pa pb pc = Some (v :: e' ++ l' ++ u' ++ t, S (length e'), (S (length e') + length l')%nat) /\
    Forall same e' /\ Forall below l' /\ e' ++ l' ++ u' ≡ₚ e ++ l ++ u /\ (length u' <= length u)%nat /\
    match u' with [] => True | x :: _ => 0 < cmp x v end.
Proof.
  revert fuel e l pa pb pc. induction u as [|x u IH]; intros fuel e l pa pb pc Hf He Hl Ha Hb Hc; simpl in Hf, Hc.
  { exists e, l, []. split; [|done]. destruct fuel; cbn [part_up]; rewrite (proj2 (Nat.leb_gt _ _)) by lia; subst; done. }
  destruct fuel as [|fuel]; [lia|]. cbn [part_up]. rewrite (proj2 (Nat.leb_le _ _)) by lia. cbn [negb].
  replace (v :: e ++ l ++ (x :: u) ++ t) with (v :: (e ++ l) ++ x :: u ++ t) by (by rewrite <- app_assoc).
  rewrite compare_front by (rewrite length_app; lia). cbn [mbind option_bind].
  destruct (Z.gtb_spec (cmp x v) 0) as [Hgt|Hle].
  { exists e, l, (x :: u). split; [|split; [done|split; [done|split; [done|split; [done|lia]]]]]. subst. by rewrite <- app_assoc. }
  destruct (Z.eqb_spec (cmp x v) 0) as [E0|E0].
  - assert (Hs : exists l1, swap (v :: (e ++ l) ++ x :: u ++ t) pa pb = Some (v :: (e ++ [x]) ++ l1 ++ u ++ t) /\ l1 ≡ₚ l).
    { destruct l as [|y l].
      - exists []. split; [|done]. rewrite app_nil_r, Hb. simpl. rewrite Nat.add_0_r.
        erewrite swap_self by (rewrite Ha; simpl; by apply list_lookup_middle). by rewrite <- app_assoc.
      - exists (l ++ [y]). split; [|by rewrite <- Permutation_cons_append].
        replace (v :: (e ++ y :: l) ++ x :: u ++ t) with ((v :: e) ++ y :: l ++ x :: u ++ t) by (simpl; by rewrite <- app_assoc).
        rewrite swap_apart by (simpl in *; lia). simpl. by rewrite <- !app_assoc. }
    destruct Hs as (l1 & -> & El). cbn [mbind option_bind].
    destruct (IH fuel (e ++ [x]) l1 (pa + 1)%nat (pb + 1)%nat pc) as (e' & l' & u' & -> & He' & Hl' & Ep & Hlu & Hu);
      [lia|apply Forall_app; split; [done|by repeat constructor]|by rewrite El|rewrite length_app; simpl; lia|rewrite El; lia|lia|].
    exists e', l', u'. split_and!; [done..| |simpl; lia|done]. rewrite Ep, El, <- app_assoc. simpl. by rewrite Permutation_middle.
  - destruct (IH fuel e (l ++ [x]) pa (pb + 1)%nat pc) as (e' & l' & u' & Er & He' & Hl' & Ep & Hlu & Hu);
      [lia|done|apply Forall_app; split; [done|repeat constructor; lia]|done|rewrite length_app; simpl; lia|lia|].
    exists e', l', u'. rewrite <- !app_assoc in *. simpl in *. split_and!; done || lia.
Qed.

(** From the right, down to one that is below the pivot. [t] is what is before. *)
Lemma part_down_ok fuel (t u g e : list A) pb pc pd :
  (length u <= fuel)%nat -> Forall above g -> Forall same e ->
  pb = S (length t) -> S pc = (pb + length u)%nat -> pd = (pc + length g)%nat ->
  exists u' g' e' pc', part_down cmp fuel (v :: t ++ u ++ g ++ e) pb pc pd = Some (v :: t ++ u' ++ g' ++ e', pc', (pc' + length g')%nat) /\
    S pc' = (pb + length u')%nat /\ Forall above g' /\ Forall same e' /\ u' ++ g' ++ e' ≡ₚ u ++ g ++ e /\
    u' `prefix_of` u /\ (forall w x, u' = w ++ [x] -> cmp x v < 0).
Proof.
  revert fuel g e pc pd. induction u as [|x u IH] using rev_ind; intros fuel g e pc pd Hf Hg He Hb Hc Hd.
  { simpl in Hc. exists [], g, e, pc. split_and!; try done; [|intros [|] ? ?; done].
    destruct fuel; cbn [part_down]; rewrite (proj2 (Nat.leb_gt _ _)) by lia; subst; done. }
  rewrite length_app in Hf, Hc. simpl in Hf, Hc.
  destruct fuel as [|fuel]; [lia|]. cbn [part_down]. rewrite (proj2 (Nat.leb_le _ _)) by lia. cbn [negb].
  replace (v :: t ++ (u ++ [x]) ++ g ++ e) with (v :: (t ++ u) ++ x :: g ++ e) by (by rewrite <- !app_assoc).
  rewrite compare_front by (rewrite length_app; lia). cbn [mbind option_bind].
  destruct (Z.ltb_spec (cmp x v) 0) as [Hlt|Hge].
  { exists (u ++ [x]), g, e, pc. split; [subst; by rewrite <- !app_assoc|]. split_and!; try done; [rewrite length_app; simpl; lia|].
    intros w y Ey. by apply app_inj_2 in Ey as [_ [= <-]]. }
  destruct (Z.eqb_spec (cmp x v) 0) as [E0|E0].
  - assert (Hs : exists g1, swap (v :: (t ++ u) ++ x :: g ++ e) pc pd = Some (v :: t ++ u ++ g1 ++ x :: e) /\ g1 ≡ₚ g).
    { destruct g as [|y g _] using rev_ind.
      - exists []. split; [|done]. rewrite Hd. simpl. rewrite Nat.add_0_r.
        erewrite swap_self by (replace pc with (S (length (t ++ u))) by (rewrite length_app; lia); simpl; by apply list_lookup_middle).
        by rewrite <- app_assoc.
      - exists (y :: g). split; [|by rewrite <- Permutation_cons_append].
        replace (v :: (t ++ u) ++ x :: (g ++ [y]) ++ e) with ((v :: t ++ u) ++ x :: g ++ y :: e) by (simpl; by rewrite <- !app_assoc).
        rewrite length_app in Hd. simpl in Hd. rewrite swap_apart by (simpl; rewrite length_app; lia). simpl. by rewrite <- !app_assoc. }
    destruct Hs as (g1 & -> & Eg). cbn [mbind option_bind].
    destruct (IH fuel g1 (x :: e) (pc - 1)%nat (pd - 1)%nat) as (u' & g' & e' & pc' & Er & H1 & H2 & H3 & Ep & H5 & H6);
      [lia|by rewrite Eg|by constructor|done|lia|rewrite Eg; lia|].
    rewrite Er. exists u', g', e', pc'. split_and!; try done; [|by apply prefix_app_r].
    rewrite Ep, Eg, <- !app_assoc. simpl. by rewrite <- !Permutation_middle.
  - destruct (IH fuel (x :: g) e (pc - 1)%nat pd) as (u' & g' & e' & pc' & Er & H1 & H2 & H3 & Ep & H5 & H6);
      [lia|constructor; [lia|done]|done|done|lia|simpl; lia|].
    rewrite <- app_assoc. simpl in Er. rewrite Er. exists u', g', e', pc'. split_and!; try done; [|by apply prefix_app_r].
    rewrite Ep, <- !app_assoc. done.
Qed.
(** The elements between two scans that stopped. *)
Lemma stopped_ends (u' u : list A) :
  match u' with [] => True | x :: _ => 0 < cmp x v end -> u `prefix_of` u' -> (forall w x, u = w ++ [x] -> cmp x v < 0) ->
  u = [] \/ exists x m y, u = x :: m ++ [y] /\ above x /\ below y.
Proof.
  intros Hh [r ->] Hl. destruct u as [|x u]; [by left|right]. simpl in Hh.
  destruct u as [|y m _] using rev_ind; [pose proof (Hl [] x eq_refl); lia|]. exists x, m, y. split; [done|]. split; [done|].
  by apply (Hl (x :: m)).
Qed.

Lemma qpart_ok fuel (e l u g e2 : list A) pa pb pc pd :
  (length u < fuel)%nat -> Forall same e -> Forall below l -> Forall above g -> Forall same e2 ->
  pa = S (length e) -> pb = (pa + length l)%nat -> S pc = (pb + length u)%nat -> pd = (pc + length g)%nat ->
  exists e' l' g' e2' pc', part cmp fuel (v :: e ++ l ++ u ++ g ++ e2) pa pb pc pd =
      Some (v :: e' ++ l' ++ g' ++ e2', (S (length e'), (S (length e') + length l')%nat, pc', (pc' + length g')%nat)) /\
    S pc' = (S (length e') + length l')%nat /\ Forall same e' /\ Forall below l' /\ Forall above g' /\ Forall same e2' /\
    e' ++ l' ++ g' ++ e2' ≡ₚ e ++ l ++ u ++ g ++ e2.
Proof.
  revert e l u g e2 pa pb pc pd. induction fuel as [|fuel IH]; intros e l u g e2 pa pb pc pd Hf He Hl Hg He2 Ha Hb Hc Hd; [lia|]. cbn [part].
  destruct (part_up_ok (length (v :: e ++ l ++ u ++ g ++ e2)) e l u (g ++ e2) pa pb pc) as (e1 & l1 & u1 & -> & He1 & Hl1 & Ep1 & Hlu & Hu1);
    [simpl; rewrite !length_app; lia|done..|]. cbn [mbind option_bind].
  pose proof (Permutation_length Ep1) as En. rewrite !length_app in En.
  destruct (part_down_ok (length (v :: e1 ++ l1 ++ u1 ++ g ++ e2)) (e1 ++ l1) u1 g e2 (S (length e1) + length l1) pc pd)
    as (u2 & g2 & e3 & pc' & Er & Hpc & Hg2 & He3 & Ep2 & Hpre & Hu2);
    [simpl; rewrite !length_app; lia|done|done|rewrite length_app; lia|lia|done|].
  rewrite <- !app_assoc in Er. rewrite Er. cbn [mbind option_bind].
  assert (Ep : e1 ++ l1 ++ u2 ++ g2 ++ e3 ≡ₚ e ++ l ++ u ++ g ++ e2).
  { rewrite Ep2, !app_assoc. rewrite <- (app_assoc e1 l1 u1), Ep1. by rewrite !app_assoc. }
  destruct (stopped_ends u1 u2 Hu1 Hpre Hu2) as [->|(x & m & y & -> & Hx & Hy)].
  - simpl in Hpc. rewrite (proj2 (Nat.ltb_lt _ _)) by lia. exists e1, l1, g2, e3, pc'. split_and!; try done. lia.
  - assert (Hlen : (length (x :: m ++ [y]) <= length u1)%nat) by (by apply prefix_length).
    simpl in Hpc, Hlen. rewrite length_app in Hpc, Hlen. simpl in Hpc, Hlen. rewrite (proj2 (Nat.ltb_ge _ _)) by lia.
    replace (v :: e1 ++ l1 ++ (x :: m ++ [y]) ++ g2 ++ e3) with ((v :: e1 ++ l1) ++ x :: m ++ y :: g2 ++ e3) by (simpl; by rewrite <- !app_assoc).
    rewrite swap_apart by (simpl; rewrite length_app; lia). cbn [mbind option_bind].
    destruct (IH e1 (l1 ++ [y]) m (x :: g2) e3 (S (length e1)) (S (length e1) + length l1 + 1)%nat (pc' - 1)%nat (pc' + length g2)%nat)
      as (e' & l' & g' & e2' & pc2 & Er2 & H1 & H2 & H3 & H4 & H5 & H6);
      [lia|done|apply Forall_app; split; [done|by repeat constructor]|by constructor|done|done|rewrite length_app; simpl; lia|lia|simpl; lia|].
    exists e', l', g', e2', pc2. split_and!; try done.
    + rewrite <- Er2. f_equal. simpl. by rewrite <- !app_assoc.
    + rewrite H6, <- Ep. rewrite <- !app_assoc. simpl. do 2 apply Permutation_app_head. rewrite <- !app_assoc. simpl.
      rewrite <- !Permutation_middle. apply perm_swap.
Qed.
End Around.

(** * The pivot *)

Lemma compare_in a i j : (i < length a)%nat -> (j < length a)%nat -> is_Some (compare cmp a i j).
Proof.
  intros Hi Hj. unfold compare. destruct (lookup_lt_is_Some_2 a i Hi) as [x ->], (lookup_lt_is_Some_2 a j Hj) as [y ->]. by eexists.
Qed.

Lemma med3_in a i j k n :
  n = length a -> (i < n)%nat -> (j < n)%nat -> (k < n)%nat -> exists q, med3 cmp a i j k = Some q /\ (q < n)%nat.
Proof.
  intros -> Hi Hj Hk. unfold med3. destruct (compare_in a i j Hi Hj) as [x ->], (compare_in a j k Hj Hk) as [y ->], (compare_in a i k Hi Hk) as [z ->].
  cbn [mbind option_bind]. eexists. split; [done|]. by repeat case_match.
Qed.

Lemma pivot_in a : (7 <= length a)%nat -> exists q, pivot cmp a = Some q /\ (q < length a)%nat.
Proof.
  intros Hn. unfold pivot. set (n := length a) in *. pose proof (Nat.div_lt n 2 ltac:(lia) ltac:(lia)) as Hh.
  destruct (Nat.ltb_spec 7 n) as [H7|]; [|by eexists]. destruct (Nat.ltb_spec 40 n) as [H40|]; cbn [mbind option_bind].
  2:{ apply med3_in; [done|lia..]. }
  pose proof (Nat.Div0.mul_div_le n 8) as H8. pose proof (Nat.Div0.mul_div_le n 2) as H2.
  pose proof (Nat.mul_succ_div_gt n 2 ltac:(lia)) as H3. set (s := (n / 8)%nat) in *. set (h := (n / 2)%nat) in *.
  destruct (med3_in a 0 (0 + s) (0 + 2 * s) n) as (q1 & -> & H1); [done|lia..|]. cbn [mbind option_bind].
  destruct (med3_in a (h - s) h (h + s) n) as (q2 & -> & ?); [done|lia..|]. cbn [mbind option_bind].
  destruct (med3_in a (n - 1 - 2 * s) (n - 1 - s) (n - 1) n) as (q3 & -> & ?); [done|lia..|]. cbn [mbind option_bind].
  by apply med3_in.
Qed.

(** * Splitting *)

(** Two blocks change places, by as many swaps as the shorter one has elements. *)
Lemma rotate p (x y t : list A) r i j :
  r = Nat.min (length x) (length y) -> i = length p -> j = (length p + length x + length y - r)%nat ->
  exists (y' x' : list A), vecswap (p ++ x ++ y ++ t) i j r = Some (p ++ y' ++ x' ++ t) /\ y' ≡ₚ y /\ x' ≡ₚ x.
Proof.
  intros Hr Hi Hj. destruct (Nat.le_ge_cases (length x) (length y)) as [Hle|Hge].
  - set (y1 := take (length y - length x) y). set (y2 := drop (length y - length x) y).
    assert (Ey : y1 ++ y2 = y) by apply take_drop. assert (L1 : length y1 = (length y - length x)%nat) by (unfold y1; rewrite length_take; lia).
    assert (L2 : length y2 = length x) by (unfold y2; rewrite length_drop; lia). clearbody y1 y2.
    exists (y2 ++ y1), x. split; [|split; [by rewrite Permutation_app_comm, Ey|done]].
    replace r with (length x) by lia. rewrite <- Ey, <- !app_assoc. apply vecswap_blocks; [done|done|lia].
  - set (x1 := take (length y) x). set (x2 := drop (length y) x).
    assert (Ex : x1 ++ x2 = x) by apply take_drop. assert (L1 : length x1 = length y) by (unfold x1; rewrite length_take; lia).
    assert (L2 : length x2 = (length x - length y)%nat) by (unfold x2; by rewrite length_drop). clearbody x1 x2.
    exists y, (x2 ++ x1). split; [|split; [done|by rewrite Permutation_app_comm, Ex]].
    replace r with (length x1) by lia. rewrite <- Ex, <- !app_assoc. apply vecswap_blocks; [done|done|].
    rewrite <- Ex, length_app in Hj, Hr. lia.
Qed.

Lemma split_ok a :
  Forall P a -> (7 <= length a)%nat ->
  exists v lo mid hi, split_around cmp a = Some (lo ++ mid ++ hi, length lo, length hi) /\ lo ++ mid ++ hi ≡ₚ a /\ P v /\
    Forall (fun x => cmp x v < 0) lo /\ Forall (fun x => cmp x v = 0) mid /\ Forall (fun x => 0 < cmp x v) hi.
Proof.
  intros Hp Hn. unfold split_around. destruct (pivot_in a Hn) as (q & -> & Hq). cbn [mbind option_bind].
  destruct (swap_ok a 0 q) as (a1 & -> & E1); [lia|lia|]. cbn [mbind option_bind].
  assert (Hl1 : length a1 = length a) by (by rewrite E1). destruct a1 as [|v u]; [simpl in Hl1; lia|].
  assert (Pv : P v) by (rewrite <- E1 in Hp; by apply Forall_cons_1 in Hp as [? _]).
  destruct (qpart_ok v (length (v :: u)) [] [] u [] [] 1 1 (length (v :: u) - 1) (length (v :: u) - 1))
    as (e & l & g & e2 & pc & Er & Hpc & He & Hl & Hg & He2 & Ep); [simpl; lia|done..|simpl; lia|simpl; lia|].
  simpl app in Er. rewrite !app_nil_r in Er. rewrite Er. cbn [mbind option_bind]. simpl app in Ep. rewrite !app_nil_r in Ep.
  destruct (rotate [] (v :: e) l (g ++ e2) (Nat.min (S (length e)) (S (length e) + length l - S (length e))) 0
      (S (length e) + length l - Nat.min (S (length e)) (S (length e) + length l - S (length e)))) as (lo & m1 & Ev & El & Em);
    [cbn [length]; lia|done|cbn [length]; lia|].
  simpl app in Ev. rewrite Ev. cbn [mbind option_bind].
  assert (Hll : length lo = length l) by (by rewrite El). assert (Hlm : length m1 = S (length e)) by (by rewrite Em).
  destruct (rotate (lo ++ m1) g e2 [] (Nat.min (pc + length g - pc) (length (v :: e ++ l ++ g ++ e2) - (pc + length g) - 1)) (S (length e) + length l)
      (length (v :: e ++ l ++ g ++ e2) - Nat.min (pc + length g - pc) (length (v :: e ++ l ++ g ++ e2) - (pc + length g) - 1)))
    as (m2 & hi & Ev2 & Em2 & Eh); [cbn [length]; rewrite !length_app; lia|rewrite length_app; lia|cbn [length]; rewrite !length_app; lia|].
  rewrite <- !app_assoc, !app_nil_r in Ev2. rewrite Ev2. cbn [mbind option_bind].
  assert (Hlh : length hi = length g) by (by rewrite Eh). exists v, lo, (m1 ++ m2), hi. split.
  { rewrite <- app_assoc. do 3 f_equal; lia. }
  split; [|split; [done|split; [by rewrite El|split; [|by rewrite Eh]]]].
  - rewrite <- E1, <- Ep, El, Em, Em2, Eh. change (v :: e ++ l ++ g ++ e2) with ((v :: e) ++ l ++ g ++ e2).
    rewrite <- (app_assoc (v :: e) e2 g), (Permutation_app_comm e2 g).
    by rewrite (app_assoc l (v :: e)), (Permutation_app_comm l (v :: e)), <- app_assoc.
  - apply Forall_app. rewrite Em, Em2. split; [constructor; [by apply cmp_self|done]|done].
Qed.

(** * [introsort] *)

(** The three parts in order. *)
Lemma sorted_parts v (lo mid hi : list A) :
  P v -> Forall P (lo ++ mid ++ hi) -> sorted lo -> sorted hi ->
  Forall (fun x => cmp x v < 0) lo -> Forall (fun x => cmp x v = 0) mid -> Forall (fun x => 0 < cmp x v) hi ->
  sorted (lo ++ mid ++ hi).
Proof.
  intros Pv Hp Slo Shi Hlo Hmid Hhi. apply Forall_app in Hp as [Plo [Pmid Phi]%Forall_app]. rewrite Forall_forall in *.
  assert (Hge : forall y, y ∈ mid ++ hi -> P y /\ cmp v y <= 0).
  { intros y [Hy|Hy]%elem_of_app; (split; [by auto|]); [rewrite flip_eq; auto; lia|apply flip_gt; auto]. }
  apply sorted_app; [done| |].
  - apply sorted_app; [|done|].
    + unfold sorted_by. clear Hge Slo Shi. induction mid as [|x m IH]; [constructor|]. constructor.
      * apply IH; intros y Hy; [apply Pmid|apply Hmid]; apply elem_of_cons; by right.
      * apply Forall_forall. intros y Hy. apply (ordering_trans _ _ O x v y); [apply Pmid, elem_of_cons; by left|done|apply Pmid, elem_of_cons; by right|..].
        -- rewrite Hmid; [done|]. apply elem_of_cons. by left.
        -- rewrite flip_eq; [done|apply Pmid, elem_of_cons; by right|done|]. apply Hmid, elem_of_cons. by right.
    + intros x y Hx Hy. apply (ordering_trans _ _ O x v y); [by auto|done|by auto|rewrite Hmid; [done|exact Hx]|].
      apply Hge, elem_of_app. by right.
  - intros x y Hx Hy. destruct (Hge y Hy) as [Py Hvy]. apply (ordering_trans _ _ O x v y); auto. specialize (Hlo x Hx). lia.
Qed.

Lemma sorted_short (l : list A) : (length l <= 1)%nat -> sorted l.
Proof. destruct l as [|x [|y l]]; simpl; intros H; [constructor|repeat constructor|lia]. Qed.

Context {laws : SorterLaws A smooth}.

Lemma introsort_ok d a : Forall P a -> exists a', introsort cmp d a = Some a' /\ sorted a' /\ a' ≡ₚ a.
Proof.
  revert a. induction d as [|d IH]; intros a Hp; cbn [introsort]; destruct (Nat.ltb_spec (length a) 7) as [H7|H7].
  1, 3: destruct a as [|x a]; [exists []; split; [done|]; split; [constructor|done]|];
    replace (length (x :: a) - 1)%nat with (length a) by (simpl; lia);
    destruct (insertion_ok (length a) [x] a) as (a' & E & Hs & Ep); [done|repeat constructor|done|]; by exists a'.
  - exists (cosmo_smoothsort_r cmp a). split; [done|]. split; [|apply smoothsort_permutes]. apply smoothsort_sorts.
    rewrite Forall_forall in Hp. split; [intros x y Hx Hy; apply O; auto|intros x y z Hx Hy Hz; apply O; auto].
  - destruct (split_ok a Hp H7) as (v & lo & mid & hi & -> & E & Pv & Hlo & Hmid & Hhi). cbn [mbind option_bind].
    rewrite <- E in Hp. pose proof Hp as [Plo [Pmid Phi]%Forall_app]%Forall_app.
    rewrite take_app_length, drop_app_length. replace (length (lo ++ mid ++ hi) - length hi)%nat with (length lo + length mid)%nat by (rewrite !length_app; lia).
    replace (length lo + length mid - length lo)%nat with (length mid) by lia. rewrite take_app_length.
    replace (drop (length lo + length mid) (lo ++ mid ++ hi)) with hi by (by rewrite <- drop_drop, drop_app_length, drop_app_length).
    destruct (IH lo Plo) as (lo' & Elo & Slo & Rlo), (IH hi Phi) as (hi' & Ehi & Shi & Rhi).
    assert (Hall : forall l1 h1, l1 ≡ₚ lo -> h1 ≡ₚ hi -> sorted l1 -> sorted h1 -> sorted (l1 ++ mid ++ h1) /\ l1 ++ mid ++ h1 ≡ₚ a).
    { intros l1 h1 R1 R2 S1 S2. split; [|by rewrite R1, R2]. apply (sorted_parts v); rewrite ?R1, ?R2; done. }
    destruct (Nat.ltb_spec (length lo) (length hi)), (Nat.ltb_spec 1 (length hi)), (Nat.ltb_spec 1 (length lo)); try lia;
      rewrite ?Elo, ?Ehi; cbn [mbind option_bind]; rewrite ?Elo; cbn [mbind option_bind]; eexists; (split; [reflexivity|]);
      apply Hall; done || by apply sorted_short.
Qed.
End QsortFacts.

(** C29: [qsort_r] sorts. For every comparison that is consistent and every array, no access leaves
    the array, the routine ends, and the result is the array in order: with the insertion sort of
    short arrays, the choice of the pivot among three or nine elements, the partition into smaller,
    equal and larger elements with its two block swaps, the recursion on the sides, and the
    sorting routine that takes over when the recursion gets too deep. *)
Theorem qsort_r_correct (A : Type) (smooth : Sorter A) (cmp : A -> A -> Z) (a : list A) :
  SorterLaws A smooth -> ordering cmp (fun x => x ∈ a) ->
  exists a', qsort_r cmp a = Some a' /\ sorted_by cmp a' /\ a' ≡ₚ a.
Proof. intros laws O. unfold qsort_r. apply (introsort_ok cmp (fun x => x ∈ a) O). by apply Forall_forall. Qed.

(** The same for the components that use it. *)
Lemma qsort_r_sorts {A} {smooth : Sorter A} {laws : SorterLaws A smooth} cmp (a : list A) :
  ordering cmp (fun x => x ∈ a) -> exists a', qsort_r cmp a = Some a' /\ sorted_by cmp a' /\ a' ≡ₚ a.
Proof. intros O. unfold qsort_r. apply (introsort_ok cmp (fun x => x ∈ a) O). by apply Forall_forall. Qed.

(** * A sorting routine *)

Fixpoint insert_by {A} (cmp : A -> A -> Z) (x : A) (l : list A) : list A :=
  match l with [] => [x] | y :: l' => if cmp x y <=? 0 then x :: l else y :: insert_by cmp x l' end.

Definition inserting {A} : Sorter A := fun cmp l => foldr (insert_by cmp) [] l.

Lemma insert_by_perm {A} cmp (x : A) l : insert_by cmp x l ≡ₚ x :: l.
Proof. induction l as [|y l IH]; simpl; [done|]. case_match; [done|]. rewrite IH. apply perm_swap. Qed.

Lemma inserting_perm {A} cmp (l : list A) : inserting cmp l ≡ₚ l.
Proof. induction l as [|x l IH]; simpl; [done|]. rewrite insert_by_perm. by apply perm_skip. Qed.

Lemma inserting_laws A : SorterLaws A inserting.
Proof.
  split; [apply inserting_perm|]. intros cmp l O. unfold cosmo_smoothsort_r.
  assert (W : forall r, (forall x, x ∈ r -> x ∈ l) -> sorted_by cmp (inserting cmp r)); [|by apply W].
  induction r as [|x r IH]; intros Hr; [constructor|]. simpl. assert (Hx : x ∈ l) by (apply Hr, elem_of_cons; by left).
  specialize (IH (fun y Hy => Hr y (proj2 (elem_of_cons r y x) (or_intror Hy)))).
  assert (Hin : forall y, y ∈ inserting cmp r -> y ∈ l) by (intros y; rewrite inserting_perm; intros Hy; apply Hr, elem_of_cons; by right).
  induction IH as [|y t Ht IHt Hy]; simpl; [repeat constructor|]. assert (Hyl : y ∈ l) by (apply Hin, elem_of_cons; by left).
  destruct (Z.leb_spec (cmp x y) 0) as [Hxy|Hxy].
  - constructor; [by constructor|]. constructor; [done|]. rewrite Forall_forall in Hy |- *. intros w Hw.
    apply (ordering_trans _ _ O x y w); [done..| |done|by apply Hy]. apply Hin, elem_of_cons. by right.
  - constructor; [apply IHt; intros w Hw; apply Hin, elem_of_cons; by right|]. rewrite insert_by_perm. constructor; [|done].
    pose proof (ordering_flip _ _ O x y Hx Hyl). lia.
Qed.

Definition keys : list Z := [5; 3; 9; 1; 5; 5; 8; 2; 7; 5; 0; 4].

Lemma qsort_r_correct_witness :
  @qsort_r Z inserting Z.sub keys = Some [0; 1; 2; 3; 4; 5; 5; 5; 5; 7; 8; 9] /\
  exists a', @qsort_r Z inserting Z.sub keys = Some a' /\ sorted_by Z.sub a' /\ a' ≡ₚ keys.
Proof.
  split; [vm_compute; reflexivity|]. apply (qsort_r_correct Z inserting Z.sub keys); [apply inserting_laws|].
  split; intros; lia.
Defined.
