(* ===== verification/ZiposPath.v ===== *)
(** Paths of the zip file system: [__zipos_normpath] of [libc/runtime/zipos-normpath.c] and
    [__zipos_parseuri] of [libc/runtime/zipos-parseuri.c], against a specification on the
    components of a path. Strings are without their NUL. *)
From S2P Require Import Prelude.

(** * Definitions *)

Definition slash : Z := 47.
Definition dot : Z := 46.

(** What has been written, [d] up to [p], is kept last character first: [p[-1]] is the head. *)
Definition at_start (p : list Z) : bool := match p with [] => true | c :: _ => c =? slash end.

(** [!s[k] || s[k] == '/'], for the text from there on. *)
Definition ends (s : list Z) : bool := match s with [] => true | c :: _ => c =? slash end.

Fixpoint drop_while (f : Z -> bool) (p : list Z) : list Z :=
  match p with [] => [] | c :: p' => if f c then drop_while f p' else p end.

(** The body of the loop at the character [c] before [s]. *)
Definition normpath_step (p : list Z) (c : Z) (s : list Z) : list Z :=
  if at_start p && (c =? slash) then p
  else if at_start p && (c =? dot) && ends s then p
  else if at_start p && (c =? dot) && (match s with c1 :: s1 => (c1 =? dot) && ends s1 | [] => false end)
  then drop_while (fun x => negb (x =? slash)) (drop_while (fun x => x =? slash) p)
  else c :: p.

Fixpoint normpath_loop (n : nat) (p s : list Z) : list Z :=
  match s with
  | [] => p
  | c :: s' => if (length p <? n)%nat then normpath_loop n (normpath_step p c s') s' else p
  end.

(** The string in [d] afterwards and the value returned, for a buffer of [n] bytes. *)
Definition __zipos_normpath (s : list Z) (n : nat) : list Z * nat :=
  let p := normpath_loop n [] s in
  if (length p <? n)%nat then (rev p, length p) else (take (n - 1) (rev p), length p).

Definition ZIPOS_PATH_MAX : nat := 1024.

(** The path of a URI below [/zip], when there is an archive and it is short enough. *)
Definition __zipos_parseuri (archive : bool) (uri : list Z) : option (list Z) :=
  match uri with
  | 47 :: 122 :: 105 :: 112 :: rest =>
    if ends rest && archive
    then let '(d, len) := __zipos_normpath (tail rest) ZIPOS_PATH_MAX in
         if (len <? ZIPOS_PATH_MAX)%nat then Some d else None
    else None
  | _ => None
  end.

(** * Specification *)

(** The text between slashes. *)
Fixpoint components (s : list Z) : list (list Z) :=
  match s with
  | [] => [[]]
  | c :: s' =>
    if c =? slash then [] :: components s'
    else match components s' with h :: t => (c :: h) :: t | [] => [[c]] end
  end.

(** Components that name nothing, and the one for the parent directory. *)
Definition is_empty (c : list Z) : bool := bool_decide (c = [] \/ c = [dot]).
Definition is_parent (c : list Z) : bool := bool_decide (c = [dot; dot]).
Definition is_name (c : list Z) : bool := negb (is_empty c) && negb (is_parent c).

(** The directories from the root, the last one first. *)
Definition enter (st : list (list Z)) (c : list Z) : list (list Z) :=
  if is_empty c then st else if is_parent c then tail st else c :: st.

(** Components with a slash after each. *)
Definition slashes (cs : list (list Z)) : list Z := mjoin ((fun c => c ++ [slash]) <$> cs).

(** The path that names what [s] names from the root; it ends in a slash when [s] asks for a
    directory. *)
Definition normalize (s : list Z) : list Z :=
  let cs := components s in
  let st := foldl enter [] (removelast cs) in
  let c := List.last cs [] in
  if is_name c then slashes (rev st) ++ c else slashes (rev (enter st c)).

#[local] Abbreviation str s := (ascii_codes s%string).

Example normalize_samples :
  normalize <$> [str "/../etc"; str "a//b/./c/../d"; str "a/b/.."; str "..."; str "a/.."] =
    [str "etc"; str "a/b/d"; str "a/"; str "..."; []].
Proof. reflexivity. Qed.

Example normpath_samples :
  (fun s => __zipos_normpath s 6) <$> [str "/../etc"; str "a/b/.."; str "abcdefgh"; str "abcdef"] =
    [(str "etc", 3%nat); (str "a/", 2%nat); (str "abcde", 6%nat); (str "abcde", 6%nat)].
Proof. reflexivity. Qed.

(** * Components *)

(** Text without a slash, and components that stand for a directory. *)
Definition plain (c : list Z) : Prop := Forall (fun x => x ≠ slash) c.
Definition named (c : list Z) : Prop := plain c /\ is_name c = true.

Lemma components_plain c : plain c -> components c = [c].
Proof.
  induction 1 as [|x c Hx _ IH]; [done|]. simpl. rewrite IH. by rewrite (proj2 (Z.eqb_neq _ _) Hx).
Qed.

Lemma components_cons c r : plain c -> components (c ++ slash :: r) = c :: components r.
Proof.
  induction 1 as [|x c Hx _ IH]; [done|]. simpl. rewrite IH. by rewrite (proj2 (Z.eqb_neq _ _) Hx).
Qed.

Lemma components_first s : exists c, plain c /\ (s = c \/ exists r, s = c ++ slash :: r).
Proof.
  induction s as [|x s (c & Hc & Hs)]; [exists []; split; [constructor|by left]|].
  destruct (Z.eq_dec x slash) as [->|Hx]; [exists []; split; [constructor|right; by exists s]|].
  exists (x :: c). split; [by constructor|]. destruct Hs as [->|[r ->]]; [by left|right; by exists r].
Qed.

Lemma components_nonempty s : components s ≠ [].
Proof. destruct s as [|c s]; [done|]. simpl. case_match; [done|]. by destruct (components s). Qed.

Lemma is_name_nonempty c : is_name c = true -> exists x c', c = x :: c'.
Proof. destruct c as [|x c']; [done|]. eauto. Qed.

(** * The loop without a bound *)

Fixpoint walk_path (p s : list Z) : list Z :=
  match s with [] => p | c :: s' => walk_path (normpath_step p c s') s' end.

Lemma loop_walk n p s : (length (normpath_loop n p s) < n)%nat -> normpath_loop n p s = walk_path p s.
Proof.
  revert p. induction s as [|c s IH]; intros p; [done|]. simpl. case_match eqn:E; [apply IH|].
  apply Nat.ltb_ge in E. lia.
Qed.

Lemma drop_while_length f p : (length (drop_while f p) <= length p)%nat.
Proof. induction p as [|c p IH]; simpl; [done|]. case_match; simpl; lia. Qed.

(** A step writes one character at most: the end of the text written stays behind the text
    that is read, so that the two may share a buffer. *)
Lemma step_length p c s : (length (normpath_step p c s) <= S (length p))%nat.
Proof.
  unfold normpath_step. pose proof (drop_while_length (fun x => x =? slash) p).
  pose proof (drop_while_length (fun x => negb (x =? slash)) (drop_while (fun x => x =? slash) p)).
  repeat case_match; simpl; lia.
Qed.

Lemma loop_length n p s :
  (length p <= n -> length (normpath_loop n p s) <= n /\ length (normpath_loop n p s) <= length p + length s)%nat.
Proof.
  revert p. induction s as [|c s IH]; intros p Hp; simpl; [lia|]. case_match eqn:E; [|lia].
  apply Nat.ltb_lt in E. pose proof (step_length p c s). destruct (IH (normpath_step p c s)); lia.
Qed.

(** The text written when the directories [st] have been entered, last character first. *)
Fixpoint stacked (st : list (list Z)) : list Z :=
  match st with [] => [] | c :: st => slash :: rev c ++ stacked st end.

Lemma stacked_start st : at_start (stacked st) = true.
Proof. by destruct st. Qed.

Lemma slashes_app cs c : slashes (cs ++ [c]) = slashes cs ++ c ++ [slash].
Proof. unfold slashes. rewrite fmap_app, join_app. simpl. by rewrite app_nil_r. Qed.

Lemma stacked_slashes st : rev (stacked st) = slashes (rev st).
Proof.
  induction st as [|c st IH]; [done|]. simpl. rewrite slashes_app, <- IH, rev_app_distr, rev_involutive. by rewrite <- app_assoc.
Qed.

Lemma walk_copy p c r : at_start p = false -> plain c -> walk_path p (c ++ r) = walk_path (rev c ++ p) r.
Proof.
  intros Hp Hc. revert p Hp. induction Hc as [|x c Hx Hc IH]; intros p Hp; [done|]. simpl.
  unfold normpath_step. rewrite Hp. simpl. rewrite IH by (simpl; by apply Z.eqb_neq). by rewrite <- app_assoc.
Qed.

(** A component that is a name is copied. *)
Lemma walk_name p c r : at_start p = true -> named c -> ends r = true -> walk_path p (c ++ r) = walk_path (rev c ++ p) r.
Proof.
  intros Hp [Hc Hn] Hr. destruct (is_name_nonempty c Hn) as (x & c' & ->). apply Forall_cons_1 in Hc as [Hx Hc].
  simpl. replace (normpath_step p x (c' ++ r)) with (x :: p).
  { rewrite walk_copy by (done || simpl; by apply Z.eqb_neq). by rewrite <- app_assoc. }
  unfold normpath_step. rewrite Hp, (proj2 (Z.eqb_neq _ _) Hx). simpl.
  destruct (Z.eqb_spec x dot) as [->|]; [|done]. destruct c' as [|y c']; [done|]. simpl.
  apply Forall_cons_1 in Hc as [Hy Hc]. rewrite (proj2 (Z.eqb_neq _ _) Hy).
  destruct (Z.eqb_spec y dot) as [->|]; [|done]. destruct c' as [|z c']; [done|]. simpl.
  apply Forall_cons_1 in Hc as [Hz _]. by rewrite (proj2 (Z.eqb_neq _ _) Hz).
Qed.

Lemma drop_name c p : plain c -> drop_while (fun x => negb (x =? slash)) (rev c ++ stacked p) = stacked p.
Proof.
  intros Hc. apply Forall_rev in Hc. induction Hc as [|x l Hx _ IH]; [by destruct p|].
  simpl. by rewrite (proj2 (Z.eqb_neq _ _) Hx).
Qed.

Lemma pop_stacked st :
  Forall named st ->
  drop_while (fun x => negb (x =? slash)) (drop_while (fun x => x =? slash) (stacked st)) = stacked (tail st).
Proof.
  intros Hst. destruct Hst as [|c st [Hc Hn] Hst]; [done|]. simpl. etrans; [|apply (drop_name c st Hc)]. f_equal.
  destruct (is_name_nonempty c Hn) as (x & c' & ->). apply Forall_rev in Hc. simpl in *.
  destruct (rev c' ++ [x]) as [|y l] eqn:E; [by destruct (rev c')|]. simpl.
  apply Forall_cons_1 in Hc as [Hy _]. by rewrite (proj2 (Z.eqb_neq _ _) Hy).
Qed.

(** A component up to its end. *)
Lemma walk_component st c r :
  Forall named st -> plain c -> ends r = true ->
  walk_path (stacked st) (c ++ r) = walk_path (if is_name c then rev c ++ stacked st else stacked (enter st c)) r.
Proof.
  intros Hst Hc Hr. destruct (is_name c) eqn:Hn; [by apply walk_name; [apply stacked_start|split|]|].
  unfold is_name, enter in *. destruct (is_empty c) eqn:E.
  - apply bool_decide_eq_true in E as [-> | ->]; [done|]. simpl. unfold normpath_step.
    rewrite stacked_start, Hr. done.
  - destruct (is_parent c) eqn:E2; [|done]. apply bool_decide_eq_true in E2 as ->. simpl.
    unfold normpath_step at 2. rewrite stacked_start. simpl. rewrite Hr. simpl. rewrite pop_stacked by done.
    unfold normpath_step. rewrite stacked_start, Hr. done.
Qed.

(** * Normal forms *)

(** [normalize], from the directories [st] on. *)
Definition normalize_from (st : list (list Z)) (s : list Z) : list Z :=
  let cs := components s in
  let st := foldl enter st (removelast cs) in
  let c := List.last cs [] in
  if is_name c then slashes (rev st) ++ c else slashes (rev (enter st c)).

Lemma normalize_from_cons st c r :
  plain c -> normalize_from st (c ++ slash :: r) = normalize_from (enter st c) r.
Proof.
  intros Hc. unfold normalize_from. rewrite components_cons by done. pose proof (components_nonempty r).
  by destruct (components r) as [|h t].
Qed.

Lemma enter_named st c : Forall named st -> plain c -> Forall named (enter st c).
Proof.
  intros Hst Hc. unfold enter. destruct (is_empty c) eqn:E; [done|].
  destruct (is_parent c) eqn:E2; [by destruct Hst|]. constructor; [|done]. split; [done|].
  unfold is_name. by rewrite E, E2.
Qed.

Lemma walk_slash p r : walk_path p (slash :: r) = walk_path (if at_start p then p else slash :: p) r.
Proof. simpl. unfold normpath_step. by destruct (at_start p). Qed.

Lemma rev_start c p : named c -> at_start (rev c ++ p) = false.
Proof.
  intros [Hc Hn]. destruct (is_name_nonempty c Hn) as (x & c' & ->). apply Forall_rev in Hc. simpl in *.
  destruct (rev c' ++ [x]) as [|y l] eqn:E; [by destruct (rev c')|]. apply Forall_cons_1 in Hc as [Hy _].
  simpl. by apply Z.eqb_neq.
Qed.

Lemma walk_normalize st s : Forall named st -> rev (walk_path (stacked st) s) = normalize_from st s.
Proof.
  remember (length s) as k eqn:Hk. revert st s Hk. induction k as [k IH] using lt_wf_ind. intros st s -> Hst.
  destruct (components_first s) as (c & Hc & [->|[r ->]]).
  - rewrite <- (app_nil_r c) at 1. rewrite walk_component by done. simpl. unfold normalize_from.
    rewrite components_plain by done. simpl. destruct (is_name c); [|apply stacked_slashes].
    by rewrite rev_app_distr, rev_involutive, stacked_slashes.
  - rewrite walk_component, normalize_from_cons, walk_slash by done.
    rewrite <- (IH (length r)) by (rewrite ?length_app; simpl; lia || done || by apply enter_named).
    do 2 f_equal. destruct (is_name c) eqn:E; [|by rewrite stacked_start]. rewrite rev_start by done.
    unfold enter. unfold is_name in E. by destruct (is_empty c), (is_parent c).
Qed.

(** Normal forms: names with a slash after each, but perhaps for the last. *)
Lemma components_slashes cs c : Forall plain cs -> plain c -> components (slashes cs ++ c) = cs ++ [c].
Proof.
  intros Hcs Hc. induction Hcs as [|x cs Hx _ IH]; [by apply components_plain|].
  change (slashes (x :: cs)) with ((x ++ [slash]) ++ slashes cs). rewrite <- !app_assoc. simpl. by rewrite components_cons, IH.
Qed.

Lemma components_all_plain s : Forall plain (components s).
Proof.
  induction s as [|c s IH]; simpl; [repeat constructor|]. case_match eqn:E; [constructor; [constructor|done]|].
  apply Z.eqb_neq in E. destruct IH as [|h t Hh Ht]; repeat constructor; done.
Qed.

Lemma foldl_enter_named st cs : Forall named st -> Forall plain cs -> Forall named (foldl enter st cs).
Proof. intros Hst Hcs. revert st Hst. induction Hcs; intros st Hst; simpl; [done|]. auto using enter_named. Qed.

Lemma last_app_removelast {A} (l : list A) d : l ≠ [] -> l = removelast l ++ [List.last l d].
Proof. apply app_removelast_last. Qed.

(** The names of a normal form, and its last component when it has no slash at the end. *)
Lemma normalize_form s : exists cs c, Forall named cs /\ (c = [] \/ named c) /\ normalize s = slashes cs ++ c.
Proof.
  unfold normalize. pose proof (components_all_plain s) as Hp.
  rewrite (last_app_removelast (components s) []) in Hp by apply components_nonempty.
  apply Forall_app in Hp as [Hp1 [Hp2 _]%Forall_cons_1].
  pose proof (foldl_enter_named [] _ (List.Forall_nil _) Hp1) as Hst. case_match eqn:E.
  - eexists _, _. split; [apply Forall_rev, Hst|]. split; [|done]. by right.
  - eexists _, []. rewrite app_nil_r. split; [|by split; [left|]]. by apply Forall_rev, enter_named.
Qed.

Lemma foldl_enter_names st cs : Forall named cs -> foldl enter st cs = rev cs ++ st.
Proof.
  intros Hcs. revert st. induction Hcs as [|c cs [_ Hn] _ IH]; intros st; [done|]. simpl. rewrite IH, <- app_assoc.
  f_equal. unfold enter. unfold is_name in Hn. by destruct (is_empty c), (is_parent c).
Qed.

Lemma normalize_slashes cs c :
  Forall named cs -> c = [] \/ named c -> normalize (slashes cs ++ c) = slashes cs ++ c.
Proof.
  intros Hcs Hc. assert (Hp : plain c) by (destruct Hc as [->|[? _]]; [constructor|done]). unfold normalize.
  assert (Hps : Forall plain cs) by (apply (List.Forall_impl _ (fun a H => proj1 H) Hcs)).
  rewrite components_slashes by done.
  rewrite removelast_last, last_last, foldl_enter_names, app_nil_r, rev_involutive by done.
  destruct Hc as [->|[_ ->]]; [|done]. simpl. unfold enter. simpl. by rewrite rev_involutive, app_nil_r.
Qed.

Lemma normpath_fits s n d r : __zipos_normpath s n = (d, r) -> (r < n)%nat -> d = normalize s /\ r = length d.
Proof.
  unfold __zipos_normpath. case_match eqn:E; intros [= <- <-] H; [|apply Nat.ltb_ge in E; lia].
  rewrite (loop_walk n [] s H). split; [apply (walk_normalize [] s); constructor|by rewrite length_rev].
Qed.

(** C12: [__zipos_normpath] computes the normal form of a path. What it returns is at most the size of
    the buffer, is the size only when the text in between did not fit, and is never that for a
    path shorter than the buffer; otherwise the string in the buffer is the path that enters the
    components one by one from the root of the archive, [..] leaving a directory and never the
    root, and has that length. Normal forms have no empty component, no [.] and no [..], so that
    normalizing again changes nothing. *)
Theorem zipos_normpath_correct s n :
  let '(d, r) := __zipos_normpath s n in
  (r <= n /\ (r < n -> d = normalize s /\ r = length d) /\ (r = n -> length d = n - 1) /\ (length s < n -> r < n))%nat /\
  (exists cs c, Forall named cs /\ (c = [] \/ named c) /\ normalize s = slashes cs ++ c) /\
  normalize (normalize s) = normalize s.
Proof.
  assert (N : (exists cs c, Forall named cs /\ (c = [] \/ named c) /\ normalize s = slashes cs ++ c) /\
              normalize (normalize s) = normalize s).
  { destruct (normalize_form s) as (cs & c & Hcs & Hc & E). split; [by exists cs, c|].
    rewrite E. by apply normalize_slashes. }
  destruct (__zipos_normpath s n) as [d r] eqn:E. split; [|exact N]. pose proof (normpath_fits s n d r E) as F.
  unfold __zipos_normpath in E. pose proof (loop_length n [] s (Nat.le_0_l n)) as [H1 H2]. simpl in H2.
  destruct (Nat.ltb_spec (length (normpath_loop n [] s)) n) as [H|H]; injection E as <- <-.
  - split; [lia|]. split; [exact F|]. lia.
  - split; [lia|]. split; [exact F|]. rewrite length_take, length_rev. lia.
Qed.

(** The path of a URI is below [/zip], in normal form and shorter than [ZIPOS_PATH_MAX]. *)
Lemma zipos_parseuri_correct uri d :
  __zipos_parseuri true uri = Some d <->
  exists rest, uri = ascii_codes "/zip"%string ++ rest /\ ends rest = true /\
    (snd (__zipos_normpath (tail rest) ZIPOS_PATH_MAX) < ZIPOS_PATH_MAX)%nat /\ d = normalize (tail rest).
Proof.
  split.
  - intros H. assert (exists rest, uri = ascii_codes "/zip"%string ++ rest) as [rest ->].
    { unfold __zipos_parseuri in H. repeat (case_match; try done). eexists; reflexivity. }
    exists rest. simpl in H. destruct (ends rest); [|done]. simpl in H.
    destruct (__zipos_normpath (tail rest) ZIPOS_PATH_MAX) as [d' r] eqn:T. destruct (Nat.ltb_spec r ZIPOS_PATH_MAX) as [Hr|]; [|done].
    injection H as <-. split; [done|]. split; [done|]. split; [done|]. by apply (normpath_fits _ _ _ _ T).
  - intros (rest & -> & He & Hr & ->). simpl. rewrite He. simpl.
    destruct (__zipos_normpath (tail rest) ZIPOS_PATH_MAX) as [d' r] eqn:T. simpl in Hr. rewrite (proj2 (Nat.ltb_lt _ _) Hr).
    f_equal. by apply (normpath_fits _ _ _ _ T).
Qed.
