(* ===== verification/Zipos.v ===== *)
(** The zip file system: the index of the archive in the executable ([libc/runtime/zipos-get.c]),
    the lookup of paths ([zipos-find.c]), and [__zipos_open], [__zipos_access] and [__zipos_stat]
    up to the file descriptor. Reads of the mapped file give [None] when they leave it. *)
From S2P Require Import Prelude Zip ZiposPath Qsort.
From stdpp Require Import list.
#[local] Open Scope Z_scope.

(** * Bytes of the file *)

Fixpoint bytes_at (m : list Z) (i : Z) (n : nat) : option (list Z) :=
  match n with O => Some [] | S n => b ← byte_at m i; l ← bytes_at m (i + 1) n; Some (b :: l) end.

(** [memcmp] of as many bytes as the lists have. *)
Fixpoint memcmp (x y : list Z) : Z :=
  match x, y with a :: x', b :: y' => if a =? b then memcmp x' y' else a - b | _, _ => 0 end.

Definition ZIP_CFILE_NAME (p : Z) : Z := p + 46.
Definition ZIP_LFILE_CONTENT (m : list Z) (p : Z) : option Z := h ← ZIP_LFILE_HDRSIZE m p; Some (p + h).

(** * The index *)

(** [records] is the length of [index]. *)
Record Zipos := mkZipos { z_map : list Z; z_cdir : Z; z_dev : Z; z_index : list Z }.

Definition records (z : Zipos) : Z := Z.of_nat (length (z_index z)).

Definition index_at (z : Zipos) (i : Z) : option Z := if i <? 0 then None else z_index z !! Z.to_nat i.

(** The comparison that the sort and the search share: names of [xn] and [yn] bytes, of which
    [x] and [y] are the first bytes, as many as the shorter one has. *)
Definition compare_names (xn yn : Z) (x y : list Z) : Z :=
  let n := Z.min xn yn in
  if negb (n =? 0) then let c := memcmp x y in if negb (c =? 0) then c else xn - yn
  else xn - yn.

Definition __zipos_compare_names (m : list Z) (x y : Z) : option Z :=
  xn ← ZIP_CFILE_NAMESIZE m x; yn ← ZIP_CFILE_NAMESIZE m y;
  let n := Z.to_nat (Z.min xn yn) in
  xp ← bytes_at m (ZIP_CFILE_NAME x) n; yp ← bytes_at m (ZIP_CFILE_NAME y) n;
  Some (compare_names xn yn xp yp).

(** The offsets of the records of the central directory. *)
Fixpoint cdir_offsets (m : list Z) (n : nat) (c : Z) : option (list Z) :=
  match n with
  | O => Some []
  | S n => h ← ZIP_CFILE_HDRSIZE m c; l ← cdir_offsets m n (c + h); Some (c :: l)
  end.

(** [__zipos_init] when the file can be mapped; [m] is the file and [cdir] what [GetZipEocd] found. *)
Definition __zipos_generate_index `{Sorter Z} (m : list Z) (cdir dev : Z) : option Zipos :=
  n ← GetZipCdirRecords m cdir; c ← GetZipCdirOffset m cdir;
  l ← cdir_offsets m (Z.to_nat n) c;
  index ← qsort_r (fun x y => default 0 (__zipos_compare_names m x y)) l;
  Some (mkZipos m cdir dev index).

(** * Lookup *)

Definition ZIPOS_SYNTHETIC_DIRECTORY : Z := 0.

(** A path without the slash at its end. *)
Definition strip (name : list Z) : list Z := if bool_decide (List.last name 0 = slash) then removelast name else name.

(** [name] is the text that is compared, the first [len] bytes of [name->path]. *)
Definition __zipos_match (z : Zipos) (name : list Z) (i : Z) : option Z :=
  let len := Z.of_nat (length name) in
  cfile ← index_at z i;
  let zname := ZIP_CFILE_NAME cfile in
  zsize ← ZIP_CFILE_NAMESIZE (z_map z) cfile;
  direct ← (if len =? zsize then Some true
            else if len + 1 =? zsize then c ← byte_at (z_map z) (zname + len); Some (c =? slash) else Some false);
  same ← (if (direct : bool) then x ← bytes_at (z_map z) zname (length name); Some (memcmp name x =? 0) else Some false);
  if (same : bool) then Some cfile
  else
    below ← (if len + 1 <? zsize then c ← byte_at (z_map z) (zname + len); Some (c =? slash) else Some false);
    same ← (if (below : bool) then x ← bytes_at (z_map z) zname (length name); Some (memcmp name x =? 0) else Some false);
    Some (if (same : bool) then ZIPOS_SYNTHETIC_DIRECTORY else -1).

(** The binary search for the leftmost name that is not below [name]. *)
Fixpoint scan_search (fuel : nat) (z : Zipos) (name : list Z) (l r : Z) : option Z :=
  if negb (l <? r) then Some l
  else
    match fuel with
    | O => None
    | S fuel =>
      let m := Z.land l r + Z.shiftr (Z.lxor l r) 1 in
      cfile ← index_at z m;
      xn ← ZIP_CFILE_NAMESIZE (z_map z) cfile;
      let yn := Z.of_nat (length name) in
      let n := Z.to_nat (Z.min xn yn) in
      xp ← bytes_at (z_map z) (ZIP_CFILE_NAME cfile) n;
      if compare_names xn yn xp (take n name) <? 0 then scan_search fuel z name (m + 1) r else scan_search fuel z name l m
    end.

(** The loop that looks beyond files whose names begin like that of the directory. *)
Fixpoint scan_walk (fuel : nat) (z : Zipos) (name : list Z) (l dx : Z) : option Z :=
  if negb ((0 <=? l) && (l <? records z)) then Some (-1)
  else
    match fuel with
    | O => None
    | S fuel =>
      let len := Z.of_nat (length name) in
      cf ← __zipos_match z name l;
      if negb (cf =? -1) then Some cf
      else
        cfile ← index_at z l;
        zsize ← ZIP_CFILE_NAMESIZE (z_map z) cfile;
        stop ← (if zsize <? len then Some true
                else if negb (len =? 0) then c ← byte_at (z_map z) (ZIP_CFILE_NAME cfile + (len - 1)); Some (negb (c =? List.last name 0))
                else Some false);
        if (stop : bool) then Some (-1) else scan_walk fuel z name (l + dx) dx
    end.

Definition __zipos_scan (z : Zipos) (path : list Z) : option Z :=
  let name := strip path in
  let len := Z.of_nat (length name) in
  if len =? 0 then Some ZIPOS_SYNTHETIC_DIRECTORY
  else
    let fuel := S (length (z_index z)) in
    l ← scan_search fuel z name 0 (records z);
    if l <? records z then
      cfile ← index_at z l;
      zsize ← ZIP_CFILE_NAMESIZE (z_map z) cfile;
      dx ← (if len <? zsize then c ← byte_at (z_map z) (ZIP_CFILE_NAME cfile + len); Some (slash - c) else Some 0);
      if negb (dx =? 0) then
        let dx := if 1 <? dx then 1 else dx in
        let dx := if dx <? -1 then -1 else dx in
        scan_walk fuel z name (l + dx) dx
      else __zipos_match z name l
    else Some (-1).

(** Errors, as values of [errno]. *)
Inductive errno := ENOENT | ENOTDIR | EROFS | ENOEXEC | EEXIST | EACCES | EIO | EINVAL | EISDIR | EOVERFLOW | ENOMEM.

(** [memrchr(path, '/', len)]: what is before the last slash. *)
Definition before_last_slash (path : list Z) : option (list Z) :=
  let r := drop_while (fun c => negb (c =? slash)) (rev path) in
  match r with [] => None | _ :: r => Some (rev r) end.

(** The loop over the parents of a path that was not found. *)
Fixpoint find_parent (fuel : nat) (z : Zipos) (path : list Z) : option errno :=
  match fuel with
  | O => None
  | S fuel =>
    match before_last_slash path with
    | None => Some ENOENT
    | Some path =>
      cf ← __zipos_scan z path;
      notdir ← (if negb (cf =? -1) && negb (cf =? ZIPOS_SYNTHETIC_DIRECTORY)
                then mode ← GetZipCfileMode (z_map z) cf; Some (negb (S_ISDIR mode)) else Some false);
      if (notdir : bool) then Some ENOTDIR else find_parent fuel z path
    end
  end.

Definition __zipos_find (z : Zipos) (path : list Z) : option (Z + errno) :=
  cf ← __zipos_scan z path;
  if cf =? -1 then inr <$> find_parent (S (length path)) z path
  else
    notdir ← (if negb (cf =? ZIPOS_SYNTHETIC_DIRECTORY) && negb (Z.of_nat (length path) =? 0) && (List.last path 0 =? slash)
              then mode ← GetZipCfileMode (z_map z) cf; Some (negb (S_ISDIR mode)) else Some false);
    Some (if (notdir : bool) then inr ENOTDIR else inl cf).

(** * Access, status and opening *)

Definition R_OK : Z := 4.
Definition W_OK : Z := 2.
Definition X_OK : Z := 1.
Definition F_OK : Z := 0.

(** [z] is what [__zipos_get] returns, nothing without an archive. *)
Definition __zipos_access (z : option Zipos) (path : list Z) (amode : Z) : option (unit + errno) :=
  match z with
  | None => Some (inr ENOEXEC)
  | Some z =>
    r ← __zipos_find z path;
    match r with
    | inr e => Some (inr e)
    | inl cf =>
      mode ← (if negb (cf =? ZIPOS_SYNTHETIC_DIRECTORY) then GetZipCfileMode (z_map z) cf else Some (Z.lor S_IFDIR 0x16D));
      Some (if amode =? F_OK then inl tt
            else if negb (Z.land amode (Z.lnot (Z.lor (Z.lor R_OK W_OK) X_OK)) =? 0) then inr EINVAL
            else if (negb (Z.land amode X_OK =? 0) && (Z.land mode 0x49 =? 0)) ||
                    (negb (Z.land amode W_OK =? 0) && (Z.land mode 0x92 =? 0)) ||
                    (negb (Z.land amode R_OK =? 0) && (Z.land mode 0x124 =? 0)) then inr EACCES
            else inl tt)
    end
  end.

(** The fields of [struct stat] that depend on the record; times are not modelled. *)
Record zstat := mkStat { st_mode : Z; st_size : Z; st_blocks : Z }.

Definition __zipos_stat_impl (z : Zipos) (cf : Z) : option zstat :=
  if cf =? ZIPOS_SYNTHETIC_DIRECTORY then Some (mkStat (Z.lor S_IFDIR 0x1ED) 0 0)
  else
    lf ← GetZipCfileOffset (z_map z) cf;
    mode ← GetZipCfileMode (z_map z) cf;
    size ← GetZipLfileUncompressedSize (z_map z) lf;
    csize ← GetZipLfileCompressedSize (z_map z) lf;
    Some (mkStat mode size (Z.land (csize + 511) (-512) / 512)).

Definition __zipos_stat (z : option Zipos) (path : list Z) : option (zstat + errno) :=
  match z with
  | None => Some (inr ENOEXEC)
  | Some z =>
    r ← __zipos_find z path;
    match r with inr e => Some (inr e) | inl cf => inl <$> __zipos_stat_impl z cf end
  end.

Definition kZipCompressionNone : Z := 0.
Definition kZipCompressionDeflate : Z := 8.

(** Where the contents of an open file are: in the mapped file or in memory of its own. *)
Inductive contents := Mapped (off : Z) | Owned (data : list Z).
Record ZiposHandle := mkHandle { h_cfile : Z; h_size : Z; h_mem : contents }.

(** [__zipos_load] up to the file descriptor. [inflate] decompresses into a buffer of the given
    size, or fails; [alloc] tells whether there is memory of a size. *)
Definition __zipos_load (alloc : Z -> bool) (inflate : list Z -> Z -> option (list Z))
    (z : Zipos) (cf : Z) (path : list Z) : option (ZiposHandle + errno) :=
  if cf =? ZIPOS_SYNTHETIC_DIRECTORY then
    let size := Z.of_nat (length path) in
    Some (if alloc (size + 1) then inl (mkHandle cf size (Owned (path ++ [0]))) else inr ENOMEM)
  else
    lf ← GetZipCfileOffset (z_map z) cf;
    size ← GetZipLfileUncompressedSize (z_map z) lf;
    method ← ZIP_LFILE_COMPRESSIONMETHOD (z_map z) lf;
    if method =? kZipCompressionNone then
      off ← ZIP_LFILE_CONTENT (z_map z) lf;
      Some (if alloc 0 then inl (mkHandle cf size (Mapped off)) else inr ENOMEM)
    else if method =? kZipCompressionDeflate then
      if alloc size then
        off ← ZIP_LFILE_CONTENT (z_map z) lf;
        csize ← GetZipLfileCompressedSize (z_map z) lf;
        src ← bytes_at (z_map z) off (Z.to_nat csize);
        Some (match inflate src size with Some data => inl (mkHandle cf size (Owned data)) | None => inr EIO end)
      else Some (inr ENOMEM)
    else Some (inr EIO).

Definition O_ACCMODE : Z := 3.
Definition O_RDONLY : Z := 0.
Definition O_CREAT : Z := 0x40.
Definition O_EXCL : Z := 0x80.
Definition O_TRUNC : Z := 0x200.
Definition O_APPEND : Z := 0x400.

Section Open.
(** The flag for directories depends on the machine. *)
Context (O_DIRECTORY : Z) (alloc : Z -> bool) (inflate : list Z -> Z -> option (list Z)).

Definition flag (flags f : Z) : bool := negb (Z.land flags f =? 0).

Definition __zipos_open (z : option Zipos) (path : list Z) (flags : Z) : option (ZiposHandle + errno) :=
  if flag flags O_CREAT || flag flags O_TRUNC || flag flags O_APPEND || negb (Z.land flags O_ACCMODE =? O_RDONLY)
  then Some (inr EROFS)
  else
    match z with
    | None => Some (inr ENOEXEC)
    | Some z =>
      r ← __zipos_find z path;
      match r with
      | inr e => Some (inr e)
      | inl cf =>
        if flag flags O_EXCL then Some (inr EEXIST)
        else if negb (cf =? ZIPOS_SYNTHETIC_DIRECTORY) then
          mode ← GetZipCfileMode (z_map z) cf;
          if flag flags O_DIRECTORY && negb (S_ISDIR mode) then Some (inr ENOTDIR)
          else if Z.land mode 0x124 =? 0 then Some (inr EACCES)
          else __zipos_load alloc inflate z cf path
        else __zipos_load alloc inflate z cf path
      end
    end.
End Open.
