(* ===== verification/ZiposFacts.v ===== *)
(** Lookups in the zip file system find what the archive has: the binary search over the sorted
    index, with its walk past files that sort before a directory, agrees with the contents of the
    central directory. *)
From Stdlib Require Import Sorted Permutation.
From S2P Require Import Prelude Zip ZiposPath Qsort QsortFacts Zipos.
From stdpp Require Import list.
#[local] Open Scope Z_scope.

(** * The order of names *)

(** Byte by byte, a prefix before what it is a prefix of. *)
Fixpoint name_cmp (x y : list Z) : Z :=
  match x, y with
  | a :: x', b :: y' => if a =? b then name_cmp x' y' else a - b
  | _, _ => Z.of_nat (length x) - Z.of_nat (length y)
  end.

Lemma name_cmp_cons a b x y : name_cmp (a :: x) (b :: y) = if a =? b then name_cmp x y else a - b.
Proof. done. Qed.

Lemma name_cmp_refl x : name_cmp x x = 0.
Proof. induction x as [|a x IH]; [done|]. by rewrite name_cmp_cons, Z.eqb_refl. Qed.

Lemma name_cmp_flip x y : name_cmp y x = - name_cmp x y.
Proof.
  revert y. induction x as [|a x IH]; intros [|b y]; [done|simpl; lia..|].
  rewrite !name_cmp_cons, IH, (Z.eqb_sym b a). case_match; lia.
Qed.

Lemma name_cmp_eq x y : name_cmp x y = 0 -> x = y.
Proof.
  revert y. induction x as [|a x IH]; intros [|b y]; [done|simpl; lia..|].
  rewrite name_cmp_cons. destruct (Z.eqb_spec a b) as [->|]; [|lia]. intros H. by rewrite (IH y).
Qed.

Lemma name_cmp_trans x y z : name_cmp x y <= 0 -> name_cmp y z <= 0 -> name_cmp x z <= 0.
Proof.
  revert y z. induction x as [|a x IH]; intros [|b y] [|c z]; try (simpl; lia).
  rewrite !name_cmp_cons. destruct (Z.eqb_spec a b), (Z.eqb_spec b c), (Z.eqb_spec a c); subst; try lia; try done. apply IH.
Qed.

Lemma name_cmp_app q x y : name_cmp (q ++ x) (q ++ y) = name_cmp x y.
Proof. induction q as [|a q IH]; [done|]. simpl app. by rewrite name_cmp_cons, Z.eqb_refl. Qed.

Lemma name_cmp_prefix q t : name_cmp q (q ++ t) <= 0.
Proof. rewrite <- (app_nil_r q) at 1. rewrite name_cmp_app. destruct t; simpl; lia. Qed.

(** The names that begin with [q] are next to each other. *)
Lemma name_cmp_between q x t : name_cmp q x <= 0 -> name_cmp x (q ++ t) <= 0 -> exists u, x = q ++ u.
Proof.
  revert x. induction q as [|a q IH]; intros [|b x]; [by exists []|by eexists|simpl; lia|].
  simpl app. rewrite !name_cmp_cons. destruct (Z.eqb_spec a b) as [->|].
  - rewrite Z.eqb_refl. intros H1 H2. destruct (IH x H1 H2) as [u ->]. by exists u.
  - rewrite (proj2 (Z.eqb_neq b a)) by done. lia.
Qed.

Lemma memcmp_eq x y : length x = length y -> memcmp x y = 0 <-> x = y.
Proof.
  revert y. induction x as [|a x IH]; intros [|b y] H; try done. simpl in *.
  destruct (Z.eqb_spec a b) as [->|]; [rewrite IH by lia; naive_solver|]. split; [lia|]. intros [= ]; done.
Qed.

Lemma compare_names_cmp x y :
  let n := Z.to_nat (Z.min (Z.of_nat (length x)) (Z.of_nat (length y))) in
  compare_names (Z.of_nat (length x)) (Z.of_nat (length y)) (take n x) (take n y) = name_cmp x y.
Proof.
  cbn zeta. revert y. induction x as [|a x IH]; intros [|b y]; [done|done|done|].
  specialize (IH y). unfold compare_names in *. cbn [length] in *. rewrite name_cmp_cons.
  replace (Z.to_nat _) with (S (Z.to_nat (Z.min (Z.of_nat (length x)) (Z.of_nat (length y))))) by lia.
  rewrite !firstn_cons. cbn [memcmp].
  rewrite (proj2 (Z.eqb_neq (Z.min (Z.of_nat (S (length x))) (Z.of_nat (S (length y)))) 0)) by lia. cbn [negb].
  destruct (Z.eqb_spec a b) as [->|]; [|rewrite (proj2 (Z.eqb_neq (a - b) 0)) by lia; done].
  rewrite <- IH. destruct (Z.eqb_spec (Z.min (Z.of_nat (length x)) (Z.of_nat (length y))) 0) as [E|E]; cbn [negb].
  - rewrite E. change (Z.to_nat 0) with O. rewrite !take_0. change (memcmp [] [] =? 0) with true. cbn [negb]. lia.
  - destruct (memcmp _ _ =? 0); cbn [negb]; [lia|done].
Qed.

(** * Records *)

(** The record at [c] has the name [nm]. *)
Definition named_at (m : list Z) (c : Z) (nm : list Z) : Prop :=
  ZIP_CFILE_NAMESIZE m c = Some (Z.of_nat (length nm)) /\ bytes_at m (ZIP_CFILE_NAME c) (length nm) = Some nm.

Lemma bytes_at_take m i n l k : bytes_at m i n = Some l -> (k <= n)%nat -> bytes_at m i k = Some (take k l).
Proof.
  revert i l k. induction n as [|n IH]; intros i l [|k] H Hk; [done|lia|done|]. simpl in *.
  destruct (byte_at m i) as [b|]; [|done]. simpl in *. destruct (bytes_at m (i + 1) n) as [l'|] eqn:E; [|done].
  simpl in *. injection H as <-. rewrite (IH (i + 1) l' k) by (done || lia). done.
Qed.

Lemma bytes_at_length m i n l : bytes_at m i n = Some l -> length l = n.
Proof.
  revert i l. induction n as [|n IH]; intros i l H; simpl in H; [by simplify_eq|].
  destruct (byte_at m i) as [b|]; [|done]. simpl in *. destruct (bytes_at m (i + 1) n) as [l'|] eqn:E; [|done].
  simpl in *. injection H as <-. simpl. f_equal. by eapply IH.
Qed.

Lemma bytes_at_lookup m i n l j b : bytes_at m i n = Some l -> l !! j = Some b -> byte_at m (i + Z.of_nat j) = Some b.
Proof.
  revert i l j. induction n as [|n IH]; intros i l j H Hj; simpl in H; [by simplify_eq|].
  destruct (byte_at m i) as [b'|] eqn:Eb; [|done]. simpl in *. destruct (bytes_at m (i + 1) n) as [l'|] eqn:E; [|done].
  simpl in *. injection H as <-. destruct j as [|j]; simpl in Hj; [by rewrite Z.add_0_r; simplify_eq|].
  replace (i + Z.of_nat (S j)) with (i + 1 + Z.of_nat j) by lia. by eapply IH.
Qed.

(** The records of an index with their names, in its order. *)
Record indexed (z : Zipos) (es : list (Z * list Z)) : Prop := {
  indexed_offsets : z_index z = es.*1;
  indexed_names : Forall (fun e => 0 < e.1 /\ named_at (z_map z) e.1 e.2) es }.

Definition sorted (es : list (Z * list Z)) : Prop := StronglySorted (fun e f => name_cmp e.2 f.2 <= 0) es.

Lemma indexed_lookup z es i e :
  indexed z es -> es !! i = Some e -> index_at z (Z.of_nat i) = Some e.1 /\ 0 < e.1 /\ named_at (z_map z) e.1 e.2.
Proof.
  intros [Ho Hn] He. unfold index_at. rewrite (proj2 (Z.ltb_ge _ _)) by lia. rewrite Nat2Z.id, Ho.
  rewrite list_lookup_fmap, He. split; [done|]. rewrite Forall_lookup in Hn. by apply (Hn i).
Qed.

Lemma indexed_records z es : indexed z es -> records z = Z.of_nat (length es).
Proof. intros [Ho _]. unfold records. by rewrite Ho, length_fmap. Qed.

(** * A record against a path *)

(** What a record says of the path [q]: it is it, it lies below it, or neither. *)
Definition match_spec (q : list Z) (e : Z * list Z) : Z :=
  if decide (e.2 = q \/ e.2 = q ++ [slash]) then e.1
  else if decide ((q ++ [slash]) `prefix_of` e.2) then ZIPOS_SYNTHETIC_DIRECTORY else -1.

Lemma prefix_slash q nm :
  (q ++ [slash]) `prefix_of` nm <-> take (length q) nm = q /\ nm !! length q = Some slash.
Proof.
  split.
  - intros [t ->]. rewrite <- app_assoc. split; [apply take_app_length|by apply list_lookup_middle].
  - intros [H1 H2]. exists (drop (S (length q)) nm). rewrite <- H1 at 1. rewrite <- app_assoc. simpl.
    by rewrite take_drop_middle.
Qed.

(** Names that are no longer than the path. *)
Lemma match_spec_short q c nm : (length nm <= length q)%nat -> match_spec q (c, nm) = if decide (nm = q) then c else -1.
Proof.
  intros Hl. unfold match_spec. simpl. rewrite (decide_False (P := (q ++ [slash]) `prefix_of` nm)).
  2:{ intros [t ->]. rewrite !length_app in Hl. simpl in Hl. lia. }
  destruct (decide (nm = q)) as [->|Hne]; [by rewrite decide_True by (by left)|]. rewrite decide_False; [done|].
  intros [->| ->]; [done|]. rewrite length_app in Hl. simpl in Hl. lia.
Qed.

(** Names that are longer. *)
Lemma match_spec_long q c nm b :
  nm !! length q = Some b ->
  match_spec q (c, nm) =
    if bool_decide (take (length q) nm = q) && (b =? slash)
    then if Z.of_nat (length q) + 1 =? Z.of_nat (length nm) then c else ZIPOS_SYNTHETIC_DIRECTORY
    else -1.
Proof.
  intros Hl. unfold match_spec. simpl. pose proof (lookup_lt_Some _ _ _ Hl) as Hgt.
  pose proof (prefix_slash q nm) as P. rewrite Hl in P.
  assert (Hq : nm = q ++ [slash] <-> length nm = S (length q) /\ (q ++ [slash]) `prefix_of` nm).
  { split; [intros ->; rewrite length_app; simpl; split; [lia|done]|]. intros [Hn [t ->]]. rewrite !length_app in Hn.
    simpl in Hn. destruct t; [by rewrite app_nil_r|simpl in Hn; lia]. }
  assert (Hne : nm ≠ q) by (intros ->; lia).
  destruct (bool_decide (take (length q) nm = q) && (b =? slash)) eqn:E.
  - apply andb_true_iff in E as [E1%bool_decide_eq_true E2%Z.eqb_eq]. subst b.
    assert (HP : (q ++ [slash]) `prefix_of` nm) by (by apply P). rewrite (decide_True (P := _ `prefix_of` _)) by done.
    destruct (Z.eqb_spec (Z.of_nat (length q) + 1) (Z.of_nat (length nm))) as [E|E].
    + rewrite decide_True; [done|]. right. apply Hq. split; [lia|done].
    + rewrite decide_False; [done|]. intros [?|[? _]%Hq]; [done|lia].
  - assert (HP : ~ (q ++ [slash]) `prefix_of` nm).
    { intros [H1 H2]%P. injection H2 as ->. rewrite bool_decide_true in E by done. done. }
    rewrite decide_False, decide_False; [done|done|]. intros [?|[_ ?]%Hq]; done.
Qed.

Lemma match_ok z es i e q :
  indexed z es -> es !! i = Some e -> __zipos_match z q (Z.of_nat i) = Some (match_spec q e).
Proof.
  intros Hz He. destruct (indexed_lookup _ _ _ _ Hz He) as (Hi & _ & Hs & Hb). destruct e as [c nm]. simpl in *.
  unfold __zipos_match. rewrite Hi. simpl. rewrite Hs. simpl.
  destruct (Nat.le_gt_cases (length nm) (length q)) as [Hle|Hgt].
  - rewrite match_spec_short, (proj2 (Z.eqb_neq (Z.of_nat (length q) + 1) _)), (proj2 (Z.ltb_ge _ _)) by lia. simpl.
    destruct (Z.eqb_spec (Z.of_nat (length q)) (Z.of_nat (length nm))) as [E|E]; simpl.
    + replace (length q) with (length nm) by lia. rewrite Hb. simpl.
      destruct (Z.eqb_spec (memcmp q nm) 0) as [E2|E2]; case_decide as D; try done;
        [apply memcmp_eq in E2; [congruence|lia]|]. subst. exfalso. apply E2. by apply memcmp_eq.
    + rewrite decide_False; [done|]. intros ->. lia.
  - destruct (lookup_lt_is_Some_2 nm (length q) Hgt) as [b Hl]. rewrite (match_spec_long _ _ _ _ Hl).
    rewrite (bytes_at_lookup _ _ _ _ _ _ Hb Hl), (bytes_at_take _ _ _ _ (length q) Hb) by lia. simpl.
    assert (Hm : memcmp q (take (length q) nm) =? 0 = bool_decide (take (length q) nm = q)).
    { case_bool_decide as D; [rewrite D; apply Z.eqb_eq; by apply memcmp_eq|]. apply Z.eqb_neq.
      rewrite memcmp_eq by (rewrite length_take; lia). congruence. }
    rewrite Hm, (proj2 (Z.eqb_neq (Z.of_nat (length q)) _)) by lia.
    destruct (Z.eqb_spec (Z.of_nat (length q) + 1) (Z.of_nat (length nm))) as [E|E]; simpl.
    + rewrite (proj2 (Z.ltb_ge _ _)) by lia. by destruct (b =? slash), (bool_decide _).
    + rewrite (proj2 (Z.ltb_lt _ _)) by lia. by destruct (b =? slash), (bool_decide _).
Qed.

(** * The search *)

(** [l] is where [q] would be inserted, before the names that are not below it. *)
Definition lower_bound (q : list Z) (es : list (Z * list Z)) (l : nat) : Prop :=
  (l <= length es)%nat /\
  (forall i e, es !! i = Some e -> (i < l)%nat -> name_cmp e.2 q < 0) /\
  (forall i e, es !! i = Some e -> (l <= i)%nat -> name_cmp q e.2 <= 0).

Lemma sorted_lookup es i j e f : sorted es -> es !! i = Some e -> es !! j = Some f -> (i <= j)%nat -> name_cmp e.2 f.2 <= 0.
Proof.
  intros Hs. revert i j. induction Hs as [|x es Hs IH Hx]; intros i j Hi Hj Hij; [done|].
  destruct i as [|i], j as [|j]; simpl in *; simplify_eq; [by rewrite name_cmp_refl| |lia|apply (IH i j); done || lia].
  rewrite Forall_lookup in Hx. by apply (Hx j).
Qed.

Lemma search_ok z es q fuel l r :
  indexed z es -> sorted es -> (l <= r <= length es)%nat -> (r - l <= fuel)%nat ->
  (forall i e, es !! i = Some e -> (i < l)%nat -> name_cmp e.2 q < 0) ->
  (forall i e, es !! i = Some e -> (r <= i)%nat -> name_cmp q e.2 <= 0) ->
  exists k, scan_search fuel z q (Z.of_nat l) (Z.of_nat r) = Some (Z.of_nat k) /\ lower_bound q es k.
Proof.
  intros Hz Hs. revert l r. induction fuel as [|fuel IH]; intros l r Hlr Hf Hlo Hhi; cbn [scan_search].
  - rewrite (proj2 (Z.ltb_ge _ _)) by lia. exists l. split; [done|]. split; [lia|]. split; [done|].
    intros i e Hi Hle. apply (Hhi i e Hi). lia.
  - destruct (Z.ltb_spec (Z.of_nat l) (Z.of_nat r)) as [Hlt|Hge]; cbn [negb].
    2:{ exists l. split; [done|]. split; [lia|]. split; [done|]. intros i e Hi Hle. apply (Hhi i e Hi). lia. }
    rewrite midpoint by lia. set (h := (Z.of_nat l + Z.of_nat r) / 2). assert (Hh : Z.of_nat l <= h < Z.of_nat r) by (unfold h; lia).
    clearbody h. assert (exists k, h = Z.of_nat k) as [k ->] by (exists (Z.to_nat h); lia).
    assert (Hk : (l <= k < r)%nat) by lia.
    destruct (lookup_lt_is_Some_2 es k) as [[c nm] He]; [lia|].
    destruct (indexed_lookup _ _ _ _ Hz He) as (Hi & _ & Hn & Hb). simpl in *. rewrite Hi. simpl. rewrite Hn. simpl.
    rewrite (bytes_at_take _ _ _ _ _ Hb) by lia. simpl. rewrite compare_names_cmp.
    destruct (Z.ltb_spec (name_cmp nm q) 0) as [Hc|Hc].
    + replace (Z.of_nat k + 1) with (Z.of_nat (S k)) by lia. apply IH; [lia|lia| |done].
      intros i e Hie Hik. pose proof (sorted_lookup _ _ _ _ _ Hs Hie He ltac:(lia)) as H. simpl in H.
      destruct (Z.eq_dec (name_cmp e.2 q) 0) as [Eq%name_cmp_eq|]; [subst; rewrite (name_cmp_flip nm) in H; lia|].
      pose proof (name_cmp_trans e.2 nm q H ltac:(lia)). lia.
    + apply IH; [lia|lia|done|]. intros i e Hie Hki. pose proof (sorted_lookup _ _ _ _ _ Hs He Hie Hki) as H. simpl in H.
      apply (name_cmp_trans q nm); [rewrite name_cmp_flip; lia|done].
Qed.

(** * Matches *)

Fixpoint first_match (q : list Z) (es : list (Z * list Z)) : Z :=
  match es with
  | [] => -1
  | e :: es => if match_spec q e =? -1 then first_match q es else match_spec q e
  end.

Lemma match_prefix q e : match_spec q e ≠ -1 -> exists t, e.2 = q ++ t /\ (t = [] \/ exists t', t = slash :: t').
Proof.
  unfold match_spec. intros H. case_decide as D1.
  - destruct D1 as [-> | ->]; [exists []; rewrite app_nil_r; eauto|]. eexists. split; [done|]. right. by eexists.
  - case_decide as D2; [|done]. destruct D2 as [t E]. exists (slash :: t). split; [|right; by eexists].
    by rewrite E, <- app_assoc.
Qed.

Lemma first_match_none q es : (forall i e, es !! i = Some e -> match_spec q e = -1) -> first_match q es = -1.
Proof.
  induction es as [|e es IH]; intros H; [done|]. simpl. rewrite (H 0%nat e eq_refl). apply IH. intros i f Hf. by apply (H (S i)).
Qed.

Lemma first_match_drop q es l :
  (forall i e, es !! i = Some e -> (i < l)%nat -> match_spec q e = -1) -> first_match q es = first_match q (drop l es).
Proof.
  revert l. induction es as [|e es IH]; intros [|l] H; try done. simpl.
  rewrite (H 0%nat e eq_refl) by lia. apply IH. intros i f Hf Hi. apply (H (S i)); [done|lia].
Qed.

Lemma match_below q e : name_cmp e.2 q < 0 -> match_spec q e = -1.
Proof.
  intros H. destruct (Z.eq_dec (match_spec q e) (-1)) as [|Hne]; [done|].
  apply match_prefix in Hne as (t & E & _). pose proof (name_cmp_prefix q t) as P. rewrite <- E, name_cmp_flip in P. lia.
Qed.

(** Past a name that does not begin with [q] nothing matches. *)
Lemma match_past q es i e :
  sorted es -> es !! i = Some e -> name_cmp q e.2 <= 0 -> (forall t, e.2 ≠ q ++ t) ->
  first_match q (drop (S i) es) = -1.
Proof.
  intros Hs He Hq Hn. apply first_match_none. intros j f Hf. rewrite lookup_drop in Hf.
  destruct (Z.eq_dec (match_spec q f) (-1)) as [|Hne]; [done|]. apply match_prefix in Hne as (t & E & _).
  pose proof (sorted_lookup _ _ _ _ _ Hs He Hf ltac:(lia)) as H. rewrite E in H.
  destruct (name_cmp_between q e.2 t Hq H) as [u Hu]. by destruct (Hn u).
Qed.

(** * The walk *)

Lemma last_at (q : list Z) : q ≠ [] -> q !! (length q - 1)%nat = Some (List.last q 0).
Proof.
  induction q as [|a q IH]; intros H; [done|]. destruct q as [|b q]; [done|].
  transitivity ((b :: q) !! (length (b :: q) - 1)%nat); [|by apply IH].
  replace (length (a :: b :: q) - 1)%nat with (S (length (b :: q) - 1)) by (simpl; lia). done.
Qed.

(** The test that ends the walk holds for no name that begins with [q]. *)
Lemma walk_stop z es i e q :
  indexed z es -> es !! i = Some e -> q ≠ [] ->
  exists stop, (if Z.of_nat (length e.2) <? Z.of_nat (length q) then Some true
    else if negb (Z.of_nat (length q) =? 0)
    then c ← byte_at (z_map z) (ZIP_CFILE_NAME e.1 + (Z.of_nat (length q) - 1)); Some (negb (c =? List.last q 0))
    else Some false) = Some stop /\ (stop = true -> forall t, e.2 ≠ q ++ t).
Proof.
  intros Hz He Hq. destruct (indexed_lookup _ _ _ _ Hz He) as (_ & _ & _ & Hb). destruct e as [c nm]. simpl in *.
  destruct (Z.ltb_spec (Z.of_nat (length nm)) (Z.of_nat (length q))) as [Hl|Hl].
  { exists true. split; [done|]. intros _ t ->. rewrite length_app in Hl. lia. }
  assert (length q ≠ 0%nat) by (by destruct q). rewrite (proj2 (Z.eqb_neq _ _)) by lia. simpl.
  destruct (lookup_lt_is_Some_2 nm (length q - 1)) as [b Hn]; [lia|].
  replace (Z.of_nat (length q) - 1) with (Z.of_nat (length q - 1)) by lia. rewrite (bytes_at_lookup _ _ _ _ _ _ Hb Hn). simpl.
  eexists. split; [done|]. intros Hs t ->. rewrite lookup_app_l in Hn by lia.
  rewrite last_at in Hn by done.
  injection Hn as <-. rewrite Z.eqb_refl in Hs. done.
Qed.

Lemma drop_lookup {A} (l : list A) i x : l !! i = Some x -> drop i l = x :: drop (S i) l.
Proof. revert i. induction l as [|y l IH]; intros [|i] H; simpl in *; [done..|by simplify_eq|by apply IH]. Qed.

Lemma walk_right z es q fuel l :
  indexed z es -> sorted es -> q ≠ [] -> (length es - l < fuel)%nat ->
  (forall i e, es !! i = Some e -> (l <= i)%nat -> name_cmp q e.2 <= 0) ->
  scan_walk fuel z q (Z.of_nat l) 1 = Some (first_match q (drop l es)).
Proof.
  intros Hz Hs Hq. revert l. induction fuel as [|fuel IH]; intros l Hf Hge; [lia|]. cbn [scan_walk].
  rewrite (indexed_records _ _ Hz), (proj2 (Z.leb_le 0 _)) by lia. simpl andb.
  destruct (Z.ltb_spec (Z.of_nat l) (Z.of_nat (length es))) as [Hl|Hl]; cbn [negb].
  2:{ rewrite drop_ge by lia. done. }
  destruct (lookup_lt_is_Some_2 es l) as [e He]; [lia|]. rewrite (match_ok _ _ _ _ q Hz He). simpl.
  rewrite (drop_lookup _ _ _ He). cbn [first_match]. destruct (Z.eqb_spec (match_spec q e) (-1)) as [E|E]; cbn [negb]; [|done].
  destruct (indexed_lookup _ _ _ _ Hz He) as (Hi & _ & Hn & _). rewrite Hi. simpl. rewrite Hn. simpl.
  destruct (walk_stop _ _ _ _ _ Hz He Hq) as (stop & Es & Hstop). rewrite Es. simpl. destruct stop.
  - rewrite (match_past q es l e); [done..| |by apply Hstop]. by apply (Hge l).
  - replace (Z.of_nat l + 1) with (Z.of_nat (S l)) by lia. apply IH; [lia|]. intros i f Hf' Hi'. apply (Hge i); [done|lia].
Qed.

Lemma walk_left z es q fuel l :
  indexed z es -> q ≠ [] -> (l <= fuel)%nat -> (l <= length es)%nat ->
  (forall i e, es !! i = Some e -> (i < l)%nat -> name_cmp e.2 q < 0) ->
  scan_walk (S fuel) z q (Z.of_nat l - 1) (-1) = Some (-1).
Proof.
  intros Hz Hq. revert fuel. induction l as [|l IH]; intros fuel Hf Hl Hlt; [done|]. cbn [scan_walk].
  replace (Z.of_nat (S l) - 1) with (Z.of_nat l) by lia.
  rewrite (indexed_records _ _ Hz), (proj2 (Z.leb_le 0 _)), (proj2 (Z.ltb_lt _ _)) by lia. simpl.
  destruct (lookup_lt_is_Some_2 es l) as [e He]; [lia|]. rewrite (match_ok _ _ _ _ q Hz He). simpl.
  rewrite match_below by (apply (Hlt l); done || lia). simpl.
  destruct (indexed_lookup _ _ _ _ Hz He) as (Hi & _ & Hn & _). rewrite Hi. simpl. rewrite Hn. simpl.
  destruct (walk_stop _ _ _ _ _ Hz He Hq) as (stop & Es & _). rewrite Es. simpl. destruct stop; [done|].
  destruct fuel as [|fuel]; [lia|]. apply IH; [lia|lia|]. intros i f Hf' Hi'. apply (Hlt i); [done|lia].
Qed.

(** Where the record at the lower bound has another character in place of the slash. *)
Lemma no_match_after q es l c nm b :
  sorted es -> es !! l = Some (c, nm) -> name_cmp q nm <= 0 -> nm !! length q = Some b -> slash < b ->
  first_match q (drop (S l) es) = -1.
Proof.
  intros Hs He Hq Hb Hsl. destruct (decide (take (length q) nm = q)) as [E|E].
  - apply first_match_none. intros j f Hf. rewrite lookup_drop in Hf.
    destruct (Z.eq_dec (match_spec q f) (-1)) as [|Hne]; [done|]. exfalso. apply match_prefix in Hne as (t & Ef & Ht).
    pose proof (sorted_lookup _ _ _ _ _ Hs He Hf ltac:(lia)) as H. simpl in H.
    rewrite <- (take_drop_middle nm (length q) b Hb), E, Ef, name_cmp_app in H.
    destruct Ht as [->|[t' ->]]; [simpl in H; lia|]. rewrite name_cmp_cons in H. case_match eqn:Eb; lia.
  - apply (match_past q es l (c, nm)); [done..|]. simpl. intros t ->. by rewrite take_app_length in E.
Qed.

Lemma scan_ok z es path :
  indexed z es -> sorted es ->
  __zipos_scan z path = Some (if decide (strip path = []) then ZIPOS_SYNTHETIC_DIRECTORY else first_match (strip path) es).
Proof.
  intros Hz Hs. unfold __zipos_scan. set (q := strip path). case_decide as D; [by rewrite D|].
  assert (length q ≠ 0%nat) by (by destruct q). rewrite (proj2 (Z.eqb_neq _ _)) by lia.
  assert (Hlen : length (z_index z) = length es) by (by rewrite (indexed_offsets _ _ Hz), length_fmap). rewrite Hlen.
  rewrite (indexed_records _ _ Hz).
  destruct (search_ok z es q (S (length es)) 0 (length es)) as (l & El & Hl & Hlo & Hhi); [done|done|lia|lia|lia| |].
  { intros i e Hi Hle. apply lookup_lt_Some in Hi. lia. }
  change (Z.of_nat 0) with 0 in El. rewrite El. cbn [mbind option_bind]. rewrite (first_match_drop q es l) by (intros i e Hi Hil; by apply match_below, (Hlo i)).
  destruct (Z.ltb_spec (Z.of_nat l) (Z.of_nat (length es))) as [Hlt|]; [|by rewrite drop_ge by lia].
  destruct (lookup_lt_is_Some_2 es l) as [[c nm] He]; [lia|]. rewrite (drop_lookup _ _ _ He). cbn [first_match].
  pose proof (Hhi l _ He ltac:(lia)) as Hge. simpl in Hge.
  pose proof (match_ok _ _ _ _ q Hz He) as Hm. destruct (indexed_lookup _ _ _ _ Hz He) as (Hi & Hpos & Hn & Hb).
  simpl in Hi, Hpos, Hn, Hb. rewrite Hi. cbn [mbind option_bind]. rewrite Hn. cbn [mbind option_bind].
  destruct (Z.ltb_spec (Z.of_nat (length q)) (Z.of_nat (length nm))) as [Hlong|Hshort].
  - destruct (lookup_lt_is_Some_2 nm (length q)) as [b Hq]; [lia|]. rewrite (bytes_at_lookup _ _ _ _ _ _ Hb Hq). cbn [mbind option_bind].
    destruct (Z.eqb_spec (slash - b) 0) as [E|E]; cbn [negb].
    + rewrite Hm. destruct (Z.eqb_spec (match_spec q (c, nm)) (-1)) as [E2|E2]; [|done]. rewrite E2. f_equal. symmetry.
      apply (match_past q es l (c, nm)); [done..|]. simpl. intros t ->. revert E2.
      rewrite (match_spec_long q c _ b Hq), take_app_length, bool_decide_true, (proj2 (Z.eqb_eq b slash)) by (done || lia).
      unfold ZIPOS_SYNTHETIC_DIRECTORY. simpl. case_match; lia.
    + rewrite (match_spec_long q c nm b Hq), (proj2 (Z.eqb_neq b slash)), andb_false_r by lia. cbn [Z.eqb].
      change (-1 =? -1) with true. cbn iota. destruct (Z.lt_total b slash) as [Hlt'|[->|Hgt]]; [|lia|].
      * replace (if 1 <? slash - b then 1 else slash - b) with 1 by (case_match; lia). change (1 <? -1) with false. cbn iota.
        replace (Z.of_nat l + 1) with (Z.of_nat (S l)) by lia. apply walk_right; [done..|lia|].
        intros i e Hie Hil. apply (Hhi i); [done|lia].
      * rewrite (proj2 (Z.ltb_ge 1 _)) by lia. replace (if slash - b <? -1 then -1 else slash - b) with (-1) by (case_match; lia).
        rewrite (no_match_after q es l c nm b) by done. by apply (walk_left z es).
  - cbn [mbind option_bind]. change (negb (0 =? 0)) with false. cbn iota. rewrite Hm, match_spec_short by lia. case_decide as Dq; [by rewrite (proj2 (Z.eqb_neq c (-1))) by lia|]. f_equal. symmetry.
    apply (match_past q es l (c, nm)); [done..|]. simpl. intros t ->. rewrite length_app in Hshort. apply Dq.
    destruct t; [by rewrite app_nil_r|simpl in Hshort; lia].
Qed.

(** * What a path names *)

(** The records are those of the files [es], in any order: a record of that name, one of a
    directory of that name, a directory that is only implied by what is in it, or nothing. *)
Inductive found (es : list (Z * list Z)) (q : list Z) : Z -> Prop :=
| found_root : q = [] -> found es q ZIPOS_SYNTHETIC_DIRECTORY
| found_exact c : q ≠ [] -> (c, q) ∈ es -> found es q c
| found_directory c :
    q ≠ [] -> (forall c', (c', q) ∉ es) -> (c, q ++ [slash]) ∈ es -> found es q c
| found_synthetic c t :
    q ≠ [] -> (forall c', (c', q) ∉ es) -> (forall c', (c', q ++ [slash]) ∉ es) -> (c, q ++ slash :: t) ∈ es ->
    found es q ZIPOS_SYNTHETIC_DIRECTORY
| found_nothing :
    q ≠ [] -> (forall c', (c', q) ∉ es) -> (forall c' t, (c', q ++ slash :: t) ∉ es) -> found es q (-1).

Lemma match_self q c : match_spec q (c, q) = c.
Proof. unfold match_spec. simpl. by rewrite decide_True by (by left). Qed.

Lemma match_directory q c : match_spec q (c, q ++ [slash]) = c.
Proof. unfold match_spec. simpl. by rewrite decide_True by (by right). Qed.

Lemma match_inside q c t : c ≠ -1 -> match_spec q (c, q ++ slash :: t) ≠ -1.
Proof.
  intros Hc. unfold match_spec. simpl. case_decide; [done|]. rewrite decide_True; [done|].
  exists t. by rewrite <- app_assoc.
Qed.

(** The first record that matches, with what is before it. *)
Lemma first_match_split q es :
  (first_match q es = -1 /\ forall e, e ∈ es -> match_spec q e = -1) \/
  exists l1 e l2, es = l1 ++ e :: l2 /\ first_match q es = match_spec q e /\ match_spec q e ≠ -1 /\
    forall f, f ∈ l1 -> match_spec q f = -1.
Proof.
  induction es as [|e es IH]; [left; split; [done|]; intros e He; by apply elem_of_nil in He|]. simpl.
  destruct (Z.eqb_spec (match_spec q e) (-1)) as [E|E].
  - destruct IH as [[H1 H2]|(l1 & f & l2 & -> & H2 & H3 & H4)].
    + left. split; [done|]. intros f [->|Hf]%elem_of_cons; auto.
    + right. exists (e :: l1), f, l2. split_and!; [done..|]. intros g [->|Hg]%elem_of_cons; auto.
  - right. exists [], e, es. split_and!; [done..|]. intros f Hf. by apply elem_of_nil in Hf.
Qed.

(** In sorted order a record comes before those whose names go on from its own. *)
Lemma sorted_before l1 e l2 f q :
  sorted (l1 ++ e :: l2) -> f ∈ l1 ++ e :: l2 -> match_spec q f ≠ -1 ->
  (forall g, g ∈ l1 -> match_spec q g = -1) -> name_cmp e.2 f.2 <= 0.
Proof.
  intros Hs Hf Hm Hl1. apply elem_of_app in Hf as [Hf|[->|Hf]%elem_of_cons].
  - by rewrite (Hl1 f Hf) in Hm.
  - by rewrite name_cmp_refl.
  - apply list_elem_of_lookup in Hf as [j Hj].
    apply (sorted_lookup (l1 ++ e :: l2) (length l1) (S (length l1 + j)) e f Hs); [by apply list_lookup_middle| |lia].
    rewrite lookup_app_r by lia. by replace (S (length l1 + j) - length l1)%nat with (S j) by lia.
Qed.

Lemma first_match_found es q :
  sorted es -> Forall (fun e => 0 < e.1) es -> q ≠ [] -> found es q (first_match q es).
Proof.
  intros Hs Hpos Hq. rewrite Forall_forall in Hpos.
  assert (Hp : forall c nm, (c, nm) ∈ es -> c ≠ -1) by (intros c nm H; specialize (Hpos _ H); simpl in Hpos; lia).
  destruct (first_match_split q es) as [[-> Hn]|(l1 & [c nm] & l2 & El & -> & Hm & Hl1)].
  - apply found_nothing; [done| |].
    + intros c' H. apply (Hp _ _ H). by rewrite <- (match_self q c'), (Hn _ H).
    + intros c' t H. by apply (match_inside q c' t (Hp _ _ H)), Hn.
  - assert (He : (c, nm) ∈ es) by (rewrite El; apply elem_of_app; right; apply elem_of_cons; by left). rewrite El in Hs.
    destruct (match_prefix _ _ Hm) as (t & Et & Ht). simpl in Et. subst nm.
    destruct Ht as [->|[t' ->]]; [rewrite app_nil_r in *; rewrite match_self; by apply found_exact|].
    assert (H1 : forall c', (c', q) ∉ es).
    { intros c' H. assert (Hne : match_spec q (c', q) ≠ -1) by (rewrite match_self; by eapply Hp).
      rewrite El in H. pose proof (sorted_before _ _ _ _ _ Hs H Hne Hl1) as B. simpl in B.
      rewrite <- (app_nil_r q) in B at 2. rewrite name_cmp_app in B. simpl in B. lia. }
    destruct t' as [|x t]; [rewrite match_directory; by apply found_directory|].
    assert (H2 : forall c', (c', q ++ [slash]) ∉ es).
    { intros c' H. assert (Hne : match_spec q (c', q ++ [slash]) ≠ -1) by (rewrite match_directory; by eapply Hp).
      rewrite El in H. pose proof (sorted_before _ _ _ _ _ Hs H Hne Hl1) as B. simpl in B.
      rewrite name_cmp_app, name_cmp_cons, Z.eqb_refl in B. simpl in B. lia. }
    replace (match_spec q (c, q ++ slash :: x :: t)) with ZIPOS_SYNTHETIC_DIRECTORY; [by eapply found_synthetic|].
    rewrite (match_spec_long q c _ slash) by (by apply list_lookup_middle).
    rewrite take_app_length, bool_decide_true, Z.eqb_refl by done. simpl.
    rewrite (proj2 (Z.eqb_neq _ _)); [done|]. rewrite length_app. simpl. lia.
Qed.

(** * The index *)

(** The central directory of the file [m] lists the records [es]: their offsets and names. *)
Record central (m : list Z) (cdir : Z) (es : list (Z * list Z)) : Prop := {
  central_offsets : exists n c, GetZipCdirRecords m cdir = Some n /\ GetZipCdirOffset m cdir = Some c /\
    cdir_offsets m (Z.to_nat n) c = Some es.*1;
  central_names : Forall (fun e => 0 < e.1 /\ named_at m e.1 e.2) es }.

Lemma compare_ok m c d x y :
  named_at m c x -> named_at m d y -> __zipos_compare_names m c d = Some (name_cmp x y).
Proof.
  intros [Hc Hx] [Hd Hy]. unfold __zipos_compare_names. rewrite Hc, Hd. simpl.
  rewrite (bytes_at_take _ _ _ _ _ Hx), (bytes_at_take _ _ _ _ _ Hy) by lia. simpl. by rewrite compare_names_cmp.
Qed.

Lemma sorted_names m es :
  Forall (fun e => 0 < e.1 /\ named_at m e.1 e.2) es ->
  StronglySorted (fun x y => default 0 (__zipos_compare_names m x y) <= 0) es.*1 -> sorted es.
Proof.
  intros Hn. induction Hn as [|e es [_ He] Hn IH]; intros Hs; [constructor|]. apply StronglySorted_inv in Hs as [Hs' Hx].
  constructor; [by apply IH|]. rewrite Forall_forall in Hn. rewrite Forall_forall in Hx. apply Forall_forall. intros f Hf.
  specialize (Hx f.1 (list_elem_of_fmap_2 _ _ _ Hf)). destruct (Hn f Hf) as [_ Hnf]. by rewrite (compare_ok _ _ _ _ _ He Hnf) in Hx.
Qed.

Lemma generate_ok `{SorterLaws Z} m cdir dev es :
  central m cdir es ->
  exists z es', __zipos_generate_index m cdir dev = Some z /\ indexed z es' /\ sorted es' /\ Permutation es es' /\ z_map z = m.
Proof.
  intros [(n & c & Hn & Hc & Ho) Hes]. unfold __zipos_generate_index. rewrite Hn, Hc. simpl. rewrite Ho. simpl.
  set (cmp := fun x y => _).
  assert (Hl : forall x, x ∈ es.*1 -> exists p, named_at m x p).
  { rewrite Forall_forall in Hes. intros x [e [-> He]]%list_elem_of_fmap. destruct (Hes e He) as [_ ?]. eauto. }
  assert (Hcmp : forall x y p q, named_at m x p -> named_at m y q -> cmp x y = name_cmp p q).
  { intros x y p q Hx Hy. unfold cmp. by rewrite (compare_ok m x y p q). }
  destruct (qsort_r_sorts cmp es.*1) as (l & -> & Hs & Hp).
  { split.
    - intros x y Hx Hy. destruct (Hl x Hx) as [p ?], (Hl y Hy) as [q ?]. rewrite (Hcmp x y p q), (Hcmp y x q p) by done.
      rewrite (name_cmp_flip p q). apply Z.sgn_opp.
    - intros x y w Hx Hy Hw. destruct (Hl x Hx) as [p ?], (Hl y Hy) as [q ?], (Hl w Hw) as [r ?].
      rewrite (Hcmp x y p q), (Hcmp y w q r), (Hcmp x w p r) by done. apply name_cmp_trans. }
  simpl. destruct (Permutation_map_inv fst es Hp) as (es' & -> & P).
  assert (Hes' : Forall (fun e => 0 < e.1 /\ named_at m e.1 e.2) es') by (by rewrite <- P).
  eexists _, es'. split; [done|]. split; [by split|]. split; [|done]. exact (sorted_names m es' Hes' Hs).
Qed.

Lemma found_perm es es' q cf : Permutation es es' -> found es' q cf -> found es q cf.
Proof.
  intros P. assert (M : forall e, e ∈ es <-> e ∈ es') by (intros e; by rewrite P).
  intros []; [by constructor|..].
  - by apply found_exact; [|apply M].
  - apply found_directory; [done| |by apply M]. intros c' H'. apply M in H'. naive_solver.
  - eapply found_synthetic; [done| | |by apply M]; intros c' H'; apply M in H'; naive_solver.
  - apply found_nothing; [done| |]; [intros c' H'|intros c' t H']; apply M in H'; naive_solver.
Qed.

(** A lookup in the index that was generated. *)
Lemma scan_found `{SorterLaws Z} m cdir dev es :
  central m cdir es ->
  exists z, __zipos_generate_index m cdir dev = Some z /\ z_map z = m /\
    forall path, exists cf, __zipos_scan z path = Some cf /\ found es (strip path) cf.
Proof.
  intros Hc. destruct (generate_ok m cdir dev es Hc) as (z & es' & E & Hz & Hs & P & Hm).
  exists z. split; [done|]. split; [done|]. intros path. rewrite (scan_ok z es' path Hz Hs). eexists. split; [done|].
  apply (found_perm _ _ _ _ P). case_decide as D; [by apply found_root|].
  apply first_match_found; [done| |done]. eapply Forall_impl; [apply Hz|]. by intros e [? _].
Qed.

(** * Paths with errors *)

Lemma drop_while_spec f (l : list Z) :
  exists l1, l = l1 ++ drop_while f l /\ Forall (fun x => f x = true) l1 /\
    match drop_while f l with [] => True | x :: _ => f x = false end.
Proof.
  induction l as [|a l (l1 & E & H1 & H2)]; [by exists []|]. simpl. destruct (f a) eqn:Ea.
  - exists (a :: l1). split; [simpl; by f_equal|]. split; [by constructor|done].
  - by exists [].
Qed.

(** The last slash of a path, or none. *)
Lemma last_slash path :
  match before_last_slash path with
  | Some u => exists v, path = u ++ slash :: v /\ plain v
  | None => plain path
  end.
Proof.
  unfold before_last_slash. destruct (drop_while_spec (fun c => negb (c =? slash)) (rev path)) as (l1 & E & H1 & H2).
  apply (f_equal (@rev Z)) in E. rewrite rev_involutive, rev_app_distr in E.
  assert (Hp : plain (rev l1)).
  { apply Forall_rev. eapply Forall_impl; [exact H1|]. simpl. intros x Hx. by apply negb_true_iff, Z.eqb_neq in Hx. }
  destruct (drop_while _ (rev path)) as [|x r]; [by rewrite E|]. apply negb_false_iff, Z.eqb_eq in H2 as ->.
  exists (rev l1). split; [|done]. simpl in E. rewrite E, <- app_assoc. done.
Qed.

(** The parents of a path are the one before its last slash and the parents of that. *)
Lemma parents_of u0 v0 u v :
  plain v0 -> u0 ++ slash :: v0 = u ++ slash :: v -> u = u0 \/ exists v', u0 = u ++ slash :: v'.
Proof.
  revert u0. induction u as [|a u IH]; intros [|b u0] Hp E; simpl in E; simplify_eq.
  - by left.
  - right. by eexists.
  - exfalso. unfold plain in Hp. rewrite Forall_forall in Hp. by apply (Hp slash); [apply elem_of_app; right; apply elem_of_cons; left|].
  - destruct (IH u0 Hp) as [->|[v' ->]]; [done|by left|right; by eexists].
Qed.

Section Find.
Context (es : list (Z * list Z)) (dir : Z -> bool).

(** [u] is found, and is a file. *)
Definition is_file (cf : Z) : Prop := cf ≠ -1 /\ cf ≠ ZIPOS_SYNTHETIC_DIRECTORY /\ dir cf = false.

(** What [__zipos_find] may return for a path. *)
Inductive finds (path : list Z) : Z + errno -> Prop :=
| finds_record cf :
    found es (strip path) cf -> cf ≠ -1 -> ~ (is_file cf /\ List.last path 0 = slash) -> finds path (inl cf)
| finds_file_slash cf :
    found es (strip path) cf -> is_file cf -> List.last path 0 = slash -> finds path (inr ENOTDIR)
| finds_below_file u v cf :
    found es (strip path) (-1) -> path = u ++ slash :: v -> found es (strip u) cf -> is_file cf -> finds path (inr ENOTDIR)
| finds_nothing :
    found es (strip path) (-1) ->
    (forall u v, path = u ++ slash :: v -> exists cf, found es (strip u) cf /\ ~ is_file cf) -> finds path (inr ENOENT).

Context (z : Zipos).
Context (scans : forall path, exists cf, __zipos_scan z path = Some cf /\ found es (strip path) cf).
Context (modes : forall q cf, found es q cf -> cf ≠ -1 -> cf ≠ ZIPOS_SYNTHETIC_DIRECTORY ->
  exists mode, GetZipCfileMode (z_map z) cf = Some mode /\ S_ISDIR mode = dir cf).

Lemma parent_ok fuel path :
  (length path < fuel)%nat ->
  (find_parent fuel z path = Some ENOTDIR /\ exists u v cf, path = u ++ slash :: v /\ found es (strip u) cf /\ is_file cf) \/
  (find_parent fuel z path = Some ENOENT /\ forall u v, path = u ++ slash :: v -> exists cf, found es (strip u) cf /\ ~ is_file cf).
Proof.
  revert path. induction fuel as [|fuel IH]; intros path Hf; [lia|]. cbn [find_parent]. pose proof (last_slash path) as Hl.
  destruct (before_last_slash path) as [u|].
  2:{ right. split; [done|]. intros u v ->. exfalso. unfold plain in Hl. rewrite Forall_forall in Hl.
      by apply (Hl slash); [apply elem_of_app; right; apply elem_of_cons; left|]. }
  destruct Hl as (v & -> & Hv). destruct (scans u) as (cf & -> & Hcf). simpl.
  assert (Hd : exists b, (if negb (cf =? -1) && negb (cf =? ZIPOS_SYNTHETIC_DIRECTORY)
            then mode ← GetZipCfileMode (z_map z) cf; Some (negb (S_ISDIR mode)) else Some false) = Some b /\ (b = true <-> is_file cf)).
  { unfold is_file. destruct (Z.eqb_spec cf (-1)), (Z.eqb_spec cf ZIPOS_SYNTHETIC_DIRECTORY); simpl; try (eexists; split; [done|naive_solver]).
    destruct (modes _ _ Hcf) as (mode & -> & <-); [done..|]. simpl. eexists. split; [done|]. destruct (S_ISDIR mode); naive_solver. }
  destruct Hd as (b & -> & Hb). simpl. destruct b.
  - left. split; [done|]. exists u, v, cf. split; [done|]. split; [done|]. by apply Hb.
  - rewrite length_app in Hf. simpl in Hf. destruct (IH u ltac:(lia)) as [[-> (u' & v' & cf' & -> & H)]|[-> H]].
    + left. split; [done|]. exists u', (v' ++ slash :: v), cf'. split; [by rewrite <- app_assoc|done].
    + right. split; [done|]. intros u' v' E. destruct (parents_of u v u' v' Hv E) as [->|[w Ew]]; [|by apply (H u' w)].
      exists cf. split; [done|]. rewrite <- Hb. done.
Qed.

Lemma find_ok path : exists r, __zipos_find z path = Some r /\ finds path r.
Proof.
  unfold __zipos_find. destruct (scans path) as (cf & -> & Hcf). cbn [mbind option_bind]. destruct (Z.eqb_spec cf (-1)) as [->|Hne].
  { destruct (parent_ok (S (length path)) path) as [[-> (u & v & cf & ? & ? & ?)]|[-> H]]; [lia|..]; eexists; (split; [done|]).
    - by eapply finds_below_file.
    - by apply finds_nothing. }
  destruct (Z.eqb_spec cf ZIPOS_SYNTHETIC_DIRECTORY) as [E|E]; cbn [negb andb mbind option_bind].
  { eexists. split; [done|]. apply finds_record; [done..|]. intros [(_ & ? & _) _]. done. }
  destruct (Z.eqb_spec (Z.of_nat (length path)) 0) as [E0|E0]; cbn [negb andb mbind option_bind].
  { eexists. split; [done|]. apply finds_record; [done..|]. intros [_ El]. destruct path; [done|simpl in E0; lia]. }
  destruct (Z.eqb_spec (List.last path 0) slash) as [El|El]; cbn [mbind option_bind].
  2:{ eexists. split; [done|]. apply finds_record; [done..|]. by intros [_ ?]. }
  destruct (modes _ _ Hcf Hne E) as (mode & -> & Hd). cbn [mbind option_bind]. eexists. split; [done|].
  destruct (S_ISDIR mode); cbn [negb].
  - apply finds_record; [done..|]. intros [(_ & _ & ?) _]. congruence.
  - by apply (finds_file_slash _ cf).
Qed.
End Find.

(** * The file system of an archive *)

(** Whether a record is that of a directory. *)
Definition is_dir (m : list Z) (cf : Z) : bool :=
  match GetZipCfileMode m cf with Some mode => S_ISDIR mode | None => false end.

Lemma found_record es q cf : found es q cf -> cf ≠ -1 -> cf ≠ ZIPOS_SYNTHETIC_DIRECTORY -> exists nm, (cf, nm) ∈ es.
Proof. intros []; try done; eauto. Qed.

(** C10: a path names in the zip file system what the central directory says. For every archive whose
    records can be read, the index is built and sorted, no lookup reads outside of the file, and the
    search in it returns the record of that name, else that of a directory of that name, else says
    that the directory is implied by a record below it, else that there is nothing: whatever
    names sort in between. [__zipos_find] returns what was found; it fails with ENOTDIR exactly
    when a path with a slash at its end names a file or when nothing is found and a parent of the
    path is a file, and with ENOENT when no parent is. *)
Theorem zipos_find_correct (smooth : Sorter Z) m cdir dev es :
  SorterLaws Z smooth -> central m cdir es -> Forall (fun e => is_Some (GetZipCfileMode m e.1)) es ->
  exists z, __zipos_generate_index m cdir dev = Some z /\
    (forall path, exists cf, __zipos_scan z path = Some cf /\ found es (strip path) cf) /\
    (forall path, exists r, __zipos_find z path = Some r /\ finds es (is_dir m) path r).
Proof.
  intros HS Hc Hm. destruct (scan_found m cdir dev es Hc) as (z & E & Em & Hz). exists z. split; [done|]. split; [done|].
  apply find_ok; [done|]. intros q cf Hf H1 H2. destruct (found_record _ _ _ Hf H1 H2) as [nm Hin].
  rewrite Forall_forall in Hm. destruct (Hm _ Hin) as [mode Hmode]. rewrite Em. exists mode. split; [done|].
  simpl in Hmode. unfold is_dir. by rewrite Hmode.
Qed.

(** An archive with a file in a directory it has no record of, a file whose name sorts before what
    is in it, and a directory. *)
Definition sample_record (name : list Z) (mode : Z) : list Z :=
  [0x50; 0x4B; 1; 2; 20; 3] ++ replicate 22 0 ++ [Z.of_nat (length name); 0] ++ replicate 8 0 ++
  [0; 0; mode mod 256; mode / 256] ++ replicate 4 0 ++ name.

#[local] Abbreviation str s := (ascii_codes s%string).

Definition sample : list Z :=
  [0] ++ sample_record (str "a/x") 0x81A4 ++ sample_record (str "a-b") 0x81A4 ++ sample_record (str "b/") 0x41ED ++
  [0x50; 0x4B; 5; 6; 0; 0; 0; 0; 3; 0; 3; 0; 146; 0; 0; 0; 1; 0; 0; 0; 0; 0].

Definition sample_files : list (Z * list Z) := [(1, str "a/x"); (50, str "a-b"); (99, str "b/")].

Example sample_finds :
  (z ← @__zipos_generate_index inserting sample 147 0;
   mapM (__zipos_find z) [str "a"; str "a/"; str "a/x"; str "a/x/"; str "a/x/y"; str "b"; str "b/"; str "c/d"; str "a-"; []]) =
  Some [inl 0; inl 0; inl 1; inr ENOTDIR; inr ENOTDIR; inl 99; inl 99; inr ENOENT; inr ENOENT; inl 0].
Proof. vm_compute. reflexivity. Qed.

Lemma zipos_find_correct_witness :
  exists z, @__zipos_generate_index inserting sample 147 0 = Some z /\
    (forall path, exists cf, __zipos_scan z path = Some cf /\ found sample_files (strip path) cf) /\
    (forall path, exists r, __zipos_find z path = Some r /\ finds sample_files (is_dir sample) path r).
Proof.
  apply (zipos_find_correct inserting sample 147 0 sample_files); [exact (inserting_laws Z)| |].
  - split; [exists 3, 1; vm_compute; auto|]. repeat constructor.
  - repeat constructor; vm_compute; eexists; reflexivity.
Defined.
