(* ===== verification/ZiposIo.v ===== *)
(** Reading from open files of the zip file system: [libc/runtime/zipos-read.c] and
    [zipos-seek.c], with the references to a handle in [zipos-open.c].

    The position of a handle is shared by the threads that have it. A read that moves it puts
    [SIZE_MAX] in its place while it copies, and the others spin. Every access of the position is
    a step. *)
From S2P Require Import Prelude Zip Zipos Threads.
From stdpp Require Import list.
#[local] Open Scope Z_scope.

Definition SIZE_MAX : Z := 2 ^ 64 - 1.

(** * Copying *)

(** [b] bytes of the contents from [y] on. *)
Definition contents_at (m : list Z) (c : contents) (y : Z) (b : nat) : option (list Z) :=
  match c with Mapped off => bytes_at m (off + y) b | Owned data => bytes_at data y b end.

(** The loop over the buffers, of which [lens] are the sizes: what is put into each, and the position
    after it. *)
Fixpoint read_loop (m : list Z) (h : ZiposHandle) (lens : list nat) (y : Z) : option (list (list Z) * Z) :=
  match lens with
  | [] => Some ([], y)
  | n :: lens =>
    if y <? h_size h then
      let b := Z.min (Z.of_nat n) (h_size h - y) in
      d ← contents_at m (h_mem h) y (Z.to_nat b);
      '(ds, y) ← read_loop m h lens (y + b);
      Some (d :: ds, y)
    else Some ([], y)
  end.

(** [__zipos_read] at an offset: what is read and how much, or an error for a directory. *)
Definition __zipos_pread (m : list Z) (h : ZiposHandle) (lens : list nat) (offset : Z) : option (list (list Z) * Z + errno) :=
  isdir ← (if h_cfile h =? ZIPOS_SYNTHETIC_DIRECTORY then Some true
           else mode ← GetZipCfileMode m (h_cfile h); Some (S_ISDIR mode));
  if (isdir : bool) then Some (inr EISDIR)
  else '(ds, y) ← read_loop m h lens offset; Some (inl (ds, y - offset)).

(** * Seeking *)

Definition SEEK_SET : Z := 0.
Definition SEEK_CUR : Z := 1.
Definition SEEK_END : Z := 2.

(** [Seek]: the sum as a signed 64-bit integer. *)
Definition Seek (pos offset : Z) : Z + errno :=
  let rc := pos + offset in
  if (- 2 ^ 63 <=? rc) && (rc <? 2 ^ 63) then if 0 <=? rc then inl rc else inr EINVAL else inr EOVERFLOW.

Definition new_position (size pos offset whence : Z) : Z + errno :=
  if whence =? SEEK_SET then Seek 0 offset
  else if whence =? SEEK_CUR then Seek pos offset
  else if whence =? SEEK_END then Seek size offset
  else inr EINVAL.

(** * Threads *)

Inductive pc :=
| Outside
| ReadLoad (lens : list nat)               (** before the load of [h->pos] *)
| ReadCas (lens : list nat) (pos : Z)      (** before the exchange with [SIZE_MAX] *)
| Reading (lens : list nat) (x : Z)        (** copying, before the store *)
| SeekLoad (offset whence : Z)             (** before the load *)
| SeekCas (offset whence pos new : Z).     (** before the exchange *)

(** A read returns its data, a seek its result. *)
Inductive event := Read (lens : list nat) (ds : list (list Z)) (n : Z) | Sought (offset whence : Z) (r : Z + errno).

Record shared := MkShared { pos : Z; pcs : list pc }.

Section Handle.
(** The mapped file and the handle, of a file. *)
Context (m : list Z) (h : ZiposHandle).

(** The head of the loop of a read, at the value [w] of the position. *)
Definition read_test (lens : list nat) (w : Z) : pc := if w =? SIZE_MAX then ReadLoad lens else ReadCas lens w.

(** The head of the loop of a seek. *)
Definition seek_test (offset whence w : Z) : option event * pc :=
  if w =? SIZE_MAX then (None, SeekLoad offset whence)
  else
    match new_position (h_size h) w offset whence with
    | inl new => (None, SeekCas offset whence w new)
    | inr e => (Some (Sought offset whence (inr e)), Outside)
    end.

Definition access (weak : bool) (s : shared) (k : nat) (p : pc) : option (option event * shared) :=
  let goto r := Some (r.1, MkShared (pos s) (<[k := r.2]> (pcs s))) in
  match p with
  | ReadLoad lens => goto (None, read_test lens (pos s))
  | ReadCas lens w =>
    if (pos s =? w) && negb weak then Some (None, MkShared SIZE_MAX (<[k := Reading lens w]> (pcs s)))
    else goto (None, read_test lens (pos s))
  | Reading lens x =>
    '(ds, y) ← read_loop m h lens x;
    Some (Some (Read lens ds (y - x)), MkShared y (<[k := Outside]> (pcs s)))
  | SeekLoad offset whence => goto (seek_test offset whence (pos s))
  | SeekCas offset whence w new =>
    if (pos s =? w) && negb weak
    then Some (Some (Sought offset whence (inl new)), MkShared new (<[k := Outside]> (pcs s)))
    else goto (seek_test offset whence (pos s))
  | Outside => None
  end.

Inductive step (s : shared) : option event -> shared -> Prop :=
| call_read k lens : pcs s !! k = Some Outside -> step s None (MkShared (pos s) (<[k := ReadLoad lens]> (pcs s)))
| call_seek k offset whence :
    pcs s !! k = Some Outside -> step s None (MkShared (pos s) (<[k := SeekLoad offset whence]> (pcs s)))
| go_on k p weak r : pcs s !! k = Some p -> access weak s k p = Some r -> step s r.1 r.2.

Definition run : shared -> list event -> shared -> Prop := runs (fun _ => step).
End Handle.

Definition initial (n : nat) : shared := MkShared 0 (replicate n Outside).

(** * References *)

(** The references to a handle and whether its memory is still mapped; it starts with one holder. *)
Record refcount := MkRefs { refs : Z; mapped : bool }.

Definition __zipos_keep (r : refcount) : refcount := MkRefs (u64 (refs r + 1)) (mapped r).
Definition __zipos_drop (r : refcount) : refcount :=
  MkRefs (u64 (refs r - 1)) (if negb (refs r =? 0) then mapped r else false).
