(* ===== verification/ZiposIoFacts.v ===== *)
(** Reads and seeks through a shared handle of the zip file system are atomic: whatever the
    interleaving, they return what they would one after the other. *)
From S2P Require Import Prelude Zip QsortFacts Zipos ZiposFacts Threads ZiposIo.
From stdpp Require Import list.
#[local] Open Scope Z_scope.

(** * Copying *)

(** The handle is that of a file with these contents. *)
Record holds (m : list Z) (h : ZiposHandle) (content : list Z) : Prop := {
  holds_size : h_size h = Z.of_nat (length content);
  holds_bytes : contents_at m (h_mem h) 0 (length content) = Some content;
  holds_small : h_size h < 2 ^ 63 }.

Lemma bytes_at_drop m i n l k b :
  bytes_at m i n = Some l -> (k + b <= n)%nat -> bytes_at m (i + Z.of_nat k) b = Some (take b (drop k l)).
Proof.
  revert i l n. induction k as [|k IH]; intros i l n H Hk.
  - rewrite Z.add_0_r. eapply bytes_at_take; [done|lia].
  - destruct n as [|n]; [lia|]. simpl in H. destruct (byte_at m i) as [x|]; [|done]. simpl in H.
    destruct (bytes_at m (i + 1) n) as [l'|] eqn:E; [|done]. simpl in H. injection H as <-.
    replace (i + Z.of_nat (S k)) with (i + 1 + Z.of_nat k) by lia. simpl. apply (IH _ _ n); [done|lia].
Qed.

(** The bytes of the contents between two positions. *)
Definition between (content : list Z) (x y : Z) : list Z := take (Z.to_nat (y - x)) (drop (Z.to_nat x) content).

Lemma contents_between m h content x b :
  holds m h content -> 0 <= x -> 0 <= b -> x + b <= h_size h ->
  contents_at m (h_mem h) x (Z.to_nat b) = Some (between content x (x + b)).
Proof.
  intros [Hs Hb _] Hx Hb0 Hle. unfold between. replace (x + b - x) with b by lia. unfold contents_at in *. destruct (h_mem h) as [off|data].
  - rewrite Z.add_0_r in Hb. replace (off + x) with (off + Z.of_nat (Z.to_nat x)) by lia. eapply bytes_at_drop; [done|lia].
  - replace x with (0 + Z.of_nat (Z.to_nat x)) at 1 by lia. eapply bytes_at_drop; [done|lia].
Qed.

Lemma between_app content x y z : 0 <= x <= y -> y <= z -> between content x y ++ between content y z = between content x z.
Proof.
  intros Hx Hy. unfold between. replace (Z.to_nat (z - x)) with (Z.to_nat (y - x) + Z.to_nat (z - y))%nat by lia.
  rewrite <- take_take_drop, drop_drop. do 3 f_equal. lia.
Qed.

Definition total (lens : list nat) : Z := foldr (fun n t => Z.of_nat n + t) 0 lens.

Lemma total_nonneg lens : 0 <= total lens.
Proof. induction lens as [|n lens IH]; simpl; lia. Qed.

(** Where a read of buffers [lens] from [x] on ends. *)
Definition read_end (size x : Z) (lens : list nat) : Z := Z.max x (Z.min size (x + total lens)).

(** The buffers get the bytes in order, and none gets more than it has room for. *)
Definition fits (lens : list nat) (ds : list (list Z)) : Prop :=
  (length ds <= length lens)%nat /\
  forall i d n, ds !! i = Some d -> lens !! i = Some n -> (length d <= n)%nat.

Lemma read_ok m h content lens x :
  holds m h content -> 0 <= x ->
  exists ds, read_loop m h lens x = Some (ds, read_end (h_size h) x lens) /\
    mjoin ds = between content x (read_end (h_size h) x lens) /\ fits lens ds.
Proof.
  intros H. revert x. induction lens as [|n lens IH]; intros x Hx; cbn [read_loop].
  - exists []. unfold read_end. simpl. replace (Z.max x _) with x by lia. unfold between. rewrite Z.sub_diag. split; [done|]. split; [done|].
    split; [done|]. intros i d n E. done.
  - pose proof (total_nonneg lens) as Ht. destruct (Z.ltb_spec x (h_size h)) as [Hlt|Hge].
    2:{ exists []. unfold read_end. simpl. replace (Z.max x _) with x by lia. unfold between. rewrite Z.sub_diag. split; [done|]. split; [done|].
        split; [simpl; lia|]. intros i d k E. done. }
    set (b := Z.min (Z.of_nat n) (h_size h - x)). assert (Hb : 0 <= b <= Z.of_nat n /\ b <= h_size h - x) by lia.
    rewrite (contents_between m h content) by (done || lia). cbn [mbind option_bind].
    destruct (IH (x + b) ltac:(lia)) as (ds & -> & Hd & Hf1 & Hf2). cbn [mbind option_bind].
    assert (E : read_end (h_size h) (x + b) lens = read_end (h_size h) x (n :: lens)) by (unfold read_end; simpl; lia).
    rewrite E in *. eexists. split; [done|]. split; [|split; [simpl; lia|]].
    + simpl. rewrite Hd. apply between_app; [lia|]. rewrite <- E. unfold read_end. lia.
    + intros [|i] d k Hi Hk; simpl in Hi, Hk; simplify_eq; [|by eapply Hf2].
      unfold between. rewrite length_take. lia.
Qed.

(** A read at an offset returns the bytes from there on, as many as there are and the buffers
    have room for. *)
Lemma pread_correct m h content lens x mode :
  holds m h content -> 0 <= x -> h_cfile h ≠ ZIPOS_SYNTHETIC_DIRECTORY ->
  GetZipCfileMode m (h_cfile h) = Some mode -> S_ISDIR mode = false ->
  exists ds, __zipos_pread m h lens x = Some (inl (ds, read_end (h_size h) x lens - x)) /\
    mjoin ds = between content x (read_end (h_size h) x lens) /\ fits lens ds.
Proof.
  intros H Hx Hc Hm Hd. unfold __zipos_pread. rewrite (proj2 (Z.eqb_neq _ _) Hc), Hm. simpl. rewrite Hd.
  destruct (read_ok m h content lens x H Hx) as (ds & -> & ?). simpl. eauto.
Qed.

(** * Atomic operations *)

Section Atomic.
Context (m : list Z) (h : ZiposHandle) (content : list Z) (H : holds m h content).

(** What an operation does to the position when nothing else happens. *)
Inductive atomic (q : Z) : event -> Z -> Prop :=
| atomic_read lens ds :
    mjoin ds = between content q (read_end (h_size h) q lens) -> fits lens ds ->
    atomic q (Read lens ds (read_end (h_size h) q lens - q)) (read_end (h_size h) q lens)
| atomic_seek offset whence new :
    new_position (h_size h) q offset whence = inl new -> atomic q (Sought offset whence (inl new)) new
| atomic_error offset whence e :
    new_position (h_size h) q offset whence = inr e -> atomic q (Sought offset whence (inr e)) q.

(** One operation after the other, from position 0. *)
Inductive serial : list event -> Z -> Prop :=
| serial_nil : serial [] 0
| serial_step ls q e q' : serial ls q -> atomic q e q' -> serial (ls ++ [e]) q'.

Definition reading (p : pc) : bool := match p with Reading _ _ => true | _ => false end.

(** What a thread knows; the position is [q] for the operations that are complete. *)
Definition pc_ok (q : Z) (p : pc) : Prop :=
  match p with
  | ReadCas _ w => w ≠ SIZE_MAX
  | Reading _ x => x = q
  | SeekCas offset whence w new => w ≠ SIZE_MAX /\ new_position (h_size h) w offset whence = inl new
  | _ => True
  end.

Record good (q : Z) (s : shared) : Prop := {
  good_range : 0 <= q < 2 ^ 63;
  good_pos : pos s = if (tally reading (pcs s) =? 0)%nat then q else SIZE_MAX;
  good_one : (tally reading (pcs s) <= 1)%nat;
  good_pcs : forall k p, pcs s !! k = Some p -> pc_ok q p }.

Lemma range_max q : 0 <= q < 2 ^ 63 -> q ≠ SIZE_MAX.
Proof. unfold SIZE_MAX. lia. Qed.

(** A position that is not [SIZE_MAX] is that of the operations. *)
Lemma pos_free q s : good q s -> pos s ≠ SIZE_MAX -> tally reading (pcs s) = 0%nat /\ pos s = q.
Proof. intros [_ Hp _ _] Hn. rewrite Hp in *. case_match eqn:E; [|done]. apply Nat.eqb_eq in E. done. Qed.

Lemma new_position_range size q offset whence new :
  0 <= size < 2 ^ 63 -> 0 <= q < 2 ^ 63 -> new_position size q offset whence = inl new -> 0 <= new < 2 ^ 63.
Proof.
  intros Hs Hq. unfold new_position, Seek. repeat case_match; intros [= <-]; bool_prop; lia.
Qed.

(** A thread moves that is not reading before or after. *)
Lemma handle_moved q s k p p' :
  good q s -> pcs s !! k = Some p -> reading p = false -> reading p' = false -> pc_ok q p' ->
  good q (MkShared (pos s) (<[k := p']> (pcs s))).
Proof.
  intros [Hr Hp H1 Hk] Hl Hp1 Hp2 Hok. pose proof (tally_insert reading _ _ _ p' Hl) as T. rewrite Hp1, Hp2 in T. cbn [one] in T.
  assert (E : tally reading (<[k := p']> (pcs s)) = tally reading (pcs s)) by lia.
  split; cbn [pos pcs]; [done|by rewrite E|by rewrite E|by apply insert_all].
Qed.

Lemma read_test_ok q lens w : pc_ok q (read_test lens w) /\ reading (read_test lens w) = false.
Proof. unfold read_test. destruct (Z.eqb_spec w SIZE_MAX); done. Qed.

(** What a step adds to the operations. *)
Definition extends (q : Z) (e : option event) (q' : Z) : Prop :=
  match e with Some e => atomic q e q' | None => q' = q end.

Lemma seek_test_ok q s k p offset whence :
  good q s -> pcs s !! k = Some p -> reading p = false ->
  exists q', good q' (MkShared (pos s) (<[k := (seek_test h offset whence (pos s)).2]> (pcs s))) /\
    extends q (seek_test h offset whence (pos s)).1 q'.
Proof.
  intros G Hk Hp. unfold seek_test. destruct (Z.eqb_spec (pos s) SIZE_MAX) as [E|E].
  { exists q. split; [by eapply handle_moved|done]. }
  destruct (pos_free q s G E) as [_ Eq]. exists q. destruct (new_position (h_size h) (pos s) offset whence) as [new|e] eqn:N; simpl.
  - split; [by eapply handle_moved|done].
  - split; [by eapply handle_moved|]. apply atomic_error. by rewrite <- Eq.
Qed.

Lemma handle_access q s k p weak e s' :
  good q s -> pcs s !! k = Some p -> access m h weak s k p = Some (e, s') ->
  exists q', good q' s' /\ extends q e q'.
Proof.
  intros G Hk A. pose proof (good_pcs _ _ G k p Hk) as Hp. destruct p as [|lens|lens w|lens x|offset whence|offset whence w new]; simpl in A; [done|..].
  - injection A as <- <-. exists q. destruct (read_test_ok q lens (pos s)). split; [by eapply handle_moved|done].
  - destruct ((pos s =? w) && negb weak) eqn:E; injection A as <- <-.
    2:{ exists q. destruct (read_test_ok q lens (pos s)). split; [by eapply handle_moved|done]. }
    simpl in Hp. destruct (pos_free q s G) as [T Eq]; [lia|]. assert (w = q) as -> by lia. exists q. split; [|done].
    destruct G as [Hr _ _ Hpc]. split; cbn [pos pcs]; tally_step Hk; [done| |lia|by apply insert_all].
    by rewrite (proj2 (Nat.eqb_neq _ _)) by lia.
  - simpl in Hp. subst x. destruct G as [Hr Hpos H1 Hpc]. destruct (read_ok m h content lens q H) as (ds & Er & Hd & Hf); [lia|].
    rewrite Er in A. injection A as <- <-. exists (read_end (h_size h) q lens). split; [|by constructor].
    pose proof (tally_at reading _ _ _ Hk eq_refl) as T1. pose proof (holds_size _ _ _ H). pose proof (holds_small _ _ _ H).
    assert (Hend : 0 <= read_end (h_size h) q lens < 2 ^ 63) by (unfold read_end; lia).
    split; cbn [pos pcs]; tally_step Hk; [done| |lia|].
    + by rewrite (proj2 (Nat.eqb_eq _ _)) by lia.
    + intros j p' Hj. destruct (decide (j = k)) as [->|Hne].
      * by apply list_lookup_insert_Some in Hj as [(_ & <- & _)|[? _]].
      * rewrite list_lookup_insert_ne in Hj by done. pose proof (Hpc j p' Hj) as Hok. destruct p'; try done.
        exfalso. apply Hne. eapply (tally_two reading); [exact Hj|exact Hk|done..].
  - injection A as <- <-. by eapply seek_test_ok.
  - destruct ((pos s =? w) && negb weak) eqn:E; injection A as <- <-; [|by eapply seek_test_ok].
    simpl in Hp. destruct Hp as [Hw Hnew]. destruct (pos_free q s G) as [T Eq]; [lia|]. assert (w = q) as -> by lia.
    exists new. split; [|by apply atomic_seek]. destruct G as [Hr _ _ Hpc]. pose proof (holds_size _ _ _ H). pose proof (holds_small _ _ _ H).
    split; cbn [pos pcs]; tally_step Hk; [eapply new_position_range; [|exact Hr|exact Hnew]; lia| |lia|].
    + by rewrite (proj2 (Nat.eqb_eq _ _)) by lia.
    + apply insert_all; [done|]. intros j p' Hj. pose proof (Hpc j p' Hj) as Hok. destruct p'; try done.
      exfalso. pose proof (tally_at reading _ _ _ Hj eq_refl). lia.
Qed.
End Atomic.

(** The data of the reads, in the order they complete. *)
Definition data (ls : list event) : list Z :=
  mjoin ((fun e => match e with Read _ ds _ => mjoin ds | Sought _ _ _ => [] end) <$> ls).

Definition is_read (e : event) : Prop := match e with Read _ _ _ => True | Sought _ _ _ => False end.

(** Reads alone hand out the contents from the start, in pieces without gaps or overlaps. *)
Lemma serial_reads h content ls q : serial h content ls q -> 0 <= q /\ (Forall is_read ls -> data ls = between content 0 q).
Proof.
  induction 1 as [|ls q e q' Hs [Hq IH] Ha]; [done|]. destruct Ha as [lens ds Hd Hf|offset whence new N|offset whence e N].
  - pose proof (total_nonneg lens). assert (q <= read_end (h_size h) q lens) by (unfold read_end; lia). split; [lia|].
    intros [Hr _]%Forall_app. unfold data in *. rewrite fmap_app, join_app, IH by done. simpl. rewrite app_nil_r, Hd. by apply between_app.
  - split; [|intros [_ Hr]%Forall_app; by apply Forall_cons_1 in Hr as [? _]].
    unfold new_position, Seek in N. repeat case_match; simplify_eq; bool_prop; lia.
  - split; [done|]. intros [_ Hr]%Forall_app. by apply Forall_cons_1 in Hr as [? _].
Qed.

Lemma good_start h n : good h 0 (initial n).
Proof.
  split; simpl; [lia|by rewrite tally_replicate|rewrite tally_replicate; [lia|done]|].
  intros k p Hk. apply lookup_replicate in Hk as [-> _]. done.
Qed.

Lemma run_serial m h content n ls s :
  holds m h content -> run m h (initial n) ls s -> exists q, serial h content ls q /\ good h q s.
Proof.
  intros H R. induction R as [|ls s1 e s2 R (q & Hs & G) St]; [exists 0; split; [constructor|apply good_start]|].
  assert (exists q', good h q' s2 /\ extends h content q e q') as (q' & G' & E).
  { destruct St as [k lens Hk|k offset whence Hk|k p weak [e s2] Hk A].
    - exists q. split; [by eapply handle_moved|done].
    - exists q. split; [by eapply handle_moved|done].
    - by eapply handle_access. }
  exists q'. split; [|done]. destruct e as [e|]; simpl in E |- *; [by econstructor|]. subst q'. by rewrite app_nil_r.
Qed.

(** C11: reads and seeks through a shared handle are atomic. In every interleaving of any number of
    threads that read into any buffers and seek, with exchanges that fail spuriously, the results
    are those of the operations one after the other: a read gets the bytes from the position on,
    as many as the file and its buffers allow, in order, and moves the position past them; a seek
    sets the position or fails and leaves it. The position is hidden exactly while one thread
    copies. When nobody seeks, the data of the reads are the contents from the start, in pieces
    without gaps or overlaps. *)
Theorem zipos_handle_atomic m h content n ls s :
  holds m h content -> run m h (initial n) ls s ->
  exists q, serial h content ls q /\ 0 <= q < 2 ^ 63 /\
    pos s = (if (tally reading (pcs s) =? 0)%nat then q else SIZE_MAX) /\ (tally reading (pcs s) <= 1)%nat /\
    (Forall is_read ls -> data ls = between content 0 q).
Proof.
  intros H R. destruct (run_serial _ _ _ _ _ _ H R) as (q & Hs & G). exists q. split; [done|]. split; [apply G|]. split; [apply G|].
  split; [apply G|]. by apply (serial_reads h content ls q).
Qed.

(** Steps that are executed. *)
Inductive action := CallRead (k : nat) (lens : list nat) | CallSeek (k : nat) (offset whence : Z) | Go (k : nat) | Spurious (k : nat).

Definition act (m : list Z) (h : ZiposHandle) (s : shared) (x : action) : option (option event * shared) :=
  match x with
  | CallRead k lens => p ← pcs s !! k; match p with Outside => Some (None, MkShared (pos s) (<[k := ReadLoad lens]> (pcs s))) | _ => None end
  | CallSeek k offset whence =>
    p ← pcs s !! k; match p with Outside => Some (None, MkShared (pos s) (<[k := SeekLoad offset whence]> (pcs s))) | _ => None end
  | Go k => p ← pcs s !! k; access m h false s k p
  | Spurious k => p ← pcs s !! k; access m h true s k p
  end.

Lemma zipos_act_step m h s x r : act m h s x = Some r -> step m h s r.1 r.2.
Proof.
  destruct x as [k lens|k offset whence|k|k]; simpl; destruct (pcs s !! k) as [p|] eqn:Hk; simpl; try done.
  - destruct p; try done. intros [= <-]. by apply call_read.
  - destruct p; try done. intros [= <-]. by apply call_seek.
  - by apply go_on.
  - by apply go_on.
Qed.

(** One thread reads five bytes into two buffers while another wants four and a third seeks. *)
Definition sharing : list action :=
  [CallRead 0 [2; 3]%nat; CallRead 1 [4]%nat; Go 0; Go 1; Go 0; Go 1; CallSeek 2 (-1) 1; Go 2; Go 0; Go 1; Spurious 1; Go 1; Go 1; Go 2; Go 2].

Lemma zipos_handle_atomic_witness :
  let h := mkHandle 1 8 (Mapped 2) in
  let m := [0; 0; 10; 11; 12; 13; 14; 15; 16; 17] in
  exists ls s, run m h (initial 3) ls s /\
    ls = [Read [2; 3]%nat [[10; 11]; [12; 13; 14]] 5; Read [4]%nat [[15; 16; 17]] 3; Sought (-1) 1 (inl 7)] /\
    exists q, serial h [10; 11; 12; 13; 14; 15; 16; 17] ls q /\ 0 <= q < 2 ^ 63 /\
      pos s = (if (tally reading (pcs s) =? 0)%nat then q else SIZE_MAX) /\ (tally reading (pcs s) <= 1)%nat /\
      (Forall is_read ls -> data ls = between [10; 11; 12; 13; 14; 15; 16; 17] 0 q).
Proof.
  intros h m. destruct (play (fun _ => act m h) [] (initial 3) sharing) as [[ls s]|] eqn:E; [|vm_compute in E; discriminate].
  assert (R : run m h (initial 3) ls s).
  { eapply (play_runs (fun _ => step m h) (fun _ => act m h)), E; [intros ? *; apply zipos_act_step|constructor]. }
  exists ls, s. split; [exact R|]. split; [vm_compute in E; congruence|].
  apply (zipos_handle_atomic m h _ 3 ls s); [|exact R]. split; [reflexivity|vm_compute; reflexivity|vm_compute; reflexivity].
Defined.

(** * References *)

(** Holders take and drop references, each in one access: after any sequence the memory is mapped
    exactly when someone holds the handle, and it is unmapped once. *)
Inductive referenced : Z -> refcount -> Prop :=
| ref_open : referenced 1 (MkRefs 0 true)
| ref_keep n r : referenced n r -> 0 < n < 2 ^ 64 - 1 -> referenced (n + 1) (__zipos_keep r)
| ref_drop n r : referenced n r -> 0 < n -> referenced (n - 1) (__zipos_drop r).

Lemma handle_mapped n r : referenced n r -> 0 <= n < 2 ^ 64 /\ refs r = u64 (n - 1) /\ mapped r = (0 <? n).
Proof.
  induction 1 as [|n r _ (Hn & Hr & Hm) Hk|n r _ (Hn & Hr & Hm) Hk]; [done|..]; simpl.
  - rewrite Hr, Hm. unfold u64. split; [lia|]. split; [lia|lia].
  - rewrite Hr, Hm. unfold u64. split; [lia|]. split; [lia|].
    destruct (Z.eqb_spec ((n - 1) mod 2 ^ 64) 0); simpl; lia.
Qed.

(** * Opening *)

(** The contents that a local record stores, as they are or compressed. *)
Inductive stored (inflate : list Z -> Z -> option (list Z)) (m : list Z) (lf : Z) (content : list Z) : Prop :=
| stored_plain off :
    ZIP_LFILE_COMPRESSIONMETHOD m lf = Some kZipCompressionNone -> ZIP_LFILE_CONTENT m lf = Some off ->
    bytes_at m off (length content) = Some content -> stored inflate m lf content
| stored_deflated off csize src :
    ZIP_LFILE_COMPRESSIONMETHOD m lf = Some kZipCompressionDeflate -> ZIP_LFILE_CONTENT m lf = Some off ->
    GetZipLfileCompressedSize m lf = Some csize -> bytes_at m off (Z.to_nat csize) = Some src ->
    inflate src (Z.of_nat (length content)) = Some content -> stored inflate m lf content.

Lemma bytes_at_self l : bytes_at l 0 (length l) = Some l.
Proof.
  assert (E : forall k r, drop k l = r -> bytes_at l (Z.of_nat k) (length r) = Some r).
  { intros k r. revert k. induction r as [|x r IH]; intros k Hk; [done|]. simpl. unfold byte_at.
    rewrite (proj2 (Z.leb_le 0 _)), Nat2Z.id by lia.
    assert (Hx : l !! k = Some x) by (rewrite <- (Nat.add_0_r k), <- lookup_drop, Hk; done). rewrite Hx. simpl.
    replace (Z.of_nat k + 1) with (Z.of_nat (S k)) by lia. rewrite (IH (S k)); [done|].
    by rewrite <- Nat.add_1_r, <- drop_drop, Hk. }
  apply (E 0%nat). apply drop_0.
Qed.

(** A file that is found, may be read and is opened for reading gives a handle of its contents:
    what [zipos_handle_atomic] and [pread_correct] are about. *)
Lemma open_holds O_DIRECTORY alloc inflate z path flags cf mode lf content :
  (forall n, alloc n = true) -> __zipos_find z path = Some (inl cf) -> cf ≠ ZIPOS_SYNTHETIC_DIRECTORY ->
  flag flags O_CREAT || flag flags O_TRUNC || flag flags O_APPEND || negb (Z.land flags O_ACCMODE =? O_RDONLY) = false ->
  flag flags O_EXCL = false -> flag flags O_DIRECTORY = false ->
  GetZipCfileMode (z_map z) cf = Some mode -> Z.land mode 0x124 ≠ 0 ->
  GetZipCfileOffset (z_map z) cf = Some lf -> GetZipLfileUncompressedSize (z_map z) lf = Some (Z.of_nat (length content)) ->
  Z.of_nat (length content) < 2 ^ 63 -> stored inflate (z_map z) lf content ->
  exists h, __zipos_open O_DIRECTORY alloc inflate (Some z) path flags = Some (inl h) /\ h_cfile h = cf /\ holds (z_map z) h content.
Proof.
  intros Ha Hf Hc Hw He Hd Hm Hr Ho Hs Hsm Hst. unfold __zipos_open. rewrite Hw, Hf. cbn [mbind option_bind].
  rewrite He, (proj2 (Z.eqb_neq _ _) Hc). cbn [negb]. rewrite Hm. cbn [mbind option_bind]. rewrite Hd, (proj2 (Z.eqb_neq _ _) Hr). cbn [andb].
  unfold __zipos_load. rewrite (proj2 (Z.eqb_neq _ _) Hc), Ho. cbn [mbind option_bind]. rewrite Hs. cbn [mbind option_bind].
  destruct Hst as [off M C B|off csize src M C G B I]; rewrite M; cbn [mbind option_bind].
  - rewrite Z.eqb_refl, C. cbn [mbind option_bind]. rewrite Ha. eexists. split; [done|]. split; [done|]. split; [done| |done]. simpl. by rewrite Z.add_0_r.
  - change (kZipCompressionDeflate =? kZipCompressionNone) with false. rewrite Z.eqb_refl, Ha, C. cbn [mbind option_bind].
    rewrite G. cbn [mbind option_bind]. rewrite B. cbn [mbind option_bind]. rewrite I. eexists. split; [done|]. split; [done|]. split; [done| |done].
    apply bytes_at_self.
Qed.

(** The status of a directory without a record says that its owner may write to it, and access for
    writing is refused. *)
Example synthetic_modes_disagree :
  (z ← @__zipos_generate_index inserting sample 147 0;
   st ← __zipos_stat (Some z) [97]; acc ← __zipos_access (Some z) [97] W_OK;
   Some (match st with inl st => Z.land (st_mode st) 0x80 | inr _ => 0 end, acc)) = Some (0x80, inr EACCES).
Proof. vm_compute. reflexivity. Qed.
