(* ===== verification/CosmoTime.v ===== *)
(** Time values: the arithmetic on [struct timespec] and [struct timeval] of
    [libc/cosmotime.h] ([libc/intrin/timespec_*.c] and [timeval_*.c]) and the conversions of
    [libc/fmt/wintime.internal.h] to and from the Windows clock, which counts 100ns units
    since 1601. The build compiles with [-fwrapv], so signed arithmetic wraps; [/] and [%] on
    signed integers truncate; an operand of type [unsigned long long] makes a division
    unsigned. *)
From S2P Require Import Prelude.

Definition INT64_MAX : Z := 2 ^ 63 - 1.
Definition INT64_MIN : Z := - 2 ^ 63.

Record timespec := Timespec { tv_sec : Z; tv_nsec : Z }.
Record timeval := Timeval { tv_sec_ : Z; tv_usec : Z }.

Definition timespec_max : timespec := Timespec INT64_MAX 999999999.
Definition timespec_zero : timespec := Timespec 0 0.
Definition timeval_max : timeval := Timeval INT64_MAX 999999.
Definition timeval_zero : timeval := Timeval 0 0.

(** C23 checked arithmetic with an [int64_t] result: [None] is a true return value. *)
Definition ckd (exact : Z) : option Z :=
  if (INT64_MIN <=? exact) && (exact <=? INT64_MAX) then Some exact else None.

(** [(a > b) - (a < b)]. *)
Definition cmp3 (a b : Z) : Z := (if a >? b then 1 else 0) - (if a <? b then 1 else 0).

(** * timespec *)

Definition timespec_add (x y : timespec) : timespec :=
  let sec := s64 (tv_sec x + tv_sec y) in
  let nsec := s64 (tv_nsec x + tv_nsec y) in
  if nsec >=? 1000000000
  then Timespec (s64 (sec + 1)) (s64 (nsec - 1000000000))
  else Timespec sec nsec.

Definition timespec_sub (a b : timespec) : timespec :=
  let sec := s64 (tv_sec a - tv_sec b) in
  if tv_nsec a <? tv_nsec b
  then Timespec (s64 (sec - 1)) (s64 (s64 (tv_nsec a + 1000000000) - tv_nsec b))
  else Timespec sec (s64 (tv_nsec a - tv_nsec b)).

Definition timespec_cmp (a b : timespec) : Z :=
  let cmp := cmp3 (tv_sec a) (tv_sec b) in
  if cmp =? 0 then cmp3 (tv_nsec a) (tv_nsec b) else cmp.

Definition timespec_subz (x y : timespec) : timespec :=
  if timespec_cmp x y >? 0 then timespec_sub x y else timespec_zero.

Definition timespec_fromnanos (x : Z) : timespec :=
  Timespec (Z.quot x 1000000000) (Z.rem x 1000000000).

Definition timespec_frommicros (x : Z) : timespec :=
  Timespec (Z.quot x 1000000) (Z.rem x 1000000 * 1000).

Definition timespec_frommillis (x : Z) : timespec :=
  if x >=? 0 then Timespec (Z.quot x 1000) (Z.rem x 1000 * 1000000) else timespec_max.

(** The last step of the [to] functions: [sec * scale + rest], saturated by the sign of
    [sec]. *)
Definition to_scalar (sec scale rest : Z) : Z :=
  match (p ← ckd (sec * scale); ckd (p + rest)) with
  | Some v => v
  | None => if sec <? 0 then INT64_MIN else INT64_MAX
  end.

Definition timespec_tonanos (x : timespec) : Z := to_scalar (tv_sec x) 1000000000 (tv_nsec x).

Definition timespec_tomicros (ts : timespec) : Z :=
  if tv_nsec ts <=? 999999000
  then to_scalar (tv_sec ts) 1000000 (Z.quot (tv_nsec ts + 999) 1000)
  else to_scalar (if tv_sec ts <? INT64_MAX then tv_sec ts + 1 else tv_sec ts) 1000000 0.

Definition timespec_tomillis (ts : timespec) : Z :=
  if tv_nsec ts <=? 999000000
  then to_scalar (tv_sec ts) 1000 (Z.quot (tv_nsec ts + 999999) 1000000)
  else to_scalar (if tv_sec ts <? INT64_MAX then tv_sec ts + 1 else tv_sec ts) 1000 0.

Definition timespec_totimeval (ts : timespec) : timeval :=
  if tv_nsec ts <? 1000000000 - 999
  then Timeval (tv_sec ts) (Z.quot (tv_nsec ts + 999) 1000)
  else Timeval (s64 (tv_sec ts + 1)) 0.

(** * timeval *)

Definition timeval_add (x y : timeval) : timeval :=
  let sec := s64 (tv_sec_ x + tv_sec_ y) in
  let usec := s64 (tv_usec x + tv_usec y) in
  if usec >=? 1000000
  then Timeval (s64 (sec + 1)) (s64 (usec - 1000000))
  else Timeval sec usec.

Definition timeval_sub (a b : timeval) : timeval :=
  let sec := s64 (tv_sec_ a - tv_sec_ b) in
  if tv_usec a <? tv_usec b
  then Timeval (s64 (sec - 1)) (s64 (s64 (tv_usec a + 1000000) - tv_usec b))
  else Timeval sec (s64 (tv_usec a - tv_usec b)).

Definition timeval_cmp (a b : timeval) : Z :=
  let cmp := cmp3 (tv_sec_ a) (tv_sec_ b) in
  if cmp =? 0 then cmp3 (tv_usec a) (tv_usec b) else cmp.

Definition timeval_subz (x y : timeval) : timeval :=
  if timeval_cmp x y >? 0 then timeval_sub x y else timeval_zero.

Definition timeval_frommicros (x : Z) : timeval :=
  Timeval (Z.quot x 1000000) (Z.rem x 1000000).

Definition timeval_frommillis (x : Z) : timeval :=
  Timeval (Z.quot x 1000) (Z.rem x 1000 * 1000).

Definition timeval_tomicros (x : timeval) : Z := to_scalar (tv_sec_ x) 1000000 (tv_usec x).

Definition timeval_tomillis (ts : timeval) : Z :=
  if tv_usec ts <=? 999000
  then to_scalar (tv_sec_ ts) 1000 (Z.quot (tv_usec ts + 999) 1000)
  else to_scalar (if tv_sec_ ts <? INT64_MAX then tv_sec_ ts + 1 else tv_sec_ ts) 1000 0.

Definition timeval_toseconds (tv : timeval) : Z :=
  if negb (tv_usec tv =? 0) && (tv_sec_ tv <? INT64_MAX) then tv_sec_ tv + 1 else tv_sec_ tv.

(** * Inline functions *)

Definition timespec_fromseconds (x : Z) : timespec := Timespec x 0.
Definition timespec_iszero (ts : timespec) : bool := Z.lor (tv_sec ts) (tv_nsec ts) =? 0.
Definition timespec_isvalid (ts : timespec) : bool := (0 <=? tv_sec ts) && (u64 (tv_nsec ts) <? 1000000000).
Definition timeval_fromseconds (x : Z) : timeval := Timeval x 0.
Definition timeval_totimespec (tv : timeval) : timespec := Timespec (tv_sec_ tv) (s64 (tv_usec tv * 1000)).
Definition timeval_iszero (tv : timeval) : bool := Z.lor (tv_sec_ tv) (tv_usec tv) =? 0.
Definition timeval_isvalid (tv : timeval) : bool := (0 <=? tv_sec_ tv) && (u64 (tv_usec tv) <? 1000000).

(** * Windows time *)

Definition MODERNITYSECONDS : Z := 11644473600.
Definition HECTONANOSECONDS : Z := 10000000.

Definition TimeSpecToWindowsTime (time : timespec) : Z :=
  match (wt ← ckd (tv_sec time + MODERNITYSECONDS);
         wt ← ckd (wt * HECTONANOSECONDS);
         ckd (wt + Z.quot (tv_nsec time) 100)) with
  | Some wt => wt
  | None => INT64_MAX
  end.

(** Computed in [unsigned long long] and returned as [int64_t]. *)
Definition TimeValToWindowsTime (t : timeval) : Z :=
  s64 (u64 (s64 (tv_usec t * 10) + u64 (u64 (tv_sec_ t + MODERNITYSECONDS) * HECTONANOSECONDS))).

(** The divisor is unsigned, so [x] is converted to [uint64_t] first. *)
Definition WindowsDurationToTimeSpec (x : Z) : timespec :=
  Timespec (s64 (u64 x / HECTONANOSECONDS)) (s64 (u64 x mod HECTONANOSECONDS * 100)).

Definition WindowsDurationToTimeVal (x : Z) : timeval :=
  Timeval (s64 (u64 x / HECTONANOSECONDS)) (s64 (u64 x mod HECTONANOSECONDS / 10)).

Definition WindowsTimeToTimeSpec (x : Z) : timespec :=
  WindowsDurationToTimeSpec (s64 (u64 (u64 x - MODERNITYSECONDS * HECTONANOSECONDS))).

Definition WindowsTimeToTimeVal (x : Z) : timeval :=
  Timeval (s64 (u64 (u64 x / HECTONANOSECONDS - MODERNITYSECONDS)))
          (s64 (u64 x mod HECTONANOSECONDS / 10)).

(** [struct NtFileTime]. *)
Record NtFileTime := FileTime { dwLowDateTime : Z; dwHighDateTime : Z }.

Definition MakeFileTime (x : Z) : NtFileTime := FileTime (u32 x) (u32 (Z.shiftr x 32)).
Definition ReadFileTime (t : NtFileTime) : Z :=
  s64 (Z.lor (u64 (Z.shiftl (dwHighDateTime t) 32)) (dwLowDateTime t)).

Definition FileTimeToTimeSpec (x : NtFileTime) : timespec := WindowsTimeToTimeSpec (ReadFileTime x).
Definition FileTimeToTimeVal (x : NtFileTime) : timeval := WindowsTimeToTimeVal (ReadFileTime x).
Definition TimeSpecToFileTime (x : timespec) : NtFileTime := MakeFileTime (TimeSpecToWindowsTime x).
Definition TimeValToFileTime (x : timeval) : NtFileTime := MakeFileTime (TimeValToWindowsTime x).

(** * Exact time *)

(** The instant a value stands for, in nanoseconds, and the values the fields are kept in. *)
Definition nanos (x : timespec) : Z := tv_sec x * 1000000000 + tv_nsec x.
Definition micros (x : timeval) : Z := tv_sec_ x * 1000000 + tv_usec x.

Definition is_s64 (x : Z) : Prop := INT64_MIN <= x <= INT64_MAX.

Definition timespec_ok (x : timespec) : Prop := is_s64 (tv_sec x) /\ 0 <= tv_nsec x < 1000000000.
Definition timeval_ok (x : timeval) : Prop := is_s64 (tv_sec_ x) /\ 0 <= tv_usec x < 1000000.

#[export] Instance is_s64_dec x : Decision (is_s64 x).
Proof. unfold is_s64. apply _. Defined.
#[export] Instance timespec_ok_dec x : Decision (timespec_ok x).
Proof. unfold timespec_ok. apply _. Defined.
#[export] Instance timeval_ok_dec x : Decision (timeval_ok x).
Proof. unfold timeval_ok. apply _. Defined.

Definition clamp (x : Z) : Z := Z.max INT64_MIN (Z.min INT64_MAX x).

(** Rounding up. *)
Definition ceil_div (a b : Z) : Z := - (- a / b).
