(* ===== verification/CosmoTimeFacts.v ===== *)
(** Correctness of the time values of [CosmoTime.v]: the arithmetic is exact on the instants
    the values stand for, the conversions to scalars round up and saturate, and the
    conversions that are inverse to each other are named with the ranges in which they are. *)
From S2P Require Import Prelude CosmoTime.

(** Unfolds the wrap-arounds, the limits and the ranges for [lia]. *)
Ltac time_lia :=
  unfold timespec_ok, timeval_ok, is_s64, clamp, nanos, micros, ceil_div, INT64_MIN, INT64_MAX,
    MODERNITYSECONDS, HECTONANOSECONDS, s64, u64 in *; cbn [tv_sec tv_nsec tv_sec_ tv_usec] in *; lia.

Lemma cmp3_spec a b : cmp3 a b = if a <? b then -1 else if a =? b then 0 else 1.
Proof. unfold cmp3. case_ifs. Qed.

(** Two wrap-arounds collapse to the exact value when it fits. *)
Lemma s64_small' x : is_s64 x -> s64 x = x.
Proof. intros. apply s64_small. time_lia. Qed.

Lemma s64_add_l a b : s64 (s64 a + b) = s64 (a + b).
Proof. unfold s64. lia. Qed.
Lemma s64_sub_l a b : s64 (s64 a - b) = s64 (a - b).
Proof. unfold s64. lia. Qed.

Lemma timespec_add_exact x y :
  timespec_ok x -> timespec_ok y -> is_s64 ((nanos x + nanos y) / 1000000000) ->
  timespec_ok (timespec_add x y) /\ nanos (timespec_add x y) = nanos x + nanos y.
Proof.
  destruct x as [xs xn], y as [ys yn]. intros [_ Hx] [_ Hy] H. unfold timespec_add.
  unfold nanos in *. simpl in *. rewrite (s64_small' (xn + yn)) by time_lia.
  case_if; bool_prop; rewrite ?s64_add_l, ?s64_sub_l, !s64_small' by time_lia; time_lia.
Qed.

Lemma timespec_sub_exact x y :
  timespec_ok x -> timespec_ok y -> is_s64 ((nanos x - nanos y) / 1000000000) ->
  timespec_ok (timespec_sub x y) /\ nanos (timespec_sub x y) = nanos x - nanos y.
Proof.
  destruct x as [xs xn], y as [ys yn]. intros [_ Hx] [_ Hy] H. unfold timespec_sub.
  unfold nanos in *. simpl in *.
  case_if; bool_prop; rewrite ?s64_sub_l, !s64_small' by time_lia; time_lia.
Qed.

Lemma timespec_cmp_exact x y :
  timespec_ok x -> timespec_ok y -> timespec_cmp x y = cmp3 (nanos x) (nanos y).
Proof.
  destruct x as [xs xn], y as [ys yn]. intros [_ Hx] [_ Hy]. unfold timespec_cmp, nanos.
  simpl in *. rewrite !cmp3_spec.
  destruct (Z.ltb_spec xs ys), (Z.eqb_spec xs ys); cbn -[Z.ltb Z.eqb Z.mul]; case_ifs.
Qed.

(** On normalized values [timespec_add], [timespec_sub] and [timespec_cmp] add, subtract
    and compare the instants exactly, and [timespec_subz] stops at zero; the sums and
    differences are normalized. The only condition is that the seconds of the result fit. *)
Theorem timespec_arithmetic x y :
  timespec_ok x -> timespec_ok y ->
  (is_s64 ((nanos x + nanos y) / 1000000000) ->
   timespec_ok (timespec_add x y) /\ nanos (timespec_add x y) = nanos x + nanos y) /\
  (is_s64 ((nanos x - nanos y) / 1000000000) ->
   timespec_ok (timespec_sub x y) /\ nanos (timespec_sub x y) = nanos x - nanos y /\
   nanos (timespec_subz x y) = Z.max 0 (nanos x - nanos y)) /\
  timespec_cmp x y = cmp3 (nanos x) (nanos y).
Proof.
  intros Hx Hy. split_and!.
  - by apply timespec_add_exact.
  - intros H. destruct (timespec_sub_exact x y Hx Hy H) as [Hok E]. split_and!; [done..|].
    unfold timespec_subz. rewrite timespec_cmp_exact, cmp3_spec by done.
    destruct (Z.ltb_spec (nanos x) (nanos y)), (Z.eqb_spec (nanos x) (nanos y));
      cbn -[nanos]; rewrite ?E; change (nanos timespec_zero) with 0; lia.
  - by apply timespec_cmp_exact.
Qed.

Lemma timespec_arithmetic_witness :
  timespec_ok (timespec_add (Timespec 1 999999999) (Timespec (-2) 1)) /\
  timespec_cmp (Timespec 1 999999999) (Timespec (-2) 1) = 1.
Proof.
  destruct (timespec_arithmetic (Timespec 1 999999999) (Timespec (-2) 1)) as (H1 & _ & H3).
  - apply (bool_decide_unpack _). exact I.
  - apply (bool_decide_unpack _). exact I.
  - split; [apply H1; apply (bool_decide_unpack _); exact I|rewrite H3; reflexivity].
Defined.

(** * Scalars *)

Lemma ckd_spec z : ckd z = if decide (is_s64 z) then Some z else None.
Proof.
  unfold ckd, is_s64. case_decide as H.
  - by rewrite (proj2 (Z.leb_le _ _)), (proj2 (Z.leb_le _ _)) by lia.
  - case_if; [bool_prop; lia|done].
Qed.

(** Saturation by the sign of the seconds is the nearest representable value, unless the
    seconds alone are too small. *)
Lemma to_scalar_clamp sec scale rest :
  1000 <= scale -> 0 <= rest < scale -> is_s64 sec ->
  to_scalar sec scale rest
  = if INT64_MIN <=? sec * scale then clamp (sec * scale + rest) else INT64_MIN.
Proof.
  intros Hs Hr Hsec. unfold to_scalar. rewrite ckd_spec. case_decide as H1; simpl.
  - rewrite (proj2 (Z.leb_le _ _)) by time_lia. rewrite ckd_spec. case_decide as H2; [time_lia|].
    case_if; bool_prop; [|time_lia]. exfalso.
    assert (sec * scale <= - scale) by nia. time_lia.
  - destruct (Z.ltb_spec sec 0).
    + assert (sec * scale <= 0) by nia. rewrite (proj2 (Z.leb_gt _ _)); [done|]. time_lia.
    + assert (0 <= sec * scale) by nia. rewrite (proj2 (Z.leb_le _ _)) by time_lia. time_lia.
Qed.

(** The reductions all round up: [sec] and [rest] with [unit] of the fine scale in one of
    the coarse scale. *)
Lemma reduce_ceil sec rest unit scale :
  0 < unit -> 0 < scale -> 0 <= rest < unit * scale -> rest <= unit * (scale - 1) ->
  0 <= Z.quot (rest + (unit - 1)) unit < scale /\
  sec * scale + Z.quot (rest + (unit - 1)) unit = ceil_div (sec * (unit * scale) + rest) unit.
Proof.
  intros Hu Hs Hr Hc. rewrite Z.quot_div_nonneg by lia. unfold ceil_div.
  replace (- (sec * (unit * scale) + rest)) with (- rest + - (sec * scale) * unit) by ring.
  rewrite Z.div_add by lia.
  pose proof (Z.div_mod (rest + (unit - 1)) unit ltac:(lia)) as E1.
  pose proof (Z.mod_pos_bound (rest + (unit - 1)) unit Hu) as B1.
  pose proof (Z.div_mod (- rest) unit ltac:(lia)) as E2.
  pose proof (Z.mod_pos_bound (- rest) unit Hu) as B2.
  assert ((rest + (unit - 1)) / unit = - (- rest / unit)) as Eq by nia.
  split; [|lia]. split; [apply Z.div_pos; lia|]. apply Z.div_lt_upper_bound; [lia|]. lia.
Qed.

Lemma reduce_carry sec rest unit scale :
  0 < unit -> 0 < scale -> unit * (scale - 1) < rest < unit * scale ->
  (sec + 1) * scale = ceil_div (sec * (unit * scale) + rest) unit.
Proof.
  intros Hu Hs Hr. unfold ceil_div.
  replace (- (sec * (unit * scale) + rest)) with ((unit * scale - rest) + - ((sec + 1) * scale) * unit) by ring.
  rewrite Z.div_add, Z.div_small by lia. lia.
Qed.

(** The saturating reduction to a coarser unit. *)
Definition saturated (sec scale exact : Z) : Z :=
  if INT64_MIN <=? sec * scale then clamp exact else INT64_MIN.

Lemma reduce_clamp sec rest unit scale :
  0 < unit -> 1000 <= scale -> is_s64 sec -> 0 <= rest < unit * scale ->
  (if rest <=? unit * (scale - 1)
   then to_scalar sec scale (Z.quot (rest + (unit - 1)) unit)
   else to_scalar (if sec <? INT64_MAX then sec + 1 else sec) scale 0)
  = saturated (if rest <=? unit * (scale - 1) then sec else sec + 1) scale
      (ceil_div (sec * (unit * scale) + rest) unit).
Proof.
  intros Hu Hs Hsec Hr. unfold saturated. destruct (Z.leb_spec rest (unit * (scale - 1))) as [H|H].
  - destruct (reduce_ceil sec rest unit scale) as [Hq <-]; try lia. by apply to_scalar_clamp.
  - rewrite <- (reduce_carry sec rest unit scale) by lia.
    destruct (Z.ltb_spec sec INT64_MAX) as [Hm|Hm].
    + rewrite to_scalar_clamp by time_lia. by rewrite Z.add_0_r.
    + assert (sec = INT64_MAX) as -> by time_lia. rewrite to_scalar_clamp by (done || lia).
      assert (INT64_MAX <= INT64_MAX * scale) by (unfold INT64_MAX; nia).
      assert (INT64_MAX <= (INT64_MAX + 1) * scale) by (unfold INT64_MAX; nia).
      rewrite !(proj2 (Z.leb_le _ _)) by time_lia. rewrite Z.add_0_r. time_lia.
Qed.

(** The conversions to scalars round up to the unit and saturate: whenever the seconds
    alone do not underflow the result is the least number of nanoseconds, microseconds or
    milliseconds not before the instant, clamped to [INT64_MIN] and [INT64_MAX]. *)
Theorem time_scalars_saturate x :
  timespec_ok x -> INT64_MIN <= tv_sec x * 1000000000 ->
  timespec_tonanos x = clamp (nanos x) /\
  timespec_tomicros x = clamp (ceil_div (nanos x) 1000) /\
  timespec_tomillis x = clamp (ceil_div (nanos x) 1000000) /\
  (tv_sec x < INT64_MAX -> micros (timespec_totimeval x) = ceil_div (nanos x) 1000).
Proof.
  destruct x as [sec nsec]. intros [Hs Hn] Hu. unfold timespec_tonanos, timespec_tomicros,
    timespec_tomillis, timespec_totimeval. simpl in *.
  assert (Hmin : forall s k, 0 < k <= 1000000 -> sec <= s -> (INT64_MIN <=? s * k) = true).
  { intros s k Hk Hle. apply Z.leb_le. destruct (Z_lt_le_dec s 0); [|unfold INT64_MIN; nia].
    assert (sec * 1000000000 <= s * k) by nia. lia. }
  split_and!.
  - rewrite to_scalar_clamp by (done || lia). by rewrite (proj2 (Z.leb_le _ _)) by done.
  - pose proof (reduce_clamp sec nsec 1000 1000000) as E. unfold saturated in E.
    change (1000 * (1000000 - 1)) with 999999000 in E. change (1000 - 1) with 999 in E.
    change (1000 * 1000000) with 1000000000 in E. unfold nanos. simpl. rewrite E by (done || lia).
    rewrite Hmin by (try case_if; lia). done.
  - pose proof (reduce_clamp sec nsec 1000000 1000) as E. unfold saturated in E.
    change (1000000 * (1000 - 1)) with 999000000 in E. change (1000000 - 1) with 999999 in E.
    change (1000000 * 1000) with 1000000000 in E. unfold nanos. simpl. rewrite E by (done || lia).
    rewrite Hmin by (try case_if; lia). done.
  - intros Hmax. case_if; bool_prop; unfold micros, nanos; simpl.
    + destruct (reduce_ceil sec nsec 1000 1000000) as [_ E']; [lia..|]. exact E'.
    + rewrite s64_small' by time_lia. rewrite Z.add_0_r. apply (reduce_carry sec nsec 1000 1000000); lia.
Qed.

Lemma time_scalars_witness :
  timespec_tonanos (Timespec (-2) 1) = clamp (nanos (Timespec (-2) 1)) /\
  timespec_tomicros (Timespec (-2) 1) = clamp (ceil_div (nanos (Timespec (-2) 1)) 1000) /\
  timespec_tomillis (Timespec (-2) 1) = clamp (ceil_div (nanos (Timespec (-2) 1)) 1000000) /\
  (tv_sec (Timespec (-2) 1) < INT64_MAX ->
   micros (timespec_totimeval (Timespec (-2) 1)) = ceil_div (nanos (Timespec (-2) 1)) 1000).
Proof.
  apply time_scalars_saturate; [apply (bool_decide_unpack _); exact I|].
  vm_compute. discriminate.
Defined.

(** Rounding up the largest time wraps its seconds. *)
Theorem totimeval_max_wraps : timespec_totimeval timespec_max = Timeval INT64_MIN 0.
Proof. reflexivity. Qed.

(** The sign of the seconds decides the saturation too early: this instant is
    -9223372036000000001 ns, which fits. *)
Theorem tonanos_saturates_early :
  timespec_tonanos (Timespec (-9223372037) 999999999) = INT64_MIN /\
  INT64_MIN < nanos (Timespec (-9223372037) 999999999).
Proof. split; vm_compute; reflexivity. Qed.

(** * Round trips *)

Lemma quot_rem_split x k :
  0 < k -> is_s64 x ->
  is_s64 (Z.quot x k * k) /\ Z.quot x k * k + Z.rem x k = x /\ Z.abs (Z.rem x k) < k.
Proof.
  intros Hk Hx. pose proof (Z.quot_rem x k ltac:(lia)) as E.
  assert (Hr : Z.abs (Z.rem x k) < k) by (pose proof (Z.rem_bound_abs x k ltac:(lia)); lia).
  split_and!; [|lia|done].
  destruct (Z_le_gt_dec 0 x) as [H|H].
  - pose proof (Z.rem_nonneg x k ltac:(lia) H). pose proof (Z.quot_pos x k H Hk).
    unfold is_s64, INT64_MIN, INT64_MAX in *. nia.
  - pose proof (Z.rem_nonpos x k ltac:(lia) ltac:(lia)).
    assert (Z.quot x k <= 0).
    { rewrite <- (Z.opp_involutive x), Z.quot_opp_l by lia. pose proof (Z.quot_pos (- x) k). lia. }
    unfold is_s64, INT64_MIN, INT64_MAX in *. nia.
Qed.

Lemma to_scalar_exact sec scale rest :
  is_s64 (sec * scale) -> is_s64 (sec * scale + rest) ->
  to_scalar sec scale rest = sec * scale + rest.
Proof. intros H1 H2. unfold to_scalar. rewrite ckd_spec, decide_True by done. simpl. by rewrite ckd_spec, decide_True. Qed.

(** [timespec_tonanos] undoes [timespec_fromnanos] and [timeval_tomicros] undoes
    [timeval_frommicros] on every 64-bit integer; with their rounding, the micro- and
    millisecond conversions of [timespec] are undone on every nonnegative one. *)
Theorem time_roundtrip x :
  is_s64 x ->
  timespec_tonanos (timespec_fromnanos x) = x /\
  timeval_tomicros (timeval_frommicros x) = x /\
  (0 <= x -> timespec_tomicros (timespec_frommicros x) = x /\
             timespec_tomillis (timespec_frommillis x) = x /\
             timeval_tomillis (timeval_frommillis x) = x).
Proof.
  intros Hx. destruct (quot_rem_split x 1000000000 ltac:(lia) Hx) as (N1 & N2 & _).
  destruct (quot_rem_split x 1000000 ltac:(lia) Hx) as (U1 & U2 & U3).
  destruct (quot_rem_split x 1000 ltac:(lia) Hx) as (M1 & M2 & M3).
  split_and!.
  - unfold timespec_tonanos, timespec_fromnanos. simpl. rewrite to_scalar_exact; rewrite ?N2; done.
  - unfold timeval_tomicros, timeval_frommicros. simpl. rewrite to_scalar_exact; rewrite ?U2; done.
  - intros H0. pose proof (Z.rem_nonneg x 1000000 ltac:(lia) H0).
    pose proof (Z.rem_nonneg x 1000 ltac:(lia) H0).
    assert (Hq : forall r k, 0 <= r -> 1 < k -> Z.quot (r * k + (k - 1)) k = r).
    { intros r k Hr Hk. rewrite Z.quot_div_nonneg by nia.
      rewrite Z.add_comm, Z.div_add, Z.div_small by lia. lia. }
    split_and!.
    + unfold timespec_tomicros, timespec_frommicros. simpl.
      rewrite (proj2 (Z.leb_le _ _)), (Hq _ 1000) by lia.
      rewrite to_scalar_exact; rewrite ?U2; done.
    + unfold timespec_tomillis, timespec_frommillis. rewrite (proj2 (Z.geb_le _ _)) by lia. simpl.
      rewrite (proj2 (Z.leb_le _ _)), (Hq _ 1000000) by lia.
      rewrite to_scalar_exact; rewrite ?M2; done.
    + unfold timeval_tomillis, timeval_frommillis. simpl.
      rewrite (proj2 (Z.leb_le _ _)), (Hq _ 1000) by lia.
      rewrite to_scalar_exact; rewrite ?M2; done.
Qed.

Lemma time_roundtrip_witness :
  timespec_tonanos (timespec_fromnanos (-1500000001)) = -1500000001 /\
  timeval_tomicros (timeval_frommicros (-1500000001)) = -1500000001.
Proof.
  destruct (time_roundtrip (-1500000001)) as (H1 & H2 & _); [apply (bool_decide_unpack _); exact I|].
  split; [exact H1|exact H2].
Defined.

(** A negative interval leaves a negative [tv_nsec], which the rounding then loses. *)
Theorem frommicros_negative :
  timespec_frommicros (-1) = Timespec 0 (-1000) /\
  timespec_tomicros (timespec_frommicros (-1)) = 0.
Proof. split; reflexivity. Qed.

(** * The Windows clock *)

(** The Windows time of the Unix epoch. *)
Definition unix_epoch : Z := MODERNITYSECONDS * HECTONANOSECONDS.

(** From the Unix epoch on, a Windows time becomes the exact [timespec] and comes back
    unchanged; as a [timeval] it keeps its microseconds, from 1601 on. *)
Theorem windows_time_roundtrip x :
  0 <= x <= INT64_MAX ->
  (unix_epoch <= x ->
   nanos (WindowsTimeToTimeSpec x) = (x - unix_epoch) * 100 /\
   timespec_ok (WindowsTimeToTimeSpec x) /\
   TimeSpecToWindowsTime (WindowsTimeToTimeSpec x) = x) /\
  TimeValToWindowsTime (WindowsTimeToTimeVal x) = x - x mod 10.
Proof.
  intros Hx. unfold unix_epoch. split.
  - intros He. unfold WindowsTimeToTimeSpec, WindowsDurationToTimeSpec.
    set (d := x - MODERNITYSECONDS * HECTONANOSECONDS).
    assert (Hd : u64 (s64 (u64 (u64 x - MODERNITYSECONDS * HECTONANOSECONDS))) = d).
    { rewrite (u64_small x) by time_lia. fold d. rewrite (u64_small d), s64_small, u64_small by (unfold d; time_lia). done. }
    rewrite Hd. assert (Hr : 0 <= d <= INT64_MAX - 116444736000000000) by (unfold d; time_lia).
    rewrite (s64_small (d / HECTONANOSECONDS)), (s64_small (d mod HECTONANOSECONDS * 100)) by time_lia.
    split_and!; [unfold nanos; simpl; fold d; time_lia|unfold timespec_ok, is_s64; simpl; time_lia|].
    unfold TimeSpecToWindowsTime. cbn [tv_sec tv_nsec].
    rewrite Z.quot_div_nonneg, Z.div_mul by time_lia.
    rewrite !ckd_spec, decide_True by time_lia. cbn [mbind option_bind].
    rewrite !ckd_spec, decide_True by (unfold d in *; time_lia). cbn [mbind option_bind].
    rewrite ckd_spec, decide_True by (unfold d in *; time_lia). unfold d. time_lia.
  - unfold WindowsTimeToTimeVal, TimeValToWindowsTime. cbn [tv_sec_ tv_usec].
    rewrite (u64_small x) by time_lia.
    rewrite (s64_small (x mod HECTONANOSECONDS / 10)) by time_lia.
    assert (E : u64 (s64 (u64 (x / HECTONANOSECONDS - MODERNITYSECONDS)) + MODERNITYSECONDS)
                = x / HECTONANOSECONDS).
    { transitivity (u64 (x / HECTONANOSECONDS)); [unfold s64, u64; time_lia|]. apply u64_small. time_lia. }
    rewrite E, (s64_small (_ * 10)), (u64_small (_ * _)) by time_lia.
    rewrite (u64_small (_ + _)), s64_small by time_lia. time_lia.
Qed.

Lemma windows_time_witness :
  TimeSpecToWindowsTime (WindowsTimeToTimeSpec 132223104000000005) = 132223104000000005 /\
  TimeValToWindowsTime (WindowsTimeToTimeVal 132223104000000005) = 132223104000000000.
Proof.
  destruct (windows_time_roundtrip 132223104000000005) as [H1 H2]; [vm_compute; split; discriminate|].
  split; [apply H1; vm_compute; discriminate|rewrite H2; reflexivity].
Defined.

(** Before the Unix epoch the division is unsigned and the seconds come out after the year
    50000: one 100ns tick before 1970 is not a negative time. *)
Theorem windows_time_before_1970 :
  WindowsTimeToTimeSpec (unix_epoch - 1) = Timespec 1844674407370 955161500 /\
  WindowsTimeToTimeVal (unix_epoch - 1) = Timeval (-1) 999999.
Proof. split; reflexivity. Qed.

(** The two halves of a file time are put together again. *)
Theorem filetime_roundtrip x : is_s64 x -> ReadFileTime (MakeFileTime x) = x.
Proof.
  intros Hx. unfold ReadFileTime, MakeFileTime. cbn [dwLowDateTime dwHighDateTime].
  rewrite shiftr_div, shiftl_mul by lia. rewrite (u64_small (_ * _)) by (unfold u32; time_lia).
  rewrite (lor_high_low _ _ 32) by (unfold u32; time_lia). unfold s64, u32. time_lia.
Qed.

(** The validity tests are the ranges of the fields. *)
Theorem isvalid_exact ts tv :
  is_s64 (tv_nsec ts) -> is_s64 (tv_usec tv) ->
  (timespec_isvalid ts = true <-> 0 <= tv_sec ts /\ 0 <= tv_nsec ts < 1000000000) /\
  (timeval_isvalid tv = true <-> 0 <= tv_sec_ tv /\ 0 <= tv_usec tv < 1000000).
Proof.
  intros H1 H2. unfold timespec_isvalid, timeval_isvalid. rewrite !andb_true_iff, !Z.leb_le, !Z.ltb_lt.
  unfold u64. split; split; intros; time_lia.
Qed.
