(* ===== verification/Calendar.v ===== *)
(** Calendar time: the HTTP dates of [net/http/parsehttpdatetime.c] and
    [net/http/formathttpdatetime.c] and the name tables [libc/intrin/kmonthnameshort.S] and
    [libc/intrin/kweekdaynameshort.S]; the table of month starts is that of [Zip.v]. A buffer
    is the list of its bytes. The theorems after the definitions: the closed formula of the
    parser counts the days of the Gregorian calendar except in the years where its leap test,
    which applies the 400-year rule to years counted from 1900, is wrong; formatting and parsing
    an HTTP date give its Unix time back. *)
From S2P Require Import Prelude Zip.

(** * Tables *)

(** [kMonthYearDay[leap][i]]. *)
Definition month_start (leap : bool) (i : Z) : Z := nth (Z.to_nat i) (kMonthYearDay leap) 0.

Definition kMonthNameShort : list (list Z) :=
  ascii_codes <$> ["Jan"; "Feb"; "Mar"; "Apr"; "May"; "Jun"; "Jul"; "Aug"; "Sep"; "Oct"; "Nov"; "Dec"]%string.

Definition kWeekdayNameShort : list (list Z) :=
  ascii_codes <$> ["Sun"; "Mon"; "Tue"; "Wed"; "Thu"; "Fri"; "Sat"]%string.

(** * Seconds of a date *)

(** The computation the parser ends with: [year] counts from 1900, [month] from 1 and [day]
    from 0, all [unsigned]; the seconds within the year are summed in 32 bits, the rest in
    64. *)
Definition date_seconds (year month day hour minute second : Z) : Z :=
  let leap := (year mod 4 =? 0) && (negb (year mod 100 =? 0) || (year mod 400 =? 0)) in
  let yday := u32 (day + month_start leap (month - 1)) in
  s64 (u64 (u32 (second + minute * 60 + hour * 3600 + yday * 86400) +
       u32 (year - 70) * 31536000 + u32 (year - 69) / 4 * 86400 -
       u32 (year - 1) / 100 * 86400 + u32 (year + 299) / 400 * 86400)).

(** * HTTP dates *)

Definition char (p : list Z) (i : nat) : Z := schar (default 0 (p !! i)).

(** [READ32LE(p) & 0x00ffffff] against the four bytes of a month name. *)
Fixpoint find_month (names : list (list Z)) (i : Z) (p : list Z) : Z :=
  match names with
  | [] => 1
  | name :: names' =>
    if decide (take 3 p = name) then i + 1 else find_month names' (i + 1) p
  end.

Definition ParseMonth (p : list Z) : Z := find_month kMonthNameShort 0 p.

(** [(p[i] - '0') * 10 + (p[i + 1] - '0')]. *)
Definition dec2 (p : list Z) (i : nat) : Z := (char p i - 48) * 10 + (char p (S i) - 48).

Definition ParseHttpDateTime (p : list Z) : Z :=
  if negb (Z.of_nat (length p) =? 29) then 0
  else
    let day := u32 (dec2 p 5 - 1) in
    let month := ParseMonth (drop 8 p) in
    let year := u32 ((char p 12 - 48) * 1000 + (char p 13 - 48) * 100 + (char p 14 - 48) * 10 +
                     (char p 15 - 48) - 1900) in
    let hour := u32 (dec2 p 17) in
    let minute := u32 (dec2 p 20) in
    let second := u32 (dec2 p 23) in
    date_seconds year month day hour minute second.

(** [struct tm]. *)
Record tm := Tm {
  tm_sec : Z; tm_min : Z; tm_hour : Z; tm_mday : Z; tm_mon : Z; tm_year : Z; tm_wday : Z }.

(** [MIN(MAX(x, lo), hi)]. *)
Definition clip (x lo hi : Z) : Z := Z.min (Z.max x lo) hi.

Definition put2 (i : Z) : list Z := [48 + i / 10; 48 + i mod 10].

(** The 29 bytes before the terminator; [None] when [tm_wday] is outside the table. *)
Definition FormatHttpDateTime (t : tm) : option (list Z) :=
  wday ← (if 0 <=? tm_wday t then kWeekdayNameShort !! Z.to_nat (tm_wday t) else None);
  mon ← kMonthNameShort !! Z.to_nat (clip (tm_mon t) 0 11);
  let y := clip (tm_year t + 1900) 0 9999 in
  Some (wday ++ [44; SP] ++ put2 (clip (tm_mday t) 1 31) ++ [SP] ++ mon ++ [SP] ++
        [48 + y / 1000; 48 + y / 100 mod 10; 48 + y / 10 mod 10; 48 + y mod 10] ++ [SP] ++
        put2 (clip (tm_hour t) 0 23) ++ [COLON] ++ put2 (clip (tm_min t) 0 59) ++ [COLON] ++
        put2 (clip (tm_sec t) 0 59) ++ [SP; 71; 77; 84]).

(** * The calendar *)

Definition leap_year (y : Z) : bool :=
  (y mod 4 =? 0) && (negb (y mod 100 =? 0) || (y mod 400 =? 0)).

Definition year_days (y : Z) : Z := if leap_year y then 366 else 365.

Definition month_days (y m : Z) : Z :=
  if m =? 2 then (if leap_year y then 29 else 28)
  else if (m =? 4) || (m =? 6) || (m =? 9) || (m =? 11) then 30 else 31.

Definition sum (l : list Z) : Z := foldr Z.add 0 l.

(** Days from 1 January 1970 to a date of a later year. *)
Definition days_from_epoch (y m d : Z) : Z :=
  sum (year_days <$> seqZ 1970 (y - 1970)) + sum (month_days y <$> seqZ 1 (m - 1)) + (d - 1).

Definition unix_seconds (y m d hour minute second : Z) : Z :=
  days_from_epoch y m d * 86400 + hour * 3600 + minute * 60 + second.

(** * Examples *)

Example parse_sample :
  ParseHttpDateTime (ascii_codes "Mon, 05 Oct 2020 20:23:16 GMT"%string) = 1601929396.
Proof. reflexivity. Qed.

Example unix_sample : unix_seconds 2020 10 5 20 23 16 = 1601929396.
Proof. reflexivity. Qed.

Example format_sample :
  FormatHttpDateTime (Tm 16 23 20 5 9 120 1)
  = Some (ascii_codes "Mon, 05 Oct 2020 20:23:16 GMT"%string).
Proof. reflexivity. Qed.

(** * The closed formula *)

Lemma sum_app l l' : sum (l ++ l') = sum l + sum l'.
Proof. unfold sum. induction l; simpl; lia. Qed.

Lemma seqZ_singleton k : seqZ k 1 = [k].
Proof. unfold seqZ. simpl. by rewrite Z.add_0_l || (f_equal; lia). Qed.

Lemma years_formula y :
  1970 <= y ->
  sum (year_days <$> seqZ 1970 (y - 1970))
  = 365 * (y - 1970) + (y - 1969) / 4 - (y - 1901) / 100 + (y - 1601) / 400.
Proof.
  intros Hy. replace y with (1970 + Z.of_nat (Z.to_nat (y - 1970))) by lia.
  induction (Z.to_nat (y - 1970)) as [|n IH]; [reflexivity|].
  replace (1970 + Z.of_nat (S n) - 1970) with (Z.of_nat n + 1) by lia.
  rewrite (seqZ_app 1970 (Z.of_nat n) 1), fmap_app, sum_app by lia.
  replace (1970 + Z.of_nat n - 1970) with (Z.of_nat n) in IH by lia. rewrite IH.
  rewrite seqZ_singleton. cbn [fmap list_fmap sum foldr].
  unfold year_days, leap_year. set (k := 1970 + Z.of_nat n).
  destruct (Z.eqb_spec (k mod 4) 0), (Z.eqb_spec (k mod 100) 0), (Z.eqb_spec (k mod 400) 0);
    cbn -[Z.div Z.mul]; unfold k in *; lia.
Qed.

Lemma months_table y m :
  1 <= m <= 12 ->
  sum (month_days y <$> seqZ 1 (m - 1)) = month_start (leap_year y) (m - 1).
Proof.
  intros Hm. assert (Hc : In m (seqZ 1 12)) by (apply list_elem_of_In, elem_of_seqZ; lia).
  assert (Hall : forall b, forallb (fun m =>
    sum ((fun k => if k =? 2 then (if (b : bool) then 29 else 28)
      else if (k =? 4) || (k =? 6) || (k =? 9) || (k =? 11) then 30 else 31) <$> seqZ 1 (m - 1))
    =? month_start b (m - 1)) (seqZ 1 12) = true) by (intros []; reflexivity).
  specialize (Hall (leap_year y)). rewrite forallb_forall in Hall.
  specialize (Hall m Hc). by apply Z.eqb_eq in Hall.
Qed.

(** The years in which the code's leap test is the calendar's. *)
Definition leap_test_right (y : Z) : Prop := y mod 400 <> 0 /\ y mod 400 <> 300.

Lemma leap_test y :
  leap_test_right y ->
  ((y - 1900) mod 4 =? 0) && (negb ((y - 1900) mod 100 =? 0) || ((y - 1900) mod 400 =? 0))
  = leap_year y.
Proof.
  intros [H1 H2]. unfold leap_year.
  replace ((y - 1900) mod 4) with (y mod 4) by lia.
  replace ((y - 1900) mod 100) with (y mod 100) by lia.
  destruct (Z.eqb_spec (y mod 400) 0); [lia|]. destruct (Z.eqb_spec ((y - 1900) mod 400) 0); [lia|].
  done.
Qed.

(** January and February start on the same day of every year. *)
Lemma months_leap b b' m : 1 <= m <= 2 -> month_start b (m - 1) = month_start b' (m - 1).
Proof. intros. assert (m = 1 \/ m = 2) as [-> | ->] by lia; by destruct b, b'. Qed.

Lemma month_start_range b m : 1 <= m <= 12 -> 0 <= month_start b (m - 1) <= 335.
Proof.
  intros Hm.
  assert (Hall : forall b, forallb (fun m => (0 <=? month_start b (m - 1)) && (month_start b (m - 1) <=? 335))
                   (seqZ 1 12) = true) by (intros []; reflexivity).
  specialize (Hall b). rewrite forallb_forall in Hall. specialize (Hall m).
  apply andb_true_iff in Hall as [H1 H2]; [lia|]. apply list_elem_of_In, elem_of_seqZ. lia.
Qed.

Lemma date_seconds_exact y m day hour minute second :
  1970 <= y <= 9999 -> 1 <= m <= 12 -> 0 <= day <= 30 -> 0 <= hour <= 31 -> 0 <= minute <= 63 ->
  0 <= second <= 62 -> leap_test_right y \/ m <= 2 ->
  date_seconds (y - 1900) m day hour minute second = unix_seconds y m (day + 1) hour minute second.
Proof.
  intros Hy Hm Hd Hh Hmi Hs Hleap. unfold date_seconds, unix_seconds, days_from_epoch.
  rewrite years_formula, months_table by lia. set (b := (_ && _) : bool).
  assert (E : month_start b (m - 1) = month_start (leap_year y) (m - 1)).
  { destruct Hleap as [H|H]; [unfold b; by rewrite leap_test|]. apply months_leap. lia. }
  rewrite E. pose proof (month_start_range (leap_year y) m Hm) as Hr.
  generalize dependent (month_start (leap_year y) (m - 1)). intros k _ Hk. clear b Hleap.
  rewrite (u32_small (day + k)) by lia. rewrite !u32_small by lia. rewrite u64_small, s64_small by lia. lia.
Qed.

(** * HTTP dates *)

Record tm_ok (t : tm) : Prop := {
  ok_sec : 0 <= tm_sec t <= 59; ok_min : 0 <= tm_min t <= 59; ok_hour : 0 <= tm_hour t <= 23;
  ok_mday : 1 <= tm_mday t <= 31; ok_mon : 0 <= tm_mon t <= 11; ok_year : 70 <= tm_year t <= 8099;
  ok_wday : 0 <= tm_wday t <= 6 }.

Lemma clip_in x lo hi : lo <= x <= hi -> clip x lo hi = x.
Proof. unfold clip. lia. Qed.

Lemma digits2 i : 0 <= i <= 99 ->
  (schar (48 + i / 10) - 48) * 10 + (schar (48 + i mod 10) - 48) = i.
Proof. intros. rewrite !schar_small by lia. lia. Qed.

Lemma digits4 i : 0 <= i <= 9999 ->
  (schar (48 + i / 1000) - 48) * 1000 + (schar (48 + i / 100 mod 10) - 48) * 100 +
  (schar (48 + i / 10 mod 10) - 48) * 10 + (schar (48 + i mod 10) - 48) = i.
Proof. intros. rewrite !schar_small by lia. lia. Qed.

Lemma weekday_name w : 0 <= w <= 6 ->
  exists a b c, kWeekdayNameShort !! Z.to_nat w = Some [a; b; c].
Proof.
  intros Hw. assert (H : (Z.to_nat w < 7)%nat) by lia. revert H. generalize (Z.to_nat w) as n.
  intros n H. do 7 (destruct n as [|n]; [by repeat eexists|]). lia.
Qed.

Lemma month_name i : 0 <= i <= 11 ->
  exists a b c, kMonthNameShort !! Z.to_nat i = Some [a; b; c] /\
    forall rest, ParseMonth ([a; b; c] ++ rest) = i + 1.
Proof.
  intros Hi. assert (H : (Z.to_nat i < 12)%nat) by lia.
  replace (i + 1) with (Z.of_nat (Z.to_nat i) + 1) by lia. revert H. generalize (Z.to_nat i) as n.
  intros n H.
  do 12 (destruct n as [|n]; [eexists _, _, _; split; [reflexivity|intros rest; reflexivity]|]). lia.
Qed.

(** The bytes of a formatted date, parsed again. *)
Lemma parse_formatted w m d y hh mi ss a b c :
  length w = 3%nat -> 0 <= d <= 99 -> 1900 <= y <= 9999 -> 0 <= hh <= 99 -> 0 <= mi <= 99 ->
  0 <= ss <= 99 -> (forall rest, ParseMonth ([a; b; c] ++ rest) = m) ->
  let p := w ++ [44; SP] ++ put2 d ++ [SP] ++ [a; b; c] ++ [SP] ++
    [48 + y / 1000; 48 + y / 100 mod 10; 48 + y / 10 mod 10; 48 + y mod 10] ++ [SP] ++
    put2 hh ++ [COLON] ++ put2 mi ++ [COLON] ++ put2 ss ++ [SP; 71; 77; 84] in
  length p = 29%nat /\
  ParseHttpDateTime p = date_seconds (y - 1900) m (u32 (d - 1)) hh mi ss.
Proof.
  intros Hw Hd Hy Hh Hmi Hs Hm. destruct w as [|w1 [|w2 [|w3 [|]]]]; try done.
  cbn [app put2]. split; [done|]. unfold ParseHttpDateTime. cbn [length Z.of_nat Z.eqb negb].
  simpl (negb _). cbv iota. cbn [drop]. pose proof (Hm [SP; 48 + y / 1000; 48 + y / 100 mod 10;
    48 + y / 10 mod 10; 48 + y mod 10; SP; 48 + hh / 10; 48 + hh mod 10; COLON; 48 + mi / 10;
    48 + mi mod 10; COLON; 48 + ss / 10; 48 + ss mod 10; SP; 71; 77; 84]) as Hm'.
  cbn [app] in Hm'. rewrite Hm'. unfold dec2, char. cbn [lookup list_lookup default].
  unfold id. rewrite !digits2, digits4 by lia. rewrite (u32_small (y - 1900)), !(u32_small hh), !(u32_small mi), !(u32_small ss) by lia.
  done.
Qed.

(** For every date from 1970 on outside the years whose leap test is wrong,
    [FormatHttpDateTime] writes 29 bytes that [ParseHttpDateTime] reads as the Unix time of
    the date in the Gregorian calendar. *)
Theorem http_datetime_roundtrip t :
  tm_ok t -> leap_test_right (tm_year t + 1900) \/ tm_mon t <= 1 ->
  exists p, FormatHttpDateTime t = Some p /\ length p = 29%nat /\
    ParseHttpDateTime p
    = unix_seconds (tm_year t + 1900) (tm_mon t + 1) (tm_mday t) (tm_hour t) (tm_min t) (tm_sec t).
Proof.
  destruct t as [ss mi hh d mo y w]. intros [Hs Hmi Hh Hd Hmo Hy Hw] Hl. simpl in *.
  destruct (weekday_name w Hw) as (w1 & w2 & w3 & Ew).
  destruct (month_name mo Hmo) as (a & b & c & Em & Hm).
  unfold FormatHttpDateTime. cbn [tm_sec tm_min tm_hour tm_mday tm_mon tm_year tm_wday].
  rewrite (proj2 (Z.leb_le _ _)), Ew, !clip_in by lia. cbn [mbind option_bind]. rewrite Em.
  cbn [mbind option_bind].
  destruct (parse_formatted [w1; w2; w3] (mo + 1) d (y + 1900) hh mi ss a b c) as [Hlen Hp];
    [done|lia..|done|].
  eexists. split; [reflexivity|]. split; [exact Hlen|]. rewrite Hp, u32_small by lia.
  rewrite date_seconds_exact; [f_equal; lia|lia..|]. destruct Hl; [by left|right; lia].
Qed.

Lemma http_datetime_witness :
  exists p, FormatHttpDateTime (Tm 16 23 20 5 9 120 1) = Some p /\ length p = 29%nat /\
    ParseHttpDateTime p = unix_seconds 2020 10 5 20 23 16.
Proof.
  apply (http_datetime_roundtrip (Tm 16 23 20 5 9 120 1)); [split; simpl; lia|].
  left. split; vm_compute; discriminate.
Defined.

(** From March to December 2000 the parser is a day early: 1 March reads as 29 February. *)
Theorem ParseHttpDateTime_2000_off :
  ParseHttpDateTime (ascii_codes "Wed, 01 Mar 2000 00:00:00 GMT"%string)
  = ParseHttpDateTime (ascii_codes "Tue, 29 Feb 2000 00:00:00 GMT"%string) /\
  unix_seconds 2000 3 1 0 0 0 = unix_seconds 2000 2 29 0 0 0 + 86400.
Proof. split; reflexivity. Qed.
