(* ===== verification/Leb128.v ===== *)
(** Variable-length integers: [libc/fmt/uleb64.c], [unuleb64.c], [zleb64.c] and [unzleb64.c].
    A number takes at most nine bytes; each of the first eight carries seven bits and a
    continuation flag, the ninth carries eight bits. A buffer is the list of its bytes. *)
From S2P Require Import Prelude.

(** * Encoding *)

(** The loop with [left] of its eight iterations left, and the ninth byte after it. *)
Fixpoint uleb64_loop (left : nat) (x : Z) : list Z :=
  match left with
  | O => [u8 x]
  | S left' =>
    let c := Z.land x 127 in
    let x := Z.shiftr x 7 in
    if x =? 0 then [c] else Z.lor c 128 :: uleb64_loop left' x
  end.

Definition uleb64 (x : Z) : list Z := uleb64_loop 8 x.

(** [u = x; u <<= 1; u ^= x >> 63]. *)
Definition zigzag (x : Z) : Z := Z.lxor (u64 (Z.shiftl (u64 x) 1)) (u64 (Z.shiftr x 63)).

Definition zleb64 (x : Z) : list Z := uleb64 (zigzag x).

(** * Decoding *)

(** The number of bytes consumed and the number; [None] is the return value -1. *)
Fixpoint unleb_loop (p : list Z) (i k t : Z) : option (Z * Z) :=
  match p with
  | [] => None
  | b :: p' =>
    if i =? 8 then Some (9, Z.lor t (u64 (Z.shiftl (Z.land b 255) k)))
    else
      let t := Z.lor t (u64 (Z.shiftl (Z.land b 127) k)) in
      if negb (Z.land (Z.lnot b) 128 =? 0) then Some (i + 1, t)
      else unleb_loop p' (i + 1) (k + 7) t
  end.

(** [p] is the array of capacity [n]; at most nine bytes of it are read. *)
Definition unuleb64 (p : list Z) : option (Z * Z) := unleb_loop (take 9 p) 0 0 0.

(** [(t >> 1) ^ -(t & 1)], stored in an [int64_t]. *)
Definition unzigzag (t : Z) : Z := s64 (Z.lxor (Z.shiftr t 1) (u64 (- Z.land t 1))).

Definition unzleb64 (p : list Z) : option (Z * Z) :=
  '(n, t) ← unleb_loop (take 9 p) 0 0 0; Some (n, unzigzag t).

(** * Bytes *)

Lemma flag_clear c : 0 <= c < 128 -> (Z.land (Z.lnot c) 128 =? 0) = false /\ Z.land c 127 = c.
Proof.
  intros Hc.
  pose proof (byte_enum (fun c => (128 <=? c) ||
    (negb (Z.land (Z.lnot c) 128 =? 0) && (Z.land c 127 =? c))) eq_refl c ltac:(unfold is_byte; lia)) as H.
  cbv beta in H. apply orb_true_iff in H as [H|H]; bool_prop; [lia|]. split; [|done]. by apply Z.eqb_neq.
Qed.

Lemma flag_set c : 0 <= c < 128 ->
  (Z.land (Z.lnot (Z.lor c 128)) 128 =? 0) = true /\ Z.land (Z.lor c 128) 127 = c.
Proof.
  intros Hc.
  pose proof (byte_enum (fun c => (128 <=? c) ||
    ((Z.land (Z.lnot (Z.lor c 128)) 128 =? 0) && (Z.land (Z.lor c 128) 127 =? c))) eq_refl c
    ltac:(unfold is_byte; lia)) as H.
  cbv beta in H. apply orb_true_iff in H as [H|H]; bool_prop; [lia|]. split; [|done]. by apply Z.eqb_eq.
Qed.

(** The next seven bits joined to those read so far. *)
Lemma join_bits t c k :
  0 <= k -> 0 <= t < 2 ^ k -> 0 <= c -> c * 2 ^ k < 2 ^ 64 ->
  Z.lor t (u64 (Z.shiftl c k)) = t + c * 2 ^ k.
Proof.
  intros Hk Ht Hc Hf. rewrite shiftl_mul, u64_small by lia. apply lor_add_disjoint; lia.
Qed.

(** * Round trip *)

Lemma uleb64_loop_length left x : (1 <= length (uleb64_loop left x) <= S left)%nat.
Proof.
  revert x. induction left as [|left IH]; intros x; simpl; [lia|].
  case_if; simpl; [lia|]. specialize (IH (Z.shiftr x 7)). lia.
Qed.

Lemma uleb64_loop_bytes left x : 0 <= x -> Forall is_byte (uleb64_loop left x).
Proof.
  assert (Hc : forall x, 0 <= Z.land x 127 < 128).
  { intros y. change 127 with (2 ^ 7 - 1). rewrite land_mask by lia. lia. }
  revert x. induction left as [|left IH]; intros x Hx; simpl.
  - repeat constructor; apply u8_range.
  - specialize (Hc x). case_if; constructor; try (by constructor).
    + unfold is_byte. lia.
    + assert (E' : Z.lor (Z.land x 127) 128 = Z.land x 127 + 128)
        by (apply (lor_add_disjoint (Z.land x 127) 1 7); lia).
      unfold is_byte. lia.
    + apply IH. by apply Z.shiftr_nonneg.
Qed.

Lemma unleb_loop_encoded rest left i x t :
  0 <= i -> i + Z.of_nat left = 8 -> 0 <= t < 2 ^ (7 * i) -> 0 <= x < 2 ^ (64 - 7 * i) ->
  unleb_loop (uleb64_loop left x ++ rest) i (7 * i) t
  = Some (i + Z.of_nat (length (uleb64_loop left x)), t + x * 2 ^ (7 * i)).
Proof.
  revert i x t. induction left as [|left IH]; intros i x t Hi Hn Ht Hx.
  - assert (i = 8) as -> by lia. simpl in *. rewrite u8_small by lia.
    rewrite byte_land by (unfold is_byte; lia). rewrite join_bits; [done|lia..].
  - assert (Hp : 2 ^ (64 - 7 * i) * 2 ^ (7 * i) = 2 ^ 64)
      by (rewrite <- Z.pow_add_r by lia; f_equal; lia).
    assert (Hmul : forall c, 0 <= c < 2 ^ (64 - 7 * i) -> c * 2 ^ (7 * i) < 2 ^ 64).
    { intros c Hc. rewrite <- Hp. apply Z.mul_lt_mono_pos_r; lia. }
    assert (H7 : 2 ^ (64 - 7 * i) = 128 * 2 ^ (64 - 7 * (i + 1))).
    { change 128 with (2 ^ 7). rewrite <- Z.pow_add_r by lia. f_equal. lia. }
    assert (H7' : 2 ^ (7 * (i + 1)) = 128 * 2 ^ (7 * i)).
    { change 128 with (2 ^ 7). rewrite <- Z.pow_add_r by lia. f_equal. lia. }
    cbn [uleb64_loop]. change 127 with (2 ^ 7 - 1). rewrite land_mask, shiftr_div by lia.
    change (2 ^ 7) with 128. assert (Hc : 0 <= x mod 128 < 128) by lia.
    assert (Hcx : 0 <= x mod 128 <= x) by lia.
    destruct (Z.eqb_spec (x / 128) 0) as [E|E]; cbn [app unleb_loop length];
      rewrite (proj2 (Z.eqb_neq i 8)) by lia.
    + destruct (flag_clear _ Hc) as [-> ->]. cbn [negb].
      rewrite join_bits by (try apply Hmul; lia). f_equal. apply (f_equal2 pair); [lia|].
      replace (x mod 128) with x by lia. done.
    + destruct (flag_set _ Hc) as [-> ->]. cbn [negb].
      rewrite join_bits by (try apply Hmul; lia).
      replace (7 * i + 7) with (7 * (i + 1)) by lia. rewrite IH; try lia.
      * f_equal. apply (f_equal2 pair); [lia|]. rewrite H7'. nia.
      * rewrite H7'. nia.
Qed.

Lemma unuleb64_uleb64 x rest :
  0 <= x < 2 ^ 64 -> unleb_loop (take 9 (uleb64 x ++ rest)) 0 0 0 = Some (Z.of_nat (length (uleb64 x)), x).
Proof.
  intros Hx. pose proof (uleb64_loop_length 8 x) as Hl. unfold uleb64 in *.
  rewrite take_app_ge by lia.
  pose proof (unleb_loop_encoded (take (9 - length (uleb64_loop 8 x)) rest) 8 0 x 0) as E.
  change (7 * 0) with 0 in E. rewrite E; [|simpl; lia..]. do 2 f_equal. simpl. lia.
Qed.

(** [uleb64] writes between one and nine bytes, and [unuleb64] reads them back as the
    number and their count, whatever follows them. *)
Theorem uleb64_roundtrip x rest :
  0 <= x < 2 ^ 64 ->
  unuleb64 (uleb64 x ++ rest) = Some (Z.of_nat (length (uleb64 x)), x) /\
  (1 <= length (uleb64 x) <= 9)%nat /\ Forall is_byte (uleb64 x).
Proof.
  intros Hx. split_and!; [by apply unuleb64_uleb64|apply uleb64_loop_length..|].
  apply uleb64_loop_bytes. lia.
Qed.

(** * Zig-zag *)

Lemma bit_above a n : 0 <= a < 2 ^ 64 -> 64 <= n -> Z.testbit a n = false.
Proof. intros Ha Hn. rewrite <- (Z.mod_small a (2 ^ 64)) by lia. apply Z.mod_pow2_bits_high. lia. Qed.

(** Exclusive or with all ones is the complement. *)
Lemma lxor_minus_1 a : 0 <= a < 2 ^ 64 -> Z.lxor a (u64 (-1)) = 2 ^ 64 - 1 - a.
Proof.
  intros Ha. change (u64 (-1)) with (Z.ones 64). change (2 ^ 64 - 1) with (Z.ones 64).
  rewrite Z.sub_nocarry_ldiff.
  - apply Z.bits_inj'. intros n Hn. rewrite Z.ldiff_spec, Z.lxor_spec, Z.testbit_ones_nonneg by lia.
    destruct (Z.ltb_spec n 64); [by destruct (Z.testbit a n)|]. by rewrite bit_above.
  - apply Z.bits_inj'. intros n Hn. rewrite Z.ldiff_spec, Z.bits_0, Z.testbit_ones_nonneg by lia.
    destruct (Z.ltb_spec n 64); [by destruct (Z.testbit a n)|]. by rewrite bit_above.
Qed.

Lemma zigzag_eq x : - 2 ^ 63 <= x < 2 ^ 63 -> zigzag x = if x <? 0 then - 2 * x - 1 else 2 * x.
Proof.
  intros Hx. unfold zigzag. rewrite (shiftl_mul (u64 x) 1), (shiftr_div x 63) by lia.
  destruct (Z.ltb_spec x 0) as [H|H].
  - replace (x / 2 ^ 63) with (-1) by lia.
    replace (u64 (u64 x * 2 ^ 1)) with (2 * x + 2 ^ 64) by (unfold u64; lia).
    rewrite lxor_minus_1 by lia. lia.
  - replace (x / 2 ^ 63) with 0 by lia. change (u64 0) with 0. rewrite Z.lxor_0_r. unfold u64. lia.
Qed.

Lemma unzigzag_zigzag x :
  - 2 ^ 63 <= x < 2 ^ 63 -> unzigzag (zigzag x) = x /\ 0 <= zigzag x < 2 ^ 64.
Proof.
  intros Hx. rewrite zigzag_eq by done. unfold unzigzag.
  assert (E1 : forall t, Z.land t 1 = t mod 2) by (intros t; apply (land_mask t 1); lia).
  rewrite E1, shiftr_div by lia. change (2 ^ 1) with 2.
  destruct (Z.ltb_spec x 0) as [H|H]; (split; [|lia]).
  - replace ((-2 * x - 1) mod 2) with 1 by lia. change (- (1)) with (-1).
    rewrite lxor_minus_1 by lia. unfold s64. lia.
  - replace ((2 * x) mod 2) with 0 by lia. change (u64 (- 0)) with 0. rewrite Z.lxor_0_r.
    replace (2 * x / 2) with x by lia. apply s64_small. lia.
Qed.

(** [zleb64] and [unzleb64] round-trip every signed 64-bit integer, and a number of small
    magnitude takes few bytes whatever its sign: below 64 in magnitude, one. *)
Theorem zleb64_roundtrip x rest :
  - 2 ^ 63 <= x < 2 ^ 63 ->
  unzleb64 (zleb64 x ++ rest) = Some (Z.of_nat (length (zleb64 x)), x) /\
  (-64 <= x < 64 -> length (zleb64 x) = 1%nat).
Proof.
  intros Hx. destruct (unzigzag_zigzag x Hx) as [E Hr]. split.
  - unfold unzleb64, zleb64. rewrite unuleb64_uleb64 by done. simpl. by rewrite E.
  - intros Hs. unfold zleb64, uleb64. cbn [uleb64_loop]. rewrite shiftr_div by lia.
    rewrite zigzag_eq by lia. rewrite (proj2 (Z.eqb_eq _ _)); [done|]. case_if; bool_prop; lia.
Qed.

(** * Truncated input *)

Lemma unleb_loop_short i t p :
  0 <= i -> i + Z.of_nat (length p) <= 8 -> (forall b, b ∈ p -> 128 <= b < 256) ->
  unleb_loop p i (7 * i) t = None.
Proof.
  revert i t. induction p as [|b p IH]; intros i t Hi Hn Hb; [done|]. simpl in Hn. cbn [unleb_loop].
  rewrite (proj2 (Z.eqb_neq i 8)) by lia.
  assert (Hf : Z.land (Z.lnot b) 128 =? 0 = true).
  { specialize (Hb b ltac:(by constructor)).
    pose proof (byte_enum (fun b => (b <? 128) || (Z.land (Z.lnot b) 128 =? 0)) eq_refl b
      ltac:(unfold is_byte; lia)) as H. cbv beta in H. apply orb_true_iff in H as [H|H]; [bool_prop; lia|done]. }
  rewrite Hf. cbn [negb]. replace (7 * i + 7) with (7 * (i + 1)) by lia.
  apply IH; [lia..|]. intros b' Hb'. apply Hb. by constructor.
Qed.

Lemma uleb64_loop_prefix left x j :
  0 <= x -> (j < length (uleb64_loop left x))%nat ->
  forall b, b ∈ take j (uleb64_loop left x) -> 128 <= b < 256.
Proof.
  revert x j. induction left as [|left IH]; intros x j Hx Hj b Hb; simpl in *.
  - assert (j = 0%nat) as -> by lia. by apply not_elem_of_nil in Hb.
  - destruct (Z.eqb_spec (Z.shiftr x 7) 0) as [E|E]; simpl in Hj.
    + assert (j = 0%nat) as -> by lia. by apply not_elem_of_nil in Hb.
    + destruct j as [|j]; [by apply not_elem_of_nil in Hb|]. cbn [take] in Hb.
      apply elem_of_cons in Hb as [->|Hb].
      * assert (Hc : 0 <= Z.land x 127 < 128)
          by (change 127 with (2 ^ 7 - 1); rewrite land_mask by lia; lia).
        assert (Z.lor (Z.land x 127) 128 = Z.land x 127 + 128)
          by (apply (lor_add_disjoint (Z.land x 127) 1 7); lia). lia.
      * apply (IH (Z.shiftr x 7) j); [by apply Z.shiftr_nonneg|lia|done].
Qed.

(** A truncated encoding is refused with -1, never read as another number. *)
Theorem unuleb64_truncated x j :
  0 <= x < 2 ^ 64 -> (j < length (uleb64 x))%nat -> unuleb64 (take j (uleb64 x)) = None.
Proof.
  intros Hx Hj. pose proof (uleb64_loop_length 8 x) as Hl. unfold uleb64, unuleb64 in *.
  rewrite take_take. apply (unleb_loop_short 0 0); [lia| |].
  - rewrite length_take. lia.
  - apply uleb64_loop_prefix; [lia|]. lia.
Qed.

(** Both variable-length codings are prefix codes of at most nine bytes: what [uleb64] or
    [zleb64] writes for a 64-bit number is read back as that number, whatever follows it, by
    [unuleb64] or [unzleb64], which return the length of the code; numbers from -64 to 63 take
    one byte; and a code cut short is refused. *)
Theorem leb128_roundtrip rest :
  (forall x, 0 <= x < 2 ^ 64 ->
    unuleb64 (uleb64 x ++ rest) = Some (Z.of_nat (length (uleb64 x)), x) /\
    (1 <= length (uleb64 x) <= 9)%nat /\ Forall is_byte (uleb64 x) /\
    forall j, (j < length (uleb64 x))%nat -> unuleb64 (take j (uleb64 x)) = None) /\
  (forall x, - 2 ^ 63 <= x < 2 ^ 63 ->
    unzleb64 (zleb64 x ++ rest) = Some (Z.of_nat (length (zleb64 x)), x) /\
    (-64 <= x < 64 -> length (zleb64 x) = 1%nat)).
Proof.
  split; intros x Hx; [|by apply zleb64_roundtrip].
  destruct (uleb64_roundtrip x rest Hx) as (H1 & H2 & H3). split_and!; try done; [lia..|].
  intros j. by apply unuleb64_truncated.
Qed.

Lemma leb128_roundtrip_witness :
  unuleb64 (uleb64 (2 ^ 64 - 1) ++ [7]) = Some (9, 2 ^ 64 - 1) /\
  unuleb64 (take 5 (uleb64 (2 ^ 64 - 1))) = None /\
  unzleb64 (zleb64 (- 2 ^ 63) ++ [7]) = Some (9, - 2 ^ 63) /\ length (zleb64 (-64)) = 1%nat.
Proof.
  destruct (leb128_roundtrip [7]) as [Hu Hz].
  destruct (Hu (2 ^ 64 - 1)) as (H1 & _ & _ & H2); [lia|]. destruct (Hz (- 2 ^ 63)) as [H3 _]; [lia|].
  destruct (Hz (-64)) as [_ H4]; [lia|].
  split_and!; [exact H1|apply H2; vm_compute; lia|exact H3|apply H4; lia].
Defined.
