(* ===== verification/HttpFields.v ===== *)
(** Fields of HTTP headers: [net/http/parsehttprange.c], [parsecontentlength.c],
    [parsehttpmethod.c], [parseforwarded.c], [isacceptableport.c], [isvalidcookievalue.c],
    [isvalidhttptoken.c] and [ismimetype.c]. A field is the list of its bytes, of the length
    the caller passes. *)
From S2P Require Import Prelude Tables.

Definition isdigit (c : Z) : bool := (48 <=? c) && (c <=? 57).

(** C23 checked arithmetic on [long]: [None] is a true return value. *)
Definition ckd_long (exact : Z) : option Z :=
  if (- 2 ^ 63 <=? exact) && (exact <? 2 ^ 63) then Some exact else None.

(** * Range *)

(** [while (n && '0' <= *p && *p <= '9')]: the number and what follows it. *)
Fixpoint parse_digits (p : list Z) (acc : Z) : option (Z * list Z) :=
  match p with
  | [] => Some (acc, [])
  | c :: p' =>
    if isdigit c then
      acc ← ckd_long (acc * 10);
      acc ← ckd_long (acc + (c - 48));
      parse_digits p' acc
    else Some (acc, p)
  end.

(** The start, the length and the rest of the input before the checks. *)
Definition range_bounds (p : list Z) (resourcelength : Z) : option (Z * Z * list Z) :=
  match p with
  | 45 :: p =>
    '(length, p) ← parse_digits p 0;
    start ← ckd_long (resourcelength - length);
    Some (start, length, p)
  | _ =>
    '(start, p) ← parse_digits p 0;
    match p with
    | 45 :: p =>
      match p with
      | [] => Some (start, Z.max start resourcelength - start, [])
      | _ =>
        '(length, p) ← parse_digits p 0;
        length ← ckd_long (length + 1);
        length ← ckd_long (length - start);
        Some (start, length, p)
      end
    | _ =>
      length ← ckd_long (resourcelength - start);
      Some (start, length, p)
    end
  end.

(** [*out_start] and [*out_length] of a true result; [None] is false. *)
Definition ParseHttpRange (p : list Z) (resourcelength : Z) : option (Z * Z) :=
  if existsb (Z.eqb 44) p then None
  else if (Z.of_nat (length p) <? 7) || negb (bool_decide (take 6 p = ascii_codes "bytes="%string))
  then None
  else
    '(start, length, rest) ← range_bounds (drop 6 p) resourcelength;
    if negb (bool_decide (rest = [])) then None
    else if start <? 0 then None
    else if length <? 1 then None
    else if start >? resourcelength then None
    else
      ending ← ckd_long (start + length);
      Some (start, if ending >? resourcelength then resourcelength - start else length).

(** * Content-Length *)

(** The loop from index [i] on. *)
Fixpoint content_length_loop (s : list Z) (i : nat) (r : Z) : Z :=
  match s with
  | [] => r
  | c :: s' =>
    if (c =? 44) && (0 <? i)%nat then r
    else if negb (isdigit c) then -1
    else
      let r := s64 (s64 (r * 10) + (c - 48)) in
      if r >? 0x000000ffffffffff then -1 else content_length_loop s' (S i) r
  end.

Definition ParseContentLength (s : list Z) : Z :=
  match s with [] => -1 | _ => content_length_loop s 0 0 end.

(** * Method *)

Fixpoint method_loop (str : list Z) (s w : Z) : Z :=
  match str with
  | [] => w
  | b :: str' =>
    let c := tab kToUpper (Z.land b 255) in
    if tab kHttpToken c =? 0 then 0
    else if s =? 64 then 0
    else method_loop str' (s + 8) (Z.lor w (u64 (Z.shiftl c s)))
  end.

Definition ParseHttpMethod (str : list Z) : Z := method_loop str 0 0.

(** * Forwarded address *)

(** [memrchr(s, ',', n)]: the part after the last comma. *)
Fixpoint after_last_comma (s : list Z) : option (list Z) :=
  match s with
  | [] => None
  | c :: s' =>
    match after_last_comma s' with
    | Some r => Some r
    | None => if c =? 44 then Some s' else None
    end
  end.

(** The bytes of the address, the accumulators [t] and [x], and whether a colon ended it;
    the loop runs at least once, so an empty rest reads past the end ([None] outside). *)
Fixpoint forwarded_ip (s : list Z) (t x : Z) : option (Z * Z * option (list Z)) :=
  match s with
  | [] => Some (t, x, None)
  | c :: s' =>
    if isdigit c then
      let t := t * 10 + (c - 48) in
      if t >? 255 then None else forwarded_ip s' t x
    else if c =? 46 then forwarded_ip s' 0 (Z.lor (u32 (Z.shiftl x 8)) t)
    else if c =? 58 then Some (t, x, Some s')
    else None
  end.

Fixpoint forwarded_port (s : list Z) (t : Z) : option Z :=
  match s with
  | [] => Some t
  | c :: s' =>
    if isdigit c then
      let t := t * 10 + (c - 48) in
      if t >? 65535 then None else forwarded_port s' t
    else None
  end.

Inductive forwarded :=
| Overread (* a byte at or past [n] is read *)
| Refused
| Forwarded (ip port : Z).

Definition ParseForwarded (s : list Z) : forwarded :=
  match s with
  | [] => Refused
  | _ =>
    let rest :=
      match after_last_comma s with
      | Some (c :: r) => Some (if c =? SP then r else c :: r)
      | Some [] => None (* [s[++i]] is [s[n]] *)
      | None => Some s
      end in
    match rest with
    | None | Some [] => Overread
    | Some r =>
      match forwarded_ip r 0 0 with
      | None => Refused
      | Some (t, x, port) =>
        let ip := Z.lor (u32 (Z.shiftl x 8)) t in
        match port with
        | None => Forwarded ip 0
        | Some r' =>
          match forwarded_port r' 0 with
          | None => Refused
          | Some p => Forwarded ip p
          end
        end
      end
    end
  end.

(** * Predicates *)

Fixpoint port_loop (s : list Z) (p : Z) : bool :=
  match s with
  | [] => true
  | c :: s' =>
    if isdigit c then
      let p := p * 10 + (c - 48) in
      if p >? 65535 then false else port_loop s' p
    else false
  end.

Definition IsAcceptablePort (s : list Z) : bool := port_loop s 0.

Definition IsCookieOctet (i : Z) : bool :=
  (i >? 0x20) && (i <? 0x7F) && negb (i =? 44) && negb (i =? 59) && negb (i =? 92) &&
  negb (i =? 32) && negb (i =? 34).

Definition IsValidCookieValue (s : list Z) : bool := forallb IsCookieOctet s.

Definition IsValidHttpToken (s : list Z) : bool :=
  match s with
  | [] => false
  | _ => forallb (fun c => negb (tab kHttpToken (Z.land c 0xff) =? 0)) s
  end.

(** [t] is the content type, [s] the name it is compared with, without its terminator. *)
Fixpoint IsMimeType (t s : list Z) : bool :=
  match t with
  | [] => match s with [] => true | _ => false end
  | c :: t' =>
    match s with
    | [] => tab kHttpToken (Z.land c 0xFF) =? 0
    | d :: s' =>
      if tab kToLower (Z.land d 0xFF) =? tab kToLower (Z.land c 0xFF) then IsMimeType t' s'
      else false
    end
  end.

(** * Examples *)

Local Abbreviation str s := (ascii_codes s%string).

Example range_samples :
  (ParseHttpRange (str "bytes=0-499") 1000, ParseHttpRange (str "bytes=-500") 1000,
   ParseHttpRange (str "bytes=900-1999") 1000, ParseHttpRange (str "bytes=0-0,-1") 1000)
  = (Some (0, 500), Some (500, 500), Some (900, 100), None).
Proof. reflexivity. Qed.

Example forwarded_sample :
  ParseForwarded (str "203.0.110.2, 203.0.113.42:31337") = Forwarded 0xcb00712a 31337.
Proof. reflexivity. Qed.

Example mime_samples :
  (IsMimeType (str "Text/Plain; charset=utf-8") (str "text/plain"),
   IsMimeType (str "text/plaintext") (str "text/plain")) = (true, false).
Proof. reflexivity. Qed.
