(* ===== verification/HttpFieldsFacts.v ===== *)
(** Correctness of the header fields of [HttpFields.v]: ranges stay inside the resource and
    mean what their three forms say, lengths and ports are bounded decimal numbers, a method
    is the word the message parser builds, and a forwarded address is the last of the list. *)
From stdpp Require Import sets.
From S2P Require Import Prelude Tables HttpFields HttpMessageFacts.

(** * Decimal numbers *)

Definition digits (ds : list Z) : Prop := Forall (fun c => 48 <= c <= 57) ds.

#[export] Instance digits_dec ds : Decision (digits ds).
Proof. unfold digits. apply _. Defined.

Definition dec_from (acc : Z) (ds : list Z) : Z := foldl (fun a c => a * 10 + (c - 48)) acc ds.
Definition dec (ds : list Z) : Z := dec_from 0 ds.

Lemma dec_from_cons acc c ds : dec_from acc (c :: ds) = dec_from (acc * 10 + (c - 48)) ds.
Proof. done. Qed.

Lemma dec_from_ge acc ds : 0 <= acc -> digits ds -> acc <= dec_from acc ds.
Proof.
  intros Ha Hd. revert acc Ha. induction Hd as [|c ds Hc Hd IH]; intros acc Ha; [done|].
  rewrite dec_from_cons. specialize (IH (acc * 10 + (c - 48)) ltac:(lia)). lia.
Qed.

Lemma dec_nonneg ds : digits ds -> 0 <= dec ds.
Proof. intros. by apply dec_from_ge. Qed.

Lemma isdigit_true c : 48 <= c <= 57 -> isdigit c = true.
Proof. intros. unfold isdigit. apply andb_true_iff. rewrite !Z.leb_le. lia. Qed.

Lemma isdigit_spec c : isdigit c = true <-> 48 <= c <= 57.
Proof. unfold isdigit. rewrite andb_true_iff, !Z.leb_le. lia. Qed.

Lemma ckd_long_spec z : - 2 ^ 63 <= z < 2 ^ 63 -> ckd_long z = Some z.
Proof. intros. unfold ckd_long. by rewrite (proj2 (Z.leb_le _ _)), (proj2 (Z.ltb_lt _ _)) by lia. Qed.

Lemma ckd_long_Some z v : ckd_long z = Some v -> v = z /\ - 2 ^ 63 <= z < 2 ^ 63.
Proof. unfold ckd_long. case_if; [|done]. bool_prop. intros [= <-]. lia. Qed.

(** A rest that a number cannot continue into. *)
Definition stops (rest : list Z) : Prop := forall c r, rest = c :: r -> isdigit c = false.

Lemma parse_digits_spec ds rest acc :
  digits ds -> stops rest -> 0 <= acc -> dec_from acc ds < 2 ^ 63 ->
  parse_digits (ds ++ rest) acc = Some (dec_from acc ds, rest).
Proof.
  intros Hd Hr. revert acc. induction Hd as [|c ds Hc Hd IH]; intros acc Ha Hlt; cbn [app parse_digits].
  - destruct rest as [|c rest]; [done|]. cbn [parse_digits]. by rewrite (Hr c rest eq_refl).
  - rewrite isdigit_true by lia. rewrite dec_from_cons in *.
    pose proof (dec_from_ge (acc * 10 + (c - 48)) ds ltac:(lia) Hd) as Hge.
    rewrite ckd_long_spec by lia. cbn [mbind option_bind]. rewrite ckd_long_spec by lia.
    cbn [mbind option_bind]. apply IH; [lia|done].
Qed.

Lemma parse_digits_range p acc v rest :
  0 <= acc < 2 ^ 63 -> parse_digits p acc = Some (v, rest) -> 0 <= v < 2 ^ 63.
Proof.
  revert acc. induction p as [|c p IH]; intros acc Ha; simpl; [by intros [= <- <-]|].
  destruct (isdigit c) eqn:Hc; [|by intros [= <- <-]]. apply isdigit_spec in Hc.
  destruct (ckd_long (acc * 10)) as [a1|] eqn:E1; [|done]. apply ckd_long_Some in E1 as [-> _].
  simpl. destruct (ckd_long (acc * 10 + (c - 48))) as [a2|] eqn:E2; [|done].
  apply ckd_long_Some in E2 as [-> ?]. simpl. apply IH. lia.
Qed.

(** * Range *)

(** Whatever the header says, a range [ParseHttpRange] accepts lies inside the resource,
    and it is empty only at its very end. *)
Theorem ParseHttpRange_inside p R start length :
  0 <= R < 2 ^ 63 -> ParseHttpRange p R = Some (start, length) ->
  0 <= start /\ 0 <= length /\ start + length <= R /\ (length = 0 -> start = R).
Proof.
  intros HR. unfold ParseHttpRange. case_if; [done|]. case_if; [done|].
  destruct (range_bounds (drop 6 p) R) as [[[s l] rest]|]; [|done]. simpl.
  repeat (case_if; [done|]). bool_prop.
  destruct (ckd_long (s + l)) as [e|] eqn:Ee; [|done]. apply ckd_long_Some in Ee as [-> He]. simpl.
  intros [= <- <-]. rewrite Z.gtb_ltb in *. case_if; bool_prop; lia.
Qed.

Local Abbreviation str s := (ascii_codes s%string).

Lemma ParseHttpRange_inside_witness :
  0 <= 900 /\ 0 <= 100 /\ 900 + 100 <= 1000 /\ (100 = 0 -> 900 = 1000).
Proof. apply (ParseHttpRange_inside (str "bytes=900-1999") 1000 900 100); [lia|reflexivity]. Defined.

Lemma digits_no_comma ds : digits ds -> existsb (Z.eqb 44) ds = false.
Proof. induction 1 as [|c ds Hc Hd IH]; [done|]. cbn [existsb]. rewrite IH, orb_false_r. apply Z.eqb_neq. lia. Qed.

(** The checks in front of a range whose body is made of digits and dashes. *)
Lemma range_body body R :
  (0 < length body)%nat -> existsb (Z.eqb 44) body = false ->
  ParseHttpRange (str "bytes=" ++ body) R =
    '(start, length, rest) ← range_bounds body R;
    if negb (bool_decide (rest = [])) then None
    else if start <? 0 then None
    else if length <? 1 then None
    else if start >? R then None
    else
      ending ← ckd_long (start + length);
      Some (start, if ending >? R then R - start else length).
Proof.
  intros Hb Hc. unfold ParseHttpRange. rewrite existsb_app, Hc.
  replace (existsb (Z.eqb 44) (str "bytes=")) with false by done. cbn [orb].
  rewrite (proj2 (Z.ltb_ge _ _)) by (rewrite length_app; simpl; lia).
  rewrite take_app_length', drop_app_length' by done. rewrite bool_decide_true by done. done.
Qed.

(** Simplifies the tests that [lia] decides. *)
Ltac decide_tests :=
  repeat match goal with
  | |- context [?a <? ?b] =>
      first [rewrite (proj2 (Z.ltb_lt a b)) by lia | rewrite (proj2 (Z.ltb_ge a b)) by lia]
  | |- context [?a >? ?b] => rewrite (Z.gtb_ltb a b)
  | |- context [?a <=? ?b] =>
      first [rewrite (proj2 (Z.leb_le a b)) by lia | rewrite (proj2 (Z.leb_gt a b)) by lia]
  end.

(** The side conditions of [range_body]. *)
Ltac body_ok :=
  lazymatch goal with
  | |- existsb _ _ = false => rewrite ?existsb_app;
      repeat match goal with
      | H : digits ?d |- context [existsb _ ?d] => rewrite (digits_no_comma d H)
      end; reflexivity
  | |- _ => rewrite ?length_app; simpl; lia
  end.

Lemma stops_dash rest : stops (45 :: rest).
Proof. by intros c r [= <- <-]. Qed.
Lemma stops_nil : stops [].
Proof. by intros c r. Qed.

(** The first byte of a number is not a dash. *)
Lemma range_bounds_number ds rest R :
  digits ds -> (0 < length ds)%nat -> stops rest -> dec ds < 2 ^ 63 ->
  range_bounds (ds ++ rest) R =
    match rest with
    | 45 :: p =>
      match p with
      | [] => Some (dec ds, Z.max (dec ds) R - dec ds, [])
      | _ =>
        '(length, p) ← parse_digits p 0;
        length ← ckd_long (length + 1);
        length ← ckd_long (length - dec ds);
        Some (dec ds, length, p)
      end
    | _ =>
      length ← ckd_long (R - dec ds);
      Some (dec ds, length, rest)
    end.
Proof.
  intros Hd Hl Hr Hlt. pose proof (parse_digits_spec ds rest 0 Hd Hr ltac:(lia) Hlt) as E.
  destruct ds as [|c ds]; [simpl in Hl; lia|]. apply Forall_cons_1 in Hd as [Hc Hd].
  cbn [app] in *. unfold range_bounds.
  assert (Hm : forall A (a b : A), match c with 45 => a | _ => b end = b).
  { intros A a b. assert (c <> 45) by lia. destruct c as [|q|q]; try done.
    do 6 (destruct q as [q|q|]; try done). }
  rewrite Hm, E. done.
Qed.

(** The three forms of a range. [bytes=a-b] is the bytes from [a] through [b], cut at the
    end of the resource; [bytes=a-] runs to the end; [bytes=-b] is the last [b] bytes; an
    unsatisfiable one is refused. *)
Theorem ParseHttpRange_forms ds es R :
  digits ds -> digits es -> (0 < length ds)%nat -> (0 < length es)%nat ->
  dec ds < 2 ^ 63 - 1 -> dec es < 2 ^ 63 - 1 -> 0 <= R < 2 ^ 63 ->
  let a := dec ds in let b := dec es in
  ParseHttpRange (str "bytes=" ++ ds ++ [45] ++ es) R =
    (if (a <=? b) && (a <=? R) then Some (a, Z.min (b + 1) R - a) else None) /\
  ParseHttpRange (str "bytes=" ++ ds ++ [45]) R =
    (if a <? R then Some (a, R - a) else None) /\
  ParseHttpRange (str "bytes=" ++ [45] ++ es) R =
    (if (1 <=? b) && (b <=? R) then Some (R - b, b) else None).
Proof.
  intros Hd He Hld Hle Hda Heb HR a b. pose proof (dec_nonneg ds Hd) as Ha.
  pose proof (dec_nonneg es He) as Hb. assert (Hd63 : dec ds < 2 ^ 63) by lia.
  assert (He63 : dec_from 0 es < 2 ^ 63) by (unfold dec in Heb; lia).
  fold a in Hda, Ha. fold b in Heb, Hb. split_and!.
  - rewrite range_body by body_ok.
    cbn [app]. rewrite range_bounds_number by auto using stops_dash. cbn [app]. fold a.
    pose proof (parse_digits_spec es [] 0 He stops_nil ltac:(lia) He63) as E.
    rewrite app_nil_r in E. destruct es as [|e es]; [simpl in Hle; lia|]. rewrite E.
    cbn [mbind option_bind]. fold (dec (e :: es)). fold b.
    rewrite ckd_long_spec by lia. cbn [mbind option_bind]. rewrite ckd_long_spec by lia.
    cbn [mbind option_bind]. rewrite bool_decide_true by done. cbn [negb].
    destruct (Z.leb_spec a b); cbn [andb]; decide_tests; [|done].
    destruct (Z.leb_spec a R); decide_tests; [|done]. rewrite ckd_long_spec by lia.
    cbn [mbind option_bind]. do 2 f_equal. rewrite Z.gtb_ltb. case_if; bool_prop; lia.
  - rewrite range_body by body_ok.
    cbn [app]. rewrite range_bounds_number by auto using stops_dash. fold a.
    cbn [mbind option_bind]. rewrite bool_decide_true by done. cbn [negb].
    destruct (Z.ltb_spec a R); decide_tests; [|done]. rewrite ckd_long_spec by lia.
    cbn [mbind option_bind]. do 2 f_equal. rewrite Z.gtb_ltb. case_if; bool_prop; lia.
  - rewrite range_body by body_ok.
    unfold range_bounds. cbn [app].
    pose proof (parse_digits_spec es [] 0 He stops_nil ltac:(lia) He63) as E.
    rewrite app_nil_r in E. rewrite E. cbn [mbind option_bind]. fold (dec es). fold b.
    rewrite ckd_long_spec by lia. cbn [mbind option_bind]. rewrite bool_decide_true by done. cbn [negb].
    destruct (Z.leb_spec 1 b), (Z.leb_spec b R); cbn [andb]; decide_tests; try done.
    rewrite ckd_long_spec by lia. cbn [mbind option_bind]. do 2 f_equal. rewrite Z.gtb_ltb.
    case_if; bool_prop; lia.
Qed.

Lemma ParseHttpRange_forms_witness :
  ParseHttpRange (str "bytes=" ++ str "500" ++ [45] ++ str "999") 600 = Some (500, 100).
Proof.
  refine (proj1 (ParseHttpRange_forms (str "500") (str "999") 600 _ _ _ _ _ _ _));
    [apply (bool_decide_unpack _); exact I|apply (bool_decide_unpack _); exact I|
     simpl; lia|simpl; lia|reflexivity|reflexivity|lia].
Defined.

(** * Content-Length *)

Definition length_limit : Z := 0x000000ffffffffff.

Lemma content_length_digits s tail i r :
  digits s -> 0 <= r <= length_limit ->
  (tail = [] \/ exists t, tail = 44 :: t /\ (0 < i + length s)%nat) ->
  content_length_loop (s ++ tail) i r = if dec_from r s <=? length_limit then dec_from r s else -1.
Proof.
  unfold length_limit. intros Hs. revert i r. induction Hs as [|c s Hc Hs IH]; intros i r Hr Ht.
  - cbn [app]. unfold dec_from. simpl foldl. decide_tests.
    destruct Ht as [->|(t & -> & Hi)]; [done|]. cbn [content_length_loop].
    rewrite Z.eqb_refl, (proj2 (Nat.ltb_lt 0 i)) by (simpl in Hi; lia). done.
  - cbn [app content_length_loop]. rewrite (proj2 (Z.eqb_neq c 44)), isdigit_true by lia. cbn [andb negb].
    rewrite (s64_small (r * 10)), s64_small by lia. rewrite dec_from_cons.
    pose proof (dec_from_ge (r * 10 + (c - 48)) s ltac:(lia) Hs).
    rewrite Z.gtb_ltb. destruct (Z.ltb_spec 0xffffffffff (r * 10 + (c - 48))); decide_tests; [done|].
    apply IH; [lia|]. destruct Ht as [->|(t & -> & Hi)]; [by left|]. right. exists t. simpl in Hi.
    split; [done|lia].
Qed.

(** [ParseContentLength] reads a decimal number below 2^40, ignoring what follows a
    comma, and refuses a larger one; every other result it gives is also below 2^40 or -1. *)
Theorem ParseContentLength_value s tail :
  digits s -> (0 < length s)%nat -> (tail = [] \/ exists t, tail = 44 :: t) ->
  ParseContentLength (s ++ tail) = if dec s <=? length_limit then dec s else -1.
Proof.
  intros Hs Hl Ht. unfold ParseContentLength. destruct (s ++ tail) as [|c l] eqn:E.
  { destruct s; simpl in *; [lia|done]. }
  rewrite <- E. apply content_length_digits; [done|unfold length_limit; lia|].
  destruct Ht as [->|[t ->]]; [by left|]. right. exists t. split; [done|lia].
Qed.

Lemma ParseContentLength_witness :
  ParseContentLength (str "1048576" ++ str ", 7") = 1048576.
Proof.
  apply (ParseContentLength_value (str "1048576") (str ", 7"));
    [apply (bool_decide_unpack _); exact I|simpl; lia|right; eexists; reflexivity].
Defined.

Lemma content_length_range s i r :
  0 <= r <= length_limit -> content_length_loop s i r = -1 \/ 0 <= content_length_loop s i r <= length_limit.
Proof.
  unfold length_limit. revert i r. induction s as [|c s IH]; intros i r Hr; cbn [content_length_loop]; [by right|].
  case_if; [by right|]. destruct (isdigit c) eqn:Ed; cbn [negb]; [|by left].
  apply isdigit_spec in Ed. rewrite (s64_small (r * 10)), s64_small by lia. rewrite Z.gtb_ltb.
  case_if; [by left|]. bool_prop. apply IH. lia.
Qed.

Lemma ParseContentLength_range s :
  ParseContentLength s = -1 \/ 0 <= ParseContentLength s <= length_limit.
Proof.
  unfold ParseContentLength. destruct s; [by left|]. apply content_length_range. unfold length_limit. lia.
Qed.

(** * Method *)

Definition tokenish_upper (c : Z) : Prop := is_byte c /\ tab kHttpToken (tab kToUpper c) <> 0.

Lemma method_loop_word m j w :
  Forall tokenish_upper m -> (j + length m <= 8)%nat -> 0 <= w < 2 ^ (8 * Z.of_nat j) ->
  method_loop m (8 * Z.of_nat j) w = w + method_word m * 2 ^ (8 * Z.of_nat j).
Proof.
  intros Hm. revert j w. induction Hm as [|c m [Hb Hc] Hm IH]; intros j w Hj Hw;
    cbn [method_loop method_word length] in *; [lia|].
  rewrite byte_land, (proj2 (Z.eqb_neq _ 0)) by done. rewrite (proj2 (Z.eqb_neq _ 64)) by lia.
  pose proof (upper_byte c Hb) as Hu.
  assert (Hp : 2 ^ (8 * Z.of_nat (S j)) = 256 * 2 ^ (8 * Z.of_nat j)).
  { change 256 with (2 ^ 8). rewrite <- Z.pow_add_r by lia. f_equal. lia. }
  assert (Hp8 : 2 ^ (8 * Z.of_nat j) <= 2 ^ 56) by (apply Z.pow_le_mono_r; lia).
  rewrite (u64_small (Z.shiftl _ _)) by (rewrite shiftl_mul by lia; nia).
  rewrite lor_shiftl_add by lia. replace (8 * Z.of_nat j + 8) with (8 * Z.of_nat (S j)) by lia.
  rewrite IH; [|lia|rewrite Hp; nia]. rewrite Hp. ring.
Qed.

Lemma method_loop_long m j w :
  Forall tokenish_upper m -> (j <= 8)%nat -> (8 < j + length m)%nat ->
  method_loop m (8 * Z.of_nat j) w = 0.
Proof.
  intros Hm. revert j w. induction Hm as [|c m [Hb Hc] Hm IH]; intros j w Hj Hl;
    cbn [method_loop length] in *; [lia|].
  rewrite byte_land, (proj2 (Z.eqb_neq _ 0)) by done.
  destruct (Z.eqb_spec (8 * Z.of_nat j) 64); [done|].
  replace (8 * Z.of_nat j + 8) with (8 * Z.of_nat (S j)) by lia. apply IH; lia.
Qed.

(** For a token of at most eight letters [ParseHttpMethod] returns the word the message
    parser stores for the same method, and zero for a longer one. *)
Theorem ParseHttpMethod_word m :
  Forall tokenish_upper m ->
  ParseHttpMethod m = if decide (length m <= 8)%nat then method_word m else 0.
Proof.
  intros Hm. unfold ParseHttpMethod. case_decide.
  - pose proof (method_loop_word m 0 0 Hm) as E. change (8 * Z.of_nat 0) with 0 in E.
    rewrite E by (simpl; lia). simpl. lia.
  - apply (method_loop_long m 0 0); [done|lia..].
Qed.

(** * Forwarded addresses *)

Lemma forwarded_digits ds rest t x :
  digits ds -> 0 <= t -> dec_from t ds <= 255 ->
  forwarded_ip (ds ++ rest) t x = forwarded_ip rest (dec_from t ds) x.
Proof.
  intros Hd. revert t. induction Hd as [|c ds Hc Hd IH]; intros t Ht Hle; [done|].
  rewrite dec_from_cons in *. pose proof (dec_from_ge (t * 10 + (c - 48)) ds ltac:(lia) Hd).
  cbn [app forwarded_ip]. rewrite isdigit_true by lia. decide_tests. apply IH; lia.
Qed.

Lemma forwarded_port_digits ds t :
  digits ds -> 0 <= t -> dec_from t ds <= 65535 -> forwarded_port ds t = Some (dec_from t ds).
Proof.
  intros Hd. revert t. induction Hd as [|c ds Hc Hd IH]; intros t Ht Hle; [done|].
  rewrite dec_from_cons in *. pose proof (dec_from_ge (t * 10 + (c - 48)) ds ltac:(lia) Hd).
  cbn [forwarded_port]. rewrite isdigit_true by lia. decide_tests. apply IH; lia.
Qed.

Lemma after_last_comma_app s r :
  existsb (Z.eqb 44) r = false -> after_last_comma (s ++ 44 :: r) = Some r.
Proof.
  intros Hr.
  assert (Hn : after_last_comma r = None).
  { clear s. induction r as [|c r IH]; [done|]. cbn [existsb] in Hr. apply orb_false_iff in Hr as [Hc Hr].
    cbn [after_last_comma]. rewrite IH by done. by rewrite Z.eqb_sym, Hc. }
  induction s as [|c s IH]; cbn [app after_last_comma]; [by rewrite Hn|by rewrite IH].
Qed.

(** The big-endian word of four octets. *)
Definition octets (a b c d : Z) : Z := a * 2 ^ 24 + b * 2 ^ 16 + c * 2 ^ 8 + d.

Lemma push_octet x t : 0 <= x < 2 ^ 24 -> 0 <= t < 256 -> Z.lor (u32 (Z.shiftl x 8)) t = x * 256 + t.
Proof.
  intros Hx Ht. rewrite shiftl_mul, u32_small by lia. change (2 ^ 8) with 256.
  rewrite Z.lor_comm. change 256 with (2 ^ 8). rewrite lor_add_disjoint by lia. lia.
Qed.

Lemma forwarded_dot rest t x :
  forwarded_ip (46 :: rest) t x = forwarded_ip rest 0 (Z.lor (u32 (Z.shiftl x 8)) t).
Proof. done. Qed.

Lemma forwarded_colon rest t x : forwarded_ip (58 :: rest) t x = Some (t, x, Some rest).
Proof. done. Qed.

Definition dotted (a b c d : list Z) : list Z := a ++ 46 :: b ++ 46 :: c ++ 46 :: d.

Definition octet (ds : list Z) : Prop := digits ds /\ dec ds <= 255.

Lemma forwarded_dotted a b c d rest :
  octet a -> octet b -> octet c -> octet d ->
  forwarded_ip (dotted a b c d ++ rest) 0 0
  = forwarded_ip rest (dec d) (dec a * 65536 + dec b * 256 + dec c).
Proof.
  intros [Ha Ha'] [Hb Hb'] [Hc Hc'] [Hd Hd']. unfold dotted.
  pose proof (dec_nonneg a Ha). pose proof (dec_nonneg b Hb). pose proof (dec_nonneg c Hc).
  rewrite <- !app_assoc. cbn [app]. rewrite <- !app_assoc. cbn [app]. rewrite <- !app_assoc. cbn [app].
  unfold dec in *. do 3 rewrite forwarded_digits, forwarded_dot, push_octet by (done || lia).
  rewrite forwarded_digits by (done || lia). f_equal. lia.
Qed.

(** In a list of forwarded addresses [ParseForwarded] takes the last one, with or without
    the space before it, as four octets and an optional port. *)
Theorem ParseForwarded_last pre space a b c d port :
  octet a -> octet b -> octet c -> octet d -> (0 < length a)%nat -> digits port -> dec port <= 65535 ->
  let addr := dotted a b c d in
  let ip := octets (dec a) (dec b) (dec c) (dec d) in
  ParseForwarded (pre ++ 44 :: (if (space : bool) then [SP] else []) ++ addr ++ 58 :: port)
    = Forwarded ip (dec port) /\
  ParseForwarded (pre ++ 44 :: (if space then [SP] else []) ++ addr) = Forwarded ip 0.
Proof.
  intros Ha Hb Hc Hd Hla Hp Hp' addr ip.
  assert (Hno : forall tail, existsb (Z.eqb 44) tail = false ->
    existsb (Z.eqb 44) ((if space then [SP] else []) ++ addr ++ tail) = false).
  { intros tail Ht. unfold addr, dotted. rewrite !existsb_app. cbn [existsb].
    rewrite !existsb_app. cbn [existsb]. rewrite !existsb_app. cbn [existsb].
    rewrite (digits_no_comma a), (digits_no_comma b), (digits_no_comma c), (digits_no_comma d), Ht
      by (apply Ha || apply Hb || apply Hc || apply Hd). by destruct space. }
  assert (Hrun : forall tail, existsb (Z.eqb 44) tail = false ->
    ParseForwarded (pre ++ 44 :: (if space then [SP] else []) ++ addr ++ tail)
    = match forwarded_ip tail (dec d) (dec a * 65536 + dec b * 256 + dec c) with
      | None => Refused
      | Some (t, x, port) =>
        let ip := Z.lor (u32 (Z.shiftl x 8)) t in
        match port with
        | None => Forwarded ip 0
        | Some r' => match forwarded_port r' 0 with None => Refused | Some p => Forwarded ip p end
        end
      end).
  { intros tail Ht. unfold ParseForwarded. destruct (pre ++ _) as [|c0 l] eqn:E; [by destruct pre|].
    rewrite <- E, after_last_comma_app by auto. clear E c0 l.
    destruct a as [|a0 a]; [simpl in Hla; lia|]. pose proof Ha as [[Ha0 _]%Forall_cons_1 _].
    unfold addr.
    replace (match (if space then [SP] else []) ++ dotted (a0 :: a) b c d ++ tail with
             | [] => None | c1 :: r => Some (if c1 =? SP then r else c1 :: r) end)
      with (Some (dotted (a0 :: a) b c d ++ tail)).
    - cbn [dotted app]. rewrite <- (forwarded_dotted (a0 :: a) b c d tail) by done. done.
    - destruct space; [done|]. cbn [dotted app]. by rewrite (proj2 (Z.eqb_neq a0 SP)) by lia. }
  assert (Hip : Z.lor (u32 (Z.shiftl (dec a * 65536 + dec b * 256 + dec c) 8)) (dec d) = ip).
  { destruct Ha as [Ha Ha'], Hb as [Hb Hb'], Hc as [Hc Hc'], Hd as [Hd Hd'].
    pose proof (dec_nonneg a Ha). pose proof (dec_nonneg b Hb). pose proof (dec_nonneg c Hc).
    pose proof (dec_nonneg d Hd). rewrite push_octet by lia. unfold ip, octets. lia. }
  split.
  - rewrite Hrun by (cbn [existsb]; rewrite digits_no_comma; done). rewrite forwarded_colon. cbv zeta.
    rewrite forwarded_port_digits, Hip by (done || lia). done.
  - pose proof (Hrun [] eq_refl) as E. rewrite app_nil_r in E. rewrite E. cbn [forwarded_ip]. by rewrite Hip.
Qed.

Lemma ParseForwarded_witness :
  ParseForwarded (str "10.0.0.1, 203.0.113.42:31337") = Forwarded 0xcb00712a 31337.
Proof.
  refine (proj1 (ParseForwarded_last (str "10.0.0.1") true (str "203") (str "0") (str "113") (str "42")
    (str "31337") _ _ _ _ _ _ _));
    try (apply (bool_decide_unpack _); exact I); try (vm_compute; lia);
    try (split; [apply (bool_decide_unpack _); exact I|vm_compute; discriminate]).
Defined.

(** A header that ends with a comma reads the byte past the end of the field. *)
Theorem ParseForwarded_overreads : ParseForwarded (str "1.2.3.4,") = Overread.
Proof. reflexivity. Qed.

(** The number of octets is not checked: the first of five is shifted out. *)
Theorem ParseForwarded_five_octets :
  ParseForwarded (str "9.1.2.3.4") = ParseForwarded (str "1.2.3.4").
Proof. reflexivity. Qed.
