(* ===== verification/Ip.v ===== *)
(** IPv4 addresses: [net/http/parseip.c], [parsecidr.c], [categorizeip.c] and the predicates
    it calls ([ismulticastip.c], [isanonymousip.c], [istestnetip.c], the registries), with
    [isloopbackip.c], [isprivateip.c] and [ispublicip.c] of [libc/intrin] and
    [iscloudflare.c]. An address is its host-order [uint32_t]; a string is the list of its
    bytes. The theorems after the definitions: both notations of an address are read as the same
    word, a network keeps its address and its bits, and the categories agree with the predicate
    for public addresses. *)
From S2P Require Import Prelude HttpFields HttpFieldsFacts HttpNames.

(** * Parsing *)

(** C23 checked arithmetic on [unsigned]. *)
Definition ckd_unsigned (exact : Z) : option Z :=
  if (0 <=? exact) && (exact <? 2 ^ 32) then Some exact else None.

(** The loop over the characters; [None] is the return value -1. *)
Fixpoint parse_ip_loop (s : list Z) (b x : Z) (dotted : bool) : option (Z * Z) :=
  match s with
  | [] => Some (b, x)
  | c :: s' =>
    if isdigit c then
      b ← ckd_unsigned (b * 10);
      b ← ckd_unsigned (b + (c - 48));
      if (b >? 255) && dotted then None else parse_ip_loop s' b x dotted
    else if c =? 46 then
      if b >? 255 then None
      else parse_ip_loop s' 0 (Z.lor (u32 (Z.shiftl x 8)) b) true
    else None
  end.

Definition ParseIp (s : list Z) : Z :=
  match s with
  | [] => -1
  | _ =>
    match parse_ip_loop s 0 0 false with
    | None => -1
    | Some (b, x) => Z.lor (u32 (Z.shiftl x 8)) b
    end
  end.

Record Cidr := MkCidr { addr : Z; cidr : Z }.

(** [strchr(s, '/')]: the index of the first slash. *)
Fixpoint find_slash (s : list Z) (i : nat) : option nat :=
  match s with
  | [] => None
  | c :: s' => if c =? 47 then Some i else find_slash s' (S i)
  end.

Fixpoint cidr_loop (s : list Z) (c : Z) : Z :=
  match s with
  | [] => c
  | d :: s' =>
    if isdigit d then
      let c := c * 10 + (d - 48) in
      if c >? 32 then -1 else cidr_loop s' c
    else -1
  end.

(** [s] is the whole C string, [n] the length the caller passes, at most [strlen(s)]. *)
Definition ParseCidr (s : list Z) (n : nat) : Cidr :=
  match find_slash s 0 with
  | Some i =>
    let a := ParseIp (take i s) in
    if a =? -1 then MkCidr a 0
    else
      let c := cidr_loop (drop (S i) (take n s)) 0 in
      MkCidr (if c <=? 0 then -1 else a) c
  | None => MkCidr (ParseIp (take n s)) 32
  end.

(** * Predicates *)

(** [(x & 0xff000000) >> 24]. *)
Definition octet1 (x : Z) : Z := Z.shiftr (Z.land x 0xff000000) 24.

Definition IsLoopbackIp (x : Z) : bool := Z.shiftr x 24 =? 127.

Definition IsPrivateIp (x : Z) : bool :=
  (Z.shiftr x 24 =? 10) || (Z.land x 0xfff00000 =? 0xac100000) || (Z.land x 0xffff0000 =? 0xc0a80000).

Definition IsMulticastIp (x : Z) : bool := Z.shiftr x 28 =? 0xE.

Definition IsPublicIp (x : Z) : bool :=
  negb (
  (Z.land x 0xffffffff =? 0x0) || (Z.land x 0xff000000 =? 0x0) ||
  (Z.land x 0xff000000 =? 0xa000000) || (Z.land x 0xff000000 =? 0x7f000000) ||
  (Z.land x 0xfff00000 =? 0xac100000) || (Z.land x 0xffffff00 =? 0xc0000000) ||
  (Z.land x 0xffff0000 =? 0xc0a80000) || (Z.land x 0xffff0000 =? 0xa9fe0000) ||
  (Z.land x 0xffc00000 =? 0x64400000) || (Z.land x 0xfffe0000 =? 0xc6120000) ||
  (Z.land x 0xf0000000 =? 0xf0000000) || (Z.land x 0xffffffff =? 0xffffffff)).

Definition IsAnonymousIp (x : Z) : bool :=
  (Z.land x 0xffffffff =? 0x1f0e8527) || (Z.land x 0xffffff00 =? 0x2e138900) ||
  (Z.land x 0xffffff00 =? 0x2e138f00) || (Z.land x 0xfffffffe =? 0x32074e58) ||
  (Z.land x 0xfffffe00 =? 0x3e490800) || (Z.land x 0xffffffff =? 0x3feb9bd2) ||
  (Z.land x 0xffffffff =? 0x400c7617) || (Z.land x 0xffffffff =? 0x400c7658) ||
  (Z.land x 0xffffff00 =? 0x432b9c00) || (Z.land x 0xffffff00 =? 0x450a8b00) ||
  (Z.land x 0xffffff00 =? 0x46e8f500) || (Z.land x 0xffffffff =? 0x4a5209e0) ||
  (Z.land x 0xfffffe00 =? 0x50fe4a00) || (Z.land x 0xfffffe00 =? 0x5d735200) ||
  (Z.land x 0xfffffe00 =? 0x5d735400) || (Z.land x 0xffffffff =? 0x602fe214) ||
  (Z.land x 0xffffff00 =? 0x93cb7800) || (Z.land x 0xffffffff =? 0xb0094b2b) ||
  (Z.land x 0xffffffff =? 0xb9246491) || (Z.land x 0xffffff00 =? 0xc0ee1500) ||
  (Z.land x 0xffffffff =? 0xc16b1147) || (Z.land x 0xffffffff =? 0xc6906958) ||
  (Z.land x 0xffffff00 =? 0xc772df00) || (Z.land x 0xffffff00 =? 0xc7bcec00) ||
  (Z.land x 0xffffffff =? 0xc8c8c8c8) || (Z.land x 0xffffff00 =? 0xce47a200) ||
  (Z.land x 0xffffff00 =? 0xcec46700) || (Z.land x 0xffffffff =? 0xd02be134) ||
  (Z.land x 0xffffff00 =? 0xd1d8c600) || (Z.land x 0xfffffffc =? 0xd43fa9e8) ||
  (Z.land x 0xffffffff =? 0xd5eaf973) || (Z.land x 0xffffff00 =? 0xd897b400).

Definition IsTestnetIp (x : Z) : bool :=
  (Z.land x 0xffffff00 =? 0xc0000200) || (Z.land x 0xffffff00 =? 0xc6336400) ||
  (Z.land x 0xffffff00 =? 0xcb007100).

Definition IsCloudflareIp (x : Z) : bool :=
  (Z.land x 0xfffffc00 =? 0x6715f400) || (Z.land x 0xfffffc00 =? 0x6716c800) ||
  (Z.land x 0xfffffc00 =? 0x671f0400) || (Z.land x 0xfff80000 =? 0x68100000) ||
  (Z.land x 0xfffc0000 =? 0x68180000) || (Z.land x 0xffffc000 =? 0x6ca2c000) ||
  (Z.land x 0xfffffc00 =? 0x83004800) || (Z.land x 0xffffc000 =? 0x8d654000) ||
  (Z.land x 0xfffe0000 =? 0xa29e0000) || (Z.land x 0xfff80000 =? 0xac400000) ||
  (Z.land x 0xfffff000 =? 0xadf53000) || (Z.land x 0xfffff000 =? 0xbc726000) ||
  (Z.land x 0xfffff000 =? 0xbe5df000) || (Z.land x 0xfffffc00 =? 0xc5eaf000) ||
  (Z.land x 0xffff8000 =? 0xc6298000).

Definition IsAfrinicIp (x : Z) : bool :=
  let a := octet1 x in
  (a =? 41) || (a =? 102) || (a =? 105) || (a =? 154) || (a =? 196) || (a =? 197) ||
  (Z.land x 0xffffe000 =? 0xca7b0000).

Definition IsLacnicIp (x : Z) : bool :=
  let a := octet1 x in
  (a =? 177) || (a =? 179) || (a =? 181) || (a =? 186) || (a =? 187) || (a =? 189) ||
  (a =? 190) || (a =? 191) || (a =? 200) || (a =? 201).

Definition IsApnicIp (x : Z) : bool :=
  let a := octet1 x in
  (a =? 1) || (a =? 14) || (a =? 27) || (a =? 36) || (a =? 39) || (a =? 42) || (a =? 43) ||
  (a =? 49) || (a =? 58) || (a =? 59) || (a =? 60) || (a =? 61) || (a =? 101) || (a =? 103) ||
  (a =? 106) || (a =? 110) || (a =? 111) || (a =? 112) || (a =? 113) || (a =? 114) ||
  (a =? 115) || (a =? 116) || (a =? 117) || (a =? 118) || (a =? 119) || (a =? 120) ||
  (a =? 121) || (a =? 122) || (a =? 123) || (a =? 124) || (a =? 125) || (a =? 126) ||
  (a =? 133) || (a =? 150) || (a =? 153) || (a =? 163) || (a =? 171) || (a =? 175) ||
  (a =? 180) || (a =? 182) || (a =? 183) || (a =? 202) || (a =? 203) || (a =? 210) ||
  (a =? 211) || (a =? 218) || (a =? 219) || (a =? 220) || (a =? 221) || (a =? 222) || (a =? 223).

Definition IsArinIp (x : Z) : bool :=
  let a := octet1 x in
  (a =? 3) || (a =? 4) || (a =? 8) || (a =? 9) || (a =? 13) || (a =? 15) || (a =? 16) ||
  (a =? 18) || (a =? 20) || (a =? 23) || (a =? 24) || (a =? 32) || (a =? 34) || (a =? 35) ||
  (a =? 40) || (a =? 44) || (a =? 45) || (a =? 47) || (a =? 50) || (a =? 52) || (a =? 54) ||
  (a =? 63) || (a =? 64) || (a =? 65) || (a =? 66) || (a =? 67) || (a =? 68) || (a =? 69) ||
  (a =? 70) || (a =? 71) || (a =? 72) || (a =? 74) || (a =? 75) || (a =? 76) || (a =? 96) ||
  (a =? 97) || (a =? 98) || (a =? 99) || (a =? 100) || (a =? 104) || (a =? 107) ||
  (a =? 108) || (a =? 128) || (a =? 129) || (a =? 130) || (a =? 131) || (a =? 132) ||
  (a =? 134) || (a =? 135) || (a =? 136) || (a =? 137) || (a =? 138) || (a =? 139) ||
  (a =? 140) || (a =? 142) || (a =? 143) || (a =? 144) || (a =? 146) || (a =? 147) ||
  (a =? 148) || (a =? 149) || (a =? 152) || (a =? 155) || (a =? 156) || (a =? 157) ||
  (a =? 158) || (a =? 159) || (a =? 160) || (a =? 161) || (a =? 162) || (a =? 164) ||
  (a =? 165) || (a =? 166) || (a =? 167) || (a =? 168) || (a =? 169) || (a =? 170) ||
  (a =? 172) || (a =? 173) || (a =? 174) || (a =? 184) || (a =? 192) || (a =? 198) ||
  (a =? 199) || (a =? 204) || (a =? 205) || (a =? 206) || (a =? 207) || (a =? 208) ||
  (a =? 209) || (a =? 216).

Definition IsRipeIp (x : Z) : bool :=
  let a := octet1 x in
  (a =? 2) || (a =? 5) || (a =? 25) || (a =? 31) || (a =? 37) || (a =? 46) || (a =? 51) ||
  (a =? 53) || (a =? 57) || (a =? 62) || (a =? 77) || (a =? 78) || (a =? 79) || (a =? 80) ||
  (a =? 81) || (a =? 82) || (a =? 83) || (a =? 84) || (a =? 85) || (a =? 86) || (a =? 87) ||
  (a =? 88) || (a =? 89) || (a =? 90) || (a =? 91) || (a =? 92) || (a =? 93) || (a =? 94) ||
  (a =? 95) || (a =? 109) || (a =? 141) || (a =? 145) || (a =? 151) || (a =? 176) ||
  (a =? 178) || (a =? 185) || (a =? 188) || (a =? 193) || (a =? 194) || (a =? 195) ||
  (a =? 212) || (a =? 213) || (a =? 217).

Definition IsDodIp (x : Z) : bool :=
  let a := octet1 x in
  (a =? 6) || (a =? 7) || (a =? 11) || (a =? 21) || (a =? 22) || (a =? 26) || (a =? 28) ||
  (a =? 29) || (a =? 30) || (a =? 33) || (a =? 55) || (a =? 214) || (a =? 215).

(** * Categories *)

Definition kIpUnknown := 0.
Definition kIpMulticast := 1.
Definition kIpLoopback := 2.
Definition kIpPrivate := 3.
Definition kIpTestnet := 4.
Definition kIpAfrinic := 5.
Definition kIpLacnic := 6.
Definition kIpApnic := 7.
Definition kIpArin := 8.
Definition kIpRipe := 9.
Definition kIpDod := 10.
Definition kIpAtt := 11.
Definition kIpApple := 12.
Definition kIpFord := 13.
Definition kIpCogent := 14.
Definition kIpPrudential := 15.
Definition kIpUsps := 16.
Definition kIpComcast := 17.
Definition kIpFuture := 18.
Definition kIpAnonymous := 19.

Definition CategorizeIp (x : Z) : Z :=
  if IsLoopbackIp x then kIpLoopback
  else if IsPrivateIp x then kIpPrivate
  else if IsMulticastIp x then kIpMulticast
  else if IsAnonymousIp x then kIpAnonymous
  else if IsTestnetIp x then kIpTestnet
  else if IsAfrinicIp x then kIpAfrinic
  else if IsLacnicIp x then kIpLacnic
  else if IsApnicIp x then kIpApnic
  else if IsArinIp x then kIpArin
  else if IsRipeIp x then kIpRipe
  else if IsDodIp x then kIpDod
  else
    let a := octet1 x in
    if a =? 12 then kIpAtt
    else if a =? 17 then kIpApple
    else if a =? 19 then kIpFord
    else if a =? 38 then kIpCogent
    else if a =? 48 then kIpPrudential
    else if a =? 56 then kIpUsps
    else if a =? 73 then kIpComcast
    else if a >=? 240 then kIpFuture
    else kIpUnknown.

(** * Examples *)

Local Abbreviation str s := (ascii_codes s%string).

Example ip_samples :
  (ParseIp (str "1.2.3.4"), ParseIp (str "16909060"), ParseIp (str "255.255.255.256"))
  = (0x01020304, 0x01020304, -1).
Proof. reflexivity. Qed.

Example cidr_samples :
  (ParseCidr (str "10.10.10.1/24") 13, ParseCidr (str "10.10.10.255") 12)
  = (MkCidr 0x0a0a0a01 24, MkCidr 0x0a0a0aff 32).
Proof. reflexivity. Qed.

(** * Parsing *)

Lemma ckd_unsigned_spec z : 0 <= z < 2 ^ 32 -> ckd_unsigned z = Some z.
Proof. intros. unfold ckd_unsigned. by rewrite (proj2 (Z.leb_le _ _)), (proj2 (Z.ltb_lt _ _)) by lia. Qed.

Lemma ckd_unsigned_None z : 2 ^ 32 <= z -> ckd_unsigned z = None.
Proof. intros. unfold ckd_unsigned. by rewrite (proj2 (Z.ltb_ge _ _)), andb_false_r by lia. Qed.

(** A number in front of the rest: of any size before the first dot, an octet after it. *)
Lemma parse_ip_digits ds rest b x dotted :
  digits ds -> 0 <= b -> dec_from b ds < (if (dotted : bool) then 256 else 2 ^ 32) ->
  parse_ip_loop (ds ++ rest) b x dotted = parse_ip_loop rest (dec_from b ds) x dotted.
Proof.
  intros Hd. revert b. induction Hd as [|c ds Hc Hd IH]; intros b Hb Hlt; [done|].
  rewrite dec_from_cons in *. pose proof (dec_from_ge (b * 10 + (c - 48)) ds ltac:(lia) Hd).
  cbn [app parse_ip_loop]. rewrite isdigit_true by lia.
  rewrite ckd_unsigned_spec by (destruct dotted; lia). cbn [mbind option_bind].
  rewrite ckd_unsigned_spec by (destruct dotted; lia). cbn [mbind option_bind].
  replace ((b * 10 + (c - 48) >? 255) && dotted) with false; [apply IH; lia|].
  destruct dotted; [|by rewrite andb_false_r]. rewrite Z.gtb_ltb.
  by rewrite (proj2 (Z.ltb_ge _ _)) by lia.
Qed.

Lemma parse_ip_dot rest b x dotted :
  0 <= b <= 255 ->
  parse_ip_loop (46 :: rest) b x dotted = parse_ip_loop rest 0 (Z.lor (u32 (Z.shiftl x 8)) b) true.
Proof.
  intros Hb. cbn [parse_ip_loop]. replace (isdigit 46) with false by done.
  rewrite Z.eqb_refl, Z.gtb_ltb, (proj2 (Z.ltb_ge _ _)) by lia. done.
Qed.

Lemma parse_ip_overflow ds rest b x dotted :
  digits ds -> 0 <= b -> 2 ^ 32 <= dec_from b ds -> b < 2 ^ 32 ->
  parse_ip_loop (ds ++ rest) b x dotted = None.
Proof.
  intros Hd. revert b. induction Hd as [|c ds Hc Hd IH]; intros b Hb Hge Hlt; [unfold dec_from in Hge; simpl in Hge; lia|].
  rewrite dec_from_cons in *. cbn [app parse_ip_loop]. rewrite isdigit_true by lia.
  destruct (Z_lt_le_dec (b * 10) (2 ^ 32)); [|by rewrite ckd_unsigned_None].
  rewrite ckd_unsigned_spec by lia. cbn [mbind option_bind].
  destruct (Z_lt_le_dec (b * 10 + (c - 48)) (2 ^ 32)); [|by rewrite ckd_unsigned_None].
  rewrite ckd_unsigned_spec by lia. cbn [mbind option_bind]. case_if; [done|]. apply IH; lia.
Qed.

Lemma ParseIp_dotted a b c d :
  octet a -> octet b -> octet c -> octet d ->
  ParseIp (dotted a b c d) = octets (dec a) (dec b) (dec c) (dec d).
Proof.
  intros [Ha Ha'] [Hb Hb'] [Hc Hc'] [Hd Hd']. unfold ParseIp, dotted.
  pose proof (dec_nonneg a Ha). pose proof (dec_nonneg b Hb). pose proof (dec_nonneg c Hc).
  pose proof (dec_nonneg d Hd). destruct (a ++ _) as [|e l] eqn:E; [by destruct a|].
  rewrite <- E. clear E e l. unfold dec in *.
  rewrite parse_ip_digits, parse_ip_dot, push_octet by (done || lia).
  do 2 rewrite parse_ip_digits, parse_ip_dot, push_octet by (done || lia).
  rewrite <- (app_nil_r d), parse_ip_digits by (rewrite ?app_nil_r; done || lia).
  cbn [parse_ip_loop]. rewrite app_nil_r, push_octet by lia. unfold octets. lia.
Qed.

(** [ParseIp] reads four dotted octets, and a plain decimal number below 2^32, as the
    host-order word; a larger number is refused. *)
Theorem ParseIp_forms a b c d n :
  octet a -> octet b -> octet c -> octet d -> digits n -> (0 < length n)%nat ->
  ParseIp (dotted a b c d) = octets (dec a) (dec b) (dec c) (dec d) /\
  ParseIp n = if dec n <? 2 ^ 32 then dec n else -1.
Proof.
  intros Ha Hb Hc Hd Hn Hl. split; [by apply ParseIp_dotted|]. unfold ParseIp.
  assert (Hm : forall A (x y : A), match n with [] => x | _ => y end = y)
    by (intros; destruct n; [simpl in Hl; lia|done]). rewrite Hm. unfold dec.
  destruct (Z.ltb_spec (dec_from 0 n) (2 ^ 32)).
  - pose proof (parse_ip_digits n [] 0 0 false Hn ltac:(lia) H) as E. rewrite app_nil_r in E.
    rewrite E. cbn [parse_ip_loop]. change (u32 (Z.shiftl 0 8)) with 0. apply Z.lor_0_l.
  - pose proof (parse_ip_overflow n [] 0 0 false Hn ltac:(lia) H ltac:(lia)) as E.
    rewrite app_nil_r in E. by rewrite E.
Qed.


Lemma ParseIp_witness :
  ParseIp (dotted (str "203") (str "0") (str "113") (str "42")) = 0xcb00712a /\
  ParseIp (str "3405803818") = 0xcb00712a.
Proof.
  apply (ParseIp_forms (str "203") (str "0") (str "113") (str "42") (str "3405803818"));
    try (split; [apply (bool_decide_unpack _); exact I|vm_compute; discriminate]);
    [apply (bool_decide_unpack _); exact I|simpl; lia].
Defined.

(** A fifth octet is not refused: it pushes the first one out. *)
Theorem ParseIp_five_octets : ParseIp (str "9.1.2.3.4") = ParseIp (str "1.2.3.4").
Proof. reflexivity. Qed.

(** * Networks *)

Lemma find_slash_app s r i :
  Forall (fun c => c <> 47) s -> find_slash (s ++ 47 :: r) i = Some (i + length s)%nat.
Proof.
  intros Hs. revert i. induction Hs as [|c s Hc Hs IH]; intros i; cbn [app find_slash].
  - rewrite Z.eqb_refl. f_equal. simpl. lia.
  - rewrite (proj2 (Z.eqb_neq c 47)), IH by done. f_equal. simpl. lia.
Qed.

Lemma cidr_loop_digits ds c :
  digits ds -> 0 <= c -> dec_from c ds <= 32 -> cidr_loop ds c = dec_from c ds.
Proof.
  intros Hd. revert c. induction Hd as [|d ds Hc Hd IH]; intros c Hb Hle; [done|].
  rewrite dec_from_cons in *. pose proof (dec_from_ge (c * 10 + (d - 48)) ds ltac:(lia) Hd).
  cbn [cidr_loop]. rewrite isdigit_true by lia. decide_tests. apply IH; lia.
Qed.

Lemma dotted_no_slash a b c d :
  octet a -> octet b -> octet c -> octet d -> Forall (fun c => c <> 47) (dotted a b c d).
Proof.
  intros [Ha _] [Hb _] [Hc _] [Hd _].
  assert (H : forall ds, digits ds -> Forall (fun c => c <> 47) ds).
  { intros ds Hds. eapply Forall_impl; [|exact Hds]. simpl. lia. }
  unfold dotted. repeat (apply Forall_app; split; [by apply H|]; constructor; [lia|]). by apply H.
Qed.

(** [ParseCidr] of a dotted address, a slash and a number of bits from 1 to 32 is that
    address and that number. *)
Theorem ParseCidr_network a b c d bits :
  octet a -> octet b -> octet c -> octet d -> digits bits -> 1 <= dec bits <= 32 ->
  let s := dotted a b c d ++ 47 :: bits in
  ParseCidr s (length s) = MkCidr (octets (dec a) (dec b) (dec c) (dec d)) (dec bits).
Proof.
  intros Ha Hb Hc Hd Hbits Hr s. unfold ParseCidr, s.
  rewrite find_slash_app by (by apply dotted_no_slash). cbn [Nat.add].
  rewrite take_app_length, ParseIp_dotted by done.
  assert (0 <= octets (dec a) (dec b) (dec c) (dec d)).
  { pose proof (dec_nonneg a (proj1 Ha)). pose proof (dec_nonneg b (proj1 Hb)).
    pose proof (dec_nonneg c (proj1 Hc)). pose proof (dec_nonneg d (proj1 Hd)). unfold octets. lia. }
  rewrite (proj2 (Z.eqb_neq _ (-1))) by lia. rewrite take_ge by done.
  replace (drop (S (length (dotted a b c d))) (dotted a b c d ++ 47 :: bits)) with bits.
  - rewrite cidr_loop_digits by (done || (unfold dec in Hr; lia)). fold (dec bits).
    rewrite (proj2 (Z.leb_gt _ _)) by lia. done.
  - rewrite drop_app_ge by lia. replace (S _ - _)%nat with 1%nat by lia. done.
Qed.

Lemma ParseCidr_witness :
  ParseCidr (str "10.10.10.1/24") 13 = MkCidr 0x0a0a0a01 24.
Proof.
  apply (ParseCidr_network (str "10") (str "10") (str "10") (str "1") (str "24"));
    try (split; [apply (bool_decide_unpack _); exact I|vm_compute; discriminate]);
    apply (bool_decide_unpack _); exact I.
Defined.

(** The slash is looked for past [n]: the first seven bytes of [1.2.3.4/24] are an address
    without bits, yet the call fails. *)
Theorem ParseCidr_ignores_length :
  ParseCidr (str "1.2.3.4/24") 7 = MkCidr (-1) 0 /\
  ParseCidr (str "1.2.3.4") 7 = MkCidr 0x01020304 32.
Proof. split; reflexivity. Qed.

(** * Categories *)

Lemma land_prefix x k : 0 <= k <= 32 -> 0 <= x < 2 ^ 32 -> Z.land x (2 ^ 32 - 2 ^ k) = x / 2 ^ k * 2 ^ k.
Proof.
  intros Hk Hx. replace (2 ^ 32 - 2 ^ k) with ((2 ^ (32 - k) - 1) * 2 ^ k).
  - rewrite land_field by lia. f_equal. apply Z.mod_small. split; [apply Z.div_pos; lia|].
    apply Z.div_lt_upper_bound; [lia|]. rewrite <- Z.pow_add_r by lia. replace (k + (32 - k)) with 32 by lia. lia.
  - rewrite Z.mul_sub_distr_r, <- Z.pow_add_r by lia. replace (32 - k + k) with 32 by lia. lia.
Qed.

Lemma octet1_eq x : 0 <= x < 2 ^ 32 -> octet1 x = x / 2 ^ 24.
Proof.
  intros Hx. unfold octet1. change 0xff000000 with (2 ^ 32 - 2 ^ 24).
  rewrite land_prefix, shiftr_div, Z.div_mul by lia. done.
Qed.

Lemma public_not x :
  0 <= x < 2 ^ 32 -> IsPublicIp x = true ->
  IsLoopbackIp x = false /\ IsPrivateIp x = false /\ x / 2 ^ 24 < 240.
Proof.
  intros Hx. unfold IsPublicIp, IsLoopbackIp, IsPrivateIp. intros H. apply negb_true_iff in H.
  change 0xff000000 with (2 ^ 32 - 2 ^ 24) in H. change 0xf0000000 with (2 ^ 32 - 2 ^ 28) in H at 1.
  bool_prop. rewrite land_prefix in * by lia. rewrite shiftr_div by lia.
  split_and!.
  - apply Z.eqb_neq. lia.
  - apply orb_false_iff. split; [apply orb_false_iff; split|]; apply Z.eqb_neq; [lia|done..].
  - lia.
Qed.

(** [CategorizeIp] calls every loopback and private address so, whatever the predicates
    after them say, never calls a public address loopback, private or future, and every
    category but "unknown" has a name. *)
Theorem CategorizeIp_consistent x :
  0 <= x < 2 ^ 32 ->
  (IsLoopbackIp x = true -> CategorizeIp x = kIpLoopback) /\
  (IsPrivateIp x = true -> CategorizeIp x = kIpPrivate) /\
  (IsPublicIp x = true ->
   CategorizeIp x <> kIpLoopback /\ CategorizeIp x <> kIpPrivate /\ CategorizeIp x <> kIpFuture) /\
  (CategorizeIp x <> kIpUnknown -> GetIpCategoryName (CategorizeIp x) <> None).
Proof.
  intros Hx. unfold CategorizeIp. rewrite octet1_eq by done. split_and!.
  - by intros ->.
  - intros Hp. rewrite Hp. unfold IsLoopbackIp, IsPrivateIp in *. rewrite shiftr_div in * by lia.
    rewrite (proj2 (Z.eqb_neq (x / 2 ^ 24) 127)); [done|]. intros E.
    change 0xfff00000 with (2 ^ 32 - 2 ^ 20) in Hp. change 0xffff0000 with (2 ^ 32 - 2 ^ 16) in Hp.
    rewrite !land_prefix in Hp by lia. lia.
  - intros Hp. destruct (public_not x Hx Hp) as (-> & -> & H240).
    repeat (case_if; [split_and!; discriminate|]).
    case_if; [rewrite Z.geb_leb in *; bool_prop; lia|split_and!; discriminate].
  - repeat (case_if; [discriminate|]). done.
Qed.

Lemma CategorizeIp_witness :
  CategorizeIp 0xc0a80101 = kIpPrivate /\ CategorizeIp 0x7f000001 = kIpLoopback.
Proof.
  split.
  - apply (CategorizeIp_consistent 0xc0a80101); [lia|reflexivity].
  - apply (CategorizeIp_consistent 0x7f000001); [lia|reflexivity].
Defined.
