(* ===== verification/HttpPath.v ===== *)
(** Request paths and hosts: [net/http/isreasonablepath.c], [isacceptablepath.c] and
    [isacceptablehost.c]. A path is the list of its bytes; its characters are read as
    Thompson-Pike sequences, overlong ones included, by the loop of [HttpText.next_wint]. *)
From S2P Require Import Prelude Utf Tables HttpText HttpFields.

(** [x == '\\'] becomes a slash. *)
Definition slashed (x : Z) : Z := if x =? BSLASH then SLASH else x.

(** * IsReasonablePath *)

(** The loop and the tests after it; [x] is the last character read, [y] and [z] the two
    before the next. [None] is fuel run out. *)
Fixpoint reasonable_loop (fuel : nat) (p : list Z) (z y x : Z) : option bool :=
  match fuel with
  | O => None
  | S fuel' =>
    match p with
    | [] =>
      if (y =? SLASH) && (x =? DOT) then Some false
      else if (z =? SLASH) && (y =? DOT) && (x =? DOT) then Some false
      else Some true
    | b :: p' =>
      let '(x, p'') := next_wint b p' in
      let x := slashed x in
      if (z =? SLASH) && (y =? DOT) && (x =? SLASH) then Some false
      else if (z =? SLASH) && (y =? DOT) && (x =? DOT) then Some false
      else reasonable_loop fuel' p'' y x x
    end
  end.

Definition IsReasonablePath (data : list Z) : option bool :=
  reasonable_loop (S (length data)) data SLASH SLASH SLASH.

(** * IsAcceptablePath *)

Definition well_known : list Z := ascii_codes "/.well-known/"%string.

(** [t] tells that a character was read; [p - data] is what the rest is short of [data]. *)
Fixpoint acceptable_loop (fuel : nat) (data p : list Z) (y : Z) (t : bool) : option bool :=
  match fuel with
  | O => None
  | S fuel' =>
    match p with
    | [] => Some true
    | b :: p' =>
      let '(x, p'') := next_wint b p' in
      let x := slashed x in
      if (y =? SLASH) && (x =? DOT) &&
         ((2 <? length data - length p'')%nat || (length data <? 13)%nat ||
          negb (bool_decide (take 13 data = well_known)))
      then Some false
      else if (y =? SLASH) && (x =? SLASH) && t then Some false
      else acceptable_loop fuel' data p'' x true
    end
  end.

Definition IsAcceptablePath (data : list Z) : option bool :=
  acceptable_loop (S (length data)) data data SLASH false.

(** * IsAcceptableHost *)

Definition DNS_NAME_MAX : nat := 253.

(** The inner loop, which runs to the end of the name; [start] tells that the index is zero
    or follows a dot. *)
Fixpoint host_name (s : list Z) (start : bool) : bool :=
  match s with
  | [] => true
  | c :: s' =>
    if (tab kHostChars c =? 0) && (negb (c =? DOT) || start) then false
    else host_name s' (c =? DOT)
  end.

(** The outer loop over digits and dots; [j] counts the dots. The octet the source adds up in
    [b] is never read. *)
Fixpoint host_loop (s : list Z) (start : bool) (j : nat) : bool :=
  match s with
  | [] => if negb (j =? 3)%nat then false else if start then false else true
  | c :: s' =>
    if isdigit c then host_loop s' false j
    else if c =? DOT then if start then false else host_loop s' true (S j)
    else host_name s start
  end.

Definition IsAcceptableHost (s : list Z) : bool :=
  match s with
  | [] => true
  | _ => if (DNS_NAME_MAX <? length s)%nat then false else host_loop s true 0
  end.

(** * Examples *)

Local Abbreviation str s := (ascii_codes s%string).

Example path_samples :
  (IsReasonablePath <$> [str "/a/../b"; str "/a/./b"; str "/a/b.."; str "/.git/x"; str "/a/..."],
   IsAcceptablePath <$> [str "/a//b"; str "/.git/x"; str "/.well-known/acme"; str "/a/b"; str "x/.y"])
  = ([Some false; Some false; Some true; Some true; Some false],
     [Some false; Some false; Some true; Some true; Some false]).
Proof. reflexivity. Qed.

(** Overlong encodings of a dot and of a slash are seen through. *)
Example path_overlong :
  (IsReasonablePath [0x2F; 0xC0; 0xAE; 0xC0; 0xAE; 0x2F], IsAcceptablePath [0x61; 0xC0; 0xAF; 0xC0; 0xAE])
  = (Some false, Some false).
Proof. reflexivity. Qed.

Example host_samples :
  IsAcceptableHost <$> [str ""; str "1.2.3.4"; str "1.2.3.4.arpa"; str "localservice"; str "_hello.example";
    str "1.2.3"; str "1.2.3.4.5"; str ".hi.example"; str "hi..example"; str "::1"]
  = [true; true; true; true; true; false; false; false; false; false].
Proof. reflexivity. Qed.
