(* ===== verification/HttpPathFacts.v ===== *)
(** Correctness of the path and host checks of [HttpPath.v]: a reasonable path has no dot
    segments, an acceptable path is reasonable, hides nothing and has no empty segments, and
    an acceptable host is a dotted quad or a name with no empty labels. *)
From stdpp Require Import sets.
From S2P Require Import Prelude Utf Tables HttpText HttpTextFacts HttpFields HttpFieldsFacts HttpPath.

(** * Characters and segments *)

(** The characters of a path, with backslashes as slashes. *)
Fixpoint path_chars (fuel : nat) (p : list Z) : list Z :=
  match fuel with
  | O => []
  | S fuel' =>
    match p with
    | [] => []
    | b :: p' => let '(x, p'') := next_wint b p' in slashed x :: path_chars fuel' p''
    end
  end.

Definition chars (data : list Z) : list Z := path_chars (S (length data)) data.

(** The parts between the slashes. *)
Fixpoint segments (xs : list Z) : list (list Z) :=
  match xs with
  | [] => [[]]
  | x :: xs' =>
    if x =? SLASH then [] :: segments xs'
    else match segments xs' with
         | s :: ss => (x :: s) :: ss
         | [] => [[x]]
         end
  end.

(** Neither [.] nor anything that starts with [..]. *)
Definition no_dots (s : list Z) : bool :=
  match s with
  | 46 :: [] => false
  | 46 :: 46 :: _ => false
  | _ => true
  end.

Lemma segments_cons xs : exists s ss, segments xs = s :: ss.
Proof.
  induction xs as [|x xs (s & ss & E)]; simpl; [by eexists _, _|].
  case_if; [by eexists _, _|]. rewrite E. by eexists _, _.
Qed.

(** * Reasonable paths *)

(** The test of the loop on characters. *)
Fixpoint dot_check (z y : Z) (xs : list Z) : bool :=
  match xs with
  | [] => negb ((z =? SLASH) && (y =? DOT))
  | x :: xs' =>
    if (z =? SLASH) && (y =? DOT) && ((x =? SLASH) || (x =? DOT)) then false else dot_check y x xs'
  end.

Lemma no_dots_other x s : x <> DOT -> no_dots (x :: s) = true.
Proof.
  intros Hx. unfold no_dots. destruct x as [|q|q]; try done.
  do 6 (destruct q as [q|q|]; try done).
Qed.

Lemma no_dots_second x s : x <> DOT -> no_dots (DOT :: x :: s) = true.
Proof.
  intros Hx. unfold no_dots. destruct x as [|q|q]; try done.
  do 6 (destruct q as [q|q|]; try done).
Qed.

Lemma slash_dot b : b && (SLASH =? DOT) = false.
Proof. by destruct b. Qed.

(** Where the loop stands inside a segment: at its start, after a first dot, or past the point
    where it could be a dot segment. *)
Lemma dot_check_spec xs :
  (forall z, dot_check z SLASH xs = forallb no_dots (segments xs)) /\
  (forall s ss, segments xs = s :: ss -> dot_check SLASH DOT xs = no_dots (DOT :: s) && forallb no_dots ss) /\
  (forall z y s ss, segments xs = s :: ss -> y <> SLASH -> (z = SLASH -> y <> DOT) ->
     dot_check z y xs = forallb no_dots ss).
Proof.
  induction xs as [|x xs (IHA & IHB & IHC)].
  { split_and!; [intros z; cbn [dot_check]; by rewrite slash_dot|by intros s ss [= <- <-]|].
    intros z y s ss [= <- <-] Hy Hz. simpl. destruct (Z.eqb_spec z SLASH), (Z.eqb_spec y DOT); try done.
    by destruct (Hz e). }
  destruct (segments_cons xs) as (s0 & ss0 & E0). cbn [segments dot_check]. rewrite E0.
  destruct (Z.eqb_spec x SLASH) as [->|Hs].
  - split_and!.
    + intros z. rewrite slash_dot.
      cbn [andb]. rewrite IHA, E0. done.
    + intros s ss [= <- <-]. done.
    + intros z y s ss [= <- <-] Hy Hz. rewrite IHA, E0.
      destruct (Z.eqb_spec z SLASH), (Z.eqb_spec y DOT); try done. by destruct (Hz e).
  - destruct (Z.eqb_spec x DOT) as [->|Hd].
    + split_and!.
      * intros z. rewrite slash_dot.
        cbn [andb]. rewrite (IHB s0 ss0 E0). done.
      * intros s ss [= <- <-]. done.
      * intros z y s ss [= <- <-] Hy Hz.
        replace ((z =? SLASH) && (y =? DOT)) with false; [by apply (IHC y DOT s0 ss0)|].
        symmetry. destruct (Z.eqb_spec z SLASH), (Z.eqb_spec y DOT); try done. by destruct (Hz e).
    + split_and!.
      * intros z. rewrite slash_dot.
        cbn [andb forallb]. rewrite (IHC SLASH x s0 ss0 E0), no_dots_other by done. done.
      * intros s ss [= <- <-]. rewrite no_dots_second by done. simpl. apply (IHC DOT x s0 ss0); auto.
      * intros z y s ss [= <- <-] Hy Hz. rewrite andb_false_r. apply (IHC y x s0 ss0); auto.
Qed.

Lemma reasonable_loop_spec fuel p z y :
  Forall is_byte p -> (length p < fuel)%nat ->
  reasonable_loop fuel p z y y = Some (dot_check z y (path_chars fuel p)).
Proof.
  revert p z y. induction fuel as [|fuel IH]; intros p z y Hp Hf; [lia|]. cbn [reasonable_loop path_chars].
  destruct p as [|b p].
  - cbn [dot_check]. destruct (Z.eqb_spec y SLASH) as [->|]; cbn [andb]; [by destruct (z =? SLASH)|].
    destruct (z =? SLASH), (y =? DOT); done.
  - apply Forall_cons_1 in Hp as [Hb Hp].
    destruct (next_wint b p) as [x p'] eqn:E.
    destruct (next_wint_spec b p x p' Hb Hp E) as (_ & used & Hu & _).
    cbn [dot_check]. set (c := slashed x). rewrite IH.
    + destruct ((z =? SLASH) && (y =? DOT)); [|done]. by destruct (c =? SLASH), (c =? DOT).
    + subst p. by apply Forall_app in Hp as [_ Hp].
    + subst p. simpl in Hf. rewrite length_app in Hf. lia.
Qed.

Lemma IsReasonablePath_spec data :
  Forall is_byte data -> IsReasonablePath data = Some (forallb no_dots (segments (chars data))).
Proof.
  intros Hd. unfold IsReasonablePath. rewrite reasonable_loop_spec by (done || lia).
  f_equal. apply (dot_check_spec (chars data)).
Qed.

(** A segment that only starts with two dots is refused too. *)
Theorem IsReasonablePath_refuses_dotdot_names :
  IsReasonablePath (ascii_codes "/a/..b"%string) = Some false.
Proof. reflexivity. Qed.

(** * Acceptable paths *)

(** A byte below the first lead byte is its own character. *)
Lemma next_wint_ascii b p : 0 <= b < 0xC0 -> next_wint b p = (b, p).
Proof.
  intros Hb. unfold next_wint. rewrite byte_land by (unfold is_byte; lia).
  by rewrite (proj2 (Z.leb_gt _ _)) by lia.
Qed.

Lemma well_known_bytes data k b :
  take 13 data = well_known -> well_known !! k = Some b -> data !! k = Some b.
Proof.
  intros E Hk. rewrite <- E in Hk. pose proof (lookup_lt_Some _ _ _ Hk) as Hl.
  rewrite length_take in Hl. by rewrite lookup_take_lt in Hk by lia.
Qed.

(** What the loop knows of the rest: it is a suffix, and after a leading dot it is inside
    [.well-known]. *)
Record accepting (data p : list Z) (z y : Z) : Prop := {
  acc_suffix : exists k, p = drop k data /\ (k <= length data)%nat;
  acc_bytes : Forall is_byte data;
  acc_dot : z = SLASH -> y = DOT -> exists q, p = 119 :: q }.

Lemma acceptable_next data b p z y x p'' :
  accepting data (b :: p) z y -> next_wint b p = (x, p'') ->
  (y = SLASH -> slashed x = DOT ->
   (length data - length p'' <= 2)%nat /\ take 13 data = well_known) ->
  accepting data p'' y (slashed x) /\
  (z = SLASH -> y = DOT -> slashed x <> SLASH /\ slashed x <> DOT).
Proof.
  intros [(k & Ep & Hk) Hbytes Hdot] E Hx.
  assert (Hb : Forall is_byte (b :: p)) by (rewrite Ep; by apply Forall_drop).
  apply Forall_cons_1 in Hb as [Hb Hp].
  destruct (next_wint_spec b p x p'' Hb Hp E) as (_ & used & Hu & _).
  assert (Hlen : (S (length p) = length data - k)%nat).
  { rewrite <- length_drop, <- Ep. done. }
  assert (Hp'' : p'' = drop (k + 1 + length used) data).
  { rewrite <- !drop_drop, <- Ep. change (drop 1 (b :: p)) with p.
    rewrite Hu. by rewrite drop_app_length. }
  assert (Hl'' : (length p = length used + length p'')%nat) by (rewrite Hu; by rewrite length_app).
  split.
  - split; [exists (k + 1 + length used)%nat; split; [done|lia]|done|].
    intros -> Hd. destruct (Hx eq_refl Hd) as [H2 Hw].
    pose proof (lookup_drop data k 0) as H0. rewrite <- Ep, Nat.add_0_r in H0. cbn in H0.
    assert (Hascii : 0 <= b < 0xC0 -> x = b /\ used = []).
    { intros Hb'. rewrite next_wint_ascii in E by done. injection E as -> ->.
      split; [done|]. apply nil_length_inv. lia. }
    assert (Hk2 : k = 0%nat \/ k = 1%nat) by lia. destruct Hk2 as [-> | ->].
    + pose proof (well_known_bytes data 0 47 Hw eq_refl) as Hb0. rewrite Hb0 in H0. injection H0 as ->.
      destruct (Hascii ltac:(lia)) as [-> _]. done.
    + pose proof (well_known_bytes data 1 46 Hw eq_refl) as Hb1. rewrite Hb1 in H0. injection H0 as ->.
      destruct (Hascii ltac:(lia)) as [_ ->]. cbn in Hp''.
      pose proof (well_known_bytes data 2 119 Hw eq_refl) as Hb2.
      exists (drop 3 data). rewrite Hp''. by apply drop_S.
  - intros Hz Hy. destruct (Hdot Hz Hy) as [q [= -> ->]].
    rewrite next_wint_ascii in E by lia. injection E as <- <-. done.
Qed.

Lemma acceptable_loop_spec data fuel p z y t :
  accepting data p z y -> (length p < fuel)%nat -> acceptable_loop fuel data p y t = Some true ->
  reasonable_loop fuel p z y y = Some true /\
  (t = true -> y = SLASH -> head (path_chars fuel p) <> Some SLASH) /\
  (forall i, path_chars fuel p !! i = Some SLASH -> path_chars fuel p !! (S i) <> Some SLASH).
Proof.
  revert p z y t. induction fuel as [|fuel IH]; intros p z y t Hacc Hf; [lia|].
  cbn [acceptable_loop reasonable_loop path_chars]. destruct p as [|b p].
  { intros _. split_and!; [|done|done].
    destruct (Z.eqb_spec z SLASH) as [->|]; cbn [andb].
    - destruct (Z.eqb_spec y DOT) as [->|]; [by destruct (acc_dot _ _ _ _ Hacc eq_refl eq_refl)|].
      by rewrite andb_false_r.
    - destruct (Z.eqb_spec y SLASH) as [->|]; [|done]. done. }
  destruct (next_wint b p) as [x p''] eqn:E. set (c := slashed x).
  destruct ((y =? SLASH) && (c =? DOT) && _) eqn:E1; [done|].
  destruct ((y =? SLASH) && (c =? SLASH) && t) eqn:E2; [done|]. intros Hloop.
  destruct (acceptable_next data b p z y x p'' Hacc E) as [Hacc' Hzy].
  { intros -> Hc. fold c in Hc. rewrite Hc in E1. rewrite !Z.eqb_refl in E1. cbn [andb] in E1. apply orb_false_iff in E1 as [E1 E3].
    apply orb_false_iff in E1 as [E1 _]. apply Nat.ltb_ge in E1. split; [lia|].
    apply negb_false_iff, bool_decide_eq_true in E3. done. }
  fold c in Hacc', Hzy.
  assert (Hlen : (length p'' < fuel)%nat).
  { assert (Hb : Forall is_byte (b :: p)).
    { destruct Hacc as [(k & -> & _) Hbs _]. by apply Forall_drop. }
    apply Forall_cons_1 in Hb as [Hb Hp]. pose proof (next_wint_consumes b p x p'' Hb Hp E).
    simpl in Hf. lia. }
  destruct (IH p'' y c true Hacc' Hlen Hloop) as (IH1 & IH2 & IH3). split_and!.
  - destruct (Z.eqb_spec z SLASH) as [->|]; cbn [andb]; [|done].
    destruct (Z.eqb_spec y DOT) as [->|]; cbn [andb]; [|done].
    destruct (Hzy eq_refl eq_refl) as [H1 H2]. by rewrite (proj2 (Z.eqb_neq _ _) H1), (proj2 (Z.eqb_neq _ _) H2).
  - intros -> ->. cbn [head]. intros [= Hc]. rewrite Hc in E2. done.
  - intros [|i] Hi; cbn in Hi |- *.
    + injection Hi as Hc. specialize (IH2 eq_refl Hc). by rewrite head_lookup in IH2.
    + by apply IH3.
Qed.



(** * Acceptable hosts *)

Definition host_char (c : Z) : Prop := tab kHostChars c <> 0 \/ c = DOT.
Definition numeric (c : Z) : Prop := isdigit c = true \/ c = DOT.
Definition dots (s : list Z) : nat := length (filter (fun c => c = DOT) s).

(** No dot follows a dot, nor [start]. *)
Definition no_gap (start : bool) (s : list Z) : Prop :=
  (start = true -> head s <> Some DOT) /\ forall i, s !! i = Some DOT -> s !! S i <> Some DOT.

Definition undotted (start : bool) (s : list Z) : Prop :=
  match list.last s with Some c => c <> DOT | None => start = false end.

Lemma no_gap_cons start c s :
  no_gap start (c :: s) <-> (start = true -> c <> DOT) /\ no_gap (c =? DOT) s.
Proof.
  unfold no_gap. cbn [head]. split.
  - intros [H1 H2]. split_and!; [naive_solver| |intros i; exact (H2 (S i))].
    intros ->%Z.eqb_eq. specialize (H2 0%nat eq_refl). by rewrite head_lookup.
  - intros (H1 & H2 & H3). split; [naive_solver|]. intros [|i]; [|exact (H3 i)]. cbn [lookup list_lookup].
    intros [= ->]. pose proof (H2 (Z.eqb_refl _)) as H. by rewrite head_lookup in H.
Qed.

Lemma undotted_cons start c s : undotted start (c :: s) <-> undotted (c =? DOT) s.
Proof.
  unfold undotted. destruct s as [|d s]; [cbn; by rewrite Z.eqb_neq|].
  rewrite last_cons_cons. by destruct (list.last (d :: s)) eqn:E; [|by apply last_None in E].
Qed.

Lemma dots_cons c s : dots (c :: s) = ((if (c =? DOT)%Z then 1 else 0) + dots s)%nat.
Proof. unfold dots. rewrite filter_cons. destruct (Z.eqb_spec c DOT); by case_decide. Qed.

Lemma digit_host_char c : isdigit c = true -> host_char c.
Proof.
  intros Hc%isdigit_spec. left.
  assert (Hall : Forall (fun k => tab kHostChars k = 1) (seqZ 48 10)) by (apply (bool_decide_unpack _); exact I).
  rewrite list.Forall_forall in Hall. rewrite Hall; [done|]. apply elem_of_seqZ. lia.
Qed.

Lemma host_name_spec s start :
  host_name s start = true <-> Forall host_char s /\ no_gap start s.
Proof.
  revert start. induction s as [|c s IH]; intros start; cbn [host_name].
  { split; [|done]. intros _. split; [constructor|]. by split. }
  rewrite list.Forall_cons, no_gap_cons. unfold host_char at 1.
  destruct (Z.eqb_spec (tab kHostChars c) 0) as [H0|H0], (Z.eqb_spec c DOT) as [->|Hc], start;
    cbn [andb orb negb]; rewrite ?IH; naive_solver.
Qed.

Lemma host_loop_spec s start j :
  host_loop s start j = true <->
  Forall host_char s /\ no_gap start s /\ (Forall numeric s -> (j + dots s = 3)%nat /\ undotted start s).
Proof.
  revert start j. induction s as [|c s IH]; intros start j; cbn [host_loop].
  { unfold no_gap, undotted, dots. cbn. rewrite Nat.add_0_r.
    destruct (Nat.eqb_spec j 3), start; cbn; naive_solver. }
  rewrite !list.Forall_cons, no_gap_cons, undotted_cons, dots_cons.
  pose proof (digit_host_char c) as Hd.
  destruct (isdigit c) eqn:Ed; [|destruct (Z.eqb_spec c DOT) as [->|Hc]].
  - assert (c <> DOT) by (intros ->; done).
    rewrite IH, (proj2 (Z.eqb_neq c DOT)) by done. unfold numeric at 2. naive_solver.
  - destruct start; [naive_solver|]. rewrite IH, <- Nat.add_succ_comm. unfold host_char at 2, numeric at 2.
    naive_solver.
  - rewrite host_name_spec, list.Forall_cons, no_gap_cons, (proj2 (Z.eqb_neq c DOT) Hc).
    assert (Hn : ~ numeric c) by (unfold numeric; rewrite Ed; intuition congruence).
    clear IH Hd Ed. tauto.
Qed.

(** What a host has to be. *)
Record acceptable_host (s : list Z) : Prop := {
  host_short : (length s <= 253)%nat;
  host_chars : Forall host_char s;
  host_labels : no_gap true s;
  host_quad : Forall numeric s -> dots s = 3%nat /\ undotted true s }.

(** [IsAcceptableHost] says yes to the empty host and exactly to the names of at most 253
    host characters and dots with no empty label before the last, which, when they are all
    digits and dots, have three dots and do not end in one. *)
Theorem IsAcceptableHost_exact s :
  IsAcceptableHost s = true <-> s = [] \/ acceptable_host s.
Proof.
  destruct s as [|c s]; [by split; [left|]|]. unfold IsAcceptableHost, DNS_NAME_MAX.
  assert (Hiff : host_loop (c :: s) true 0 = true /\ (length (c :: s) <= 253)%nat <->
                 acceptable_host (c :: s)).
  { rewrite host_loop_spec. split; [intros [(?&?&?) ?]; by split|intros [? ? ? ?]; done]. }
  destruct (Nat.ltb_spec 253 (length (c :: s))); [|naive_solver].
  split; [done|]. intros [|[? _ _ _]]; [done|]. lia.
Qed.

(** The value of an octet is not looked at. *)
Theorem IsAcceptableHost_any_octet :
  IsAcceptableHost (ascii_codes "999.1.2.3"%string) = true.
Proof. reflexivity. Qed.
